(* ===== verification/_CoqProject ===== *)
-Q . S2P
Prelude.v
Levels.v
Heap.v
KeyNames.v
Keys.v
KeySetBase.v
Meta.v
KeyTest.v
KeySets.v
Lookup.v
Env.v
Proposal.v
TopSort.v
Trie.v
KdbState.v
Plugin.v
Split.v
Backend.v
Mount.v
Kdb.v
KdbSet.v
KdbOpen.v
Traces.v
KdbFacts.v
TopSortFacts.v
HeapFacts.v
Compare.v
KeySetFacts.v
MetaFacts.v
DeleteFacts.v
AppendFacts.v
LookupFacts.v
Hierarchy.v
NameFacts.v
CutFacts.v
Merge.v
SetMeta.v
Duplicate.v
Divide.v
Gather.v
Sync.v
Buildup.v
Transaction.v
GetFacts.v
Ease.v
Stdio.v
Filter.v
Entries.v
Hexcode.v
Ccode.v
Base64.v
Cachefilter.v
Lineendings.v
Line.v
LineFacts.v
Boolean.v
Null.v
MetaLib.v
Rename.v
Spec.v
SpecFacts.v
Csvstorage.v
CsvFacts.v
Enum.v
Glob.v
Profile.v
Keytometa.v
Hosts.v
ListPlugin.v
Checks.v
Simpleini.v
MetaLibFacts.v
Demo.v
KdbDemo.v
MetaDemo.v
Vstack.v
Vheap.v
Opmphm.v
Witnesses.v
PluginWitnesses.v
