(* ===== verification/Prelude.v ===== *)
(** * A verification of the core of Elektra

    Elektra is a C library that keeps configuration in a key database.  A key
    has a hierarchical name, a value and metadata, which are keys themselves; a
    keyset is a sorted array of references to keys; a handle of the key database
    divides a keyset by mountpoints and has plugins read and write the parts.
    This development models the C code of the core under [src/src/libs] as
    functions and proves what makes it correct.  Paths below are relative to
    [src/src].

    ** How C is modelled

    A string is the list of its characters without the NUL at its end, a pointer
    into it a suffix of the list ([Prelude]).  Keys and keysets live in a heap of
    two finite maps ([Heap]); a [ptr] is [None] for NULL or an address.  A
    computation [M A] takes a heap and returns a value and a heap, or is
    [Undefined] where the code has undefined behaviour (a pointer that dangles
    or is NULL is read, memory outside of a block or never written is read), or
    runs out of [NoFuel].  Plugins, backends, splits and handles live in a second
    state, whose monad [K] embeds [M] and records every call of a plugin in a
    trace ([KdbState]).  Sizes and counters that the code compares or that can
    overflow are [Z]; flags are bits of a [Z].  The counter of references to a key is a
    [nat] that [keyIncRef] leaves at [SSIZE_MAX].  Allocation succeeds, except in
    [Vstack] and [Vheap], where the result of [realloc] is an argument.

    ** The parts

    - [Levels]: [libs/elektra/internal.c], the escaping and validation of names,
      and the scanner [keyNameGetOneLevel] of [libs/elektra/keyhelpers.c].
    - [KeyNames], [Keys]: [keyname.c], [keyhelpers.c] and the parts of [key.c]
      and [keytest.c] that need no metadata.  A key name is kept escaped and
      unescaped; [KeyNames] has what happens to the buffers, [Keys] to the key.
    - [KeySetBase]: array, cursor, popping and deletion of a keyset
      ([keyset.c], [key.c]).
    - [Meta]: [keyGetMeta], values, the owner, setting a name, and the
      comparisons of keys ([keymeta.c], [keyvalue.c], [owner.c], [keyset.c]).
    - [KeyTest]: the relations of [keytest.c].
    - [KeySets]: [ksAppendKey], [ksAppend], [ksCut], copies, and the operations
      of keys that change metadata.
    - [Lookup]: [ksLookup] and all its variants.  [ksLookup], [keyDel] and
      [keySetOwner] call each other through keys that are metadata; the
      functions take these three as the class [Rec], and [knot] ties them to a
      depth.  [Env] fixes the callbacks of the application and this depth.
    - [Ease]: [libs/ease].  [Proposal]: [libs/proposal], [elektra/proposal.c] and
      the comparisons of [keytest.c].  [MetaLib], [TopSort]: [libs/meta/meta.c].
    - [Trie], [Plugin], [Split], [Backend], [Mount], [Kdb], [KdbSet], [KdbOpen]:
      [trie.c], [plugin.c], [split.c], [backend.c], [mount.c] and [kdb.c] of
      [libs/elektra].
    - [Vstack], [Vheap], [Opmphm]: [opmphm_vstack.c], [opmphm_vheap.c], and the
      hash function and the mapping of the perfect hash map of [opmphm.c].
    - [Filter]: what filter plugins share, passing over the keys of a keyset and
      recoding their values.  [Hexcode], [Ccode], [Base64], [Cachefilter] (with the
      plugin hidden), [Boolean], [Null], [Rename], [Spec]: the plugins of these names
      under [plugins].
    - [Stdio]: the bytes of a file and the functions of the C library that read them.
      [Lineendings], [Line], [Csvstorage], [Hosts]: the plugins of these names under
      [plugins].
    - [Enum], [Glob], [Profile], [Keytometa], [ListPlugin], [Simpleini] and [Checks], for
      validation, path, network, error, required and iterate: more plugins that check,
      change or store keys.

    Each function has the name it has in C.  A loop is a function of its own
    when it is not a structural recursion on a list.

    ** The theorems

    - Names: unescaping inverts escaping, buffers are large enough, names are
      validated ([Levels]); adding and setting base names are operations on lists
      of parts ([NameFacts]); [keyIsBelow] is the prefix order ([Hierarchy]).
    - Order: comparing names is lexicographic and keeps hierarchies together
      ([Compare]); [keyCmp] is a total order by name and owner ([MetaFacts]).
    - Keysets: [ks_rep] relates a keyset to the list of its keys, [keyset_ok]
      adds that it is sorted.  Searching, appending, replacing, popping,
      resizing and iterating ([KeySetFacts], [AppendFacts]), cutting
      ([CutFacts]), looking up by name and cascading ([LookupFacts]), reference
      counts and freeing ([DeleteFacts]) are total: [wp] of [HeapFacts] says
      that the code returns without undefined behaviour and enough fuel.
      [ksAppend] is the sorted union of two keysets ([Merge]); copies of keysets
      share the keys, copies of keys have their own metadata ([Duplicate]).
    - Metadata: [metadata] relates a key to a finite map from names to values;
      [keySetMeta] is insertion and deletion there ([SetMeta]).
    - What a plugin does to one key of a keyset is reasoned about without the heap:
      [Entries] relates a keyset to a list of names, values and maps of metadata,
      and passes over the keyset to a function on it.
    - Key database: [Traces] has a logic for the calls of plugins.
      [Buildup] says which parts [splitBuildup] copies from the handle: that of the parent
      key's own backend and those mounted below it.
      [Transaction] shows that [kdbSet] writes exactly the parts that [splitDivide]
      and [splitSync] mark in this copy, and commits exactly when no plugin failed
      before the commit; [GetFacts] that [kdbGet] calls the resolvers of all parts of
      the copy and updates exactly those whose resolver reported a change.  They hold
      for all functions of plugins; they say what happens when the code returns,
      because the plugins may do anything.
    - Mountpoints: the trie is a map from mountpoints to backends ([Trie]); the
      backend of a key is the one of the longest mountpoint that is a prefix of
      its name, and [splitDivide] sends every key there ([Divide], total: [kwp]
      is [wp] for the second state).  [splitMerge] puts the parts together again
      ([Gather]); [splitSync] decides which parts have to be written ([Sync]).
    - Plugins: decoding inverts encoding for every keyset ([Hexcode], [Ccode]) and
      every byte string ([Base64]), inside of the buffers; keys set aside come back
      ([Cachefilter]); normalised booleans are restored ([Boolean]) and marked values
      ([Null]); the levels of a name are converted one by one ([Rename]); a
      specification becomes a pattern ([Spec]), and its metadata is copied to a key and
      removed again ([SpecFacts]).
    - Files: the line endings of a text get the verdict of a reference definition
      ([Lineendings]); a file of lines is read into an array and written back byte by
      byte ([LineFacts]); reading the text of a table goes through its rows and columns
      ([CsvFacts]).  Smaller facts are in the files of their plugins: which placement
      [ListPlugin] goes on with, what the format of [Simpleini] prints, and that cutting
      words only overwrites delimiters ([Checks]).
    - The mapping of the perfect hash map builds the graph of up to 2^31 names, the
      number from which on its [int] links wrap around ([Opmphm]).
    - Sorting by dependencies ends, and places every key behind those it depends
      on exactly when there is no cycle ([TopSortFacts], [MetaLibFacts]).
    - Stack and heap refine a list and a multiset and stay inside their blocks,
      also when they grow and shrink ([Vstack], [Vheap]).

    [Demo], [KdbDemo] and [MetaDemo] are concrete states; [Witnesses] and
    [PluginWitnesses] apply the theorems to them.

    ** Fuel

    Loops over a keyset have as many turns as the keyset has keys and one more
    ([ks_turns]); loops over a string one per character; [splitBuildup] calls
    itself once.  [frontier_loop], [resolve_loop] and [sort_loop] of [TopSort]
    have bounds that are proved to be enough.  [print_base] has the 22 digits an
    octal number of 64 bits can have.  The depth of [knot] is a parameter of
    [Env]; the theorems about lookup hold for all depths above a small constant.

    ** Parameters

    The class [Callbacks] of [Lookup] stands for the callbacks of an application.
    The class [Modules] of [KdbState] stands for the functions of plugins,
    the module loader, the generated functions that report errors and warnings,
    and the constants of the build.  The plugins that read files have [fopen] as an
    argument, a function from names to bytes.

    ** Not modelled

    [errno], log messages and the assertions of debug builds; the module loader,
    which is input and output; generated code; [keySetStringF] and the other
    printf-like functions; all other plugins; bindings and tools.  The private
    data of a plugin ([elektraPluginGetData], [elektraPluginSetData]) is an argument
    and a result of the functions of the plugin.

    Not proved: [splitAppoint] and [mountBackend] beyond what [Transaction] and
    [GetFacts] say of them, [keyCopyMeta], the round trip of the rename plugin over a
    keyset, and what [Enum], [Glob], [Profile], [Keytometa] and [Hosts] do to a
    keyset, which are definitions to run. *)
From Stdlib Require Export Ascii Lia ZArith.
From Stdlib Require String.
From stdpp Require Export base numbers list gmap strings option sorting.
Export stdpp.list_basics.list stdpp.list_relations.list stdpp.list_monad.list stdpp.list_misc.list.

(** ** C characters and C strings

    A [char] is an [ascii] value.  A C string is the list of its characters
    without the terminating NUL, so [strlen] is [length], a pointer into a
    string is a suffix of the list and dereferencing the pointer past the last
    character gives NUL. *)
#[global] Open Scope nat_scope.

Abbreviation cstr := (list ascii).
Abbreviation NUL := ("000"%char).
Abbreviation SLASH := ("/"%char).
Abbreviation BSLASH := ("\"%char).

Definition lit (s : string) : cstr := String.list_ascii_of_string s.
Arguments lit s%_string.

(** Reading the character a pointer into a C string points to. *)
Definition deref (s : cstr) : ascii := match s with c :: _ => c | [] => NUL end.

(** The numeric value of a character, as an [unsigned char]. *)
Definition uchar (c : ascii) : Z := Z.of_N (N_of_ascii c).

Definition no_nul (s : cstr) : Prop := Forall (fun c => c <> NUL) s.

(** ** The C string functions the source calls *)

(** [strcmp]: the difference of the first two characters that differ. *)
Fixpoint strcmp (s1 s2 : cstr) : Z :=
  match s1, s2 with
  | [], _ => - uchar (deref s2)
  | _, [] => uchar (deref s1)
  | c1 :: r1, c2 :: r2 => if decide (c1 = c2) then strcmp r1 r2 else uchar c1 - uchar c2
  end%Z.

(** [strncmp]: the same over at most [n] characters, stopping at a NUL. *)
Fixpoint strncmp (s1 s2 : cstr) (n : nat) {struct n} : Z :=
  match n with
  | O => 0
  | S n' =>
      match s1, s2 with
      | [], _ => - uchar (deref s2)
      | _, [] => uchar (deref s1)
      | c1 :: r1, c2 :: r2 => if decide (c1 = c2) then strncmp r1 r2 n' else uchar c1 - uchar c2
      end
  end%Z.

(** [memcmp] over the first [n] bytes; both buffers hold at least [n]. *)
Fixpoint memcmp (s1 s2 : list ascii) (n : nat) {struct n} : Z :=
  match n, s1, s2 with
  | S n', c1 :: r1, c2 :: r2 =>
      if decide (c1 = c2) then memcmp r1 r2 n' else uchar c1 - uchar c2
  | _, _, _ => 0
  end%Z.

(** [strchr] for a character that is not NUL: the suffix it is found at. *)
Fixpoint strchr (s : cstr) (c : ascii) : option cstr :=
  match s with
  | [] => None
  | d :: r => if decide (d = c) then Some s else strchr r c
  end.

(** [toupper] in the C locale. *)
Definition toupper (z : Z) : Z := if ((97 <=? z) && (z <=? 122))%Z then (z - 32)%Z else z.

(** The C string that starts a byte buffer: the bytes before the first NUL.
    [None] when the buffer holds no NUL, where C would read past its end. *)
Fixpoint cstr_of (b : list ascii) : option cstr :=
  match b with
  | [] => None
  | c :: r => if decide (c = NUL) then Some [] else (cons c) <$> cstr_of r
  end.

(** ** Generic lemmas *)

Lemma uchar_inj c1 c2 : uchar c1 = uchar c2 -> c1 = c2.
Proof.
  unfold uchar. intros H. apply N2Z.inj in H.
  rewrite <- (ascii_N_embedding c1), <- (ascii_N_embedding c2). by f_equal.
Qed.

Lemma uchar_range c : (0 <= uchar c < 256)%Z.
Proof. unfold uchar. pose proof (N_ascii_bounded c). lia. Qed.

Lemma uchar_ascii z : (0 <= z < 256)%Z -> uchar (ascii_of_N (Z.to_N z)) = z.
Proof. intros Hz. unfold uchar. rewrite N_ascii_embedding by lia. lia. Qed.

Lemma uchar_pos c : c <> NUL -> (0 < uchar c)%Z.
Proof.
  intros H. pose proof (uchar_range c).
  destruct (decide (uchar c = 0%Z)) as [E|]; [|lia].
  exfalso. apply H. by apply uchar_inj.
Qed.

Lemma no_nul_app s t : no_nul (s ++ t) <-> no_nul s /\ no_nul t.
Proof. apply Forall_app. Qed.

(** Closes [no_nul] goals on literals and on parts of strings known to be
    free of NULs. *)
Create HintDb nonul.
Ltac solve_no_nul :=
  first
    [ solve [eauto 4 with nonul]
    | unfold no_nul, lit; simpl; repeat first [apply Forall_nil_2 | apply Forall_cons_2]; done ].

Lemma no_nul_cons c s : c <> NUL -> no_nul s -> no_nul (c :: s).
Proof. by constructor. Qed.

Lemma no_nul_app_2 s t : no_nul s -> no_nul t -> no_nul (s ++ t).
Proof. intros. by apply no_nul_app. Qed.

Lemma no_nul_take n s : no_nul s -> no_nul (take n s).
Proof. apply Forall_take. Qed.

Lemma no_nul_drop n s : no_nul s -> no_nul (drop n s).
Proof. apply Forall_drop. Qed.

#[export] Hint Resolve no_nul_cons no_nul_app_2 no_nul_take no_nul_drop Forall_nil_2 : nonul.

Lemma deref_no_nul s : no_nul s -> deref s = NUL <-> s = [].
Proof. destruct 1; simpl; naive_solver. Qed.

Lemma strcmp_eq s1 s2 : no_nul s1 -> no_nul s2 -> strcmp s1 s2 = 0%Z <-> s1 = s2.
Proof.
  intros H1. revert s2. induction H1 as [|c1 s1 Hc1 H1 IH]; intros s2 H2; simpl.
  - inversion H2 as [|c2 s2' Hc2 H2']; subst; simpl; [done|].
    apply uchar_pos in Hc2. split; [lia|done].
  - inversion H2 as [|c2 s2' Hc2 H2']; subst; simpl.
    + apply uchar_pos in Hc1. split; [lia|done].
    + case_decide as E; [subst; rewrite IH by done; split; congruence|].
      split; [|congruence]. intros E'. exfalso. apply E, uchar_inj. lia.
Qed.

Lemma strcmp_nil s : strcmp s [] = 0%Z <-> deref s = NUL.
Proof.
  destruct s as [|c s]; simpl; [done|]. split; [|by intros ->].
  intros H. apply uchar_inj. by rewrite H.
Qed.

Lemma cstr_of_app s : no_nul s -> forall r, cstr_of (s ++ NUL :: r) = Some s.
Proof.
  induction 1 as [|c s Hc Hs IH]; intros r; simpl; [done|].
  by rewrite decide_False, IH.
Qed.
