(* ===== verification/Levels.v ===== *)
(** * Levels: scanning, escaping and unescaping key names

    The escaping engine of [src/src/libs/elektra/internal.c] and the scanner
    [keyNameGetOneLevel] of [keyhelpers.c].  A destination pointer is modelled
    by the bytes written through it, in order. *)
From S2P Require Export Prelude.
#[local] Arguments Nat.even : simpl never.
#[local] Arguments Nat.div : simpl never.

(** ** keyNameGetOneLevel *)

(** The first loop: skip all repeating separators. *)
Fixpoint skip_slashes (real : cstr) : cstr :=
  match real with
  | c :: r => if decide (c = SLASH) then skip_slashes r else real
  | [] => []
  end.

(** The second loop: [cursor] runs to the end of the string or to a separator
    that an even number of escape characters precedes. *)
Fixpoint level_cursor (real : cstr) (cursor escapeCount : nat) : nat :=
  match real with
  | [] => cursor
  | c :: r =>
      if decide (c = BSLASH) then level_cursor r (S cursor) (S escapeCount)
      else if decide (c = SLASH) then
        if Nat.even escapeCount then cursor else level_cursor r (S cursor) 0
      else level_cursor r (S cursor) 0
  end.

Definition keyNameGetOneLevel (name : cstr) : cstr * nat :=
  let real := skip_slashes name in (real, level_cursor real 0 0).

(** The levels a client visits with
    [while ( *(p = keyNameGetOneLevel (p + size, &size)))]. *)
Fixpoint levels_fuel (fuel : nat) (p : cstr) : list cstr :=
  match fuel with
  | O => []
  | S n =>
      let (p', size) := keyNameGetOneLevel p in
      if decide (deref p' = NUL) then [] else take size p' :: levels_fuel n (drop size p')
  end.

Definition name_levels (name : cstr) : list cstr := levels_fuel (S (length name)) name.

(** ** elektraValidateKeyName *)

(** The backward loop at index [size]: the backslashes found, going down to
    index 1 at most. *)
Fixpoint count_tail_escapes (name : cstr) (size : nat) : nat :=
  match size with
  | O => 0
  | S n => if decide (name !! size = Some BSLASH) then S (count_tail_escapes name n) else 0
  end.

Definition elektraValidateKeyName (name : cstr) (size : nat) : bool :=
  Nat.even (count_tail_escapes name (size - 2)).

(** ** Unescaping *)

Definition elektraWriteBackslashes (number : nat) : cstr := replicate number BSLASH.

(** Skipping the backslashes at the start of a part. *)
Fixpoint skip_backslashes (sp : cstr) : nat * cstr :=
  match sp with
  | c :: r =>
      if decide (c = BSLASH) then let (n, sp') := skip_backslashes r in (S n, sp') else (0, sp)
  | [] => (0, [])
  end.

(** [None]: returns 0 and writes nothing.  [Some w]: returns 1 after writing [w]. *)
Definition elektraUnescapeKeyNamePartBegin (source : cstr) (size : nat) : option cstr :=
  if decide (strncmp (lit "%") source size = 0%Z) then Some []
  else
    let (skippedBackslashes, sp) := skip_backslashes source in
    let size := size - skippedBackslashes in
    let '(sp, size, skippedBackslashes) :=
      match skippedBackslashes with
      | O => (sp, size, 0)
      | S n => (BSLASH :: sp, S size, n)
      end in
    if size <=? 1 then None
    else if decide (strncmp (lit "\%") sp size = 0%Z) then
      Some (elektraWriteBackslashes skippedBackslashes ++ lit "%")
    else if decide (strncmp (lit "\.") sp size = 0%Z) then
      Some (elektraWriteBackslashes skippedBackslashes ++ lit ".")
    else if size <=? 2 then None
    else if decide (strncmp (lit "\..") sp size = 0%Z) then
      Some (elektraWriteBackslashes skippedBackslashes ++ lit "..")
    else None.

(** The loop of [elektraUnescapeKeyNamePart] over [size] characters. *)
Fixpoint unescape_part_loop (sp : cstr) (size count : nat) {struct size} : cstr :=
  match size with
  | O => elektraWriteBackslashes (count / 2)
  | S n =>
      match sp with
      | [] => []
      | c :: r =>
          if decide (c = BSLASH) then unescape_part_loop r n (S count)
          else if decide (c = SLASH) then
            elektraWriteBackslashes (count / 2) ++ c :: unescape_part_loop r n 0
          else elektraWriteBackslashes count ++ c :: unescape_part_loop r n 0
      end
  end.

Definition elektraUnescapeKeyNamePart (source : cstr) (size : nat) : cstr :=
  unescape_part_loop source size 0.

(** One turn of the loop of [elektraUnescapeKeyName]: the bytes of a level. *)
Definition unescape_level (sp : cstr) (size : nat) : cstr :=
  match elektraUnescapeKeyNamePartBegin sp size with
  | Some w => w
  | None => elektraUnescapeKeyNamePart sp size
  end ++ [NUL].

Fixpoint unescape_name_loop (fuel : nat) (p : cstr) : cstr :=
  match fuel with
  | O => []
  | S n =>
      let (sp, size) := keyNameGetOneLevel p in
      if decide (deref sp = NUL) then []
      else unescape_level sp size ++ unescape_name_loop n (drop size sp)
  end.

Definition elektraUnescapeKeyName (source : cstr) : cstr :=
  (if decide (deref source = SLASH) then [NUL] else []) ++
  unescape_name_loop (S (length source)) source.

(** ** Escaping *)

Definition elektraEscapeKeyNamePartBegin (source : cstr) : option cstr :=
  if decide (strcmp [] source = 0%Z) then Some (lit "%")
  else
    let (skippedBackslashes, sp) := skip_backslashes source in
    if decide (strcmp (lit "%") sp = 0%Z) then
      Some (elektraWriteBackslashes skippedBackslashes ++ lit "\%")
    else if decide (strcmp (lit ".") sp = 0%Z) then
      Some (elektraWriteBackslashes skippedBackslashes ++ lit "\.")
    else if decide (strcmp (lit "..") sp = 0%Z) then
      Some (elektraWriteBackslashes skippedBackslashes ++ lit "\..")
    else None.

(** The loop of [elektraEscapeKeyNamePart]: [count] is the number of
    backslashes copied since the last other character. *)
Fixpoint escape_part_loop (sp : cstr) (count : nat) : cstr :=
  match sp with
  | [] => elektraWriteBackslashes count
  | c :: r =>
      if decide (c = BSLASH) then c :: escape_part_loop r (S count)
      else if decide (c = SLASH) then
        BSLASH :: elektraWriteBackslashes count ++ c :: escape_part_loop r 0
      else c :: escape_part_loop r 0
  end.

Definition elektraEscapeKeyNamePart (source : cstr) : cstr :=
  match elektraEscapeKeyNamePartBegin source with
  | Some w => w
  | None => escape_part_loop source 0
  end.

Arguments keyNameGetOneLevel : simpl never.
Arguments elektraEscapeKeyNamePart : simpl never.
Arguments unescape_level : simpl never.

(** ** Names built from unescaped parts *)

(** What may follow a part inside a name: nothing or a separator. *)
Definition part_end (rest : cstr) : Prop := rest = [] \/ exists r, rest = SLASH :: r.

(** The escaped path of unescaped parts, and the unescaped bytes of parts. *)
Definition escaped_path (ps : list cstr) : cstr :=
  concat (map (fun p => SLASH :: elektraEscapeKeyNamePart p) ps).

Definition unescaped_bytes (ps : list cstr) : list ascii :=
  concat (map (fun p => p ++ [NUL]) ps).

(** ** Runs of backslashes *)

Lemma strncmp_zero_iff a s n :
  no_nul s -> n <= length s ->
  strncmp a s n = 0%Z <-> n <= length a /\ take n a = take n s.
Proof.
  revert a s. induction n as [|n IH]; intros a s Hs Hn; simpl.
  { split; [|done]. intros _. split; [lia|done]. }
  destruct Hs as [|c s Hc Hs]; simpl in *; [lia|].
  destruct a as [|d a]; simpl.
  { apply uchar_pos in Hc. split; [lia|]. intros [??]; lia. }
  case_decide as E.
  - subst. rewrite IH by (done || lia). split; intros [? H]; (split; [lia|congruence]).
  - split; [|intros [_ ?]; congruence].
    intros H. exfalso. apply E, uchar_inj. lia.
Qed.

Lemma skip_backslashes_run n t :
  deref t <> BSLASH -> skip_backslashes (replicate n BSLASH ++ t) = (n, t).
Proof.
  intros Ht. induction n as [|n IH]; simpl; [|by rewrite IH].
  destruct t as [|c t]; simpl in *; [done|]. by rewrite decide_False.
Qed.

Lemma backslash_run s :
  exists n t, s = replicate n BSLASH ++ t /\ deref t <> BSLASH.
Proof.
  induction s as [|c s (n & t & -> & Ht)]; [by exists 0, []|].
  destruct (decide (c = BSLASH)) as [->|Hc].
  - by exists (S n), t.
  - by exists 0, (c :: replicate n BSLASH ++ t).
Qed.

Lemma level_cursor_run n t cursor e :
  level_cursor (replicate n BSLASH ++ t) cursor e = level_cursor t (cursor + n) (e + n).
Proof.
  revert cursor e. induction n as [|n IH]; intros; simpl.
  - by rewrite !Nat.add_0_r.
  - rewrite IH. f_equal; lia.
Qed.

Lemma unescape_part_loop_run n t size count :
  unescape_part_loop (replicate n BSLASH ++ t) (n + size) count =
  unescape_part_loop t size (count + n).
Proof.
  revert count. induction n as [|n IH]; intros; simpl.
  - by rewrite Nat.add_0_r.
  - rewrite IH. f_equal; lia.
Qed.

Lemma escape_part_loop_run n t k :
  escape_part_loop (replicate n BSLASH ++ t) k =
  replicate n BSLASH ++ escape_part_loop t (k + n).
Proof.
  revert k. induction n as [|n IH]; intros; simpl.
  - by rewrite Nat.add_0_r.
  - rewrite IH. do 3 f_equal; lia.
Qed.

Lemma even_double n : Nat.even (n + n) = true.
Proof. rewrite Nat.even_spec. exists n. lia. Qed.

Lemma odd_double_S n : Nat.even (n + S n) = false.
Proof. rewrite Nat.add_succ_r, Nat.even_succ, <- Nat.negb_even, even_double. done. Qed.

Lemma half_double n : (n + n) / 2 = n.
Proof. replace (n + n) with (n * 2) by lia. by rewrite Nat.div_mul. Qed.

Lemma half_double_S n : (n + S n) / 2 = n.
Proof. replace (n + S n) with (1 + n * 2) by lia. by rewrite Nat.div_add. Qed.

(** ** The escaping loop against the scanner and the unescaping loop *)

Lemma level_cursor_end rest cursor e :
  part_end rest -> Nat.even e = true -> level_cursor rest cursor e = cursor.
Proof. by intros [->|[r ->]] He; simpl; rewrite ?He. Qed.

Lemma level_cursor_escape s k cursor rest :
  part_end rest ->
  level_cursor (escape_part_loop s k ++ rest) cursor k =
  cursor + length (escape_part_loop s k).
Proof.
  intros Hr. revert k cursor.
  induction s as [|c s IH]; intros k cursor; simpl; unfold elektraWriteBackslashes.
  - rewrite level_cursor_run, length_replicate.
    by apply level_cursor_end; [|apply even_double].
  - repeat case_decide; subst; simpl.
    + rewrite IH. lia.
    + rewrite <- app_assoc, level_cursor_run. simpl.
      rewrite plus_n_Sm, odd_double_S, IH, length_app, length_replicate. simpl. lia.
    + rewrite decide_False, decide_False by done. rewrite IH. lia.
Qed.

Lemma unescape_escape_loop s k rest :
  unescape_part_loop (escape_part_loop s k ++ rest) (length (escape_part_loop s k)) k =
  replicate k BSLASH ++ s.
Proof.
  revert k. induction s as [|c s IH]; intros k; simpl; unfold elektraWriteBackslashes.
  - pose proof (unescape_part_loop_run k rest 0 k) as H. rewrite Nat.add_0_r in H.
    rewrite length_replicate, H. simpl. by rewrite half_double, app_nil_r.
  - repeat case_decide; subst; simpl.
    + by rewrite IH, replicate_S_end, <- app_assoc.
    + rewrite <- app_assoc, length_app, length_replicate, unescape_part_loop_run. simpl.
      by rewrite plus_n_Sm, half_double_S, IH.
    + rewrite decide_False, decide_False by done. by rewrite IH.
Qed.

(** ** One part: escape, then scan and unescape *)

Lemma no_nul_replicate n : no_nul (replicate n BSLASH).
Proof. by apply Forall_replicate. Qed.

Lemma no_nul_escape_loop s k : no_nul s -> no_nul (escape_part_loop s k).
Proof.
  intros Hs. revert k. induction Hs as [|c s Hc Hs IH]; intros k; simpl.
  { apply no_nul_replicate. }
  repeat case_decide; subst; (apply no_nul_cons; [done|]); [apply IH| |apply IH].
  apply no_nul_app_2; [apply no_nul_replicate|]. apply no_nul_cons; [done|apply IH].
Qed.

Lemma replicate_snoc {A} n (x : A) t : replicate n x ++ x :: t = replicate (S n) x ++ t.
Proof. by rewrite replicate_S_end, <- app_assoc. Qed.

(** The three shapes an escaped part has. *)
Inductive escape_case (s : cstr) : cstr -> Prop :=
| EscEmpty : s = [] -> escape_case s (lit "%")
| EscSpecial n w :
    s = replicate n BSLASH ++ w ->
    w = lit "%" \/ w = lit "." \/ w = lit ".." ->
    escape_case s (replicate (S n) BSLASH ++ w)
| EscPlain n t :
    s = replicate n BSLASH ++ t -> deref t <> BSLASH -> s <> [] ->
    t <> lit "%" -> t <> lit "." -> t <> lit ".." ->
    escape_case s (escape_part_loop s 0).

Lemma escape_part_case s : no_nul s -> escape_case s (elektraEscapeKeyNamePart s).
Proof.
  intros Hs. unfold elektraEscapeKeyNamePart, elektraEscapeKeyNamePartBegin.
  case_decide as H0.
  { apply strcmp_eq in H0; [|constructor|done]. by apply EscEmpty. }
  destruct (backslash_run s) as (n & t & E & Ht).
  assert (no_nul t) as Hnt by (rewrite E in Hs; by apply no_nul_app in Hs as [_ ?]).
  assert (skip_backslashes s = (n, t)) as -> by (rewrite E; by apply skip_backslashes_run).
  unfold elektraWriteBackslashes.
  case_decide as H1; [|case_decide as H2; [|case_decide as H3]].
  - apply strcmp_eq in H1; [|solve_no_nul|done]. subst t.
    change (lit "\%") with (BSLASH :: lit "%").
    rewrite replicate_snoc.
    eapply EscSpecial; eauto.
  - apply strcmp_eq in H2; [|solve_no_nul|done]. subst t.
    change (lit "\.") with (BSLASH :: lit ".").
    rewrite replicate_snoc.
    eapply EscSpecial; eauto.
  - apply strcmp_eq in H3; [|solve_no_nul|done]. subst t.
    change (lit "\..") with (BSLASH :: lit "..").
    rewrite replicate_snoc.
    eapply EscSpecial; eauto.
  - eapply EscPlain; eauto; intros ->.
    + by apply H0.
    + by apply H1.
    + by apply H2.
    + by apply H3.
Qed.

Lemma escape_nonempty s : no_nul s -> exists c r, elektraEscapeKeyNamePart s = c :: r /\ c <> SLASH /\ c <> NUL.
Proof.
  intros Hs. destruct (escape_part_case s Hs) as [->|n w _ _|n t -> Ht Hne _ _ _].
  - by exists "%"%char, [].
  - by exists BSLASH, (replicate n BSLASH ++ w).
  - destruct n as [|n]; [|by exists BSLASH, (escape_part_loop (replicate n BSLASH ++ t) 1)].
    destruct t as [|c t]; [done|]. simpl in *. inversion Hs; subst.
    rewrite decide_False by done. case_decide; subst; eauto 6.
Qed.

Lemma no_nul_escape s : no_nul s -> no_nul (elektraEscapeKeyNamePart s).
Proof.
  intros Hs. destruct (escape_part_case s Hs) as [->|n w _ Hw|].
  - solve_no_nul.
  - apply no_nul_app_2; [apply no_nul_replicate|]. destruct Hw as [->|[->| ->]]; solve_no_nul.
  - by apply no_nul_escape_loop.
Qed.

#[export] Hint Resolve no_nul_replicate no_nul_escape no_nul_escape_loop : nonul.

(** A run of backslashes before characters that are neither backslash nor
    separator is scanned as a part. *)
Lemma level_cursor_plain w rest cursor e :
  Forall (fun c => c <> BSLASH /\ c <> SLASH) w -> w <> [] -> part_end rest ->
  level_cursor (w ++ rest) cursor e = cursor + length w.
Proof.
  intros Hw Hne Hr.
  assert (forall v cur, Forall (fun c => c <> BSLASH /\ c <> SLASH) v ->
            level_cursor (v ++ rest) cur 0 = cur + length v) as H0.
  { intros v cur Hv. revert cur. induction Hv as [|c v [Hb Hs] Hv IH]; intros cur; simpl.
    - rewrite level_cursor_end by done. lia.
    - rewrite decide_False, decide_False, IH by done. lia. }
  destruct Hw as [|c w [Hb Hs] Hw]; [done|]. simpl.
  rewrite decide_False, decide_False, H0 by done. lia.
Qed.

Lemma keyNameGetOneLevel_escaped s rest :
  no_nul s -> part_end rest ->
  keyNameGetOneLevel (elektraEscapeKeyNamePart s ++ rest) =
  (elektraEscapeKeyNamePart s ++ rest, length (elektraEscapeKeyNamePart s)).
Proof.
  intros Hs Hr. destruct (escape_nonempty s Hs) as (c & r & E & Hc & _).
  unfold keyNameGetOneLevel.
  assert (skip_slashes (elektraEscapeKeyNamePart s ++ rest) = elektraEscapeKeyNamePart s ++ rest)
    as -> by (rewrite E; simpl; by rewrite decide_False).
  f_equal. destruct (escape_part_case s Hs) as [->|n w _ Hw|].
  - by apply (level_cursor_plain (lit "%")); [repeat constructor| |].
  - rewrite <- app_assoc, level_cursor_run, length_app, length_replicate.
    rewrite level_cursor_plain; [lia|..|done];
      destruct Hw as [->|[->| ->]]; by repeat constructor.
  - apply (level_cursor_escape _ 0 0). done.
Qed.

Lemma part_end_deref rest : part_end rest -> deref rest <> BSLASH.
Proof. by intros [->|[r ->]]. Qed.

(** Replaces the proposition a [decide] tests by an equivalent one. *)
Ltac decide_by H :=
  let H' := constr:(H ltac:(simpl; lia)) in
  match type of H' with ?P <-> ?Q => rewrite (decide_ext P Q _ _ H') end.

(** The scan of [elektraUnescapeKeyNamePartBegin] over a run of backslashes. *)
Lemma unescape_begin_run n t size :
  no_nul t -> deref t <> BSLASH -> 0 < size -> size <= length t ->
  (size <> 1 \/ deref t <> "%"%char \/ 0 < n) ->
  elektraUnescapeKeyNamePartBegin (replicate n BSLASH ++ t) (n + size) =
  match n with
  | O => None
  | S m =>
      if decide (take size t = lit "%") then Some (replicate m BSLASH ++ lit "%")
      else if decide (take size t = lit ".") then Some (replicate m BSLASH ++ lit ".")
      else if decide (take size t = lit "..") then Some (replicate m BSLASH ++ lit "..")
      else None
  end.
Proof.
  intros Hnt Ht Hsize Hlen Hpct. unfold elektraUnescapeKeyNamePartBegin.
  rewrite decide_False.
  2:{ rewrite strncmp_zero_iff; [|solve_no_nul|rewrite length_app, length_replicate; lia].
      simpl. intros [Hle E]. destruct n as [|n]; simpl in *; [|lia].
      assert (size = 1) as -> by lia. destruct t; simpl in *; [lia|].
      injection E as <-. destruct Hpct as [?|[?|?]]; [lia|done|lia]. }
  rewrite skip_backslashes_run, Nat.add_sub_swap, Nat.sub_diag by (done || lia).
  destruct n as [|m]; simpl.
  { destruct (size <=? 1) eqn:E1; [done|].
    apply Nat.leb_gt in E1.
    assert (forall w, strncmp (BSLASH :: w) t size <> 0%Z) as Hne.
    { intros w. rewrite strncmp_zero_iff by done. intros [_ E].
      destruct size; [lia|]. destruct t; simpl in *; [lia|]. congruence. }
    unfold lit; simpl. rewrite !decide_False by apply Hne. by case_match. }
  destruct size as [|size]; [lia|].
  assert (length (take (S size) t) = S size) as Hlt by (rewrite length_take; lia).
  assert (forall w, length w <= S size ->
            strncmp w t (S size) = 0%Z <-> take (S size) t = w) as Hw.
  { intros w Hlw. rewrite strncmp_zero_iff by done. split.
    - intros [Hle E]. rewrite <- E. apply take_ge. lia.
    - intros E. rewrite <- E, Hlt, take_take, Nat.min_id. split; [lia|done]. }
  unfold elektraWriteBackslashes, lit; simpl.
  decide_by (Hw ["%"%char]). decide_by (Hw ["."%char]).
  repeat (case_decide; [done|]).
  destruct size as [|size].
  { simpl. rewrite decide_False; [done|]. intros E. by rewrite E in Hlt. }
  change (S (S size) <=? 1) with false. cbv iota.
  by decide_by (Hw ["."%char; "."%char]).
Qed.

Lemma unescape_begin_only_run n t :
  0 < n -> no_nul t -> deref t <> BSLASH ->
  elektraUnescapeKeyNamePartBegin (replicate n BSLASH ++ t) n = None.
Proof.
  intros Hn Hnt Ht. unfold elektraUnescapeKeyNamePartBegin.
  rewrite decide_False.
  2:{ rewrite strncmp_zero_iff; [|solve_no_nul|rewrite length_app, length_replicate; lia].
      intros [_ E]. destruct n; [lia|]. simpl in E. congruence. }
  rewrite skip_backslashes_run, Nat.sub_diag by done. by destruct n; [lia|].
Qed.

Lemma escape_part_loop_nil r : escape_part_loop r 0 = [] -> r = [].
Proof. destruct r; simpl; [done|]. repeat case_decide; done. Qed.

Lemma escape_part_loop_dot r : escape_part_loop r 0 = lit "." -> r = lit ".".
Proof.
  destruct r as [|c r]; simpl; [done|]. repeat case_decide; intros [= -> E]; try done.
  by apply escape_part_loop_nil in E as ->.
Qed.

(** A plain part is left to the general loop. *)
Lemma unescape_begin_plain n t rest :
  no_nul t -> no_nul rest -> part_end rest -> deref t <> BSLASH ->
  replicate n BSLASH ++ t <> [] ->
  t <> lit "%" -> t <> lit "." -> t <> lit ".." ->
  elektraUnescapeKeyNamePartBegin (escape_part_loop (replicate n BSLASH ++ t) 0 ++ rest)
    (length (escape_part_loop (replicate n BSLASH ++ t) 0)) = None.
Proof.
  intros Hnt Hnr Hr Ht Hne H1 H2 H3. rewrite escape_part_loop_run.
  destruct t as [|c t]; simpl; unfold elektraWriteBackslashes.
  { rewrite <- replicate_add. rewrite length_replicate.
    apply unescape_begin_only_run; [|done|by apply part_end_deref].
    destruct n; simpl in *; [done|lia]. }
  inversion Hnt; subst. rewrite decide_False by done. case_decide; subst.
  { rewrite !replicate_snoc, app_assoc, <- replicate_add, <- app_assoc.
    rewrite length_app, length_replicate.
    rewrite unescape_begin_run; simpl; try done; try lia.
    - apply no_nul_cons; [done|]. solve_no_nul.
    - rewrite length_app; lia. }
  rewrite <- app_assoc, length_app, length_replicate.
  rewrite unescape_begin_run; try done.
  - simpl. rewrite take_app_length. destruct n as [|n]; [done|].
    rewrite !decide_False; [done|..]; intros [= -> E]; try apply escape_part_loop_nil in E as ->; try done.
    by apply escape_part_loop_dot in E as ->.
  - simpl. apply no_nul_cons; [done|]. solve_no_nul.
  - simpl. lia.
  - simpl. rewrite length_app. lia.
  - simpl. destruct (decide (c = "%"%char)) as [->|]; [|by auto].
    destruct n; [|by right; right; lia]. left.
    destruct (escape_part_loop t 0) eqn:E; [|simpl; lia].
    by apply escape_part_loop_nil in E as ->.
Qed.

Lemma unescape_level_escaped s rest :
  no_nul s -> no_nul rest -> part_end rest ->
  unescape_level (elektraEscapeKeyNamePart s ++ rest) (length (elektraEscapeKeyNamePart s)) =
  s ++ [NUL].
Proof.
  intros Hs Hnr Hr. unfold unescape_level. f_equal.
  destruct (escape_part_case s Hs) as [->|n w -> Hw|n t -> Ht Hne H1 H2 H3].
  - done.
  - rewrite <- app_assoc, length_app, length_replicate.
    assert (no_nul w) by (destruct Hw as [->|[->| ->]]; solve_no_nul).
    rewrite unescape_begin_run.
    + rewrite take_app_length. by destruct Hw as [->|[->| ->]].
    + solve_no_nul.
    + by destruct Hw as [->|[->| ->]].
    + destruct Hw as [->|[->| ->]]; simpl; lia.
    + rewrite length_app. lia.
    + right; right; lia.
  - apply no_nul_app in Hs as [_ Hnt].
    rewrite unescape_begin_plain by done.
    apply (unescape_escape_loop _ 0 rest).
Qed.

(** ** Whole names *)

Lemma part_end_path ps : part_end (escaped_path ps).
Proof. destruct ps as [|p ps]; [by left|]. right. by eexists. Qed.

Lemma no_nul_path ps : Forall no_nul ps -> no_nul (escaped_path ps).
Proof.
  induction 1 as [|p ps Hp Hps IH]; [constructor|].
  apply no_nul_cons; [done|]. by apply no_nul_app_2; [apply no_nul_escape|].
Qed.

#[export] Hint Resolve no_nul_path part_end_path : nonul.

Lemma length_escaped_path ps : Forall no_nul ps -> length ps <= length (escaped_path ps).
Proof.
  induction 1 as [|p ps Hp Hps IH]; [done|]. unfold escaped_path in *. simpl.
  rewrite length_app. lia.
Qed.

Lemma keyNameGetOneLevel_slash s : keyNameGetOneLevel (SLASH :: s) = keyNameGetOneLevel s.
Proof. done. Qed.

Lemma deref_escape_app s rest :
  no_nul s ->
  deref (elektraEscapeKeyNamePart s ++ rest) <> NUL /\
  deref (elektraEscapeKeyNamePart s ++ rest) <> SLASH.
Proof. intros Hs. by destruct (escape_nonempty s Hs) as (c & r & -> & ? & ?). Qed.

Lemma unescaped_bytes_cons p ps : unescaped_bytes (p :: ps) = p ++ NUL :: unescaped_bytes ps.
Proof. unfold unescaped_bytes. simpl. by rewrite <- app_assoc. Qed.

Lemma unescape_name_loop_S fuel p :
  unescape_name_loop (S fuel) p =
  let (sp, size) := keyNameGetOneLevel p in
  if decide (deref sp = NUL) then []
  else unescape_level sp size ++ unescape_name_loop fuel (drop size sp).
Proof. done. Qed.

(** One turn of the unescaping loop at an escaped part. *)
Lemma unescape_name_step fuel s rest :
  no_nul s -> no_nul rest -> part_end rest ->
  unescape_name_loop (S fuel) (elektraEscapeKeyNamePart s ++ rest) =
  s ++ NUL :: unescape_name_loop fuel rest.
Proof.
  intros Hs Hnr Hr. rewrite unescape_name_loop_S, keyNameGetOneLevel_escaped by done.
  rewrite decide_False by (by apply deref_escape_app).
  by rewrite unescape_level_escaped, drop_app_length, <- app_assoc.
Qed.

Lemma unescape_name_path fuel ps :
  Forall no_nul ps -> length ps < fuel ->
  unescape_name_loop fuel (escaped_path ps) = unescaped_bytes ps.
Proof.
  intros Hps. revert fuel. induction Hps as [|p ps Hp Hps IH]; intros fuel Hf;
    (destruct fuel as [|fuel]; simpl in Hf; [lia|]); [done|].
  change (escaped_path (p :: ps)) with (SLASH :: (elektraEscapeKeyNamePart p ++ escaped_path ps)).
  rewrite unescape_name_loop_S, keyNameGetOneLevel_slash, <- unescape_name_loop_S.
  rewrite unescape_name_step by auto with nonul.
  by rewrite unescaped_bytes_cons, IH by lia.
Qed.

Lemma unescape_rooted p0 ps :
  no_nul p0 -> Forall no_nul ps ->
  elektraUnescapeKeyName (elektraEscapeKeyNamePart p0 ++ escaped_path ps) = unescaped_bytes (p0 :: ps).
Proof.
  intros H0 Hps. unfold elektraUnescapeKeyName.
  rewrite decide_False by (by apply deref_escape_app).
  rewrite unescape_name_step by auto with nonul.
  rewrite unescape_name_path; [by rewrite unescaped_bytes_cons|done|].
  pose proof (length_escaped_path ps Hps).
  destruct (escape_nonempty p0 H0) as (c & r & -> & _). simpl. rewrite length_app. lia.
Qed.

Lemma unescape_cascading p ps :
  Forall no_nul (p :: ps) -> elektraUnescapeKeyName (escaped_path (p :: ps)) = NUL :: unescaped_bytes (p :: ps).
Proof.
  intros Hps. unfold elektraUnescapeKeyName.
  rewrite decide_True by done. change ([NUL] ++ ?x) with (NUL :: x). f_equal.
  apply unescape_name_path; [done|]. pose proof (length_escaped_path (p :: ps) Hps). lia.
Qed.

(** C15.  Escaping and unescaping are inverse on whole key names: for any
    sequence of parts, which may be empty, contain slashes and backslashes or
    be the reserved parts [.], [..] and [%], unescaping the name built from
    the escaped parts gives back exactly the parts, each NUL-terminated; with a
    leading separator (a cascading name) one NUL precedes them. *)
Theorem unescape_escape_name p0 ps :
  no_nul p0 -> Forall no_nul ps ->
  elektraUnescapeKeyName (elektraEscapeKeyNamePart p0 ++ escaped_path ps)
    = unescaped_bytes (p0 :: ps) /\
  elektraUnescapeKeyName (escaped_path (p0 :: ps)) = NUL :: unescaped_bytes (p0 :: ps).
Proof. intros H0 Hps. split; [by apply unescape_rooted|apply unescape_cascading; by constructor]. Qed.

Lemma unescape_escape_name_witness :
  elektraUnescapeKeyName (elektraEscapeKeyNamePart (lit "user") ++ escaped_path [lit "a/b\"; []; lit ".."])
  = unescaped_bytes [lit "user"; lit "a/b\"; []; lit ".."].
Proof.
  apply (unescape_escape_name (lit "user") [lit "a/b\"; []; lit ".."]);
    repeat constructor; done.
Defined.

(** ** Facts about every name, well formed or not *)

Lemma level_cursor_spec real cursor e :
  exists k, level_cursor real cursor e = cursor + k /\ k <= length real /\
            part_end (drop k real) /\ (deref real <> NUL -> deref real <> SLASH -> 0 < k).
Proof.
  revert cursor e. induction real as [|c r IH]; intros cursor e; simpl.
  { exists 0. split_and!; [lia|lia|by left|done]. }
  assert (forall cur e', exists k, level_cursor r cur e' = cur + k /\ k <= length r /\
            part_end (drop k r)) as IH' by (intros cur e'; destruct (IH cur e') as (k & ? & ? & ? & _); eauto).
  assert (forall e', exists k, level_cursor r (S cursor) e' = cursor + k /\ k <= S (length r) /\
            part_end (drop k (c :: r)) /\ 0 < k) as Hstep.
  { intros e'. destruct (IH' (S cursor) e') as (k & -> & ? & ?).
    exists (S k). simpl. split_and!; [lia|lia|done|lia]. }
  case_decide as Hb; [destruct (Hstep (S e)) as (k & ? & ? & ? & ?); eauto 10|].
  case_decide as Hs; [|destruct (Hstep 0) as (k & ? & ? & ? & ?); eauto 10].
  destruct (Nat.even e); [|destruct (Hstep 0) as (k & ? & ? & ? & ?); eauto 10].
  exists 0. subst. split_and!; [lia|lia|right; eauto|done].
Qed.

Lemma skip_slashes_length s : length (skip_slashes s) <= length s.
Proof. induction s as [|c s IH]; simpl; [done|]. case_decide; simpl; lia. Qed.

Lemma skip_slashes_deref s : deref (skip_slashes s) <> SLASH.
Proof. induction s as [|c s IH]; simpl; [done|]. by case_decide. Qed.

Lemma no_nul_skip s : no_nul s -> no_nul (skip_slashes s).
Proof. induction 1 as [|c s Hc Hs IH]; simpl; [constructor|]. case_decide; [done|]. by constructor. Qed.

(** What a turn of a level loop sees: a nonempty level, then the rest. *)
Lemma keyNameGetOneLevel_spec name sp size :
  keyNameGetOneLevel name = (sp, size) ->
  size <= length sp /\ length sp <= length name /\ part_end (drop size sp) /\
  (deref sp <> NUL -> 0 < size).
Proof.
  unfold keyNameGetOneLevel. intros [= <- <-].
  destruct (level_cursor_spec (skip_slashes name) 0 0) as (k & -> & ? & ? & Hk). simpl.
  split_and!; [done|apply skip_slashes_length|done|]. intros. apply Hk; [done|apply skip_slashes_deref].
Qed.

Lemma unescape_begin_length sp size w :
  elektraUnescapeKeyNamePartBegin sp size = Some w -> length w <= size.
Proof.
  unfold elektraUnescapeKeyNamePartBegin, elektraWriteBackslashes.
  case_decide; [intros [= <-]; simpl; lia|].
  destruct (skip_backslashes sp) as [[|n] sp'];
    repeat first [case_decide | case_match]; try discriminate;
    repeat match goal with H : (_ <=? _) = false |- _ => apply Nat.leb_gt in H end;
    intros [= <-]; rewrite ?length_app, ?length_replicate; simpl in *; lia.
Qed.

Lemma unescape_part_loop_length sp size count :
  length (unescape_part_loop sp size count) <= size + count.
Proof.
  assert (forall n, n / 2 <= n) by (intros; apply Nat.Div0.div_le_upper_bound; lia).
  revert sp count. induction size as [|size IH]; intros sp count; simpl.
  { unfold elektraWriteBackslashes. rewrite length_replicate. auto. }
  destruct sp as [|c r]; simpl; [lia|].
  specialize (H count). unfold elektraWriteBackslashes. repeat case_decide.
  - specialize (IH r (S count)). lia.
  - rewrite length_app, length_replicate. simpl. specialize (IH r 0). lia.
  - rewrite length_app, length_replicate. simpl. specialize (IH r 0). lia.
Qed.

Lemma unescape_level_length sp size : length (unescape_level sp size) <= S size.
Proof.
  unfold unescape_level. rewrite length_app. simpl.
  destruct (elektraUnescapeKeyNamePartBegin sp size) eqn:E.
  - apply unescape_begin_length in E. lia.
  - unfold elektraUnescapeKeyNamePart. pose proof (unescape_part_loop_length sp size 0). lia.
Qed.

Lemma unescape_name_loop_length fuel p :
  length (unescape_name_loop fuel p) <= S (length p) /\
  (part_end p -> length (unescape_name_loop fuel p) <= length p).
Proof.
  revert p. induction fuel as [|fuel IH]; intros p; [simpl; lia|].
  rewrite unescape_name_loop_S. destruct (keyNameGetOneLevel p) as [sp size] eqn:E.
  pose proof (keyNameGetOneLevel_spec _ _ _ E) as (Hsz & Hsp & Hend & _).
  case_decide as Hd; [simpl; lia|].
  rewrite length_app. pose proof (unescape_level_length sp size).
  destruct (IH (drop size sp)) as [_ IH2]. specialize (IH2 Hend). rewrite length_drop in IH2.
  split; [lia|]. intros [->|[r ->]]; [by injection E as <- <-|].
  rewrite keyNameGetOneLevel_slash in E. apply keyNameGetOneLevel_spec in E as (_ & Hr & _).
  simpl. lia.
Qed.

Lemma escaped_part_length s :
  no_nul s -> S (length (elektraEscapeKeyNamePart s)) <= length s * 2 + 2.
Proof.
  intros Hs. destruct (escape_part_case s Hs) as [->|n w -> _|]; [simpl; lia| |].
  { rewrite !length_app, !length_replicate. simpl. lia. }
  assert (forall v k, length (escape_part_loop v k) <= 2 * length v + k) as Hl.
  { induction v as [|c v IH]; intros k; simpl; unfold elektraWriteBackslashes.
    - rewrite length_replicate. lia.
    - repeat case_decide; simpl; rewrite ?length_app, ?length_replicate; simpl;
        [specialize (IH (S k))|specialize (IH 0)..]; lia. }
  specialize (Hl s 0). lia.
Qed.

Lemma unescaped_name_length s : length (elektraUnescapeKeyName s) <= S (length s).
Proof.
  unfold elektraUnescapeKeyName. rewrite length_app.
  pose proof (unescape_name_loop_length (S (length s)) s) as [H1 H2].
  case_decide as Hd; simpl length in *; [|lia].
  destruct s as [|c r]; [done|]. simpl in Hd. subst.
  specialize (H2 ltac:(right; eauto)). simpl in *. lia.
Qed.

(** The escaping engine stays inside the buffers its callers allocate:
    the escaped part with its NUL fits the [strlen * 2 + 2] bytes allocated by
    keyAddBaseName and keySetBaseName, and the unescaped name fits the second
    half of the [keySize * 2] bytes of a key's name buffer, for every source. *)
Theorem escaping_fits_buffers s :
  (no_nul s -> S (length (elektraEscapeKeyNamePart s)) <= length s * 2 + 2) /\
  length (elektraUnescapeKeyName s) <= S (length s).
Proof. split; [apply escaped_part_length|apply unescaped_name_length]. Qed.

Lemma validate_trailing_backslashes t n :
  last t <> Some BSLASH -> t ++ replicate n BSLASH <> [] ->
  elektraValidateKeyName (t ++ replicate n BSLASH) (S (length (t ++ replicate n BSLASH))) =
  Nat.even (match t with [] => n - 1 | _ => n end).
Proof.
  intros Hlast Hne. unfold elektraValidateKeyName. f_equal.
  assert (forall k m, k <= m -> m <= n -> 0 < length t + k ->
    count_tail_escapes (t ++ replicate n BSLASH) (length t + k - 1) =
    match t with [] => k - 1 | _ => k end) as H.
  { induction k as [|k IH]; intros m Hk Hm Hpos.
    - rewrite Nat.add_0_r. destruct (decide (length t - 1 = 0)) as [->|].
      { by destruct t. }
      destruct t as [|c t _] using rev_ind; [done|]. rewrite length_app in *. simpl in *.
      replace (length t + 1 - 1) with (length t) in * by lia.
      rewrite last_snoc in Hlast. destruct (length t) as [|i] eqn:Ei; [lia|].
      simpl. rewrite lookup_app_l by (rewrite length_app; simpl; lia).
      rewrite lookup_app_r by lia. rewrite Ei, Nat.sub_diag. simpl.
      rewrite decide_False by congruence. by destruct t.
    - replace (length t + S k - 1) with (length t + k) by lia.
      destruct (decide (length t + k = 0)) as [E0|Hpos'].
      { destruct t; simpl in *; [|lia]. by assert (k = 0) as -> by lia. }
      assert (exists i, length t + k = S i /\ i = length t + k - 1) as (i & Ei & Ei')
        by (exists (length t + k - 1); lia).
      rewrite Ei. simpl. rewrite lookup_app_r by lia. replace (S i - length t) with k by lia.
      rewrite lookup_replicate_2, decide_True, Ei', (IH m) by (done || lia).
      destruct t; simpl in *; lia. }
  rewrite <- (H n n); try done.
  - rewrite length_app, length_replicate. f_equal; lia.
  - destruct t, n; simpl in *; try done; lia.
Qed.

(** C38.  elektraValidateKeyName on a name that ends in [n] backslashes: with
    something before the run it accepts exactly the even runs, but a name of
    nothing but backslashes is judged on [n - 1], because the loop stops
    before index 0. *)
Theorem elektraValidateKeyName_spec t n :
  last t <> Some BSLASH -> t ++ replicate n BSLASH <> [] ->
  elektraValidateKeyName (t ++ replicate n BSLASH) (S (length (t ++ replicate n BSLASH))) =
  Nat.even (match t with [] => n - 1 | _ => n end).
Proof. apply validate_trailing_backslashes. Qed.

Lemma elektraValidateKeyName_spec_witness :
  elektraValidateKeyName (lit "\\") 3 = false /\ elektraValidateKeyName (lit "a\\") 4 = true.
Proof.
  split.
  - apply (elektraValidateKeyName_spec [] 2); done.
  - apply (elektraValidateKeyName_spec (lit "a") 2); done.
Defined.
