(* ===== verification/Heap.v ===== *)
(** * Heap: keys, keysets and the state monad of the C code

    [struct _Key], [struct _KeySet] ([src/src/include/kdbprivate.h]) and the
    memory they live in.  A computation runs on a heap of keys and keysets and
    either returns, or is undefined behaviour (a dangling or NULL pointer is
    dereferenced, memory outside an allocation or never written is read), or
    runs out of the fuel given to a recursion. *)
From S2P Require Export Levels.

(** ** Pointers and structs *)

Abbreviation loc := positive.
(** A C pointer to a [Key] or [KeySet]; [None] is NULL. *)
Abbreviation ptr := (option positive).

(** [struct _Key].  [k_key] is the escaped name in the name buffer without its
    NUL ([keySize] is its length plus one) and [k_uname] are the [keyUSize]
    unescaped bytes that follow it in the same buffer.  [k_data] holds the
    [dataSize] bytes of the value. *)
Record Key := mkKey {
  k_data : option (list ascii);
  k_key : option cstr;
  k_uname : list ascii;
  k_flags : Z;
  k_ksReference : nat;
  k_meta : ptr
}.

Definition keySize (k : Key) : nat := match k_key k with None => 0 | Some n => S (length n) end.
Definition keyUSize (k : Key) : nat := length (k_uname k).
Definition dataSize (k : Key) : nat := match k_data k with None => 0 | Some d => length d end.

(** [struct _KeySet].  [ks_array] is the allocated block of [alloc] cells; a
    cell that was never written is [None]. *)
Record KeySet := mkKS {
  ks_array : option (list (option ptr));
  ks_size : nat;
  ks_alloc : nat;
  ks_cursor : ptr;
  ks_current : nat;
  ks_flags : Z
}.

Record heap := mkHeap { h_keys : gmap loc Key; h_sets : gmap loc KeySet }.

(** ** Flags and options *)

Definition KEY_FLAG_SYNC : Z := 1.
Definition KEY_FLAG_RO_NAME : Z := 2.
Definition KEY_FLAG_RO_VALUE : Z := 4.
Definition KEY_FLAG_RO_META : Z := 8.
Definition KS_FLAG_SYNC : Z := 1.

Definition KEY_CASCADING_NAME : Z := 2 ^ 20.
Definition KEY_META_NAME : Z := 2 ^ 21.
Definition KEY_EMPTY_NAME : Z := 2 ^ 22.
Definition KEY_LOCK_NAME : Z := 2 ^ 17.
Definition KEY_LOCK_VALUE : Z := 2 ^ 18.
Definition KEY_LOCK_META : Z := 2 ^ 19.

Definition KDB_O_NONE : Z := 0.
Definition KDB_O_DEL : Z := 1.
Definition KDB_O_POP : Z := 2.
Definition KDB_O_NOCASE : Z := 2 ^ 12.
Definition KDB_O_WITHOWNER : Z := 2 ^ 13.
Definition KDB_O_NOALL : Z := 2 ^ 14.
Definition KDB_O_SPEC : Z := 2 ^ 15.
Definition KDB_O_CREATE : Z := 2 ^ 16.
Definition KDB_O_NOCASCADING : Z := 2 ^ 17.
Definition KDB_O_NOSPEC : Z := 2 ^ 18.
Definition KDB_O_NODEFAULT : Z := 2 ^ 19.
Definition KDB_O_CALLBACK : Z := 2 ^ 20.

Definition KEYSET_SIZE : nat := 16.

Definition test_bit (var bit : Z) : bool := negb (Z.land var bit =? 0)%Z.
Definition set_bit (var bit : Z) : Z := Z.lor var bit.
Definition clear_bit (var bit : Z) : Z := Z.land var (Z.lnot bit).

(** ** The monad *)

Inductive outcome (A : Type) : Type :=
| Ret (a : A) (h : heap)
| Undefined
| NoFuel.
Arguments Ret {A} a h.
Arguments Undefined {A}.
Arguments NoFuel {A}.

Definition M (A : Type) : Type := heap -> outcome A.

Definition ret {A} (a : A) : M A := fun h => Ret a h.
Definition undefined {A} : M A := fun _ => Undefined.
Definition nofuel {A} : M A := fun _ => NoFuel.
Definition bindM {A B} (m : M A) (f : A -> M B) : M B :=
  fun h => match m h with Ret a h' => f a h' | Undefined => Undefined | NoFuel => NoFuel end.

Declare Scope elektra_scope.
Delimit Scope elektra_scope with elektra.
#[global] Open Scope elektra_scope.
Notation "x <- e ;; k" := (bindM e (fun x => k))
  (at level 100, e at next level, right associativity) : elektra_scope.
Notation "'let*' p := e 'in' k" := (bindM e (fun x => match x with p => k end))
  (at level 100, p strict pattern, e at level 99, k at level 100, right associativity)
  : elektra_scope.
Notation "e ;; k" := (bindM e (fun _ => k))
  (at level 100, right associativity) : elektra_scope.

(** A loop with a bound on its turns; [inl] goes on, [inr] leaves the loop. *)
Fixpoint loopM {A B} (fuel : nat) (body : A -> M (A + B)) (a : A) : M B :=
  match fuel with
  | O => nofuel
  | S n => r <- body a;; match r with inl a' => loopM n body a' | inr b => ret b end
  end.

Fixpoint forM {A} (l : list A) (f : A -> M unit) : M unit :=
  match l with [] => ret tt | x :: r => f x;; forM r f end.

(** The first unused address. *)
Definition fresh_loc {V} (m : gmap loc V) : loc :=
  Pos.succ (map_fold (fun l _ acc => Pos.max l acc) 1%positive m).

Definition get_key (l : loc) : M Key :=
  fun h => match h_keys h !! l with Some k => Ret k h | None => Undefined end.
Definition put_key (l : loc) (k : Key) : M unit :=
  fun h => match h_keys h !! l with
           | Some _ => Ret tt (mkHeap (<[l := k]> (h_keys h)) (h_sets h))
           | None => Undefined
           end.
Definition alloc_key (k : Key) : M loc :=
  fun h => let l := fresh_loc (h_keys h) in Ret l (mkHeap (<[l := k]> (h_keys h)) (h_sets h)).
Definition free_key (l : loc) : M unit :=
  fun h => match h_keys h !! l with
           | Some _ => Ret tt (mkHeap (delete l (h_keys h)) (h_sets h))
           | None => Undefined
           end.

Definition get_ks (l : loc) : M KeySet :=
  fun h => match h_sets h !! l with Some k => Ret k h | None => Undefined end.
Definition put_ks (l : loc) (k : KeySet) : M unit :=
  fun h => match h_sets h !! l with
           | Some _ => Ret tt (mkHeap (h_keys h) (<[l := k]> (h_sets h)))
           | None => Undefined
           end.
Definition alloc_ks (k : KeySet) : M loc :=
  fun h => let l := fresh_loc (h_sets h) in Ret l (mkHeap (h_keys h) (<[l := k]> (h_sets h))).
Definition free_ks (l : loc) : M unit :=
  fun h => match h_sets h !! l with
           | Some _ => Ret tt (mkHeap (h_keys h) (delete l (h_sets h)))
           | None => Undefined
           end.

(** ** Array cells *)

(** Reading [ks->array[i]]: the cell must exist and have been written. *)
Definition array_get (ks : KeySet) (i : nat) : M ptr :=
  match ks_array ks with
  | Some a => match a !! i with Some (Some p) => ret p | _ => undefined end
  | None => undefined
  end.

(** Writing [ks->array[i] = p]: the cell must exist. *)
Definition array_set (ks : KeySet) (i : nat) (p : ptr) : M KeySet :=
  match ks_array ks with
  | Some a =>
      if i <? length a then
        ret (mkKS (Some (<[i := Some p]> a)) (ks_size ks) (ks_alloc ks)
               (ks_cursor ks) (ks_current ks) (ks_flags ks))
      else undefined
  | None => undefined
  end.

(** [memmove (array + to, array + from, n)]: both ranges must be inside. *)
Definition array_memmove (ks : KeySet) (to from n : nat) : M KeySet :=
  match ks_array ks with
  | Some a =>
      if (to + n <=? length a) && (from + n <=? length a) then
        ret (mkKS (Some (take to a ++ take n (drop from a) ++ drop (to + n) a))
               (ks_size ks) (ks_alloc ks) (ks_cursor ks) (ks_current ks) (ks_flags ks))
      else undefined
  | None => undefined
  end.

(** ** Field updates *)

Definition set_data (k : Key) d := mkKey d (k_key k) (k_uname k) (k_flags k) (k_ksReference k) (k_meta k).
Definition set_name (k : Key) n u := mkKey (k_data k) n u (k_flags k) (k_ksReference k) (k_meta k).
Definition set_flags (k : Key) f := mkKey (k_data k) (k_key k) (k_uname k) f (k_ksReference k) (k_meta k).
Definition set_ref (k : Key) r := mkKey (k_data k) (k_key k) (k_uname k) (k_flags k) r (k_meta k).
Definition set_meta (k : Key) m := mkKey (k_data k) (k_key k) (k_uname k) (k_flags k) (k_ksReference k) m.

Definition ks_with_array (ks : KeySet) a := mkKS a (ks_size ks) (ks_alloc ks) (ks_cursor ks) (ks_current ks) (ks_flags ks).
Definition ks_with_size (ks : KeySet) s := mkKS (ks_array ks) s (ks_alloc ks) (ks_cursor ks) (ks_current ks) (ks_flags ks).
Definition ks_with_alloc (ks : KeySet) a := mkKS (ks_array ks) (ks_size ks) a (ks_cursor ks) (ks_current ks) (ks_flags ks).
Definition ks_with_cursor (ks : KeySet) c i := mkKS (ks_array ks) (ks_size ks) (ks_alloc ks) c i (ks_flags ks).
Definition ks_with_flags (ks : KeySet) f := mkKS (ks_array ks) (ks_size ks) (ks_alloc ks) (ks_cursor ks) (ks_current ks) f.

(** ** The recursive knot

    Looking up a key reads metadata, metadata is a keyset that is looked up,
    names are set with the owner kept in metadata and deleting a key deletes
    the keys of its metadata: the functions call each other in a cycle.  The
    class holds the functions that are called before they are defined; the
    knot is tied in [Lookup.v]. *)
Class Rec := {
  rec_ksLookup : ptr -> ptr -> Z -> M ptr;
  rec_keyDel : ptr -> M Z;
  rec_keySetOwner : ptr -> option cstr -> M Z
}.
