(* ===== verification/KeyNames.v ===== *)
(** * KeyNames: namespaces and the name of a key

    The name predicates of [keyhelpers.c] and the functions of [keyname.c] that
    compute on the name buffer alone; [Keys.v] wraps them into the key
    operations. *)
From S2P Require Export Heap.

(** ** Namespaces *)

Inductive elektraNamespace :=
| KEY_NS_NONE | KEY_NS_EMPTY | KEY_NS_META | KEY_NS_CASCADING
| KEY_NS_SPEC | KEY_NS_PROC | KEY_NS_DIR | KEY_NS_USER | KEY_NS_SYSTEM.

#[global] Instance elektraNamespace_eq_dec : EqDecision elektraNamespace.
Proof. solve_decision. Defined.

(** The range [KEY_NS_FIRST .. KEY_NS_LAST] the loops over namespaces visit. *)
Definition namespaces : list elektraNamespace :=
  [KEY_NS_SPEC; KEY_NS_PROC; KEY_NS_DIR; KEY_NS_USER; KEY_NS_SYSTEM].

(** [!strcmp (root, name) || !strncmp (root/, name, sizeof (root/) - 1)] *)
Definition name_is_root (root : string) (name : cstr) : bool :=
  bool_decide (strcmp (lit root) name = 0%Z) ||
  bool_decide (strncmp (lit root ++ [SLASH]) name (length (lit root) + 1) = 0%Z).

Definition keyNameIsSpec (name : cstr) : bool := name_is_root "spec" name.
Definition keyNameIsProc (name : cstr) : bool := name_is_root "proc" name.
Definition keyNameIsDir (name : cstr) : bool := name_is_root "dir" name.
Definition keyNameIsUser (name : cstr) : bool :=
  name_is_root "user" name || bool_decide (strncmp (lit "user:") name 5 = 0%Z).
Definition keyNameIsSystem (name : cstr) : bool := name_is_root "system" name.

Definition keyGetNameNamespace (name : option cstr) : elektraNamespace :=
  match name with
  | None => KEY_NS_EMPTY
  | Some name =>
      if bool_decide (strcmp name [] = 0%Z) then KEY_NS_EMPTY
      else if decide (deref name = SLASH) then KEY_NS_CASCADING
      else if keyNameIsSpec name then KEY_NS_SPEC
      else if keyNameIsProc name then KEY_NS_PROC
      else if keyNameIsDir name then KEY_NS_DIR
      else if keyNameIsUser name then KEY_NS_USER
      else if keyNameIsSystem name then KEY_NS_SYSTEM
      else KEY_NS_META
  end.

Definition elektraOnlySlashes (name : cstr) : bool :=
  forallb (fun c => bool_decide (c = SLASH)) name.

(** ** The name buffer

    While a name is edited the meaningful part of the buffer is the prefix
    [key->key[0 .. keySize)]; the functions below compute on that prefix. *)

(** The scan of [elektraRemoveOneLevel]: number of levels, size of the last. *)
Fixpoint count_levels (fuel : nat) (x : cstr) (levels sizeOfLastLevel : nat) : nat * nat :=
  match fuel with
  | O => (levels, sizeOfLastLevel)
  | S n =>
      let (x, xsize) := keyNameGetOneLevel x in
      if decide (deref x = NUL) then (levels, sizeOfLastLevel)
      else count_levels n (drop xsize x) (S levels) xsize
  end.

Definition elektraRemoveOneLevel (content : cstr) (avoidSlash : bool) : cstr * bool :=
  let (levels, sizeOfLastLevel) := count_levels (S (length content)) content 0 0 in
  if 1 <? levels then (take (length content - (sizeOfLastLevel + 1)) content, avoidSlash)
  else if decide (deref content = SLASH) then (take 1 content, true)
  else (content, avoidSlash).

(** The loop of [keyAddName] over the levels of the new name [p]. *)
Fixpoint add_name_loop (fuel : nat) (content p : cstr) (avoidSlash : bool) : cstr :=
  match fuel with
  | O => content
  | S n =>
      let (p, size) := keyNameGetOneLevel p in
      if decide (deref p = NUL) then content
      else if (size =? 1) && bool_decide (strncmp p (lit ".") 1 = 0%Z) then
        add_name_loop n content (drop size p) avoidSlash
      else if (size =? 2) && bool_decide (strncmp p (lit "..") 2 = 0%Z) then
        let (content, avoidSlash) := elektraRemoveOneLevel content avoidSlash in
        add_name_loop n content (drop size p) avoidSlash
      else
        add_name_loop n (content ++ (if avoidSlash then [] else [SLASH]) ++ take size p)
          (drop size p) false
  end.

(** The new content of the buffer of [keyAddName], whose old name is [name]. *)
Definition keyAddName_content (name newName : cstr) : cstr :=
  let avoidSlash := bool_decide (deref name = SLASH) && (S (length name) =? 2) in
  add_name_loop (S (length newName)) name newName avoidSlash.

(** The scan of [keySetBaseName]: the offset and size of the last level. *)
Fixpoint search_base (fuel : nat) (name p : cstr) (acc : option (nat * nat)) : option (nat * nat) :=
  match fuel with
  | O => acc
  | S n =>
      let (p, size) := keyNameGetOneLevel p in
      if decide (deref p = NUL) then acc
      else search_base n name (drop size p) (Some (length name - length p, size + 1))
  end.

(** [keyBaseName] scans the name buffer backwards from its end: [base] is the
    offset of the last part among the unescaped bytes.  The byte before them is
    the NUL of the escaped name.  The comparison with [key->key + keyUSize]
    is the comparison of the offset plus [keySize] with [keyUSize]. *)
Fixpoint last_part (rev_bytes : list ascii) (acc : cstr) : cstr :=
  match rev_bytes with
  | [] => acc
  | c :: r => if decide (c = NUL) then acc else last_part r (c :: acc)
  end.

Definition base_of (keySize keyUSize : nat) (uname : list ascii) : cstr :=
  let base := last_part (tail (reverse uname)) [] in
  let offset := keyUSize - 1 - length base in
  if keySize + offset =? keyUSize then [] else base.
