(* ===== verification/Keys.v ===== *)
(** * Keys: creation, reference counts, flags and names

    The operations of [key.c], [keyname.c] and [keytest.c] on one key that need
    no metadata, and [elektraKeyLock] of [libs/elektra/proposal.c]. *)
From S2P Require Export KeyNames.

Section Keys.
Context {R : Rec}.

(** ** key.c: initialisation and reference counting *)

Definition emptyKey : Key := mkKey None None [] 0 0 None.

Definition keyInit (key : loc) : M Z := put_key key emptyKey;; ret 0%Z.

Definition elektraKeyMalloc : M loc := alloc_key emptyKey.

Definition SSIZE_MAX : Z := 2 ^ 63 - 1.

Definition keyIncRef (key : ptr) : M Z :=
  match key with
  | None => ret (-1)%Z
  | Some l =>
      k <- get_key l;;
      if (Z.of_nat (k_ksReference k) <? SSIZE_MAX)%Z then
        put_key l (set_ref k (S (k_ksReference k)));;
        ret (Z.of_nat (S (k_ksReference k)))
      else ret SSIZE_MAX
  end.

Definition keyDecRef (key : ptr) : M Z :=
  match key with
  | None => ret (-1)%Z
  | Some l =>
      k <- get_key l;;
      if 0 <? k_ksReference k then
        put_key l (set_ref k (k_ksReference k - 1));;
        ret (Z.of_nat (k_ksReference k - 1))
      else ret 0%Z
  end.

Definition keyGetRef (key : ptr) : M Z :=
  match key with
  | None => ret (-1)%Z
  | Some l => k <- get_key l;; ret (Z.of_nat (k_ksReference k))
  end.

(** ** keyname.c: reading names *)

Definition keyName (key : ptr) : M (option cstr) :=
  match key with
  | None => ret None
  | Some l => k <- get_key l;; ret (Some (match k_key k with None => [] | Some n => n end))
  end.

Definition keyGetNameSize (key : ptr) : M Z :=
  match key with
  | None => ret (-1)%Z
  | Some l =>
      k <- get_key l;;
      ret (match k_key k with None => 1 | Some _ => Z.of_nat (keySize k) end)%Z
  end.

Definition keyUnescapedName (key : ptr) : M (option (list ascii)) :=
  match key with
  | None => ret None
  | Some l =>
      k <- get_key l;;
      ret (Some (match k_key k with None => [NUL] | Some _ => k_uname k end))
  end.

Definition keyGetUnescapedNameSize (key : ptr) : M Z :=
  match key with
  | None => ret (-1)%Z
  | Some l =>
      k <- get_key l;;
      ret (match k_key k with None => 0 | Some _ => Z.of_nat (keyUSize k) end)%Z
  end.

(** The returned buffer is [None] when nothing is written to it. *)
Definition keyGetName (key : ptr) (returnedName : bool) (maxSize : nat) : M (Z * option cstr) :=
  match key with
  | None => ret ((-1)%Z, None)
  | Some l =>
      if negb returnedName then ret ((-1)%Z, None)
      else if maxSize =? 0 then ret ((-1)%Z, None)
      else
        k <- get_key l;;
        match k_key k with
        | None => ret (1%Z, Some [])
        | Some n =>
            if maxSize <? keySize k then ret ((-1)%Z, None)
            else ret (Z.of_nat (keySize k), Some n)
        end
  end.

Definition keyGetNamespace (key : ptr) : M elektraNamespace :=
  match key with
  | None => ret KEY_NS_NONE
  | Some l => k <- get_key l;; ret (keyGetNameNamespace (k_key k))
  end.

(** The [keyIs*] predicates of keytest.c; -1 for NULL. *)
Definition keyIs (p : cstr -> bool) (key : ptr) : M Z :=
  match key with
  | None => ret (-1)%Z
  | Some l =>
      k <- get_key l;;
      match k_key k with Some n => ret (if p n then 1 else 0)%Z | None => ret 0%Z end
  end.
Definition keyIsSpec (key : ptr) : M Z := keyIs keyNameIsSpec key.
Definition keyIsProc (key : ptr) : M Z := keyIs keyNameIsProc key.
Definition keyIsDir (key : ptr) : M Z := keyIs keyNameIsDir key.
Definition keyIsUser (key : ptr) : M Z := keyIs keyNameIsUser key.
Definition keyIsSystem (key : ptr) : M Z := keyIs keyNameIsSystem key.

Definition keyBaseName (key : ptr) : M (option cstr) :=
  match key with
  | None => ret None
  | Some l =>
      k <- get_key l;;
      match k_key k with
      | None => ret (Some [])
      | Some _ => ret (Some (base_of (keySize k) (keyUSize k) (k_uname k)))
      end
  end.

Definition keyGetBaseNameSize (key : ptr) : M Z :=
  baseName <- keyBaseName key;;
  match baseName with
  | None => ret (-1)%Z
  | Some b => ret (Z.of_nat (S (length b)))
  end.

Definition keyGetBaseName (key : ptr) (returned : bool) (maxSize : nat) : M (Z * option cstr) :=
  match key with
  | None => ret ((-1)%Z, None)
  | Some l =>
      if negb returned then ret ((-1)%Z, None)
      else if maxSize =? 0 then ret ((-1)%Z, None)
      else
        k <- get_key l;;
        match k_key k with
        | None => ret (1%Z, Some [])
        | Some _ =>
            baseSize <- keyGetBaseNameSize key;;
            if (Z.of_nat maxSize <? baseSize)%Z then ret ((-1)%Z, None)
            else
              baseName <- keyBaseName key;;
              match baseName with
              | None => ret ((-1)%Z, None)
              | Some b => ret (baseSize, Some b)
              end
        end
  end.

(** ** keytest.c and proposal.c: flags *)

Definition keyNeedSync (key : ptr) : M Z :=
  match key with
  | None => ret (-1)%Z
  | Some l => k <- get_key l;; ret (if test_bit (k_flags k) KEY_FLAG_SYNC then 1 else 0)%Z
  end.

Definition keyClearSync (key : ptr) : M Z :=
  match key with
  | None => ret (-1)%Z
  | Some l =>
      k <- get_key l;;
      put_key l (set_flags k (clear_bit (k_flags k) KEY_FLAG_SYNC));;
      ret (clear_bit (k_flags k) KEY_FLAG_SYNC)
  end.

(** One of the three blocks of [elektraKeyLock]. *)
Definition lock_one (what lock flag : Z) (st : Z * Z) : Z * Z :=
  let (flags, r) := st in
  if test_bit what lock then
    if test_bit flags flag then (flags, r) else (set_bit flags flag, set_bit r lock)
  else (flags, r).

Definition elektraKeyLock (key : ptr) (what : Z) : M Z :=
  match key with
  | None => ret (-1)%Z
  | Some l =>
      k <- get_key l;;
      let st := lock_one what KEY_LOCK_NAME KEY_FLAG_RO_NAME (k_flags k, 0%Z) in
      let st := lock_one what KEY_LOCK_VALUE KEY_FLAG_RO_VALUE st in
      let (flags, r) := lock_one what KEY_LOCK_META KEY_FLAG_RO_META st in
      put_key l (set_flags k flags);;
      ret r
  end.

(** ** keyname.c: the end of every change of a name *)

(** [content] is the name buffer up to the final NUL written here. *)
Definition elektraFinalizeName (key : loc) (content : cstr) : M Z :=
  k <- get_key key;;
  put_key key (set_flags (set_name k (Some content) (elektraUnescapeKeyName content))
                 (set_bit (k_flags k) KEY_FLAG_SYNC));;
  ret (Z.of_nat (S (length content))).

Definition elektraFinalizeEmptyName (key : loc) : M Z :=
  k <- get_key key;;
  put_key key (set_flags (set_name k (Some []) [NUL]) (set_bit (k_flags k) KEY_FLAG_SYNC));;
  ret 1%Z.

Definition elektraRemoveKeyName (key : loc) : M unit :=
  k <- get_key key;; put_key key (set_name k None []).

Definition keyAddName (key : ptr) (newName : option cstr) : M Z :=
  match key with
  | None => ret (-1)%Z
  | Some l =>
      k <- get_key l;;
      if test_bit (k_flags k) KEY_FLAG_RO_NAME then ret (-1)%Z
      else
        match k_key k with
        | None => ret (-1)%Z
        | Some name =>
            if bool_decide (strcmp name [] = 0%Z) then ret (-1)%Z
            else
              match newName with
              | None => ret 0%Z
              | Some newName =>
                  let nameSize := S (length newName) in
                  if nameSize <? 2 then ret 0%Z
                  else if negb (elektraValidateKeyName newName nameSize) then ret (-1)%Z
                  else
                    let origSize := keySize k in
                    size <- elektraFinalizeName l (keyAddName_content name newName);;
                    ret (if (Z.of_nat origSize =? size)%Z then 0 else size)%Z
              end
        end
  end.

Definition keyAddBaseName (key : ptr) (baseName : option cstr) : M Z :=
  match key with
  | None => ret (-1)%Z
  | Some l =>
      k <- get_key l;;
      match baseName with
      | None => ret (Z.of_nat (keySize k))
      | Some baseName =>
          if test_bit (k_flags k) KEY_FLAG_RO_NAME then ret (-1)%Z
          else
            match k_key k with
            | None => ret (-1)%Z
            | Some name =>
                let escaped := elektraEscapeKeyNamePart baseName in
                elektraFinalizeName l
                  (if bool_decide (strcmp name (lit "/") = 0%Z) then name ++ escaped
                   else name ++ [SLASH] ++ escaped)
            end
      end
  end.

Definition keySetBaseName (key : ptr) (baseName : option cstr) : M Z :=
  match key with
  | None => ret (-1)%Z
  | Some l =>
      k <- get_key l;;
      if test_bit (k_flags k) KEY_FLAG_RO_NAME then ret (-1)%Z
      else
        match k_key k with
        | None => ret (-1)%Z
        | Some name =>
            match search_base (S (length name)) name name None with
            | None => ret (-1)%Z
            | Some (O, _) => ret (-1)%Z
            | Some (S _, searchBaseSize) =>
                (* keySize -= searchBaseSize; the NUL is written at keySize - 1 *)
                let kept := S (length name) - searchBaseSize in
                match baseName with
                | None => elektraFinalizeName l (take (kept - 1) name)
                | Some baseName =>
                    elektraFinalizeName l
                      (take (kept - 1) name ++ [SLASH] ++ elektraEscapeKeyNamePart baseName)
                end
            end
        end
  end.
End Keys.
