(* ===== verification/KeySetBase.v ===== *)
(** * KeySetBase: memory, cursors and deletion of keysets

    The parts of [keyset.c], [key.c] and [proposal.c] that do not compare keys:
    allocation, the internal cursor, popping, closing and deleting. *)
From S2P Require Export Keys.

Section KeySetBase.
Context {R : Rec}.

(** ** Initialisation and size *)

Definition emptyKeySet : KeySet := mkKS None 0 0 None 0 0.

Definition ksRewind (ks : ptr) : M Z :=
  match ks with
  | None => ret (-1)%Z
  | Some l => s <- get_ks l;; put_ks l (ks_with_cursor s None 0);; ret 0%Z
  end.

Definition ksInit (ks : loc) : M Z :=
  put_ks ks emptyKeySet;; ksRewind (Some ks);; ret 1%Z.

(** The uninitialised block [elektraMalloc] returns. *)
Definition fresh_array (alloc : nat) : option (list (option ptr)) := Some (replicate alloc None).

(** [elektraRealloc] keeps the common prefix of the blocks. *)
Definition realloc_array (a : list (option ptr)) (alloc : nat) : list (option ptr) :=
  take alloc a ++ replicate (alloc - length a) None.

(** [alloc] is a [size_t]; -1 stands for [SIZE_MAX], which [alloc ++] turns
    into 0. *)
Definition ksResize (ks : ptr) (alloc : Z) : M Z :=
  match ks with
  | None => ret (-1)%Z
  | Some l =>
      s <- get_ks l;;
      let alloc := Z.to_nat (alloc + 1) in
      if alloc =? ks_alloc s then ret 1%Z
      else if alloc <? ks_size s then ret 0%Z
      else if (alloc <? KEYSET_SIZE) && (ks_alloc s =? KEYSET_SIZE) then ret 0%Z
      else
        let alloc := if alloc <? KEYSET_SIZE then KEYSET_SIZE else alloc in
        let s := match ks_array s with
                 | None => ks_with_array (ks_with_size s 0) (fresh_array alloc)
                 | Some a => s
                 end in
        match ks_array s with
        | None => undefined
        | Some a =>
            put_ks l (ks_with_alloc (ks_with_array s (Some (realloc_array a alloc))) alloc);;
            ret 1%Z
        end
  end.

Definition ksGetAlloc (ks : loc) : M nat := s <- get_ks ks;; ret (ks_alloc s - 1).

Definition ksGetSize (ks : ptr) : M Z :=
  match ks with None => ret (-1)%Z | Some l => s <- get_ks l;; ret (Z.of_nat (ks_size s)) end.

Definition ksNeedSync (ks : ptr) : M Z :=
  match ks with
  | None => ret (-1)%Z
  | Some l => s <- get_ks l;; ret (if test_bit (ks_flags s) KS_FLAG_SYNC then 1 else 0)%Z
  end.

(** [ksVNew] up to the keys given as arguments. *)
Definition ksNewEmpty (alloc : nat) : M loc :=
  l <- alloc_ks emptyKeySet;;
  ksInit l;;
  let alloc := S alloc in
  let a := if alloc <? KEYSET_SIZE then KEYSET_SIZE else alloc in
  s <- get_ks l;;
  let s := ks_with_array (ks_with_alloc s a) (fresh_array a) in
  s <- array_set s 0 None;;
  put_ks l s;;
  ret l.

(** ** The internal cursor *)

Definition ksNext (ks : ptr) : M ptr :=
  match ks with
  | None => ret None
  | Some l =>
      s <- get_ks l;;
      if ks_size s =? 0 then ret None
      else if ks_size s <=? ks_current s then ret None
      else
        let current := if ks_cursor s is Some _ then S (ks_current s) else ks_current s in
        p <- array_get s current;;
        put_ks l (ks_with_cursor s p current);;
        ret p
  end.

Definition ksCurrent (ks : ptr) : M ptr :=
  match ks with None => ret None | Some l => s <- get_ks l;; ret (ks_cursor s) end.

Definition ksHead (ks : ptr) : M ptr :=
  match ks with
  | None => ret None
  | Some l => s <- get_ks l;; if 0 <? ks_size s then array_get s 0 else ret None
  end.

Definition ksTail (ks : ptr) : M ptr :=
  match ks with
  | None => ret None
  | Some l => s <- get_ks l;; if 0 <? ks_size s then array_get s (ks_size s - 1) else ret None
  end.

Definition ksGetCursor (ks : ptr) : M Z :=
  match ks with
  | None => ret (-1)%Z
  | Some l =>
      s <- get_ks l;;
      ret (if ks_cursor s is Some _ then Z.of_nat (ks_current s) else -1)%Z
  end.

Definition ksAtCursor (ks : ptr) (pos : Z) : M ptr :=
  match ks with
  | None => ret None
  | Some l =>
      if (pos <? 0)%Z then ret None
      else
        s <- get_ks l;;
        if ks_size s <? Z.to_nat pos then ret None else array_get s (Z.to_nat pos)
  end.

(** A negative [cursor] other than -1 is converted to a huge [size_t]. *)
Definition ksSetCursor (ks : ptr) (cursor : Z) : M Z :=
  match ks with
  | None => ret (-1)%Z
  | Some l =>
      if (cursor =? -1)%Z then ksRewind ks;; ret 0%Z
      else if (cursor <? 0)%Z then undefined
      else
        s <- get_ks l;;
        p <- array_get s (Z.to_nat cursor);;
        put_ks l (ks_with_cursor s p (Z.to_nat cursor));;
        ret 1%Z
  end.

Definition elektraKsPrev (ks : loc) : M ptr :=
  s <- get_ks ks;;
  if ks_size s =? 0 then ret None
  else if ks_current s =? 0 then ksRewind (Some ks);; ret None
  else
    p <- array_get s (ks_current s - 1);;
    put_ks ks (ks_with_cursor s p (ks_current s - 1));;
    ret p.

(** ** Removing keys *)

Definition ksPop (ks : ptr) : M ptr :=
  match ks with
  | None => ret None
  | Some l =>
      s <- get_ks l;;
      put_ks l (ks_with_flags s (set_bit (ks_flags s) KS_FLAG_SYNC));;
      if ks_size s =? 0 then ret None
      else
        s <- get_ks l;;
        put_ks l (ks_with_size s (ks_size s - 1));;
        s <- get_ks l;;
        (if ks_size s + 1 <? ks_alloc s / 2 then ksResize ks (Z.of_nat (ks_alloc s / 2) - 1)
         else ret 0%Z);;
        s <- get_ks l;;
        r <- array_get s (ks_size s);;
        s <- array_set s (ks_size s) None;;
        put_ks l s;;
        keyDecRef r;;
        ret r
  end.

Definition elektraKsPopAtCursor (ks : ptr) (pos : Z) : M ptr :=
  match ks with
  | None => ret None
  | Some l =>
      if (pos <? 0)%Z then ret None
      else
        let c := Z.to_nat pos in
        s <- get_ks l;;
        if ks_size s <=? c then ret None
        else
          (if negb (c =? ks_size s - 1) then
             k <- array_get s c;;
             s <- array_memmove s c (c + 1) (ks_size s - c - 1);;
             s <- array_set s (ks_size s - 1) k;;
             put_ks l s
           else ret tt);;
          ksRewind ks;;
          ksPop ks
  end.

(** The part of the array from [from] is moved to [to]; the cells between are
    dropped and the array is terminated again. *)
Definition ksCopyInternal (ks : loc) (to from : nat) : M Z :=
  s <- get_ks ks;;
  let len := ks_size s - from in
  s <- (if len =? 0 then ret s else array_memmove s to from len);;
  let s := ks_with_size s (ks_size s + to - from) in
  s <- array_set s (ks_size s) None;;
  put_ks ks s;;
  ret (Z.of_nat len).

(** ** Deleting *)

(** [while ((k = ksNext (ks)) != 0)]: [keyDecRef] and [keyDel] every key. *)
Fixpoint ksClose_loop (fuel : nat) (ks : loc) : M unit :=
  match fuel with
  | O => nofuel
  | S n =>
      k <- ksNext (Some ks);;
      match k with
      | None => ret tt
      | Some _ => keyDecRef k;; rec_keyDel k;; ksClose_loop n ks
      end
  end.

Definition ksClose (ks : loc) : M Z :=
  ksRewind (Some ks);;
  s <- get_ks ks;;
  ksClose_loop (S (ks_size s)) ks;;
  s <- get_ks ks;;
  put_ks ks (ks_with_size (ks_with_alloc (ks_with_array s None) 0) 0);;
  ret 0%Z.

Definition ksDel (ks : ptr) : M Z :=
  match ks with
  | None => ret (-1)%Z
  | Some l => rc <- ksClose l;; free_ks l;; ret rc
  end.

Definition ksClear (ks : loc) : M Z :=
  ksClose ks;;
  s <- get_ks ks;;
  put_ks ks (ks_with_alloc (ks_with_array s (fresh_array KEYSET_SIZE)) KEYSET_SIZE);;
  ret 0%Z.

Definition keyClear (key : ptr) : M Z :=
  match key with
  | None => ret (-1)%Z
  | Some l =>
      k <- get_key l;;
      let ref := k_ksReference k in
      (if k_meta k is Some _ then ksDel (k_meta k) else ret 0%Z);;
      keyInit l;;
      put_key l (set_ref emptyKey ref);;
      ret 0%Z
  end.

Definition keyDel (key : ptr) : M Z :=
  match key with
  | None => ret (-1)%Z
  | Some l =>
      k <- get_key l;;
      if 0 <? k_ksReference k then ret (Z.of_nat (k_ksReference k))
      else
        rc <- keyClear key;;
        free_key l;;
        ret rc
  end.
End KeySetBase.
