(* ===== verification/Meta.v ===== *)
(** * Meta: setting names, metadata, values, owners and comparisons

    [elektraKeySetName] of [keyname.c] with the owner handling, [keyGetMeta],
    [keyvalue.c] and [owner.c] as far as they change no metadata, and the
    functions of [keyset.c] that compare two keys.  Everything that looks into
    metadata goes through [keyGetMeta], which searches the metadata keyset with
    [ksLookup]. *)
From S2P Require Export KeySetBase.

Section Meta.
Context {R : Rec}.

(** ** keyname.c: setting a name *)

(** The sizes [elektraHandleUserName] leaves in [keySize] and [keyUSize]. *)
Definition elektraHandleUserName (key : loc) (newName : cstr) : M (nat * nat) :=
  let userLength := 5 in
  match newName !! (userLength - 1) with
  | None => ret (userLength, userLength)
  | Some delim =>
      if decide (delim = SLASH) then ret (userLength, userLength)
      else
        let keyUSize := snd (keyNameGetOneLevel newName) in
        let ownerLength := keyUSize - userLength in
        rec_keySetOwner (Some key) (Some (take ownerLength (drop userLength newName)));;
        ret (userLength, S keyUSize)
  end.

(** What follows the switch of [elektraKeySetName]: the buffer gets the first
    [keySize] bytes of the new name, and the rest is added level by level. *)
Definition elektraSetNameRest (key : loc) (newName : cstr) (keySize0 keyUSize0 : nat) : M Z :=
  let length0 := S (length newName) in
  if (length0 =? keyUSize0) || (length0 =? keySize0) then
    elektraFinalizeName key (take (keySize0 - 1) newName);;
    k <- get_key key;;
    ret (Z.of_nat (keyUSize k))
  else if elektraOnlySlashes (drop (keyUSize0 - 1) newName) then
    elektraFinalizeName key (take (keySize0 - 1) newName);;
    k <- get_key key;;
    ret (Z.of_nat (keySize k))
  else
    k <- get_key key;;
    put_key key (set_name k (Some (take (keySize0 - 1) newName)) []);;
    r <- keyAddName (Some key) (Some (drop keyUSize0 newName));;
    if (r =? -1)%Z then elektraRemoveKeyName key;; ret r
    else k <- get_key key;; ret (Z.of_nat (keySize k)).

Definition elektraKeySetName (key : ptr) (newName : option cstr) (options : Z) : M Z :=
  match key with
  | None => ret (-1)%Z
  | Some l =>
      k <- get_key l;;
      if test_bit (k_flags k) KEY_FLAG_RO_NAME then ret (-1)%Z
      else
        elektraRemoveKeyName l;;
        (if test_bit options KEY_META_NAME then ret 0%Z else rec_keySetOwner key None);;
        match keyGetNameNamespace newName, newName with
        | KEY_NS_NONE, _ | KEY_NS_EMPTY, _ | _, None => elektraFinalizeEmptyName l;; ret 0%Z
        | KEY_NS_CASCADING, Some nm => elektraSetNameRest l nm 2 1
        | KEY_NS_SPEC, Some nm => elektraSetNameRest l nm 5 5
        | KEY_NS_PROC, Some nm => elektraSetNameRest l nm 5 5
        | KEY_NS_DIR, Some nm => elektraSetNameRest l nm 4 4
        | KEY_NS_USER, Some nm =>
            let* (size, usize) := elektraHandleUserName l nm in
            elektraSetNameRest l nm size usize
        | KEY_NS_SYSTEM, Some nm => elektraSetNameRest l nm 7 7
        | KEY_NS_META, Some nm =>
            if negb (test_bit options KEY_META_NAME) then ret (-1)%Z
            else
              let size := S (snd (keyNameGetOneLevel nm)) in
              elektraSetNameRest l nm size size
        end
  end.

Definition keySetName (key : ptr) (newName : option cstr) : M Z := elektraKeySetName key newName 0.

(** ** keymeta.c: reading metadata *)

Definition keyGetMeta (key : ptr) (metaName : option cstr) : M ptr :=
  match key with
  | None => ret None
  | Some l =>
      match metaName with
      | None => ret None
      | Some _ =>
          k <- get_key l;;
          match k_meta k with
          | None => ret None
          | Some _ =>
              search <- elektraKeyMalloc;;
              elektraKeySetName (Some search) metaName (set_bit KEY_META_NAME KEY_EMPTY_NAME);;
              r <- rec_ksLookup (k_meta k) (Some search) 0;;
              keyDel (Some search);;
              ret r
          end
      end
  end.

Definition keyIsBinary (key : ptr) : M Z :=
  match key with
  | None => ret (-1)%Z
  | Some _ =>
      m <- keyGetMeta key (Some (lit "binary"));;
      ret (if m is Some _ then 1 else 0)%Z
  end.

Definition keyIsString (key : ptr) : M Z :=
  match key with
  | None => ret (-1)%Z
  | Some _ =>
      m <- keyGetMeta key (Some (lit "binary"));;
      ret (if m is Some _ then 0 else 1)%Z
  end.

(** ** keyvalue.c *)

(** A pointer to bytes; [""] is one NUL byte. *)
Definition keyValue (key : ptr) : M (option (list ascii)) :=
  match key with
  | None => ret None
  | Some l =>
      k <- get_key l;;
      match k_data k with
      | Some d => ret (Some d)
      | None =>
          b <- keyIsBinary key;;
          ret (if (b =? 0)%Z then Some [NUL] else None)
      end
  end.

(** The C string a pointer to bytes points to. *)
Definition as_cstr (d : list ascii) : M cstr :=
  match cstr_of d with Some s => ret s | None => undefined end.

Definition keyString (key : ptr) : M cstr :=
  match key with
  | None => ret (lit "(null)")
  | Some l =>
      k <- get_key l;;
      match k_data k with
      | None => ret []
      | Some d =>
          b <- keyIsBinary key;;
          if negb (b =? 0)%Z then ret (lit "(binary)") else as_cstr d
      end
  end.

Definition keyGetValueSize (key : ptr) : M Z :=
  match key with
  | None => ret (-1)%Z
  | Some l =>
      k <- get_key l;;
      match k_data k with
      | None => b <- keyIsBinary key;; ret (if (b =? 0)%Z then 1 else 0)%Z
      | Some d => ret (Z.of_nat (length d))
      end
  end.

Definition keyGetString (key : ptr) (returnedString : bool) (maxSize : nat) : M (Z * option cstr) :=
  match key with
  | None => ret ((-1)%Z, None)
  | Some l =>
      if maxSize =? 0 then ret ((-1)%Z, None)
      else if negb returnedString then ret ((-1)%Z, None)
      else
        s <- keyIsString key;;
        if (s =? 0)%Z then ret ((-1)%Z, None)
        else
          k <- get_key l;;
          match k_data k with
          | None => ret (1%Z, Some [])
          | Some d =>
              if maxSize <? dataSize k then ret ((-1)%Z, None)
              else c <- as_cstr d;; ret (Z.of_nat (dataSize k), Some c)
          end
  end.

Definition keyGetBinary (key : ptr) (returnedBinary : bool) (maxSize : nat)
    : M (Z * option (list ascii)) :=
  match key with
  | None => ret ((-1)%Z, None)
  | Some l =>
      if negb returnedBinary then ret ((-1)%Z, None)
      else if maxSize =? 0 then ret ((-1)%Z, None)
      else
        b <- keyIsBinary key;;
        if (b =? 0)%Z then ret ((-1)%Z, None)
        else
          k <- get_key l;;
          match k_data k with
          | None => ret (0%Z, None)
          | Some d =>
              if maxSize <? dataSize k then ret ((-1)%Z, None)
              else ret (Z.of_nat (dataSize k), Some d)
          end
  end.

(** [memcpy] reads [dataSize] bytes of the new value: they must exist. *)
Definition keySetRaw (key : ptr) (newBinary : option (list ascii)) (dataSize : nat) : M Z :=
  match key with
  | None => ret (-1)%Z
  | Some l =>
      k <- get_key l;;
      if test_bit (k_flags k) KEY_FLAG_RO_VALUE then ret (-1)%Z
      else
        match newBinary with
        | Some b =>
            if dataSize =? 0 then
              put_key l (set_flags (set_data k None) (set_bit (k_flags k) KEY_FLAG_SYNC));;
              bin <- keyIsBinary key;;
              ret (if (bin =? 0)%Z then 1 else 0)%Z
            else if length b <? dataSize then undefined
            else
              put_key l (set_flags (set_data k (Some (take dataSize b)))
                           (set_bit (k_flags k) KEY_FLAG_SYNC));;
              keyGetValueSize key
        | None =>
            put_key l (set_flags (set_data k None) (set_bit (k_flags k) KEY_FLAG_SYNC));;
            bin <- keyIsBinary key;;
            ret (if (bin =? 0)%Z then 1 else 0)%Z
        end
  end.

(** ** owner.c *)

Definition keyOwner (key : ptr) : M (option (list ascii)) :=
  match key with
  | None => ret None
  | Some _ =>
      m <- keyGetMeta key (Some (lit "owner"));;
      owner <- keyValue m;;
      ret (Some (match owner with None => [NUL] | Some o => o end))
  end.

Definition keyGetOwnerSize (key : ptr) : M Z :=
  match key with
  | None => ret (-1)%Z
  | Some _ =>
      m <- keyGetMeta key (Some (lit "owner"));;
      size <- keyGetValueSize m;;
      ret (if (size =? 0) || (size =? -1) then 1 else size)%Z
  end.

Definition keyGetOwner (key : ptr) (returnedOwner : bool) (maxSize : nat) : M (Z * option cstr) :=
  match key with
  | None => ret ((-1)%Z, None)
  | Some _ =>
      if maxSize =? 0 then ret ((-1)%Z, None)
      else if negb returnedOwner then ret ((-1)%Z, None)
      else
        m <- keyGetMeta key (Some (lit "owner"));;
        owner <- keyValue m;;
        ownerSize <- keyGetValueSize m;;
        match owner with
        | None => ret (1%Z, Some [])
        | Some o =>
            c <- as_cstr o;;
            if (Z.of_nat maxSize <? ownerSize)%Z then ret ((-1)%Z, Some (take maxSize c))
            else ret (ownerSize, Some c)
        end
  end.

(** ** keyname.c: the name with the owner *)

Definition keyGetFullNameSize (key : ptr) : M Z :=
  match key with
  | None => ret (-1)%Z
  | Some l =>
      k <- get_key l;;
      match k_key k with
      | None => ret 1%Z
      | Some name =>
          owned <- (if keyNameIsUser name then m <- keyGetMeta key (Some (lit "owner"));; ret (bool_decide (is_Some m))
                    else ret false);;
          n <- (if owned : bool then keyGetOwnerSize key else ret 0%Z);;
          ret (Z.of_nat (S (length name)) + n)%Z
      end
  end.

(** [strncpy] fills the owner up with NUL bytes, which end the string. *)
Definition keyGetFullName (key : ptr) (returnedName : bool) (maxSize : nat) : M (Z * option cstr) :=
  match key with
  | None => ret ((-1)%Z, None)
  | Some l =>
      if negb returnedName then ret ((-1)%Z, None)
      else if maxSize =? 0 then ret ((-1)%Z, None)
      else
        length_ <- keyGetFullNameSize key;;
        if (length_ =? 1)%Z then ret (length_, Some [])
        else if (length_ <? 0)%Z then ret (length_, None)
        else if (Z.of_nat maxSize <? length_)%Z then ret ((-1)%Z, None)
        else
          k <- get_key l;;
          let name := default [] (k_key k) in
          if keyNameIsUser name then
            m <- keyGetMeta key (Some (lit "owner"));;
            match m with
            | None => ret (length_, Some name)
            | Some _ =>
                size <- keyGetValueSize m;;
                v <- keyValue m;;
                match v with
                | None => undefined
                | Some v =>
                    o <- as_cstr v;;
                    ret (length_, Some (if (Z.of_nat (length o) <? size - 1)%Z then take 4 name ++ ":"%char :: o
                                        else take 4 name ++ ":"%char :: take (Z.to_nat (size - 1)) o ++ drop 4 name))
                end
            end
          else ret (length_, Some name)
  end.

(** ** keyset.c: comparison *)

(** [keyCompareByName] and [keyCompareByNameCase] share their shape. *)
Definition compare_names (cmp : list ascii -> list ascii -> nat -> Z) (u1 u2 : list ascii) : Z :=
  let nameSize1 := length u1 in
  let nameSize2 := length u2 in
  if nameSize1 =? nameSize2 then cmp u1 u2 nameSize2
  else if nameSize1 <? nameSize2 then
    let r := cmp u1 u2 nameSize1 in if (r =? 0)%Z then (-1)%Z else r
  else
    let r := cmp u1 u2 nameSize2 in if (r =? 0)%Z then 1%Z else r.

Fixpoint elektraMemCaseCmp (s1 s2 : list ascii) (size : nat) {struct size} : Z :=
  match size, s1, s2 with
  | S n, c1 :: r1, c2 :: r2 =>
      let diff := (toupper (uchar c1) - toupper (uchar c2))%Z in
      if (diff =? 0)%Z then elektraMemCaseCmp r1 r2 n else diff
  | _, _, _ => 0%Z
  end.

(** The arguments of a comparison function are pointers to non-NULL keys. *)
Definition keyCompareByName (p1 p2 : loc) : M Z :=
  key1 <- get_key p1;;
  key2 <- get_key p2;;
  ret (compare_names memcmp (k_uname key1) (k_uname key2)).

Definition keyCompareByNameCase (p1 p2 : loc) : M Z :=
  key1 <- get_key p1;;
  key2 <- get_key p2;;
  ret (compare_names elektraMemCaseCmp (k_uname key1) (k_uname key2)).

Definition elektraStrCmp (s1 s2 : cstr) : Z := strcmp s1 s2.

Definition keyCompareByOwner (p1 p2 : loc) : M Z :=
  m1 <- keyGetMeta (Some p1) (Some (lit "owner"));;
  owner1 <- keyValue m1;;
  m2 <- keyGetMeta (Some p2) (Some (lit "owner"));;
  owner2 <- keyValue m2;;
  match owner1, owner2 with
  | None, None => ret 0%Z
  | None, Some _ => ret (-1)%Z
  | Some _, None => ret 1%Z
  | Some o1, Some o2 => c1 <- as_cstr o1;; c2 <- as_cstr o2;; ret (elektraStrCmp c1 c2)
  end.

Definition keyCompareByNameOwner (p1 p2 : loc) : M Z :=
  r <- keyCompareByName p1 p2;;
  if (r =? 0)%Z then keyCompareByOwner p1 p2 else ret r.

Definition keyCompareByNameOwnerCase (p1 p2 : loc) : M Z :=
  r <- keyCompareByNameCase p1 p2;;
  if (r =? 0)%Z then keyCompareByOwner p1 p2 else ret r.

Definition keyCmp (k1 k2 : ptr) : M Z :=
  match k1, k2 with
  | None, None => ret 0%Z
  | None, Some _ => ret (-1)%Z
  | Some _, None => ret 1%Z
  | Some l1, Some l2 =>
      key1 <- get_key l1;;
      key2 <- get_key l2;;
      match k_key key1, k_key key2 with
      | None, None => ret 0%Z
      | None, Some _ => ret (-1)%Z
      | Some _, None => ret 1%Z
      | Some _, Some _ => keyCompareByNameOwner l1 l2
      end
  end.
End Meta.
