(* ===== verification/KeyTest.v ===== *)
(** * KeyTest: relations between key names

    The relations of [src/src/libs/elektra/keytest.c] that only read names. *)
From S2P Require Export Meta.

Section KeyTest.
Context {R : Rec}.

(** [p[i]] for a pointer into the unescaped part of a key's name buffer.  The
    byte at offset -1 is the NUL that ends the escaped name; reading past the
    [keyUSize] bytes that were written is undefined. *)
Definition uname_at (uname : list ascii) (i : Z) : M ascii :=
  if (i =? -1)%Z then ret NUL
  else if (i <? 0)%Z then undefined
  else match uname !! Z.to_nat i with Some c => ret c | None => undefined end.

(** [strrchr (p, '\0') - p]: the index of the first NUL. *)
Definition nul_index (bytes : list ascii) : M nat :=
  match cstr_of bytes with Some s => ret (length s) | None => undefined end.

(** [if (!strncmp (keyname, checkname, keysize - 1))
     if (ucheckname[ukeysize - 1] == '\0' && uchecksize > ukeysize) return 1;
     return 0;] *)
Definition below_test (keyname checkname : cstr) (keysize : nat)
    (ucheckname : list ascii) (ukeysize uchecksize : Z) : M Z :=
  if bool_decide (strncmp keyname checkname (keysize - 1) = 0%Z) then
    c <- uname_at ucheckname (ukeysize - 1);;
    ret (if bool_decide (c = NUL) && (ukeysize <? uchecksize)%Z then 1 else 0)%Z
  else ret 0%Z.

Definition key_strings (l : loc) : M (cstr * list ascii * Z * Z) :=
  k <- get_key l;;
  match k_key k with
  | None => ret ([], [NUL], 1%Z, 0%Z)
  | Some n => ret (n, k_uname k, Z.of_nat (keySize k), Z.of_nat (keyUSize k))
  end.

Definition keyIsBelow (key check : ptr) : M Z :=
  match key, check with
  | Some lk, Some lc =>
      let* (keyname, ukeyname, keysize, ukeysize) := key_strings lk in
      let* (checkname, ucheckname, checksize, uchecksize) := key_strings lc in
      if bool_decide (strcmp checkname (lit "/") = 0%Z) then ret 0%Z
      else if bool_decide (strcmp keyname (lit "/") = 0%Z) then
        if decide (deref checkname = SLASH) then ret 1%Z
        else if strchr checkname SLASH is Some _ then ret 1%Z
        else ret 0%Z
      else if decide (deref checkname = SLASH) then
        if decide (deref keyname = SLASH) then
          below_test keyname checkname (Z.to_nat keysize) ucheckname ukeysize uchecksize
        else
          let size := snd (keyNameGetOneLevel keyname) in
          if (Z.of_nat size =? keysize)%Z then ret 1%Z
          else
            let keyname := drop size keyname in
            i <- nul_index ukeyname;;
            below_test keyname checkname (S (length keyname)) ucheckname
              (ukeysize - Z.of_nat i) uchecksize
      else if decide (deref keyname = SLASH) then
        let size := snd (keyNameGetOneLevel checkname) in
        if (Z.of_nat size =? checksize)%Z then ret 0%Z
        else
          let checkname := drop size checkname in
          i <- nul_index ucheckname;;
          below_test keyname checkname (Z.to_nat keysize) (drop i ucheckname)
            ukeysize (uchecksize - Z.of_nat i)
      else below_test keyname checkname (Z.to_nat keysize) ucheckname ukeysize uchecksize
  | _, _ => ret (-1)%Z
  end.

Definition keyIsBelowOrSame (key check : ptr) : M Z :=
  match key, check with
  | Some _, Some _ =>
      name1 <- keyName key;;
      name2 <- keyName check;;
      b <- keyIsBelow key check;;
      if negb (b =? 0)%Z then ret 1%Z
      else ret (if bool_decide (strcmp (default [] name1) (default [] name2) = 0%Z) then 1 else 0)%Z
  | _, _ => ret (-1)%Z
  end.

Definition keyIsDirectBelow (key check : ptr) : M Z :=
  match key, check with
  | Some lk, Some lc =>
      b <- keyIsBelow key check;;
      if (b =? 0)%Z then ret 0%Z
      else
        let* (keyname, _, _, keysize) := key_strings lk in
        let* (checknameE, checkname, _, checksize) := key_strings lc in
        let off := Z.to_nat keysize in
        if decide (deref keyname <> SLASH) then
          i <- nul_index (drop off checkname);;
          ret (if (Z.of_nat (off + i) =? checksize - 1)%Z then 1 else 0)%Z
        else if decide (deref checknameE <> SLASH) then
          i0 <- nul_index checkname;;
          i <- nul_index (drop (i0 + off) checkname);;
          ret (if (Z.of_nat (i0 + off + i) =? checksize - 1)%Z then 1 else 0)%Z
        else
          i <- nul_index (drop off checkname);;
          ret (if (Z.of_nat (off + i) =? checksize - 1)%Z then 1 else 0)%Z
  | _, _ => ret (-1)%Z
  end.

Definition keyRel (key check : ptr) : M Z :=
  match key, check with
  | Some lk, Some lc =>
      k <- get_key lk;;
      c <- get_key lc;;
      match k_key k, k_key c with
      | Some _, Some _ =>
          r <- keyCmp key check;;
          if (r =? 0)%Z then ret 0%Z
          else
            d <- keyIsDirectBelow key check;;
            if negb (d =? 0)%Z then ret 1%Z
            else
              b <- keyIsBelow key check;;
              if negb (b =? 0)%Z then ret 2%Z
              else
                u1 <- keyIsUser key;;
                u2 <- keyIsUser check;;
                if negb (u1 =? 0)%Z && negb (u2 =? 0)%Z then ret (-3)%Z
                else
                  s1 <- keyIsSystem key;;
                  s2 <- keyIsSystem check;;
                  if negb (s1 =? 0)%Z && negb (s2 =? 0)%Z then ret (-3)%Z
                  else ret (-2)%Z
      | _, _ => ret (-1)%Z
      end
  | _, _ => ret (-1)%Z
  end.

Definition keyIsInactive (key : ptr) : M Z :=
  match key with
  | None => ret (-1)%Z
  | Some _ =>
      p <- keyName key;;
      match p with
      | None => ret (-1)%Z
      | Some [] => ret (-1)%Z
      | Some p =>
          ret (if existsb (fun level => bool_decide (deref level = "."%char)) (name_levels p)
               then 1 else 0)%Z
      end
  end.
End KeyTest.
