(* ===== verification/KeySets.v ===== *)
(** * KeySets: sorted keysets, copies and metadata updates

    [ksSearchInternal], [ksAppendKey] and the operations of [keyset.c],
    [key.c] and [keymeta.c] built on them. *)
From S2P Require Export KeyTest.

Section KeySets.
Context {R : Rec}.

(** ** Searching and appending *)

(** The loop of [ksSearchInternal]; the result is [(cmpresult, middle,
    insertpos)] when the loop is left. *)
Fixpoint search_loop (fuel : nat) (s : KeySet) (toAppend : loc)
    (left right middle insertpos cmpresult : Z) : M (Z * Z * Z) :=
  match fuel with
  | O => nofuel
  | S n =>
      if (right <? left)%Z then ret (cmpresult, middle, insertpos)
      else
        let middle := (left + (right - left) / 2)%Z in
        p <- array_get s (Z.to_nat middle);;
        match p with
        | None => undefined
        | Some k =>
            cmpresult <- keyCompareByNameOwner toAppend k;;
            if (0 <? cmpresult)%Z then
              search_loop n s toAppend (middle + 1) right middle (middle + 1) cmpresult
            else if (cmpresult =? 0)%Z then ret (cmpresult, middle, insertpos)
            else search_loop n s toAppend left (middle - 1) middle middle cmpresult
        end
  end.

Definition ksSearchInternal (ks : loc) (toAppend : loc) : M Z :=
  s <- get_ks ks;;
  let* (cmpresult, middle, insertpos) :=
    search_loop (S (ks_size s)) s toAppend 0 (Z.of_nat (ks_size s) - 1) (-1) 0 1 in
  ret (if (cmpresult =? 0)%Z then middle else - insertpos - 1)%Z.

Definition ksAppendKey (ks toAppend : ptr) : M Z :=
  match ks with
  | None => ret (-1)%Z
  | Some l =>
      match toAppend with
      | None => ret (-1)%Z
      | Some lk =>
          k <- get_key lk;;
          match k_key k with
          | None => keyDel toAppend;; ret (-1)%Z
          | Some _ =>
              elektraKeyLock toAppend KEY_LOCK_NAME;;
              result <- ksSearchInternal l lk;;
              s <- get_ks l;;
              if (0 <=? result)%Z then
                let i := Z.to_nat result in
                old <- array_get s i;;
                if decide (toAppend = old) then ret (Z.of_nat (ks_size s))
                else
                  keyDecRef old;;
                  keyDel old;;
                  keyIncRef toAppend;;
                  s <- get_ks l;;
                  s <- array_set s i toAppend;;
                  put_ks l s;;
                  ksSetCursor ks result;;
                  s <- get_ks l;;
                  ret (Z.of_nat (ks_size s))
              else
                let insertpos := Z.to_nat (- result - 1) in
                put_ks l (ks_with_size s (S (ks_size s)));;
                (if ks_alloc s <=? S (ks_size s) then ksResize ks (Z.of_nat (ks_alloc s * 2) - 1)
                 else ret 0%Z);;
                keyIncRef toAppend;;
                s <- get_ks l;;
                (if insertpos =? ks_size s - 1 then
                   s <- array_set s (ks_size s - 1) toAppend;;
                   s <- array_set s (ks_size s) None;;
                   put_ks l s;;
                   ksSetCursor ks (Z.of_nat (ks_size s - 1))
                 else
                   let n := ks_size s - insertpos in
                   s <- array_memmove s (insertpos + 1) insertpos n;;
                   s <- array_set s insertpos toAppend;;
                   put_ks l s;;
                   ksSetCursor ks (Z.of_nat insertpos));;
                s <- get_ks l;;
                ret (Z.of_nat (ks_size s))
          end
      end
  end.

(** [for (toAlloc = alloc; size >= toAlloc; toAlloc *= 2);] *)
Fixpoint grow_alloc (fuel toAlloc need : nat) : M nat :=
  match fuel with
  | O => nofuel
  | S n => if toAlloc <=? need then grow_alloc n (toAlloc * 2) need else ret toAlloc
  end.

(** The loop over [toAppend]; its size is read again on every turn. *)
Fixpoint append_loop (fuel : nat) (ks toAppend : loc) (i : nat) : M unit :=
  match fuel with
  | O => ret tt
  | S n =>
      t <- get_ks toAppend;;
      if ks_size t <=? i then ret tt
      else
        p <- array_get t i;;
        ksAppendKey (Some ks) p;;
        append_loop n ks toAppend (S i)
  end.

Definition ksAppend (ks toAppend : ptr) : M Z :=
  match ks, toAppend with
  | Some l, Some la =>
      s <- get_ks l;;
      t <- get_ks la;;
      if ks_size t =? 0 then ret (Z.of_nat (ks_size s))
      else
        let need := ks_size s + ks_size t in
        toAlloc <- grow_alloc (S need) (ks_alloc s) need;;
        ksResize ks (Z.of_nat toAlloc - 1);;
        append_loop (S (ks_size t)) l la 0;;
        s <- get_ks l;;
        ret (Z.of_nat (ks_size s))
  | _, _ => ret (-1)%Z
  end.

(** [ksVNew]: the arguments up to the first NULL are appended, but only when
    [alloc] was not 0. *)
Fixpoint va_append (ks : loc) (va : list ptr) : M unit :=
  match va with
  | [] | None :: _ => ret tt
  | Some k :: r => ksAppendKey (Some ks) (Some k);; va_append ks r
  end.

Definition ksVNew (alloc : nat) (va : list ptr) : M loc :=
  ks <- ksNewEmpty alloc;;
  (if S alloc =? 1 then ret tt else va_append ks va);;
  ksRewind (Some ks);;
  ret ks.

Definition ksNew (alloc : nat) (va : list ptr) : M loc := ksVNew alloc va.

Definition ksDup (source : ptr) : M ptr :=
  match source with
  | None => ret None
  | Some l =>
      s <- get_ks l;;
      let size := if ks_alloc s <? KEYSET_SIZE then KEYSET_SIZE else ks_alloc s in
      keyset <- ksNew size [];;
      ksAppend (Some keyset) source;;
      ret (Some keyset)
  end.

Definition ksCopy (dest source : ptr) : M Z :=
  match dest with
  | None => ret (-1)%Z
  | Some d =>
      ksClear d;;
      match source with
      | None => ret 0%Z
      | Some _ =>
          ksAppend dest source;;
          c <- ksGetCursor source;;
          ksSetCursor dest c;;
          ret 1%Z
      end
  end.

(** ** keymeta.c: changing metadata *)

Definition keyRewindMeta (key : ptr) : M Z :=
  match key with
  | None => ret (-1)%Z
  | Some l => k <- get_key l;; match k_meta k with None => ret 0%Z | m => ksRewind m end
  end.

Definition keyNextMeta (key : ptr) : M ptr :=
  match key with
  | None => ret None
  | Some l => k <- get_key l;; match k_meta k with None => ret None | m => ksNext m end
  end.

Definition keyCurrentMeta (key : ptr) : M ptr :=
  match key with
  | None => ret None
  | Some l => k <- get_key l;; match k_meta k with None => ret None | m => ksCurrent m end
  end.

(** [ret = ksLookup (meta, search, KDB_O_POP); if (ret) keyDel (ret)] *)
Definition pop_meta (meta search : ptr) : M bool :=
  r <- rec_ksLookup meta search KDB_O_POP;;
  match r with
  | None => ret false
  | Some _ => keyDel r;; ret true
  end.

Definition keySetMeta (key : ptr) (metaName newMetaString : option cstr) : M Z :=
  match key with
  | None => ret (-1)%Z
  | Some l =>
      k <- get_key l;;
      if test_bit (k_flags k) KEY_FLAG_RO_META then ret (-1)%Z
      else
        match metaName with
        | None => ret (-1)%Z
        | Some _ =>
            if bool_decide (k_meta k = None) && bool_decide (newMetaString = None) then ret 0%Z
            else
              toSet <- elektraKeyMalloc;;
              elektraKeySetName (Some toSet) metaName (set_bit KEY_META_NAME KEY_EMPTY_NAME);;
              k <- get_key l;;
              (match k_meta k with
               | None => ret tt
               | m =>
                   removed <- pop_meta m (Some toSet);;
                   if removed then
                     k <- get_key l;; put_key l (set_flags k (set_bit (k_flags k) KEY_FLAG_SYNC))
                   else ret tt
               end);;
              match newMetaString with
              | None => keyDel (Some toSet);; ret 0%Z
              | Some s =>
                  t <- get_key toSet;;
                  put_key toSet (set_data t (Some (s ++ [NUL])));;
                  k <- get_key l;;
                  meta <- (match k_meta k with
                           | Some m => ret m
                           | None => m <- ksNew 0 [];; put_key l (set_meta k (Some m));; ret m
                           end);;
                  t <- get_key toSet;;
                  put_key toSet
                    (set_flags t (set_bit (set_bit (set_bit (k_flags t) KEY_FLAG_RO_NAME)
                                             KEY_FLAG_RO_VALUE) KEY_FLAG_RO_META));;
                  ksAppendKey (Some meta) (Some toSet);;
                  k <- get_key l;;
                  put_key l (set_flags k (set_bit (k_flags k) KEY_FLAG_SYNC));;
                  ret (Z.of_nat (S (length s)))
              end
        end
  end.

Definition keyCopyMeta (dest source : ptr) (metaName : option cstr) : M Z :=
  match source, dest with
  | Some _, Some d =>
      k <- get_key d;;
      if test_bit (k_flags k) KEY_FLAG_RO_META then ret (-1)%Z
      else
        r <- keyGetMeta source metaName;;
        k <- get_key d;;
        match r with
        | None =>
            (* the lookup is done with the NULL that was just found *)
            (match k_meta k with None => ret false | m => pop_meta m r end);;
            ret 0%Z
        | Some _ =>
            meta <- (match k_meta k with
                     | Some m => pop_meta (Some m) r;; ret m
                     | None => m <- ksNew 0 [];; put_key d (set_meta k (Some m));; ret m
                     end);;
            ksAppendKey (Some meta) r;;
            ret 1%Z
        end
  | _, _ => ret (-1)%Z
  end.

Definition keyCopyAllMeta (dest source : ptr) : M Z :=
  match source, dest with
  | Some s, Some d =>
      k <- get_key d;;
      if test_bit (k_flags k) KEY_FLAG_RO_META then ret (-1)%Z
      else
        ks <- get_key s;;
        match k_meta ks with
        | None => ret 0%Z
        | Some _ =>
            (match k_meta k with
             | Some _ => ksAppend (k_meta k) (k_meta ks);; ret tt
             | None => m <- ksDup (k_meta ks);; k <- get_key d;; put_key d (set_meta k m)
             end);;
            ret 1%Z
        end
  | _, _ => ret (-1)%Z
  end.

(** ** keyvalue.c and owner.c: changing values *)

Definition keySetString (key : ptr) (newStringValue : option cstr) : M Z :=
  match key with
  | None => ret (-1)%Z
  | Some _ =>
      keySetMeta key (Some (lit "binary")) None;;
      match newStringValue with
      | None | Some [] => keySetRaw key None 0
      | Some s => keySetRaw key (Some (s ++ [NUL])) (S (length s))
      end
  end.

Definition keySetBinary (key : ptr) (newBinary : option (list ascii)) (dataSize : nat) : M Z :=
  match key with
  | None => ret (-1)%Z
  | Some l =>
      if (dataSize =? 0) && bool_decide (is_Some newBinary) then ret (-1)%Z
      else
        k <- get_key l;;
        if test_bit (k_flags k) KEY_FLAG_RO_VALUE then ret (-1)%Z
        else
          keySetMeta key (Some (lit "binary")) (Some []);;
          keySetRaw key newBinary dataSize
  end.

Definition keySetOwner (key : ptr) (newOwner : option cstr) : M Z :=
  match key with
  | None => ret (-1)%Z
  | Some _ =>
      match newOwner with
      | None | Some [] => keySetMeta key (Some (lit "owner")) None;; ret 1%Z
      | Some _ => keySetMeta key (Some (lit "owner")) newOwner;; keyGetOwnerSize key
      end
  end.

(** ** key.c: copies and variadic construction *)

Definition keyCopy (dest source : ptr) : M Z :=
  match dest with
  | None => ret (-1)%Z
  | Some d =>
      kd <- get_key d;;
      if test_bit (k_flags kd) KEY_FLAG_RO_NAME || test_bit (k_flags kd) KEY_FLAG_RO_VALUE
         || test_bit (k_flags kd) KEY_FLAG_RO_META then ret (-1)%Z
      else
        match source with
        | None => keyClear dest;; ret 0%Z
        | Some s =>
            ks <- get_key s;;
            let destMeta := k_meta kd in
            meta <- ksDup (k_meta ks);;
            kd <- get_key d;;
            put_key d (mkKey (k_data ks) (k_key ks) (k_uname ks)
                         (set_bit (k_flags kd) KEY_FLAG_SYNC) (k_ksReference kd) meta);;
            ksDel destMeta;;
            ret 1%Z
        end
  end.

Definition keyDup (source : ptr) : M ptr :=
  match source with
  | None => ret None
  | Some _ =>
      dest <- alloc_key (set_flags emptyKey KEY_FLAG_SYNC);;
      rc <- keyCopy (Some dest) source;;
      if (rc =? -1)%Z then keyDel (Some dest);; ret None
      else ret (Some dest)
  end.

(** The arguments after the name of [keyNew], up to [KEY_END]. *)
Inductive keyarg :=
| KEY_SIZE (value_size : nat)
| KEY_VALUE (value : option (list ascii))
| KEY_FUNC (func : list ascii)
| KEY_META (name value : option cstr)
| KEY_FLAGS (flags : Z)
| KEY_BINARY
| KEY_LOCK (lock : Z)
| KEY_NAME_OPTION (option_ : Z)
| KEY_NAME (name : option cstr)
| KEY_OWNER (owner : option cstr)
| KEY_COMMENT (comment : option cstr).

(** The local variables of [keyVInit] that arguments change. *)
Record vinit := mkVinit {
  v_size : nat; v_name : option cstr; v_flags : Z; v_owner : option cstr
}.

Definition KEY_BINARY_BIT : Z := 2 ^ 4.

(** The fall-through cases that collect flags. *)
Definition vinit_flags (key : loc) (flags : Z) : M unit :=
  (if test_bit flags KEY_BINARY_BIT then keySetMeta (Some key) (Some (lit "binary")) (Some [])
   else ret 0%Z);;
  (if test_bit flags KEY_LOCK_NAME then elektraKeyLock (Some key) KEY_LOCK_NAME else ret 0%Z);;
  (if test_bit flags KEY_LOCK_VALUE then elektraKeyLock (Some key) KEY_LOCK_VALUE else ret 0%Z);;
  (if test_bit flags KEY_LOCK_META then elektraKeyLock (Some key) KEY_LOCK_META else ret 0%Z);;
  ret tt.

Definition vinit_value (key : loc) (value_size : nat) (value : option (list ascii)) : M unit :=
  b <- keyIsBinary (Some key);;
  if negb (b =? 0)%Z then
    if negb (value_size =? 0) then keySetBinary (Some key) value value_size;; ret tt
    else
      match value with
      | None => undefined
      | Some v => s <- as_cstr v;; keySetBinary (Some key) value (S (length s));; ret tt
      end
  else
    match value with
    | None => keySetString (Some key) None;; ret tt
    | Some v => s <- as_cstr v;; keySetString (Some key) (Some s);; ret tt
    end.

Definition vinit_step (key : loc) (st : vinit) (a : keyarg) : M vinit :=
  match a with
  | KEY_SIZE n => ret (mkVinit n (v_name st) (v_flags st) (v_owner st))
  | KEY_VALUE v => vinit_value key (v_size st) v;; ret st
  | KEY_FUNC f => keySetBinary (Some key) (Some f) (length f);; ret st
  | KEY_META n v => keySetMeta (Some key) n v;; ret st
  | KEY_FLAGS f =>
      let flags := Z.lor (v_flags st) f in
      vinit_flags key flags;; ret (mkVinit (v_size st) (v_name st) flags (v_owner st))
  | KEY_BINARY =>
      let flags := Z.lor (v_flags st) KEY_BINARY_BIT in
      vinit_flags key flags;; ret (mkVinit (v_size st) (v_name st) flags (v_owner st))
  | KEY_LOCK f | KEY_NAME_OPTION f =>
      let flags := Z.lor (v_flags st) f in
      vinit_flags key flags;; ret (mkVinit (v_size st) (v_name st) flags (v_owner st))
  | KEY_NAME n => ret (mkVinit (v_size st) n (v_flags st) (v_owner st))
  | KEY_OWNER o => ret (mkVinit (v_size st) (v_name st) (v_flags st) o)
  | KEY_COMMENT c => keySetMeta (Some key) (Some (lit "comment")) c;; ret st
  end.

Fixpoint vinit_loop (key : loc) (st : vinit) (va : list keyarg) : M vinit :=
  match va with
  | [] => ret st
  | a :: r => st <- vinit_step key st a;; vinit_loop key st r
  end.

Definition keyVInit (key : loc) (name : option cstr) (va : list keyarg) : M unit :=
  keyInit key;;
  match name with
  | None => ret tt
  | Some _ =>
      st <- vinit_loop key (mkVinit 0 name 0 None) va;;
      let name_options :=
        Z.land (v_flags st) (Z.lor KEY_CASCADING_NAME (Z.lor KEY_META_NAME KEY_EMPTY_NAME)) in
      elektraKeySetName (Some key) (v_name st) name_options;;
      match v_owner st with
      | None => ret tt
      | o => keySetOwner (Some key) o;; ret tt
      end
  end.

Definition keyVNew (name : option cstr) (va : list keyarg) : M loc :=
  key <- elektraKeyMalloc;;
  keyVInit key name va;;
  ret key.

Definition keyNew (name : option cstr) (va : list keyarg) : M loc :=
  match name with
  | None => elektraKeyMalloc
  | Some _ => keyVNew name va
  end.

(** ** keyset.c: deep copies and cutting *)

Fixpoint deepdup_loop (fuel : nat) (keyset source : loc) (i : nat) : M unit :=
  match fuel with
  | O => ret tt
  | S n =>
      s <- get_ks source;;
      k <- array_get s i;;
      d <- keyDup k;;
      match k with
      | None => undefined
      | Some lk =>
          kk <- get_key lk;;
          (if test_bit (k_flags kk) KEY_FLAG_SYNC then ret 0%Z else keyClearSync d);;
          ksAppendKey (Some keyset) d;;
          deepdup_loop n keyset source (S i)
      end
  end.

Definition ksDeepDup (source : ptr) : M ptr :=
  match source with
  | None => ret None
  | Some l =>
      s <- get_ks l;;
      keyset <- ksNew (ks_alloc s) [];;
      deepdup_loop (ks_size s) keyset l 0;;
      ret (Some keyset)
  end.

(** [while (it < ks->size && keyIsBelowOrSame (cutpoint, array[it]) == want)] *)
Fixpoint cut_scan (fuel : nat) (ks : loc) (cutpoint : ptr) (want : Z) (it : nat) : M nat :=
  match fuel with
  | O => ret it
  | S n =>
      s <- get_ks ks;;
      if it <? ks_size s then
        p <- array_get s it;;
        b <- keyIsBelowOrSame cutpoint p;;
        if (b =? want)%Z then cut_scan n ks cutpoint want (S it) else ret it
      else ret it
  end.

(** Corrects the cursor when the keys from [found] to [it] go; returns
    [set_cursor]. *)
Definition cut_cursor (ks : loc) (found it : nat) : M bool :=
  s <- get_ks ks;;
  set_cursor <-
    (if (found <=? ks_current s) && (ks_current s <? it) then
       if found =? 0 then ksRewind (Some ks);; ret false
       else put_ks ks (ks_with_cursor s (ks_cursor s) (found - 1));; ret true
     else ret false);;
  s <- get_ks ks;;
  if it <=? ks_current s then
    if ks_size s <=? it then ksRewind (Some ks);; ret set_cursor
    else put_ks ks (ks_with_cursor s (ks_cursor s) (found + ks_current s - it));; ret true
  else ret set_cursor.

(** [elektraMemcpy (returned->array, ks->array + found, newsize)], then size and
    final NULL of [returned]. *)
Definition cut_copy (s r : KeySet) (found newsize : nat) : M KeySet :=
  r <- (match ks_array s, ks_array r with
        | Some a, Some b =>
            if (found + newsize <=? length a) && (newsize <=? length b) then
              ret (ks_with_array r (Some (take newsize (drop found a) ++ drop newsize b)))
            else undefined
        | _, _ => undefined
        end);;
  array_set (ks_with_size r newsize) newsize None.

(** [ksCut] at a cutpoint that is not cascading. *)
Definition ksCutAt (ks : loc) (cutpoint : ptr) : M ptr :=
  s <- get_ks ks;;
  it <- cut_scan (S (ks_size s)) ks cutpoint 0 0;;
  if it =? ks_size s then r <- ksNew 0 [];; ret (Some r)
  else
    let found := it in
    it <- cut_scan (S (ks_size s)) ks cutpoint 1 it;;
    set_cursor <- cut_cursor ks found it;;
    let newsize := it - found in
    returned <- ksNew newsize [];;
    s <- get_ks ks;;
    r <- get_ks returned;;
    r <- cut_copy s r found newsize;;
    put_ks returned r;;
    ksCopyInternal ks found it;;
    (if set_cursor : bool then
       s <- get_ks ks;;
       p <- array_get s (ks_current s);;
       put_ks ks (ks_with_cursor s p (ks_current s))
     else ret tt);;
    ret (Some returned).

(** The name the loop over namespaces gives to a cascading cutpoint. *)
Definition namespace_name (ns : elektraNamespace) (name : cstr) : cstr :=
  let root := lit match ns with
                  | KEY_NS_SPEC => "spec" | KEY_NS_PROC => "proc" | KEY_NS_DIR => "dir"
                  | KEY_NS_USER => "user" | KEY_NS_SYSTEM => "system" | _ => ""
                  end in
  root ++ name.

Definition ksCut (ks cutpoint : ptr) : M ptr :=
  match ks, cutpoint with
  | Some l, Some c =>
      k <- get_key c;;
      match k_key k with
      | None => ret None
      | Some name =>
          if decide (deref name = SLASH) then
            r <- ksNew 0 [];;
            forM namespaces (fun ns =>
              elektraFinalizeName c
                (if bool_decide (strcmp name (lit "/") = 0%Z)
                 then removelast (namespace_name ns name) else namespace_name ns name);;
              n <- ksCutAt l cutpoint;;
              ksAppend (Some r) n;;
              ksDel n;;
              ret tt);;
            k' <- get_key c;;
            put_key c (set_name k' (Some name) (k_uname k));;
            ret (Some r)
          else ksCutAt l cutpoint
      end
  | _, _ => ret None
  end.
End KeySets.
