(* ===== verification/Lookup.v ===== *)
(** * Lookup: the lookup family of keyset.c and the recursive knot

    [ksLookup] with its linear and binary searches, the cascading lookup over
    the namespaces and the lookup by specification.  [knot] ties the functions
    that call each other: [knot n] bounds the depth of nested [ksLookup],
    [keyDel] and [keySetOwner] calls by [n]. *)
From S2P Require Export KeySets.

(** Function pointers stored in binary keys: the callback of a key's
    ["callback"] metadata is code of the application, a parameter here. *)
Class Callbacks := run_callback : list ascii -> ptr -> ptr -> ptr -> Z -> M ptr.

Section Lookup.
Context {R : Rec} {CB : Callbacks}.

(** [!strncmp (metaname, "callback/", sizeof ("callback"))] *)
Definition is_callback_meta (metaname : cstr) : bool :=
  bool_decide (strncmp metaname (lit "callback/") 9 = 0%Z).

(** One of the two loops of [elektraCopyCallbackMeta] over [k]'s metadata. *)
Fixpoint callback_meta_loop (fuel : nat) (k : ptr) (act : cstr -> M unit) : M unit :=
  match fuel with
  | O => nofuel
  | S n =>
      m <- keyNextMeta k;;
      match m with
      | None => ret tt
      | Some _ =>
          metaname <- keyName m;;
          (if is_callback_meta (default [] metaname) then act (default [] metaname) else ret tt);;
          callback_meta_loop n k act
      end
  end.

Definition meta_fuel (key : ptr) : M nat :=
  match key with
  | None => ret 1
  | Some l =>
      k <- get_key l;;
      match k_meta k with
      | None => ret 1
      | Some m => s <- get_ks m;; ret (S (ks_size s) * S (ks_size s))
      end
  end.

Definition elektraCopyCallbackMeta (dest source : ptr) : M unit :=
  keyRewindMeta dest;;
  f <- meta_fuel dest;;
  callback_meta_loop f dest (fun metaname => keySetMeta dest (Some metaname) None;; ret tt);;
  keyRewindMeta source;;
  f <- meta_fuel source;;
  callback_meta_loop f source (fun metaname => keyCopyMeta dest source (Some metaname);; ret tt).

(** ** Array numbers *)

Definition digit (n : Z) : ascii := ascii_of_N (Z.to_N (48 + n)).

(** [snprintf ("%ld")] of a non-negative number. *)
Fixpoint decimal (fuel : nat) (n : Z) (acc : cstr) : cstr :=
  match fuel with
  | O => acc
  | S f =>
      let acc := digit (n mod 10) :: acc in
      if (n / 10 =? 0)%Z then acc else decimal f (n / 10) acc
  end.

Fixpoint underscores (fuel : nat) (i : Z) : cstr :=
  match fuel with
  | O => []
  | S f => if (0 <? i)%Z then "_"%char :: underscores f (i / 10) else []
  end.

(** A non-negative 64-bit number has at most 19 decimals. *)
Definition elektraWriteArrayNumber (newIndex : Z) : cstr :=
  "#"%char :: underscores 20 (newIndex / 10) ++ decimal 20 newIndex [].

(** ** Searching one keyset *)

(** The comparison the search options select. *)
Definition search_compare (options : Z) : loc -> loc -> M Z :=
  if test_bit options KDB_O_WITHOWNER && test_bit options KDB_O_NOCASE then keyCompareByNameOwnerCase
  else if test_bit options KDB_O_WITHOWNER then keyCompareByNameOwner
  else if test_bit options KDB_O_NOCASE then keyCompareByNameCase
  else keyCompareByName.

Fixpoint linear_loop (fuel : nat) (ks : ptr) (key : loc) (cmp : loc -> loc -> M Z) : M ptr :=
  match fuel with
  | O => nofuel
  | S n =>
      current <- ksNext ks;;
      match current with
      | None => ret None
      | Some c =>
          r <- cmp key c;;
          if (r =? 0)%Z then ret current else linear_loop n ks key cmp
      end
  end.

Definition elektraLookupLinearSearch (ks key : loc) (options : Z) : M ptr :=
  cursor <- ksGetCursor (Some ks);;
  (if test_bit options KDB_O_NOALL then ret 0%Z else ksRewind (Some ks));;
  s <- get_ks ks;;
  current <- linear_loop (S (S (ks_size s))) (Some ks) key (search_compare options);;
  match current with
  | None => ksSetCursor (Some ks) cursor;; ret None
  | Some _ => ret current
  end.

(** [bsearch] of the C library on [array[lo .. lo + n)]. *)
Fixpoint bsearch (fuel : nat) (s : KeySet) (key : loc) (cmp : loc -> loc -> M Z)
    (lo hi : nat) : M (option nat) :=
  match fuel with
  | O => nofuel
  | S n =>
      if hi <=? lo then ret None
      else
        let idx := (lo + hi) / 2 in
        p <- array_get s idx;;
        match p with
        | None => undefined
        | Some k =>
            r <- cmp key k;;
            if (r <? 0)%Z then bsearch n s key cmp lo idx
            else if (0 <? r)%Z then bsearch n s key cmp (S idx) hi
            else ret (Some idx)
        end
  end.

Definition elektraLookupBinarySearch (ks key : loc) (options : Z) : M ptr :=
  cursor <- ksGetCursor (Some ks);;
  s <- get_ks ks;;
  found <- bsearch (S (ks_size s)) s key (search_compare options) 0 (ks_size s);;
  match found with
  | Some i =>
      if test_bit options KDB_O_POP then elektraKsPopAtCursor (Some ks) (Z.of_nat i)
      else
        ksSetCursor (Some ks) (Z.of_nat i);;
        s <- get_ks ks;;
        array_get s i
  | None => ksSetCursor (Some ks) cursor;; ret None
  end.

(** The size of a function pointer in binary data. *)
Definition conversation_size : nat := 8.

Definition elektraLookupSearch (ks key : loc) (options : Z) : M ptr :=
  found <- elektraLookupBinarySearch ks key options;;
  cb <- keyGetMeta (Some key) (Some (lit "callback"));;
  match cb with
  | None => ret found
  | Some _ =>
      let* (n, bytes) := keyGetBinary (Some key) true conversation_size in
      match bytes with
      | Some v =>
          if (n =? Z.of_nat conversation_size)%Z && negb (bool_decide (v = replicate conversation_size NUL))
          then run_callback v (Some ks) (Some key) found options
          else ret found
      | None => ret found
      end
  end.

Definition elektraLookupCreateKey (ks key : loc) : M ptr :=
  r <- keyDup (Some key);; ksAppendKey (Some ks) r;; ret r.

(** ** Lookup by specification *)

(** A [const void *] value with its size, as [keyValue] and
    [keyGetValueSize] give them to [keySetBinary]. *)
Definition copy_binary (dest source : ptr) : M unit :=
  v <- keyValue source;;
  n <- keyGetValueSize source;;
  keySetBinary dest v (Z.to_nat n);;
  ret tt.

(** The do-while loop of [elektraLookupBySpecLinks]; [k] is created lazily. *)
Fixpoint spec_links_loop (fuel : nat) (ks specKey : loc) (prefix : cstr) (i : Z) (k : ptr)
    : M (ptr * ptr) :=
  match fuel with
  | O => nofuel
  | S n =>
      m <- keyGetMeta (Some specKey) (Some (prefix ++ elektraWriteArrayNumber i));;
      match m with
      | None => ret (None, k)
      | Some _ =>
          target <- keyString m;;
          k <- (match k with
                | None =>
                    k <- keyNew (Some target) [KEY_NAME_OPTION KEY_CASCADING_NAME];;
                    copy_binary (Some k) (Some specKey);;
                    elektraCopyCallbackMeta (Some k) (Some specKey);;
                    ret (Some k)
                | Some l =>
                    elektraKeySetName k (Some target) KEY_CASCADING_NAME;; ret k
                end);;
          r <- rec_ksLookup (Some ks) k KDB_O_NODEFAULT;;
          match r with
          | Some _ => ret (r, k)
          | None => spec_links_loop n ks specKey prefix (i + 1) k
          end
      end
  end.

Definition elektraLookupBySpecLinks (ks specKey : loc) (prefix : cstr) : M ptr :=
  f <- meta_fuel (Some specKey);;
  let* (r, k) := spec_links_loop (S f) ks specKey prefix 0 None in
  match k with
  | None => ret r
  | Some _ =>
      elektraCopyCallbackMeta (Some specKey) k;;
      keyDel k;;
      ret r
  end.

Definition elektraLookupBySpecDefault (ks specKey : loc) : M ptr :=
  r <- rec_ksLookup (Some ks) (Some specKey) KDB_O_NOCASCADING;;
  match r with
  | Some _ => ret r
  | None =>
      m <- keyGetMeta (Some specKey) (Some (lit "default"));;
      match m with
      | None => ret None
      | Some _ =>
          name <- keyName (Some specKey);;
          v <- keyString m;;
          r <- keyNew name [KEY_NAME_OPTION KEY_CASCADING_NAME; KEY_VALUE (Some (v ++ [NUL]))];;
          ksAppendKey (Some ks) (Some r);;
          ret (Some r)
      end
  end.

(** The key's name is replaced by [name] for one lookup; the caller restores
    the old buffer. *)
Definition lookup_as (ks key : loc) (name : cstr) (options : Z) : M ptr :=
  elektraFinalizeName key name;;
  rec_ksLookup (Some ks) (Some key) options.

Definition restore_name (key : loc) (name : option cstr) (uname : list ascii) : M unit :=
  k <- get_key key;; put_key key (set_name k name uname).

(** ** Cascading lookup *)

Definition elektraLookupByNamespace (ks key : loc) (name : cstr) (options : Z)
    (ns : elektraNamespace) : M ptr :=
  lookup_as ks key (namespace_name ns name) (clear_bit options KDB_O_DEL).

(** The namespaces of the default cascade are tried until one has the key. *)
Fixpoint cascade_namespaces (ks key : loc) (name : cstr) (options : Z)
    (nss : list elektraNamespace) : M ptr :=
  match nss with
  | [] => ret None
  | ns :: r =>
      found <- elektraLookupByNamespace ks key name options ns;;
      match found with
      | Some _ => ret found
      | None => cascade_namespaces ks key name options r
      end
  end.

Definition default_cascade (ks key : loc) (name : cstr) (uname : list ascii) (options : Z) : M ptr :=
  found <- cascade_namespaces ks key name options
             [KEY_NS_PROC; KEY_NS_DIR; KEY_NS_USER; KEY_NS_SYSTEM];;
  restore_name key (Some name) uname;;
  match found with
  | Some _ => ret found
  | None =>
      if test_bit options KDB_O_NODEFAULT then ret None
      else rec_ksLookup (Some ks) (Some key)
             (set_bit (clear_bit options KDB_O_DEL) KDB_O_NOCASCADING)
  end.

Definition ELEKTRA_MAX_NAMESPACE_SIZE : Z := 7.

(** The namespaces of ["namespace/#"] metadata, in their order.  A namespace
    longer than [system] would be written before the start of the buffer. *)
Fixpoint spec_namespaces_loop (fuel : nat) (ks specKey : loc) (name : cstr) (m : loc) (i : Z) : M ptr :=
  match fuel with
  | O => nofuel
  | S n =>
      namespaceSize <- keyGetValueSize (Some m);;
      ns <- keyString (Some m);;
      (* the new name starts namespaceSize bytes before the cascading name *)
      (if (ELEKTRA_MAX_NAMESPACE_SIZE <? namespaceSize)%Z || negb (namespaceSize =? Z.of_nat (S (length ns)))%Z
       then undefined else ret tt);;
      r <- lookup_as ks specKey (ns ++ name) 0;;
      match r with
      | Some _ => ret r
      | None =>
          m' <- keyGetMeta (Some specKey) (Some (lit "namespace/" ++ elektraWriteArrayNumber (i + 1)));;
          match m' with
          | None => ret None
          | Some m' => spec_namespaces_loop n ks specKey name m' (i + 1)
          end
      end
  end.

(** [elektraLookupByCascading] with [KDB_O_NOSPEC], which never looks at the
    specification. *)
Definition elektraLookupBySpecNamespaces (ks specKey : loc) : M ptr :=
  m <- keyGetMeta (Some specKey) (Some (lit "namespace/#0"));;
  k <- get_key specKey;;
  let name := default [] (k_key k) in
  match m with
  | None => default_cascade ks specKey name (k_uname k) (set_bit KDB_O_NOSPEC KDB_O_NODEFAULT)
  | Some m =>
      f <- meta_fuel (Some specKey);;
      r <- spec_namespaces_loop (S f) ks specKey name m 0;;
      restore_name specKey (k_key k) (k_uname k);;
      ret r
  end.

Definition elektraLookupBySpec (ks specKey : loc) (options : Z) : M ptr :=
  k <- get_key specKey;;
  let name := default [] (k_key k) in
  match strchr name SLASH with
  | None => undefined
  | Some cascading =>
      elektraFinalizeName specKey cascading;;
      r <- elektraLookupBySpecLinks ks specKey (lit "override/");;
      r <- (match r with
            | Some _ => ret r
            | None =>
                r <- elektraLookupBySpecNamespaces ks specKey;;
                match r with
                | Some _ => ret r
                | None =>
                    r <- elektraLookupBySpecLinks ks specKey (lit "fallback/");;
                    match r with
                    | Some _ => ret r
                    | None =>
                        if test_bit options KDB_O_NODEFAULT then ret None
                        else elektraLookupBySpecDefault ks specKey
                    end
                end
            end);;
      elektraFinalizeName specKey name;;
      ret r
  end.

Definition elektraLookupByCascading (ks key : loc) (options : Z) : M ptr :=
  k <- get_key key;;
  let name := default [] (k_key k) in
  specKey <-
    (if test_bit options KDB_O_NOSPEC then ret None
     else lookup_as ks key (namespace_name KEY_NS_SPEC name)
            (set_bit (clear_bit options KDB_O_DEL) KDB_O_CALLBACK));;
  match specKey with
  | None => default_cascade ks key name (k_uname k) options
  | Some _ =>
      restore_name key (Some name) (k_uname k);;
      specName <- keyName specKey;;
      if negb (bool_decide (strncmp (default [] specName) (lit "spec/") 5 = 0%Z)) then ret specKey
      else
        specKey <- keyDup specKey;;
        match specKey with
        | None => undefined
        | Some sk =>
            copy_binary specKey (Some key);;
            elektraCopyCallbackMeta specKey (Some key);;
            found <- elektraLookupBySpec ks sk options;;
            elektraCopyCallbackMeta (Some key) specKey;;
            keyDel specKey;;
            ret found
        end
  end.

(** ** ksLookup *)

(** A key with a locked name is not renamed: the search runs on a copy. *)
Definition with_unlocked (key : loc) (f : loc -> M ptr) : M ptr :=
  k <- get_key key;;
  if test_bit (k_flags k) KEY_FLAG_RO_NAME then
    lookupKey <- keyDup (Some key);;
    match lookupKey with
    | None => undefined
    | Some lk =>
        r <- f lk;;
        elektraCopyCallbackMeta (Some key) lookupKey;;
        keyDel lookupKey;;
        ret r
    end
  else f key.

Definition ksLookup_body (ks key : ptr) (options : Z) : M ptr :=
  match ks, key with
  | Some l, Some lk =>
      k <- get_key lk;;
      match k_key k with
      | None => ret None
      | Some name =>
          let masked := clear_bit (clear_bit options KDB_O_DEL) KDB_O_CREATE in
          r <- (if test_bit options KDB_O_SPEC then
                  with_unlocked lk (fun lookupKey => elektraLookupBySpec l lookupKey masked)
                else if negb (test_bit options KDB_O_NOCASCADING) &&
                        negb (bool_decide (strcmp name [] = 0%Z)) && bool_decide (deref name = SLASH) then
                  with_unlocked lk (fun lookupKey => elektraLookupByCascading l lookupKey masked)
                else if test_bit options KDB_O_NOALL then elektraLookupLinearSearch l lk masked
                else elektraLookupSearch l lk masked);;
          r <- (match r with
                | Some _ => ret r
                | None =>
                    if test_bit options KDB_O_CREATE then elektraLookupCreateKey l lk else ret None
                end);;
          (if test_bit options KDB_O_DEL then keyDel key else ret 0%Z);;
          ret r
      end
  | _, _ => ret None
  end.
End Lookup.

(** ** The knot *)

Fixpoint knot {CB : Callbacks} (n : nat) : Rec :=
  match n with
  | O => {| rec_ksLookup _ _ _ := nofuel; rec_keyDel _ := nofuel; rec_keySetOwner _ _ := nofuel |}
  | S n =>
      let r := knot n in
      {| rec_ksLookup := @ksLookup_body r CB; rec_keyDel := @keyDel r; rec_keySetOwner := @keySetOwner r |}
  end.

Definition ksLookup {CB : Callbacks} (n : nat) (ks key : ptr) (options : Z) : M ptr :=
  @ksLookup_body (knot n) CB ks key options.

Section ByName.
Context {CB : Callbacks}.

(** [struct _Key key] on the stack is a key that is freed at the end. *)
Definition ksLookupByName (n : nat) (ks : ptr) (name : option cstr) (options : Z) : M ptr :=
  let R := knot n in
  match ks, name with
  | Some l, Some _ =>
      s <- get_ks l;;
      if ks_size s =? 0 then ret None
      else
        key <- elektraKeyMalloc;;
        elektraKeySetName (Some key) name (set_bit KEY_META_NAME KEY_CASCADING_NAME);;
        found <- ksLookup n ks (Some key) options;;
        k <- get_key key;;
        ksDel (k_meta k);;
        free_key key;;
        ret found
  | _, _ => ret None
  end.

Fixpoint strcasecmp (s1 s2 : cstr) : Z :=
  match s1, s2 with
  | [], _ => - toupper (uchar (deref s2))
  | _, [] => toupper (uchar (deref s1))
  | c1 :: r1, c2 :: r2 =>
      let d := toupper (uchar c1) - toupper (uchar c2) in
      if d =? 0 then strcasecmp r1 r2 else d
  end%Z.

(** The loop [while ((current = ksNext (ks)) != 0)] with a test on the key. *)
Fixpoint value_loop (fuel : nat) (ks : ptr) (test : loc -> M bool) : M ptr :=
  match fuel with
  | O => nofuel
  | S n =>
      current <- ksNext ks;;
      match current with
      | None => ret None
      | Some c => b <- test c;; if b : bool then ret current else value_loop n ks test
      end
  end.

Definition ksLookupByString (n : nat) (ks : ptr) (value : option cstr) (options : Z) : M ptr :=
  let R := knot n in
  match ks with
  | None => ret None
  | Some l =>
      (if test_bit options KDB_O_NOALL then ret 0%Z else ksRewind ks);;
      init <- (if test_bit options KDB_O_NOALL then ret 0%Z else ksGetCursor ks);;
      match value with
      | None => ret None
      | Some v =>
          s <- get_ks l;;
          current <- value_loop (S (S (ks_size s))) ks (fun c =>
            str <- keyIsString (Some c);;
            if (str =? 0)%Z then ret false
            else
              d <- keyValue (Some c);;
              match d with
              | None => undefined
              | Some d =>
                  cv <- as_cstr d;;
                  ret ((test_bit options KDB_O_NOCASE && (strcasecmp cv v =? 0)%Z) ||
                       (strcmp cv v =? 0)%Z)
              end);;
          (if test_bit options KDB_O_NOALL then ret 0%Z else ksSetCursor ks init);;
          ret current
      end
  end.

(** The key found is not returned. *)
Definition ksLookupByBinary (n : nat) (ks : ptr) (value : option (list ascii)) (size : nat)
    (options : Z) : M ptr :=
  let R := knot n in
  match ks with
  | None => ret None
  | Some l =>
      (if test_bit options KDB_O_NOALL then ret 0%Z else ksRewind ks);;
      init <- (if test_bit options KDB_O_NOALL then ret 0%Z else ksGetCursor ks);;
      s <- get_ks l;;
      value_loop (S (S (ks_size s))) ks (fun c =>
        b <- keyIsBinary (Some c);;
        if (b =? 0)%Z then ret false
        else
          k <- get_key c;;
          if negb (size =? dataSize k) then ret false
          else
            match value with
            | None => ret (bool_decide (k_data k = None))
            | Some v =>
                match k_data k with
                | None => ret false
                | Some d => if length v <? size then undefined else ret (memcmp d v size =? 0)%Z
                end
            end);;
      (if test_bit options KDB_O_NOALL then ret 0%Z else ksSetCursor ks init);;
      ret None
  end.
End ByName.
