(* ===== verification/Env.v ===== *)
(** * Env: the environment of the higher layers

    The functions above [keyset.c] look keys up, delete them and set their
    owner through the knot of [Lookup.v].  [Env] holds the callbacks of the
    application and the depth of the knot; the instance makes every operation
    of the lower layers use the knot of that depth. *)
From S2P Require Export Lookup.

Class Env := { env_callbacks : Callbacks; env_depth : nat }.

#[global] Existing Instance env_callbacks.

#[global] Instance env_rec {E : Env} : Rec := knot env_depth.

(** [ksLookup] and [ksLookupByName] at the depth of the environment. *)
Definition env_ksLookup {E : Env} : ptr -> ptr -> Z -> M ptr := ksLookup env_depth.
Definition env_ksLookupByName {E : Env} : ptr -> option cstr -> Z -> M ptr := ksLookupByName env_depth.

(** [while ((cur = ksNext (ks)) != 0) body], whose body may leave the loop with
    a result; the loop takes at most one turn per key and one at the end as
    long as the body does not move the cursor back. *)
Fixpoint ks_loop {A} (fuel : nat) (ks : ptr) (body : loc -> M (option A)) (after : M A) : M A :=
  match fuel with
  | O => nofuel
  | S n =>
      cur <- ksNext ks;;
      match cur with
      | None => after
      | Some c => r <- body c;; match r with Some a => ret a | None => ks_loop n ks body after end
      end
  end.

(** The turns [ks_loop] may take over a keyset. *)
Definition ks_turns (ks : ptr) : M nat :=
  match ks with None => ret 1 | Some l => s <- get_ks l;; ret (S (S (ks_size s))) end.
