(* ===== verification/Proposal.v ===== *)
(** * Proposal: comparisons, renaming and relations

    [keyCompare] and [keyCompareMeta] of [keytest.c], [elektraRenameKeys] of
    [libs/elektra/proposal.c] and [libs/proposal/proposal.c]: copying a keyset
    into an array and the relation [keyRel2]. *)
From S2P Require Export Env KeyTest.

Section Proposal.
Context {E : Env}.

(** ** keytest.c: comparing keys *)

Definition KEY_NAME_DIFF : Z := 1.
Definition KEY_VALUE_DIFF : Z := 2.
Definition KEY_OWNER_DIFF : Z := 4.
Definition KEY_COMMENT_DIFF : Z := 8.
Definition KEY_META_DIFF : Z := 2 ^ 15.
Definition KEY_NULL : Z := 2 ^ 16.

Fixpoint compare_meta_loop (fuel : nat) (key1 key2 : ptr) : M Z :=
  match fuel with
  | O => nofuel
  | S n =>
      meta1 <- keyNextMeta key1;;
      match meta1 with
      | None => ret 0%Z
      | Some _ =>
          meta2 <- keyNextMeta key2;;
          match meta2 with
          | None => ret KEY_META_DIFF
          | Some _ =>
              n1 <- keyName meta1;;
              n2 <- keyName meta2;;
              if bool_decide (strcmp (default [] n1) (default [] n2) <> 0%Z) then ret KEY_META_DIFF
              else
                s1 <- keyString meta1;;
                s2 <- keyString meta2;;
                if bool_decide (strcmp s1 s2 <> 0%Z) then ret KEY_META_DIFF
                else compare_meta_loop n key1 key2
          end
      end
  end.

Definition keyCompareMeta (k1 k2 : ptr) : M Z :=
  keyRewindMeta k1;;
  keyRewindMeta k2;;
  meta <- (match k1 with None => ret None | Some l => k <- get_key l;; ret (k_meta k) end);;
  fuel <- ks_turns meta;;
  compare_meta_loop fuel k1 k2.

(** The test of the values: sizes first, then the bytes. *)
Definition compare_values (value1 value2 : option (list ascii)) (size1 size2 : Z) : M bool :=
  if bool_decide (size1 <> size2) then ret true
  else
    match value1, value2 with
    | Some v1, Some v2 =>
        let n := Z.to_nat size1 in
        if (length v1 <? n) || (length v2 <? n) then undefined
        else ret (bool_decide (memcmp v1 v2 n <> 0%Z))
    | _, _ => ret true
    end.

Definition owner_cstr (owner : option (list ascii)) : M cstr :=
  match owner with None => undefined | Some o => as_cstr o end.

Definition keyCompare (key1 key2 : ptr) : M Z :=
  match key1, key2 with
  | None, None => ret 0%Z
  | None, Some _ | Some _, None => ret KEY_NULL
  | Some _, Some _ =>
      nsize1 <- keyGetNameSize key1;;
      nsize2 <- keyGetNameSize key2;;
      name1 <- keyName key1;;
      name2 <- keyName key2;;
      comment1 <- keyGetMeta key1 (Some (lit "comment"));;
      comment2 <- keyGetMeta key2 (Some (lit "comment"));;
      owner1 <- keyOwner key1;;
      owner2 <- keyOwner key2;;
      value1 <- keyValue key1;;
      value2 <- keyValue key2;;
      size1 <- keyGetValueSize key1;;
      size2 <- keyGetValueSize key2;;
      c1 <- keyString comment1;;
      c2 <- keyString comment2;;
      let r := if bool_decide (strcmp c1 c2 <> 0%Z) then KEY_COMMENT_DIFF else 0%Z in
      o1 <- owner_cstr owner1;;
      o2 <- owner_cstr owner2;;
      let r := if bool_decide (strcmp o1 o2 <> 0%Z) then Z.lor r KEY_OWNER_DIFF else r in
      m <- keyCompareMeta key1 key2;;
      let r := if negb (m =? 0)%Z then Z.lor r KEY_META_DIFF else r in
      let r := if bool_decide (nsize1 <> nsize2) then Z.lor r KEY_NAME_DIFF
               else if bool_decide (strcmp (default [] name1) (default [] name2) <> 0%Z)
               then Z.lor r KEY_NAME_DIFF else r in
      v <- compare_values value1 value2 size1 size2;;
      ret (if v : bool then Z.lor r KEY_VALUE_DIFF else r)
  end.

(** ** proposal.c of the core: renaming *)

(** [keyName (key) + off]: past the end of the name the pointer is in the
    unescaped name, which follows in the same buffer. *)
Definition name_from (key : ptr) (off : nat) : M cstr :=
  match key with
  | None => undefined
  | Some l =>
      k <- get_key l;;
      match k_key k with
      | None => if off =? 0 then ret [] else undefined
      | Some n => as_cstr (drop off (n ++ NUL :: k_uname k))
      end
  end.

Fixpoint rename_loop (fuel : nat) (config newConfig : ptr) (name : cstr) (rootSize : Z) : M unit :=
  match fuel with
  | O => nofuel
  | S n =>
      cur <- ksPop config;;
      match cur with
      | None => ret tt
      | Some _ =>
          dupKey <- keyDup cur;;
          keySetName dupKey (Some name);;
          rest <- name_from cur (Z.to_nat (rootSize - 1));;
          keyAddName dupKey (Some rest);;
          ksAppendKey newConfig dupKey;;
          keyDel cur;;
          rename_loop n config newConfig name rootSize
      end
  end.

Definition elektraRenameKeys (config : ptr) (name : cstr) : M ptr :=
  ksRewind config;;
  root <- ksNext config;;
  rootSize <- keyGetNameSize root;;
  popped <- env_ksLookup config root KDB_O_POP;;
  keyDel popped;;
  size <- ksGetSize config;;
  newConfig <- ksNew (Z.to_nat size) [];;
  if (rootSize =? -1)%Z then ret (Some newConfig)
  else
    rename_loop (S (Z.to_nat size)) config (Some newConfig) name rootSize;;
    ret (Some newConfig).

(** ** libs/proposal *)

(** The keys in the order of the keyset; [buffer] holds [ksGetSize] pointers
    and receives them. *)
Definition elektraKsToMemArray (ks : ptr) : M (list loc) :=
  cursor <- ksGetCursor ks;;
  ksRewind ks;;
  fuel <- ks_turns ks;;
  buffer <- (fix loop (fuel : nat) (acc : list loc) : M (list loc) :=
    match fuel with
    | O => nofuel
    | S n => key <- ksNext ks;; match key with None => ret acc | Some k => loop n (acc ++ [k]) end
    end) fuel [];;
  ksSetCursor ks cursor;;
  ret buffer.

Definition ksRenameKeys (config name : ptr) : M ptr :=
  n <- keyName name;;
  match n with None => undefined | Some n => elektraRenameKeys config n end.

Definition keyLock (key : ptr) (what : Z) : M Z := elektraKeyLock key what.

Definition elektraKeyGetMetaKeySet (key : ptr) : M ptr :=
  match key with
  | None => ret None
  | Some l => k <- get_key l;; match k_meta k with None => ret None | m => ksDup m end
  end.

(** The options of [keyNew (name, KEY_CASCADING_NAME, KEY_END)]. *)
Definition new_cascading (name : cstr) : M ptr :=
  l <- keyNew (Some name) [KEY_NAME_OPTION KEY_CASCADING_NAME];; ret (Some l).

Definition keyAsCascading (key : ptr) : M ptr :=
  n <- keyName key;;
  match n with
  | None => undefined
  | Some name =>
      if decide (deref name = SLASH) then keyDup key
      else
        match strchr name SLASH with
        | None => new_cascading (lit "/")
        | Some p =>
            length_ <- keyGetNameSize key;;
            if (Z.of_nat (length name - length p) =? length_ - 1)%Z then new_cascading (lit "/")
            else new_cascading p
        end
  end.

Fixpoint levels_loop (fuel : nat) (key toCheck : ptr) (levels : Z) : M Z :=
  match fuel with
  | O => nofuel
  | S n =>
      k <- keyName key;;
      c <- keyName toCheck;;
      if bool_decide (strcmp (default [] k) (default [] c) = 0%Z) then ret levels
      else
        keySetBaseName toCheck None;;
        c <- keyName toCheck;;
        (if decide (deref (default [] c) = NUL) then keySetName toCheck (Some (lit "/")) else ret 0%Z);;
        levels_loop n key toCheck (levels + 1)
  end.

(** Every turn takes one level of the name of [check]. *)
Definition keyGetLevelsBelow (key check : ptr) : M Z :=
  b <- keyIsBelow key check;;
  if (b =? 0)%Z then ret 0%Z
  else
    n1 <- keyGetNamespace key;;
    n2 <- keyGetNamespace check;;
    if decide (n1 <> n2) then ret 0%Z
    else
      toCheck <- keyDup check;;
      name <- keyName check;;
      levels <- levels_loop (S (length (default [] name))) key toCheck 0;;
      keyDel toCheck;;
      ret levels.

(** The relations, [KeyRelType]: the kind and how the namespaces are compared. *)
Inductive relation_kind := REL_BELOW | REL_DIRECT_BELOW | REL_SILBLING | REL_NEPHEW.
Inductive namespace_kind := SAME_NS | IGNORE_NS | CASCADING_NS.

Definition which_relation (which : Z) : option (relation_kind * namespace_kind) :=
  match find (fun i => (which =? Z.shiftl 1 (Z.of_nat i))%Z) (seq 0 12) with
  | Some i =>
      Some (match i / 3 with 0 => REL_BELOW | 1 => REL_DIRECT_BELOW | 2 => REL_SILBLING | _ => REL_NEPHEW end,
            match i mod 3 with 0 => SAME_NS | 1 => IGNORE_NS | _ => CASCADING_NS end)
  | None => None
  end.

Definition namespaces_match (how : namespace_kind) (keyNamespace checkNamespace : elektraNamespace) : bool :=
  match how with
  | SAME_NS => bool_decide (keyNamespace = checkNamespace)
  | IGNORE_NS => true
  | CASCADING_NS => bool_decide (checkNamespace = KEY_NS_CASCADING) || bool_decide (keyNamespace = KEY_NS_CASCADING)
  end.

(** The number of bits of [which] that are set, as [type] runs over the bits
    of an [int]. *)
Definition count_bits (which : Z) : nat := length (List.filter (fun i => Z.testbit which (Z.of_nat i)) (seq 0 32)).

(** The switch over [which]. *)
Definition rel2_value (which : Z) (isBelow isSilblingNephew : Z) (keyNamespace checkNamespace : elektraNamespace) : Z :=
  match which_relation which with
  | None => -1
  | Some (kind, how) =>
      if namespaces_match how keyNamespace checkNamespace then
        match kind with
        | REL_BELOW => isBelow
        | REL_DIRECT_BELOW => if isBelow =? 1 then 1 else 0
        | REL_SILBLING => if isSilblingNephew =? 1 then 1 else 0
        | REL_NEPHEW => if 1 <? isSilblingNephew then isSilblingNephew - 1 else 0
        end
      else 0
  end%Z.

Definition keyRel2 (key check : ptr) (which : Z) : M Z :=
  match key, check with
  | Some lk, Some lc =>
      k <- get_key lk;;
      c <- get_key lc;;
      match k_key k, k_key c with
      | Some _, Some _ =>
          cKey <- keyAsCascading key;;
          cCheck <- keyAsCascading check;;
          cKeyParent <- keyDup cKey;;
          keySetBaseName cKeyParent None;;
          n <- keyName cKeyParent;;
          (if decide (deref (default [] n) = NUL) then keySetName cKeyParent (Some (lit "/")) else ret 0%Z);;
          isBelow <- keyGetLevelsBelow cKey cCheck;;
          isSilblingNephew <- (if (isBelow =? 0)%Z then keyGetLevelsBelow cKeyParent cCheck else ret 0%Z);;
          keyNamespace <- keyGetNamespace key;;
          checkNamespace <- keyGetNamespace check;;
          if negb (count_bits which =? 1) then ret (-1)%Z
          else
            keyDel cKey;;
            keyDel cCheck;;
            keyDel cKeyParent;;
            ret (rel2_value which isBelow isSilblingNephew keyNamespace checkNamespace)
      | _, _ => ret (-1)%Z
      end
  | _, _ => ret (-1)%Z
  end.
End Proposal.
