(* ===== verification/TopSort.v ===== *)
(** * TopSort: resolving dependencies

    The adjacency matrix of [libs/meta/meta.c] and the loops of
    [elektraSortTopology] on it.  The keys that get their place are collected
    in a list in their order; [MetaLib.v] gives them their metadata. *)
From S2P Require Export Heap.

(** ** The matrix *)

(** [struct _adjMatrix]; the [unsigned long]s of [deps] are truth values. *)
Record adjMatrix := mkAdj { adj_key : loc; isResolved : bool; deps : list bool }.

Notation matrix := (list adjMatrix).

(** [adjMatrix[i].deps[k]] and [adjMatrix[i].isResolved] *)
Definition dep (am : matrix) (i k : nat) : bool :=
  match am !! i with Some a => default false (deps a !! k) | None => false end.
Definition resolved (am : matrix) (i : nat) : bool :=
  match am !! i with Some a => isResolved a | None => false end.

Definition clear_dep (j : nat) (a : adjMatrix) : adjMatrix := mkAdj (adj_key a) (isResolved a) (<[j := false]> (deps a)).
Definition set_dep (j : nat) (a : adjMatrix) : adjMatrix := mkAdj (adj_key a) (isResolved a) (<[j := true]> (deps a)).
Definition set_resolved (b : bool) (a : adjMatrix) : adjMatrix := mkAdj (adj_key a) b (deps a).

(** [resolveDep] and the number it returns. *)
Fixpoint resolveDep (j : nat) (am : matrix) : nat * matrix :=
  match am with
  | [] => (0, [])
  | a :: r =>
      let (removed, r') := resolveDep j r in
      if default false (deps a !! j) then (S removed, clear_dep j a :: r') else (removed, a :: r')
  end.

Definition hasUnresolvedDependencies (j : nat) (am : matrix) : bool :=
  match am !! j with Some a => existsb id (deps a) | None => false end.

(** ** resolveDeps *)

(** [for (k < size) if (adjMatrix[i].deps[k] && !frontier[k])]: whether a key
    was found, how many, and the frontier. *)
Fixpoint add_deps (ds frontier : list bool) : bool * nat * list bool :=
  match ds, frontier with
  | d :: ds, f :: fr =>
      let '(found, n, fr') := add_deps ds fr in
      if d && negb f then (true, S n, true :: fr') else (found, n, f :: fr')
  | _, _ => (false, 0, frontier)
  end.

Definition in_frontier (frontier : list bool) (i : nat) : bool := default false (frontier !! i).

Definition deps_of (am : matrix) (i : nat) : list bool := match am !! i with Some a => deps a | None => [] end.

Definition frontier_at (am : matrix) (st : bool * nat * list bool) (i : nat) : bool * nat * list bool :=
  let '(found, todo, frontier) := st in
  if negb (in_frontier frontier i) then st
  else if hasUnresolvedDependencies i am then
    let '(f, n, frontier') := add_deps (deps_of am i) frontier in (found || f, todo + n, frontier')
  else st.

(** The body of [while (found)]. *)
Definition frontier_pass (am : matrix) (todo : nat) (frontier : list bool) : bool * nat * list bool :=
  fold_left (frontier_at am) (seq 0 (length am)) (false, todo, frontier).

Fixpoint frontier_loop (fuel : nat) (am : matrix) (todo : nat) (frontier : list bool) : option (nat * list bool) :=
  match fuel with
  | O => None
  | S n =>
      let '(found, todo', frontier') := frontier_pass am todo frontier in
      if found then frontier_loop n am todo' frontier' else Some (todo', frontier')
  end.

Definition count (frontier : list bool) : nat := length (List.filter id frontier).

(** [adjMatrix[j].isResolved = 1; resolveDep (j, adjMatrix, size)] *)
Definition mark (j : nat) (am : matrix) : matrix := snd (resolveDep j (alter (set_resolved true) j am)).

(** The second loop of [resolveDeps]; [order] are the keys that got a place. *)
Fixpoint resolve_loop (fuel max_loops i loops todo : nat) (frontier : list bool) (am : matrix) (order : list nat)
    : option (Z * matrix * list nat) :=
  match todo with
  | O => Some (1%Z, am, order)
  | S todo' =>
      match fuel with
      | O => None
      | S fuel =>
          let '(i, loops) := if i =? length am then (0, S loops) else (i, loops) in
          if max_loops <? loops then Some ((-1)%Z, am, order)
          else if negb (in_frontier frontier i) then resolve_loop fuel max_loops (S i) loops todo frontier am order
          else if negb (hasUnresolvedDependencies i am) then
            resolve_loop fuel max_loops (S i) loops todo' (<[i := false]> frontier)
              (mark i (snd (resolveDep i am))) (order ++ [i])
          else resolve_loop fuel max_loops (S i) loops todo frontier am order
      end
  end.

(** [resolveDeps]: its result, the matrix and the keys that got a place.  The
    loops have enough turns: a turn of the first adds a key to the frontier,
    the second runs at most [max_loops + 1] times over the keys. *)
Definition resolveDeps (j : nat) (am : matrix) : option (Z * matrix * list nat) :=
  let frontier := deps_of am j in
  match frontier_loop (S (length am)) am (count frontier) frontier with
  | None => None
  | Some (todo, frontier) =>
      if todo =? 0 then Some (1%Z, mark j am, [j])
      else resolve_loop ((todo + 2) * length am) todo 0 0 todo frontier am []
  end.

(** ** The loop of elektraSortTopology *)

(** [for (j < size + 1)]: the number of unresolved keys, the matrix and the keys
    that got a place. *)
Fixpoint sort_loop (fuel : nat) (hasOrder : bool) (j : nat) (found : bool) (unresolved : nat) (am : matrix) (order : list nat)
    : option (nat * matrix * list nat) :=
  match fuel with
  | O => None
  | S fuel =>
      if j =? length am then
        if found then sort_loop fuel hasOrder 0 false 0 am order else Some (unresolved, am, order)
      else if resolved am j then sort_loop fuel hasOrder (S j) found unresolved am order
      else
        let unresolved := S unresolved in
        if hasOrder then
          match resolveDeps j am with
          | None => None
          | Some (r, am, l) =>
              if (r =? -1)%Z then Some (unresolved, am, order ++ l)
              else sort_loop fuel hasOrder 0 true unresolved am (order ++ l)
          end
        else if negb (hasUnresolvedDependencies j am) then
          sort_loop fuel hasOrder (S j) true unresolved (mark j am) (order ++ [j])
        else sort_loop fuel hasOrder (S j) found unresolved am order
  end.

Definition resolve_unresolved (hasOrder : bool) (unresolved : nat) (am : matrix) : option (nat * matrix * list nat) :=
  sort_loop ((S (length am)) * (2 * length am + 3)) hasOrder 0 true unresolved am [].
