(* ===== verification/Trie.v ===== *)
(** * Trie: the mountpoints of trie.c

    A trie maps the names of mountpoints to backends.  A node has one entry
    per first character: the text of the edge, its length, the backend at its
    end and the child below.  [trieInsert] is shown to update the finite map a
    trie stands for and [elektraTriePrefixLookup] to return the backend of the
    longest mountpoint that is a prefix of the name.  Backends are opaque
    pointers here. *)
From S2P Require Export Heap.

Section Trie.
Context {Backend : Type}.

(** [struct _Trie]; the arrays over [unsigned char] are functions. *)
Inductive Trie : Type := mkTrie {
  t_children : ascii -> option Trie;
  t_text : ascii -> option cstr;
  t_textlen : ascii -> nat;
  t_value : ascii -> option Backend;
  t_empty_value : option Backend
}.

(** [array[idx] = x] *)
Definition upd {A} (f : ascii -> A) (idx : ascii) (x : A) : ascii -> A :=
  fun c => if decide (c = idx) then x else f c.

Definition set_children (t : Trie) f := mkTrie f (t_text t) (t_textlen t) (t_value t) (t_empty_value t).
Definition set_empty_value (t : Trie) v := mkTrie (t_children t) (t_text t) (t_textlen t) (t_value t) v.

(** [None] when [str] starts with [substr], otherwise the rest of [substr]
    from the first mismatch on. *)
Fixpoint elektraTrieStartsWith (str substr : cstr) : option cstr :=
  match substr with
  | [] => None
  | c :: r => if decide (c = deref str) then elektraTrieStartsWith (tail str) r else Some substr
  end.

(** [elektraCalloc (sizeof (Trie))] *)
Definition emptyTrie : Trie :=
  mkTrie (fun _ => None) (fun _ => None) (fun _ => 0) (fun _ => None) None.

(** A new entry for [name]. *)
Definition add_entry (t : Trie) (name : cstr) (value : option Backend) : Trie :=
  let idx := deref name in
  mkTrie (t_children t) (upd (t_text t) idx (Some name)) (upd (t_textlen t) idx (length name))
    (upd (t_value t) idx value) (t_empty_value t).

(** [trieInsert (NULL, name, value)] *)
Definition trieInsert_new (name : cstr) (value : option Backend) : Trie :=
  if bool_decide (strcmp [] name = 0%Z) then set_empty_value emptyTrie value
  else add_entry emptyTrie name value.

(** The text of the entry [idx] is split before [p]. *)
Definition split_entry (t : Trie) (idx : ascii) (text p name : cstr) (value : option Backend) : Trie :=
  let off := length text - length p in
  let text' := take off text in
  let child := t_children t idx in
  let n := trieInsert_new (drop off name) value in
  let idx2 := deref p in
  let n := mkTrie (upd (t_children n) idx2 child) (upd (t_text n) idx2 (Some p))
             (upd (t_textlen n) idx2 (length p)) (upd (t_value n) idx2 (t_value t idx))
             (t_empty_value n) in
  mkTrie (upd (t_children t) idx (Some n)) (upd (t_text t) idx (Some text'))
    (upd (t_textlen t) idx (length text')) (upd (t_value t) idx None) (t_empty_value t).

Fixpoint trieInsert_node (trie : Trie) (name : cstr) (value : option Backend) : Trie :=
  match trie with
  | mkTrie children text textlen vals empty =>
      let idx := deref name in
      if bool_decide (strcmp [] name = 0%Z) then mkTrie children text textlen vals value
      else
        match text idx with
        | Some tx =>
            match elektraTrieStartsWith name tx with
            | None =>
                let rest := drop (textlen idx) name in
                let child := match children idx with
                             | None => trieInsert_new rest value
                             | Some c => trieInsert_node c rest value
                             end in
                mkTrie (upd children idx (Some child)) text textlen vals empty
            | Some p => split_entry trie idx tx p name value
            end
        | None => add_entry trie name value
        end
  end.

Definition trieInsert (trie : option Trie) (name : option cstr) (value : option Backend) : Trie :=
  let name := default [] name in
  match trie with
  | None => trieInsert_new name value
  | Some t => trieInsert_node t name value
  end.

Fixpoint prefixLookup_node (trie : Trie) (name : cstr) : option Backend :=
  match trie with
  | mkTrie children text textlen vals empty =>
      let idx := deref name in
      match text idx with
      | None => empty
      | Some trieText =>
          match elektraTrieStartsWith name trieText with
          | None =>
              let ret := match children idx with
                         | None => None
                         | Some c => prefixLookup_node c (drop (textlen idx) name)
                         end in
              match ret, vals idx with
              | None, None => empty
              | None, Some v => Some v
              | Some v, _ => Some v
              end
          | Some _ => empty
          end
      end
  end.

Definition elektraTriePrefixLookup (trie : option Trie) (name : cstr) : option Backend :=
  match trie with None => None | Some t => prefixLookup_node t name end.

(** [trieLookup] on the name of the key; the name gets a slash at its end. *)
Definition trieLookup (trie : option Trie) (key : option cstr) : option Backend :=
  match key, trie with
  | Some name, Some _ => elektraTriePrefixLookup trie (name ++ [SLASH])
  | _, _ => None
  end.

(** The characters [0 .. KDB_MAX_UCHAR - 1]. *)
Definition all_chars : list ascii := ascii_of_nat <$> seq 0 256.

(** The backends [trieClose] closes, in their order. *)
Fixpoint trieClose_node (trie : Trie) : list Backend :=
  match trie with
  | mkTrie children text textlen vals empty =>
      flat_map (fun i =>
        match text i with
        | Some _ =>
            match children i with None => [] | Some c => trieClose_node c end ++
            match vals i with Some v => [v] | None => [] end
        | None => []
        end) all_chars ++
      match empty with Some v => [v] | None => [] end
  end.

Definition trieClose (trie : option Trie) : list Backend :=
  match trie with None => [] | Some t => trieClose_node t end.

(** ** The map a trie stands for *)

Fixpoint get (t : Trie) (s : cstr) : option Backend :=
  match t with
  | mkTrie children text _ vals empty =>
      match s with
      | [] => empty
      | c :: _ =>
          match text c with
          | None => None
          | Some tx =>
              match elektraTrieStartsWith s tx with
              | Some _ => None
              | None =>
                  let r := drop (length tx) s in
                  match (match children c with Some ch => get ch r | None => None end) with
                  | Some v => Some v
                  | None => if decide (r = []) then vals c else None
                  end
              end
          end
      end
  end.

(** Entries start with their index, lengths are right, and there is nothing
    without a text. *)
Inductive wf : Trie -> Prop :=
| wf_node t :
    (forall c, match t_text t c with
               | Some tx => (exists r, tx = c :: r) /\ no_nul tx /\ t_textlen t c = length tx
               | None => t_children t c = None /\ t_value t c = None
               end) ->
    (forall c ch, t_children t c = Some ch -> wf ch) -> wf t.

Lemma wf_inv t :
  wf t ->
  (forall c, match t_text t c with
             | Some tx => (exists r, tx = c :: r) /\ no_nul tx /\ t_textlen t c = length tx
             | None => t_children t c = None /\ t_value t c = None
             end) /\ (forall c ch, t_children t c = Some ch -> wf ch).
Proof. by intros []. Qed.

Lemma upd_same {A} (f : ascii -> A) c x : upd f c x c = x.
Proof. unfold upd. by rewrite decide_True. Qed.

Lemma upd_other {A} (f : ascii -> A) c d x : d <> c -> upd f c x d = f d.
Proof. intros. unfold upd. by rewrite decide_False. Qed.

Lemma StartsWith_None s tx :
  no_nul tx -> elektraTrieStartsWith s tx = None <-> exists r, s = tx ++ r.
Proof.
  intros H. revert s. induction H as [|c tx Hc H IH]; intros s; simpl; [naive_solver|].
  case_decide as E.
  - destruct s as [|d s]; simpl in *; [done|]. subst d. rewrite IH. naive_solver.
  - split; [done|]. intros [r ->]. done.
Qed.

Lemma StartsWith_Some s tx p :
  no_nul tx -> elektraTrieStartsWith s tx = Some p ->
  exists q s', tx = q ++ p /\ s = q ++ s' /\ p <> [] /\ deref s' <> deref p.
Proof.
  intros H. revert s. induction H as [|c tx Hc H IH]; intros s; simpl; [done|].
  case_decide as E.
  - destruct s as [|d s]; simpl in *; [done|]. subst d. intros (q & s' & -> & -> & ? & ?)%IH.
    by exists (c :: q), s'.
  - intros [= <-]. exists [], s. split_and!; [done..|]. simpl. congruence.
Qed.

(** [get] on a name that starts with [c]. *)
Lemma get_nil t : get t [] = t_empty_value t.
Proof. by destruct t. Qed.

Definition get_child (ch : option Trie) (v : option Backend) (r : cstr) : option Backend :=
  match (match ch with Some ch => get ch r | None => None end) with
  | Some v => Some v
  | None => if decide (r = []) then v else None
  end.

Lemma get_none t c s : t_text t c = None -> get t (c :: s) = None.
Proof. destruct t; simpl. by intros ->. Qed.

Lemma get_entry t c tx r :
  t_text t c = Some tx -> no_nul tx -> (exists tx', tx = c :: tx') ->
  get t (tx ++ r) = get_child (t_children t c) (t_value t c) r.
Proof.
  intros Ht Hn [tx' ->]. destruct t as [ch te tl va em]; simpl in *. rewrite Ht. simpl.
  rewrite decide_True by done. inversion Hn; subst.
  assert (elektraTrieStartsWith (tx' ++ r) tx' = None) as -> by (apply StartsWith_None; eauto).
  by rewrite drop_app_length.
Qed.

Lemma get_mismatch t c tx s :
  t_text t c = Some tx -> no_nul tx -> (forall r, c :: s <> tx ++ r) -> get t (c :: s) = None.
Proof.
  intros Ht Hn Hs. destruct t as [ch te tl va em]; simpl in *. rewrite Ht.
  destruct (elektraTrieStartsWith (c :: s) tx) eqn:E; [done|].
  apply StartsWith_None in E as [r Hr]; [|done]. by destruct (Hs r).
Qed.

(** ** Insertion *)

Lemma strcmp_nil_l s : no_nul s -> strcmp [] s = 0%Z <-> s = [].
Proof. intros Hs. rewrite strcmp_eq; [|constructor|done]. by split. Qed.

Lemma get_empty s : get emptyTrie s = None.
Proof. by destruct s. Qed.

Lemma add_entry_get t c name v s :
  t_text t c = None -> t_children t c = None -> no_nul (c :: name) ->
  get (add_entry t (c :: name) (Some v)) s =
    if decide (s = c :: name) then Some v else get t s.
Proof.
  intros Ht Hch Hn. set (t' := add_entry t (c :: name) (Some v)).
  assert (t_text t' c = Some (c :: name)) as Ht' by (unfold t', add_entry; simpl; by rewrite upd_same).
  destruct s as [|d s].
  - rewrite decide_False by done. by rewrite !get_nil.
  - destruct (decide (d = c)) as [->|Hd].
    + rewrite (get_none t) by done.
      destruct (elektraTrieStartsWith (c :: s) (c :: name)) eqn:E.
      * rewrite decide_False.
        -- apply get_mismatch with (c :: name); [done..|].
           intros r Hr. assert (elektraTrieStartsWith (c :: s) (c :: name) = None)
             by (apply StartsWith_None; eauto). congruence.
        -- intros Heq. assert (elektraTrieStartsWith (c :: s) (c :: name) = None)
             by (apply StartsWith_None; [done|]; exists []; by rewrite app_nil_r). congruence.
      * apply StartsWith_None in E as [r Hr]; [|done]. rewrite Hr.
        rewrite (get_entry t' c (c :: name)) by eauto.
        unfold t', add_entry, get_child. simpl. rewrite Hch, upd_same.
        destruct r as [|x r].
        -- rewrite app_nil_r. by rewrite !decide_True.
        -- rewrite !decide_False; [done| |done]. intros H. apply (f_equal length) in H.
           simpl in H. rewrite length_app in H. simpl in H. lia.
    + rewrite decide_False by congruence. unfold t', add_entry. destruct t as [ch te tl va em]; simpl.
      by rewrite !upd_other by done.
Qed.

Lemma add_entry_wf t c name v :
  wf t -> t_text t c = None -> no_nul (c :: name) -> wf (add_entry t (c :: name) v).
Proof.
  intros Hwf Ht Hn. apply wf_inv in Hwf as [H1 H2]. constructor; [|done].
  intros d. simpl. destruct (decide (d = c)) as [->|Hd].
  - rewrite !upd_same. split_and!; [eauto|done|done].
  - rewrite !upd_other by done. apply H1.
Qed.

Lemma emptyTrie_wf : wf emptyTrie.
Proof. by constructor. Qed.

Lemma trieInsert_new_spec name v :
  no_nul name ->
  wf (trieInsert_new name (Some v)) /\
  forall s, get (trieInsert_new name (Some v)) s = if decide (s = name) then Some v else None.
Proof.
  intros Hn. unfold trieInsert_new. destruct name as [|c name].
  - simpl. split; [by constructor|]. by intros [|d s].
  - rewrite bool_decide_false by (by rewrite strcmp_nil_l). split.
    + by apply add_entry_wf; [apply emptyTrie_wf| |].
    + intros s. rewrite add_entry_get by done. by rewrite get_empty.
Qed.

(** A trie that differs from [t] in the entry of [c] only. *)
Lemma get_same_entry t t' d s :
  t_text t' d = t_text t d -> t_value t' d = t_value t d -> t_children t' d = t_children t d ->
  get t' (d :: s) = get t (d :: s).
Proof. destruct t, t'; simpl. by intros -> -> ->. Qed.

Lemma app_decide_eq (q s t : cstr) (A : Type) (x y : A) :
  (if decide (q ++ s = q ++ t) then x else y) = (if decide (s = t) then x else y).
Proof.
  destruct (decide (s = t)) as [->|Hne]; [by rewrite decide_True|].
  rewrite decide_False; [done|]. by intros ?%app_inv_head.
Qed.

(** The new node below a split entry. *)
Lemma split_node_get n d p child val n' v r :
  no_nul (d :: p) -> no_nul n' -> deref n' <> d -> n = trieInsert_new n' (Some v) ->
  get (mkTrie (upd (t_children n) d child) (upd (t_text n) d (Some (d :: p)))
         (upd (t_textlen n) d (length (d :: p))) (upd (t_value n) d val) (t_empty_value n)) r =
  if decide (r = n') then Some v
  else match elektraTrieStartsWith r (d :: p) with
       | Some _ => None
       | None => get_child child val (drop (length (d :: p)) r)
       end.
Proof.
  intros Hp Hn' Hd ->. pose proof (trieInsert_new_spec n' v Hn') as [_ Hget].
  set (n := trieInsert_new n' (Some v)) in *. set (n2 := mkTrie _ _ _ _ _).
  assert (t_text n2 d = Some (d :: p)) as Ht by (unfold n2; simpl; by rewrite upd_same).
  destruct r as [|e r].
  - specialize (Hget []). rewrite get_nil in Hget. unfold n2. simpl. rewrite Hget.
    destruct (decide ([] = n')); [done|]. rewrite decide_False; [done|].
    inversion Hp; subst. congruence.
  - destruct (decide (e = d)) as [->|He].
    + rewrite decide_False by (by intros <-).
      destruct (elektraTrieStartsWith (d :: r) (d :: p)) eqn:E.
      * apply get_mismatch with (d :: p); [done..|]. intros r' Hr.
        assert (elektraTrieStartsWith (d :: r) (d :: p) = None)
          by (apply StartsWith_None; eauto). congruence.
      * apply StartsWith_None in E as [r' ->]; [|done].
        rewrite (get_entry n2 d (d :: p)) by eauto. rewrite drop_app_length.
        unfold n2, get_child. simpl. by rewrite !upd_same.
    + rewrite (get_same_entry n n2) by (unfold n2; simpl; by rewrite upd_other).
      rewrite Hget. simpl. rewrite (decide_False (P := d = e)) by congruence. done.
Qed.

Lemma split_entry_spec t c tx p name v :
  wf t -> t_text t c = Some tx -> deref name = c -> no_nul name -> name <> [] ->
  elektraTrieStartsWith name tx = Some p ->
  wf (split_entry t c tx p name (Some v)) /\
  forall s, get (split_entry t c tx p name (Some v)) s = if decide (s = name) then Some v else get t s.
Proof.
  intros Hwf Ht Hc Hn Hne Hs. pose proof (wf_inv _ Hwf) as [H1 H2].
  pose proof (H1 c) as Hcx. rewrite Ht in Hcx. destruct Hcx as ((tx' & Etx) & Hntx & Hlen).
  apply StartsWith_Some in Hs as (q & n' & Eq & En & Hp & Hd); [|done].
  assert (exists q', q = c :: q') as [q' Eq'].
  { destruct q as [|x q']; simpl in *; [|exists q'; congruence].
    exfalso. apply Hd. rewrite <- En, Hc, <- Eq, Etx. done. }
  destruct p as [|d p]; [done|]. simpl in Hd.
  rewrite Eq in Hntx. apply no_nul_app in Hntx as [Hq Hdp].
  rewrite En in Hn. apply no_nul_app in Hn as [_ Hn'].
  pose proof (trieInsert_new_spec n' v Hn') as [Hwfn _].
  unfold split_entry. cbv zeta.
  assert (length tx - length (d :: p) = length q) as Eoff by (rewrite Eq, length_app; lia).
  rewrite Eoff. assert (take (length q) tx = q) as -> by (rewrite Eq; by rewrite take_app_length).
  assert (drop (length q) name = n') as -> by (rewrite En; by rewrite drop_app_length).
  cbn [deref]. set (n2 := mkTrie (upd (t_children (trieInsert_new n' (Some v))) _ _) _ _ _ _).
  set (t' := mkTrie _ _ _ _ _). split.
  - constructor.
    + intros e. unfold t'. simpl. destruct (decide (e = c)) as [->|He].
      * rewrite !upd_same. split_and!; [by exists q'|done|done].
      * rewrite !upd_other by done. apply H1.
    + intros e ch. unfold t'. simpl. destruct (decide (e = c)) as [->|He].
      * rewrite upd_same. intros [= <-]. apply wf_inv in Hwfn as [N1 N2]. constructor.
        -- intros e. unfold n2. simpl. destruct (decide (e = d)) as [->|He].
           ++ rewrite !upd_same. split_and!; [eauto|done|done].
           ++ rewrite !upd_other by done. apply N1.
        -- intros e ch. unfold n2. simpl. destruct (decide (e = d)) as [->|He].
           ++ rewrite upd_same. apply H2.
           ++ rewrite upd_other by done. apply N2.
      * rewrite upd_other by done. apply H2.
  - intros s. assert (t_text t' c = Some q) as Ht' by (unfold t'; simpl; by rewrite upd_same).
    destruct s as [|e s].
    { rewrite decide_False by (by intros <-). by rewrite !get_nil. }
    destruct (decide (e = c)) as [->|He].
    2:{ rewrite decide_False by (intros E; rewrite <- E in Hc; simpl in Hc; congruence).
        apply get_same_entry; unfold t'; simpl; by rewrite upd_other. }
    destruct (elektraTrieStartsWith (c :: s) q) as [m|] eqn:E.
    + assert (forall r, c :: s <> q ++ r) as Hno.
      { intros r Hr. assert (elektraTrieStartsWith (c :: s) q = None)
          by (apply StartsWith_None; eauto). congruence. }
      rewrite (get_mismatch t' c q) by done. rewrite decide_False by (rewrite En; apply Hno).
      symmetry. apply get_mismatch with tx; [done|rewrite Eq; by apply no_nul_app|].
      intros r. rewrite Eq, <- app_assoc. apply Hno.
    + apply StartsWith_None in E as [r Er]; [|done]. rewrite Er.
      rewrite (get_entry t' c q) by eauto. rewrite En, app_decide_eq.
      unfold t', get_child. simpl. rewrite !upd_same.
      unfold n2. rewrite (split_node_get _ d p (t_children t c) (t_value t c) n' v r) by done.
      destruct (decide (r = n')); [done|].
      destruct (elektraTrieStartsWith r (d :: p)) as [m|] eqn:E.
      * assert (get t (q ++ r) = None) as ->.
        { rewrite <- Er. apply get_mismatch with tx; [done|rewrite Eq; by apply no_nul_app|].
          intros r' Hr'. rewrite Er, Eq, <- app_assoc in Hr'. apply app_inv_head in Hr'.
          assert (elektraTrieStartsWith r (d :: p) = None) by (apply StartsWith_None; eauto).
          congruence. }
        by destruct (decide (r = [])).
      * apply StartsWith_None in E as [r' ->]; [|done]. rewrite drop_app_length.
        rewrite app_assoc, <- Eq. rewrite (get_entry t c tx) by (eauto; rewrite Eq; by apply no_nul_app).
        destruct (get_child (t_children t c) (t_value t c) r'); [done|].
        by destruct (decide (_ = [])).
Qed.

(** Inserting updates the map. *)
Lemma trieInsert_node_spec t :
  wf t -> forall name v, no_nul name ->
  wf (trieInsert_node t name (Some v)) /\
  forall s, get (trieInsert_node t name (Some v)) s = if decide (s = name) then Some v else get t s.
Proof.
  induction 1 as [t H1 H2 IH]. intros name v Hn.
  assert (wf t) as Hwf by by constructor.
  destruct name as [|c name].
  { destruct t as [ch te tl va em]. simpl. split; [by apply wf_inv in Hwf as [? ?]; constructor|].
    by intros [|d s]. }
  assert (strcmp [] (c :: name) <> 0%Z) as Hcmp by (by rewrite strcmp_nil_l).
  pose proof (H1 c) as Hc. destruct (t_text t c) as [tx|] eqn:Ht.
  - destruct Hc as ((tx' & Etx) & Hntx & Hlen).
    destruct (elektraTrieStartsWith (c :: name) tx) as [p|] eqn:Es.
    + assert (trieInsert_node t (c :: name) (Some v) = split_entry t c tx p (c :: name) (Some v)) as ->.
      { destruct t as [ch te tl va em]. cbn [trieInsert_node]. simpl in Ht.
        rewrite bool_decide_false by done. cbn [deref]. rewrite Ht. cbn iota beta. by rewrite Es. }
      by apply split_entry_spec.
    + pose proof Es as Es'. apply StartsWith_None in Es' as [rest Er]; [|done].
      assert (no_nul rest) as Hrest by (rewrite Er in Hn; by apply no_nul_app in Hn as [_ ?]).
      set (child := match t_children t c with
                    | None => trieInsert_new rest (Some v)
                    | Some ch => trieInsert_node ch rest (Some v) end).
      assert (trieInsert_node t (c :: name) (Some v) =
              set_children t (upd (t_children t) c (Some child))) as ->.
      { destruct t as [ch te tl va em]. cbn [trieInsert_node]. simpl in Ht, Hlen.
        rewrite bool_decide_false by done. cbn [deref]. rewrite Ht. cbn iota beta.
        rewrite Es, Hlen, Er, drop_app_length. done. }
      assert (wf child /\ forall s, get child s =
                if decide (s = rest) then Some v
                else match t_children t c with Some ch => get ch s | None => None end) as [Hwc Hgc].
      { unfold child. destruct (t_children t c) as [ch|] eqn:Ech.
        - apply IH with c; done.
        - by apply trieInsert_new_spec. }
      split.
      * constructor.
        { intros e. simpl. specialize (H1 e). destruct (decide (e = c)) as [->|He].
          - by rewrite Ht in *.
          - by rewrite upd_other. }
        intros e ch. simpl. destruct (decide (e = c)) as [->|He].
        -- rewrite upd_same. by intros [= <-].
        -- rewrite upd_other by done. apply H2.
      * set (t' := set_children _ _).
        intros s. destruct s as [|e s]; [rewrite decide_False by done; by rewrite !get_nil|].
        destruct (decide (e = c)) as [->|He].
        2:{ rewrite decide_False by congruence.
            apply get_same_entry; unfold t'; simpl; by rewrite ?upd_other. }
        destruct (elektraTrieStartsWith (c :: s) tx) as [m|] eqn:E.
        -- assert (forall r, c :: s <> tx ++ r) as Hno.
           { intros r Hr. assert (elektraTrieStartsWith (c :: s) tx = None)
               by (apply StartsWith_None; eauto). congruence. }
           rewrite !(get_mismatch _ c tx) by done. rewrite decide_False; [done|].
           rewrite Er. apply Hno.
        -- apply StartsWith_None in E as [r E]; [|done]. rewrite E, Er, app_decide_eq.
           rewrite !(get_entry _ c tx) by eauto. unfold get_child, t'. simpl.
           rewrite upd_same, Hgc. destruct (decide (r = rest)); [done|]. done.
  - destruct Hc as [Hch Hval].
    assert (trieInsert_node t (c :: name) (Some v) = add_entry t (c :: name) (Some v)) as ->.
    { destruct t as [ch te tl va em]. cbn [trieInsert_node]. simpl in Ht.
      rewrite bool_decide_false by done. cbn [deref]. by rewrite Ht. }
    split; [by apply add_entry_wf|]. intros s. by apply add_entry_get.
Qed.

(** ** Lookup *)

(** [r] is the value of the longest prefix of [s] that [m] maps. *)
Definition is_longest (m : cstr -> option Backend) (s : cstr) (r : option Backend) : Prop :=
  match r with
  | Some v => exists p q, s = p ++ q /\ m p = Some v /\
                forall p' q', s = p' ++ q' -> length p < length p' -> m p' = None
  | None => forall p q, s = p ++ q -> m p = None
  end.

(** Only the empty prefix is mapped. *)
Lemma longest_empty t s :
  (forall c p q, s = (c :: p) ++ q -> get t (c :: p) = None) -> is_longest (get t) s (t_empty_value t).
Proof.
  intros H. unfold is_longest. destruct (t_empty_value t) as [v|] eqn:Ev.
  - exists [], s. split_and!; [done|by rewrite get_nil|]. intros [|c p'] q' Hs Hl; [simpl in Hl; lia|].
    by eapply H.
  - intros [|c p] q Hs; [by rewrite get_nil|]. by eapply H.
Qed.

(** Two prefixes of the same string. *)
Lemma prefix_cases (p q tx r : cstr) :
  p ++ q = tx ++ r -> (exists x, p = tx ++ x /\ r = x ++ q) \/ (forall x, p <> tx ++ x).
Proof.
  revert p. induction tx as [|c tx IH]; intros p H; [left; by exists p|].
  destruct p as [|d p]; simpl in *.
  - right. by intros x.
  - injection H as -> H. destruct (IH p H) as [(x & -> & ->)|Hno]; [left; by exists x|].
    right. intros x [= ->]. by apply (Hno x).
Qed.

Lemma prefixLookup_node_spec t :
  wf t -> forall s, no_nul s -> is_longest (get t) s (prefixLookup_node t s).
Proof.
  induction 1 as [t H1 H2 IH]. intros s Hs.
  assert (wf t) as Hwf by by constructor.
  pose proof (H1 (deref s)) as Hc. destruct (t_text t (deref s)) as [tx|] eqn:Ht.
  - destruct Hc as ((tx' & Etx) & Hntx & Hlen).
    destruct (elektraTrieStartsWith s tx) as [m|] eqn:Es.
    + assert (prefixLookup_node t s = t_empty_value t) as ->.
      { destruct t as [ch te tl va em]. simpl in *. by rewrite Ht, Es. }
      apply longest_empty. intros c p q ->. simpl in *. apply get_mismatch with tx; [done..|].
      intros r Hr. assert (elektraTrieStartsWith (c :: p ++ q) tx = None) as H.
      { apply StartsWith_None; [done|]. exists (r ++ q). rewrite app_assoc, <- Hr. done. }
      congruence.
    + apply StartsWith_None in Es as Es'; [|done]. destruct Es' as [rest Er].
      assert (no_nul rest) as Hrest by (rewrite Er in Hs; by apply no_nul_app in Hs as [_ ?]).
      set (below := match t_children t (deref s) with Some ch => prefixLookup_node ch rest | None => None end).
      assert (prefixLookup_node t s =
        match below with Some v => Some v
        | None => match t_value t (deref s) with Some v => Some v | None => t_empty_value t end end) as ->.
      { unfold below. destruct t as [ch te tl va em]. cbn [prefixLookup_node]. simpl in Ht, Hlen. simpl.
        assert (drop (length tx) s = rest) as Hdrop by (rewrite Er; apply drop_app_length).
        rewrite Ht, Es, Hlen, Hdrop. destruct (ch (deref s)) as [x|]; [|by destruct (va (deref s))].
        destruct (prefixLookup_node x rest); [done|]. by destruct (va (deref s)). }
      assert (is_longest (fun r => match t_children t (deref s) with Some ch => get ch r | None => None end)
                rest below) as Hb.
      { unfold below. destruct (t_children t (deref s)) as [ch|] eqn:Ech; [|done].
        by apply (IH (deref s)). }
      assert (forall x, get t (tx ++ x) = get_child (t_children t (deref s)) (t_value t (deref s)) x) as Hget
        by (intros x; apply get_entry; eauto).
      assert (forall c p q, s = (c :: p) ++ q -> (forall x, c :: p <> tx ++ x) -> get t (c :: p) = None) as Hmis.
      { intros c p q E Hno. apply get_mismatch with tx; [|done|done]. by rewrite E in Ht. }
      destruct below as [v|].
      * destruct Hb as (p & q & Hpq & Hp & Hmax). exists (tx ++ p), q. split_and!.
        -- by rewrite <- app_assoc, <- Hpq.
        -- rewrite Hget. unfold get_child. by rewrite Hp.
        -- intros p' q' Hp' Hl. destruct (prefix_cases p' q' tx rest) as [(x & -> & Hx)|Hno]; [congruence| |].
           ++ rewrite Hget. unfold get_child. rewrite !length_app in Hl.
              rewrite (Hmax x q') by (done || lia). destruct (decide (x = [])); [subst; simpl in Hl; lia|done].
           ++ destruct p' as [|c p']; [rewrite Etx in Hl; simpl in Hl; lia|]. by eapply Hmis.
      * assert (forall x q, rest = x ++ q -> x <> [] -> get t (tx ++ x) = None) as Hnone.
        { intros x q Hx Hne. rewrite Hget. unfold get_child. by rewrite (Hb x q), decide_False. }
        destruct (t_value t (deref s)) as [v|] eqn:Ev.
        -- exists tx, rest. split_and!; [done| |].
           ++ rewrite <- (app_nil_r tx) at 1. rewrite Hget. unfold get_child.
              by rewrite (Hb [] rest), decide_True.
           ++ intros p' q' Hp' Hl. destruct (prefix_cases p' q' tx rest) as [(x & -> & Hx)|Hno]; [congruence| |].
              ** apply Hnone with q'; [done|]. intros ->. rewrite app_nil_r in Hl. lia.
              ** destruct p' as [|c p']; [rewrite Etx in Hl; simpl in Hl; lia|]. by eapply Hmis.
        -- apply longest_empty. intros c p q E.
           destruct (prefix_cases (c :: p) q tx rest) as [(x & -> & Hx)|Hno]; [congruence| |by eapply Hmis].
           destruct x as [|y x]; [|by eapply Hnone].
           rewrite Hget. unfold get_child. by rewrite (Hb [] rest), decide_True.
  - assert (prefixLookup_node t s = t_empty_value t) as ->.
    { destruct t as [ch te tl va em]. simpl in *. by rewrite Ht. }
    apply longest_empty. intros c p q ->. by apply get_none.
Qed.

(** Every mounted backend is closed. *)
Lemma all_chars_complete c : In c all_chars.
Proof.
  apply list_elem_of_In. unfold all_chars. apply list_elem_of_fmap. exists (nat_of_ascii c).
  split; [symmetry; apply ascii_nat_embedding|]. apply elem_of_seq.
  pose proof (nat_ascii_bounded c). lia.
Qed.

Lemma trieClose_node_complete t :
  wf t -> forall s v, get t s = Some v -> In v (trieClose_node t).
Proof.
  induction 1 as [t H1 H2 IH]. intros s v Hg.
  destruct s as [|c s].
  - rewrite get_nil in Hg. destruct t as [ch te tl va em]. simpl in *. subst em.
    apply in_app_iff. right. by left.
  - destruct t as [ch te tl va em]. cbn [trieClose_node]. apply in_app_iff. left.
    apply in_flat_map. exists c. split; [apply all_chars_complete|]. cbn [get] in Hg.
    destruct (te c) as [tx|]; [|done]. destruct (elektraTrieStartsWith (c :: s) tx); [done|].
    apply in_app_iff. simpl in IH. destruct (ch c) as [x|] eqn:Ex.
    + destruct (get x (drop (length tx) (c :: s))) as [w|] eqn:Ew.
      * left. simplify_eq. by eapply IH.
      * right. case_decide; [|done]. rewrite Hg. by left.
    + right. case_decide; [|done]. rewrite Hg. by left.
Qed.

(** ** The contracts *)

(** The map of a trie that may be NULL. *)
Definition trie_map (t : option Trie) (s : cstr) : option Backend :=
  match t with None => None | Some t => get t s end.
Definition trie_ok (t : option Trie) : Prop := match t with None => True | Some t => wf t end.

(** C34.  [trieInsert] updates the map from mountpoints to backends: the inserted name
    has the new backend, every other name keeps its own, whether the entry is
    new, replaces one, extends one or splits one; a NULL trie is the empty map. *)
Theorem trieInsert_updates t name v :
  trie_ok t -> no_nul name ->
  wf (trieInsert t (Some name) (Some v)) /\
  forall s, get (trieInsert t (Some name) (Some v)) s = if decide (s = name) then Some v else trie_map t s.
Proof.
  intros Ht Hn. destruct t as [t|]; simpl; [by apply trieInsert_node_spec|by apply trieInsert_new_spec].
Qed.

(** [trieLookup] returns the backend of the longest mountpoint that is a prefix
    of the name with a slash at its end, and NULL when no mountpoint is. *)
Theorem trieLookup_longest t name :
  trie_ok t -> no_nul name -> is_longest (trie_map t) (name ++ [SLASH]) (trieLookup t (Some name)).
Proof.
  intros Ht Hn. destruct t as [t|]; simpl; [|done]. apply prefixLookup_node_spec; [done|].
  apply no_nul_app_2; [done|]. by repeat constructor.
Qed.

(** [trieClose] closes the backend of every mountpoint. *)
Theorem trieClose_closes_all t s v : trie_ok t -> trie_map t s = Some v -> In v (trieClose t).
Proof. destruct t as [t|]; [|done]. simpl. intros Ht Hg. by eapply trieClose_node_complete. Qed.
End Trie.
Arguments Trie : clear implicits.
