(* ===== verification/KdbState.v ===== *)
(** * KdbState: plugins, backends, splits and handles

    The structs [_Plugin], [_Backend], [_Split] and [_KDB] of
    [src/src/include/kdbprivate.h], the memory they live in and the state monad of
    the code that works on them.  The functions of the plugins are parameters:
    they change keys, keysets and a state of their own.  Every call of such a
    function is recorded in the trace of the state with the slot it was called
    from, so that theorems can speak about which plugins were called when. *)
From S2P Require Export Env Trie KeyTest Proposal.

Definition NR_OF_PLUGINS : nat := 10.
Definition COMMIT_PLUGIN : nat := 7.
Definition STORAGE_PLUGIN : nat := 5.
Definition RESOLVER_PLUGIN : nat := 0.
Definition APPROXIMATE_NR_OF_BACKENDS : nat := 16.

Definition SPLIT_FLAG_SYNC : Z := 1.
Definition SPLIT_FLAG_CASCADING : Z := 2.

(** The positions of global plugins. *)
Inductive GlobalpluginPositions :=
| PREROLLBACK | POSTROLLBACK | PREGETSTORAGE | POSTGETSTORAGE | POSTGETCLEANUP
| PRESETSTORAGE | PRESETCLEANUP | PRECOMMIT | POSTCOMMIT.

#[global] Instance GlobalpluginPositions_eq_dec : EqDecision GlobalpluginPositions.
Proof. solve_decision. Defined.

Definition global_positions : list GlobalpluginPositions :=
  [PREROLLBACK; POSTROLLBACK; PREGETSTORAGE; POSTGETSTORAGE; POSTGETCLEANUP;
   PRESETSTORAGE; PRESETCLEANUP; PRECOMMIT; POSTCOMMIT].

(** ** The structs *)

(** A function pointer of a plugin: one of [plugin.c] or of a loaded module. *)
Inductive plugin_fn :=
| elektraMissingGet | elektraMissingSet | elektraVersionGet | elektraVersionSet
| module_fn (id : positive).

#[global] Instance plugin_fn_eq_dec : EqDecision plugin_fn.
Proof. solve_decision. Defined.

Record Plugin := mkPlugin {
  p_config : ptr;
  p_kdbOpen : option plugin_fn;
  p_kdbClose : option plugin_fn;
  p_kdbGet : option plugin_fn;
  p_kdbSet : option plugin_fn;
  p_kdbError : option plugin_fn;
  p_name : cstr;
  p_refcounter : Z
}.

(** The slots are arrays of [NR_OF_PLUGINS] pointers. *)
Record Backend := mkBackend {
  b_mountpoint : ptr;
  b_setplugins : list ptr;
  b_getplugins : list ptr;
  b_errorplugins : list ptr;
  b_specsize : Z;
  b_dirsize : Z;
  b_usersize : Z;
  b_systemsize : Z;
  b_refcounter : Z
}.

(** The four arrays of [struct _Split] have one cell each for a part. *)
Record Part := mkPart {
  part_keyset : ptr;
  part_handle : ptr;
  part_parent : ptr;
  part_syncbits : Z
}.

(** [size] is the length of the list; cells between [size] and [alloc] are
    never read. *)
Record Split := mkSplit { sp_parts : list Part; sp_alloc : nat }.

Definition sp_size (s : Split) : nat := length (sp_parts s).

Record KDB := mkKDB {
  kdb_trie : option (@Trie loc);
  kdb_split : ptr;
  kdb_modules : ptr;
  kdb_defaultBackend : ptr;
  kdb_initBackend : ptr;
  kdb_globalPlugins : GlobalpluginPositions -> ptr
}.

(** ** Code outside of the core *)

(** Where a function of a plugin was called from. *)
Inductive place :=
| GetSlot (p : nat) | SetSlot (p : nat) | ErrorSlot (p : nat)
| Global (g : GlobalpluginPositions)
| Opening | Closing.

#[global] Instance place_eq_dec : EqDecision place.
Proof. solve_decision. Defined.

Record event := mkEvent { ev_place : place; ev_plugin : loc; ev_keyset : ptr; ev_ret : Z }.

(** [module_run] runs a function of a loaded module; [module_load] is
    [elektraModulesLoad] and the call of the factory it returns: [None] when the
    module is not found, [Some None] when the factory returns NULL.
    [set_error] and [add_warning] stand for [ELEKTRA_SET_ERROR] and
    [ELEKTRA_ADD_WARNING] of the generated [kdberrors.h]: number, key and
    the strings in the message.  [version_KeySet] is the generated [elektraVersionKeySet] and
    the last three are strings of the generated [kdbconfig.h] and a macro that a
    build may define. *)
Class Modules := {
  module_state : Type;
  module_run : positive -> loc -> ptr -> ptr -> module_state -> M (Z * module_state);
  module_load : cstr -> ptr -> ptr -> M (option (option Plugin));
  modules_init : ptr -> ptr -> M Z;
  modules_close : ptr -> ptr -> M unit;
  set_error : Z -> ptr -> list cstr -> M unit;
  add_warning : Z -> ptr -> list cstr -> M unit;
  version_KeySet : M ptr;
  KDB_DB_FILE : cstr;
  KDB_DB_INIT : cstr;
  ENABLE_TRACER : bool
}.

Definition KDB_RESOLVER : cstr := lit "resolver".
Definition KDB_STORAGE : cstr := lit "storage".
Definition KDB_SYSTEM_ELEKTRA : cstr := lit "system/elektra".

(** ** The state and its monad *)

Section State.
Context {MD : Modules}.

Record kstate := mkState {
  st_heap : heap;
  st_plugins : gmap loc Plugin;
  st_backends : gmap loc Backend;
  st_splits : gmap loc Split;
  st_kdbs : gmap loc KDB;
  st_modules : module_state;
  st_trace : list event
}.

Inductive koutcome (A : Type) : Type :=
| KRet (a : A) (s : kstate)
| KUndefined
| KNoFuel.
Arguments KRet {A} a s.
Arguments KUndefined {A}.
Arguments KNoFuel {A}.

Definition KM (A : Type) : Type := kstate -> koutcome A.

Definition kret {A} (a : A) : KM A := fun s => KRet a s.
Definition kundefined {A} : KM A := fun _ => KUndefined.
Definition knofuel {A} : KM A := fun _ => KNoFuel.
Definition kbind {A B} (m : KM A) (f : A -> KM B) : KM B :=
  fun s => match m s with KRet a s' => f a s' | KUndefined => KUndefined | KNoFuel => KNoFuel end.

Definition with_heap (s : kstate) (h : heap) : kstate :=
  mkState h (st_plugins s) (st_backends s) (st_splits s) (st_kdbs s) (st_modules s) (st_trace s).

(** A computation on keys and keysets. *)
Definition lift {A} (m : M A) : KM A :=
  fun s => match m (st_heap s) with
           | Ret a h => KRet a (with_heap s h)
           | Undefined => KUndefined
           | NoFuel => KNoFuel
           end.

(** ** Memory *)

Definition deref_in {V} (m : kstate -> gmap loc V) (p : ptr) : KM V :=
  fun s => match p with
           | Some l => match m s !! l with Some v => KRet v s | None => KUndefined end
           | None => KUndefined
           end.

Definition get_plugin : ptr -> KM Plugin := deref_in st_plugins.
Definition get_backend : ptr -> KM Backend := deref_in st_backends.
Definition get_split : ptr -> KM Split := deref_in st_splits.
Definition get_kdb : ptr -> KM KDB := deref_in st_kdbs.

Definition set_plugins (s : kstate) x := mkState (st_heap s) x (st_backends s) (st_splits s) (st_kdbs s) (st_modules s) (st_trace s).
Definition set_backends (s : kstate) x := mkState (st_heap s) (st_plugins s) x (st_splits s) (st_kdbs s) (st_modules s) (st_trace s).
Definition set_splits (s : kstate) x := mkState (st_heap s) (st_plugins s) (st_backends s) x (st_kdbs s) (st_modules s) (st_trace s).
Definition set_kdbs (s : kstate) x := mkState (st_heap s) (st_plugins s) (st_backends s) (st_splits s) x (st_modules s) (st_trace s).

(** [*p = v]; the address must be allocated. *)
Definition store {V} (m : kstate -> gmap loc V) (upd : kstate -> gmap loc V -> kstate) (p : ptr) (v : V) : KM unit :=
  fun s => match p with
           | Some l => match m s !! l with Some _ => KRet tt (upd s (<[l := v]> (m s))) | None => KUndefined end
           | None => KUndefined
           end.

Definition put_plugin : ptr -> Plugin -> KM unit := store st_plugins set_plugins.
Definition put_backend : ptr -> Backend -> KM unit := store st_backends set_backends.
Definition put_split : ptr -> Split -> KM unit := store st_splits set_splits.
Definition put_kdb : ptr -> KDB -> KM unit := store st_kdbs set_kdbs.

Definition alloc {V} (m : kstate -> gmap loc V) (upd : kstate -> gmap loc V -> kstate) (v : V) : KM loc :=
  fun s => let l := fresh_loc (m s) in KRet l (upd s (<[l := v]> (m s))).
Definition alloc_plugin : Plugin -> KM loc := alloc st_plugins set_plugins.
Definition alloc_backend : Backend -> KM loc := alloc st_backends set_backends.
Definition alloc_split : Split -> KM loc := alloc st_splits set_splits.
Definition alloc_kdb : KDB -> KM loc := alloc st_kdbs set_kdbs.

Definition release {V} (m : kstate -> gmap loc V) (upd : kstate -> gmap loc V -> kstate) (p : ptr) : KM unit :=
  fun s => match p with
           | Some l => match m s !! l with Some _ => KRet tt (upd s (delete l (m s))) | None => KUndefined end
           | None => KUndefined
           end.
Definition free_plugin : ptr -> KM unit := release st_plugins set_plugins.
Definition free_backend : ptr -> KM unit := release st_backends set_backends.
Definition free_split : ptr -> KM unit := release st_splits set_splits.
Definition free_kdb : ptr -> KM unit := release st_kdbs set_kdbs.
End State.

Arguments KRet {MD A} a s.
Arguments KUndefined {MD A}.
Arguments KNoFuel {MD A}.

Declare Scope kdb_scope.
Delimit Scope kdb_scope with kdb.
Notation "x <- e ;; k" := (kbind e (fun x => k))
  (at level 100, e at next level, right associativity) : kdb_scope.
Notation "'let*' p := e 'in' k" := (kbind e (fun x => match x with p => k end))
  (at level 100, p strict pattern, e at level 99, k at level 100, right associativity)
  : kdb_scope.
Notation "e ;; k" := (kbind e (fun _ => k))
  (at level 100, right associativity) : kdb_scope.

(** [for (x in l) f x], where [f] may leave the loop with a result. *)
Fixpoint kfor {MD : Modules} {A B} (l : list A) (f : A -> KM (option B)) : KM (option B) :=
  match l with
  | [] => kret None
  | x :: r => kbind (f x) (fun b => match b with Some _ => kret b | None => kfor r f end)
  end.

Fixpoint kforM {MD : Modules} {A} (l : list A) (f : A -> KM unit) : KM unit :=
  match l with [] => kret tt | x :: r => kbind (f x) (fun _ => kforM r f) end.

(** [for (x in l) f x] with a state, where [f] may leave the loop with [inr]. *)
Fixpoint kfold {MD : Modules} {A S B} (l : list A) (f : S -> A -> KM (S + B)) (s : S) : KM (S + B) :=
  match l with
  | [] => kret (inl s)
  | x :: r => kbind (f s x) (fun t => match t with inl s' => kfold r f s' | inr b => kret (inr b) end)
  end.

(** A loop with a state and a bound on its turns. *)
Fixpoint kloop {MD : Modules} {A B} (fuel : nat) (body : A -> KM (A + B)) (a : A) : KM B :=
  match fuel with
  | O => knofuel
  | S n => kbind (body a) (fun r => match r with inl a' => kloop n body a' | inr b => kret b end)
  end.

(** [while ((cur = ksNext (ks)) != 0)] with the turns of [ks_turns]. *)
Definition kdb_ks_loop {MD : Modules} {B} (ks : ptr) (body : loc -> KM (option B)) : KM (option B) :=
  kbind (lift (ks_turns ks)) (fun fuel =>
    kloop fuel (fun _ : unit =>
      kbind (lift (ksNext ks)) (fun cur =>
        match cur with
        | None => kret (inr None)
        | Some c => kbind (body c) (fun r => kret (match r with Some b => inr (Some b) | None => inl tt end))
        end)) tt).
