(* ===== verification/Plugin.v ===== *)
(** * Plugin: opening, closing and calling plugins

    [libs/elektra/plugin.c] and [elektraPluginExport] of [libs/plugin/plugin.c].
    [call_plugin] runs a function pointer of a plugin and records the call. *)
From S2P Require Export KdbState.
#[local] Open Scope kdb_scope.

(** ** Names of plugins in the configuration

    [elektraProcessPlugin] on the base name [fullname] of a key: an error with
    the number of its warning, or the slot and what its name says.  [None] is
    undefined behaviour: the scan for the second [#] leaves the name. *)
Record processed := mkProcessed {
  pr_number : nat;
  pr_pluginName : option cstr;
  pr_referenceName : option cstr;
  pr_ret : Z
}.

Definition prefixReferenceName : cstr := lit "system/elektra/plugins/".

(** [while ( *iter != '#') ++iter;] : the characters passed and [iter]. *)
Fixpoint until_hash (iter : cstr) : option (cstr * cstr) :=
  match iter with
  | [] => None
  | c :: r =>
      if decide (c = "#"%char) then Some ([], iter)
      else '(passed, iter) ← until_hash r; Some (c :: passed, iter)
  end.

Definition isdigit_char (c : ascii) : bool := ((48 <=? uchar c) && (uchar c <=? 57))%Z.

Definition elektraProcessPlugin (fullname : cstr) : option (Z + processed) :=
  if decide (deref fullname <> "#"%char) then Some (inl 18%Z)
  else if negb (isdigit_char (deref (drop 1 fullname))) then Some (inl 19%Z)
  else
    let pluginNumber := Z.to_nat (uchar (deref (drop 1 fullname)) - 48) in
    if NR_OF_PLUGINS <? pluginNumber then Some (inl 20%Z)
    else if decide (deref (drop 2 fullname) = "#"%char) then
      if decide (last fullname = Some "#"%char) then
        '(pluginName, iter) ← until_hash (drop 3 fullname);
        let iter := drop 1 iter in
        (* the NUL is written at referenceNameSize + sizeof (prefix) - 2 *)
        let referenceName := take (length iter + (length prefixReferenceName - 1)) (prefixReferenceName ++ iter) in
        Some (inr (mkProcessed pluginNumber (Some pluginName) (Some referenceName) 3))
      else Some (inr (mkProcessed pluginNumber None (Some (prefixReferenceName ++ drop 3 fullname)) 2))
    else Some (inr (mkProcessed pluginNumber (Some (drop 2 fullname)) None 1)).

(** ** Pointers stored in keys *)

Fixpoint le_bytes (n : nat) (z : Z) : list ascii :=
  match n with O => [] | S n => ascii_of_N (Z.to_N (z mod 256)) :: le_bytes n (z / 256) end.
Fixpoint of_le_bytes (l : list ascii) : Z :=
  match l with [] => 0 | c :: r => uchar c + 256 * of_le_bytes r end%Z.

(** The bytes of a pointer to a plugin. *)
Definition ptr_bytes (p : loc) : list ascii := le_bytes 8 (Zpos p).
Definition bytes_ptr (l : list ascii) : ptr :=
  match of_le_bytes l with Zpos p => Some p | _ => None end.

Section Plugin.
Context {E : Env} {MD : Modules}.

(** The value of a [size_t]. *)
Definition size_t (n : Z) : Z := (n mod 2 ^ 64)%Z.

Definition with_refcounter (p : Plugin) (n : Z) : Plugin :=
  mkPlugin (p_config p) (p_kdbOpen p) (p_kdbClose p) (p_kdbGet p) (p_kdbSet p) (p_kdbError p) (p_name p) n.
Definition with_config (p : Plugin) (c : ptr) : Plugin :=
  mkPlugin c (p_kdbOpen p) (p_kdbClose p) (p_kdbGet p) (p_kdbSet p) (p_kdbError p) (p_name p) (p_refcounter p).

(** ** The plugins of the core *)

(** [ELEKTRA_SET_ERROR_READ_ONLY]: the keys of [returned] must be those of
    [info], with their values; [Some] is the early return. *)
Definition set_error_read_only (info returned error : ptr) : KM (option Z) :=
  lift (ksRewind info);;
  lift (ksRewind returned);;
  let fail names := lift (set_error 84 error names);; lift (ksDel info);; kret (Some (-1)%Z) in
  r <- kdb_ks_loop returned (fun k =>
    c <- lift (ksNext info);;
    n1 <- lift (keyName (Some k));;
    v1 <- lift (keyString (Some k));;
    match c with
    | None => fail [default [] n1; v1]
    | Some _ =>
        n2 <- lift (keyName c);;
        v2 <- lift (keyString c);;
        if bool_decide (strcmp (default [] n1) (default [] n2) <> 0%Z) || bool_decide (strcmp v1 v2 <> 0%Z)
        then fail [default [] n1; default [] n2; v1; v2]
        else kret None
    end);;
  match r with
  | Some _ => kret r
  | None =>
      k <- lift (ksNext info);;
      match k with
      | Some _ =>
          n <- lift (keyName k);;
          v <- lift (keyString k);;
          fail [default [] n; v]
      | None => lift (ksDel info);; kret None
      end
  end.

(** The body of a function pointer, without the record of the call. *)
Definition run_fn (fn : plugin_fn) (handle : loc) (ks parentKey : ptr) : KM Z :=
  match fn with
  | elektraMissingGet =>
      n <- lift (keyName parentKey);; lift (set_error 62 parentKey [default [] n]);; kret (-1)%Z
  | elektraMissingSet =>
      n <- lift (keyName parentKey);; lift (set_error 63 parentKey [default [] n]);; kret (-1)%Z
  | elektraVersionGet =>
      info <- lift version_KeySet;;
      lift (ksAppend ks info);;
      lift (ksDel info);;
      kret 1%Z
  | elektraVersionSet =>
      info <- lift version_KeySet;;
      r <- set_error_read_only info ks parentKey;;
      kret (default 0%Z r)
  | module_fn id =>
      fun s => match module_run id handle ks parentKey (st_modules s) (st_heap s) with
               | Ret (r, m) h =>
                   KRet r (mkState h (st_plugins s) (st_backends s) (st_splits s) (st_kdbs s) m (st_trace s))
               | Undefined => KUndefined
               | NoFuel => KNoFuel
               end
  end.

Definition record (e : event) : KM unit :=
  fun s => KRet tt (mkState (st_heap s) (st_plugins s) (st_backends s) (st_splits s) (st_kdbs s)
                      (st_modules s) (st_trace s ++ [e])).

(** [fn (handle, ks, parentKey)] called from [where]. *)
Definition call_plugin (where_ : place) (fn : plugin_fn) (handle : loc) (ks parentKey : ptr) : KM Z :=
  r <- run_fn fn handle ks parentKey;;
  record (mkEvent where_ handle ks r);;
  kret r.

(** ** plugin.c *)

Definition elektraPluginClose (handle : ptr) (errorKey : ptr) : KM Z :=
  match handle with
  | None => kret 0%Z
  | Some l =>
      p <- get_plugin handle;;
      let refcounter := size_t (p_refcounter p - 1) in
      put_plugin handle (with_refcounter p refcounter);;
      if (0 <? refcounter)%Z then kret 0%Z
      else
        rc <- match p_kdbClose p with
              | None => kret 0%Z
              | Some fn =>
                  rc <- call_plugin Closing fn l None errorKey;;
                  (if (rc =? -1)%Z then lift (add_warning 12 errorKey [lit "kdbClose() failed"]) else kret tt);;
                  kret rc
              end;;
        p <- get_plugin handle;;
        lift (ksDel (p_config p));;
        free_plugin handle;;
        kret rc
  end.

Definition elektraPluginOpen (name : option cstr) (modules config errorKey : ptr) : KM ptr :=
  let err_clup config := lift (ksDel config);; kret None in
  match name with
  | None | Some [] => lift (add_warning 39 errorKey [lit "name is null or empty"]);; err_clup config
  | Some nm =>
      if elektraOnlySlashes nm then
        lift (add_warning 39 errorKey [lit "name contained slashes only"]);; err_clup config
      else
        loaded <- lift (module_load nm modules errorKey);;
        match loaded with
        | None => err_clup config
        | Some None => lift (add_warning 6 errorKey [nm]);; err_clup config
        | Some (Some p) =>
            handle <- alloc_plugin (with_config (with_refcounter p 1) config);;
            match p_kdbOpen p with
            | None => kret (Some handle)
            | Some fn =>
                r <- call_plugin Opening fn handle None errorKey;;
                if (r =? -1)%Z then
                  lift (add_warning 11 errorKey [nm]);;
                  elektraPluginClose (Some handle) errorKey;;
                  err_clup None
                else kret (Some handle)
            end
        end
  end.

Definition elektraPluginMissing : KM ptr :=
  l <- alloc_plugin (mkPlugin None None None (Some elektraMissingGet) (Some elektraMissingSet) None (lit "missing") 0);;
  kret (Some l).

Definition elektraPluginVersion : KM ptr :=
  l <- alloc_plugin (mkPlugin None None None (Some elektraVersionGet) (Some elektraVersionSet) None (lit "version") 0);;
  kret (Some l).

(** ** The slots of a backend *)

Inductive slots := setplugins | getplugins | errorplugins.

Definition b_slots (b : Backend) (w : slots) : list ptr :=
  match w with setplugins => b_setplugins b | getplugins => b_getplugins b | errorplugins => b_errorplugins b end.

(** [backend->slots[i]] *)
Definition slot (b : Backend) (w : slots) (i : nat) : KM ptr :=
  match b_slots b w !! i with Some p => kret p | None => kundefined end.

Definition with_slots (b : Backend) (w : slots) (l : list ptr) : Backend :=
  mkBackend (b_mountpoint b) (if w is setplugins then l else b_setplugins b)
    (if w is getplugins then l else b_getplugins b) (if w is errorplugins then l else b_errorplugins b)
    (b_specsize b) (b_dirsize b) (b_usersize b) (b_systemsize b) (b_refcounter b).

Definition set_slot (backend : ptr) (w : slots) (i : nat) (p : ptr) : KM unit :=
  b <- get_backend backend;;
  if i <? length (b_slots b w) then put_backend backend (with_slots b w (<[i := p]> (b_slots b w)))
  else kundefined.

Definition increase_refcounter (p : ptr) : KM unit :=
  pl <- get_plugin p;; put_plugin p (with_refcounter pl (size_t (p_refcounter pl + 1))).

(** The turn of the loop of [elektraProcessPlugins] for a key directly below
    the root. *)
Definition process_key (backend : ptr) (w : slots) (modules referencePlugins config systemConfig errorKey : ptr)
    (cur : loc) : KM (option Z) :=
  let fail n names := lift (add_warning n errorKey names);; lift (ksDel config);; kret (Some (-1)%Z) in
  fullname <- lift (keyBaseName (Some cur));;
  match fullname with
  | None => kundefined
  | Some fullname =>
      match elektraProcessPlugin fullname with
      | None => kundefined
      | Some (inl n) => fail n [fullname]
      | Some (inr (mkProcessed number (Some pluginName) referenceName _)) =>
          key <- lift (keyDup (Some cur));;
          lift (keyAddBaseName key (Some (lit "config")));;
          cutConfig <- lift (ksCut config key);;
          lift (keyDel key);;
          pluginConfig <- lift (elektraRenameKeys cutConfig (lit "user"));;
          lift (ksDel cutConfig);;
          match pluginConfig with
          | None => kret (Some (-1)%Z)
          | Some _ =>
              lift (ksAppend pluginConfig systemConfig);;
              lift (ksRewind pluginConfig);;
              plugin <- elektraPluginOpen (Some pluginName) modules pluginConfig errorKey;;
              set_slot backend w number plugin;;
              match plugin with
              | None => fail 64%Z [pluginName]
              | Some l =>
                  match referenceName with
                  | None => kret None
                  | Some ref =>
                      k <- lift (keyNew (Some ref) [KEY_BINARY; KEY_SIZE 8; KEY_VALUE (Some (ptr_bytes l))]);;
                      lift (ksAppendKey referencePlugins (Some k));;
                      kret None
                  end
              end
          end
      | Some (inr (mkProcessed number None referenceName _)) =>
          let referenceName := default [] referenceName in
          key <- lift (keyNew (Some referenceName) []);;
          lookup <- lift (env_ksLookup referencePlugins (Some key) KDB_O_DEL);;
          match lookup with
          | None => fail 65%Z [referenceName]
          | Some _ =>
              v <- lift (keyValue lookup);;
              let plugin := bytes_ptr (default [] v) in
              set_slot backend w number plugin;;
              increase_refcounter plugin;;
              kret None
          end
      end
  end.

Definition elektraProcessPlugins (backend : ptr) (w : slots)
    (modules referencePlugins config systemConfig errorKey : ptr) : KM Z :=
  lift (ksRewind config);;
  root <- lift (ksNext config);;
  r <- kdb_ks_loop config (fun cur =>
    rel <- lift (keyRel root (Some cur));;
    if (rel =? 1)%Z then process_key backend w modules referencePlugins config systemConfig errorKey cur
    else
      v <- lift (keyString (Some cur));;
      lift (add_warning 21 errorKey [v]);;
      kret None);;
  match r with
  | Some rc => kret rc
  | None => lift (ksDel config);; kret 0%Z
  end.

(** ** libs/plugin: exporting a plugin *)

(** The arguments after the name, up to [ELEKTRA_PLUGIN_END]. *)
Inductive plugin_t :=
| ELEKTRA_PLUGIN_OPEN (f : plugin_fn) | ELEKTRA_PLUGIN_CLOSE (f : plugin_fn)
| ELEKTRA_PLUGIN_GET (f : plugin_fn) | ELEKTRA_PLUGIN_SET (f : plugin_fn)
| ELEKTRA_PLUGIN_ERROR (f : plugin_fn).

Definition export_step (p : Plugin) (a : plugin_t) : Plugin :=
  match a with
  | ELEKTRA_PLUGIN_OPEN f => mkPlugin (p_config p) (Some f) (p_kdbClose p) (p_kdbGet p) (p_kdbSet p) (p_kdbError p) (p_name p) (p_refcounter p)
  | ELEKTRA_PLUGIN_CLOSE f => mkPlugin (p_config p) (p_kdbOpen p) (Some f) (p_kdbGet p) (p_kdbSet p) (p_kdbError p) (p_name p) (p_refcounter p)
  | ELEKTRA_PLUGIN_GET f => mkPlugin (p_config p) (p_kdbOpen p) (p_kdbClose p) (Some f) (p_kdbSet p) (p_kdbError p) (p_name p) (p_refcounter p)
  | ELEKTRA_PLUGIN_SET f => mkPlugin (p_config p) (p_kdbOpen p) (p_kdbClose p) (p_kdbGet p) (Some f) (p_kdbError p) (p_name p) (p_refcounter p)
  | ELEKTRA_PLUGIN_ERROR f => mkPlugin (p_config p) (p_kdbOpen p) (p_kdbClose p) (p_kdbGet p) (p_kdbSet p) (Some f) (p_name p) (p_refcounter p)
  end.

Definition elektraPluginExport (pluginName : option cstr) (va : list plugin_t) : option Plugin :=
  match pluginName with
  | None => None
  | Some n => Some (fold_left export_step va (mkPlugin None None None None None None n 0))
  end.

Definition elektraPluginGetConfig (handle : ptr) : KM ptr := p <- get_plugin handle;; kret (p_config p).
End Plugin.
