(* ===== verification/Split.v ===== *)
(** * Split: keysets divided by backends

    [libs/elektra/split.c] with [mountGetBackend] of [mount.c] and
    [backendUpdateSize] of [backend.c], which it calls. *)
From S2P Require Export Plugin.
#[local] Open Scope kdb_scope.

Section Split.
Context {E : Env} {MD : Modules}.

(** ** Parts *)

Definition splitNew : KM ptr := l <- alloc_split (mkSplit [] APPROXIMATE_NR_OF_BACKENDS);; kret (Some l).

Definition split_part (split : ptr) (i : nat) : KM Part :=
  s <- get_split split;;
  match sp_parts s !! i with Some p => kret p | None => kundefined end.

Definition put_part (split : ptr) (i : nat) (p : Part) : KM unit :=
  s <- get_split split;;
  if i <? sp_size s then put_split split (mkSplit (<[i := p]> (sp_parts s)) (sp_alloc s)) else kundefined.

Definition with_syncbits (p : Part) (bits : Z) : Part := mkPart (part_keyset p) (part_handle p) (part_parent p) bits.
Definition with_keyset (p : Part) (ks : ptr) : Part := mkPart ks (part_handle p) (part_parent p) (part_syncbits p).

Definition splitDel (split : ptr) : KM unit :=
  s <- get_split split;;
  kforM (sp_parts s) (fun p =>
    lift (ksDel (part_keyset p));;
    lift (keyDecRef (part_parent p));;
    lift (keyDel (part_parent p));;
    kret tt);;
  free_split split.

Definition splitRemove (split : ptr) (where_ : nat) : KM unit :=
  s <- get_split split;;
  match sp_parts s !! where_ with
  | None => kundefined
  | Some p =>
      lift (ksDel (part_keyset p));;
      lift (keyDel (part_parent p));;
      put_split split (mkSplit (take where_ (sp_parts s) ++ drop (S where_) (sp_parts s)) (sp_alloc s))
  end.

Definition splitAppend (split backend parentKey : ptr) (syncbits : Z) : KM Z :=
  match split with
  | None => lift (keyDel parentKey);; kret (-1)%Z
  | Some _ =>
      s <- get_split split;;
      let alloc := if sp_alloc s <? S (sp_size s) then sp_alloc s * 2 else sp_alloc s in
      ks <- lift (ksNew 0 []);;
      put_split split (mkSplit (sp_parts s ++ [mkPart (Some ks) backend parentKey syncbits]) alloc);;
      kret (Z.of_nat (sp_size s))
  end.

(** ** Finding the backend of a key *)

Definition mountGetBackend (handle key : ptr) : KM ptr :=
  h <- get_kdb handle;;
  match key with
  | None => kret (kdb_defaultBackend h)
  | Some _ =>
      name <- lift (keyName key);;
      if bool_decide (strcmp (default [] name) [] = 0%Z) then kret (kdb_defaultBackend h)
      else kret (match trieLookup (kdb_trie h) name with
                 | None => kdb_defaultBackend h
                 | r => r
                 end)
  end.

(** The test of a part of a backend that is mounted in several namespaces:
    [inl] leaves the search. *)
Definition search_namespace (ns : elektraNamespace) (parent : ptr) : KM (option bool) :=
  let below p := r <- lift (p parent);; kret (Some (negb (r =? 0)%Z)) in
  match ns with
  | KEY_NS_SPEC => below keyIsSpec
  | KEY_NS_DIR => below keyIsDir
  | KEY_NS_USER => below keyIsUser
  | KEY_NS_SYSTEM => below keyIsSystem
  | KEY_NS_PROC | KEY_NS_EMPTY | KEY_NS_NONE | KEY_NS_META | KEY_NS_CASCADING => kret None
  end.

Fixpoint search_backend_loop (parts : list Part) (backend parent : ptr) (i : Z) : KM Z :=
  match parts with
  | [] => kret (-1)%Z
  | p :: r =>
      if decide (backend = part_handle p) then
        if test_bit (part_syncbits p) SPLIT_FLAG_CASCADING then
          ns <- lift (keyGetNamespace parent);;
          found <- search_namespace ns (part_parent p);;
          match found with
          | None => kret (-1)%Z
          | Some true => kret i
          | Some false => search_backend_loop r backend parent (i + 1)
          end
        else kret i
      else search_backend_loop r backend parent (i + 1)
  end.

Definition splitSearchBackend (split backend parent : ptr) : KM Z :=
  s <- get_split split;; search_backend_loop (sp_parts s) backend parent 0.

Definition elektraKeySetNameByNamespace (parentKey : ptr) (ns : elektraNamespace) : KM Z :=
  match ns with
  | KEY_NS_SPEC => lift (keySetName parentKey (Some (lit "spec")));; kret 1%Z
  | KEY_NS_DIR => lift (keySetName parentKey (Some (lit "dir")));; kret 1%Z
  | KEY_NS_USER => lift (keySetName parentKey (Some (lit "user")));; kret 1%Z
  | KEY_NS_SYSTEM => lift (keySetName parentKey (Some (lit "system")));; kret 1%Z
  | KEY_NS_PROC | KEY_NS_EMPTY | KEY_NS_NONE | KEY_NS_META | KEY_NS_CASCADING => kret 0%Z
  end.

(** ** Building up *)

(** The turn of the loop of [splitBuildup] for the part [p] of [kdb->split]. *)
Definition buildup_part (split backend parentKey : ptr) (p : Part) : KM unit :=
  let add :=
    d <- lift (keyDup (part_parent p));;
    splitAppend split (part_handle p) d (part_syncbits p);;
    kret tt in
  match parentKey with
  | None => add
  | Some _ =>
      r <- (if decide (backend = part_handle p) then lift (keyRel (part_parent p) parentKey) else kret (-1)%Z);;
      if (0 <=? r)%Z then add
      else
        r <- lift (keyRel parentKey (part_parent p));;
        if (0 <=? r)%Z then add else kret tt
  end.

(** [splitBuildup] of a key that is not cascading; [None] takes all. *)
Definition buildup_backends (split kdb parentKey : ptr) : KM Z :=
  backend <- mountGetBackend kdb parentKey;;
  h <- get_kdb kdb;;
  ks <- get_split (kdb_split h);;
  kforM (sp_parts ks) (buildup_part split backend parentKey);;
  kret 1%Z.

(** The calls for the namespaces of a cascading key; none of the names the
    key gets is cascading. *)
Fixpoint splitBuildup_fuel (fuel : nat) (split kdb parentKey : ptr) : KM Z :=
  match fuel with
  | O => knofuel
  | S fuel =>
      name <- lift (keyName parentKey);;
      match name with
      | None => buildup_backends split kdb None
      | Some name =>
          if bool_decide (strcmp name [] = 0%Z) || bool_decide (strcmp name (lit "/") = 0%Z)
          then buildup_backends split kdb None
          else if decide (deref name = SLASH) then
            key <- lift (keyNew None []);;
            kforM namespaces (fun ins =>
              ok <- elektraKeySetNameByNamespace (Some key) ins;;
              if (ok =? 0)%Z then kret tt
              else
                n <- lift (keyName parentKey);;
                lift (keyAddName (Some key) n);;
                splitBuildup_fuel fuel split kdb (Some key);;
                kret tt);;
            lift (keyDel (Some key));;
            kret 1%Z
          else buildup_backends split kdb parentKey
      end
  end.

Definition splitBuildup (split kdb parentKey : ptr) : KM Z := splitBuildup_fuel 2 split kdb parentKey.

(** ** Dividing and appointing keys *)

Definition splitDivide (split handle ks : ptr) : KM Z :=
  lift (ksRewind ks);;
  fuel <- lift (ks_turns ks);;
  kloop fuel (fun needsSync : Z =>
    curKey <- lift (ksNext ks);;
    match curKey with
    | None => kret (inr needsSync)
    | Some _ =>
        curHandle <- mountGetBackend handle curKey;;
        match curHandle with
        | None => kret (inr (-1)%Z)
        | Some _ =>
            curFound <- splitSearchBackend split curHandle curKey;;
            if (curFound =? -1)%Z then kret (inl needsSync)
            else
              p <- split_part split (Z.to_nat curFound);;
              lift (ksAppendKey (part_keyset p) curKey);;
              sync <- lift (keyNeedSync curKey);;
              if (sync =? 1)%Z then
                put_part split (Z.to_nat curFound) (with_syncbits p (Z.lor (part_syncbits p) 1));;
                kret (inl 1%Z)
              else kret (inl needsSync)
        end
    end) 0%Z.

Definition splitUpdateFileName (split handle key : ptr) : KM unit :=
  curHandle <- mountGetBackend handle key;;
  match curHandle with
  | None => kret tt
  | Some _ =>
      curFound <- splitSearchBackend split curHandle key;;
      if (curFound =? -1)%Z then kret tt
      else
        p <- split_part split (Z.to_nat curFound);;
        v <- lift (keyString (part_parent p));;
        lift (keySetString key (Some v));;
        kret tt
  end.

Definition splitAppoint (split handle ks : ptr) : KM Z :=
  defFound <- splitAppend split None None 0;;
  lift (ksRewind ks);;
  r <- kdb_ks_loop ks (fun curKey =>
    curHandle <- mountGetBackend handle (Some curKey);;
    match curHandle with
    | None => kret (Some (-1)%Z)
    | Some _ =>
        found <- splitSearchBackend split curHandle (Some curKey);;
        let curFound := if (found =? -1)%Z then defFound else found in
        p <- split_part split (Z.to_nat curFound);;
        if test_bit (part_syncbits p) SPLIT_FLAG_SYNC then kret None
        else lift (ksAppendKey (part_keyset p) (Some curKey));; kret None
    end);;
  kret (default 1%Z r).

(** ** After the plugins have run *)

(** The two strings of the message about a mountpoint. *)
Definition mountpoint_strings (backend : ptr) : KM (list cstr) :=
  b <- get_backend backend;;
  n <- lift (keyName (b_mountpoint b));;
  v <- lift (keyString (b_mountpoint b));;
  kret [default [] n; v].

Definition elektraDropCurrentKey (ks warningKey curHandle otherHandle : ptr) (msg : cstr) : KM unit :=
  k <- lift (ksCurrent ks);;
  name <- lift (keyName k);;
  mine <- mountpoint_strings curHandle;;
  other <- match otherHandle with None => kret [] | Some _ => mountpoint_strings otherHandle end;;
  lift (add_warning 79 warningKey (default (lit "(no name)") name :: mine ++ other ++ [msg]));;
  c <- lift (ksGetCursor ks);;
  popped <- lift (elektraKsPopAtCursor ks c);;
  lift (keyDel popped);;
  lift (ksSetCursor ks c);;
  match ks with None => kret tt | Some l => lift (elektraKsPrev l);; kret tt end.

(** Why a key of a namespace must not be below [parent]. *)
Definition wrong_namespace (ns : elektraNamespace) (parent : ptr) : KM (option cstr) :=
  let check p msg := r <- lift (p parent);; kret (if (r =? 0)%Z then Some (lit msg) else None) in
  match ns with
  | KEY_NS_SPEC => check keyIsSpec "it is not spec"%string
  | KEY_NS_DIR => check keyIsDir "it is not dir"%string
  | KEY_NS_USER => check keyIsUser "it is not user"%string
  | KEY_NS_SYSTEM => check keyIsSystem "it is not system"%string
  | KEY_NS_PROC => kret (Some (lit "it has a proc key name"))
  | KEY_NS_EMPTY => kret (Some (lit "it has an empty name"))
  | KEY_NS_META => kret (Some (lit "it has a metaname"))
  | KEY_NS_CASCADING => kret (Some (lit "it has a cascading name"))
  | KEY_NS_NONE => kundefined
  end.

Definition elektraSplitPostprocess (split : ptr) (i : nat) (warningKey handle : ptr) : KM Z :=
  p <- split_part split i;;
  lift (ksRewind (part_keyset p));;
  r <- kdb_ks_loop (part_keyset p) (fun cur =>
    curHandle <- mountGetBackend handle (Some cur);;
    match curHandle with
    | None => kret (Some (-1)%Z)
    | Some _ =>
        lift (keyClearSync (Some cur));;
        if decide (curHandle <> part_handle p) then
          elektraDropCurrentKey (part_keyset p) warningKey curHandle (part_handle p) (lit "it is hidden by other mountpoint");;
          kret None
        else
          ns <- lift (keyGetNamespace (Some cur));;
          msg <- wrong_namespace ns (part_parent p);;
          match msg with
          | None => kret None
          | Some msg => elektraDropCurrentKey (part_keyset p) warningKey curHandle None msg;; kret None
          end
    end);;
  kret (default 0%Z r).

(** The size field of a backend that belongs to a namespace. *)
Definition size_of (b : Backend) (ns : elektraNamespace) : option Z :=
  match ns with
  | KEY_NS_SPEC => Some (b_specsize b)
  | KEY_NS_DIR => Some (b_dirsize b)
  | KEY_NS_USER => Some (b_usersize b)
  | KEY_NS_SYSTEM => Some (b_systemsize b)
  | KEY_NS_PROC | KEY_NS_EMPTY | KEY_NS_META | KEY_NS_CASCADING | KEY_NS_NONE => None
  end.

Definition with_size (b : Backend) (ns : elektraNamespace) (size : Z) : Backend :=
  let f n old := if decide (ns = n) then size else old in
  mkBackend (b_mountpoint b) (b_setplugins b) (b_getplugins b) (b_errorplugins b)
    (f KEY_NS_SPEC (b_specsize b)) (f KEY_NS_DIR (b_dirsize b)) (f KEY_NS_USER (b_usersize b))
    (f KEY_NS_SYSTEM (b_systemsize b)) (b_refcounter b).

Definition backendUpdateSize (backend parent : ptr) (size : Z) : KM Z :=
  ns <- lift (keyGetNamespace parent);;
  match ns with
  | KEY_NS_SPEC | KEY_NS_DIR | KEY_NS_USER | KEY_NS_SYSTEM =>
      b <- get_backend backend;;
      put_backend backend (with_size b ns size);;
      kret 0%Z
  | KEY_NS_PROC | KEY_NS_EMPTY | KEY_NS_META | KEY_NS_CASCADING | KEY_NS_NONE => kret (-1)%Z
  end.

(** Not the last part, which bypasses the backends.  The bit that is tested is
    the mask 0: no part is skipped. *)
Definition splitGet (split warningKey handle : ptr) : KM Z :=
  s <- get_split split;;
  match sp_size s with
  | O => kundefined
  | S n =>
      r <- kloop (S n) (fun '(i, r) =>
        if n <=? i then kret (inr r)
        else
          p <- split_part split i;;
          if test_bit (part_syncbits p) 0 then kret (inl (S i, r))
          else
            post <- elektraSplitPostprocess split i warningKey handle;;
            let r := if (post =? -1)%Z then (-1)%Z else r in
            size <- lift (ksGetSize (part_keyset p));;
            up <- backendUpdateSize (part_handle p) (part_parent p) size;;
            kret (inl (S i, if (up =? -1)%Z then (-1)%Z else r))) (0, 1%Z);;
      kret r
  end.

Fixpoint update_size_loop (parts : list Part) : KM Z :=
  match parts with
  | [] => kret 1%Z
  | p :: r =>
      ns <- lift (keyGetNamespace (part_parent p));;
      match ns with
      | KEY_NS_SPEC | KEY_NS_DIR | KEY_NS_USER | KEY_NS_SYSTEM =>
          b <- get_backend (part_handle p);;
          size <- lift (ksGetSize (part_keyset p));;
          put_backend (part_handle p) (with_size b ns size);;
          update_size_loop r
      | KEY_NS_PROC | KEY_NS_EMPTY | KEY_NS_NONE | KEY_NS_META | KEY_NS_CASCADING => kret (-1)%Z
      end
  end.

Definition splitUpdateSize (split : ptr) : KM Z := s <- get_split split;; update_size_loop (sp_parts s).

Definition splitMerge (split dest : ptr) : KM Z :=
  s <- get_split split;;
  kforM (sp_parts s) (fun p => lift (ksAppend dest (part_keyset p));; kret tt);;
  kret 1%Z.

(** ** Before setting *)

(** The loop of [splitSync] from the part [i] on. *)
Fixpoint sync_loop (split : ptr) (parts : list Part) (i : nat) (needsSync : Z) : KM Z :=
  match parts with
  | [] => kret needsSync
  | p :: r =>
      ns <- lift (keyGetNamespace (part_parent p));;
      match ns with
      | KEY_NS_SPEC | KEY_NS_DIR | KEY_NS_USER | KEY_NS_SYSTEM =>
          b <- get_backend (part_handle p);;
          let size := default (-1)%Z (size_of b ns) in
          if (size =? -1)%Z then kret (- Z.of_nat i - 2)%Z
          else
            n <- lift (ksGetSize (part_keyset p));;
            if bool_decide (size <> n) then
              put_part split i (with_syncbits p (set_bit (part_syncbits p) SPLIT_FLAG_SYNC));;
              sync_loop split r (S i) 1
            else sync_loop split r (S i) needsSync
      | KEY_NS_PROC | KEY_NS_EMPTY | KEY_NS_META | KEY_NS_CASCADING | KEY_NS_NONE => kret (-1)%Z
      end
  end.

Definition splitSync (split : ptr) : KM Z := s <- get_split split;; sync_loop split (sp_parts s) 0 0.

(** [i] is not increased when a part is removed. *)
Fixpoint prepare_loop (fuel : nat) (split : ptr) (i : nat) : KM unit :=
  match fuel with
  | O => knofuel
  | S fuel =>
      s <- get_split split;;
      match sp_parts s !! i with
      | None => kret tt
      | Some p =>
          if (Z.land (part_syncbits p) 1 =? 1)%Z then
            n <- lift (ksDeepDup (part_keyset p));;
            lift (ksDel (part_keyset p));;
            put_part split i (with_keyset p n);;
            prepare_loop fuel split (S i)
          else
            splitRemove split i;;
            prepare_loop fuel split i
      end
  end.

Definition splitPrepare (split : ptr) : KM unit :=
  s <- get_split split;; prepare_loop (S (sp_size s)) split 0.
End Split.
