(* ===== verification/Backend.v ===== *)
(** * Backend: opening and closing backends

    [libs/elektra/backend.c]: backends made of the configuration of a
    mountpoint, the default backend, and those for modules and the version. *)
From S2P Require Export Split.
#[local] Open Scope kdb_scope.

Section Backend.
Context {E : Env} {MD : Modules}.

Definition no_slots : list ptr := replicate NR_OF_PLUGINS None.

Definition elektraBackendAllocate : KM ptr :=
  l <- alloc_backend (mkBackend None no_slots no_slots no_slots (-1) (-1) (-1) (-1) 1);;
  kret (Some l).

Definition set_mountpoint (backend mp : ptr) : KM unit :=
  b <- get_backend backend;;
  put_backend backend (mkBackend mp (b_setplugins b) (b_getplugins b) (b_errorplugins b)
    (b_specsize b) (b_dirsize b) (b_usersize b) (b_systemsize b) (b_refcounter b)).

Definition set_backend_refcounter (backend : ptr) (n : Z) : KM unit :=
  b <- get_backend backend;;
  put_backend backend (mkBackend (b_mountpoint b) (b_setplugins b) (b_getplugins b) (b_errorplugins b)
    (b_specsize b) (b_dirsize b) (b_usersize b) (b_systemsize b) n).

(** [backend->mountpoint = mp; keyIncRef (backend->mountpoint)] *)
Definition own_mountpoint (backend mp : ptr) : KM unit :=
  set_mountpoint backend mp;; lift (keyIncRef mp);; kret tt.

Definition string_value (s : cstr) : option (list ascii) := Some (s ++ [NUL]).

(** A NULL string argument. *)
Definition value_of (s : option cstr) : option (list ascii) := match s with None => None | Some s => string_value s end.

Definition elektraBackendSetMountpoint (backend elektraConfig errorKey : ptr) : KM Z :=
  root <- lift (ksCurrent elektraConfig);;
  searchMountpoint <- lift (keyDup root);;
  lift (keyAddBaseName searchMountpoint (Some (lit "mountpoint")));;
  foundMountpoint <- lift (env_ksLookup elektraConfig searchMountpoint 0);;
  lift (keyDel searchMountpoint);;
  lift (env_ksLookup elektraConfig root 0);;
  match foundMountpoint with
  | None =>
      n <- lift (keyName root);;
      lift (add_warning 14 errorKey [default [] n]);;
      kret (-1)%Z
  | Some _ =>
      base <- lift (keyBaseName root);;
      mp <- lift (keyNew (Some []) [KEY_VALUE (value_of base)]);;
      set_mountpoint backend (Some mp);;
      v <- lift (keyString foundMountpoint);;
      lift (elektraKeySetName (Some mp) (Some v) (Z.lor KEY_CASCADING_NAME KEY_EMPTY_NAME));;
      n <- lift (keyName (Some mp));;
      lift (keySetName errorKey n);;
      lift (keyIncRef (Some mp));;
      kret 0%Z
  end.

(** [backend->slots[i] = plugin] for several slots of a new backend. *)
Definition fill_slots (backend plugin : ptr) (l : list (slots * nat)) : KM unit :=
  kforM l (fun '(w, i) => set_slot backend w i plugin).

Definition set_plugin_refcounter (p : ptr) (n : Z) : KM unit :=
  pl <- get_plugin p;; put_plugin p (with_refcounter pl n).

Definition backendOpenMissing (mp : ptr) : KM ptr :=
  backend <- elektraBackendAllocate;;
  plugin <- elektraPluginMissing;;
  fill_slots backend plugin [(getplugins, 0); (setplugins, 0)];;
  set_plugin_refcounter plugin 2;;
  lift (keySetString mp (Some (lit "missing")));;
  own_mountpoint backend mp;;
  kret backend.

Definition count_error (ret : Z) (errorOccurred : bool) : bool := errorOccurred || (ret =? -1)%Z.

(** Closing the plugins in the slots [i], [i + 1], ... *)
Fixpoint close_plugins (backend errorKey : ptr) (is_ : list nat) (errorOccurred : bool) : KM bool :=
  match is_ with
  | [] => kret errorOccurred
  | i :: r =>
      b <- get_backend backend;;
      p <- slot b setplugins i;;
      ret1 <- elektraPluginClose p errorKey;;
      p <- slot b getplugins i;;
      ret2 <- elektraPluginClose p errorKey;;
      p <- slot b errorplugins i;;
      ret3 <- elektraPluginClose p errorKey;;
      close_plugins backend errorKey r (count_error ret3 (count_error ret2 (count_error ret1 errorOccurred)))
  end.

Definition backendClose (backend errorKey : ptr) : KM Z :=
  match backend with
  | None => kret (-1)%Z
  | Some _ =>
      b <- get_backend backend;;
      let refcounter := size_t (b_refcounter b - 1) in
      set_backend_refcounter backend refcounter;;
      if (0 <? refcounter)%Z then kret 0%Z
      else
        lift (keyDecRef (b_mountpoint b));;
        n <- lift (keyName (b_mountpoint b));;
        lift (keySetName errorKey n);;
        lift (keyDel (b_mountpoint b));;
        errorOccurred <- close_plugins backend errorKey (seq 0 NR_OF_PLUGINS) false;;
        free_backend backend;;
        kret (if errorOccurred : bool then -1 else 0)%Z
  end.

(** The local variables of [backendOpen] that its loop changes. *)
Record opening := mkOpening { op_systemConfig : ptr; op_failure : bool }.

(** A turn of the loop of [backendOpen]. *)
Definition open_key (backend root elektraConfig modules referencePlugins errorKey : ptr)
    (st : opening) (cur : loc) : KM opening :=
  rel <- lift (keyRel root (Some cur));;
  if negb (rel =? 1)%Z then kret st
  else
    cut <- lift (ksCut elektraConfig (Some cur));;
    base <- lift (keyBaseName (Some cur));;
    let is_ s := bool_decide (strcmp (default [] base) (lit s) = 0%Z) in
    let process w warning msg :=
      r <- elektraProcessPlugins backend w modules referencePlugins cut (op_systemConfig st) errorKey;;
      if (r =? -1)%Z then
        (if op_failure st then kret tt else lift (add_warning warning errorKey [lit msg]));;
        kret (mkOpening (op_systemConfig st) true)
      else kret st in
    if is_ "config"%string then
      systemConfig <- lift (elektraRenameKeys cut (lit "system"));;
      lift (ksDel cut);;
      kret (mkOpening systemConfig (op_failure st))
    else if is_ "errorplugins"%string then process errorplugins 15%Z "elektraProcessPlugins for error failed"%string
    else if is_ "getplugins"%string then process getplugins 13%Z "elektraProcessPlugins for get failed"%string
    else if is_ "mountpoint"%string then lift (ksDel cut);; kret st
    else if is_ "setplugins"%string then process setplugins 15%Z "elektraProcessPlugins for set failed"%string
    else
      (if op_failure st then kret tt else lift (add_warning 16 errorKey [default [] base]));;
      lift (ksDel cut);;
      kret st.

Definition backendOpen (elektraConfig modules errorKey : ptr) : KM ptr :=
  referencePlugins <- lift (ksNew 0 []);;
  lift (ksRewind elektraConfig);;
  root <- lift (ksNext elektraConfig);;
  backend <- elektraBackendAllocate;;
  r <- elektraBackendSetMountpoint backend elektraConfig errorKey;;
  fuel <- lift (ks_turns elektraConfig);;
  st <- kloop fuel (fun st =>
    cur <- lift (ksNext elektraConfig);;
    match cur with
    | None => kret (inr st)
    | Some c =>
        st <- open_key backend root elektraConfig modules (Some referencePlugins) errorKey st c;;
        kret (inl st)
    end) (mkOpening None (r =? -1)%Z);;
  backend <- (if op_failure st then
                b <- get_backend backend;;
                tmpBackend <- backendOpenMissing (b_mountpoint b);;
                backendClose backend errorKey;;
                kret tmpBackend
              else kret backend);;
  lift (ksDel (op_systemConfig st));;
  lift (ksDel elektraConfig);;
  lift (ksDel (Some referencePlugins));;
  kret backend.

Definition backendOpenDefault (modules : ptr) (file : cstr) (errorKey : ptr) : KM ptr :=
  backend <- elektraBackendAllocate;;
  path <- lift (keyNew (Some (lit "system/path")) [KEY_VALUE (string_value file)]);;
  resolverConfig <- lift (ksNew 5 [Some path]);;
  lift (elektraKeySetName errorKey (Some []) (Z.lor KEY_CASCADING_NAME KEY_EMPTY_NAME));;
  resolver <- elektraPluginOpen (Some KDB_RESOLVER) modules (Some resolverConfig) errorKey;;
  match resolver with
  | None => free_backend backend;; kret None
  | Some _ =>
      (if ENABLE_TRACER then
         tracerConfig <- lift (ksNew 5 []);;
         tracer <- elektraPluginOpen (Some (lit "tracer")) modules (Some tracerConfig) errorKey;;
         match tracer with
         | None => kret tt
         | Some _ =>
             fill_slots backend tracer [(getplugins, RESOLVER_PLUGIN + 1); (setplugins, RESOLVER_PLUGIN + 1);
                                        (errorplugins, RESOLVER_PLUGIN + 1)];;
             set_plugin_refcounter tracer 3
         end
       else kret tt);;
      fill_slots backend resolver [(getplugins, RESOLVER_PLUGIN); (setplugins, RESOLVER_PLUGIN);
                                   (setplugins, COMMIT_PLUGIN); (errorplugins, STORAGE_PLUGIN)];;
      set_plugin_refcounter resolver 4;;
      storageConfig <- lift (ksNew 5 []);;
      storage <- elektraPluginOpen (Some KDB_STORAGE) modules (Some storageConfig) errorKey;;
      match storage with
      | None =>
          elektraPluginClose resolver errorKey;;
          free_backend backend;;
          kret None
      | Some _ =>
          fill_slots backend storage [(getplugins, STORAGE_PLUGIN); (setplugins, STORAGE_PLUGIN)];;
          set_plugin_refcounter storage 2;;
          mp <- lift (keyNew (Some []) [KEY_VALUE (string_value (lit "default"))]);;
          own_mountpoint backend (Some mp);;
          kret backend
      end
  end.

Definition backendOpenModules (modules errorKey : ptr) : KM ptr :=
  backend <- elektraBackendAllocate;;
  save <- lift (ksGetCursor modules);;
  k1 <- lift (keyNew (Some (lit "system/module")) [KEY_VALUE (string_value (lit "1"))]);;
  k2 <- lift (keyNew (Some (lit "user/module")) [KEY_VALUE (string_value (lit "1"))]);;
  defaultConfig <- lift (ksNew 5 [Some k1; Some k2]);;
  cur <- lift (ksCurrent modules);;
  n <- lift (keyName cur);;
  lift (elektraKeySetName errorKey n (Z.lor KEY_CASCADING_NAME KEY_EMPTY_NAME));;
  base <- lift (keyBaseName cur);;
  plugin <- elektraPluginOpen base modules (Some defaultConfig) errorKey;;
  match plugin with
  | None => free_backend backend;; kret None
  | Some _ =>
      mp <- lift (keyNew (Some (lit "system/elektra/modules")) [KEY_VALUE (string_value (lit "modules"))]);;
      pl <- get_plugin plugin;;
      lift (keyAddBaseName (Some mp) (Some (p_name pl)));;
      fill_slots backend plugin [(getplugins, 0)];;
      set_plugin_refcounter plugin 1;;
      own_mountpoint backend (Some mp);;
      lift (ksSetCursor modules save);;
      kret backend
  end.

Definition backendOpenVersion (errorKey : ptr) : KM ptr :=
  backend <- elektraBackendAllocate;;
  plugin <- elektraPluginVersion;;
  mp <- lift (keyNew (Some (lit "system/elektra/version")) [KEY_VALUE (string_value (lit "version"))]);;
  fill_slots backend plugin [(getplugins, 0); (setplugins, 0)];;
  set_plugin_refcounter plugin 2;;
  own_mountpoint backend (Some mp);;
  kret backend.
End Backend.
