(* ===== verification/Mount.v ===== *)
(** * Mount: mounting backends

    [libs/elektra/mount.c]: inserting backends into the trie and the split of a
    handle, the default backends, global plugins and modules. *)
From S2P Require Export Backend.
#[local] Open Scope kdb_scope.

Section Mount.
Context {E : Env} {MD : Modules}.

Definition with_trie (h : KDB) t := mkKDB t (kdb_split h) (kdb_modules h) (kdb_defaultBackend h) (kdb_initBackend h) (kdb_globalPlugins h).
Definition with_split (h : KDB) s := mkKDB (kdb_trie h) s (kdb_modules h) (kdb_defaultBackend h) (kdb_initBackend h) (kdb_globalPlugins h).
Definition with_modules (h : KDB) m := mkKDB (kdb_trie h) (kdb_split h) m (kdb_defaultBackend h) (kdb_initBackend h) (kdb_globalPlugins h).
Definition with_defaultBackend (h : KDB) b := mkKDB (kdb_trie h) (kdb_split h) (kdb_modules h) b (kdb_initBackend h) (kdb_globalPlugins h).
Definition with_initBackend (h : KDB) b := mkKDB (kdb_trie h) (kdb_split h) (kdb_modules h) (kdb_defaultBackend h) b (kdb_globalPlugins h).
Definition with_globalPlugins (h : KDB) g := mkKDB (kdb_trie h) (kdb_split h) (kdb_modules h) (kdb_defaultBackend h) (kdb_initBackend h) g.

Definition change_kdb (kdb : ptr) (f : KDB -> KDB) : KM unit := h <- get_kdb kdb;; put_kdb kdb (f h).

(** [trieInsert], [splitAppend] of a new part and, for a backend that is
    mounted in several namespaces, [++backend->refcounter]. *)
Definition mount_in (kdb backend : ptr) (mountpoint : cstr) (parent : M loc) (syncbits : Z) : KM unit :=
  change_kdb kdb (fun h => with_trie h (Some (trieInsert (kdb_trie h) (Some mountpoint) backend)));;
  h <- get_kdb kdb;;
  p <- lift parent;;
  splitAppend (kdb_split h) backend (Some p) syncbits;;
  kret tt.

Definition count_mount (backend : ptr) : KM unit :=
  b <- get_backend backend;; set_backend_refcounter backend (size_t (b_refcounter b + 1)).

(** A namespace, its name, and whether the root or a cascading backend is
    mounted in it. *)
Definition root_namespaces : list string := ["spec"; "dir"; "user"; "system"]%string.
Definition cascading_namespaces : list string := ["dir"; "user"; "system"]%string.

Definition mountBackend (kdb backend errorKey : ptr) : KM Z :=
  b <- get_backend backend;;
  name <- lift (keyName (b_mountpoint b));;
  match name with
  | None => kundefined
  | Some name =>
      (if bool_decide (strcmp name [] = 0%Z) then
         mount_in kdb backend (lit "system/elektra/")
           (keyNew (Some (lit "system/elektra/")) [KEY_VALUE (string_value (lit "default"))]) 0;;
         set_backend_refcounter backend 1
       else if bool_decide (strcmp name (lit "/") = 0%Z) then
         set_backend_refcounter backend 0;;
         kforM root_namespaces (fun ns =>
           mount_in kdb backend (lit ns ++ name)
             (keyNew (Some (lit ns)) [KEY_VALUE (string_value (lit "root"))]) 2;;
           count_mount backend)
       else if decide (deref name = SLASH) then
         set_backend_refcounter backend 0;;
         kforM cascading_namespaces (fun ns =>
           let mountpoint := lit ns ++ name ++ [SLASH] in
           v <- lift (keyString (b_mountpoint b));;
           mount_in kdb backend mountpoint (keyNew (Some mountpoint) [KEY_VALUE (string_value v)]) 2;;
           count_mount backend)
       else
         change_kdb kdb (fun h => with_trie h (Some (trieInsert (kdb_trie h) (Some (name ++ [SLASH])) backend)));;
         h <- get_kdb kdb;;
         d <- lift (keyDup (b_mountpoint b));;
         splitAppend (kdb_split h) backend d 0;;
         set_backend_refcounter backend 1);;
      kret 1%Z
  end.

(** The turn of the loop of [mountOpen] for the key [cur]. *)
Definition mount_key (kdb root config modules errorKey : ptr) (cur : loc) (ret : Z) : KM Z :=
  rel <- lift (keyRel root (Some cur));;
  if negb (rel =? 1)%Z then kret ret
  else
    cut <- lift (ksCut config (Some cur));;
    backend <- backendOpen cut modules errorKey;;
    match backend with
    | None => lift (add_warning 24 errorKey [lit "could not create missing backend"]);; kret (-1)%Z
    | Some _ =>
        b <- get_backend backend;;
        match b_mountpoint b with
        | None =>
            lift (add_warning 25 errorKey [lit "no mountpoint"]);;
            backendClose backend errorKey;;
            kret (-1)%Z
        | Some _ =>
            r <- mountBackend kdb backend errorKey;;
            if (r =? -1)%Z then
              lift (add_warning 24 errorKey [lit "mounting of backend failed"]);;
              set_backend_refcounter backend 1;;
              backendClose backend errorKey;;
              kret (-1)%Z
            else kret ret
        end
    end.

Definition mountOpen (kdb config modules errorKey : ptr) : KM Z :=
  lift (ksRewind config);;
  root <- lift (env_ksLookupByName config (Some (lit "system/elektra/mountpoints")) KDB_O_CREATE);;
  fuel <- lift (ks_turns config);;
  ret <- kloop fuel (fun ret =>
    cur <- lift (ksNext config);;
    match cur with
    | None => kret (inr ret)
    | Some c => ret <- mount_key kdb root config modules errorKey c ret;; kret (inl ret)
    end) 0%Z;;
  lift (ksDel config);;
  kret ret.

(** [key = keyNew (name, KEY_VALUE, "default", KEY_END)], appended to the split
    when the default backend is found at it, else deleted. *)
Definition mount_default_at (kdb : ptr) (name : string) : KM unit :=
  key <- lift (keyNew (Some (lit name)) [KEY_VALUE (string_value (lit "default"))]);;
  backend <- mountGetBackend kdb (Some key);;
  h <- get_kdb kdb;;
  if decide (backend <> kdb_defaultBackend h) then lift (keyDel (Some key));; kret tt
  else splitAppend (kdb_split h) backend (Some key) 2;; kret tt.

(** [kdb->split->syncbits[kdb->split->size - 1] = 2] *)
Definition mark_last_part (kdb : ptr) : KM unit :=
  h <- get_kdb kdb;;
  s <- get_split (kdb_split h);;
  p <- split_part (kdb_split h) (sp_size s - 1);;
  put_part (kdb_split h) (sp_size s - 1) (with_syncbits p 2).

Definition mount_default_namespace (kdb : ptr) (inFallback : bool) (errorKey : ptr) (ns : elektraNamespace) : KM unit :=
  match ns with
  | KEY_NS_SPEC => mount_default_at kdb "spec"
  | KEY_NS_DIR => mount_default_at kdb "dir"
  | KEY_NS_USER => mount_default_at kdb "user"
  | KEY_NS_SYSTEM =>
      h <- get_kdb kdb;;
      if inFallback then
        key <- lift (keyNew (Some KDB_SYSTEM_ELEKTRA) []);;
        backend <- mountGetBackend kdb (Some key);;
        lift (keyDel (Some key));;
        if decide (backend <> kdb_defaultBackend h) then
          mountBackend kdb (kdb_defaultBackend h) errorKey;;
          count_mount (kdb_defaultBackend h);;
          mark_last_part kdb
        else
          key <- lift (keyNew (Some (lit "system")) [KEY_VALUE (string_value (lit "default"))]);;
          splitAppend (kdb_split h) backend (Some key) 2;;
          kret tt
      else
        mountBackend kdb (kdb_initBackend h) errorKey;;
        count_mount (kdb_initBackend h);;
        mark_last_part kdb;;
        mount_default_at kdb "system"
  | KEY_NS_EMPTY | KEY_NS_PROC | KEY_NS_NONE | KEY_NS_META | KEY_NS_CASCADING => kret tt
  end.

Definition mountDefault (kdb modules : ptr) (inFallback : bool) (errorKey : ptr) : KM Z :=
  default <- backendOpenDefault modules KDB_DB_FILE errorKey;;
  change_kdb kdb (fun h => with_initBackend (with_defaultBackend h default) None);;
  match default with
  | None => lift (add_warning 43 errorKey [lit "could not (re)open default backend"]);; kret (-1)%Z
  | Some _ =>
      ok <- (if inFallback then kret true
             else
               init <- backendOpenDefault modules KDB_DB_INIT errorKey;;
               change_kdb kdb (fun h => with_initBackend h init);;
               match init with
               | None => lift (add_warning 43 errorKey [lit "could not (re)open init backend"]);; kret false
               | Some _ => kret true
               end);;
      if ok : bool then
        kforM namespaces (mount_default_namespace kdb inFallback errorKey);;
        kret 0%Z
      else kret (-1)%Z
  end.

(** ** Global plugins *)

Definition globalPlacements (g : GlobalpluginPositions) : cstr :=
  lit match g with
      | PREROLLBACK => "prerollback" | POSTROLLBACK => "postrollback" | PREGETSTORAGE => "pregetstorage"
      | POSTGETSTORAGE => "postgetstorage" | POSTGETCLEANUP => "postgetcleanup"
      | PRESETSTORAGE => "presetstorage" | PRESETCLEANUP => "presetcleanup"
      | PRECOMMIT => "precommit" | POSTCOMMIT => "postcommit"
      end.

(** The keys of the configuration [mountGlobals] assumes when there is none:
    names below [system/elektra/globalplugins] and values. *)
Definition default_globals : list (string * option string) :=
  [("", None); ("/postcommit", Some "list"); ("/postcommit/user", Some "list");
   ("/postcommit/user/placements", None);
   ("/postcommit/user/placements/error", Some "prerollback postrollback");
   ("/postcommit/user/placements/get", Some "pregetstorage postgetstorage");
   ("/postcommit/user/placements/set", Some "presetstorage precommit postcommit");
   ("/postcommit/user/plugins", None);
   ("/postcommit/user/plugins/#0", Some "spec");
   ("/postcommit/user/plugins/#0/placements", Some "spec");
   ("/postcommit/user/plugins/#0/placements/error", None);
   ("/postcommit/user/plugins/#0/placements/get", Some "postgetstorage");
   ("/postcommit/user/plugins/#0/placements/set", Some "presetstorage");
   ("/postgetstorage", Some "list"); ("/postrollback", Some "list"); ("/precommit", Some "list");
   ("/pregetstorage", Some "list"); ("/prerollback", Some "list"); ("/presetstorage", Some "list")]%string.

Fixpoint new_keys (l : list (string * option string)) : M (list ptr) :=
  match l with
  | [] => ret []
  | (n, v) :: r =>
      bindM (keyNew (Some (lit "system/elektra/globalplugins" ++ lit n))
               (match v with Some v => [KEY_VALUE (string_value (lit v))] | None => [] end))
        (fun k => bindM (new_keys r) (fun ks => ret (Some k :: ks)))
  end.

(** Cutting and renaming the configuration of a global plugin. *)
Definition global_config (global cur : ptr) : KM ptr :=
  sysConfigCutKey <- lift (keyDup cur);;
  lift (keyAddBaseName sysConfigCutKey (Some (lit "system")));;
  usrConfigCutKey <- lift (keyDup cur);;
  lift (keyAddBaseName usrConfigCutKey (Some (lit "user")));;
  sysConfigKS <- lift (ksCut global sysConfigCutKey);;
  usrConfigKS <- lift (ksCut global usrConfigCutKey);;
  renamedSysConfig <- lift (elektraRenameKeys sysConfigKS (lit "system"));;
  renamedUsrConfig <- lift (elektraRenameKeys usrConfigKS (lit "user"));;
  lift (ksDel sysConfigKS);;
  lift (ksDel usrConfigKS);;
  lift (keyDel usrConfigCutKey);;
  lift (keyDel sysConfigCutKey);;
  config <- lift (ksNew 0 []);;
  lift (ksAppend (Some config) renamedSysConfig);;
  lift (ksAppend (Some config) renamedUsrConfig);;
  lift (ksDel renamedSysConfig);;
  lift (ksDel renamedUsrConfig);;
  kret (Some config).

Definition set_global (kdb : ptr) (g : GlobalpluginPositions) (plugin : ptr) : KM unit :=
  change_kdb kdb (fun h => with_globalPlugins h
    (fun g' => if decide (g' = g) then plugin else kdb_globalPlugins h g')).

(** The key the pointer to a loaded plugin is found with. *)
Definition reference_name (key cur : ptr) : KM unit :=
  v <- lift (keyString cur);; lift (keyAddBaseName key (Some v));; kret tt.

(** The turn of [mountGlobals] for the key [cur] and the position [g]; [Some] is
    the early return. *)
Definition mount_global (kdb keys modules referencePlugins global errorKey : ptr) (cur : loc)
    (g : GlobalpluginPositions) : KM (option Z) :=
  pluginName <- lift (keyString (Some cur));;
  placement <- lift (keyBaseName (Some cur));;
  if bool_decide (strcmp (default [] placement) (globalPlacements g) <> 0%Z) then kret None
  else
    searchKey <- lift (keyNew (Some (lit "/")) []);;
    reference_name (Some searchKey) (Some cur);;
    refKey <- lift (env_ksLookup referencePlugins (Some searchKey) 0);;
    lift (keyDel (Some searchKey));;
    match refKey with
    | Some _ =>
        v <- lift (keyValue refKey);;
        let plugin := bytes_ptr (default [] v) in
        increase_refcounter plugin;;
        set_global kdb g plugin;;
        kret None
    | None =>
        config <- global_config global (Some cur);;
        dup <- lift (ksDup config);;
        plugin <- elektraPluginOpen (Some pluginName) modules dup errorKey;;
        match plugin with
        | None =>
            lift (ksDel keys);;
            lift (add_warning 64 errorKey [pluginName]);;
            kret (Some (-1)%Z)
        | Some l =>
            refKey <- lift (keyNew (Some (lit "/")) [KEY_BINARY; KEY_SIZE 8; KEY_VALUE (Some (ptr_bytes l))]);;
            reference_name (Some refKey) (Some cur);;
            lift (ksAppendKey referencePlugins (Some refKey));;
            lift (keyDel (Some refKey));;
            lift (ksDel config);;
            set_global kdb g plugin;;
            kret None
        end
    end.

Definition mountGlobals (kdb keys modules errorKey : ptr) : KM Z :=
  root <- lift (env_ksLookupByName keys (Some (lit "system/elektra/globalplugins")) 0);;
  let* (keys, root) :=
    match root with
    | Some _ => kret (keys, root)
    | None =>
        lift (ksDel keys);;
        l <- lift (new_keys default_globals);;
        keys <- lift (ksNew 19 l);;
        root <- lift (ksHead (Some keys));;
        kret (Some keys, root)
    end in
  change_kdb kdb (fun h => with_globalPlugins h (fun _ => None));;
  global <- lift (ksCut keys root);;
  referencePlugins <- lift (ksNew 0 []);;
  r <- kdb_ks_loop global (fun cur =>
    rel <- lift (keyRel root (Some cur));;
    if negb (rel =? 1)%Z then kret None
    else
      pluginName <- lift (keyString (Some cur));;
      if bool_decide (strcmp pluginName [] = 0%Z) then kret None
      else kfor global_positions (mount_global kdb keys modules (Some referencePlugins) global errorKey cur));;
  match r with
  | Some rc => kret rc
  | None =>
      lift (ksDel global);;
      lift (ksDel keys);;
      lift (ksDel (Some referencePlugins));;
      kret 0%Z
  end.

(** ** Modules and version *)

Definition mountModules (kdb modules errorKey : ptr) : KM Z :=
  root <- lift (env_ksLookupByName modules (Some (lit "system/elektra/modules")) 0);;
  match root with
  | None => lift (add_warning 23 errorKey [lit "no root key found for modules"]);; kret (-1)%Z
  | Some _ =>
      alreadyMounted <- lift (ksNew 5 []);;
      fuel <- lift (ks_turns modules);;
      kloop fuel (fun oldSize =>
        cur <- lift (ksNext modules);;
        match cur with
        | None => kret (inr tt)
        | Some _ =>
            backend <- backendOpenModules modules errorKey;;
            b <- get_backend backend;;
            lift (ksAppendKey (Some alreadyMounted) (b_mountpoint b));;
            size <- lift (ksGetSize (Some alreadyMounted));;
            if (size =? oldSize)%Z then backendClose backend errorKey;; kret (inl oldSize)
            else mountBackend kdb backend errorKey;; kret (inl (oldSize + 1)%Z)
        end) 0%Z;;
      lift (ksDel (Some alreadyMounted));;
      kret 0%Z
  end.

Definition mountVersion (kdb errorKey : ptr) : KM Z :=
  backend <- backendOpenVersion errorKey;;
  mountBackend kdb backend errorKey;;
  kret 0%Z.

Definition mountGetMountpoint (handle where_ : ptr) : KM ptr :=
  backend_handle <- mountGetBackend handle where_;;
  match backend_handle with
  | None => kret None
  | Some _ => b <- get_backend backend_handle;; kret (b_mountpoint b)
  end.
End Mount.
