(* ===== verification/Kdb.v ===== *)
(** * Kdb: reading the key database

    [kdbGet] of [libs/elektra/kdb.c] and the helpers it shares with [kdbSet]:
    the global plugins and the copies of errors.  [errno], log messages and the
    assertions of debug builds are left out. *)
From S2P Require Export Mount.
#[local] Open Scope kdb_scope.

Section Kdb.
Context {E : Env} {MD : Modules}.

(** ** Calling plugins *)

Definition call_get (where_ : place) (plugin ks parentKey : ptr) : KM Z :=
  p <- get_plugin plugin;;
  match plugin, p_kdbGet p with
  | Some l, Some fn => call_plugin where_ fn l ks parentKey
  | _, _ => kundefined
  end.
Definition call_set (where_ : place) (plugin ks parentKey : ptr) : KM Z :=
  p <- get_plugin plugin;;
  match plugin, p_kdbSet p with
  | Some l, Some fn => call_plugin where_ fn l ks parentKey
  | _, _ => kundefined
  end.
Definition call_error (where_ : place) (plugin ks parentKey : ptr) : KM Z :=
  p <- get_plugin plugin;;
  match plugin, p_kdbError p with
  | Some l, Some fn => call_plugin where_ fn l ks parentKey
  | _, _ => kundefined
  end.

(** [plugin && plugin->kdbGet] and the like *)
Definition has_fn (f : Plugin -> option plugin_fn) (plugin : ptr) : KM bool :=
  match plugin with
  | None => kret false
  | Some _ => p <- get_plugin plugin;; kret (if f p is Some _ then true else false)
  end.

(** [if (handle->globalPlugins[g]) handle->globalPlugins[g]->fn (...)] *)
Definition call_global (call : place -> ptr -> ptr -> ptr -> KM Z) (handle : ptr) (g : GlobalpluginPositions)
    (ks parentKey : ptr) : KM unit :=
  h <- get_kdb handle;;
  match kdb_globalPlugins h g with
  | None => kret tt
  | p => call (Global g) p ks parentKey;; kret tt
  end.

(** [keySetName (key, keyName (from))] *)
Definition copy_name (key from : ptr) : KM unit := n <- lift (keyName from);; lift (keySetName key n);; kret tt.
Definition copy_string (key from : ptr) : KM unit := v <- lift (keyString from);; lift (keySetString key (Some v));; kret tt.

Definition set_string (key : ptr) (s : string) : KM unit := lift (keySetString key (Some (lit s)));; kret tt.

(** ** Metadata of errors *)

Fixpoint remove_meta_loop (fuel : nat) (key : ptr) (searchfor : cstr) : M unit :=
  match fuel with
  | O => nofuel
  | S n =>
      bindM (keyNextMeta key) (fun iter_key =>
        match iter_key with
        | None => ret tt
        | Some _ =>
            bindM (keyName iter_key) (fun name =>
              bindM (if bool_decide (strncmp searchfor (default [] name) (length searchfor) = 0%Z)
                     then keySetMeta key name None else ret 0%Z)
                (fun _ => remove_meta_loop n key searchfor))
        end)
  end.

Definition elektraRemoveMetaData (key : ptr) (searchfor : cstr) : KM unit :=
  lift (keyRewindMeta key);;
  fuel <- lift (meta_fuel key);;
  lift (remove_meta_loop fuel key searchfor).

Fixpoint copy_error_loop (fuel : nat) (dest src : ptr) : M unit :=
  match fuel with
  | O => nofuel
  | S n =>
      bindM (keyNextMeta src) (fun metaKey =>
        match metaKey with
        | None => ret tt
        | Some _ =>
            bindM (keyName metaKey) (fun name =>
              if bool_decide (strncmp (default [] name) (lit "error/") 6 <> 0%Z) then ret tt
              else
                bindM (keyString metaKey) (fun v =>
                  bindM (keySetMeta dest name (Some v)) (fun _ => copy_error_loop n dest src)))
        end)
  end.

Definition copyError (dest src : ptr) : KM Z :=
  lift (keyRewindMeta src);;
  metaKey <- lift (keyGetMeta src (Some (lit "error")));;
  match metaKey with
  | None => kret 0%Z
  | Some _ =>
      n <- lift (keyName metaKey);;
      v <- lift (keyString metaKey);;
      lift (keySetMeta dest n (Some v));;
      fuel <- lift (meta_fuel src);;
      lift (copy_error_loop fuel dest src);;
      kret 1%Z
  end.

Definition clearError (key : ptr) : KM unit :=
  kforM ["error"; "error/number"; "error/description"; "error/reason"; "error/ingroup"; "error/module";
         "error/file"; "error/line"; "error/configfile"; "error/mountpoint"]%string
    (fun n => lift (keySetMeta key (Some (lit n)) None);; kret tt).

(** ** kdbGet *)

(** The turn of [elektraGetCheckUpdateNeeded] for the part [i]. *)
Definition check_update (split parentKey : ptr) (updateNeededOccurred : Z) (i : nat) : KM (Z + Z) :=
  p <- split_part split i;;
  put_part split i (with_syncbits p (clear_bit (part_syncbits p) 1));;
  b <- get_backend (part_handle p);;
  resolver <- slot b getplugins RESOLVER_PLUGIN;;
  has <- has_fn p_kdbGet resolver;;
  ret <- (if has : bool then
            lift (ksRewind (part_keyset p));;
            copy_name parentKey (part_parent p);;
            set_string parentKey "";;
            ret <- call_get (GetSlot RESOLVER_PLUGIN) resolver (part_keyset p) parentKey;;
            copy_string (part_parent p) parentKey;;
            backendUpdateSize (part_handle p) (part_parent p) 0;;
            kret ret
          else kret (-1)%Z);;
  if (ret =? 1)%Z then
    p <- split_part split i;;
    put_part split i (with_syncbits p (set_bit (part_syncbits p) SPLIT_FLAG_SYNC));;
    kret (inl (updateNeededOccurred + 1)%Z)
  else if (ret =? 0)%Z then kret (inl updateNeededOccurred)
  else kret (inr (-1)%Z).

Definition elektraGetCheckUpdateNeeded (split parentKey : ptr) : KM Z :=
  s <- get_split split;;
  r <- kfold (seq 0 (sp_size s)) (check_update split parentKey) 0%Z;;
  kret (match r with inl n => n | inr e => e end).

(** A plugin in the slot [p] of the backend of a part. *)
Definition update_slot (part : Part) (parentKey : ptr) (_ : unit) (p : nat) : KM (unit + Z) :=
  b <- get_backend (part_handle part);;
  plugin <- slot b getplugins p;;
  has <- has_fn p_kdbGet plugin;;
  ret <- (if has : bool then call_get (GetSlot p) plugin (part_keyset part) parentKey else kret 0%Z);;
  kret (if (ret =? -1)%Z then inr (-1)%Z else inl tt).

Definition do_update (split parentKey : ptr) (_ : unit) (i : nat) : KM (unit + Z) :=
  part <- split_part split i;;
  if negb (test_bit (part_syncbits part) SPLIT_FLAG_SYNC) then kret (inl tt)
  else
    lift (ksRewind (part_keyset part));;
    copy_name parentKey (part_parent part);;
    copy_string parentKey (part_parent part);;
    kfold (seq 1 (NR_OF_PLUGINS - 1)) (update_slot part parentKey) tt.

(** All parts but the last, the bypass. *)
Definition elektraGetDoUpdate (split parentKey : ptr) : KM Z :=
  s <- get_split split;;
  r <- kfold (seq 0 (sp_size s - 1)) (do_update split parentKey) tt;;
  kret (match r with inl _ => 0 | inr e => e end)%Z.

Inductive UpdatePass := FIRST | LAST.

(** [while ((cur = ksNext (specCut)) != NULL)] moves cascading keys. *)
Definition move_cascading (specCut cutKS : ptr) : KM unit :=
  r <- kdb_ks_loop specCut (fun cur =>
    ns <- lift (keyGetNamespace (Some cur));;
    if decide (ns = KEY_NS_CASCADING) then
      lift (ksAppendKey cutKS (Some cur));;
      popped <- lift (env_ksLookup specCut (Some cur) KDB_O_POP);;
      lift (keyDel popped);;
      kret (@None unit)
    else kret None);;
  kret tt.

Definition prepareGlobalKS (ks parentKey : ptr) : KM ptr :=
  lift (ksRewind ks);;
  cutKey <- lift (keyNew (Some (lit "/")) [KEY_NAME_OPTION KEY_CASCADING_NAME]);;
  n <- lift (keyName parentKey);;
  lift (keyAddName (Some cutKey) (strchr (default [] n) SLASH));;
  cutKS <- lift (ksCut ks (Some cutKey));;
  specCutKey <- lift (keyNew (Some (lit "spec")) []);;
  specCut <- lift (ksCut cutKS (Some specCutKey));;
  lift (ksRewind specCut);;
  move_cascading specCut cutKS;;
  lift (ksAppend ks specCut);;
  lift (ksDel specCut);;
  lift (keyDel (Some specCutKey));;
  lift (keyDel (Some cutKey));;
  lift (ksRewind cutKS);;
  kret cutKS.

(** [pgs_done] and [pgc_done] *)
Record hooks_done := mkDone { pgs_done : bool; pgc_done : bool }.

(** [handle->globalPlugins[g] && !done] runs the global plugin on all keys. *)
Definition get_hook (handle : ptr) (g : GlobalpluginPositions) (ks parentKey initialParent partParent : ptr) : KM bool :=
  h <- get_kdb handle;;
  match kdb_globalPlugins h g with
  | None => kret false
  | plugin =>
      copy_name parentKey initialParent;;
      lift (ksRewind ks);;
      call_get (Global g) plugin ks parentKey;;
      copy_name parentKey partParent;;
      kret true
  end.

Definition hooks_before (handle ks parentKey initialParent : ptr) (part : Part) (done : hooks_done) (p : nat)
    : KM hooks_done :=
  pgs <- (if negb (pgs_done done) && (p =? STORAGE_PLUGIN + 1) then
            get_hook handle POSTGETSTORAGE ks parentKey initialParent (part_parent part)
          else kret false);;
  if pgs : bool then kret (mkDone true (pgc_done done))
  else
    pgc <- (if negb (pgc_done done) && (p =? NR_OF_PLUGINS - 1) then
              get_hook handle POSTGETCLEANUP ks parentKey initialParent (part_parent part)
            else kret false);;
    kret (if pgc : bool then mkDone (pgs_done done) true else done).

(** One slot in a pass with global hooks. *)
Definition hooked_slot (handle ks parentKey initialParent : ptr) (part : Part) (done : hooks_done) (p : nat)
    : KM (hooks_done + Z) :=
  done <- hooks_before handle ks parentKey initialParent part done p;;
  b <- get_backend (part_handle part);;
  plugin <- slot b getplugins p;;
  has <- has_fn p_kdbGet plugin;;
  ret <- (if has : bool then
            if p <=? STORAGE_PLUGIN then call_get (GetSlot p) plugin (part_keyset part) parentKey
            else
              cutKS <- prepareGlobalKS ks parentKey;;
              ret <- call_get (GetSlot p) plugin cutKS parentKey;;
              lift (ksAppend ks cutKS);;
              lift (ksDel cutKS);;
              kret ret
          else kret 0%Z);;
  kret (if (ret =? -1)%Z then inr (-1)%Z else inl done).

Definition pass_slots (run : UpdatePass) : list nat :=
  match run with
  | FIRST => seq 1 STORAGE_PLUGIN
  | LAST => seq (STORAGE_PLUGIN + 1) (NR_OF_PLUGINS - (STORAGE_PLUGIN + 1))
  end.

Definition elektraGetDoUpdateWithGlobalHooks (handle split ks parentKey initialParent : ptr) (run : UpdatePass) : KM Z :=
  s <- get_split split;;
  r <- kfold (seq 0 (sp_size s - 1)) (fun done i =>
    part <- split_part split i;;
    if negb (test_bit (part_syncbits part) SPLIT_FLAG_SYNC) then kret (inl done)
    else
      lift (ksRewind (part_keyset part));;
      copy_name parentKey (part_parent part);;
      copy_string parentKey (part_parent part);;
      kfold (pass_slots run) (hooked_slot handle ks parentKey initialParent part) done)
    (mkDone false false);;
  kret (match r with inl _ => 0 | inr e => e end)%Z.

(** [splitGet], the warning when it fails, and merging into [ks]. *)
Definition get_merge (split parentKey handle ks : ptr) : KM unit :=
  r <- splitGet split parentKey handle;;
  (if (r =? -1)%Z then
     c <- lift (ksCurrent ks);;
     n <- lift (keyName c);;
     lift (add_warning 108 parentKey [default [] n])
   else kret tt);;
  match ks with None => kundefined | Some l => lift (ksClear l);; kret tt end;;
  splitMerge split ks;;
  kret tt.

(** What [kdbGet] does once an update is needed; [false] is [goto error]. *)
Definition get_update (handle split ks parentKey initialParent oldError : ptr) : KM bool :=
  appointed <- splitAppoint split handle ks;;
  if (appointed =? -1)%Z then
    clearError parentKey;;
    lift (set_error 38 parentKey [lit "error in splitAppoint"]);;
    kret false
  else
    h <- get_kdb handle;;
    if bool_decide (kdb_globalPlugins h POSTGETSTORAGE <> None) || bool_decide (kdb_globalPlugins h POSTGETCLEANUP <> None)
    then
      clearError parentKey;;
      r <- elektraGetDoUpdateWithGlobalHooks None split None parentKey initialParent FIRST;;
      if (r =? -1)%Z then kret false
      else
        copyError parentKey oldError;;
        copy_name parentKey initialParent;;
        get_merge split parentKey handle ks;;
        clearError parentKey;;
        r <- elektraGetDoUpdateWithGlobalHooks handle split ks parentKey initialParent LAST;;
        if (r =? -1)%Z then kret false
        else copyError parentKey oldError;; kret true
    else
      clearError parentKey;;
      r <- elektraGetDoUpdate split parentKey;;
      if (r =? -1)%Z then kret false
      else
        copyError parentKey oldError;;
        get_merge split parentKey handle ks;;
        kret true.

Definition get_error (handle split ks parentKey initialParent oldError : ptr) : KM Z :=
  copy_name parentKey initialParent;;
  (match handle with None => kret tt | Some _ => call_global call_get handle POSTGETSTORAGE ks parentKey end);;
  copy_name parentKey initialParent;;
  (match handle with None => kret tt | Some _ => splitUpdateFileName split handle parentKey end);;
  lift (keyDel initialParent);;
  lift (keyDel oldError);;
  splitDel split;;
  kret (-1)%Z.

(** From the test of [handle] and [ks] on. *)
Definition kdbGet_body (handle ks parentKey initialParent split oldError : ptr) : KM Z :=
  match handle, ks with
  | Some _, Some _ =>
      call_global call_get handle PREGETSTORAGE ks parentKey;;
      built <- splitBuildup split handle parentKey;;
      if (built =? -1)%Z then
        clearError parentKey;;
        lift (set_error 38 parentKey [lit "error in splitBuildup"]);;
        get_error handle split ks parentKey initialParent oldError
      else
        needed <- elektraGetCheckUpdateNeeded split parentKey;;
        if (needed =? 0)%Z then
          copy_name parentKey initialParent;;
          splitUpdateFileName split handle parentKey;;
          lift (keyDel initialParent);;
          splitDel split;;
          lift (keyDel oldError);;
          kret 0%Z
        else if (needed =? -1)%Z then get_error handle split ks parentKey initialParent oldError
        else
          ok <- get_update handle split ks parentKey initialParent oldError;;
          if ok : bool then
            lift (ksRewind ks);;
            copy_name parentKey initialParent;;
            splitUpdateFileName split handle parentKey;;
            lift (keyDel initialParent);;
            lift (keyDel oldError);;
            splitDel split;;
            kret 1%Z
          else get_error handle split ks parentKey initialParent oldError
  | _, _ =>
      clearError parentKey;;
      lift (set_error 37 parentKey [lit "handle or ks null pointer"]);;
      get_error handle split ks parentKey initialParent oldError
  end.

(** The copy of the old error that [kdbGet] and [kdbSet] make. *)
Definition save_error (parentKey : ptr) : KM ptr :=
  n <- lift (keyName parentKey);;
  oldError <- lift (keyNew n []);;
  copyError (Some oldError) parentKey;;
  kret (Some oldError).

Definition kdbGet (handle ks parentKey : ptr) : KM Z :=
  ns <- lift (keyGetNamespace parentKey);;
  if decide (ns = KEY_NS_NONE) then kret (-1)%Z
  else
    oldError <- save_error parentKey;;
    if decide (ns = KEY_NS_META) then
      clearError parentKey;;
      lift (keyDel oldError);;
      n <- lift (keyName parentKey);;
      lift (set_error 104 parentKey [default [] n]);;
      kret (-1)%Z
    else
      (if decide (ns = KEY_NS_EMPTY)
       then lift (add_warning 105 parentKey [lit "invalid key name passed to kdbGet"]) else kret tt);;
      initialParent <- lift (keyDup parentKey);;
      split <- splitNew;;
      kdbGet_body handle ks parentKey initialParent split oldError.
End Kdb.
