(* ===== verification/KdbSet.v ===== *)
(** * KdbSet: writing the key database

    [kdbSet] of [libs/elektra/kdb.c]: the keys are divided by backend, the
    plugins before the commit run for every part, and only when none of them
    failed the plugins of the commit run; else those for errors. *)
From S2P Require Export Kdb.
#[local] Open Scope kdb_scope.

Section KdbSet.
Context {E : Env} {MD : Modules}.

(** [if (hooks[g]) { ksRewind (ks); hooks[g]->kdbSet (hooks[g], ks, parentKey); }] *)
Definition call_hook (hooks : GlobalpluginPositions -> ptr) (g : GlobalpluginPositions) (ks parentKey : ptr) : KM unit :=
  match hooks g with
  | None => kret tt
  | plugin => lift (ksRewind ks);; call_set (Global g) plugin ks parentKey;; kret tt
  end.

(** [any_error] and [errorKey] *)
Record prepared := mkPrepared { any_error : Z; error_key : ptr }.

(** The plugin in the slot [p] of the part [i]: its result, or [None] for the
    [break] when the resolver says that no sync is needed. *)
Definition prepare_plugin (split parentKey : ptr) (i p : nat) : KM (option Z) :=
  part <- split_part split i;;
  b <- get_backend (part_handle part);;
  lift (ksRewind (part_keyset part));;
  plugin <- slot b setplugins p;;
  has <- has_fn p_kdbSet plugin;;
  if has : bool then
    (if p =? 0 then set_string parentKey "" else copy_string parentKey (part_parent part));;
    copy_name parentKey (part_parent part);;
    ret <- call_set (SetSlot p) plugin (part_keyset part) parentKey;;
    if p =? 0 then
      if (ret =? 0)%Z then kret None
      else copy_string (part_parent part) parentKey;; kret (Some ret)
    else kret (Some ret)
  else kret (Some 0%Z).

(** One turn of the inner loop; [inr] is the [break]. *)
Definition prepare_slot (split parentKey : ptr) (hooks : GlobalpluginPositions -> ptr) (i : nat)
    (st : prepared) (p : nat) : KM (prepared + prepared) :=
  ret <- prepare_plugin split parentKey i p;;
  match ret with
  | None => kret (inr st)
  | Some ret =>
      part <- split_part split i;;
      (if p =? 0 then call_hook hooks PRESETSTORAGE (part_keyset part) parentKey
       else if p =? STORAGE_PLUGIN - 1 then call_hook hooks PRESETCLEANUP (part_keyset part) parentKey
       else kret tt);;
      if (ret =? -1)%Z then
        cur <- lift (ksCurrent (part_keyset part));;
        kret (inl (mkPrepared (-1) cur))
      else kret (inl st)
  end.

Definition prepare_part (split parentKey : ptr) (hooks : GlobalpluginPositions -> ptr) (st : prepared) (i : nat)
    : KM (prepared + unit) :=
  r <- kfold (seq 0 COMMIT_PLUGIN) (prepare_slot split parentKey hooks i) st;;
  kret (inl (match r with inl st => st | inr st => st end)).

Definition elektraSetPrepare (split parentKey : ptr) (hooks : GlobalpluginPositions -> ptr) (errorKey : ptr) : KM prepared :=
  s <- get_split split;;
  r <- kfold (seq 0 (sp_size s)) (prepare_part split parentKey hooks) (mkPrepared 0 errorKey);;
  kret (match r with inl st => st | inr _ => mkPrepared 0 errorKey end).

(** The name of the mountpoint of a backend, for a warning. *)
Definition warn_mountpoint (n : Z) (parentKey : ptr) (b : Backend) : KM unit :=
  name <- lift (keyName (b_mountpoint b));; lift (add_warning n parentKey [default [] name]).

Definition commit_plugin (split parentKey : ptr) (p i : nat) : KM unit :=
  part <- split_part split i;;
  b <- get_backend (part_handle part);;
  plugin <- slot b setplugins p;;
  has <- has_fn p_kdbSet plugin;;
  if has : bool then
    (if p =? COMMIT_PLUGIN then kret tt else copy_string parentKey (part_parent part));;
    copy_name parentKey (part_parent part);;
    lift (ksRewind (part_keyset part));;
    ret <- call_set (SetSlot p) plugin (part_keyset part) parentKey;;
    (if p =? COMMIT_PLUGIN then copy_string (part_parent part) parentKey else kret tt);;
    if (ret =? -1)%Z then warn_mountpoint 80 parentKey b else kret tt
  else kret tt.

Definition elektraSetCommit (split parentKey : ptr) : KM unit :=
  s <- get_split split;;
  kforM (seq COMMIT_PLUGIN (NR_OF_PLUGINS - COMMIT_PLUGIN)) (fun p =>
    kforM (seq 0 (sp_size s)) (commit_plugin split parentKey p)).

Definition rollback_plugin (split parentKey : ptr) (p i : nat) : KM unit :=
  part <- split_part split i;;
  b <- get_backend (part_handle part);;
  lift (ksRewind (part_keyset part));;
  plugin <- slot b errorplugins p;;
  match plugin with
  | None => kret tt
  | Some _ =>
      copy_name parentKey (part_parent part);;
      ret <- call_error (ErrorSlot p) plugin (part_keyset part) parentKey;;
      if (ret =? -1)%Z then warn_mountpoint 81 parentKey b else kret tt
  end.

Definition elektraSetRollback (split parentKey : ptr) : KM unit :=
  s <- get_split split;;
  kforM (seq 0 NR_OF_PLUGINS) (fun p =>
    kforM (seq 0 (sp_size s)) (rollback_plugin split parentKey p)).

(** The code at the label [error]. *)
Definition set_error_path (handle split ks parentKey initialParent errorKey oldError : ptr) : KM Z :=
  copy_name parentKey initialParent;;
  call_global call_error handle PREROLLBACK ks parentKey;;
  elektraSetRollback split parentKey;;
  match errorKey with
  | None => kret tt
  | Some _ =>
      found <- lift (env_ksLookup ks errorKey 0);;
      match found with
      | Some _ => kret tt
      | None => n <- lift (keyName errorKey);; lift (add_warning 82 parentKey [default [] n])
      end
  end;;
  copy_name parentKey initialParent;;
  call_global call_error handle POSTROLLBACK ks parentKey;;
  copy_name parentKey initialParent;;
  lift (keyDel initialParent);;
  splitDel split;;
  lift (keyDel oldError);;
  kret (-1)%Z.

(** [for (i < ks->size) clear_bit (ks->array[i]->flags, KEY_FLAG_SYNC)] *)
Definition clear_sync (ks : ptr) : KM unit :=
  match ks with
  | None => kundefined
  | Some l =>
      s <- lift (get_ks l);;
      kforM (seq 0 (ks_size s)) (fun i =>
        k <- lift (array_get s i);;
        match k with
        | None => kundefined
        | Some l =>
            v <- lift (get_key l);;
            lift (put_key l (set_flags v (clear_bit (k_flags v) KEY_FLAG_SYNC)))
        end)
  end.

(** No update is needed, or the keys are wrong. *)
Definition set_nothing (split parentKey initialParent oldError : ptr) (syncstate : Z) : KM Z :=
  copy_name parentKey initialParent;;
  (if (syncstate <? 0)%Z then clearError parentKey else kret tt);;
  (if (syncstate =? -1)%Z then lift (set_error 107 parentKey [lit "Assert failed: invalid namespace"])
   else if (syncstate <? -1)%Z then
     p <- split_part split (Z.to_nat (- syncstate - 2));;
     n <- lift (keyName (part_parent p));;
     lift (set_error 107 parentKey [default [] n])
   else kret tt);;
  lift (keyDel initialParent);;
  splitDel split;;
  lift (keyDel oldError);;
  kret (if (syncstate =? 0)%Z then 0 else -1)%Z.

(** Committing, after all plugins before the commit succeeded. *)
Definition set_commit (handle split ks parentKey initialParent oldError : ptr) : KM Z :=
  copyError parentKey oldError;;
  copy_name parentKey initialParent;;
  call_global call_set handle PRECOMMIT ks parentKey;;
  elektraSetCommit split parentKey;;
  splitUpdateSize split;;
  copy_name parentKey initialParent;;
  call_global call_set handle POSTCOMMIT ks parentKey;;
  clear_sync ks;;
  copy_name parentKey initialParent;;
  lift (keyDel initialParent);;
  splitDel split;;
  lift (keyDel oldError);;
  kret 1%Z.

Definition kdbSet_body (handle ks parentKey initialParent split oldError : ptr) : KM Z :=
  built <- splitBuildup split handle parentKey;;
  if (built =? -1)%Z then
    clearError parentKey;;
    lift (set_error 38 parentKey [lit "error in splitBuildup"]);;
    set_error_path handle split ks parentKey initialParent None oldError
  else
    divided <- splitDivide split handle ks;;
    if (divided =? -1)%Z then
      clearError parentKey;;
      cur <- lift (ksCurrent ks);;
      n <- lift (keyName cur);;
      lift (set_error 8 parentKey [default [] n]);;
      set_error_path handle split ks parentKey initialParent None oldError
    else
      synced <- splitSync split;;
      let syncstate := Z.lor divided synced in
      if negb (syncstate =? 1)%Z then set_nothing split parentKey initialParent oldError syncstate
      else
        splitPrepare split;;
        clearError parentKey;;
        h <- get_kdb handle;;
        r <- elektraSetPrepare split parentKey (kdb_globalPlugins h) None;;
        if (any_error r =? -1)%Z then
          set_error_path handle split ks parentKey initialParent (error_key r) oldError
        else set_commit handle split ks parentKey initialParent oldError.

Definition kdbSet (handle ks parentKey : ptr) : KM Z :=
  ns <- lift (keyGetNamespace parentKey);;
  if decide (ns = KEY_NS_NONE) then kret (-1)%Z
  else
    oldError <- save_error parentKey;;
    if decide (ns = KEY_NS_META) then
      clearError parentKey;;
      n <- lift (keyName parentKey);;
      lift (set_error 104 parentKey [default [] n]);;
      lift (keyDel oldError);;
      kret (-1)%Z
    else
      (if decide (ns = KEY_NS_EMPTY)
       then lift (add_warning 105 parentKey [lit "invalid key name passed to kdbSet"]) else kret tt);;
      match handle, ks with
      | Some _, Some _ =>
          initialParent <- lift (keyDup parentKey);;
          split <- splitNew;;
          kdbSet_body handle ks parentKey initialParent split oldError
      | _, _ =>
          clearError parentKey;;
          lift (set_error 37 parentKey [lit "handle or ks null pointer"]);;
          lift (keyDel oldError);;
          kret (-1)%Z
      end.
End KdbSet.
