(* ===== verification/KdbOpen.v ===== *)
(** * KdbOpen: opening and closing a handle

    [kdbOpen], the bootstrap and [kdbClose] of [libs/elektra/kdb.c]. *)
From S2P Require Export KdbSet.
#[local] Open Scope kdb_scope.

Section KdbOpen.
Context {E : Env} {MD : Modules}.

(** The backend [file] as the only one of the handle. *)
Definition bootstrap_backend (handle : ptr) (file : cstr) (errorKey : ptr) : KM bool :=
  h <- get_kdb handle;;
  default <- backendOpenDefault (kdb_modules h) file errorKey;;
  change_kdb handle (fun h => with_defaultBackend h default);;
  kret (if default is Some _ then true else false).

Definition bootstrap_split (handle : ptr) : KM unit :=
  split <- splitNew;;
  change_kdb handle (fun h => with_split h split);;
  h <- get_kdb handle;;
  key <- lift (keyNew (Some KDB_SYSTEM_ELEKTRA) []);;
  splitAppend (kdb_split h) (kdb_defaultBackend h) (Some key) 2;;
  kret tt.

Definition elektraOpenBootstrap (handle keys errorKey : ptr) : KM Z :=
  opened <- bootstrap_backend handle KDB_DB_INIT errorKey;;
  if negb opened then kret (-1)%Z
  else
    bootstrap_split handle;;
    lift (keySetName errorKey (Some KDB_SYSTEM_ELEKTRA));;
    set_string errorKey "kdbOpen(): get";;
    ret <- kdbGet handle keys errorKey;;
    if (ret =? 0)%Z || (ret =? -1)%Z then
      match keys with None => kundefined | Some l => lift (ksClear l);; kret tt end;;
      h <- get_kdb handle;;
      backendClose (kdb_defaultBackend h) errorKey;;
      splitDel (kdb_split h);;
      opened <- bootstrap_backend handle KDB_DB_FILE errorKey;;
      if negb opened then
        elektraRemoveMetaData errorKey (lit "error");;
        kret (-1)%Z
      else
        bootstrap_split handle;;
        lift (keySetName errorKey (Some KDB_SYSTEM_ELEKTRA));;
        set_string errorKey "kdbOpen(): get fallback";;
        fallbackret <- kdbGet handle keys errorKey;;
        lift (keySetName errorKey (Some (lit "system/elektra/mountpoints")));;
        cutKeys <- lift (ksCut keys errorKey);;
        size <- lift (ksGetSize cutKeys);;
        lift (ksAppend keys cutKeys);;
        lift (ksDel cutKeys);;
        elektraRemoveMetaData errorKey (lit "error");;
        kret (if (ret =? -1)%Z && (fallbackret =? -1)%Z then 0
              else if (fallbackret =? 1)%Z && negb (size =? 0)%Z then 2 else 1)%Z
    else
      elektraRemoveMetaData errorKey (lit "error");;
      kret 1%Z.

(** [trieClose] of [trie.c] on the trie of a handle. *)
Definition close_trie (trie : option (@Trie loc)) (errorKey : ptr) : KM unit :=
  kforM (trieClose trie) (fun b => backendClose (Some b) errorKey;; kret tt).

(** The name and the value of [initialParent] are given back to [errorKey]. *)
Definition restore_parent (errorKey initialParent : ptr) : KM unit :=
  copy_name errorKey initialParent;;
  copy_string errorKey initialParent;;
  lift (keyDel initialParent);;
  kret tt.

Definition kdbClose (handle errorKey : ptr) : KM Z :=
  match handle with
  | None => kret (-1)%Z
  | Some _ =>
      initialParent <- lift (keyDup errorKey);;
      h <- get_kdb handle;;
      splitDel (kdb_split h);;
      close_trie (kdb_trie h) errorKey;;
      backendClose (kdb_defaultBackend h) errorKey;;
      change_kdb handle (fun h => with_defaultBackend h None);;
      match kdb_initBackend h with
      | None => kret tt
      | init =>
          backendClose init errorKey;;
          change_kdb handle (fun h => with_initBackend h None)
      end;;
      kforM global_positions (fun g => elektraPluginClose (kdb_globalPlugins h g) errorKey;; kret tt);;
      match kdb_modules h with
      | Some _ => lift (modules_close (kdb_modules h) errorKey);; lift (ksDel (kdb_modules h));; kret tt
      | None => lift (add_warning 47 errorKey [lit "modules were not open"])
      end;;
      free_kdb handle;;
      restore_parent errorKey initialParent;;
      kret 0%Z
  end.

(** The returns of [kdbOpen] before there is a split: the handle is freed. *)
Definition open_failed (handle modules errorKey initialParent : ptr) (n : Z) (msg : string) : KM ptr :=
  lift (ksDel modules);;
  free_kdb handle;;
  lift (set_error n errorKey [lit msg]);;
  restore_parent errorKey initialParent;;
  kret None.

Definition warn_if (b : bool) (n : Z) (errorKey : ptr) (msg : cstr) : KM unit :=
  if b then lift (add_warning n errorKey [msg]) else kret tt.

(** From the bootstrapped handle to the mounted one. *)
Definition open_mount (handle keys errorKey initialParent : ptr) (inFallback : bool) : KM ptr :=
  h <- get_kdb handle;;
  set_string errorKey "kdbOpen(): mountGlobals";;
  dup <- lift (ksDup keys);;
  globals <- mountGlobals handle dup (kdb_modules h) errorKey;;
  warn_if (globals =? -1)%Z 139 errorKey (lit "Mounting global plugins failed");;
  copy_name errorKey initialParent;;
  set_string errorKey "kdbOpen(): backendClose";;
  backendClose (kdb_defaultBackend h) errorKey;;
  splitDel (kdb_split h);;
  change_kdb handle (fun h => with_trie (with_defaultBackend h None) None);;
  split <- splitNew;;
  change_kdb handle (fun h => with_split h split);;
  set_string errorKey "kdbOpen(): mountOpen";;
  opened <- mountOpen handle keys (kdb_modules h) errorKey;;
  warn_if (opened =? -1)%Z 93 errorKey (lit "Initial loading of trie did not work");;
  set_string errorKey "kdbOpen(): mountDefault";;
  mounted <- mountDefault handle (kdb_modules h) inFallback errorKey;;
  if (mounted =? -1)%Z then
    lift (set_error 40 errorKey [lit "could not reopen and mount default backend"]);;
    set_string errorKey "kdbOpen(): close";;
    kdbClose handle errorKey;;
    restore_parent errorKey initialParent;;
    kret None
  else
    set_string errorKey "kdbOpen(): mountVersion";;
    mountVersion handle errorKey;;
    set_string errorKey "kdbOpen(): mountModules";;
    mods <- mountModules handle (kdb_modules h) errorKey;;
    warn_if (mods =? -1)%Z 92 errorKey (lit "Mounting modules did not work");;
    restore_parent errorKey initialParent;;
    kret handle.

Definition kdbOpen (errorKey : ptr) : KM ptr :=
  match errorKey with
  | None => kret None
  | Some _ =>
      handle <- alloc_kdb (mkKDB None None None None None (fun _ => None));;
      initialParent <- lift (keyDup errorKey);;
      modules <- lift (ksNew 0 []);;
      change_kdb (Some handle) (fun h => with_modules h (Some modules));;
      init <- lift (modules_init (Some modules) errorKey);;
      if (init =? -1)%Z then
        open_failed (Some handle) (Some modules) errorKey initialParent 94 "elektraModulesInit returned with -1"
      else
        keys <- lift (ksNew 0 []);;
        r <- elektraOpenBootstrap (Some handle) (Some keys) errorKey;;
        if (r =? -1)%Z then
          open_failed (Some handle) (Some modules) errorKey initialParent 40 "could not open default backend"
        else
          warn_if (r =? 0)%Z 17 errorKey
            (lit "Initial kdbGet() failed, you should either fix " ++ KDB_DB_INIT ++ lit " or the fallback " ++ KDB_DB_FILE);;
          open_mount (Some handle) (Some keys) errorKey initialParent (r =? 2)%Z
  end.
End KdbOpen.
