(* ===== verification/Traces.v ===== *)
(** * Traces: which plugins a computation calls

    [runs F m s T]: when [m], run on the state [s], returns, the state it returns
    in is related to [s] by the frame [F], and the events it appended to the
    trace and its result satisfy [T].  [quiet F m]: [m] calls no plugin.  The
    rules follow the structure of the code; [solve_quiet] applies them. *)
From S2P Require Export KdbOpen.
#[local] Open Scope kdb_scope.

Section Traces.
Context {MD : Modules}.

(** What changes when keys, keysets or the state of modules change. *)
Definition with_effect (s : kstate) (h : heap) (m : module_state) (evs : list event) : kstate :=
  mkState h (st_plugins s) (st_backends s) (st_splits s) (st_kdbs s) m (st_trace s ++ evs).

Class Frame (F : kstate -> kstate -> Prop) : Prop := {
  frame_preorder :: PreOrder F;
  frame_effect s h m evs : F s (with_effect s h m evs)
}.

(** Plugins, backends, splits and handles stay. *)
Definition same_structs (s s' : kstate) : Prop :=
  st_plugins s' = st_plugins s /\ st_backends s' = st_backends s /\ st_splits s' = st_splits s /\ st_kdbs s' = st_kdbs s.

(** Plugins, backends and handles stay. *)
Definition same_backends (s s' : kstate) : Prop :=
  st_plugins s' = st_plugins s /\ st_backends s' = st_backends s /\ st_kdbs s' = st_kdbs s.

(** Anything may change. *)
Definition any_state (s s' : kstate) : Prop := True.

#[global] Instance same_structs_frame : Frame same_structs.
Proof. unfold same_structs. split; [|done]. split; [done|]. intros s1 s2 s3 (?&?&?&?) (?&?&?&?). split_and!; congruence. Qed.
#[global] Instance same_backends_frame : Frame same_backends.
Proof. unfold same_backends. split; [|done]. split; [done|]. intros s1 s2 s3 (?&?&?) (?&?&?). split_and!; congruence. Qed.
#[global] Instance any_state_frame : Frame any_state.
Proof. unfold any_state. by repeat split. Qed.

Definition runs {A} (F : kstate -> kstate -> Prop) (m : KM A) (s : kstate) (T : A -> list event -> Prop) : Prop :=
  forall a s', m s = KRet a s' -> F s s' /\ exists evs, st_trace s' = st_trace s ++ evs /\ T a evs.

Definition quiet {A} (F : kstate -> kstate -> Prop) (m : KM A) : Prop :=
  forall s, runs F m s (fun _ evs => evs = []).

Section Rules.
Context {F : kstate -> kstate -> Prop} {HF : Frame F}.

Lemma runs_mono {A} (m : KM A) s (T T' : A -> list event -> Prop) :
  runs F m s T -> (forall a evs, T a evs -> T' a evs) -> runs F m s T'.
Proof. intros H HT a s' E. apply H in E as (HF' & evs & Ht & HTa). eauto. Qed.

Lemma runs_ret {A} (a : A) s (T : A -> list event -> Prop) : T a [] -> runs F (kret a) s T.
Proof. intros HT a' s' [= <- <-]. split; [reflexivity|]. exists []. by rewrite app_nil_r. Qed.

Lemma runs_undefined {A} s (T : A -> list event -> Prop) : runs F kundefined s T.
Proof. by intros a s' ?. Qed.

Lemma runs_nofuel {A} s (T : A -> list event -> Prop) : runs F knofuel s T.
Proof. by intros a s' ?. Qed.

(** Sequencing: the second computation is proved for every state the first
    may return in. *)
Lemma runs_bind {A B} (m : KM A) (f : A -> KM B) s (T1 : A -> list event -> Prop) (T : B -> list event -> Prop) :
  runs F m s T1 ->
  (forall a s1 evs1, F s s1 -> T1 a evs1 -> runs F (f a) s1 (fun b evs2 => T b (evs1 ++ evs2))) ->
  runs F (kbind m f) s T.
Proof.
  intros H1 H2 b s' E. unfold kbind in E. destruct (m s) as [a s1| |] eqn:Em; [|done..].
  destruct (H1 a s1 Em) as (HF1 & evs1 & Ht1 & HT1). destruct (H2 a s1 evs1 HF1 HT1 b s' E) as (HF2 & evs2 & Ht2 & HT2).
  split; [by etrans|]. exists (evs1 ++ evs2). split; [by rewrite Ht2, Ht1, app_assoc|done].
Qed.

Lemma runs_quiet_bind {A B} (m : KM A) (f : A -> KM B) s (T : B -> list event -> Prop) :
  quiet F m -> (forall a s1, F s s1 -> runs F (f a) s1 T) -> runs F (kbind m f) s T.
Proof.
  intros H1 H2. eapply runs_bind; [apply H1|]. intros a s1 evs1 HF1 ->. by apply H2.
Qed.

Lemma runs_quiet {A} (m : KM A) s (T : A -> list event -> Prop) : quiet F m -> (forall a, T a []) -> runs F m s T.
Proof. intros H HT. eapply runs_mono; [apply H|]. by intros a evs ->. Qed.

Lemma quiet_runs {A} (m : KM A) s : quiet F m -> runs F m s (fun _ evs => evs = []).
Proof. intros H. apply H. Qed.

Lemma quiet_bind {A B} (m : KM A) (f : A -> KM B) : quiet F m -> (forall a, quiet F (f a)) -> quiet F (kbind m f).
Proof. intros H1 H2 s. apply runs_quiet_bind; [done|]. intros a s1 _. apply H2. Qed.

Lemma quiet_ret {A} (a : A) : quiet F (kret a).
Proof. intros s. by apply runs_ret. Qed.

Lemma quiet_undefined {A} : quiet F (@kundefined _ A).
Proof. intros s. apply runs_undefined. Qed.

Lemma quiet_nofuel {A} : quiet F (@knofuel _ A).
Proof. intros s. apply runs_nofuel. Qed.

Lemma quiet_lift {A} (m : M A) : quiet F (lift m).
Proof.
  intros s a s' E. unfold lift in E. destruct (m (st_heap s)) as [a' h| |]; [|done..]. injection E as <- <-.
  assert (with_heap s h = with_effect s h (st_modules s) []) as -> by (unfold with_heap, with_effect; by rewrite app_nil_r).
  split; [apply frame_effect|]. exists []. split; [|done]. simpl. done.
Qed.

Lemma quiet_deref_in {V} (m : kstate -> gmap loc V) p : quiet F (deref_in m p).
Proof.
  intros s a s' E. unfold deref_in in E. destruct p as [l|]; [|done]. destruct (m s !! l); [|done].
  injection E as <- <-. split; [reflexivity|]. exists []. by rewrite app_nil_r.
Qed.

Lemma quiet_kforM {A} (l : list A) f : (forall x, quiet F (f x)) -> quiet F (kforM l f).
Proof. intros Hf. induction l as [|x l IH]; [apply quiet_ret|]. by apply quiet_bind. Qed.

Lemma quiet_kfor {A B} (l : list A) (f : A -> KM (option B)) : (forall x, quiet F (f x)) -> quiet F (kfor l f).
Proof.
  intros Hf. induction l as [|x l IH]; [apply quiet_ret|]. apply quiet_bind; [done|]. intros [b|]; [apply quiet_ret|done].
Qed.

Lemma quiet_kfold {A S B} (l : list A) (f : S -> A -> KM (S + B)) s :
  (forall s x, quiet F (f s x)) -> quiet F (kfold l f s).
Proof.
  intros Hf. revert s. induction l as [|x l IH]; intros s; [apply quiet_ret|]. apply quiet_bind; [done|].
  intros [s'|b]; [apply IH|apply quiet_ret].
Qed.

Lemma quiet_kloop {A B} fuel (f : A -> KM (A + B)) a : (forall x, quiet F (f x)) -> quiet F (kloop fuel f a).
Proof.
  intros Hf. revert a. induction fuel as [|n IH]; intros a; [apply quiet_nofuel|]. apply quiet_bind; [done|].
  intros [a'|b]; [apply IH|apply quiet_ret].
Qed.

Lemma quiet_ks_loop {B} ks (f : loc -> KM (option B)) : (forall c, quiet F (f c)) -> quiet F (kdb_ks_loop ks f).
Proof.
  intros Hf. apply quiet_bind; [apply quiet_lift|]. intros n. apply quiet_kloop. intros _.
  apply quiet_bind; [apply quiet_lift|]. intros [c|]; [|apply quiet_ret]. apply quiet_bind; [apply Hf|]. intros r. apply quiet_ret.
Qed.

(** A list of computations: the events are those of its elements in order. *)
Lemma runs_kforM {A} (l : list A) f s (T : A -> list event -> Prop) :
  (forall x s1, x ∈ l -> F s s1 -> runs F (f x) s1 (fun _ evs => T x evs)) ->
  runs F (kforM l f) s (fun _ evs => exists evss, evs = concat evss /\ Forall2 T l evss).
Proof.
  revert s. induction l as [|x l IH]; intros s Hf.
  { apply runs_ret. exists []. by split; [|constructor]. }
  eapply runs_bind; [apply Hf; [left|reflexivity]|]. intros [] s1 evs1 HF1 H1.
  eapply runs_mono.
  - apply IH. intros y s2 Hy HF2. apply Hf; [by right|by etrans].
  - intros _ evs2 (evss & -> & H2). exists (evs1 :: evss). split; [done|by constructor].
Qed.

(** An invariant of a fold over the events so far. *)
Lemma runs_kfold {A S B} (l : list A) (f : S -> A -> KM (S + B)) s st
    (I : list A -> S -> list event -> Prop) (T : (S + B) -> list event -> Prop) evs0 :
  I l st evs0 ->
  (forall x r st evs s1, F s s1 -> I (x :: r) st evs ->
     runs F (f st x) s1 (fun t evs' => match t with inl st' => I r st' (evs ++ evs') | inr b => T (inr b) (evs ++ evs') end)) ->
  (forall st evs, I [] st evs -> T (inl st) evs) ->
  runs F (kfold l f st) s (fun t evs => T t (evs0 ++ evs)).
Proof.
  revert s st evs0. induction l as [|x l IH]; intros s st evs0 H0 Hf HT.
  { apply runs_ret. rewrite app_nil_r. by apply HT. }
  eapply runs_bind; [apply Hf; [reflexivity|exact H0]|]. intros [st'|b] s1 evs1 HF1 H1; cbn beta iota in *.
  - eapply runs_mono; [apply (IH s1 st' (evs0 ++ evs1) H1)|].
    + intros y r st2 evs2 s2 HF2 HI. apply Hf; [by etrans|done].
    + done.
    + intros t evs2 HTt. by rewrite app_assoc.
  - apply runs_ret. by rewrite app_nil_r.
Qed.
End Rules.

(** Frames without the splits allow writing to them. *)
Definition loose (F : kstate -> kstate -> Prop) : Prop := forall s x, F s (set_splits s x).

Lemma same_backends_loose : loose same_backends.
Proof. done. Qed.

Lemma any_state_loose : loose any_state.
Proof. done. Qed.

Section Splits.
Context {F : kstate -> kstate -> Prop} {HF : Frame F} (HL : loose F).

Lemma quiet_splits {A} (m : KM A) :
  (forall s a s', m s = KRet a s' -> exists x, s' = set_splits s x) -> quiet F m.
Proof.
  intros H s a s' E. apply H in E as [x ->]. split; [apply HL|]. exists []. by rewrite app_nil_r.
Qed.

Lemma quiet_put_split p v : quiet F (put_split p v).
Proof.
  apply quiet_splits. intros s a s' E. unfold put_split, store in E. destruct p as [l|]; [|done].
  destruct (st_splits s !! l); [|done]. injection E as _ <-. by eexists.
Qed.
Lemma quiet_alloc_split v : quiet F (alloc_split v).
Proof. apply quiet_splits. intros s a s' E. injection E as _ <-. by eexists. Qed.
Lemma quiet_free_split p : quiet F (free_split p).
Proof.
  apply quiet_splits. intros s a s' E. unfold free_split, release in E. destruct p as [l|]; [|done].
  destruct (st_splits s !! l); [|done]. injection E as _ <-. by eexists.
Qed.
End Splits.

End Traces.

Create HintDb quiet discriminated.

(** Decomposes a computation that calls no plugin. *)
Ltac solve_quiet1 :=
  lazymatch goal with
  | |- forall _, _ => intros ?
  | |- quiet _ (kbind _ _) => apply quiet_bind
  | |- quiet _ (kret _) => apply quiet_ret
  | |- quiet _ kundefined => apply quiet_undefined
  | |- quiet _ knofuel => apply quiet_nofuel
  | |- quiet _ (lift _) => apply quiet_lift
  | |- quiet _ (kforM _ _) => apply quiet_kforM
  | |- quiet _ (kfor _ _) => apply quiet_kfor
  | |- quiet _ (kfold _ _ _) => apply quiet_kfold
  | |- quiet _ (kloop _ _ _) => apply quiet_kloop
  | |- quiet _ (kdb_ks_loop _ _) => apply quiet_ks_loop
  | |- quiet _ (get_kdb _) => apply quiet_deref_in
  | |- quiet _ (get_split _) => apply quiet_deref_in
  | |- quiet _ (get_backend _) => apply quiet_deref_in
  | |- quiet _ (get_plugin _) => apply quiet_deref_in
  | |- quiet _ (put_split _ _) => apply quiet_put_split
  | |- quiet _ (alloc_split _) => apply quiet_alloc_split
  | |- quiet _ (free_split _) => apply quiet_free_split
  | |- quiet _ (match ?x with _ => _ end) => destruct x
  | |- loose _ => first [assumption | apply same_backends_loose | apply any_state_loose]
  | |- _ => solve [eauto with quiet typeclass_instances]
  end.
Ltac solve_quiet := repeat (cbn beta iota zeta; solve_quiet1).
