(* ===== verification/KdbFacts.v ===== *)
(** * KdbFacts: the transactions of kdbGet and kdbSet

    Which plugins [kdbSet] and [kdbGet] call, in which order, and how the
    results of the calls decide about commit and rollback. *)
From S2P Require Export Traces.
#[local] Open Scope kdb_scope.

(** ** Computations that call no plugin *)

Section Quiet.
Context {E : Env} {MD : Modules} {F : kstate -> kstate -> Prop} {HF : Frame F}.

Lemma quiet_slot b w i : quiet F (slot b w i).
Proof. unfold slot. solve_quiet. Qed.
Lemma quiet_split_part split i : quiet F (split_part split i).
Proof. unfold split_part. solve_quiet. Qed.
Lemma quiet_has_fn f p : quiet F (has_fn f p).
Proof. unfold has_fn. solve_quiet. Qed.
Lemma quiet_copy_name key from : quiet F (copy_name key from).
Proof. unfold copy_name. solve_quiet. Qed.
Lemma quiet_copy_string key from : quiet F (copy_string key from).
Proof. unfold copy_string. solve_quiet. Qed.
Lemma quiet_set_string key s : quiet F (set_string key s).
Proof. unfold set_string. solve_quiet. Qed.
Lemma quiet_clearError key : quiet F (clearError key).
Proof. unfold clearError. solve_quiet. Qed.
Lemma quiet_copyError dest src : quiet F (copyError dest src).
Proof. unfold copyError. solve_quiet. Qed.
Lemma quiet_warn_mountpoint n key b : quiet F (warn_mountpoint n key b).
Proof. unfold warn_mountpoint. solve_quiet. Qed.
Lemma quiet_mountGetBackend handle key : quiet F (mountGetBackend handle key).
Proof. unfold mountGetBackend. solve_quiet. Qed.
Lemma quiet_search_backend_loop parts backend parent i : quiet F (search_backend_loop parts backend parent i).
Proof. revert i. induction parts as [|p r IH]; intros i; cbn [search_backend_loop]; unfold search_namespace; solve_quiet; apply IH. Qed.
Lemma quiet_splitSearchBackend split backend parent : quiet F (splitSearchBackend split backend parent).
Proof. unfold splitSearchBackend. solve_quiet. apply quiet_search_backend_loop. Qed.
Lemma quiet_clear_sync ks : quiet F (clear_sync ks).
Proof. unfold clear_sync. solve_quiet. Qed.
End Quiet.

#[export] Hint Resolve quiet_slot quiet_split_part quiet_has_fn quiet_copy_name quiet_copy_string quiet_set_string
  quiet_clearError quiet_copyError quiet_warn_mountpoint quiet_mountGetBackend quiet_splitSearchBackend
  quiet_clear_sync : quiet.

Section QuietSplits.
Context {E : Env} {MD : Modules} {F : kstate -> kstate -> Prop} {HF : Frame F} (HL : loose F).

Lemma quiet_put_part split i p : quiet F (put_part split i p).
Proof. unfold put_part. solve_quiet. Qed.
Lemma quiet_splitNew : quiet F splitNew.
Proof. unfold splitNew. solve_quiet. Qed.
Lemma quiet_splitDel split : quiet F (splitDel split).
Proof. unfold splitDel. solve_quiet. Qed.
Lemma quiet_splitAppend split backend key bits : quiet F (splitAppend split backend key bits).
Proof. unfold splitAppend. solve_quiet. Qed.
Lemma quiet_splitRemove split i : quiet F (splitRemove split i).
Proof. unfold splitRemove. solve_quiet. Qed.
Lemma quiet_splitUpdateFileName split handle key : quiet F (splitUpdateFileName split handle key).
Proof. unfold splitUpdateFileName. solve_quiet. Qed.
Hint Resolve quiet_put_part quiet_splitNew quiet_splitDel quiet_splitAppend quiet_splitRemove : quiet.

Lemma quiet_buildup_backends split kdb key : quiet F (buildup_backends split kdb key).
Proof. unfold buildup_backends, buildup_part. solve_quiet. Qed.
Hint Resolve quiet_buildup_backends : quiet.
Lemma quiet_splitBuildup split kdb key : quiet F (splitBuildup split kdb key).
Proof.
  unfold splitBuildup. generalize 2. intros n. revert key. induction n as [|n IH]; intros key; cbn [splitBuildup_fuel];
    unfold elektraKeySetNameByNamespace; solve_quiet; apply IH.
Qed.
Lemma quiet_splitDivide split handle ks : quiet F (splitDivide split handle ks).
Proof. unfold splitDivide. solve_quiet. Qed.
Lemma quiet_splitAppoint split handle ks : quiet F (splitAppoint split handle ks).
Proof. unfold splitAppoint. solve_quiet. Qed.
Lemma quiet_sync_loop split parts i n : quiet F (sync_loop split parts i n).
Proof. revert i n. induction parts as [|p r IH]; intros i n; cbn [sync_loop]; solve_quiet; apply IH. Qed.
Lemma quiet_splitSync split : quiet F (splitSync split).
Proof. unfold splitSync. solve_quiet. apply quiet_sync_loop. Qed.
Lemma quiet_prepare_loop fuel split i : quiet F (prepare_loop fuel split i).
Proof. revert i. induction fuel as [|n IH]; intros i; cbn [prepare_loop]; solve_quiet; apply IH. Qed.
Lemma quiet_splitPrepare split : quiet F (splitPrepare split).
Proof. unfold splitPrepare. solve_quiet. apply quiet_prepare_loop. Qed.
End QuietSplits.

#[export] Hint Resolve same_backends_loose any_state_loose quiet_put_part quiet_splitNew quiet_splitDel quiet_splitAppend
  quiet_splitRemove quiet_splitUpdateFileName quiet_splitBuildup quiet_splitDivide quiet_splitAppoint quiet_splitSync
  quiet_splitPrepare : quiet.

(** ** Reading the structs and calling plugins *)

Section Calls.
Context {E : Env} {MD : Modules} {F : kstate -> kstate -> Prop} {HF : Frame F}.

Lemma runs_deref_in {V A} (m : kstate -> gmap loc V) p (f : V -> KM A) s T :
  (forall l v, p = Some l -> m s !! l = Some v -> runs F (f v) s T) -> runs F (kbind (deref_in m p) f) s T.
Proof.
  intros H a s' E'. unfold kbind, deref_in in E'. destruct p as [l|]; [|done].
  destruct (m s !! l) as [v|] eqn:Ev; [|done]. by apply (H l v).
Qed.

Lemma runs_split_part {A} split i (f : Part -> KM A) s T :
  (forall l sp p, split = Some l -> st_splits s !! l = Some sp -> sp_parts sp !! i = Some p -> runs F (f p) s T) ->
  runs F (kbind (split_part split i) f) s T.
Proof.
  intros H a s' E'. unfold kbind, split_part, kbind, get_split, deref_in in E'. destruct split as [l|]; [|done].
  destruct (st_splits s !! l) as [sp|] eqn:Es; [|done]. destruct (sp_parts sp !! i) as [p|] eqn:Ep; [|done].
  by apply (H l sp p).
Qed.

Lemma runs_slot {A} b w i (f : ptr -> KM A) s T :
  (forall p, b_slots b w !! i = Some p -> runs F (f p) s T) -> runs F (kbind (slot b w i) f) s T.
Proof. intros H a s' E'. unfold kbind, slot in E'. destruct (b_slots b w !! i) as [p|]; [|done]. by apply (H p). Qed.

(** The function pointer [fn] of the plugin at [p]. *)
Definition fn_of (s : kstate) (fn : Plugin -> option plugin_fn) (p : ptr) : option (loc * plugin_fn) :=
  l ← p; pl ← st_plugins s !! l; f ← fn pl; Some (l, f).

Lemma runs_has_fn {A} fn p (f : bool -> KM A) s T :
  runs F (f (bool_decide (is_Some (fn_of s fn p)))) s T -> runs F (kbind (has_fn fn p) f) s T.
Proof.
  intros H a s' E'. unfold has_fn, get_plugin, deref_in, fn_of, kbind in *. destruct p as [l|]; simpl in *; [|by apply H].
  destruct (st_plugins s !! l) as [pl|]; simpl in *; [|done]. destruct (fn pl); simpl in *; by apply H.
Qed.

Lemma quiet_set_error_read_only info returned error : quiet F (set_error_read_only info returned error).
Proof. unfold set_error_read_only. solve_quiet. Qed.

Lemma quiet_run_fn fn handle ks key : quiet F (run_fn fn handle ks key).
Proof.
  destruct fn; cbn [run_fn]; try (solve_quiet; apply quiet_set_error_read_only).
  intros s a s' E'. destruct (module_run _ _ _ _ _ _) as [[r m] h| |]; [|done..]. injection E' as <- <-.
  assert (mkState h (st_plugins s) (st_backends s) (st_splits s) (st_kdbs s) m (st_trace s) = with_effect s h m []) as ->
    by (unfold with_effect; by rewrite app_nil_r).
  split; [apply frame_effect|]. exists []. done.
Qed.

Lemma runs_call_plugin where_ fn handle ks key s :
  runs F (call_plugin where_ fn handle ks key) s (fun r evs => evs = [mkEvent where_ handle ks r]).
Proof.
  eapply runs_quiet_bind; [apply quiet_run_fn|]. intros r s1 _.
  eapply (runs_bind _ _ _ (fun _ evs => evs = [mkEvent where_ handle ks r])).
  - intros a s' [= <- <-]. split; [apply (frame_effect s1 (st_heap s1) (st_modules s1))|]. by exists [mkEvent where_ handle ks r].
  - intros [] s2 evs _ ->. by apply runs_ret.
Qed.

(** The calls of the three kinds of functions. *)
Definition called (s : kstate) fn (where_ : place) (p ks : ptr) (r : Z) (evs : list event) : Prop :=
  match fn_of s fn p with Some (l, _) => evs = [mkEvent where_ l ks r] | None => False end.

Lemma runs_call_get where_ p ks key s s0 :
  st_plugins s = st_plugins s0 -> runs F (call_get where_ p ks key) s (called s0 p_kdbGet where_ p ks).
Proof.
  intros E1. unfold call_get, called, fn_of. apply runs_deref_in. intros l v -> Hv. rewrite <- E1. simpl. rewrite Hv. simpl.
  destruct (p_kdbGet v); simpl; [apply runs_call_plugin|apply runs_undefined].
Qed.
Lemma runs_call_set where_ p ks key s s0 :
  st_plugins s = st_plugins s0 -> runs F (call_set where_ p ks key) s (called s0 p_kdbSet where_ p ks).
Proof.
  intros E1. unfold call_set, called, fn_of. apply runs_deref_in. intros l v -> Hv. rewrite <- E1. simpl. rewrite Hv. simpl.
  destruct (p_kdbSet v); simpl; [apply runs_call_plugin|apply runs_undefined].
Qed.
Lemma runs_call_error where_ p ks key s s0 :
  st_plugins s = st_plugins s0 -> runs F (call_error where_ p ks key) s (called s0 p_kdbError where_ p ks).
Proof.
  intros E1. unfold call_error, called, fn_of. apply runs_deref_in. intros l v -> Hv. rewrite <- E1. simpl. rewrite Hv. simpl.
  destruct (p_kdbError v); simpl; [apply runs_call_plugin|apply runs_undefined].
Qed.
End Calls.

(** ** The calls of commit and rollback *)

(** What a call is: the slot, the plugin and the keyset. *)
Definition call_of (e : event) : place * loc * ptr := (ev_place e, ev_plugin e, ev_keyset e).

Section Transaction.
Context {E : Env} {MD : Modules}.

(** The call of the plugin in the slot [p] of the backend of [part], if there
    is one with the function [fn]. *)
Definition slot_call (s : kstate) (w : slots) (fn : Plugin -> option plugin_fn) (mk : nat -> place) (p : nat)
    (part : Part) : list (place * loc * ptr) :=
  match (h ← part_handle part; b ← st_backends s !! h; q ← b_slots b w !! p; fn_of s fn q) with
  | Some (l, _) => [(mk p, l, part_keyset part)]
  | None => []
  end.

(** Slot after slot over all parts. *)
Definition slots_calls s w fn mk (ps : list nat) (parts : list Part) : list (place * loc * ptr) :=
  flat_map (fun p => flat_map (slot_call s w fn mk p) parts) ps.

Definition commit_calls (s : kstate) (parts : list Part) : list (place * loc * ptr) :=
  slots_calls s setplugins p_kdbSet SetSlot (seq COMMIT_PLUGIN (NR_OF_PLUGINS - COMMIT_PLUGIN)) parts.
Definition rollback_calls (s : kstate) (parts : list Part) : list (place * loc * ptr) :=
  slots_calls s errorplugins p_kdbError ErrorSlot (seq 0 NR_OF_PLUGINS) parts.

Lemma slot_call_same s s1 w fn mk p part :
  st_plugins s1 = st_plugins s -> st_backends s1 = st_backends s -> slot_call s1 w fn mk p part = slot_call s w fn mk p part.
Proof. intros E1 E2. unfold slot_call, fn_of. by rewrite E1, E2. Qed.

Lemma slots_calls_same s s1 w fn mk ps parts :
  st_plugins s1 = st_plugins s -> st_backends s1 = st_backends s -> slots_calls s1 w fn mk ps parts = slots_calls s w fn mk ps parts.
Proof.
  intros E1 E2. unfold slots_calls. apply flat_map_ext. intros p. apply flat_map_ext. intros part. by apply slot_call_same.
Qed.

Lemma slot_call_lookup s w fn mk p part h b q :
  part_handle part = Some h -> st_backends s !! h = Some b -> b_slots b w !! p = Some q ->
  slot_call s w fn mk p part = match fn_of s fn q with Some (l, _) => [(mk p, l, part_keyset part)] | None => [] end.
Proof. intros E1 E2 E3. unfold slot_call. by rewrite E1; simpl; rewrite E2; simpl; rewrite E3. Qed.

Lemma flat_map_events {X} (g : X -> list (place * loc * ptr)) (l : list X) evss :
  Forall2 (fun x evs => map call_of evs = g x) l evss -> map call_of (concat evss) = flat_map g l.
Proof. induction 1 as [|x evs l evss H Hs IH]; [done|]. simpl. by rewrite map_app, H, IH. Qed.

(** A loop over the parts of a split. *)
Lemma runs_parts split sp (f : nat -> KM unit) (g : Part -> list (place * loc * ptr)) s :
  st_splits s !! split = Some sp ->
  (forall i part s1, sp_parts sp !! i = Some part -> same_structs s s1 ->
     runs same_structs (f i) s1 (fun _ evs => map call_of evs = g part)) ->
  runs same_structs (kforM (seq 0 (sp_size sp)) f) s (fun _ evs => map call_of evs = flat_map g (sp_parts sp)).
Proof.
  intros Hs Hf. eapply runs_mono.
  - apply (runs_kforM _ _ _ (fun i evs => forall part, sp_parts sp !! i = Some part -> map call_of evs = g part)).
    intros i s1 Hi HF. apply elem_of_seq in Hi.
    destruct (lookup_lt_is_Some_2 (sp_parts sp) i) as [part Hp]; [unfold sp_size in Hi; lia|].
    eapply runs_mono; [by apply (Hf i part)|]. intros a evs H part' Hp'. congruence.
  - intros a evs (evss & -> & H). apply flat_map_events.
    apply Forall2_same_length_lookup_2; [by rewrite <- (Forall2_length _ _ _ H), length_seq|].
    intros i part evs Hp He. eapply Forall2_lookup_lr in H; [apply H; exact Hp| |exact He].
    apply lookup_seq. split; [lia|]. by apply lookup_lt_Some in Hp.
Qed.

Lemma commit_plugin_calls split sp key p i part s :
  st_splits s !! split = Some sp -> sp_parts sp !! i = Some part ->
  runs same_structs (commit_plugin (Some split) key p i) s
    (fun _ evs => map call_of evs = slot_call s setplugins p_kdbSet SetSlot p part).
Proof.
  intros Hs Hp. unfold commit_plugin. apply runs_split_part. intros l sp' part' [= <-] Hs' Hp'. simplify_eq.
  apply runs_deref_in. intros h b Hh Hb. apply runs_slot. intros q Hq. apply runs_has_fn.
  rewrite (slot_call_lookup s _ _ _ _ _ h b q) by done. case_bool_decide as Hfn.
  - apply runs_quiet_bind; [solve_quiet|]. intros [] s1 HF1.
    apply runs_quiet_bind; [solve_quiet|]. intros [] s2 HF2.
    apply runs_quiet_bind; [solve_quiet|]. intros z s3 HF3.
    eapply runs_bind; [apply (runs_call_set _ _ _ _ _ s)|].
    { by destruct HF1 as (<- & _), HF2 as (<- & _), HF3 as (<- & _). }
    intros ret s4 evs _ Hc. apply runs_quiet_bind; [solve_quiet|]. intros [] s5 _.
    apply runs_quiet; [solve_quiet|]. intros []. unfold called in Hc. destruct (fn_of s p_kdbSet q) as [[l f]|]; [|done].
    by subst evs.
  - apply runs_ret. destruct (fn_of s p_kdbSet q); [|done]. exfalso. apply Hfn. eauto.
Qed.

Lemma rollback_plugin_calls split sp key p i part s :
  st_splits s !! split = Some sp -> sp_parts sp !! i = Some part ->
  runs same_structs (rollback_plugin (Some split) key p i) s
    (fun _ evs => map call_of evs = slot_call s errorplugins p_kdbError ErrorSlot p part).
Proof.
  intros Hs Hp. unfold rollback_plugin. apply runs_split_part. intros l sp' part' [= <-] Hs' Hp'. simplify_eq.
  apply runs_deref_in. intros h b Hh Hb. apply runs_quiet_bind; [solve_quiet|]. intros z s1 HF1.
  apply runs_slot. intros q Hq. rewrite (slot_call_lookup s _ _ _ _ _ h b q) by done.
  destruct q as [q|]; [|by apply runs_ret].
  apply runs_quiet_bind; [solve_quiet|]. intros [] s2 HF2.
  eapply runs_bind; [apply (runs_call_error _ _ _ _ _ s)|].
  - by destruct HF1 as (<- & _), HF2 as (<- & _).
  - intros ret s3 evs _ H. apply runs_quiet; [solve_quiet|]. intros []. unfold called in H.
    destruct (fn_of s p_kdbError (Some q)) as [[l f]|]; [|done]. by subst evs.
Qed.

(** [elektraSetCommit] calls the plugins from the slot of the commit on, slot
    after slot, each for all parts. *)
Lemma elektraSetCommit_calls split sp key s :
  st_splits s !! split = Some sp ->
  runs same_structs (elektraSetCommit (Some split) key) s (fun _ evs => map call_of evs = commit_calls s (sp_parts sp)).
Proof.
  intros Hs. unfold elektraSetCommit. apply runs_deref_in. intros l sp' [= <-] Hs'. simplify_eq.
  eapply runs_mono; [apply (runs_kforM _ _ _ (fun p evs => map call_of evs =
    flat_map (slot_call s setplugins p_kdbSet SetSlot p) (sp_parts sp)))|].
  - intros p s1 _ HF. pose proof HF as (E1 & E2 & E3 & E4). apply (runs_parts split); [congruence|].
    intros i part s2 Hp HF2. pose proof HF2 as (E1' & E2' & E3' & E4').
    rewrite <- (slot_call_same s s2) by congruence. apply (commit_plugin_calls split sp); [congruence|done].
  - intros a evs (evss & -> & H). by apply flat_map_events.
Qed.

(** [elektraSetRollback] calls the error plugins of all slots. *)
Lemma elektraSetRollback_calls split sp key s :
  st_splits s !! split = Some sp ->
  runs same_structs (elektraSetRollback (Some split) key) s (fun _ evs => map call_of evs = rollback_calls s (sp_parts sp)).
Proof.
  intros Hs. unfold elektraSetRollback. apply runs_deref_in. intros l sp' [= <-] Hs'. simplify_eq.
  eapply runs_mono; [apply (runs_kforM _ _ _ (fun p evs => map call_of evs =
    flat_map (slot_call s errorplugins p_kdbError ErrorSlot p) (sp_parts sp)))|].
  - intros p s1 _ HF. pose proof HF as (E1 & E2 & E3 & E4). apply (runs_parts split); [congruence|].
    intros i part s2 Hp HF2. pose proof HF2 as (E1' & E2' & E3' & E4').
    rewrite <- (slot_call_same s s2) by congruence. apply (rollback_plugin_calls split sp); [congruence|done].
  - intros a evs (evss & -> & H). by apply flat_map_events.
Qed.

(** *** Before the commit *)

(** The call of the function [fn] of the global plugin [g], if there is one. *)
Definition global_calls (s : kstate) (fn : Plugin -> option plugin_fn) (hooks : GlobalpluginPositions -> ptr)
    (g : GlobalpluginPositions) (ks : ptr) : list (place * loc * ptr) :=
  match fn_of s fn (hooks g) with Some (l, _) => [(Global g, l, ks)] | None => [] end.

Definition hook_call (s : kstate) := global_calls s p_kdbSet.

(** The calls for the slot [p] of a part. *)
Definition prepare_slot_calls (s : kstate) hooks (part : Part) (p : nat) : list (place * loc * ptr) :=
  slot_call s setplugins p_kdbSet SetSlot p part ++
  (if p =? 0 then hook_call s hooks PRESETSTORAGE (part_keyset part)
   else if p =? STORAGE_PLUGIN - 1 then hook_call s hooks PRESETCLEANUP (part_keyset part)
   else []).

(** The call of a plugin of a backend that failed. *)
Definition failed (e : event) : bool :=
  match ev_place e with SetSlot _ => (ev_ret e =? -1)%Z | _ => false end.

(** The resolver found that a part needs no sync. *)
Definition unneeded (e : event) : Prop := ev_place e = SetSlot RESOLVER_PLUGIN /\ ev_ret e = 0%Z.

(** The events of a part: only the resolver, which needs no sync, or the
    plugins of all slots before the commit. *)
Definition part_prepared (s : kstate) hooks (part : Part) (evs : list event) : Prop :=
  (exists e, evs = [e] /\ unneeded e /\ map call_of evs = slot_call s setplugins p_kdbSet SetSlot RESOLVER_PLUGIN part) \/
  (Forall (fun e => ~ unneeded e) evs /\ map call_of evs = flat_map (prepare_slot_calls s hooks part) (seq 0 COMMIT_PLUGIN)).

Lemma prepare_plugin_calls split sp key i p part s :
  st_splits s !! split = Some sp -> sp_parts sp !! i = Some part ->
  runs same_structs (prepare_plugin (Some split) key i p) s (fun r evs =>
    map call_of evs = slot_call s setplugins p_kdbSet SetSlot p part /\
    match r with
    | None => p = 0 /\ exists e, evs = [e] /\ unneeded e
    | Some ret => existsb failed evs = (ret =? -1)%Z /\ Forall (fun e => ~ unneeded e) evs
    end).
Proof.
  intros Hs Hp. unfold prepare_plugin. apply runs_split_part. intros l sp' part' [= <-] Hs' Hp'. simplify_eq.
  apply runs_deref_in. intros h b Hh Hb. apply runs_quiet_bind; [solve_quiet|]. intros z s0 HF0.
  apply runs_slot. intros q Hq. apply runs_has_fn.
  rewrite (slot_call_lookup s _ _ _ _ _ h b q) by done.
  assert (fn_of s0 p_kdbSet q = fn_of s p_kdbSet q) as -> by (unfold fn_of; by destruct HF0 as (-> & _)).
  case_bool_decide as Hfn.
  - apply runs_quiet_bind; [solve_quiet|]. intros [] s1 HF1.
    apply runs_quiet_bind; [solve_quiet|]. intros [] s2 HF2.
    eapply runs_bind; [apply (runs_call_set _ _ _ _ _ s)|].
    { by destruct HF0 as (<- & _), HF1 as (<- & _), HF2 as (<- & _). }
    intros ret s4 evs _ Hc. unfold called in Hc. destruct (fn_of s p_kdbSet q) as [[l f]|]; [|done]. subst evs.
    destruct (Nat.eqb_spec p 0) as [->|Hp0].
    + destruct (Z.eqb_spec ret 0) as [->|Hr]; [apply runs_ret; split_and!; [done..|by eexists]|].
      apply runs_quiet_bind; [solve_quiet|]. intros [] s5 _. apply runs_ret.
      split_and!; [done|simpl; by rewrite orb_false_r|]. repeat constructor. by intros [_ ?].
    + apply runs_ret. split_and!; [done|simpl; by rewrite orb_false_r|]. repeat constructor. intros [[= ?] _]. done.
  - apply runs_ret. destruct (fn_of s p_kdbSet q); [exfalso; apply Hfn; eauto|]. split_and!; [done|done|constructor].
Qed.

Lemma call_hook_calls hooks g ks key s s0 :
  st_plugins s = st_plugins s0 ->
  runs same_structs (call_hook hooks g ks key) s (fun _ evs =>
    map call_of evs = hook_call s0 hooks g ks /\ Forall (fun e => ev_place e = Global g) evs).
Proof.
  intros Ep. unfold call_hook, hook_call, global_calls. destruct (hooks g) as [l|] eqn:Eg; [|by apply runs_ret].
  apply runs_quiet_bind; [solve_quiet|]. intros z s1 HF1.
  eapply runs_bind; [apply (runs_call_set _ _ _ _ _ s0)|].
  { by destruct HF1 as (-> & _). }
  intros r s2 evs _ Hc. apply runs_ret. unfold called in Hc. destruct (fn_of s0 p_kdbSet (Some l)) as [[l' f]|]; [|done].
  subst evs. by repeat constructor.
Qed.

Lemma global_not_failed g evs :
  Forall (fun e => ev_place e = Global g) evs -> existsb failed evs = false /\ Forall (fun e => ~ unneeded e) evs.
Proof.
  intros H. induction H as [|e evs He _ [IH1 IH2]]; [by split|]. split.
  - simpl. unfold failed at 1. by rewrite He, IH1.
  - constructor; [|done]. intros [Hp _]. congruence.
Qed.

(** [any_error] after some events. *)
Definition error_after (st : prepared) (evs : list event) : Z := if existsb failed evs then (-1)%Z else any_error st.

Lemma prepare_slot_spec split sp key hooks i part p st s s0 :
  st_splits s !! split = Some sp -> sp_parts sp !! i = Some part -> same_structs s0 s ->
  runs same_structs (prepare_slot (Some split) key hooks i st p) s (fun t evs =>
    match t with
    | inr st' => st' = st /\ p = 0 /\ (exists e, evs = [e] /\ unneeded e) /\
                 map call_of evs = slot_call s0 setplugins p_kdbSet SetSlot p part
    | inl st' => any_error st' = error_after st evs /\ Forall (fun e => ~ unneeded e) evs /\
                 map call_of evs = prepare_slot_calls s0 hooks part p
    end).
Proof.
  intros Hs Hp (E1 & E2 & E3 & E4). unfold prepare_slot.
  eapply runs_bind; [by eapply prepare_plugin_calls|]. intros r s1 evs1 HF1 [Hc Hr].
  rewrite (slot_call_same s0 s) in Hc by done. destruct r as [ret|]; [|by apply runs_ret; rewrite app_nil_r; destruct Hr].
  destruct Hr as [Hf Hu]. destruct HF1 as (F1 & F2 & F3 & F4).
  apply runs_split_part. intros l sp' part' [= <-] Hs' Hp'. rewrite F3 in Hs'. simplify_eq.
  eapply (runs_bind _ _ _ (fun _ evs => existsb failed evs = false /\ Forall (fun e => ~ unneeded e) evs /\
    map call_of evs = if p =? 0 then hook_call s0 hooks PRESETSTORAGE (part_keyset part)
                      else if p =? STORAGE_PLUGIN - 1 then hook_call s0 hooks PRESETCLEANUP (part_keyset part) else [])).
  { repeat case_match; [| |by apply runs_ret].
    all: eapply runs_mono; [by apply (call_hook_calls _ _ _ _ _ s0); congruence|].
    all: intros _ evs [H1 H2]; by apply global_not_failed in H2 as [? ?]. }
  intros [] s2 evs2 _ (Hf2 & Hu2 & Hc2).
  assert (map call_of (evs1 ++ evs2 ++ []) = prepare_slot_calls s0 hooks part p) as Hcalls.
  { by rewrite app_nil_r, map_app, Hc, Hc2. }
  assert (existsb failed (evs1 ++ evs2 ++ []) = (ret =? -1)%Z) as Hfail.
  { by rewrite !existsb_app, Hf, Hf2, !orb_false_r. }
  assert (Forall (fun e => ~ unneeded e) (evs1 ++ evs2 ++ [])) as Hun by (rewrite !Forall_app; by split_and!).
  unfold error_after.
  destruct (Z.eqb_spec ret (-1)) as [->|Hne].
  - apply runs_quiet_bind; [solve_quiet|]. intros cur s3 _. apply runs_ret. by rewrite Hfail.
  - apply runs_ret. by rewrite Hfail.
Qed.

Lemma error_after_app st st' evs evs' :
  any_error st' = error_after st evs -> error_after st' evs' = error_after st (evs ++ evs').
Proof. intros H. unfold error_after in *. rewrite existsb_app, H. by destruct (existsb failed evs), (existsb failed evs'). Qed.

Lemma prepare_part_spec split sp key hooks st i part s :
  st_splits s !! split = Some sp -> sp_parts sp !! i = Some part ->
  runs same_structs (prepare_part (Some split) key hooks st i) s (fun t evs =>
    match t with
    | inl st' => any_error st' = error_after st evs /\ part_prepared s hooks part evs
    | inr _ => False
    end).
Proof.
  intros Hs Hp. unfold prepare_part.
  eapply runs_bind.
  - apply (runs_kfold _ _ s st
      (fun l st' evs => any_error st' = error_after st evs /\ exists don, seq 0 COMMIT_PLUGIN = don ++ l /\
         Forall (fun e => ~ unneeded e) evs /\ map call_of evs = flat_map (prepare_slot_calls s hooks part) don)
      (fun t evs => any_error (match t with inl st' => st' | inr st' => st' end) = error_after st evs /\
         part_prepared s hooks part evs) []).
    + split; [done|]. exists []. by split_and!.
    + intros p r st1 evs1 s1 HF1 (He1 & don & Hdon & Hu1 & Hc1). pose proof HF1 as (E1 & E2 & E3 & E4).
      eapply runs_mono; [apply (prepare_slot_spec split sp key hooks i part p st1 s1 s); [congruence|done|done]|].
      intros [st2|st2] evs2.
      * intros (He2 & Hu2 & Hc2). split; [by rewrite He2; apply error_after_app|].
        exists (don ++ [p]). split_and!; [by rewrite Hdon, <- app_assoc|by apply Forall_app|].
        by rewrite map_app, Hc1, Hc2, flat_map_app; simpl; rewrite app_nil_r.
      * intros (-> & -> & (e & -> & Hun) & Hc2).
        destruct don as [|d don]; [|injection Hdon as <- Hdon; apply (f_equal (fun l => count_occ Nat.eq_dec l 0)) in Hdon;
          rewrite count_occ_app in Hdon; simpl in Hdon; lia].
        simpl in Hc1. destruct evs1; [|done]. split; [|left; by exists e]. rewrite He1. simpl.
        unfold error_after, failed. simpl. destruct Hun as [-> ->]. done.
    + intros st1 evs (He & don & Hdon & Hu & Hc). split; [done|]. right. split; [done|]. rewrite app_nil_r in Hdon. by rewrite Hdon.
  - intros [st1|st1] s1 evs _ [He Hpp]; apply runs_ret; by rewrite app_nil_r.
Qed.

(** [elektraSetPrepare] runs the plugins before the commit for all parts; it
    reports an error exactly when a plugin of a backend returned -1. *)
Lemma elektraSetPrepare_calls split sp key hooks errorKey s :
  st_splits s !! split = Some sp ->
  runs same_structs (elektraSetPrepare (Some split) key hooks errorKey) s (fun st evs =>
    any_error st = (if existsb failed evs then -1 else 0)%Z /\
    exists evss, evs = concat evss /\ Forall2 (part_prepared s hooks) (sp_parts sp) evss).
Proof.
  intros Hs. unfold elektraSetPrepare. apply runs_deref_in. intros l sp' [= <-] Hs'. simplify_eq.
  eapply runs_bind.
  - apply (runs_kfold _ _ s (mkPrepared 0 errorKey)
      (fun l st evs => any_error st = error_after (mkPrepared 0 errorKey) evs /\
         exists n evss, l = seq n (sp_size sp - n) /\ n <= sp_size sp /\ evs = concat evss /\
           Forall2 (part_prepared s hooks) (take n (sp_parts sp)) evss)
      (fun t evs => match t with
         | inl st => any_error st = error_after (mkPrepared 0 errorKey) evs /\
             exists evss, evs = concat evss /\ Forall2 (part_prepared s hooks) (sp_parts sp) evss
         | inr _ => False end) []).
    + split; [done|]. exists 0, []. rewrite Nat.sub_0_r. split_and!; [done|lia|done|constructor].
    + intros i r st evs s1 HF1 (He & n & evss & Hl & Hn & -> & Hpp). pose proof HF1 as (E1 & E2 & E3 & E4).
      destruct (sp_size sp - n) as [|m] eqn:Em; [done|]. simpl in Hl. injection Hl as -> ->.
      destruct (lookup_lt_is_Some_2 (sp_parts sp) n) as [part Hp]; [unfold sp_size in Em; lia|].
      eapply runs_mono; [apply (prepare_part_spec split sp key hooks st n part); [congruence|done]|].
      intros [st2|] evs2; [|done]. intros [He2 Hpp2]. split; [rewrite He2; by apply error_after_app|].
      exists (S n), (evss ++ [evs2]). split_and!; [f_equal; lia|lia|by rewrite concat_app; simpl; rewrite app_nil_r|].
      rewrite (take_S_r _ _ part) by done. apply Forall2_app; [done|]. constructor; [|constructor].
      unfold part_prepared, prepare_slot_calls, hook_call, global_calls, slot_call, fn_of in *. by rewrite <- E1, <- E2.
    + intros st evs (He & n & evss & Hl & Hn & -> & Hpp). split; [done|]. exists evss. split; [done|].
      destruct (sp_size sp - n) as [|m] eqn:Em; [|done]. rewrite take_ge in Hpp by (unfold sp_size in *; lia). done.
  - intros [st|] s1 evs _ H; [|done]. apply runs_ret. rewrite app_nil_r. destruct H as [He H]. split; [|done].
    by rewrite He.
Qed.
End Transaction.
