(* ===== verification/TopSortFacts.v ===== *)
(** * TopSortFacts: the topological sort is correct

    The loops of [elektraSortTopology] return, place only keys whose
    dependencies have their places, and place all keys exactly when the
    dependencies have no cycle. *)
From S2P Require Export TopSort.

(** ** Matrices *)

Record wf_matrix (am : matrix) : Prop := {
  wf_deps : Forall (fun a => length (deps a) = length am) am;
  wf_unresolved i k : dep am i k = true -> resolved am i = false /\ resolved am k = false
}.

(** The number of keys without a place. *)
Definition pending (am : matrix) : nat := length (List.filter (fun a => negb (isResolved a)) am).

(** There is no cycle: every dependency has a smaller rank. *)
Definition acyclic (am : matrix) : Prop := exists rank : nat -> nat, forall i k, dep am i k = true -> rank k < rank i.

Section Matrix.
Implicit Types am : matrix.

Lemma dep_lookup am i k : dep am i k = default false (deps_of am i !! k).
Proof. unfold dep, deps_of. by destruct (am !! i). Qed.

Lemma dep_lt am i k : Forall (fun a => length (deps a) = length am) am -> dep am i k = true -> i < length am /\ k < length am.
Proof.
  intros Hw. unfold dep. destruct (am !! i) as [a|] eqn:Ea; [|done]. destruct (deps a !! k) as [b|] eqn:Eb; [|done].
  intros _. split; [by apply lookup_lt_Some in Ea|]. rewrite Forall_forall in Hw.
  rewrite <- (Hw a) by (by apply list_elem_of_lookup_2 in Ea). by apply lookup_lt_Some in Eb.
Qed.

Lemma has_unresolved am i : hasUnresolvedDependencies i am = true <-> exists k, dep am i k = true.
Proof.
  unfold hasUnresolvedDependencies, dep. destruct (am !! i) as [a|]; [|split; [done|by intros [k ?]]]. rewrite existsb_exists. split.
  - intros (b & Hb & E). apply list_elem_of_In, list_elem_of_lookup_1 in Hb as [k Hk]. exists k. by rewrite Hk.
  - intros [k Hk]. destruct (deps a !! k) as [b|] eqn:E; [|done]. simpl in Hk. subst b. exists true. split; [|done].
    apply list_elem_of_In. by apply list_elem_of_lookup_2 in E.
Qed.

Lemma has_unresolved_false am i : hasUnresolvedDependencies i am = false <-> forall k, dep am i k = false.
Proof.
  destruct (hasUnresolvedDependencies i am) eqn:E.
  - split; [done|]. apply has_unresolved in E as [k Hk]. intros H. by rewrite H in Hk.
  - split; [|done]. intros _ k. apply not_true_is_false. intros Hk.
    assert (hasUnresolvedDependencies i am = true) by (apply has_unresolved; eauto). congruence.
Qed.

Lemma resolveDep_lookup j am i : snd (resolveDep j am) !! i = (fun a => if default false (deps a !! j) then clear_dep j a else a) <$> am !! i.
Proof.
  revert i. induction am as [|a am IH]; intros i; [done|]. simpl. destruct (resolveDep j am) as [n r] eqn:E. simpl in IH.
  destruct (default false (deps a !! j)) eqn:Ed; destruct i as [|i]; simpl; try rewrite Ed; try done; apply IH.
Qed.

Lemma resolveDep_length j am : length (snd (resolveDep j am)) = length am.
Proof.
  induction am as [|a am IH]; [done|]. simpl. destruct (resolveDep j am) as [n r]. simpl in *.
  destruct (default false (deps a !! j)); simpl; congruence.
Qed.

Lemma resolveDep_dep j am i k : dep (snd (resolveDep j am)) i k = dep am i k && negb (k =? j).
Proof.
  unfold dep. rewrite resolveDep_lookup. destruct (am !! i) as [a|]; [|done]. simpl.
  destruct (default false (deps a !! j)) eqn:Ej; simpl.
  - destruct (Nat.eqb_spec k j) as [->|Hk]; simpl.
    + rewrite andb_false_r. destruct (decide (j < length (deps a))) as [Hj|Hj].
      * by rewrite list_lookup_insert_eq.
      * rewrite lookup_ge_None_2; [done|]. rewrite length_insert. lia.
    + rewrite list_lookup_insert_ne by done. by rewrite andb_true_r.
  - destruct (Nat.eqb_spec k j) as [->|Hk]; simpl; [by rewrite Ej|by rewrite andb_true_r].
Qed.

Lemma resolveDep_resolved j am i : resolved (snd (resolveDep j am)) i = resolved am i.
Proof. unfold resolved. rewrite resolveDep_lookup. destruct (am !! i) as [a|]; [|done]. simpl. by destruct (default false _). Qed.

Lemma resolveDep_key j am : map adj_key (snd (resolveDep j am)) = map adj_key am.
Proof.
  induction am as [|a am IH]; [done|]. simpl. destruct (resolveDep j am) as [n r]. simpl in *.
  destruct (default false (deps a !! j)); simpl; by rewrite IH.
Qed.

(** [mark] places the key and removes the dependencies on it. *)
Lemma mark_dep j am i k : dep (mark j am) i k = dep am i k && negb (k =? j).
Proof.
  unfold mark. rewrite resolveDep_dep. f_equal. unfold dep. destruct (decide (i = j)) as [->|Hi].
  - rewrite list_lookup_alter_eq. by destruct (am !! j).
  - by rewrite list_lookup_alter_ne.
Qed.

Lemma mark_resolved j am i : j < length am -> resolved (mark j am) i = resolved am i || (i =? j).
Proof.
  intros Hj. unfold mark. rewrite resolveDep_resolved. unfold resolved. destruct (Nat.eqb_spec i j) as [->|Hi].
  - rewrite list_lookup_alter_eq. destruct (lookup_lt_is_Some_2 am j Hj) as [a ->]. simpl. by rewrite orb_true_r.
  - rewrite list_lookup_alter_ne by done. by rewrite orb_false_r.
Qed.

Lemma mark_length j am : length (mark j am) = length am.
Proof. unfold mark. by rewrite resolveDep_length, length_alter. Qed.

Lemma mark_key j am : map adj_key (mark j am) = map adj_key am.
Proof.
  unfold mark. rewrite resolveDep_key. apply list_eq. intros i. rewrite !list_lookup_fmap.
  destruct (decide (i = j)) as [->|Hi]; [rewrite list_lookup_alter_eq; by destruct (am !! j)|by rewrite list_lookup_alter_ne].
Qed.

(** The second [resolveDep] of the loop finds nothing left. *)
Lemma mark_resolveDep j am : mark j (snd (resolveDep j am)) = mark j am.
Proof.
  unfold mark. apply list_eq. intros i. rewrite !resolveDep_lookup.
  destruct (decide (i = j)) as [->|Hi]; [rewrite !list_lookup_alter_eq|rewrite !list_lookup_alter_ne by done];
    rewrite resolveDep_lookup; destruct (am !! _) as [a|]; try done; simpl;
    destruct (default false (deps a !! j)) eqn:E; simpl; rewrite ?E; try done.
  all: assert (default false (<[j:=false]> (deps a) !! j) = false) as ->; [|done].
  all: destruct (decide (j < length (deps a))); [by rewrite list_lookup_insert_eq|].
  all: rewrite lookup_ge_None_2; [done|]; rewrite length_insert; lia.
Qed.
End Matrix.

(** ** Placing keys in an order *)

Section Marks.
Implicit Types am : matrix.

Definition mark_all (l : list nat) am : matrix := fold_left (fun am k => mark k am) l am.

(** Every key has no place and no dependency left when it gets its place. *)
Fixpoint placeable am (l : list nat) : Prop :=
  match l with
  | [] => True
  | k :: r => k < length am /\ resolved am k = false /\ hasUnresolvedDependencies k am = false /\ placeable (mark k am) r
  end.

Lemma mark_all_app l l' am : mark_all (l ++ l') am = mark_all l' (mark_all l am).
Proof. apply fold_left_app. Qed.

Lemma placeable_app am l l' : placeable am (l ++ l') <-> placeable am l /\ placeable (mark_all l am) l'.
Proof.
  revert am. induction l as [|k l IH]; intros am; simpl; [tauto|]. rewrite IH. tauto.
Qed.

Lemma mark_all_length l am : length (mark_all l am) = length am.
Proof. revert am. induction l as [|k l IH]; intros am; [done|]. simpl. by rewrite IH, mark_length. Qed.

Lemma mark_all_key l am : map adj_key (mark_all l am) = map adj_key am.
Proof. revert am. induction l as [|k l IH]; intros am; [done|]. simpl. by rewrite IH, mark_key. Qed.

Lemma mark_all_dep l am i k : dep (mark_all l am) i k = true <-> dep am i k = true /\ k ∉ l.
Proof.
  revert am. induction l as [|x l IH]; intros am; simpl; [set_solver|]. rewrite IH, mark_dep, andb_true_iff, negb_true_iff, Nat.eqb_neq.
  set_solver.
Qed.

Lemma mark_all_resolved l am i : Forall (fun k => k < length am) l -> resolved (mark_all l am) i = true <-> resolved am i = true \/ i ∈ l.
Proof.
  revert am. induction l as [|x l IH]; intros am Hl; simpl; [set_solver|]. apply Forall_cons in Hl as [Hx Hl].
  rewrite IH by (by rewrite mark_length). rewrite mark_resolved, orb_true_iff, Nat.eqb_eq by done. set_solver.
Qed.

Lemma placeable_lt am l : placeable am l -> Forall (fun k => k < length am) l.
Proof.
  revert am. induction l as [|k l IH]; intros am; [constructor|]. intros (Hk & _ & _ & H). constructor; [done|].
  apply IH in H. by rewrite mark_length in H.
Qed.

Lemma placeable_unresolved am l : placeable am l -> NoDup l /\ forall k, k ∈ l -> resolved am k = false.
Proof.
  revert am. induction l as [|x l IH]; intros am; [split; [constructor|set_solver]|]. intros (Hx & Hr & _ & H).
  destruct (IH _ H) as [Hnd Hun]. split.
  - constructor; [|done]. intros Hin. apply Hun in Hin. by rewrite mark_resolved, Nat.eqb_refl, orb_true_r in Hin.
  - intros k [->|Hin]%elem_of_cons; [done|]. apply Hun in Hin. rewrite mark_resolved in Hin by done. by destruct (resolved am k).
Qed.

(** A key comes after all it depends on. *)
Lemma placeable_order am l i k :
  placeable am l -> dep am i k = true -> i ∈ l -> exists l1 l2, l = l1 ++ i :: l2 /\ k ∈ l1.
Proof.
  revert am. induction l as [|x l IH]; intros am; [set_solver|]. intros (Hx & Hr & Hu & H) Hd.
  intros [->|Hin]%elem_of_cons; [rewrite has_unresolved_false in Hu; by rewrite Hu in Hd|].
  destruct (decide (k = x)) as [->|Hk].
  - apply list_elem_of_split in Hin as (l1 & l2 & ->). exists (x :: l1), l2. split; [done|set_solver].
  - destruct (IH _ H) as (l1 & l2 & -> & Hin'); [|done|].
    + rewrite mark_dep, Hd. by apply Nat.eqb_neq in Hk as ->.
    + exists (x :: l1), l2. split; [done|set_solver].
Qed.

Lemma mark_wf j am : j < length am -> hasUnresolvedDependencies j am = false -> wf_matrix am -> wf_matrix (mark j am).
Proof.
  intros Hj Hu [H1 H2]. split.
  - rewrite mark_length. apply Forall_lookup. intros i a Ha. unfold mark in Ha. rewrite resolveDep_lookup in Ha.
    assert (forall b, alter (set_resolved true) j am !! i = Some b -> length (deps b) = length am) as Hb.
    { intros b Hb. rewrite Forall_lookup in H1. destruct (decide (i = j)) as [->|Hi].
      - rewrite list_lookup_alter_eq in Hb. apply fmap_Some in Hb as (c & Hc & ->). exact (H1 j c Hc).
      - rewrite list_lookup_alter_ne in Hb by done. by apply (H1 i). }
    apply fmap_Some in Ha as (b & Hb' & ->). apply Hb in Hb'. destruct (default false _); [|done]. simpl. by rewrite length_insert.
  - intros i k Hd. rewrite mark_dep, andb_true_iff, negb_true_iff, Nat.eqb_neq in Hd. destruct Hd as [Hd Hk].
    destruct (H2 _ _ Hd) as [Hi Hr]. rewrite !mark_resolved, Hi, Hr by done. simpl. rewrite !Nat.eqb_neq. split; [|done].
    intros ->. rewrite has_unresolved_false in Hu. by rewrite Hu in Hd.
Qed.

Lemma mark_all_wf l am : placeable am l -> wf_matrix am -> wf_matrix (mark_all l am).
Proof.
  revert am. induction l as [|k l IH]; intros am; [done|]. intros (Hk & _ & Hu & H) Hw. simpl. apply IH; [done|]. by apply mark_wf.
Qed.

Lemma acyclic_mark_all l am : acyclic am -> acyclic (mark_all l am).
Proof. intros [rank H]. exists rank. intros i k Hd. apply mark_all_dep in Hd as [Hd _]. by apply H. Qed.

(** Among some keys that depend only on one another, one has no dependency. *)
Lemma acyclic_minimal am (P : nat -> Prop) i :
  acyclic am -> P i -> (forall i k, P i -> dep am i k = true -> P k) -> exists j, P j /\ hasUnresolvedDependencies j am = false.
Proof.
  intros [rank Hrank] Hi Hclosed. remember (rank i) as n eqn:En. revert i Hi En. induction n as [n IH] using lt_wf_ind.
  intros i Hi ->. destruct (hasUnresolvedDependencies i am) eqn:E; [|by exists i].
  apply has_unresolved in E as [k Hk]. by apply (IH (rank k) (Hrank _ _ Hk) k); [apply (Hclosed i)|].
Qed.

(** A key without dependencies closes no cycle. *)
Lemma acyclic_unmark x am : hasUnresolvedDependencies x am = false -> acyclic (mark x am) -> acyclic am.
Proof.
  intros Hu [rank Hrank]. exists (fun i => if i =? x then 0 else S (rank i)). intros i k Hd.
  destruct (Nat.eqb_spec i x) as [->|Hi]; [rewrite has_unresolved_false in Hu; by rewrite Hu in Hd|].
  destruct (Nat.eqb_spec k x) as [->|Hk]; [lia|]. apply -> Nat.succ_lt_mono. apply Hrank.
  rewrite mark_dep, Hd. by apply Nat.eqb_neq in Hk as ->.
Qed.

Lemma acyclic_unmark_all l am : placeable am l -> acyclic (mark_all l am) -> acyclic am.
Proof.
  revert am. induction l as [|x l IH]; intros am; [done|]. intros (_ & _ & Hu & Hp) Ha.
  apply (acyclic_unmark x); [done|]. by apply IH.
Qed.

(** When all keys have a place, there is no cycle. *)
Lemma resolved_acyclic am : wf_matrix am -> (forall i, i < length am -> resolved am i = true) -> acyclic am.
Proof.
  intros Hw Hall. exists (fun _ => 0). intros i k Hd. destruct (dep_lt _ _ _ (wf_deps _ Hw) Hd) as [Hi _].
  destruct (wf_unresolved _ Hw _ _ Hd) as [Hr _]. by rewrite Hall in Hr.
Qed.
End Marks.

(** ** The frontier *)

Section Frontier.
Implicit Types am : matrix.

Lemma in_frontier_lt fr i : in_frontier fr i = true -> i < length fr.
Proof. unfold in_frontier. destruct (fr !! i) eqn:E; [|done]. intros _. by apply lookup_lt_Some in E. Qed.

Lemma count_le fr : count fr <= length fr.
Proof. unfold count. induction fr as [|[] fr IH]; simpl; lia. Qed.

Lemma count_zero fr : count fr = 0 <-> forall i, in_frontier fr i = false.
Proof.
  unfold count. induction fr as [|b fr IH]; simpl; [by split|]. split.
  - intros H [|i]; destruct b; simpl in *; try done. by apply IH.
  - intros H. destruct b; [by specialize (H 0)|]. simpl. apply IH. intros i. apply (H (S i)).
Qed.

Lemma count_clear fr i : in_frontier fr i = true -> count fr = S (count (<[i := false]> fr)).
Proof.
  unfold count. revert i. induction fr as [|b fr IH]; intros [|i]; simpl; try done.
  - unfold in_frontier. simpl. by intros ->.
  - intros H. specialize (IH i H). destruct b; simpl; lia.
Qed.

Lemma in_frontier_clear fr i k : in_frontier (<[i := false]> fr) k = true <-> in_frontier fr k = true /\ k <> i.
Proof.
  unfold in_frontier. destruct (decide (k = i)) as [->|Hk].
  - destruct (decide (i < length fr)); [rewrite list_lookup_insert_eq by done; naive_solver|].
    rewrite list_insert_ge by lia. rewrite lookup_ge_None_2 by lia. naive_solver.
  - rewrite list_lookup_insert_ne by done. naive_solver.
Qed.

Lemma add_deps_spec ds fr f n fr' :
  length ds = length fr -> add_deps ds fr = (f, n, fr') ->
  length fr' = length fr /\ count fr' = count fr + n /\
  (forall k, in_frontier fr' k = true <-> in_frontier fr k = true \/ in_frontier ds k = true) /\
  (if f then 0 < n else n = 0 /\ fr' = fr).
Proof.
  revert fr f n fr'. induction ds as [|d ds IH]; intros [|b fr] f n fr' Hl H; simpl in *; try done.
  { injection H as <- <- <-. split_and!; [done|done| |done|done]. intros k. unfold in_frontier. simpl. naive_solver. }
  destruct (add_deps ds fr) as [[f1 n1] fr1] eqn:E. destruct (IH fr f1 n1 fr1 ltac:(lia) E) as (H1 & H2 & H3 & H4).
  unfold count in *. destruct (d && negb b) eqn:Edb; injection H as <- <- <-; simpl.
  - apply andb_true_iff in Edb as [-> Hb]. destruct b; [done|]. simpl. split_and!; [lia|lia| |lia].
    intros [|k]; [unfold in_frontier; simpl; naive_solver|apply (H3 k)].
  - split_and!; [lia|destruct b; simpl; lia| |destruct f1; [done|by destruct H4 as [-> ->]]].
    intros [|k]; [unfold in_frontier; simpl; destruct b, d; naive_solver|apply (H3 k)].
Qed.

(** The keys of the frontier [fr], and what a pass from [fr] to [fr'] does. *)
Definition frontier_grows am (fr fr' : list bool) : Prop :=
  length fr' = length am /\ count fr <= count fr' /\
  (forall k, in_frontier fr k = true -> in_frontier fr' k = true) /\
  (forall k, in_frontier fr' k = true -> in_frontier fr k = true \/ exists i, dep am i k = true).

Definition closed_at am (fr : list bool) (i : nat) : Prop :=
  in_frontier fr i = true -> forall k, dep am i k = true -> in_frontier fr k = true.

Lemma frontier_pass_spec am todo fr found todo' fr' :
  Forall (fun a => length (deps a) = length am) am -> length fr = length am -> todo = count fr ->
  frontier_pass am todo fr = (found, todo', fr') ->
  todo' = count fr' /\ frontier_grows am fr fr' /\
  if found then count fr < count fr' else fr' = fr /\ forall i, closed_at am fr i.
Proof.
  intros Hw Hl -> H.
  assert (forall is_ don, Forall (fun i => i < length am) is_ ->
    forall st, (let '(found, todo, fr1) := st in todo = count fr1 /\ frontier_grows am fr fr1 /\
       if found : bool then count fr < count fr1 else fr1 = fr /\ forall i, i ∈ don -> closed_at am fr i) ->
    let '(found, todo, fr1) := fold_left (frontier_at am) is_ st in todo = count fr1 /\ frontier_grows am fr fr1 /\
       if found : bool then count fr < count fr1 else fr1 = fr /\ forall i, i ∈ don ++ is_ -> closed_at am fr i) as Hfold.
  { clear H. intros is_. induction is_ as [|i is_ IH]; intros don His st Hst; simpl.
    { destruct st as [[f t] fr1]. rewrite app_nil_r. exact Hst. }
    apply Forall_cons in His as [Hi His]. rewrite (cons_middle i don is_), (app_assoc don [i] is_). apply IH; [done|]. clear IH.
    destruct st as [[f t] fr1]. destruct Hst as (-> & (G1 & G2 & G3 & G4) & Hf). unfold frontier_at.
    destruct (in_frontier fr1 i) eqn:Ei; simpl negb; cbn iota.
    2: { split_and!; [done..|]. destruct f; [done|]. destruct Hf as [-> Hf]. split; [done|]. intros j [Hj| ->%list_elem_of_singleton]%elem_of_app; [by apply Hf|].
         intros Hfr. congruence. }
    destruct (hasUnresolvedDependencies i am) eqn:Eh.
    2: { split_and!; [done..|]. destruct f; [done|]. destruct Hf as [-> Hf]. split; [done|]. intros j [Hj| ->%list_elem_of_singleton]%elem_of_app; [by apply Hf|].
         intros _ k Hk. rewrite has_unresolved_false in Eh. by rewrite Eh in Hk. }
    destruct (add_deps (deps_of am i) fr1) as [[f2 n2] fr2] eqn:Ea. apply add_deps_spec in Ea as (A1 & A2 & A3 & A4).
    2: { unfold deps_of. destruct (lookup_lt_is_Some_2 am i Hi) as [a Ea']. rewrite Ea'. rewrite Forall_lookup in Hw. rewrite (Hw i a Ea'). lia. }
    split; [lia|]. split.
    { split_and!; [lia|lia| |].
      - intros k Hk. apply A3. left. by apply G3.
      - intros k [Hk|Hk]%A3; [by apply G4|]. right. exists i. by rewrite dep_lookup. }
    destruct f2.
    - rewrite orb_true_r. lia.
    - destruct A4 as [-> ->]. rewrite orb_false_r. destruct f; [lia|]. destruct Hf as [-> Hf]. split; [done|].
      intros j [Hj| ->%list_elem_of_singleton]%elem_of_app; [by apply Hf|]. intros _ k Hk. apply A3. right. by rewrite dep_lookup in Hk. }
  specialize (Hfold (seq 0 (length am)) [] ltac:(apply Forall_forall; intros i; rewrite elem_of_seq; lia) (false, count fr, fr)).
  unfold frontier_pass in H. rewrite H in Hfold. destruct Hfold as (-> & Hg & Hf).
  { split; [done|]. split; [|set_solver]. split_and!; [done|lia|done|by left]. }
  split_and!; [done|done|]. destruct found; [done|]. destruct Hf as [-> Hf]. split; [done|]. intros i Hin. apply Hf; [|done].
  apply elem_of_seq. apply in_frontier_lt in Hin. lia.
Qed.

Lemma frontier_loop_spec am fuel fr :
  Forall (fun a => length (deps a) = length am) am -> length fr = length am -> length am - count fr < fuel ->
  exists fr', frontier_loop fuel am (count fr) fr = Some (count fr', fr') /\ frontier_grows am fr fr' /\ forall i, closed_at am fr' i.
Proof.
  intros Hw. revert fr. induction fuel as [|fuel IH]; intros fr Hl Hfuel; [lia|]. cbn [frontier_loop].
  destruct (frontier_pass am (count fr) fr) as [[found todo] fr1] eqn:E.
  apply frontier_pass_spec in E as (-> & Hg & Hf); [|done..]. destruct found.
  - pose proof Hg as (G1 & G2 & G3 & G4). destruct (IH fr1) as (fr' & Hr & (I1 & I2 & I3 & I4) & Hc); [done| |].
    { pose proof (count_le fr1). lia. }
    exists fr'. split_and!; [done| |done]. split_and!; [done|lia|auto|]. intros k [Hk|Hk]%I4; [by apply G4|by right].
  - destruct Hf as [-> Hf]. exists fr. by split_and!.
Qed.
End Frontier.

(** ** Resolving the frontier *)

Section Resolve.
Implicit Types am : matrix.

(** What the loops need of the frontier. *)
Record frontier_ok am (fr : list bool) : Prop := {
  fo_length : length fr = length am;
  fo_unresolved i : in_frontier fr i = true -> resolved am i = false;
  fo_closed i : closed_at am fr i
}.

(** Without a cycle every pass over the keys places one: [loops] passes have
    placed that many, and this pass one more or none of the keys before [i] can
    be placed. *)
Definition progress am (max_loops i loops : nat) (fr : list bool) : Prop :=
  acyclic am -> count fr + loops <= max_loops /\
    (count fr + loops < max_loops \/ forall k, k < i -> in_frontier fr k = true -> hasUnresolvedDependencies k am = true).

Lemma frontier_ok_mark am fr i :
  i < length am -> hasUnresolvedDependencies i am = false -> frontier_ok am fr -> frontier_ok (mark i am) (<[i := false]> fr).
Proof.
  intros Hi Hu [H1 H2 H3]. split.
  - by rewrite length_insert, mark_length.
  - intros k [Hk Hne]%in_frontier_clear. rewrite mark_resolved, H2 by done. by apply Nat.eqb_neq.
  - intros k [Hk Hne]%in_frontier_clear m Hm. rewrite mark_dep, andb_true_iff, negb_true_iff, Nat.eqb_neq in Hm.
    destruct Hm as [Hm Hmi]. apply in_frontier_clear. split; [by apply (H3 k)|done].
Qed.

(** A pass that places no key ends in a cycle. *)
Lemma progress_wrap am max_loops i loops fr :
  frontier_ok am fr -> i = length am -> 0 < count fr -> progress am max_loops i loops fr -> progress am max_loops 0 (S loops) fr.
Proof.
  intros [H1 H2 H3] -> Hc Hp Ha. destruct (Hp Ha) as [Hle [Hlt|Hall]]; [split; [lia|right; lia]|]. exfalso.
  assert (exists k, in_frontier fr k = true) as [k Hk].
  { destruct (decide (Exists (fun b => b = true) fr)) as [He|He].
    - apply Exists_exists in He as (b & Hb & ->). apply list_elem_of_lookup_1 in Hb as [k Hk]. exists k. unfold in_frontier. by rewrite Hk.
    - exfalso. assert (count fr = 0); [|lia]. apply count_zero. intros k. unfold in_frontier. destruct (fr !! k) as [[]|] eqn:E; try done.
      exfalso. apply He. apply Exists_exists. exists true. split; [by apply list_elem_of_lookup_2 in E|done]. }
  destruct (acyclic_minimal am (fun k => in_frontier fr k = true) k Ha Hk) as (j & Hj & Hu); [intros x y Hx; by apply (H3 x)|].
  rewrite Hall in Hu; [done| |done]. apply in_frontier_lt in Hj. lia.
Qed.

Lemma progress_skip am max_loops i loops fr :
  (in_frontier fr i = true -> hasUnresolvedDependencies i am = true) -> progress am max_loops i loops fr -> progress am max_loops (S i) loops fr.
Proof.
  intros Hi Hp Ha. destruct (Hp Ha) as [Hle [Hlt|Hall]]; (split; [done|]); [by left|right]. intros k Hk Hfr.
  destruct (decide (k = i)) as [->|Hne]; [by apply Hi|apply Hall; [lia|done]].
Qed.

(** The turns left before the loop gives up. *)
Definition turns_left (n max_loops i loops : nat) : nat := (S max_loops - loops) * n - i.

Lemma resolve_loop_spec fuel max_loops i loops fr am order :
  wf_matrix am -> frontier_ok am fr -> i <= length am -> loops <= max_loops ->
  turns_left (length am) max_loops i loops < fuel -> progress am max_loops i loops fr ->
  exists r l, resolve_loop fuel max_loops i loops (count fr) fr am order = Some (r, mark_all l am, order ++ l) /\
    placeable am l /\ (r = 1%Z /\ length l = count fr \/ r = (-1)%Z /\ ~ acyclic am).
Proof.
  revert i loops fr am order. induction fuel as [|fuel IH]; intros i loops fr am order Hw Hfo Hi Hloops Hfuel Hprog; [lia|].
  cbn [resolve_loop]. destruct (count fr) as [|todo] eqn:Hc.
  { exists 1%Z, []. split_and!; [by rewrite app_nil_r|done|by left]. }
  assert (0 < length am) as Hn by (pose proof (count_le fr); rewrite (fo_length _ _ Hfo) in *; lia).
  (* the wrap, or not *)
  assert (exists i' loops', (if i =? length am then (0, S loops) else (i, loops)) = (i', loops') /\ i' < length am /\
    progress am max_loops i' loops' fr /\ (max_loops < loops' \/ loops' <= max_loops /\ turns_left (length am) max_loops (S i') loops' < fuel)) as
    (i' & loops' & -> & Hi' & Hprog' & Hl').
  { unfold turns_left in *. destruct (Nat.eqb_spec i (length am)) as [->|Hne].
    - exists 0, (S loops). split_and!; [done|lia|by apply (progress_wrap _ _ (length am) loops); [done|done|lia|]|].
      destruct (decide (max_loops < S loops)); [by left|right]. split; [lia|]. nia.
    - exists i, loops. split_and!; [done|lia|done|right; split; [done|nia]]. }
  clear i loops Hi Hloops Hfuel Hprog. rename i' into i, loops' into loops.
  destruct (Nat.ltb_spec max_loops loops) as [Hgt|Hle].
  { exists (-1)%Z, []. split_and!; [by rewrite app_nil_r|done|right]. split; [done|]. intros Ha. apply Hprog' in Ha as [Ha _]. lia. }
  destruct Hl' as [?|[_ Hfuel]]; [lia|].
  destruct (in_frontier fr i) eqn:Efr; simpl negb; cbn iota.
  2: { rewrite <- Hc. apply IH; [done|done|lia|done|done|]. apply progress_skip; [congruence|done]. }
  destruct (hasUnresolvedDependencies i am) eqn:Eh; simpl negb; cbn iota.
  { rewrite <- Hc. apply IH; [done|done|lia|done|done|]. by apply progress_skip. }
  rewrite mark_resolveDep. pose proof (count_clear fr i Efr) as Hc'. assert (todo = count (<[i:=false]> fr)) as -> by lia.
  destruct (IH (S i) loops (<[i:=false]> fr) (mark i am) (order ++ [i])) as (r & l & Hr & Hp & Hres).
  - by apply mark_wf.
  - by apply frontier_ok_mark.
  - rewrite mark_length. lia.
  - done.
  - by rewrite mark_length.
  - intros Ha. apply acyclic_unmark in Ha; [|done]. destruct (Hprog' Ha) as [Hle' _]. split; [lia|left; lia].
  - exists r, (i :: l). rewrite Hr. simpl. split_and!; [by rewrite <- app_assoc|lia|by apply (fo_unresolved _ _ Hfo)|done|done|].
    destruct Hres as [[-> Hl]|[-> Hcyc]]; [left|right]; (split; [done|]); [simpl; lia|].
    intros Ha. apply Hcyc. by apply (acyclic_mark_all [i]).
Qed.

(** [resolveDeps] of a key without a place returns, and places keys unless
    there is a cycle. *)
Lemma resolveDeps_spec j am :
  wf_matrix am -> j < length am -> resolved am j = false ->
  exists r l, resolveDeps j am = Some (r, mark_all l am, l) /\ placeable am l /\
    (r = 1%Z /\ l <> [] \/ r = (-1)%Z /\ ~ acyclic am).
Proof.
  intros Hw Hj Hr. unfold resolveDeps.
  assert (length (deps_of am j) = length am) as Hlen.
  { unfold deps_of. destruct (lookup_lt_is_Some_2 am j Hj) as [a Ha]. rewrite Ha. pose proof (wf_deps _ Hw) as H.
    rewrite Forall_lookup in H. by apply (H j). }
  destruct (frontier_loop_spec am (S (length am)) (deps_of am j)) as (fr & -> & (G1 & G2 & G3 & G4) & Hclosed); [by apply wf_deps|done|lia|].
  destruct (Nat.eqb_spec (count fr) 0) as [Hz|Hnz].
  - exists 1%Z, [j]. split_and!; [done| |by left]. simpl. split_and!; [done|done| |done].
    apply has_unresolved_false. intros k. apply not_true_is_false. intros Hk. rewrite dep_lookup in Hk. apply G3 in Hk.
    rewrite (proj1 (count_zero fr) Hz) in Hk. done.
  - assert (frontier_ok am fr) as Hfo.
    { split; [done| |done]. intros i Hi. assert (exists k, dep am k i = true) as [k Hd].
      { destruct (G4 i Hi) as [Hd|Hd]; [|done]. exists j. by rewrite dep_lookup. }
      by destruct (wf_unresolved _ Hw _ _ Hd). }
    destruct (resolve_loop_spec ((count fr + 2) * length am) (count fr) 0 0 fr am []) as (r & l & Hres & Hp & H).
    + done.
    + done.
    + lia.
    + lia.
    + unfold turns_left. rewrite Nat.sub_0_r. nia.
    + intros _. split; [lia|right; lia].
    + exists r, l. split_and!; [done|done|]. destruct H as [[-> Hl]|[-> H]]; [left|by right]. split; [done|]. intros ->. simpl in Hl. lia.
Qed.

Lemma pending_lt am : pending am <= length am.
Proof. unfold pending. induction am as [|a am IH]; simpl; [lia|]. destruct (negb (isResolved a)); simpl; lia. Qed.

Lemma pending_resolved am am' :
  length am' = length am -> (forall i, resolved am i = true -> resolved am' i = true) -> pending am' <= pending am.
Proof.
  unfold pending, resolved. revert am'. induction am as [|a am IH]; intros [|a' am'] Hl H; simpl; try done; try lia.
  specialize (IH am' ltac:(simpl in Hl; lia) (fun i => H (S i))). specialize (H 0). simpl in H.
  destruct (isResolved a), (isResolved a'); simpl; try lia; by specialize (H eq_refl).
Qed.

Lemma pending_mark k am : k < length am -> resolved am k = false -> pending (mark k am) < pending am.
Proof.
  intros Hk Hr.
  assert (forall i, resolved (mark k am) i = resolved am i || (i =? k)) as H by (intros i; by apply mark_resolved).
  pose proof (mark_length k am) as Hl. revert H Hl. generalize (mark k am) as am'. revert k Hk Hr. unfold pending, resolved.
  induction am as [|a am IH]; intros k Hk Hr [|a' am'] H Hl; simpl in *; try lia.
  pose proof (fun i => H (S i)) as HS. specialize (H 0). simpl in H, HS. destruct k as [|k].
  - rewrite H, orb_true_r. simpl in Hr. rewrite Hr. simpl. apply Nat.lt_succ_r.
    apply (pending_resolved am am'); [lia|]. intros i Hi. unfold resolved. rewrite HS. unfold resolved in Hi. by rewrite Hi.
  - specialize (IH k ltac:(lia) Hr am' HS ltac:(lia)). rewrite orb_false_r in H. rewrite H. destruct (isResolved a); simpl; lia.
Qed.

Lemma pending_mark_all l am : placeable am l -> l <> [] -> pending (mark_all l am) < pending am.
Proof.
  destruct l as [|k l]; [done|]. intros (Hk & Hr & _ & Hp) _. simpl. apply (Nat.le_lt_trans _ (pending (mark k am))); [|by apply pending_mark].
  apply pending_resolved; [by rewrite mark_all_length|]. intros i Hi. apply mark_all_resolved; [by apply placeable_lt|by left].
Qed.

(** The turns the loop of [elektraSortTopology] may still take. *)
Definition sort_turns am (found : bool) (j : nat) : nat :=
  pending am * (2 * length am + 3) + (if found then S (length am) else 0) + (length am - j).

(** In a pass that has placed no key, the keys before [j] without a place have
    dependencies, and are counted. *)
Definition pass_ok am (hasOrder found : bool) (j unresolved : nat) : Prop :=
  if found then True
  else (forall i, i < j -> resolved am i = false -> hasOrder = false /\ hasUnresolvedDependencies i am = true) /\
       (unresolved = 0 <-> forall i, i < j -> resolved am i = true).

Lemma sort_loop_spec fuel hasOrder j found unresolved am order :
  wf_matrix am -> j <= length am -> sort_turns am found j < fuel -> pass_ok am hasOrder found j unresolved ->
  exists u l, sort_loop fuel hasOrder j found unresolved am order = Some (u, mark_all l am, order ++ l) /\ placeable am l /\
    (u = 0 -> forall i, i < length am -> resolved (mark_all l am) i = true) /\ (u <> 0 -> ~ acyclic am).
Proof.
  revert j found unresolved am order. induction fuel as [|fuel IH]; intros j found u am order Hw Hj Hfuel Hpass; [lia|].
  cbn [sort_loop]. destruct (Nat.eqb_spec j (length am)) as [->|Hne].
  - destruct found.
    + apply IH; [done|lia|unfold sort_turns in *; lia|]. split; [lia|]. split; [lia|done].
    + destruct Hpass as [H1 H2]. exists u, []. split_and!; [by rewrite app_nil_r|done|by apply H2|].
      intros Hu [rank Ha]. simpl in *.
      assert (exists i, i < length am /\ resolved am i = false) as (i & Hi & Hri).
      { destruct (decide (Exists (fun i => resolved am i = false) (seq 0 (length am)))) as [He|He].
        - apply Exists_exists in He as (i & Hi & Hr). exists i. apply elem_of_seq in Hi. split; [lia|done].
        - exfalso. apply Hu, H2. intros i Hi. apply not_false_is_true. intros Hr. apply He, Exists_exists. exists i.
          split; [apply elem_of_seq; lia|done]. }
      destruct (acyclic_minimal am (fun i => i < length am /\ resolved am i = false) i) as (k & [Hk Hrk] & Huk); [by exists rank|done| |].
      { intros x y _ Hd. split; [by apply (dep_lt am x y (wf_deps _ Hw))|by destruct (wf_unresolved _ Hw _ _ Hd)]. }
      destruct (H1 k Hk Hrk) as [_ H]. congruence.
  - destruct (resolved am j) eqn:Hr.
    { apply IH; [done|lia|unfold sort_turns in *; lia|]. destruct found; [done|]. destruct Hpass as [H1 H2]. split.
      - intros i Hi Hri. destruct (decide (i = j)) as [->|]; [congruence|]. apply H1; [lia|done].
      - rewrite H2. split; intros H i Hi; [destruct (decide (i = j)) as [->|]; [done|]; apply H; lia|apply H; lia]. }
    destruct hasOrder.
    + destruct (resolveDeps_spec j am) as (r & l & -> & Hp & Hres); [done|lia|done|]. destruct Hres as [[-> Hl]|[-> Hcyc]]; simpl (_ =? _)%Z; cbn iota.
      * pose proof (pending_mark_all l am Hp Hl) as Hpend. destruct (IH 0 true (S u) (mark_all l am) (order ++ l)) as (u' & l' & Hr' & Hp' & H1 & H2).
        -- by apply mark_all_wf.
        -- lia.
        -- unfold sort_turns in *. rewrite mark_all_length. nia.
        -- done.
        -- exists u', (l ++ l'). rewrite mark_all_app, placeable_app. split_and!; [by rewrite Hr', <- app_assoc|done|done| |].
           ++ intros Hu i Hi. apply H1; [done|]. by rewrite mark_all_length.
           ++ intros Hu Ha. apply H2; [done|]. by apply acyclic_mark_all.
      * exists (S u), l. by split_and!.
    + destruct (hasUnresolvedDependencies j am) eqn:Hh; simpl negb; cbn iota.
      * apply IH; [done|lia|unfold sort_turns in *; lia|]. destruct found; [done|]. destruct Hpass as [H1 H2]. split.
        -- intros i Hi Hri. destruct (decide (i = j)) as [->|]; [done|]. apply H1; [lia|done].
        -- split; [done|]. intros H. rewrite H in Hr by lia. done.
      * assert (j < length am) as Hlt by lia. pose proof (pending_mark j am Hlt Hr) as Hpend.
        destruct (IH (S j) true (S u) (mark j am) (order ++ [j])) as (u' & l' & Hr' & Hp' & H1 & H2).
        -- by apply mark_wf.
        -- rewrite mark_length. lia.
        -- unfold sort_turns in *. rewrite mark_length. destruct found; nia.
        -- done.
        -- exists u', (j :: l'). split_and!; [by rewrite Hr', <- app_assoc|done| |].
           ++ intros Hu i Hi. apply H1; [done|]. by rewrite mark_length.
           ++ intros Hu Ha. apply H2; [done|]. by apply (acyclic_mark_all [j]).
Qed.

(** What [elektraSortTopology] needs of its loop: it returns; it gives a place
    only to keys without one, each once; it leaves none without a place exactly
    when the dependencies have no cycle, and then every key comes after the
    keys it depends on. *)
Definition resolves (hasOrder : bool) (unresolved : nat) am : Prop :=
  exists u am' l, resolve_unresolved hasOrder unresolved am = Some (u, am', l) /\
    NoDup l /\ (forall i, i ∈ l -> i < length am /\ resolved am i = false) /\
    (u = 0 <-> acyclic am) /\
    (u = 0 -> forall i, i < length am -> resolved am i = false ->
       exists l1 l2, l = l1 ++ i :: l2 /\ forall k, dep am i k = true -> k ∈ l1).

Lemma wf_resolves hasOrder unresolved am : wf_matrix am -> resolves hasOrder unresolved am.
Proof.
  intros Hw. destruct (sort_loop_spec (S (length am) * (2 * length am + 3)) hasOrder 0 true unresolved am [])
    as (u & l & Hr & Hp & H1 & H2); [done|lia|unfold sort_turns; pose proof (pending_lt am); nia|done|].
  destruct (placeable_unresolved am l Hp) as [Hnd Hun]. pose proof (placeable_lt am l Hp) as Hlt. rewrite Forall_forall in Hlt.
  exists u, (mark_all l am), l. split_and!; [done|done|auto| |].
  - split.
    + intros Hu. apply (acyclic_unmark_all l); [done|]. apply resolved_acyclic; [by apply mark_all_wf|].
      intros i. rewrite mark_all_length. by apply H1.
    + intros Ha. destruct u; [done|]. exfalso. by apply H2.
  - intros Hu i Hi Hri. specialize (H1 Hu i Hi). apply mark_all_resolved in H1 as [H1|Hin]; [congruence| |by apply placeable_lt].
    apply list_elem_of_split in Hin as Hs. destruct Hs as (l1 & l2 & Hl). exists l1, l2. split; [done|]. intros k Hk.
    destruct (placeable_order am l i k Hp Hk Hin) as (m1 & m2 & Hl' & Hk1).
    assert (l1 = m1) as ->; [|done]. rewrite Hl in Hl', Hnd. clear -Hl' Hnd. revert m1 Hl'.
    induction l1 as [|x l1 IH]; intros [|y m1] Hl'; simpl in *; try done.
    + injection Hl' as -> Hl'. apply NoDup_cons in Hnd as [Hnd _]. rewrite Hl' in Hnd. set_solver.
    + injection Hl' as <- Hl'. apply NoDup_cons in Hnd as [Hnd _]. set_solver.
    + injection Hl' as -> Hl'. apply NoDup_cons in Hnd as [_ Hnd]. f_equal. by apply IH.
Qed.
End Resolve.
