(* ===== verification/HeapFacts.v ===== *)
(** * HeapFacts: total correctness of heap computations

    [wp m Q h] says that [m] run on [h] returns, with a result and a heap that
    satisfy [Q]: it neither reaches undefined behaviour nor runs out of fuel.
    The file has its rules for the primitives, the tactic [wstep] that applies
    them, freshness of allocated addresses, and the equivalence of heaps that
    differ only in the internal cursors of some keysets. *)
From S2P Require Export Lookup.

(** ** Total correctness *)

Definition wp {A} (m : M A) (Q : A -> heap -> Prop) (h : heap) : Prop :=
  exists a h', m h = Ret a h' /\ Q a h'.

Section Wp.
Context {A B C : Type}.
Implicit Types (Q : B -> heap -> Prop) (f : A -> M B).

Lemma wp_ret (a : B) Q h : Q a h -> wp (ret a) Q h.
Proof. intros H. by exists a, h. Qed.

Lemma wp_bind (m : M A) f Q h :
  wp m (fun a h' => wp (f a) Q h') h -> wp (bindM m f) Q h.
Proof.
  intros (a & h' & E & b & h'' & E' & HQ). exists b, h''. split; [|done].
  unfold bindM. by rewrite E.
Qed.

Lemma wp_bind_inv (m : M A) f Q h :
  wp (bindM m f) Q h -> wp m (fun a h' => wp (f a) Q h') h.
Proof.
  unfold bindM. intros (b & h' & E & HQ). destruct (m h) as [a h1| |] eqn:Em; [|done..].
  exists a, h1. split; [done|]. by exists b, h'.
Qed.

Lemma wp_mono (m : M B) Q Q' h :
  wp m Q h -> (forall a h', Q a h' -> Q' a h') -> wp m Q' h.
Proof. intros (a & h' & E & HQ) H. exists a, h'. auto. Qed.

Lemma wp_run (m : M B) Q a h h' : m h = Ret a h' -> Q a h' -> wp m Q h.
Proof. intros ? ?. by exists a, h'. Qed.

Lemma wp_assoc (m : M C) (g : C -> M A) f Q h :
  wp (bindM m (fun x => bindM (g x) f)) Q h -> wp (bindM (bindM m g) f) Q h.
Proof. unfold wp, bindM. by destruct (m h). Qed.

Lemma wp_ret_bind (a : A) f Q h : wp (f a) Q h -> wp (bindM (ret a) f) Q h.
Proof. done. Qed.

Lemma wp_last (m : M B) Q h : wp (bindM m ret) Q h -> wp m Q h.
Proof. unfold wp, bindM. by destruct (m h). Qed.
End Wp.

Section Primitives.
Context {B : Type} (Q : B -> heap -> Prop) (K : gmap loc Key) (S : gmap loc KeySet).

Lemma wp_get_key l k (f : Key -> M B) :
  K !! l = Some k -> wp (f k) Q (mkHeap K S) -> wp (bindM (get_key l) f) Q (mkHeap K S).
Proof. intros E (a & h' & Ef & HQ). exists a, h'. split; [|done]. unfold bindM, get_key. simpl. by rewrite E. Qed.

Lemma wp_put_key l k k' (f : unit -> M B) :
  K !! l = Some k' -> wp (f tt) Q (mkHeap (<[l := k]> K) S) ->
  wp (bindM (put_key l k) f) Q (mkHeap K S).
Proof. intros E (a & h' & Ef & HQ). exists a, h'. split; [|done]. unfold bindM, put_key. simpl. by rewrite E. Qed.

Lemma wp_alloc_key k (f : loc -> M B) :
  wp (f (fresh_loc K)) Q (mkHeap (<[fresh_loc K := k]> K) S) ->
  wp (bindM (alloc_key k) f) Q (mkHeap K S).
Proof. done. Qed.

Lemma wp_free_key l k' (f : unit -> M B) :
  K !! l = Some k' -> wp (f tt) Q (mkHeap (delete l K) S) ->
  wp (bindM (free_key l) f) Q (mkHeap K S).
Proof. intros E (a & h' & Ef & HQ). exists a, h'. split; [|done]. unfold bindM, free_key. simpl. by rewrite E. Qed.

Lemma wp_get_ks l s (f : KeySet -> M B) :
  S !! l = Some s -> wp (f s) Q (mkHeap K S) -> wp (bindM (get_ks l) f) Q (mkHeap K S).
Proof. intros E (a & h' & Ef & HQ). exists a, h'. split; [|done]. unfold bindM, get_ks. simpl. by rewrite E. Qed.

Lemma wp_put_ks l s s' (f : unit -> M B) :
  S !! l = Some s' -> wp (f tt) Q (mkHeap K (<[l := s]> S)) ->
  wp (bindM (put_ks l s) f) Q (mkHeap K S).
Proof. intros E (a & h' & Ef & HQ). exists a, h'. split; [|done]. unfold bindM, put_ks. simpl. by rewrite E. Qed.

Lemma wp_alloc_ks s (f : loc -> M B) :
  wp (f (fresh_loc S)) Q (mkHeap K (<[fresh_loc S := s]> S)) ->
  wp (bindM (alloc_ks s) f) Q (mkHeap K S).
Proof. done. Qed.

Lemma wp_free_ks l s' (f : unit -> M B) :
  S !! l = Some s' -> wp (f tt) Q (mkHeap K (delete l S)) ->
  wp (bindM (free_ks l) f) Q (mkHeap K S).
Proof. intros E (a & h' & Ef & HQ). exists a, h'. split; [|done]. unfold bindM, free_ks. simpl. by rewrite E. Qed.
End Primitives.

(** Solves the lookups [wstep] leaves. *)
Ltac wlook :=
  first
    [ eassumption | apply lookup_insert_eq
    | rewrite lookup_insert_ne by congruence; wlook
    | progress simplify_map_eq; first [eassumption | reflexivity] ].

(** Runs the first primitive of the computation in the goal. *)
Ltac wstep1 :=
  lazymatch goal with
  | |- wp (bindM (bindM _ _) _) _ _ => apply wp_assoc
  | |- wp (bindM (ret _) _) _ _ => apply wp_ret_bind
  | |- wp (ret _) _ _ => apply wp_ret
  | |- wp (bindM (get_key _) _) _ _ => eapply wp_get_key; [wlook|]
  | |- wp (bindM (put_key _ _) _) _ _ => eapply wp_put_key; [wlook|]
  | |- wp (bindM (alloc_key _) _) _ _ => apply wp_alloc_key
  | |- wp (bindM (free_key _) _) _ _ => eapply wp_free_key; [wlook|]
  | |- wp (bindM (get_ks _) _) _ _ => eapply wp_get_ks; [wlook|]
  | |- wp (bindM (put_ks _ _) _) _ _ => eapply wp_put_ks; [wlook|]
  | |- wp (bindM (alloc_ks _) _) _ _ => apply wp_alloc_ks
  | |- wp (bindM (free_ks _) _) _ _ => eapply wp_free_ks; [wlook|]
  end.
Ltac wstep := wstep1; cbn beta iota.
Ltac wsteps := repeat wstep.

(** Uses the specification [H] of the first call of the computation. *)
Ltac wcall H := apply wp_bind; eapply wp_mono; [eapply H|cbn beta].

(** ** Fresh addresses *)

Lemma fresh_loc_max {V} (m : gmap loc V) l v :
  m !! l = Some v -> (l < fresh_loc m)%positive.
Proof.
  unfold fresh_loc.
  assert (forall l v, m !! l = Some v -> (l <= map_fold (fun l _ acc => Pos.max l acc) 1 m)%positive) as H.
  { apply (map_fold_weak_ind (fun r m => forall l v, m !! l = Some v -> (l <= r)%positive)).
    - intros ?? H. by rewrite lookup_empty in H.
    - intros i x m' r Hi IH l' v' Hl'. destruct (decide (i = l')) as [->|Hne]; [lia|].
      rewrite lookup_insert_ne in Hl' by done. apply IH in Hl'. lia. }
  intros Hl. apply H in Hl. lia.
Qed.

Lemma fresh_loc_None {V} (m : gmap loc V) : m !! fresh_loc m = None.
Proof.
  destruct (m !! fresh_loc m) as [v|] eqn:E; [|done]. apply fresh_loc_max in E. lia.
Qed.

Lemma fresh_loc_ne {V} (m : gmap loc V) l v : m !! l = Some v -> fresh_loc m <> l.
Proof. intros H E. rewrite <- E, fresh_loc_None in H. done. Qed.

Lemma delete_insert_fresh {V} (m : gmap loc V) v : delete (fresh_loc m) (<[fresh_loc m := v]> m) = m.
Proof. apply delete_insert_id, fresh_loc_None. Qed.

(** ** Equivalence up to internal cursors *)

(** The internal cursor is rewound, past the end, or on a key. *)
Definition cursor_ok (s : KeySet) : Prop := ks_cursor s = None \/ ks_current s < ks_size s.

Definition set_sim (s s' : KeySet) : Prop :=
  ks_array s' = ks_array s /\ ks_size s' = ks_size s /\
  ks_alloc s' = ks_alloc s /\ ks_flags s' = ks_flags s /\ (cursor_ok s <-> cursor_ok s').

(** [sets_sim P S S']: the same keysets, up to the cursors of those in [P]. *)
Definition sets_sim (P : loc -> Prop) (S S' : gmap loc KeySet) : Prop :=
  forall m, (forall s, S !! m = Some s -> exists s', S' !! m = Some s' /\ set_sim s s') /\
            (forall s', S' !! m = Some s' -> exists s, S !! m = Some s /\ set_sim s s') /\
            (~ P m -> S' !! m = S !! m).

Lemma set_sim_refl s : set_sim s s.
Proof. done. Qed.

Lemma set_sim_sym s s' : set_sim s s' -> set_sim s' s.
Proof. unfold set_sim. intros (? & ? & ? & ? & ?). by split_and!. Qed.

Lemma set_sim_trans s1 s2 s3 : set_sim s1 s2 -> set_sim s2 s3 -> set_sim s1 s3.
Proof. unfold set_sim. intros (? & ? & ? & ? & H12) (? & ? & ? & ? & H23). rewrite H12. split_and!; congruence || done. Qed.

Lemma set_sim_cursor s c i :
  cursor_ok s -> cursor_ok (ks_with_cursor s c i) -> set_sim s (ks_with_cursor s c i).
Proof. by intros. Qed.

#[global] Instance sets_sim_equivalence P : Equivalence (sets_sim P).
Proof.
  split.
  - intros S m. split_and!; eauto using set_sim_refl.
  - intros S S' H m. destruct (H m) as (H1 & H2 & H3). split_and!.
    + intros s' Hs. destruct (H2 _ Hs) as (s & ? & ?). eauto using set_sim_sym.
    + intros s Hs. destruct (H1 _ Hs) as (s' & ? & ?). eauto using set_sim_sym.
    + intros Hm. symmetry. auto.
  - intros S1 S2 S3 H12 H23 m.
    destruct (H12 m) as (A1 & A2 & A3), (H23 m) as (B1 & B2 & B3). split_and!.
    + intros s Hs. destruct (A1 _ Hs) as (s2 & Hs2 & ?). destruct (B1 _ Hs2) as (s3 & ? & ?).
      eauto using set_sim_trans.
    + intros s Hs. destruct (B2 _ Hs) as (s2 & Hs2 & ?). destruct (A2 _ Hs2) as (s1 & ? & ?).
      eauto using set_sim_trans.
    + intros Hm. rewrite B3, A3; done.
Qed.

(** Moving a cursor. *)
Lemma sets_sim_insert (P : loc -> Prop) S m s s' :
  P m -> S !! m = Some s -> set_sim s s' -> sets_sim P S (<[m := s']> S).
Proof.
  intros Hm Hs Hsim m'. destruct (decide (m = m')) as [<-|Hne].
  - rewrite lookup_insert_eq. split_and!; [naive_solver..|done].
  - rewrite lookup_insert_ne by done. split_and!; eauto using set_sim_refl.
Qed.

Lemma sets_sim_other P S S' m : sets_sim P S S' -> ~ P m -> S' !! m = S !! m.
Proof. intros H. apply (H m). Qed.

Lemma sets_sim_lookup P S S' m s :
  sets_sim P S S' -> S !! m = Some s -> exists s', S' !! m = Some s' /\ set_sim s s'.
Proof. intros H. apply (H m). Qed.

Lemma sets_sim_weaken (P P' : loc -> Prop) S S' :
  (forall m, P m -> P' m) -> sets_sim P S S' -> sets_sim P' S S'.
Proof. intros HP H m. destruct (H m) as (? & ? & ?). split_and!; auto. Qed.
