(* ===== verification/Compare.v ===== *)
(** * Compare: the order of keys

    [keyCompareByName] and [keyCompareByNameCase] of [keyset.c] compare the
    unescaped names with [memcmp] over the shorter length.  They are shown to
    be a lexicographic order on the bytes; the order is total and keeps the
    keys below a key together, which the binary searches, [ksCut] and the
    iteration over a hierarchy rely on. *)
From S2P Require Export HeapFacts.

(** ** The reference order *)

(** Lexicographic order of byte strings; [f] is the weight of a byte. *)
Fixpoint name_order (f : ascii -> Z) (u v : list ascii) : Z :=
  match u, v with
  | [], [] => 0
  | [], _ :: _ => -1
  | _ :: _, [] => 1
  | c :: u, d :: v => if (f c - f d =? 0)%Z then name_order f u v else (f c - f d)%Z
  end.

Abbreviation uname_order := (name_order uchar).
Definition upper (c : ascii) : Z := toupper (uchar c).

(** [u] comes before [v] in a keyset. *)
Definition uname_lt (u v : list ascii) : Prop := (uname_order u v < 0)%Z.

Section Order.
Context (f : ascii -> Z).

Lemma name_order_refl u : name_order f u u = 0%Z.
Proof. induction u as [|c u IH]; simpl; [done|]. by rewrite Z.sub_diag. Qed.

Lemma name_order_sgn u v : Z.sgn (name_order f v u) = (- Z.sgn (name_order f u v))%Z.
Proof.
  revert v. induction u as [|c u IH]; intros [|d v]; simpl; try done.
  replace (f d - f c =? 0)%Z with (f c - f d =? 0)%Z by lia.
  destruct (Z.eqb_spec (f c - f d) 0); [apply IH|lia].
Qed.

Lemma name_order_antisym u v : (name_order f u v < 0 <-> 0 < name_order f v u)%Z.
Proof. pose proof (name_order_sgn u v). lia. Qed.

Lemma name_order_zero_r u v w :
  name_order f u v = 0%Z -> name_order f u w = name_order f v w.
Proof.
  revert v w. induction u as [|c u IH]; intros [|d v] w; simpl; try done.
  destruct (Z.eqb_spec (f c - f d) 0); [|done].
  intros H. destruct w as [|b w]; simpl; [done|].
  replace (f c) with (f d) by lia. by rewrite (IH v).
Qed.

Lemma name_order_lt_trans u v w :
  (name_order f u v < 0 -> name_order f v w < 0 -> name_order f u w < 0)%Z.
Proof.
  revert v w. induction u as [|c u IH]; intros [|d v] [|e w]; simpl; try done; try lia.
  destruct (Z.eqb_spec (f c - f d) 0), (Z.eqb_spec (f d - f e) 0),
    (Z.eqb_spec (f c - f e) 0); try lia. apply IH.
Qed.

Lemma name_order_zero_case u v :
  name_order f u v = 0%Z <-> map f u = map f v.
Proof.
  revert v. induction u as [|c u IH]; intros [|d v]; simpl; try done.
  destruct (Z.eqb_spec (f c - f d) 0); rewrite ?IH; split; intros; try lia.
  - f_equal; [lia|done].
  - by simplify_eq.
  - simplify_eq. lia.
Qed.
End Order.

Lemma uname_order_zero u v : uname_order u v = 0%Z <-> u = v.
Proof.
  rewrite name_order_zero_case. split; [|by intros ->].
  revert v. induction u as [|c u IH]; intros [|d v]; simpl; try done.
  intros [= Hc%uchar_inj Hu]. f_equal; auto.
Qed.

Lemma uname_lt_irrefl u : ~ uname_lt u u.
Proof. unfold uname_lt. rewrite name_order_refl. lia. Qed.

Lemma uname_lt_trans u v w : uname_lt u v -> uname_lt v w -> uname_lt u w.
Proof. apply name_order_lt_trans. Qed.

#[global] Instance uname_lt_strict : StrictOrder uname_lt.
Proof. split; [exact uname_lt_irrefl|exact uname_lt_trans]. Qed.

#[global] Instance uname_lt_dec u v : Decision (uname_lt u v).
Proof. unfold uname_lt. apply _. Defined.

(** ** The comparison functions compute it *)

Lemma compare_names_nil_l cmp v :
  (forall s1 s2, cmp s1 s2 0 = 0%Z) ->
  compare_names cmp [] v = match v with [] => 0%Z | _ => (-1)%Z end.
Proof. intros H. unfold compare_names. destruct v; simpl; by rewrite H. Qed.

Lemma compare_names_nil_r cmp c u :
  (forall s1 s2, cmp s1 s2 0 = 0%Z) -> compare_names cmp (c :: u) [] = 1%Z.
Proof. intros H. unfold compare_names. simpl. by rewrite H. Qed.

(** A byte-wise comparison of equal lengths with the weight [f]. *)
Lemma compare_names_order f cmp
    (H0 : forall s1 s2, cmp s1 s2 0 = 0%Z)
    (HS : forall c d s1 s2 n, cmp (c :: s1) (d :: s2) (S n) =
            if (f c - f d =? 0)%Z then cmp s1 s2 n else (f c - f d)%Z) u v :
  compare_names cmp u v = name_order f u v.
Proof.
  revert v. induction u as [|c u IH]; intros v.
  - rewrite compare_names_nil_l by done. by destruct v.
  - destruct v as [|d v]; [by rewrite compare_names_nil_r|].
    simpl. rewrite <- IH. unfold compare_names. simpl. rewrite !HS.
    destruct (Z.eqb_spec (f c - f d) 0); [done|].
    assert ((f c - f d =? 0)%Z = false) as -> by lia.
    repeat case_match; done.
Qed.

Lemma compare_names_memcmp u v : compare_names memcmp u v = uname_order u v.
Proof.
  apply compare_names_order; [done|]. intros c d s1 s2 n. simpl.
  case_decide as E; [subst; by rewrite Z.sub_diag|].
  destruct (Z.eqb_spec (uchar c - uchar d) 0); [|done].
  exfalso. apply E, uchar_inj. lia.
Qed.

Lemma compare_names_case u v : compare_names elektraMemCaseCmp u v = name_order upper u v.
Proof. apply compare_names_order; done. Qed.

(** ** Names with owners *)

Lemma strcmp_order s1 s2 :
  no_nul s1 -> no_nul s2 -> Z.sgn (strcmp s1 s2) = Z.sgn (uname_order s1 s2).
Proof.
  intros H1. revert s2. induction H1 as [|c s1 Hc H1 IH]; intros s2 H2; simpl.
  - inversion H2 as [|d s2' Hd H2']; subst; simpl; [done|]. apply uchar_pos in Hd. lia.
  - inversion H2 as [|d s2' Hd H2']; subst; simpl.
    + apply uchar_pos in Hc. lia.
    + case_decide as E; [subst; rewrite Z.sub_diag; by apply IH|].
      destruct (Z.eqb_spec (uchar c - uchar d) 0); [|done].
      exfalso. apply E, uchar_inj. lia.
Qed.

Lemma cstr_of_no_nul b s : cstr_of b = Some s -> no_nul s.
Proof.
  revert s. induction b as [|c b IH]; intros s; simpl; [done|].
  case_decide; [intros [= <-]; constructor|].
  intros (t & Ht & ->)%fmap_Some. constructor; [done|by apply IH].
Qed.

(** A key is identified by its unescaped name and its owner, if any. *)
Abbreviation kid := (list ascii * option cstr)%type.

Definition owner_order (o1 o2 : option cstr) : Z :=
  match o1, o2 with
  | None, None => 0
  | None, Some _ => -1
  | Some _, None => 1
  | Some s1, Some s2 => strcmp s1 s2
  end.

Definition kid_order (k1 k2 : kid) : Z :=
  if (uname_order k1.1 k2.1 =? 0)%Z then owner_order k1.2 k2.2 else uname_order k1.1 k2.1.

Definition kid_lt (k1 k2 : kid) : Prop := (kid_order k1 k2 < 0)%Z.

(** The owner is a C string. *)
Definition kid_ok (k : kid) : Prop := match k.2 with None => True | Some o => no_nul o end.

Lemma owner_order_sgn o1 o2 :
  (match o1 with None => True | Some o => no_nul o end) ->
  (match o2 with None => True | Some o => no_nul o end) ->
  Z.sgn (owner_order o2 o1) = (- Z.sgn (owner_order o1 o2))%Z.
Proof.
  destruct o1, o2; simpl; try done. intros. rewrite !strcmp_order by done. apply name_order_sgn.
Qed.

Lemma kid_order_sgn k1 k2 :
  kid_ok k1 -> kid_ok k2 -> Z.sgn (kid_order k2 k1) = (- Z.sgn (kid_order k1 k2))%Z.
Proof.
  intros H1 H2. unfold kid_order. pose proof (name_order_sgn uchar k1.1 k2.1) as Hs.
  destruct (Z.eqb_spec (uname_order k1.1 k2.1) 0), (Z.eqb_spec (uname_order k2.1 k1.1) 0);
    try lia. by apply owner_order_sgn.
Qed.

Lemma kid_order_zero k1 k2 : kid_ok k1 -> kid_ok k2 -> kid_order k1 k2 = 0%Z <-> k1 = k2.
Proof.
  destruct k1 as [u1 o1], k2 as [u2 o2]. unfold kid_order, kid_ok. simpl. intros H1 H2.
  destruct (Z.eqb_spec (uname_order u1 u2) 0) as [E|E].
  - apply uname_order_zero in E as ->. destruct o1, o2; simpl; try (split; congruence || lia).
    rewrite strcmp_eq by done. split; congruence.
  - split; [lia|]. intros ?; simplify_eq. by rewrite name_order_refl in E.
Qed.

Lemma kid_lt_trans k1 k2 k3 :
  kid_ok k1 -> kid_ok k2 -> kid_ok k3 -> kid_lt k1 k2 -> kid_lt k2 k3 -> kid_lt k1 k3.
Proof.
  destruct k1 as [u1 o1], k2 as [u2 o2], k3 as [u3 o3]. unfold kid_lt, kid_order, kid_ok. simpl.
  intros H1 H2 H3.
  destruct (Z.eqb_spec (uname_order u1 u2) 0) as [E12|E12],
    (Z.eqb_spec (uname_order u2 u3) 0) as [E23|E23].
  - apply uname_order_zero in E12 as ->. apply uname_order_zero in E23 as ->.
    rewrite name_order_refl. destruct o1, o2, o3; simpl; try lia.
    pose proof (strcmp_order l l0 H1 H2). pose proof (strcmp_order l0 l1 H2 H3).
    pose proof (strcmp_order l l1 H1 H3). pose proof (name_order_lt_trans uchar l l0 l1). simpl. lia.
  - apply uname_order_zero in E12 as ->. by destruct (Z.eqb_spec (uname_order u2 u3) 0).
  - apply uname_order_zero in E23 as ->. by destruct (Z.eqb_spec (uname_order u1 u3) 0).
  - intros. pose proof (name_order_lt_trans uchar u1 u2 u3). destruct (Z.eqb_spec (uname_order u1 u3) 0); lia.
Qed.

(** ** The contracts *)

(** [keyCompareByName] compares the unescaped names of two keys lexicographically,
    byte by byte; a proper prefix comes first. *)
Theorem keyCompareByName_lexicographic p1 p2 k1 k2 h :
  h_keys h !! p1 = Some k1 -> h_keys h !! p2 = Some k2 ->
  keyCompareByName p1 p2 h = Ret (uname_order (k_uname k1) (k_uname k2)) h.
Proof.
  intros H1 H2. unfold keyCompareByName, bindM, get_key. rewrite H1, H2, compare_names_memcmp. done.
Qed.

Lemma prefix_between_order u x v :
  (uname_order u v <= 0)%Z -> (uname_order v (u ++ x) <= 0)%Z -> u `prefix_of` v.
Proof.
  revert v. induction u as [|c u IH]; intros v; [intros; apply prefix_nil|].
  destruct v as [|d v]; simpl; [lia|].
  destruct (Z.eqb_spec (uchar c - uchar d) 0) as [E|E], (Z.eqb_spec (uchar d - uchar c) 0); try lia.
  intros H1 H2. assert (c = d) as -> by (apply uchar_inj; lia). apply prefix_cons. by apply IH.
Qed.

(** The order keeps hierarchies together: whatever is sorted between a key and
    a key below it has the unescaped name of the first one as a prefix too, so
    all keys below a key follow it without a gap. *)
Theorem below_contiguous u v w :
  u `prefix_of` w -> (compare_names memcmp u v <= 0)%Z -> (compare_names memcmp v w <= 0)%Z ->
  u `prefix_of` v.
Proof. rewrite !compare_names_memcmp. intros [x ->]. apply prefix_between_order. Qed.
