(* ===== verification/KeySetFacts.v ===== *)
(** * KeySetFacts: what a keyset holds, and searching it

    [ks_rep s ls] says that the array of [s] holds exactly the keys [ls]: the
    cells are written, there is room for the terminator, and it is there when
    the keyset is not empty.  The iteration and the two binary searches of
    [keyset.c] are verified against it for any comparison that orders the
    keys. *)
From S2P Require Export Compare.

Definition cells (ls : list loc) : list (option ptr) := map (fun l => Some (Some l)) ls.

(** The allocated block of [s] starts with the keys [ls]. *)
Record ks_block (s : KeySet) (ls : list loc) : Prop := {
  blk_array : exists rest, ks_array s = Some (cells ls ++ rest) /\
                length ls + length rest = ks_alloc s /\ (ls <> [] -> head rest = Some (Some None));
  blk_room : length ls < ks_alloc s;
  blk_min : KEYSET_SIZE <= ks_alloc s
}.

Record ks_rep (s : KeySet) (ls : list loc) : Prop := {
  rep_block : ks_block s ls;
  rep_size : ks_size s = length ls
}.

Lemma length_cells ls : length (cells ls) = length ls.
Proof. apply length_map. Qed.

Lemma cells_app l1 l2 : cells (l1 ++ l2) = cells l1 ++ cells l2.
Proof. apply map_app. Qed.

Lemma lookup_cells ls i : cells ls !! i = (fun l => Some (Some l)) <$> ls !! i.
Proof. unfold cells. apply list_lookup_fmap. Qed.

Lemma take_cells n ls : take n (cells ls) = cells (take n ls).
Proof. unfold cells. symmetry. apply fmap_take. Qed.

Lemma drop_cells n ls : drop n (cells ls) = cells (drop n ls).
Proof. unfold cells. symmetry. apply fmap_drop. Qed.

Lemma ks_rep_sim s s' ls : set_sim s s' -> ks_rep s ls -> ks_rep s' ls.
Proof.
  intros (Ea & Es & El & _ & _) [[H1 H2 H3] H4].
  split; [split|]; rewrite ?Ea, ?Es, ?El; done.
Qed.

Lemma ks_rep_cursor s ls c i : ks_rep s ls -> ks_rep (ks_with_cursor s c i) ls.
Proof. by intros [[] ?]. Qed.

Lemma block_get s ls i l : ks_block s ls -> ls !! i = Some l -> array_get s i = ret (Some l).
Proof.
  intros [(rest & Ea & _) _ _] Hi. unfold array_get. rewrite Ea, lookup_app_l.
  - by rewrite lookup_cells, Hi.
  - rewrite length_cells. by apply lookup_lt_Some in Hi.
Qed.

Lemma rep_get s ls i l : ks_rep s ls -> ls !! i = Some l -> array_get s i = ret (Some l).
Proof. intros [Hb _]. by apply block_get. Qed.

Lemma rep_end s ls : ks_rep s ls -> ls <> [] -> array_get s (length ls) = ret None.
Proof.
  intros [[(rest & Ea & _ & Ht) _ _] _] Hne. apply Ht in Hne. unfold array_get.
  rewrite Ea, lookup_app_r, length_cells, Nat.sub_diag by (rewrite length_cells; lia).
  destruct rest; simplify_eq/=. done.
Qed.

(** The keys of a keyset are determined by its array. *)
Lemma ks_rep_inj s ls ls' : ks_rep s ls -> ks_rep s ls' -> ls = ls'.
Proof.
  intros H1 H2. eapply list_eq_same_length; [|done|].
  - by rewrite <- (rep_size _ _ H1), (rep_size _ _ H2).
  - intros i x y _ Hx Hy.
    assert (array_get s i (mkHeap ∅ ∅) = Ret (Some x) (mkHeap ∅ ∅)) as E1 by (by rewrite (rep_get _ _ _ _ H1 Hx)).
    rewrite (rep_get _ _ _ _ H2 Hy) in E1. by injection E1.
Qed.

(** ** Binary search

    [z x] is the sign of the comparison of the key searched with [x]; the keys
    are ordered by it.  The comparison may touch the heap as long as it keeps
    [Inv]. *)
Section Search.
Context (s : KeySet) (ls : list loc) (Hrep : ks_rep s ls).
Context {R : Rec} (z : loc -> Z) (Inv : heap -> Prop) (key : loc).

(** The keys are ordered: after a key that is not smaller than the searched
    one come only greater ones. *)
Definition ordered_for : Prop :=
  forall i j x y, i < j -> ls !! i = Some x -> ls !! j = Some y -> (0 <= z y -> 0 < z x)%Z.

Definition compares (cmp : loc -> loc -> M Z) : Prop :=
  forall x h, x ∈ ls -> Inv h -> wp (cmp key x) (fun r h' => r = z x /\ Inv h') h.

Context (Hord : ordered_for).

Lemma compares_at cmp i x h :
  compares cmp -> ls !! i = Some x -> Inv h ->
  wp (cmp key x) (fun r h' => r = z x /\ Inv h') h.
Proof. intros Hc Hi. apply Hc. by eapply list_elem_of_lookup_2. Qed.

Lemma ordered_before i x j y :
  ls !! i = Some x -> ls !! j = Some y -> j <= i -> (0 < z x -> 0 < z y)%Z.
Proof.
  intros Hi Hj Hle Hz. destruct (decide (j = i)) as [->|]; [by simplify_eq|].
  eapply (Hord j i); eauto; lia.
Qed.

Lemma ordered_after i x j y :
  ls !! i = Some x -> ls !! j = Some y -> i <= j -> (z x < 0 -> z y < 0)%Z.
Proof.
  intros Hi Hj Hle Hz. destruct (decide (j = i)) as [->|]; [by simplify_eq|].
  destruct (decide (0 <= z y)%Z) as [Hy|]; [|lia].
  pose proof (Hord i j x y ltac:(lia) Hi Hj Hy). lia.
Qed.

(** Everything before [lo] is smaller and everything from [hi] is greater
    than the key searched. *)
Definition bracket (lo hi : nat) : Prop :=
  forall i x, ls !! i = Some x -> (i < lo -> (0 < z x)%Z) /\ (hi <= i -> (z x < 0)%Z).

Lemma bracket_left lo hi i x :
  bracket lo hi -> ls !! i = Some x -> (0 < z x)%Z -> bracket (S i) hi.
Proof.
  intros Hb Hi Hz j y Hj. split; intros; [|by apply (Hb _ _ Hj)].
  eapply (ordered_before i x j y); eauto. lia.
Qed.

Lemma bracket_right lo hi i x :
  bracket lo hi -> ls !! i = Some x -> (z x < 0)%Z -> bracket lo i.
Proof.
  intros Hb Hi Hz j y Hj. split; intros; [by apply (Hb _ _ Hj)|].
  eapply (ordered_after i x j y); eauto.
Qed.

Lemma bsearch_spec cmp n lo hi h :
  compares cmp -> lo <= hi <= length ls -> hi - lo < n -> bracket lo hi -> Inv h ->
  wp (bsearch n s key cmp lo hi)
     (fun r h' => Inv h' /\
        match r with
        | Some i => exists x, ls !! i = Some x /\ z x = 0%Z
        | None => forall x, x ∈ ls -> z x <> 0%Z
        end) h.
Proof.
  intros Hc. revert lo hi h. induction n as [|n IH]; intros lo hi h Hhi Hn Hb Hh.
  - lia.
  - cbn [bsearch]. destruct (Nat.leb_spec hi lo) as [Hle|Hlt].
    + apply wp_ret. split; [done|]. intros x (i & Hi)%list_elem_of_lookup_1.
      pose proof (Hb _ _ Hi) as [H1 H2]. destruct (decide (i < lo)); [specialize (H1 ltac:(lia))|specialize (H2 ltac:(lia))]; lia.
    + assert (lo <= (lo + hi) / 2 < hi) as Hm.
      { split; [apply Nat.div_le_lower_bound; lia|apply Nat.Div0.div_lt_upper_bound; lia]. }
      destruct (lookup_lt_is_Some_2 ls ((lo + hi) / 2)) as [x Hx]; [lia|].
      rewrite (rep_get s ls _ x Hrep Hx). apply wp_ret_bind. apply wp_bind.
      eapply wp_mono; [by eapply compares_at|]. intros r h' [-> Hh'].
      destruct (Z.ltb_spec (z x) 0); [|destruct (Z.ltb_spec 0 (z x))].
      * apply IH; [lia|lia| |done]. by eapply bracket_right.
      * apply IH; [lia|lia| |done]. by eapply bracket_left.
      * apply wp_ret. split; [done|]. exists x. split; [done|lia].
Qed.

Lemma search_loop_spec n left right middle insertpos c h :
  compares keyCompareByNameOwner ->
  (0 <= left <= right + 1)%Z -> (right < Z.of_nat (length ls))%Z ->
  (right - left + 1 < Z.of_nat n)%Z ->
  bracket (Z.to_nat left) (Z.to_nat (right + 1)) ->
  (insertpos = left \/ insertpos = right + 1)%Z -> c <> 0%Z -> Inv h ->
  wp (search_loop n s key left right middle insertpos c)
     (fun r h' => Inv h' /\
        let '(c, middle, insertpos) := r in
        if decide (c = 0)%Z then
          exists i x, middle = Z.of_nat i /\ ls !! i = Some x /\ z x = 0%Z
        else
          exists i, insertpos = Z.of_nat i /\ i <= length ls /\ bracket i i) h.
Proof.
  intros Hc. revert left right middle insertpos c h.
  induction n as [|n IH]; intros left right middle insertpos c h Hl Hr Hn Hb Hi Hc0 Hh; [lia|].
  cbn [search_loop]. destruct (Z.ltb_spec right left) as [Hlt|Hle].
  - apply wp_ret. split; [done|]. rewrite decide_False by done.
    exists (Z.to_nat left). split; [lia|]. split; [lia|].
    replace (Z.to_nat (right + 1)) with (Z.to_nat left) in Hb by lia. done.
  - cbn zeta. set (m := (left + (right - left) / 2)%Z).
    assert (left <= m <= right)%Z as Hm by (unfold m; split; Z.to_euclidean_division_equations; lia).
    destruct (lookup_lt_is_Some_2 ls (Z.to_nat m)) as [x Hx]; [lia|].
    rewrite (rep_get s ls _ x Hrep Hx). apply wp_ret_bind. apply wp_bind.
    eapply wp_mono; [by eapply compares_at|]. intros r h' [-> Hh'].
    destruct (Z.ltb_spec 0 (z x)); [|destruct (Z.eqb_spec (z x) 0)].
    + apply IH; try lia; try done.
      eapply (bracket_left _ _ _ x) in Hb; [|done|lia].
      by replace (Z.to_nat (m + 1)) with (S (Z.to_nat m)) by lia.
    + apply wp_ret. split; [done|]. rewrite decide_True by done.
      exists (Z.to_nat m), x. split; [lia|done].
    + apply IH; try lia; try done.
      eapply (bracket_right _ _ _ x) in Hb; [|done|lia].
      by replace (Z.to_nat (m - 1 + 1)) with (Z.to_nat m) by lia.
Qed.
End Search.

(** ** The internal cursor *)

Section Cursor.
Context {R : Rec} (K : gmap loc Key) (S : gmap loc KeySet) (l : loc) (s : KeySet) (ls : list loc).
Context (Hs : S !! l = Some s) (Hrep : ks_rep s ls).

Lemma ksRewind_spec Q :
  Q 0%Z (mkHeap K (<[l := ks_with_cursor s None 0]> S)) ->
  wp (ksRewind (Some l)) Q (mkHeap K S).
Proof. intros HQ. unfold ksRewind. by wsteps. Qed.

(** The index [ksNext] moves to. *)
Definition next_index : nat := if ks_cursor s is Some _ then Datatypes.S (ks_current s) else ks_current s.

Definition after_next : KeySet :=
  if length ls <=? ks_current s then s else ks_with_cursor s (ls !! next_index) next_index.

Lemma ksNext_spec Q :
  cursor_ok s \/ length ls <= ks_current s ->
  (ks_current s < length ls -> Q (ls !! next_index) (mkHeap K (<[l := after_next]> S))) ->
  (length ls <= ks_current s -> Q None (mkHeap K S)) ->
  wp (ksNext (Some l)) Q (mkHeap K S).
Proof.
  intros Hc HQ HQ'. unfold ksNext. wstep. rewrite (rep_size _ _ Hrep).
  destruct (Nat.eqb_spec (length ls) 0) as [H0|H0]; [apply wp_ret, HQ'; lia|].
  destruct (Nat.leb_spec (length ls) (ks_current s)) as [H1|H1]; [apply wp_ret, HQ'; lia|].
  specialize (HQ H1). revert HQ. unfold after_next.
  assert ((length ls <=? ks_current s) = false) as -> by (apply Nat.leb_gt; lia).
  fold next_index. cbn zeta. intros HQ.
  assert (array_get s next_index = ret (ls !! next_index)) as ->.
  { destruct (ls !! next_index) as [x|] eqn:E; [by apply (rep_get _ ls)|].
    apply lookup_ge_None in E. unfold next_index in *.
    destruct (ks_cursor s); [|lia].
    assert (Datatypes.S (ks_current s) = length ls) as -> by lia.
    apply rep_end; [done|]. by intros ->. }
  by wsteps.
Qed.

Lemma ksSetCursor_spec i x Q :
  ls !! i = Some x -> Q 1%Z (mkHeap K (<[l := ks_with_cursor s (Some x) i]> S)) ->
  wp (ksSetCursor (Some l) (Z.of_nat i)) Q (mkHeap K S).
Proof.
  intros Hi HQ. unfold ksSetCursor.
  destruct (Z.eqb_spec (Z.of_nat i) (-1)); [lia|]. destruct (Z.ltb_spec (Z.of_nat i) 0); [lia|].
  wstep. rewrite Nat2Z.id, (rep_get _ _ _ _ Hrep Hi). by wsteps.
Qed.

(** Saving the cursor and setting it again: only the cursor can change. *)
Lemma restore_cursor_spec Q :
  cursor_ok s ->
  (forall c i r, cursor_ok (ks_with_cursor s c i) ->
     Q r (mkHeap K (<[l := ks_with_cursor s c i]> S))) ->
  wp (ksSetCursor (Some l) (if ks_cursor s is Some _ then Z.of_nat (ks_current s) else -1)%Z)
     Q (mkHeap K S).
Proof.
  intros Hc HQ. destruct (ks_cursor s) as [c|] eqn:E.
  - destruct Hc as [?|Hc]; [congruence|]. rewrite (rep_size _ _ Hrep) in Hc.
    destruct (lookup_lt_is_Some_2 _ _ Hc) as [x Hx].
    eapply ksSetCursor_spec; [done|]. apply HQ. right. simpl. by rewrite (rep_size _ _ Hrep).
  - unfold ksSetCursor. simpl. apply wp_bind. apply ksRewind_spec. apply wp_ret.
    apply HQ. by left.
Qed.
End Cursor.

(** ** Resizing *)

Lemma realloc_block s ls n :
  ks_block s ls -> length ls < n -> KEYSET_SIZE <= n ->
  forall a, ks_array s = Some a ->
  ks_block (ks_with_alloc (ks_with_array s (Some (realloc_array a n))) n) ls.
Proof.
  intros [(rest & Ea & El & Ht) Hroom _] Hn Hmin a Ha. simplify_eq.
  split; simpl; [|done..]. unfold realloc_array.
  exists (take (n - length ls) rest ++ replicate (n - length (cells ls ++ rest)) None).
  split_and!.
  - f_equal. rewrite take_app, take_ge, length_cells, <- app_assoc by (rewrite length_cells; lia). done.
  - rewrite length_app, length_take, length_replicate, length_app, length_cells. lia.
  - intros Hne. specialize (Ht Hne). destruct rest as [|t rest]; [done|].
    destruct (n - length ls) eqn:E; [lia|]. done.
Qed.

(** [ksResize] to [n] cells keeps the keys and never goes below the minimum. *)
Lemma ksResize_spec {R : Rec} K S l s ls n Q :
  S !! l = Some s -> ks_block s ls -> length ls < n -> ks_size s <= n ->
  (forall r s', ks_block s' ls -> ks_size s' = ks_size s -> ks_alloc s' = Nat.max n KEYSET_SIZE ->
     ks_cursor s' = ks_cursor s -> ks_current s' = ks_current s -> ks_flags s' = ks_flags s ->
     Q r (mkHeap K (<[l := s']> S))) ->
  wp (ksResize (Some l) (Z.of_nat n - 1)) Q (mkHeap K S).
Proof.
  intros Hs Hb Hn Hsz HQ. unfold ksResize. wstep.
  replace (Z.to_nat (Z.of_nat n - 1 + 1)) with n by lia.
  assert (forall r, ks_alloc s = Nat.max n KEYSET_SIZE -> Q r (mkHeap K S)) as Hsame.
  { intros r Ha. rewrite <- (insert_id S l s) by done. by apply HQ. }
  pose proof (blk_min _ _ Hb) as Hmin.
  destruct (Nat.eqb_spec n (ks_alloc s)) as [He|He]; [apply wp_ret, Hsame; lia|].
  destruct (Nat.ltb_spec n (ks_size s)) as [Hlt|Hlt]; [lia|].
  destruct (blk_array _ _ Hb) as (rest & Ea & El & _).
  destruct (Nat.ltb_spec n KEYSET_SIZE) as [Hk|Hk],
    (Nat.eqb_spec (ks_alloc s) KEYSET_SIZE) as [Hk'|Hk']; cbn [andb].
  { apply wp_ret, Hsame. lia. }
  all: rewrite Ea; cbn zeta; rewrite Ea; wsteps; apply HQ; try done; try (simpl; lia).
  all: apply realloc_block; [done|lia|lia|done].
Qed.

(** Moving [T] up by one cell and writing the freed cell. *)
Lemma shift_up {X} (A T : list X) (r x : X) (R : list X) :
  T <> [] ->
  <[length A := x]>
    (take (length A + 1) (A ++ T ++ r :: R) ++
     take (length T) (drop (length A) (A ++ T ++ r :: R)) ++
     drop (length A + 1 + length T) (A ++ T ++ r :: R)) = A ++ x :: T ++ R.
Proof.
  intros HT. destruct T as [|t T]; [done|].
  rewrite drop_app_length, (take_app_length (t :: T)).
  replace (drop _ _) with R.
  2:{ rewrite app_assoc, drop_app, drop_ge by (rewrite length_app; lia).
      replace (_ - _) with 1 by (rewrite length_app; lia). done. }
  rewrite take_app, take_ge, <- app_assoc by lia.
  replace (length A + 1 - length A) with 1 by lia.
  rewrite insert_app_r_alt, Nat.sub_diag by lia. done.
Qed.

(** ** Inserting, replacing and removing in the array

    [s] already has its size incremented and room for one more key. *)
Section Insert.
Context (s : KeySet) (ls : list loc) (x : loc).
Context (Hb : ks_block s ls) (Hsz : ks_size s = S (length ls)) (Hroom : S (length ls) < ks_alloc s).

Lemma array_set_ok t i p a :
  ks_array t = Some a -> i < length a ->
  array_set t i p = ret (ks_with_array t (Some (<[i := Some p]> a))).
Proof.
  intros Ha Hi. unfold array_set. rewrite Ha.
  by assert ((i <? length a) = true) as -> by (by apply Nat.ltb_lt).
Qed.

Lemma insert_end_spec :
  exists s1 s', array_set s (length ls) (Some x) = ret s1 /\ ks_size s1 = ks_size s /\
    array_set s1 (ks_size s) None = ret s' /\ ks_rep s' (ls ++ [x]).
Proof.
  destruct (blk_array _ _ Hb) as (rest & Ea & El & _).
  destruct rest as [|r1 [|r2 rest]]; simpl in El; [lia|lia|].
  assert (length (cells ls ++ r1 :: r2 :: rest) = ks_alloc s) as Hlen
    by (rewrite length_app, length_cells; simpl; lia).
  eexists _, _. split_and!; [apply array_set_ok; done || lia|done|
    apply array_set_ok; [done|rewrite length_insert; lia]|].
  split; [split|]; simpl.
  - exists (Some None :: rest). split_and!; [|rewrite length_app; simpl; lia|done].
    f_equal. rewrite cells_app, <- app_assoc, Hsz. simpl.
    rewrite insert_app_r_alt, length_cells, Nat.sub_diag by (rewrite length_cells; lia).
    rewrite insert_app_r_alt, length_cells by (rewrite length_cells; lia).
    by replace (S (length ls) - length ls) with 1 by lia.
  - rewrite length_app. simpl. lia.
  - apply (blk_min _ _ Hb).
  - rewrite length_app. simpl. lia.
Qed.

Lemma insert_middle_spec i :
  i < length ls ->
  exists s1 s', array_memmove s (i + 1) i (ks_size s - i) = ret s1 /\
    array_set s1 i (Some x) = ret s' /\ ks_rep s' (take i ls ++ x :: drop i ls).
Proof.
  intros Hi. destruct (blk_array _ _ Hb) as (rest & Ea & El & Ht).
  destruct rest as [|t [|r2 rest]]; simpl in El; [lia|lia|].
  assert (ls <> []) as Hne by (by destruct ls; simpl in Hi; [lia|]).
  specialize (Ht Hne). simpl in Ht. simplify_eq/=.
  set (A := cells (take i ls)). set (T := cells (drop i ls) ++ [Some None]).
  assert (cells ls ++ Some None :: r2 :: rest = A ++ T ++ r2 :: rest) as Ecells.
  { unfold A, T. rewrite app_assoc, (app_assoc (cells (take i ls))), <- cells_app, take_drop.
    by rewrite <- app_assoc. }
  assert (i = length A) as HA by (unfold A; rewrite length_cells, length_take; lia).
  assert (ks_size s - i = length T) as HT
    by (unfold T; rewrite length_app, length_cells, length_drop; simpl; lia).
  assert (length (A ++ T ++ r2 :: rest) = ks_alloc s) as Hlen
    by (rewrite !length_app; simpl; lia).
  unfold array_memmove. rewrite Ea, Ecells, Hlen.
  assert ((i + 1 + (ks_size s - i) <=? ks_alloc s) = true) as -> by (apply Nat.leb_le; lia).
  assert ((i + (ks_size s - i) <=? ks_alloc s) = true) as -> by (apply Nat.leb_le; lia).
  cbn [andb]. eexists _, _. split_and!; [done|
    apply array_set_ok; [done|rewrite length_app, length_take; lia]|].
  split; [split|]; simpl.
  - exists (Some None :: rest). split_and!; [| |done].
    + f_equal. rewrite HT, HA, shift_up by (by intros [_ ?]%app_nil). rewrite <- HA.
      unfold A, T. rewrite cells_app. simpl. by rewrite <- !app_assoc.
    + rewrite length_app, length_take. simpl. rewrite length_drop. lia.
  - rewrite length_app, length_take. simpl. rewrite length_drop. lia.
  - apply (blk_min _ _ Hb).
  - rewrite length_app, length_take. simpl. rewrite length_drop. lia.
Qed.
End Insert.

(** ** Removing the last key *)

Lemma remove_last_rep s ls x :
  ks_block s (ls ++ [x]) -> ks_size s = length ls ->
  exists s', array_set s (length ls) None = ret s' /\ ks_rep s' ls /\
    ks_cursor s' = ks_cursor s /\ ks_current s' = ks_current s /\ ks_flags s' = ks_flags s.
Proof.
  intros [(rest & Ea & El & _) Hroom Hmin] Hsz. rewrite length_app in *. simpl in *.
  exists (ks_with_array s (Some (<[length ls := Some None]> (cells (ls ++ [x]) ++ rest)))).
  split_and!; [| |done..].
  - apply array_set_ok; [done|]. rewrite length_app, length_cells, length_app. simpl. lia.
  - split; [split|]; simpl; [|lia|done|done].
    exists (Some None :: rest). split_and!; [|simpl; lia|done].
    f_equal. rewrite cells_app, <- app_assoc, insert_app_r_alt by (by rewrite length_cells).
    by rewrite length_cells, Nat.sub_diag.
Qed.

Lemma ksPop_spec {R : Rec} K S l s ls x k Q :
  S !! l = Some s -> ks_rep s (ls ++ [x]) -> K !! x = Some k ->
  (forall s', ks_rep s' ls -> ks_cursor s' = ks_cursor s -> ks_current s' = ks_current s ->
     ks_flags s' = set_bit (ks_flags s) KS_FLAG_SYNC ->
     Q (Some x) (mkHeap (<[x := set_ref k (k_ksReference k - 1)]> K) (<[l := s']> S))) ->
  wp (ksPop (Some l)) Q (mkHeap K S).
Proof.
  intros Hs Hrep Hk HQ. destruct Hrep as [Hb Hsz]. rewrite length_app in Hsz. simpl in Hsz.
  unfold ksPop. do 2 wstep. destruct (Nat.eqb_spec (ks_size s) 0); [lia|]. do 3 wstep.
  rewrite !insert_insert_eq. set (s1 := ks_with_size _ _).
  assert (ks_block s1 (ls ++ [x])) as Hb1 by by destruct Hb.
  assert (ks_size s1 = length ls) as Hsz1 by (unfold s1; simpl; lia).
  apply wp_bind.
  assert (forall (r : Z) s2, ks_block s2 (ls ++ [x]) -> ks_size s2 = length ls ->
    ks_cursor s2 = ks_cursor s -> ks_current s2 = ks_current s -> ks_flags s2 = ks_flags s1 ->
    wp (s <- get_ks l;; r <- array_get s (ks_size s);; s <- array_set s (ks_size s) None;;
        put_ks l s;; keyDecRef r;; ret r) Q (mkHeap K (<[l := s2]> S))) as Hfin.
  { intros _ s2 Hb2 Hsz2 Hc2 Hu2 Hf2. unfold s1 in Hf2. simpl in Hf2. wstep. rewrite Hsz2.
    rewrite (block_get _ _ (length ls) x Hb2)
      by (rewrite lookup_app_r, Nat.sub_diag by lia; done).
    wstep. destruct (remove_last_rep s2 ls x Hb2 Hsz2) as (s' & E & Hrep' & Hc' & Hu' & Hf').
    rewrite E. wsteps. rewrite insert_insert_eq. specialize (HQ s' Hrep').
    apply wp_bind. unfold keyDecRef. wstep.
    destruct (Nat.ltb_spec 0 (k_ksReference k)); wsteps; [apply HQ; congruence|].
    replace K with (<[x := set_ref k (k_ksReference k - 1)]> K); [apply HQ; congruence|].
    apply insert_id. rewrite Hk. f_equal. destruct k. unfold set_ref. simpl in *. f_equal. lia. }
  destruct (Nat.ltb_spec (ks_size s1 + 1) (ks_alloc s1 / 2)).
  - eapply (ksResize_spec K _ l s1 (ls ++ [x])); [apply lookup_insert_eq|done| |lia|].
    + rewrite length_app. cbn [length]. lia.
    + intros r s2 Hb2 Hsz2 _ Hc Hu Hf. rewrite insert_insert_eq.
      apply (Hfin r); [done|by rewrite Hsz2|by rewrite Hc|by rewrite Hu|by rewrite Hf].
  - apply wp_ret. by apply (Hfin 0%Z).
Qed.

(** ** The contracts *)

(** [n] calls of [ksNext]. *)
Fixpoint ksNexts {R : Rec} (n : nat) (ks : ptr) : M (list ptr) :=
  match n with
  | O => ret []
  | S n => k <- ksNext ks;; r <- ksNexts n ks;; ret (k :: r)
  end.

(** The cursor is before the [i]th key. *)
Definition before (s : KeySet) (i : nat) : Prop :=
  match ks_cursor s with None => i = 0 /\ ks_current s = 0 | Some _ => i = S (ks_current s) end.

Lemma before_next s i : before s i -> next_index s = i /\ (ks_current s < i \/ i = 0 /\ ks_current s = 0).
Proof. unfold next_index, before. destruct (ks_cursor s); lia. Qed.

Lemma ksNexts_spec {R : Rec} K S l s ls rest i :
  S !! l = Some s -> ks_rep s ls -> before s i -> drop i ls = rest -> i <= length ls ->
  wp (ksNexts (Datatypes.S (length rest)) (Some l))
     (fun r h => r = (Some <$> rest) ++ [None] /\ h_keys h = K /\ delete l (h_sets h) = delete l S)
     (mkHeap K S).
Proof.
  revert S s i. induction rest as [|x rest IH]; intros S s i Hs Hrep Hb Hd Hi;
    pose proof (before_next _ _ Hb) as [Hnx Hcu]; cbn [length ksNexts]; apply wp_bind.
  - assert (ls !! i = None) as Hnone.
    { apply lookup_ge_None. apply (f_equal length) in Hd. rewrite length_drop in Hd. simpl in Hd. lia. }
    eapply ksNext_spec; [done|done| | |].
    + unfold cursor_ok. rewrite (rep_size _ _ Hrep). lia.
    + intros _. rewrite Hnx, Hnone. wsteps. split_and!; [done..|]. apply delete_insert_eq.
    + intros _. by wsteps.
  - assert (ls !! i = Some x) as Hx.
    { rewrite <- (Nat.add_0_r i), <- lookup_drop, Hd. done. }
    apply lookup_lt_Some in Hx as Hlt.
    eapply ksNext_spec; [done|done| | |].
    + unfold cursor_ok. rewrite (rep_size _ _ Hrep). lia.
    + intros Hc. rewrite Hnx, Hx. apply wp_bind. unfold after_next. rewrite Hnx, Hx.
      assert ((length ls <=? ks_current s) = false) as -> by (apply Nat.leb_gt; lia).
      eapply wp_mono; [eapply (IH _ _ (Datatypes.S i))|].
      * apply lookup_insert_eq.
      * by apply ks_rep_cursor.
      * done.
      * rewrite (drop_S _ _ _ Hx) in Hd. by injection Hd.
      * lia.
      * intros r h (-> & HK & HS). apply wp_ret. split_and!; [done..|]. rewrite HS. apply delete_insert_eq.
    + lia.
Qed.


(** [ksPop] removes the last key and returns it, drops the keyset's reference
    to it without freeing it, marks the keyset for synchronisation, and keeps
    the other keys also when it shrinks the array.  The internal cursor stays. *)
Theorem ksPop_removes_last {R : Rec} K S l s ls x k :
  S !! l = Some s -> ks_rep s (ls ++ [x]) -> K !! x = Some k ->
  wp (ksPop (Some l))
     (fun r h => r = Some x /\ h_keys h = <[x := set_ref k (k_ksReference k - 1)]> K /\
        exists s', h_sets h = <[l := s']> S /\ ks_rep s' ls /\
          ks_cursor s' = ks_cursor s /\ ks_current s' = ks_current s /\
          ks_flags s' = set_bit (ks_flags s) KS_FLAG_SYNC) (mkHeap K S).
Proof.
  intros Hs Hrep Hk. eapply ksPop_spec; [done..|]. intros s' ????. split_and!; [done..|].
  exists s'. by split_and!.
Qed.

(** [ksResize] to room for at least one key more than there are keeps all keys
    and the cursor; the block never gets smaller than the minimum. *)
Theorem ksResize_keeps_keys {R : Rec} K S l s ls n :
  S !! l = Some s -> ks_rep s ls -> length ls <= n ->
  wp (ksResize (Some l) (Z.of_nat n))
     (fun _ h => h_keys h = K /\
        exists s', h_sets h = <[l := s']> S /\ ks_rep s' ls /\
          ks_alloc s' = Nat.max (Datatypes.S n) KEYSET_SIZE /\
          ks_cursor s' = ks_cursor s /\ ks_current s' = ks_current s) (mkHeap K S).
Proof.
  intros Hs [Hb Hsz] Hn. replace (Z.of_nat n) with (Z.of_nat (Datatypes.S n) - 1)%Z by lia.
  eapply ksResize_spec; [done|done|lia|lia|]. intros r s' Hb' Hsz' Ha Hc Hu _.
  split; [done|]. exists s'. split_and!; try done. split; [done|congruence].
Qed.
