(* ===== verification/MetaFacts.v ===== *)
(** * MetaFacts: looking up metadata

    Metadata is kept in a keyset of its own, sorted by name.  [keyGetMeta]
    makes a key with the name of the metadata, looks it up with [ksLookup] and
    deletes it again; the file shows which key it finds and that nothing but
    the internal cursor of the metadata keyset changes.  The owner of a key and
    the comparison of keys by name and owner follow. *)
From S2P Require Export KeySetFacts.

(** ** Setting a name, as a function *)

(** What the part of [elektraKeySetName] after the switch makes of a name. *)
Definition set_name_rest (nm : cstr) (keySize0 keyUSize0 : nat) : option cstr :=
  let length0 := S (length nm) in
  let root := take (keySize0 - 1) nm in
  let rest := drop keyUSize0 nm in
  if (length0 =? keyUSize0) || (length0 =? keySize0) then Some root
  else if elektraOnlySlashes (drop (keyUSize0 - 1) nm) then Some root
  else if bool_decide (deref root = NUL) then None
  else if elektraValidateKeyName rest (S (length rest)) then Some (keyAddName_content root rest)
  else None.

(** The key [k] after [elektraFinalizeName] with the name [c]. *)
Definition named (k : Key) (c : cstr) : Key :=
  set_flags (set_name k (Some c) (elektraUnescapeKeyName c)) (set_bit (k_flags k) KEY_FLAG_SYNC).

Lemma test_set_bit_other f a b :
  Z.land a b = 0%Z -> test_bit (set_bit f a) b = test_bit f b.
Proof.
  intros H. unfold test_bit, set_bit. by rewrite Z.land_lor_distr_l, H, Z.lor_0_r.
Qed.

Section SetName.
Context {R : Rec}.

Lemma elektraFinalizeName_spec K S l k c Q :
  K !! l = Some k ->
  Q (Z.of_nat (Datatypes.S (length c))) (mkHeap (<[l := named k c]> K) S) ->
  wp (elektraFinalizeName l c) Q (mkHeap K S).
Proof. intros Hk HQ. unfold elektraFinalizeName. wsteps. done. Qed.

Lemma keyAddName_spec K S l k name nm Q :
  K !! l = Some k -> test_bit (k_flags k) KEY_FLAG_RO_NAME = false -> k_key k = Some name ->
  deref name <> NUL -> nm <> [] ->
  (if elektraValidateKeyName nm (Datatypes.S (length nm)) then
     forall r, r <> (-1)%Z -> Q r (mkHeap (<[l := named k (keyAddName_content name nm)]> K) S)
   else Q (-1)%Z (mkHeap K S)) ->
  wp (keyAddName (Some l) (Some nm)) Q (mkHeap K S).
Proof.
  intros Hk Hro Hn Hne Hnm HQ. unfold keyAddName. wstep. rewrite Hro, Hn.
  rewrite bool_decide_false by (by rewrite strcmp_nil).
  destruct (Nat.ltb_spec (Datatypes.S (length nm)) 2); [destruct nm; simpl in *; [done|lia]|].
  destruct (elektraValidateKeyName _ _); cbn [negb]; [|by apply wp_ret].
  apply wp_bind, (elektraFinalizeName_spec _ _ _ k); [done|]. apply wp_ret.
  apply HQ. destruct (_ =? _)%Z; lia.
Qed.

(** [keyUSize0] bytes of the new name are the root and the separator after it. *)
Lemma elektraSetNameRest_spec K S l k nm a b Q :
  K !! l = Some k -> test_bit (k_flags k) KEY_FLAG_RO_NAME = false ->
  (forall c, nm !! (b - 1) = Some c -> c = SLASH) -> 0 < b ->
  match set_name_rest nm a b with
  | Some c => forall r, r <> (-1)%Z -> Q r (mkHeap (<[l := named k c]> K) S)
  | None => Q (-1)%Z (mkHeap (<[l := set_name k None []]> K) S)
  end ->
  wp (elektraSetNameRest l nm a b) Q (mkHeap K S).
Proof.
  intros Hk Hro Hb Hb0 HQ. unfold elektraSetNameRest. cbn zeta. unfold set_name_rest in HQ.
  destruct (_ || _) eqn:Eend; [|destruct (elektraOnlySlashes _) eqn:Eonly].
  - apply wp_bind, (elektraFinalizeName_spec _ _ _ k); [done|]. wsteps. apply HQ. lia.
  - apply wp_bind, (elektraFinalizeName_spec _ _ _ k); [done|]. wsteps. apply HQ. lia.
  - wsteps. 
    assert (drop b nm <> []) as Hrest.
    { intros Hd. apply not_true_iff_false in Eonly. apply Eonly.
      apply orb_false_iff in Eend as [Eb _]. apply Nat.eqb_neq in Eb.
      destruct (nm !! (b - 1)) as [c|] eqn:Ec.
      - rewrite (drop_S _ _ _ Ec). replace (Datatypes.S (b - 1)) with b by lia. rewrite Hd.
        rewrite (Hb _ eq_refl). done.
      - apply lookup_ge_None in Ec. by rewrite drop_ge. }
    destruct (decide (deref (take (a - 1) nm) = NUL)) as [Hr|Hr].
    + rewrite bool_decide_true in HQ by done.
      apply wp_bind. unfold keyAddName. wstep. simpl. rewrite Hro.
      rewrite bool_decide_true by (by rewrite strcmp_nil).
      apply wp_ret. simpl. unfold elektraRemoveKeyName. wsteps. rewrite insert_insert_eq. done.
    + rewrite bool_decide_false in HQ by done.
      apply wp_bind. eapply keyAddName_spec; [apply lookup_insert_eq|done|done|done|done|].
      destruct (elektraValidateKeyName _ _).
      * intros r Hr'. destruct (Z.eqb_spec r (-1)); [done|]. rewrite insert_insert_eq. wsteps.
        apply HQ. lia.
      * cbn. unfold elektraRemoveKeyName. wsteps. rewrite insert_insert_eq. done.
Qed.
End SetName.

(** ** Finding a key by name *)

Definition uname_of (K : gmap loc Key) (l : loc) : list ascii :=
  match K !! l with Some k => k_uname k | None => [] end.

Definition keys_live (K : gmap loc Key) (ls : list loc) : Prop := Forall (fun x => is_Some (K !! x)) ls.

Definition uname_sorted (K : gmap loc Key) (ls : list loc) : Prop :=
  StronglySorted (fun x y => uname_lt (uname_of K x) (uname_of K y)) ls.

(** The key of [ls] with the unescaped name [u]. *)
Definition find_uname (K : gmap loc Key) (ls : list loc) (u : list ascii) : ptr :=
  find (fun l => bool_decide (uname_of K l = u)) ls.

Lemma sorted_lookup {A} (Rel : A -> A -> Prop) ls i j x y :
  StronglySorted Rel ls -> i < j -> ls !! i = Some x -> ls !! j = Some y -> Rel x y.
Proof.
  intros H. revert i j. induction H as [|a ls H IH Ha]; intros i j Hij Hi Hj; [done|].
  destruct j as [|j]; [lia|]. destruct i as [|i]; simpl in *; simplify_eq.
  - rewrite Forall_forall in Ha. apply Ha. by eapply list_elem_of_lookup_2.
  - eapply (IH i j); eauto. lia.
Qed.

Lemma uname_sorted_ordered K ls u :
  uname_sorted K ls -> ordered_for ls (fun x => uname_order u (uname_of K x)).
Proof.
  intros H i j x y Hij Hi Hj Hz.
  pose proof (sorted_lookup _ _ _ _ _ _ H Hij Hi Hj) as Hlt. unfold uname_lt in Hlt.
  rewrite <- name_order_antisym. destruct (decide (uname_order u (uname_of K y) = 0)%Z) as [E|E].
  - apply uname_order_zero in E. by subst.
  - eapply name_order_lt_trans; [done|]. apply name_order_antisym. lia.
Qed.

Lemma find_uname_Some K ls u x :
  uname_sorted K ls -> x ∈ ls -> uname_of K x = u -> find_uname K ls u = Some x.
Proof.
  intros Hs Hx Hu. unfold find_uname. destruct (find _ ls) as [y|] eqn:E.
  - apply List.find_some in E as [Hy E]. apply bool_decide_eq_true in E.
    apply list_elem_of_In in Hy. f_equal.
    apply list_elem_of_lookup_1 in Hx as [i Hi], Hy as [j Hj].
    destruct (Nat.lt_total i j) as [H|[->|H]]; [|by simplify_eq|].
    + pose proof (sorted_lookup _ _ _ _ _ _ Hs H Hi Hj) as Hlt. simpl in Hlt. rewrite Hu, E in Hlt.
      by apply uname_lt_irrefl in Hlt.
    + pose proof (sorted_lookup _ _ _ _ _ _ Hs H Hj Hi) as Hlt. simpl in Hlt. rewrite Hu, E in Hlt.
      by apply uname_lt_irrefl in Hlt.
  - apply list_elem_of_In in Hx. apply (List.find_none _ _ E) in Hx.
    by apply bool_decide_eq_false in Hx.
Qed.

Lemma find_uname_None K ls u :
  (forall x, x ∈ ls -> uname_of K x <> u) -> find_uname K ls u = None.
Proof.
  intros H. unfold find_uname. destruct (find _ ls) as [y|] eqn:E; [|done].
  apply List.find_some in E as [Hy E]. apply bool_decide_eq_true in E.
  apply list_elem_of_In in Hy. by destruct (H y).
Qed.

Lemma find_uname_spec K ls u :
  match find_uname K ls u with
  | Some x => x ∈ ls /\ uname_of K x = u
  | None => forall x, x ∈ ls -> uname_of K x <> u
  end.
Proof.
  unfold find_uname. destruct (find _ ls) as [x|] eqn:E.
  - apply List.find_some in E as [Hx E]. apply list_elem_of_In in Hx.
    by apply bool_decide_eq_true in E.
  - intros x Hx. apply list_elem_of_In in Hx. apply (List.find_none _ _ E) in Hx.
    by apply bool_decide_eq_false in Hx.
Qed.

Section Lookup.
Context {R : Rec} {CB : Callbacks}.

Lemma keyCompareByName_spec p1 p2 k1 k2 K S Q :
  K !! p1 = Some k1 -> K !! p2 = Some k2 ->
  Q (uname_order (k_uname k1) (k_uname k2)) (mkHeap K S) ->
  wp (keyCompareByName p1 p2) Q (mkHeap K S).
Proof.
  intros H1 H2 HQ. unfold keyCompareByName. wsteps. by rewrite compare_names_memcmp.
Qed.

Lemma keyCompareByName_compares K S key k ls :
  K !! key = Some k -> keys_live K ls ->
  compares ls (fun x => uname_order (k_uname k) (uname_of K x)) (fun h => h = mkHeap K S) key
    keyCompareByName.
Proof.
  intros Hk Hl x h Hx ->. unfold keys_live in Hl. rewrite Forall_forall in Hl.
  destruct (Hl x Hx) as [kx Hkx]. eapply keyCompareByName_spec; [done..|].
  unfold uname_of. by rewrite Hkx.
Qed.

(** Options that leave the binary search by name, without popping. *)
Definition plain_search (options : Z) : Prop :=
  test_bit options KDB_O_WITHOWNER = false /\ test_bit options KDB_O_NOCASE = false /\
  test_bit options KDB_O_POP = false.

(** The binary search finds the key with the searched name, and moves only the
    internal cursor. *)
Lemma elektraLookupBinarySearch_spec K S l s ls key k options Q :
  S !! l = Some s -> ks_rep s ls -> cursor_ok s -> keys_live K ls -> uname_sorted K ls ->
  K !! key = Some k -> plain_search options ->
  (forall c i, cursor_ok (ks_with_cursor s c i) ->
     Q (find_uname K ls (k_uname k)) (mkHeap K (<[l := ks_with_cursor s c i]> S))) ->
  wp (elektraLookupBinarySearch l key options) Q (mkHeap K S).
Proof.
  intros Hs Hrep Hc Hlive Hsort Hk (Ho & Hn & Hp) HQ.
  unfold elektraLookupBinarySearch, ksGetCursor. wsteps.
  apply wp_bind. rewrite (rep_size _ _ Hrep).
  eapply wp_mono.
  - eapply (bsearch_spec s ls Hrep (fun x => uname_order (k_uname k) (uname_of K x))
             (fun h => h = mkHeap K S)); [by apply uname_sorted_ordered| |lia..| |done].
    + unfold search_compare. rewrite Ho, Hn. simpl. by apply keyCompareByName_compares.
    + intros i x Hi. split; [lia|]. apply lookup_lt_Some in Hi. lia.
  - intros [i|] h' (-> & H).
    + destruct H as (x & Hx & Hz). rewrite Hp.
      apply wp_bind. eapply ksSetCursor_spec; [done..|]. wsteps.
      assert (array_get (ks_with_cursor s (Some x) i) i = ret (Some x)) as ->.
      { eapply rep_get; [|done]. by apply ks_rep_cursor. }
      apply wp_ret. rewrite <- (find_uname_Some K ls (k_uname k) x).
      * apply HQ. right. simpl. rewrite (rep_size _ _ Hrep). by eapply lookup_lt_Some.
      * done.
      * by eapply list_elem_of_lookup_2.
      * by apply uname_order_zero in Hz.
    + apply wp_bind. eapply restore_cursor_spec; [done..|]. intros c i r Hci. apply wp_ret.
      rewrite find_uname_None in HQ; [by apply HQ|].
      intros x Hx Hu. apply (H x Hx). by apply uname_order_zero.
Qed.

(** ** Keysets sorted by name, and metadata *)

(** The keyset at [l] holds the live keys [ls], sorted by unescaped name. *)
Definition set_ok (K : gmap loc Key) (S : gmap loc KeySet) (l : loc) (ls : list loc) : Prop :=
  exists s, S !! l = Some s /\ ks_rep s ls /\ cursor_ok s /\ keys_live K ls /\ uname_sorted K ls.

Lemma set_ok_cursor K S l s ls c i :
  set_ok K S l ls -> S !! l = Some s -> cursor_ok (ks_with_cursor s c i) ->
  set_ok K (<[l := ks_with_cursor s c i]> S) l ls.
Proof.
  intros (s' & Hs & Hrep & _ & ? & ?) ? Hc. simplify_eq. eexists.
  split_and!; [apply lookup_insert_eq|by apply ks_rep_cursor|done..].
Qed.

Lemma set_ok_sim P K S S' l ls : sets_sim P S S' -> set_ok K S l ls -> set_ok K S' l ls.
Proof.
  intros H (s & Hs & Hrep & Hc & ? & ?). destruct (sets_sim_lookup _ _ _ _ _ H Hs) as (s' & Hs' & Hsim).
  exists s'. split_and!; [done|by eapply ks_rep_sim| |done..]. by apply Hsim.
Qed.

Lemma set_ok_keys K K' S l ls :
  (forall x, x ∈ ls -> is_Some (K' !! x) /\ uname_of K' x = uname_of K x) ->
  set_ok K S l ls -> set_ok K' S l ls.
Proof.
  intros HK (s & Hs & Hrep & Hc & Hl & Hsort). exists s. split_and!; try done.
  - apply Forall_forall. intros x Hx. by apply HK.
  - clear Hrep Hl Hs Hc. induction Hsort as [|x ls Hsort IH Hx]; [constructor|].
    constructor; [apply IH; intros y Hy; apply HK; by right|].
    rewrite Forall_forall in *. intros y Hy.
    rewrite (proj2 (HK x ltac:(by left))), (proj2 (HK y ltac:(by right))). by apply Hx.
Qed.

Lemma find_uname_keys K K' ls u :
  (forall x, x ∈ ls -> uname_of K' x = uname_of K x) -> find_uname K' ls u = find_uname K ls u.
Proof.
  unfold find_uname. intros H. induction ls as [|x ls IH]; [done|]. simpl.
  rewrite (H x) by (by left). rewrite IH; [done|]. intros y Hy. apply H. by right.
Qed.

Lemma keys_live_fresh K ls k :
  keys_live K ls ->
  forall x, x ∈ ls -> is_Some (<[fresh_loc K := k]> K !! x) /\
                      uname_of (<[fresh_loc K := k]> K) x = uname_of K x.
Proof.
  intros Hl x Hx. unfold keys_live in Hl. rewrite Forall_forall in Hl.
  destruct (Hl x Hx) as [kx Hkx]. unfold uname_of.
  rewrite lookup_insert_ne by (by eapply fresh_loc_ne). rewrite Hkx. by eauto.
Qed.
End Lookup.

(** How many characters [elektraKeySetName] takes for the namespace of a name, or for the
    first level of a name of metadata; metadata may be called [spec/...] or the like, too. *)
Definition prefix_size (nm : cstr) : option nat :=
  match keyGetNameNamespace (Some nm) with
  | KEY_NS_META => Some (S (snd (keyNameGetOneLevel nm)))
  | KEY_NS_SPEC | KEY_NS_PROC => Some 5
  | KEY_NS_DIR => Some 4
  | KEY_NS_SYSTEM => Some 7
  | _ => None
  end.

(** [nm] is a name of metadata; the key made for it is called [c]. *)
Record meta_name (nm c : cstr) : Prop := {
  mn_name : match prefix_size nm with Some size => set_name_rest nm size size | None => None end = Some c;
  mn_sep : forall size d, prefix_size nm = Some size -> nm !! (size - 1) = Some d -> d = SLASH;
  mn_first : deref c <> SLASH
}.

Ltac meta_name_eval :=
  split; [reflexivity|intros size d [= <-] H; cbv in H; congruence|intros H; cbv in H; congruence].

Section GetMeta.
Context {CB : Callbacks}.

Lemma keyGetMeta_none {R : Rec} l k nm K S Q :
  K !! l = Some k -> k_meta k = None -> Q None (mkHeap K S) ->
  wp (keyGetMeta (Some l) (Some nm)) Q (mkHeap K S).
Proof. intros Hk Hm HQ. unfold keyGetMeta. wstep. rewrite Hm. by apply wp_ret. Qed.

(** Options of a search by name that neither pops, creates nor deletes. *)
Definition plain_options (o : Z) : Prop :=
  plain_search o /\ test_bit o KDB_O_SPEC = false /\ test_bit o KDB_O_NOALL = false /\
  test_bit o KDB_O_CREATE = false /\ test_bit o KDB_O_DEL = false.

Lemma test_clear_bit_other f a b : Z.land (Z.lnot a) b = b -> test_bit (clear_bit f a) b = test_bit f b.
Proof. intros H. unfold test_bit, clear_bit. by rewrite <- Z.land_assoc, H. Qed.

(** [ksLookup] of a key that is not looked up by cascading and whose metadata,
    if it has any, has no callback. *)
Lemma ksLookup_search_spec n (P : loc -> Prop) K S l ls key k name options Q :
  set_ok K S l ls -> K !! key = Some k -> k_key k = Some name ->
  deref name <> SLASH \/ test_bit options KDB_O_NOCASCADING = true -> plain_options options ->
  (forall S1, sets_sim (eq l) S S1 ->
     wp (@keyGetMeta (knot n) (Some key) (Some (lit "callback")))
        (fun r h => r = None /\ h_keys h = K /\ sets_sim P S1 (h_sets h)) (mkHeap K S1)) ->
  (forall S', sets_sim (fun m => l = m \/ P m) S S' ->
     Q (find_uname K ls (k_uname k)) (mkHeap K S')) ->
  wp (ksLookup n (Some l) (Some key) options) Q (mkHeap K S).
Proof.
  intros (s & Hs & Hrep & Hc & Hl & Hsort) Hk Hn Hslash (Hplain & Hspec & Hall & Hcr & Hdel) Hcb HQ.
  unfold ksLookup, ksLookup_body. wstep. rewrite Hn, Hspec, Hall, Hcr, Hdel.
  set (masked := clear_bit (clear_bit options KDB_O_DEL) KDB_O_CREATE).
  assert (plain_search masked) as Hp.
  { unfold plain_search, masked. by rewrite !test_clear_bit_other. }
  assert (negb (test_bit options KDB_O_NOCASCADING) && negb (bool_decide (strcmp name [] = 0%Z)) &&
          bool_decide (deref name = SLASH) = false) as ->.
  { destruct Hslash as [H | ->]; [|done]. rewrite (bool_decide_false (deref name = SLASH)) by done.
    by rewrite andb_false_r. }
  apply wp_bind. unfold elektraLookupSearch. apply wp_bind.
  eapply elektraLookupBinarySearch_spec; [done..|]. intros c i Hci.
  assert (sets_sim (eq l) S (<[l := ks_with_cursor s c i]> S)) as Hsim1.
  { apply sets_sim_insert with s; [done|done|]. by apply set_sim_cursor. }
  apply wp_bind. eapply wp_mono; [by apply Hcb|]. intros r [K2 S2] (-> & HK & Hsim2).
  simpl in *. subst K2. apply wp_ret.
  apply wp_bind. assert (forall x : ptr, (match x with Some _ => ret x | None => ret None end) = ret x) as E
    by (by intros [|]). rewrite E. apply wp_ret. wsteps. apply HQ.
  etrans; (eapply sets_sim_weaken; [|done]); intros; by auto.
Qed.

Lemma ksLookup_plain_spec n K S l ls key k name options Q :
  set_ok K S l ls -> K !! key = Some k -> k_key k = Some name -> k_meta k = None ->
  deref name <> SLASH \/ test_bit options KDB_O_NOCASCADING = true -> plain_options options ->
  (forall S', sets_sim (eq l) S S' -> Q (find_uname K ls (k_uname k)) (mkHeap K S')) ->
  wp (ksLookup n (Some l) (Some key) options) Q (mkHeap K S).
Proof.
  intros Hset Hk Hn Hm Hslash Hopt HQ.
  eapply (ksLookup_search_spec n (fun _ => False)); [done..| |].
  - intros S1 _. eapply keyGetMeta_none; [done..|]. by split_and!.
  - intros S' HS. apply HQ. eapply sets_sim_weaken; [|done]. by intros m [|].
Qed.

(** Setting the name of a key to a name of metadata. *)
Lemma setName_meta_spec {R : Rec} K S l k nm c options Q :
  K !! l = Some k -> test_bit (k_flags k) KEY_FLAG_RO_NAME = false ->
  test_bit options KEY_META_NAME = true -> meta_name nm c ->
  (forall r, r <> (-1)%Z -> Q r (mkHeap (<[l := named (set_name k None []) c]> K) S)) ->
  wp (elektraKeySetName (Some l) (Some nm) options) Q (mkHeap K S).
Proof.
  intros Hk Hro Hopt [Hname Hsep _] HQ. unfold elektraKeySetName, elektraRemoveKeyName.
  wstep. rewrite Hro. wsteps. rewrite Hopt. apply wp_ret_bind. unfold prefix_size in *.
  assert (forall size, 0 < size -> (forall d, nm !! (size - 1) = Some d -> d = SLASH) -> set_name_rest nm size size = Some c ->
    wp (elektraSetNameRest l nm size size) Q (mkHeap (<[l := set_name k None []]> K) S)) as H.
  { intros size H0 Hd Hsz. eapply elektraSetNameRest_spec; [apply lookup_insert_eq|done|exact Hd|done|]. by rewrite Hsz, insert_insert_eq. }
  destruct (keyGetNameNamespace _); try done; cbn zeta; (apply H; [lia|intros d; by apply Hsep|done]).
Qed.

Lemma keyDel_plain_spec {R : Rec} K S l k Q :
  K !! l = Some k -> k_meta k = None -> k_ksReference k = 0 ->
  Q 0%Z (mkHeap (delete l K) S) -> wp (keyDel (Some l)) Q (mkHeap K S).
Proof.
  intros Hk Hm Hr HQ. unfold keyDel. wstep. rewrite Hr. simpl. unfold keyClear, keyInit.
  wsteps. rewrite Hm. wsteps. by rewrite insert_insert_eq, delete_insert_eq in *.
Qed.

Lemma keyDel_referenced_spec {R : Rec} K S l k Q :
  K !! l = Some k -> 0 < k_ksReference k -> Q (Z.of_nat (k_ksReference k)) (mkHeap K S) ->
  wp (keyDel (Some l)) Q (mkHeap K S).
Proof.
  intros Hk Hr HQ. unfold keyDel. wstep. apply Nat.ltb_lt in Hr. rewrite Hr. by apply wp_ret.
Qed.
End GetMeta.

(** ** What the recursive calls promise

    [keyGetMeta] is verified against the laws of the class, which the functions
    tied by [knot] satisfy as soon as the depth is not 0. *)
Class RecLaws (R : Rec) : Prop := {
  rec_lookup_plain K S l ls key k name options Q :
    set_ok K S l ls -> K !! key = Some k -> k_key k = Some name -> k_meta k = None ->
    deref name <> SLASH \/ test_bit options KDB_O_NOCASCADING = true -> plain_options options ->
    (forall S', sets_sim (eq l) S S' -> Q (find_uname K ls (k_uname k)) (mkHeap K S')) ->
    wp (rec_ksLookup (Some l) (Some key) options) Q (mkHeap K S);
  rec_keyDel_plain K S l k Q :
    K !! l = Some k -> k_meta k = None -> k_ksReference k = 0 ->
    Q 0%Z (mkHeap (delete l K) S) -> wp (rec_keyDel (Some l)) Q (mkHeap K S);
  rec_keyDel_referenced K S l k Q :
    K !! l = Some k -> 0 < k_ksReference k -> Q (Z.of_nat (k_ksReference k)) (mkHeap K S) ->
    wp (rec_keyDel (Some l)) Q (mkHeap K S);
  rec_keySetOwner_plain K S l k Q :
    K !! l = Some k -> k_meta k = None -> (forall r, Q r (mkHeap K S)) ->
    wp (rec_keySetOwner (Some l) None) Q (mkHeap K S)
}.

#[global] Instance knot_laws {CB : Callbacks} n : RecLaws (knot (S n)).
Proof.
  split.
  - intros K S l ls key k name o Q ???????. change (wp (ksLookup n (Some l) (Some key) o) Q (mkHeap K S)).
    by eapply ksLookup_plain_spec.
  - intros K S l k Q ????. change (wp (@keyDel (knot n) (Some l)) Q (mkHeap K S)).
    by eapply keyDel_plain_spec.
  - intros K S l k Q ???. change (wp (@keyDel (knot n) (Some l)) Q (mkHeap K S)).
    by eapply keyDel_referenced_spec.
  - intros K S l k Q Hk Hm HQ. change (wp (@keySetOwner (knot n) (Some l) None) Q (mkHeap K S)).
    unfold keySetOwner, keySetMeta. repeat (wstep || apply wp_assoc || apply wp_bind). rewrite Hm.
    destruct (test_bit _ _); apply wp_ret; wsteps; apply HQ.
Qed.

Section GetMetaSpec.
Context {R : Rec} {HR : RecLaws R}.

(** [keyGetMeta] finds the metadata by name: the key it looks up with is gone
    afterwards, and only the cursor of the metadata keyset has moved. *)
Lemma keyGetMeta_spec K S l k m ms nm c Q :
  K !! l = Some k -> k_meta k = Some m -> set_ok K S m ms -> meta_name nm c ->
  (forall S', sets_sim (eq m) S S' ->
     Q (find_uname K ms (elektraUnescapeKeyName c)) (mkHeap K S')) ->
  wp (keyGetMeta (Some l) (Some nm)) Q (mkHeap K S).
Proof.
  intros Hk Hm Hset Hnm HQ. unfold keyGetMeta. wstep. rewrite Hm.
  unfold elektraKeyMalloc. wstep. set (f := fresh_loc K).
  apply wp_bind. eapply setName_meta_spec; [apply lookup_insert_eq|done|done|done|].
  intros r _. rewrite insert_insert_eq. set (sk := named _ _).
  assert (keys_live K ms) as Hl by (by destruct Hset as (? & ? & ? & ? & ? & ?)).
  assert (forall x, x ∈ ms -> is_Some (<[f:=sk]> K !! x) /\ uname_of (<[f:=sk]> K) x = uname_of K x) as Hf
    by (by apply keys_live_fresh).
  apply wp_bind. eapply (rec_lookup_plain _ _ m ms f sk c);
    [by eapply set_ok_keys|apply lookup_insert_eq|done|done|left; by apply Hnm|by split_and!|].
  intros S' Hsim. apply wp_bind.
  eapply keyDel_plain_spec; [apply lookup_insert_eq|done|done|]. wstep.
  rewrite delete_insert_id by apply fresh_loc_None.
  rewrite (find_uname_keys K) by (intros; by apply Hf). by apply HQ.
Qed.
End GetMetaSpec.

(** ** Owners, and comparing keys by name and owner *)

Definition owner_uname : list ascii := elektraUnescapeKeyName (lit "owner").

Lemma meta_name_owner : meta_name (lit "owner") (lit "owner").
Proof. meta_name_eval. Qed.

(** The value of a metadata key, read as a C string. *)
Definition meta_cstr (K : gmap loc Key) (x : loc) (c : cstr) : Prop :=
  exists k, K !! x = Some k /\ k_meta k = None /\
    match k_data k with None => c = [] | Some d => cstr_of d = Some c end.

(** The key [l] has the metadata [u] with the value [o], or does not have it. *)
Definition has_meta (K : gmap loc Key) (S : gmap loc KeySet) (k : Key) (u : list ascii)
    (o : option cstr) : Prop :=
  match k_meta k with
  | None => o = None
  | Some m =>
      exists ms, set_ok K S m ms /\
        match find_uname K ms u, o with
        | None, None => True
        | Some x, Some c => meta_cstr K x c
        | _, _ => False
        end
  end.

(** The key at [l] is identified by [id]. *)
Definition has_kid (K : gmap loc Key) (S : gmap loc KeySet) (l : loc) (id : kid) : Prop :=
  exists k, K !! l = Some k /\ k_uname k = id.1 /\ has_meta K S k owner_uname id.2.

(** The metadata keysets of [l] are among [P]. *)
Definition meta_in (P : loc -> Prop) (K : gmap loc Key) (l : loc) : Prop :=
  forall k m, K !! l = Some k -> k_meta k = Some m -> P m.

Lemma has_meta_sim P K S S' k u o : sets_sim P S S' -> has_meta K S k u o -> has_meta K S' k u o.
Proof.
  intros H. unfold has_meta. destruct (k_meta k) as [m|]; [|done].
  intros (ms & Hset & Ho). exists ms. split; [by eapply set_ok_sim|done].
Qed.

Lemma has_kid_sim P K S S' l id : sets_sim P S S' -> has_kid K S l id -> has_kid K S' l id.
Proof. intros H (k & ? & ? & ?). exists k. eauto using has_meta_sim. Qed.

Lemma has_kid_ok K S l id : has_kid K S l id -> kid_ok id.
Proof.
  destruct id as [u [o|]]; [|done]. intros (k & _ & _ & H). unfold has_meta in H. simpl in *.
  destruct (k_meta k) as [m|]; [|done]. destruct H as (ms & _ & H).
  destruct (find_uname K ms owner_uname) as [x|]; [|done].
  destruct H as (kx & _ & _ & H). unfold kid_ok. simpl.
  destruct (k_data kx); [by eapply cstr_of_no_nul|subst; constructor].
Qed.

Section Owner.
Context {R : Rec} {HR : RecLaws R}.

(** Reading one owner: what [keyCompareByOwner] gets before [strcmp]. *)
Lemma get_meta_value_spec K S l k nm c o {B} (f : option (list ascii) -> M B) Q :
  K !! l = Some k -> meta_name nm c -> has_meta K S k (elektraUnescapeKeyName c) o ->
  (forall S' v, (forall P, meta_in P K l -> sets_sim P S S') ->
     match o, v with
     | None, None => True
     | Some o, Some b => cstr_of b = Some o
     | _, _ => False
     end -> wp (f v) Q (mkHeap K S')) ->
  wp (m1 <- keyGetMeta (Some l) (Some nm);; owner1 <- keyValue m1;; f owner1) Q (mkHeap K S).
Proof.
  intros Hk Hnm Hmeta HQ. unfold has_meta in Hmeta. apply wp_bind.
  destruct (k_meta k) as [m|] eqn:Em.
  - destruct Hmeta as (ms & Hset & Ho). eapply keyGetMeta_spec; [done..|].
    intros S' Hsim.
    assert (forall P, meta_in P K l -> sets_sim P S S') as HP.
    { intros P HP. eapply sets_sim_weaken; [|done]. intros m' <-. by eapply HP. }
    destruct (find_uname K ms _) as [x|], o as [o|]; try done.
    + destruct Ho as (kx & Hkx & Hmx & Ho). unfold keyValue. do 2 wstep.
      destruct (k_data kx) as [d|]; wstep; [by apply HQ|].
      apply wp_bind. unfold keyIsBinary. apply wp_bind. eapply keyGetMeta_none; [done..|].
      wstep. wsteps. apply HQ; [done|]. by subst.
    + unfold keyValue. wstep. by apply HQ.
  - subst. eapply keyGetMeta_none; [done..|]. unfold keyValue. wstep. by apply HQ.
Qed.

Lemma keyCompareByNameOwner_spec (P : loc -> Prop) K S p1 p2 id1 id2 Q :
  has_kid K S p1 id1 -> has_kid K S p2 id2 -> meta_in P K p1 -> meta_in P K p2 ->
  (forall S', sets_sim P S S' -> Q (kid_order id1 id2) (mkHeap K S')) ->
  wp (keyCompareByNameOwner p1 p2) Q (mkHeap K S).
Proof.
  destruct id1 as [u1 o1], id2 as [u2 o2].
  intros (k1 & Hk1 & Hu1 & Ho1) (k2 & Hk2 & Hu2 & Ho2) HP1 HP2 HQ. simpl in *. subst.
  unfold keyCompareByNameOwner. apply wp_bind. eapply keyCompareByName_spec; [done..|].
  unfold kid_order in HQ. simpl in HQ.
  destruct (Z.eqb_spec (uname_order (k_uname k1) (k_uname k2)) 0); [|by apply wp_ret, HQ].
  unfold keyCompareByOwner.
  eapply get_meta_value_spec; [done|apply meta_name_owner|exact Ho1|]. intros S1 v1 HS1 Hv1.
  specialize (HS1 P HP1).
  eapply get_meta_value_spec; [done|apply meta_name_owner|by eapply has_meta_sim|].
  intros S2 v2 HS2 Hv2. specialize (HS2 P HP2).
  assert (sets_sim P S S2) as HS by (by etrans). specialize (HQ S2 HS).
  destruct o1, o2, v1, v2; try done; try by apply wp_ret.
  unfold as_cstr. rewrite Hv1, Hv2. wsteps. done.
Qed.
End Owner.

(** ** The contracts *)

(** [keyGetMeta] returns the metadata key with the unescaped name, or NULL when
    there is none.  The key it looked up with is freed again: all keys are as
    before, and so are all keysets but for the cursor of the metadata. *)
Theorem keyGetMeta_finds {CB : Callbacks} n K S l k m ms nm c :
  K !! l = Some k -> k_meta k = Some m -> set_ok K S m ms -> meta_name nm c ->
  wp (@keyGetMeta (knot (Datatypes.S n)) (Some l) (Some nm))
     (fun r h => match r with
                 | Some x => x ∈ ms /\ uname_of K x = elektraUnescapeKeyName c
                 | None => forall x, x ∈ ms -> uname_of K x <> elektraUnescapeKeyName c
                 end /\ h_keys h = K /\ sets_sim (eq m) S (h_sets h)) (mkHeap K S).
Proof.
  intros. eapply keyGetMeta_spec; [done..|]. intros S' HS'. split; [apply find_uname_spec|done].
Qed.

(** C30.  [keyCmp] of two named keys orders them by unescaped name and then by owner:
    the result is 0 exactly for the same name and owner, it is negative when
    the first key comes first, and exchanging the keys exchanges the sign.  No
    key changes. *)
Theorem keyCmp_order {CB : Callbacks} n K S p1 p2 k1 k2 id1 id2 :
  K !! p1 = Some k1 -> K !! p2 = Some k2 -> k_key k1 <> None -> k_key k2 <> None ->
  has_kid K S p1 id1 -> has_kid K S p2 id2 ->
  wp (@keyCmp (knot (Datatypes.S n)) (Some p1) (Some p2))
     (fun r h => (r = 0%Z <-> id1 = id2) /\ ((r < 0)%Z <-> kid_lt id1 id2) /\
                 ((0 < r)%Z <-> kid_lt id2 id1) /\ h_keys h = K) (mkHeap K S).
Proof.
  intros H1 H2 Hn1 Hn2 Hid1 Hid2. unfold keyCmp. wsteps.
  destruct (k_key k1), (k_key k2); try done.
  apply (keyCompareByNameOwner_spec (fun _ => True) K S p1 p2 id1 id2); [done..|].
  intros S' _. pose proof (has_kid_ok _ _ _ _ Hid1) as Ho1. pose proof (has_kid_ok _ _ _ _ Hid2) as Ho2.
  pose proof (kid_order_sgn id1 id2 Ho1 Ho2). pose proof (kid_order_zero id1 id2 Ho1 Ho2).
  unfold kid_lt. split_and!; [done|done|lia|done].
Qed.
