(* ===== verification/DeleteFacts.v ===== *)
(** * DeleteFacts: what deleting frees

    Keys are reference counted by the keysets that hold them.  [release] is
    what dropping one reference does to a key without metadata; [ksClose],
    [ksDel] and [keyDel] are shown to release exactly the keys they hold. *)
From S2P Require Export MetaFacts.

(** One reference to [x] is dropped; the last one frees the key. *)
Definition release (K : gmap loc Key) (x : loc) : gmap loc Key :=
  match K !! x with
  | None => K
  | Some k => if 1 <? k_ksReference k then <[x := set_ref k (k_ksReference k - 1)]> K else delete x K
  end.

Definition plain_key (K : gmap loc Key) (x : loc) : Prop := exists k, K !! x = Some k /\ k_meta k = None.

Lemma release_other K x y : x <> y -> release K x !! y = K !! y.
Proof.
  intros Hne. unfold release. destruct (K !! x); [|done].
  destruct (_ <? _); simplify_map_eq; done.
Qed.

Lemma release_list_other K xs y : y ∉ xs -> foldl release K xs !! y = K !! y.
Proof.
  revert K. induction xs as [|x xs IH]; intros K Hy; [done|]. simpl.
  apply not_elem_of_cons in Hy as [? ?]. rewrite IH by done. by apply release_other.
Qed.

(** The key may lose a reference: it has no metadata to be freed with it, or
    another reference. *)
Definition droppable (K : gmap loc Key) (x : loc) : Prop :=
  exists k, K !! x = Some k /\ (k_meta k = None \/ 1 < k_ksReference k).

Lemma plain_droppable K x : plain_key K x -> droppable K x.
Proof. intros (k & Hk & Hm). exists k. auto. Qed.

Lemma droppable_release K x y : x <> y -> droppable K y -> droppable (release K x) y.
Proof. intros Hne (k & Hk & Hm). exists k. by rewrite release_other. Qed.

(** The result on any key of the list: one reference less, or gone. *)
Lemma release_list_lookup K xs x :
  NoDup xs -> x ∈ xs ->
  foldl release K xs !! x =
    match K !! x with
    | Some k => if 1 <? k_ksReference k then Some (set_ref k (k_ksReference k - 1)) else None
    | None => None
    end.
Proof.
  intros Hnd. revert K. induction Hnd as [|y xs Hy Hnd IH]; intros K Hx; [by apply elem_of_nil in Hx|].
  simpl. apply elem_of_cons in Hx as [->|Hx].
  - rewrite release_list_other by done. unfold release. destruct (K !! y) eqn:E; [|by rewrite E].
    destruct (_ <? _); by simplify_map_eq.
  - rewrite IH by done. rewrite release_other; [done|]. by intros ->.
Qed.

Section Delete.
Context {R : Rec} {HR : RecLaws R}.

Lemma release_spec K S x {B} (f : Z -> M B) Q :
  droppable K x ->
  (forall r, wp (f r) Q (mkHeap (release K x) S)) ->
  wp (keyDecRef (Some x);; r <- rec_keyDel (Some x);; f r) Q (mkHeap K S).
Proof.
  intros (k & Hk & Hm) HQ. unfold release in HQ. rewrite Hk in HQ.
  apply wp_bind. unfold keyDecRef. wstep.
  destruct (Nat.ltb_spec 0 (k_ksReference k)) as [Hr|Hr].
  - wsteps. destruct (Nat.ltb_spec 1 (k_ksReference k)).
    + apply wp_bind. eapply rec_keyDel_referenced; [apply lookup_insert_eq|simpl; lia|]. apply HQ.
    + destruct Hm as [Hm|]; [|lia]. apply wp_bind. eapply rec_keyDel_plain; [apply lookup_insert_eq|done|simpl; lia|].
      rewrite delete_insert_eq. apply HQ.
  - destruct Hm as [Hm|]; [|lia]. assert ((1 <? k_ksReference k) = false) as E by (apply Nat.ltb_ge; lia). rewrite E in HQ.
    wsteps. apply wp_bind. eapply rec_keyDel_plain; [done|done|lia|]. apply HQ.
Qed.

Lemma ksClose_loop_spec S l ls : forall rest fuel K s i Q,
  S !! l = Some s -> ks_rep s ls -> before s i -> drop i ls = rest -> i <= length ls ->
  length rest < fuel -> NoDup rest -> (forall x, x ∈ rest -> droppable K x) ->
  (forall c j, Q tt (mkHeap (foldl release K rest) (<[l := ks_with_cursor s c j]> S))) ->
  wp (ksClose_loop fuel l) Q (mkHeap K S).
Proof.
  intros rest fuel. revert S rest. induction fuel as [|fuel IH]; intros S rest K s i Q Hs Hrep Hb Hd Hi Hf Hnd Hpl HQ; [lia|].
  cbn [ksClose_loop]. apply wp_bind.
  pose proof (before_next _ _ Hb) as [Hnx Hcu].
  eapply ksNext_spec; [done|done| | |].
  - unfold cursor_ok. rewrite (rep_size _ _ Hrep). lia.
  - intros Hlt. rewrite Hnx. unfold after_next. rewrite Hnx.
    assert ((length ls <=? ks_current s) = false) as -> by (apply Nat.leb_gt; lia).
    destruct (ls !! i) as [x|] eqn:Ex.
    + assert (rest = x :: drop (Datatypes.S i) ls) as -> by (rewrite <- Hd; by apply drop_S).
      apply NoDup_cons in Hnd as [Hx Hnd].
      eapply release_spec; [apply Hpl; by left|]. intros _.
      eapply (IH _ (drop (Datatypes.S i) ls)); [apply lookup_insert_eq|by apply ks_rep_cursor|done|done| | |done| |].
      * apply lookup_lt_Some in Ex. simpl. lia.
      * simpl in Hf. lia.
      * intros y Hy. apply droppable_release; [by intros ->|]. apply Hpl. by right.
      * intros c j. rewrite insert_insert_eq. apply HQ.
    + apply wp_ret. apply lookup_ge_None in Ex. rewrite drop_ge in Hd by done. subst rest. apply HQ.
  - intros Hge. apply wp_ret. assert (rest = []) as ->.
    { rewrite <- Hd. apply drop_ge. lia. }
    rewrite <- (insert_id S l s Hs). destruct s as [a sz al c j f]. apply (HQ c j).
Qed.

Lemma ksClose_spec K S l s ls Q :
  S !! l = Some s -> ks_rep s ls -> NoDup ls -> (forall x, x ∈ ls -> droppable K x) ->
  (forall s', ks_flags s' = ks_flags s -> Q 0%Z (mkHeap (foldl release K ls) (<[l := ks_with_size (ks_with_alloc (ks_with_array s' None) 0) 0]> S))) ->
  wp (ksClose l) Q (mkHeap K S).
Proof.
  intros Hs Hrep Hnd Hpl HQ. unfold ksClose. apply wp_bind.
  eapply ksRewind_spec; [done|]. wstep. apply wp_bind.
  eapply (ksClose_loop_spec _ _ ls ls); [apply lookup_insert_eq|by apply ks_rep_cursor|done|done|lia| |done|done|].
  - simpl. rewrite (rep_size _ _ Hrep). lia.
  - intros c j. rewrite insert_insert_eq. wsteps. rewrite ?insert_insert_eq. by apply (HQ (ks_with_cursor s c j)).
Qed.

Lemma ksDel_spec K S l s ls Q :
  S !! l = Some s -> ks_rep s ls -> NoDup ls -> (forall x, x ∈ ls -> droppable K x) ->
  Q 0%Z (mkHeap (foldl release K ls) (delete l S)) ->
  wp (ksDel (Some l)) Q (mkHeap K S).
Proof.
  intros Hs Hrep Hnd Hpl HQ. unfold ksDel. apply wp_bind. eapply ksClose_spec; [done..|]. intros s' _.
  wsteps. by rewrite !delete_insert_eq in *.
Qed.

Lemma ksClear_spec K S l s ls Q :
  S !! l = Some s -> ks_rep s ls -> NoDup ls -> (forall x, x ∈ ls -> droppable K x) ->
  (forall s', ks_rep s' [] -> Q 0%Z (mkHeap (foldl release K ls) (<[l := s']> S))) ->
  wp (ksClear l) Q (mkHeap K S).
Proof.
  intros Hs Hrep Hnd Hpl HQ. unfold ksClear. apply wp_bind. eapply ksClose_spec; [done..|]. intros s' _. wsteps. rewrite insert_insert_eq. apply HQ.
  split; [split|]; simpl; [|unfold KEYSET_SIZE; lia|done|done]. exists (replicate KEYSET_SIZE None). split_and!; [done|by rewrite length_replicate|done].
Qed.

(** Deleting a key that no keyset holds frees it and releases its metadata. *)
Lemma keyDel_spec K S l k Q :
  K !! l = Some k -> k_ksReference k = 0 ->
  match k_meta k with
  | None => Q 0%Z (mkHeap (delete l K) S)
  | Some m => exists s ms, S !! m = Some s /\ ks_rep s ms /\ NoDup ms /\ (l ∉ ms) /\
                (forall x, x ∈ ms -> plain_key K x) /\
                Q 0%Z (mkHeap (delete l (foldl release K ms)) (delete m S))
  end ->
  wp (keyDel (Some l)) Q (mkHeap K S).
Proof.
  intros Hk Hr HQ. unfold keyDel. wstep. rewrite Hr. simpl. unfold keyClear, keyInit.
  wsteps. destruct (k_meta k) as [m|].
  - destruct HQ as (s & ms & Hs & Hrep & Hnd & Hl & Hpl & HQ). apply wp_bind.
    eapply ksDel_spec; [done..|by intros x Hx; apply plain_droppable, Hpl|].
    assert (foldl release K ms !! l = Some k) as Hk' by (by rewrite release_list_other).
    wsteps. by rewrite !delete_insert_eq in *.
  - wsteps. by rewrite !delete_insert_eq in *.
Qed.
End Delete.

(** ** The contracts *)


(** [keyDel] refuses to free a key that a keyset holds and returns the number
    of references; otherwise it frees the key, its metadata keyset and the
    metadata keys that no other key shares. *)
Theorem keyDel_frees {CB : Callbacks} n K S l k :
  K !! l = Some k ->
  match k_meta k with
  | None => True
  | Some m => exists s ms, S !! m = Some s /\ ks_rep s ms /\ NoDup ms /\ (l ∉ ms) /\
                (forall x, x ∈ ms -> plain_key K x)
  end ->
  wp (@keyDel (knot (Datatypes.S n)) (Some l))
     (fun r h =>
        if 0 <? k_ksReference k then r = Z.of_nat (k_ksReference k) /\ h = mkHeap K S
        else r = 0%Z /\
             match k_meta k with
             | None => h = mkHeap (delete l K) S
             | Some m => forall s ms, S !! m = Some s -> ks_rep s ms ->
                           h = mkHeap (delete l (foldl release K ms)) (delete m S)
             end) (mkHeap K S).
Proof.
  intros Hk Hm. destruct (Nat.ltb_spec 0 (k_ksReference k)).
  - by eapply keyDel_referenced_spec.
  - eapply keyDel_spec; [done|lia|]. destruct (k_meta k) as [m|]; [|done].
    destruct Hm as (s & ms & Hs & Hrep & Hnd & Hl & Hpl). exists s, ms. split_and!; [done..|].
    intros s' ms' Hs' Hrep'. simplify_eq. by rewrite (ks_rep_inj _ _ _ Hrep' Hrep).
Qed.
