(* ===== verification/AppendFacts.v ===== *)
(** * AppendFacts: keysets stay sorted

    [keyset_ok] is the invariant of a keyset: its array holds its keys, and
    they are strictly sorted by name and owner.  [ksSearchInternal] finds the
    position of a key in it and [ksAppendKey] keeps it, on every branch: the
    key is new, is already there, or replaces another one. *)
From S2P Require Export DeleteFacts.

(** ** Flags *)

Lemma test_bit_testbit f i : (0 <= i)%Z -> test_bit f (2 ^ i) = Z.testbit f i.
Proof.
  intros Hi. unfold test_bit. apply eq_true_iff_eq. rewrite negb_true_iff, Z.eqb_neq. split.
  - intros H. destruct (Z.testbit f i) eqn:E; [done|]. exfalso. apply H.
    apply Z.bits_inj'. intros j Hj. rewrite Z.land_spec, Z.bits_0, Z.pow2_bits_eqb by done.
    destruct (Z.eqb_spec i j); [subst; by rewrite E|by rewrite andb_false_r].
  - intros H E. assert (Z.testbit (Z.land f (2 ^ i)) i = true) as H'.
    { by rewrite Z.land_spec, H, Z.pow2_bits_true. }
    by rewrite E, Z.bits_0 in H'.
Qed.

Lemma set_bit_idem f i : (0 <= i)%Z -> test_bit f (2 ^ i) = true -> set_bit f (2 ^ i) = f.
Proof.
  intros Hi H. rewrite test_bit_testbit in H by done. unfold set_bit.
  apply Z.bits_inj'. intros j Hj. rewrite Z.lor_spec, Z.pow2_bits_eqb by done.
  destruct (Z.eqb_spec i j); [subst; by rewrite H|by rewrite orb_false_r].
Qed.

(** A key whose name is locked, and one with another reference (the counter stays at [SSIZE_MAX]). *)
Definition locked (k : Key) : Key := set_flags k (set_bit (k_flags k) KEY_FLAG_RO_NAME).
Definition one_more (refs : nat) : nat := if (Z.of_nat refs <? SSIZE_MAX)%Z then S refs else refs.
Definition referenced (k : Key) : Key := set_ref k (one_more (k_ksReference k)).

Lemma one_more_lt refs : (Z.of_nat refs < SSIZE_MAX)%Z -> one_more refs = S refs.
Proof. intros H. unfold one_more. by destruct (Z.ltb_spec (Z.of_nat refs) SSIZE_MAX); [|lia]. Qed.

Lemma one_more_several refs : 1 <= refs -> 1 < one_more refs.
Proof. unfold one_more, SSIZE_MAX. destruct (Z.ltb_spec (Z.of_nat refs) (2 ^ 63 - 1)); lia. Qed.

Lemma one_more_ge refs : refs <= one_more refs.
Proof. unfold one_more. destruct (Z.of_nat refs <? SSIZE_MAX)%Z; lia. Qed.
#[global] Arguments one_more : simpl never.

Section Lock.
Context {R : Rec}.

Lemma elektraKeyLock_name_spec K S l k Q :
  K !! l = Some k ->
  (forall r, Q r (mkHeap (<[l := locked k]> K) S)) ->
  wp (elektraKeyLock (Some l) KEY_LOCK_NAME) Q (mkHeap K S).
Proof.
  intros Hk HQ. unfold elektraKeyLock. wstep. unfold lock_one. simpl.
  destruct (test_bit (k_flags k) KEY_FLAG_RO_NAME) eqn:E; simpl; wsteps.
  - replace (set_flags k (k_flags k)) with (locked k); [apply HQ|].
    unfold locked. by rewrite (set_bit_idem _ 1) by done.
  - apply HQ.
Qed.

Lemma keyIncRef_spec K S l k Q :
  K !! l = Some k -> (forall r, Q r (mkHeap (<[l := referenced k]> K) S)) ->
  wp (keyIncRef (Some l)) Q (mkHeap K S).
Proof.
  intros Hk HQ. unfold keyIncRef. wsteps. unfold referenced, one_more in HQ. destruct (Z.of_nat (k_ksReference k) <? SSIZE_MAX)%Z.
  - wsteps. apply HQ.
  - wstep. replace (set_ref k (k_ksReference k)) with k in HQ by by destruct k. rewrite insert_id in HQ by done. apply HQ.
Qed.
End Lock.

(** ** Identities do not depend on flags and reference counts *)

Definition same_ids (K K' : gmap loc Key) : Prop :=
  forall x k, K !! x = Some k -> exists k', K' !! x = Some k' /\
    k_uname k' = k_uname k /\ k_meta k' = k_meta k /\ k_data k' = k_data k.

Lemma same_ids_insert K l k k' :
  K !! l = Some k -> k_uname k' = k_uname k -> k_meta k' = k_meta k -> k_data k' = k_data k ->
  same_ids K (<[l := k']> K).
Proof.
  intros Hl ??? x kx Hx. destruct (decide (l = x)) as [<-|]; simplify_map_eq; eauto.
Qed.

#[global] Instance same_ids_preorder : PreOrder same_ids.
Proof.
  split; [intros K x k Hx; eauto|].
  intros K1 K2 K3 H12 H23 x k Hx. destruct (H12 _ _ Hx) as (k2 & H2 & ? & ? & ?).
  destruct (H23 _ _ H2) as (k3 & ? & ? & ? & ?). exists k3. split_and!; congruence.
Qed.

Lemma set_ok_same_ids K K' S l ls : same_ids K K' -> set_ok K S l ls -> set_ok K' S l ls.
Proof.
  intros HK Hset. assert (keys_live K ls) as Hl by (by destruct Hset as (? & ? & ? & ? & ? & ?)).
  eapply set_ok_keys; [|done]. intros x Hx. unfold keys_live in Hl. rewrite Forall_forall in Hl.
  destruct (Hl x Hx) as [k Hk]. destruct (HK _ _ Hk) as (k' & Hk' & Hu & _).
  unfold uname_of. rewrite Hk, Hk'. eauto.
Qed.

(** [x] is not a metadata key. *)
Definition not_metadata (K : gmap loc Key) (S : gmap loc KeySet) (x : loc) : Prop :=
  forall y k m ms, K !! y = Some k -> k_meta k = Some m -> set_ok K S m ms -> x ∉ ms.

(** The keys that are gone are no metadata, all others keep their identity. *)
Lemma has_kid_kept (gone : loc -> Prop) K K' S x id :
  (forall y k, K !! y = Some k -> gone y \/ exists k', K' !! y = Some k' /\
     k_uname k' = k_uname k /\ k_meta k' = k_meta k /\ k_data k' = k_data k) ->
  (forall y, gone y -> not_metadata K S y) -> ~ gone x -> has_kid K S x id -> has_kid K' S x id.
Proof.
  intros HK Hgone Hx (k & Hk & Hu & Ho). destruct (HK _ _ Hk) as [|(k' & Hk' & Hu' & Hm' & _)]; [done|].
  exists k'. split_and!; [done|congruence|]. unfold has_meta in *. rewrite Hm'.
  destruct (k_meta k) as [m|] eqn:Em; [|done]. destruct Ho as (ms & Hset & Ho).
  assert (forall y ky, y ∈ ms -> K !! y = Some ky -> exists k', K' !! y = Some k' /\
    k_uname k' = k_uname ky /\ k_meta k' = k_meta ky /\ k_data k' = k_data ky) as Hms.
  { intros y ky Hy Hky. destruct (HK y ky Hky) as [Hg|]; [|done]. by destruct (Hgone y Hg x k m ms). }
  assert (keys_live K ms) as Hl by (by destruct Hset as (? & ? & ? & ? & ? & ?)).
  unfold keys_live in Hl. rewrite Forall_forall in Hl.
  assert (forall y, y ∈ ms -> is_Some (K' !! y) /\ uname_of K' y = uname_of K y) as Hsame.
  { intros y Hy. destruct (Hl y Hy) as [ky Hky]. destruct (Hms y ky Hy Hky) as (ky' & Hky' & ? & _).
    unfold uname_of. rewrite Hky, Hky'. eauto. }
  exists ms. split; [by eapply set_ok_keys|]. rewrite (find_uname_keys K) by (intros; by apply Hsame).
  destruct (find_uname K ms owner_uname) as [y|] eqn:Ef, (id.2) as [o|]; try done.
  destruct Ho as (ky & Hy & Hm & Hd). apply List.find_some in Ef as [Ef%list_elem_of_In _].
  destruct (Hms y ky Ef Hy) as (ky' & ? & ? & ? & Hd'). exists ky'. rewrite Hd'. split_and!; congruence || done.
Qed.

Lemma has_kid_same_ids K K' S x id : same_ids K K' -> has_kid K S x id -> has_kid K' S x id.
Proof. intros HK. apply (has_kid_kept (fun _ => False)); [|by intros ? []|by intros []]. intros y k Hy. right. by apply HK. Qed.

(** ** The invariant of a keyset *)

(** [m] is the metadata keyset of one of [xs]. *)
Definition metas_of (K : gmap loc Key) (xs : list loc) (m : loc) : Prop :=
  exists x k, x ∈ xs /\ K !! x = Some k /\ k_meta k = Some m.

Definition kid_sorted (idf : loc -> kid) (ls : list loc) : Prop :=
  StronglySorted (fun x y => kid_lt (idf x) (idf y)) ls.

(** The keyset at [l] holds the keys [ls], identified by [idf] and strictly
    sorted; it is not the metadata of one of them. *)
Record keyset_ok (K : gmap loc Key) (S : gmap loc KeySet) (idf : loc -> kid) (l : loc)
    (ls : list loc) : Prop := {
  kso_rep : exists s, S !! l = Some s /\ ks_rep s ls;
  kso_ids : forall x, x ∈ ls -> has_kid K S x (idf x);
  kso_sorted : kid_sorted idf ls;
  kso_apart : ~ metas_of K ls l
}.

Lemma has_kid_sets K S S' x id :
  (forall k m, K !! x = Some k -> k_meta k = Some m -> S' !! m = S !! m) ->
  has_kid K S x id -> has_kid K S' x id.
Proof.
  intros H (k & Hk & Hu & Ho). exists k. split_and!; [done..|]. unfold has_meta in *.
  destruct (k_meta k) as [m|] eqn:Em; [|done]. destruct Ho as (ms & (s & Hs & ?) & Ho).
  exists ms. split; [|done]. exists s. split; [|done]. by rewrite (H k m).
Qed.

Lemma metas_of_in (K : gmap loc Key) xs x : x ∈ xs -> meta_in (metas_of K xs) K x.
Proof. intros Hx k m Hk Hm. by exists x, k. Qed.

Lemma metas_of_same_ids K K' xs m :
  same_ids K K' -> (forall x, x ∈ xs -> is_Some (K !! x)) -> metas_of K' xs m -> metas_of K xs m.
Proof.
  intros HK Hl (x & k' & Hx & Hk' & Hm). destruct (Hl x Hx) as [k Hk].
  destruct (HK _ _ Hk) as (k'' & ? & _ & ? & _). simplify_eq. exists x, k.
  split_and!; [done..|congruence].
Qed.

Section Ordered.
Context (idf : loc -> kid).

Lemma kid_sorted_ordered ls id :
  kid_ok id -> (forall x, x ∈ ls -> kid_ok (idf x)) -> kid_sorted idf ls ->
  ordered_for ls (fun x => kid_order id (idf x)).
Proof.
  intros Hid Hok Hsort i j x y Hij Hi Hj Hz.
  pose proof (sorted_lookup _ _ _ _ _ _ Hsort Hij Hi Hj) as Hlt. simpl in Hlt.
  assert (kid_ok (idf x)) as Hx by (eapply Hok, list_elem_of_lookup_2; done).
  assert (kid_ok (idf y)) as Hy by (eapply Hok, list_elem_of_lookup_2; done).
  pose proof (kid_order_sgn id (idf x) Hid Hx). pose proof (kid_order_sgn id (idf y) Hid Hy).
  destruct (decide (kid_order id (idf y) = 0)%Z) as [E|E].
  - apply kid_order_zero in E; [|done..]. subst. unfold kid_lt in Hlt. lia.
  - assert (kid_lt (idf y) id) by (unfold kid_lt; lia).
    pose proof (kid_lt_trans _ _ _ Hx Hy Hid Hlt ltac:(done)) as H'. unfold kid_lt in H'. lia.
Qed.

Lemma kid_sorted_insert ls x i :
  kid_ok (idf x) -> (forall y, y ∈ ls -> kid_ok (idf y)) -> kid_sorted idf ls -> i <= length ls ->
  bracket ls (fun y => kid_order (idf x) (idf y)) i i ->
  kid_sorted idf (take i ls ++ x :: drop i ls).
Proof.
  intros Hx Hok Hsort Hi Hb. apply StronglySorted_app; split_and!.
  - intros y z Hy Hz. apply list_elem_of_lookup_1 in Hy as [j Hj].
    apply lookup_take_Some in Hj as [Hj Hlt].
    assert (kid_lt (idf y) (idf x)) as Hyx.
    { assert (kid_ok (idf y)) by (eapply Hok, list_elem_of_lookup_2; done).
      pose proof (proj1 (Hb j y Hj) Hlt) as Hz'. pose proof (kid_order_sgn (idf x) (idf y)) as Hs.
      specialize (Hs Hx ltac:(done)). unfold kid_lt. simpl in Hz'. lia. }
    apply elem_of_cons in Hz as [->|Hz]; [done|].
    apply list_elem_of_lookup_1 in Hz as [k Hk]. rewrite lookup_drop in Hk.
    eapply (sorted_lookup _ _ _ _ _ _ Hsort); [|exact Hj|exact Hk]. lia.
  - eapply StronglySorted_app_1_l. by rewrite take_drop.
  - constructor; [eapply StronglySorted_app_1_r; by rewrite take_drop|]. apply Forall_forall. intros z Hz.
    apply list_elem_of_lookup_1 in Hz as [k Hk]. rewrite lookup_drop in Hk.
    pose proof (proj2 (Hb _ _ Hk) ltac:(lia)). done.
Qed.
End Ordered.

(** ** ksSearchInternal *)

Section Append.
Context {R : Rec} {HR : RecLaws R}.
Context (idf : loc -> kid).

(** The heap during the search: only cursors of metadata move. *)
Definition searching (K : gmap loc Key) (S : gmap loc KeySet) (P : loc -> Prop) (h : heap) : Prop :=
  h_keys h = K /\ sets_sim P S (h_sets h).

Lemma keyCompareByNameOwner_compares K S P lk ls :
  has_kid K S lk (idf lk) -> (forall x, x ∈ ls -> has_kid K S x (idf x)) ->
  meta_in P K lk -> (forall x, x ∈ ls -> meta_in P K x) ->
  compares ls (fun x => kid_order (idf lk) (idf x)) (searching K S P) lk keyCompareByNameOwner.
Proof.
  intros Hlk Hls HP HPs x [K1 S1] Hx [E Hsim]. simpl in *. subst.
  eapply (keyCompareByNameOwner_spec P);
    [by eapply has_kid_sim|eapply has_kid_sim; [done|by apply Hls]|done|by apply HPs|].
  intros S2 Hsim2. split; [done|]. split; [done|]. simpl. by etrans.
Qed.

Lemma ksSearchInternal_spec K S P l s lk ls Q :
  S !! l = Some s -> ks_rep s ls ->
  has_kid K S lk (idf lk) -> (forall x, x ∈ ls -> has_kid K S x (idf x)) -> kid_sorted idf ls ->
  meta_in P K lk -> (forall x, x ∈ ls -> meta_in P K x) ->
  (forall S' i x, sets_sim P S S' -> ls !! i = Some x -> idf x = idf lk ->
     Q (Z.of_nat i) (mkHeap K S')) ->
  (forall S' i, sets_sim P S S' -> i <= length ls ->
     bracket ls (fun x => kid_order (idf lk) (idf x)) i i ->
     Q (- Z.of_nat i - 1)%Z (mkHeap K S')) ->
  wp (ksSearchInternal l lk) Q (mkHeap K S).
Proof.
  intros Hs Hrep Hlk Hls Hsort HP HPs HQ1 HQ2. unfold ksSearchInternal. wstep. apply wp_bind.
  rewrite (rep_size _ _ Hrep).
  eapply wp_mono.
  - eapply (search_loop_spec s ls Hrep (fun x => kid_order (idf lk) (idf x)) (searching K S P)).
    + apply kid_sorted_ordered; [by eapply has_kid_ok| |done].
      intros x Hx. eapply has_kid_ok. by apply Hls.
    + by apply keyCompareByNameOwner_compares.
    + lia.
    + lia.
    + lia.
    + intros i x Hi. split; [lia|]. apply lookup_lt_Some in Hi. lia.
    + by left.
    + done.
    + split; [done|]. reflexivity.
  - intros [[c middle] ip] [K1 S1] [[E Hsim] H]. simpl in E, Hsim. subst K1. apply wp_ret.
    case_decide as Hc.
    + destruct H as (i & x & -> & Hx & Hz). subst c. simpl.
      eapply HQ1; [done..|]. symmetry. apply kid_order_zero in Hz; [done|by eapply has_kid_ok|].
      eapply has_kid_ok, Hls, list_elem_of_lookup_2. done.
    + destruct H as (i & -> & Hi & Hb). destruct (Z.eqb_spec c 0); [done|]. by apply HQ2.
Qed.

(** ** ksAppendKey *)


(** C31.  [ksSearchInternal] returns the index of the key with the name and owner of
    the searched one, or [- i - 1] for the only position [i] at which inserting
    it keeps the order; it changes nothing but cursors of metadata. *)
Theorem ksSearchInternal_position K S l lk ls :
  keyset_ok K S idf l ls -> has_kid K S lk (idf lk) ->
  wp (ksSearchInternal l lk)
     (fun r h => h_keys h = K /\ sets_sim (metas_of K (lk :: ls)) S (h_sets h) /\
        if (0 <=? r)%Z then exists x, ls !! Z.to_nat r = Some x /\ idf x = idf lk
        else (- r - 1 <= Z.of_nat (length ls))%Z /\
             forall i x, ls !! i = Some x ->
               if decide (Z.of_nat i < - r - 1)%Z then kid_lt (idf x) (idf lk) else kid_lt (idf lk) (idf x))
     (mkHeap K S).
Proof.
  intros Hok Hid. destruct (kso_rep _ _ _ _ _ Hok) as (s & Hs & Hrep).
  eapply (ksSearchInternal_spec K S (metas_of K (lk :: ls))); [done|done|done|apply Hok|apply Hok| | | |].
  - apply metas_of_in. by left.
  - intros x Hx. apply metas_of_in. by right.
  - intros S' i x HS Hx E. split_and!; [done..|]. destruct (Z.leb_spec 0 (Z.of_nat i)); [|lia].
    rewrite Nat2Z.id. eauto.
  - intros S' i HS Hi Hb. split_and!; [done..|]. destruct (Z.leb_spec 0 (- Z.of_nat i - 1)); [lia|].
    split; [lia|]. intros j x Hx. destruct (Hb j x Hx) as [H1 H2].
    pose proof (kid_order_sgn (idf lk) (idf x)) as Hsgn.
    assert (kid_ok (idf x)) by (eapply has_kid_ok, (kso_ids _ _ _ _ _ Hok), list_elem_of_lookup_2; done).
    specialize (Hsgn ltac:(by eapply has_kid_ok) ltac:(done)).
    unfold kid_lt. case_decide; [specialize (H1 ltac:(lia))|specialize (H2 ltac:(lia))]; simpl in *; lia.
Qed.

(** ** ksAppendKey *)

Lemma make_room_spec K S l s ls {B} (f : Z -> M B) Q :
  S !! l = Some (ks_with_size s (Datatypes.S (ks_size s))) -> ks_rep s ls ->
  (forall r s', ks_block s' ls -> ks_size s' = Datatypes.S (length ls) ->
     Datatypes.S (length ls) < ks_alloc s' ->
     wp (f r) Q (mkHeap K (<[l := s']> S))) ->
  wp (bindM (if ks_alloc s <=? Datatypes.S (ks_size s) then
               ksResize (Some l) (Z.of_nat (ks_alloc s * 2) - 1) else ret 0%Z) f) Q (mkHeap K S).
Proof.
  intros Hs [Hb Hsz] HQ. pose proof (blk_room _ _ Hb). pose proof (blk_min _ _ Hb) as Hmin.
  unfold KEYSET_SIZE in Hmin. destruct (Nat.leb_spec (ks_alloc s) (Datatypes.S (ks_size s))).
  - apply wp_bind. eapply (ksResize_spec K S l _ ls); [done|by destruct Hb|lia|simpl; lia|].
    intros r s' Hb' Hsz' Ha _ _ _. apply HQ; [done|simpl in *; lia|lia].
  - apply wp_ret_bind. rewrite <- (insert_id _ _ _ Hs).
    apply HQ; [by destruct Hb|simpl; lia|simpl; lia].
Qed.

Lemma sets_sim_delete P S S' l : sets_sim P S S' -> sets_sim P (delete l S) (delete l S').
Proof.
  intros H m. destruct (H m) as (H1 & H2 & H3). destruct (decide (l = m)) as [<-|Hne].
  - rewrite !lookup_delete_eq. split_and!; done.
  - rewrite !lookup_delete_ne by done. done.
Qed.

Lemma delete_insert_any {V} (m : gmap loc V) l v : delete l (<[l := v]> m) = delete l m.
Proof. apply delete_insert_eq. Qed.

(** The metadata of a key in a keyset is not the keyset. *)
Lemma has_kid_insert_ks K S l s' x id xs :
  ~ metas_of K xs l -> x ∈ xs -> has_kid K S x id -> has_kid K (<[l := s']> S) x id.
Proof.
  intros Hap Hx. apply has_kid_sets. intros k m Hk Hm. apply lookup_insert_ne.
  intros ->. apply Hap. by exists x, k.
Qed.

Section New.
Context (K : gmap loc Key) (S : gmap loc KeySet) (l lk : loc) (ls : list loc) (k : Key).
Context (Hok : keyset_ok K S idf l ls) (Hk : K !! lk = Some k) (Hname : k_key k <> None).
Context (Hid : has_kid K S lk (idf lk)) (Hap : ~ metas_of K (lk :: ls) l).

Let K1 := <[lk := locked k]> K.
Let P := metas_of K (lk :: ls).

Lemma locked_same_ids : same_ids K K1.
Proof. by apply same_ids_insert with k. Qed.

Lemma keys_exist x : x ∈ lk :: ls -> is_Some (K !! x).
Proof.
  intros [->|Hx]%elem_of_cons; [by eexists|]. destruct (kso_ids _ _ _ _ _ Hok x Hx) as (kx & ? & _).
  by eexists.
Qed.

Lemma locked_meta_in x : x ∈ lk :: ls -> meta_in P K1 x.
Proof.
  intros Hx kx m Hkx Hm. eapply (metas_of_same_ids K K1); [apply locked_same_ids|apply keys_exist|].
  exists x, kx. done.
Qed.

Lemma locked_ids S' x : sets_sim P S S' -> x ∈ lk :: ls -> has_kid K1 S' x (idf x).
Proof.
  intros Hsim Hx. eapply has_kid_same_ids; [apply locked_same_ids|].
  eapply has_kid_sim; [done|].
  apply elem_of_cons in Hx as [->|Hx]; [done|by apply (kso_ids _ _ _ _ _ Hok)].
Qed.

(** A search in the keyset once the name of the key is locked. *)
Lemma search_locked_spec Q :
  (forall S' i x, sets_sim P S S' -> ls !! i = Some x -> idf x = idf lk ->
     Q (Z.of_nat i) (mkHeap K1 S')) ->
  (forall S' i, sets_sim P S S' -> i <= length ls ->
     bracket ls (fun x => kid_order (idf lk) (idf x)) i i ->
     Q (- Z.of_nat i - 1)%Z (mkHeap K1 S')) ->
  wp (ksSearchInternal l lk) Q (mkHeap K1 S).
Proof.
  intros HQ1 HQ2. destruct (kso_rep _ _ _ _ _ Hok) as (s & Hs & Hrep).
  eapply (ksSearchInternal_spec K1 S P); [done|done| | |apply Hok| | |done|done].
  - apply locked_ids; [done|by left].
  - intros x Hx. apply locked_ids; [done|by right].
  - apply locked_meta_in. by left.
  - intros x Hx. apply locked_meta_in. by right.
Qed.
End New.

(** What [ksAppendKey] leaves of a keyset: the keys [ls'] with the cursor on
    the key at [i], and nothing else changed but metadata cursors. *)
Definition appended (K K' : gmap loc Key) (S : gmap loc KeySet) (l lk : loc) (ls ls' : list loc)
    (i : nat) (h : heap) : Prop :=
  h_keys h = K' /\ keyset_ok K' (h_sets h) idf l ls' /\ ls' !! i = Some lk /\
  (exists s, h_sets h !! l = Some s /\ ks_cursor s = Some lk /\ ks_current s = i) /\
  sets_sim (metas_of K (lk :: ls)) (delete l S) (delete l (h_sets h)).

(** The array of [s'] is in place: setting the cursor ends the insertion. *)
Lemma appended_finish K K2 S S' l lk ls ls' i s' {B} (f : KeySet -> M B) Q :
  sets_sim (metas_of K (lk :: ls)) (delete l S) (delete l S') ->
  is_Some (S' !! l) -> ks_rep s' ls' -> ls' !! i = Some lk -> kid_sorted idf ls' ->
  (forall x, x ∈ ls' -> has_kid K2 S' x (idf x)) -> ~ metas_of K2 ls' l ->
  (forall h s, appended K K2 S l lk ls ls' i h -> ks_size s = length ls' -> wp (f s) Q h) ->
  wp (put_ks l s';; ksSetCursor (Some l) (Z.of_nat i);; s <- get_ks l;; f s) Q (mkHeap K2 S').
Proof.
  intros Hsim [s0 Hs0] Hrep Hi Hsort Hids Hap HQ. wstep.
  apply wp_bind. eapply ksSetCursor_spec; [apply lookup_insert_eq|done|done|].
  rewrite insert_insert_eq. set (s2 := ks_with_cursor s' (Some lk) i). wstep.
  eapply HQ; [|by apply Hrep]. split; [done|].
  split_and!; [|done| |simpl; by rewrite delete_insert_any].
  - split; [|..]; [|by intros x Hx; eapply (has_kid_insert_ks _ _ _ _ _ _ ls'), Hids|done..].
    exists s2. split; [apply lookup_insert_eq|by apply ks_rep_cursor].
  - exists s2. simpl. split_and!; [apply lookup_insert_eq|done..].
Qed.

Lemma lookup_insert_list {A} (ls : list A) x i : i <= length ls -> (take i ls ++ x :: drop i ls) !! i = Some x.
Proof.
  intros Hi. rewrite lookup_app_r, length_take, Nat.min_l, Nat.sub_diag by (rewrite ?length_take; lia).
  done.
Qed.

Lemma elem_of_insert_list {A} (ls : list A) x i y :
  y ∈ take i ls ++ x :: drop i ls -> y ∈ x :: ls.
Proof.
  rewrite elem_of_app, !elem_of_cons. intros [H|[H|H]]; [right|by left|right].
  - rewrite <- (take_drop i ls). apply elem_of_app. by left.
  - rewrite <- (take_drop i ls). apply elem_of_app. by right.
Qed.

Lemma ksAppendKey_new_spec K S l lk ls k :
  keyset_ok K S idf l ls -> K !! lk = Some k -> k_key k <> None -> has_kid K S lk (idf lk) ->
  ~ metas_of K (lk :: ls) l -> (forall x, x ∈ ls -> idf x <> idf lk) ->
  wp (ksAppendKey (Some l) (Some lk))
     (fun r h => r = Z.of_nat (Datatypes.S (length ls)) /\
        exists i, i <= length ls /\
          appended K (<[lk := referenced (locked k)]> K) S l lk ls
            (take i ls ++ lk :: drop i ls) i h) (mkHeap K S).
Proof.
  intros Hok Hk Hname Hid Hap Hnew. unfold ksAppendKey. wstep.
  destruct (k_key k) as [nm|] eqn:Enm; [|done].
  apply wp_bind, elektraKeyLock_name_spec with k; [done|]. intros _. apply wp_bind.
  eapply search_locked_spec; [done..| |].
  { intros S1 i x _ Hx E. destruct (Hnew x); [|done]. by eapply list_elem_of_lookup_2. }
  intros S1 i Hsim Hi Hb. destruct (kso_rep _ _ _ _ _ Hok) as (s & Hs & Hrep).
  assert (S1 !! l = Some s) as Hs1 by (by rewrite (sets_sim_other _ _ _ _ Hsim)).
  wstep. destruct (Z.leb_spec 0 (- Z.of_nat i - 1)); [lia|]. cbn zeta.
  replace (Z.to_nat (- (- Z.of_nat i - 1) - 1)) with i by lia. wstep.
  eapply make_room_spec; [apply lookup_insert_eq|done|]. intros _ s2 Hb2 Hsz2 Hroom.
  rewrite insert_insert_eq. apply wp_bind.
  eapply keyIncRef_spec; [apply lookup_insert_eq|]. intros _. rewrite insert_insert_eq. wstep.
  set (K2 := <[lk := referenced (locked k)]> K). rewrite Hsz2.
  assert (same_ids K K2) as Hsame by (by eapply same_ids_insert).
  assert (kid_sorted idf (take i ls ++ lk :: drop i ls)) as Hsort'.
  { eapply kid_sorted_insert; [by eapply has_kid_ok| |by apply Hok|done|done].
    intros y Hy. eapply has_kid_ok. by apply (kso_ids _ _ _ _ _ Hok). }
  assert (forall x, x ∈ take i ls ++ lk :: drop i ls ->
            x ∈ lk :: ls /\ has_kid K2 (<[l := s2]> S1) x (idf x)) as Hids.
  { intros x Hx. pose proof (elem_of_insert_list _ _ _ _ Hx) as Hx'. split; [done|].
    eapply has_kid_same_ids; [done|]. eapply has_kid_insert_ks; [done|done|].
    eapply has_kid_sim; [done|].
    apply elem_of_cons in Hx' as [->|?]; [done|by apply (kso_ids _ _ _ _ _ Hok)]. }
  assert (sets_sim (metas_of K (lk :: ls)) (delete l S) (delete l (<[l := s2]> S1))) as Hsim'.
  { rewrite delete_insert_any. by apply sets_sim_delete. }
  assert (forall s', ks_rep s' (take i ls ++ lk :: drop i ls) ->
    wp (put_ks l s';; ksSetCursor (Some l) (Z.of_nat i);; s <- get_ks l;; ret (Z.of_nat (ks_size s)))
     (fun r h => r = Z.of_nat (Datatypes.S (length ls)) /\
        exists i, i <= length ls /\ appended K K2 S l lk ls (take i ls ++ lk :: drop i ls) i h)
     (mkHeap K2 (<[l := s2]> S1))) as Hfinish.
  { intros s' Hrep'. eapply appended_finish; [done|by rewrite lookup_insert_eq|done|
      by apply lookup_insert_list|done|by intros x Hx; apply Hids| |].
    { intros (y & ky & Hy & Hym). apply Hap. eapply (metas_of_same_ids K K2); [done|by eapply keys_exist|].
      exists y, ky. split; [by apply Hids|done]. }
    intros h s3 Happ Hsz. apply wp_ret. split; [|by eauto].
    rewrite Hsz, length_app, length_take. simpl. rewrite length_drop. lia. }
  rewrite Nat.sub_succ, Nat.sub_0_r. destruct (Nat.eqb_spec i (length ls)) as [->|Hne].
  - destruct (insert_end_spec s2 ls lk Hb2 Hsz2 Hroom) as (s3 & s4 & E3 & Hsz3 & E4 & Hrep4).
    wstep. rewrite E3. wstep. rewrite Hsz3, E4. do 3 wstep.
    rewrite (rep_size _ _ Hrep4), length_app, Nat.add_sub.
    apply Hfinish. by rewrite take_ge, drop_ge by done.
  - destruct (insert_middle_spec s2 ls lk Hb2 Hsz2 Hroom i ltac:(lia)) as (s3 & s4 & E3 & E4 & Hrep4).
    cbn zeta. wstep. rewrite Hsz2 in E3. rewrite E3. wstep. rewrite E4. do 3 wstep. by apply Hfinish.
Qed.

(** C7.  Appending a key with a new name and owner inserts it where the order puts
    it: the keyset stays sorted, the key gains a reference and a locked name,
    the internal cursor is on it, the new size is returned, the array grows
    when it is full, and no other key and no other keyset changes. *)
Theorem ksAppendKey_inserts K S l lk ls k :
  keyset_ok K S idf l ls -> K !! lk = Some k -> k_key k <> None -> has_kid K S lk (idf lk) ->
  ~ metas_of K (lk :: ls) l -> (forall x, x ∈ ls -> idf x <> idf lk) ->
  wp (ksAppendKey (Some l) (Some lk))
     (fun r h => r = Z.of_nat (Datatypes.S (length ls)) /\
        exists i, i <= length ls /\
          appended K (<[lk := referenced (locked k)]> K) S l lk ls
            (take i ls ++ lk :: drop i ls) i h) (mkHeap K S).
Proof. apply ksAppendKey_new_spec. Qed.

(** Behind all keys of the keyset. *)
Lemma ksAppendKey_last_spec K S l lk ls k :
  keyset_ok K S idf l ls -> K !! lk = Some k -> k_key k <> None -> has_kid K S lk (idf lk) ->
  ~ metas_of K (lk :: ls) l -> (forall x, x ∈ ls -> kid_lt (idf x) (idf lk)) ->
  wp (ksAppendKey (Some l) (Some lk))
     (fun _ h => appended K (<[lk := referenced (locked k)]> K) S l lk ls (ls ++ [lk]) (length ls) h) (mkHeap K S).
Proof.
  intros Hok Hk Hname Hid Hap Hlt.
  assert (forall x, x ∈ ls -> kid_ok (idf x)) as Hkok by (intros x Hx; eapply has_kid_ok; by apply Hok).
  assert (kid_ok (idf lk)) as Hlk by by eapply has_kid_ok.
  assert (forall x, kid_ok x -> ~ kid_lt x x) as Hirr.
  { intros x Hx H. unfold kid_lt in H. pose proof (kid_order_sgn x x Hx Hx). lia. }
  eapply wp_mono; [eapply ksAppendKey_new_spec; try done|].
  { intros x Hx Hid'. apply (Hirr (idf lk) Hlk). rewrite <- Hid' at 1. by apply Hlt. }
  intros r h (_ & i & Hi & Happ). destruct (decide (i = length ls)) as [->|Hne].
  { rewrite take_ge, drop_ge in Happ by done. done. }
  exfalso. destruct (lookup_lt_is_Some_2 ls i) as [y Hy]; [lia|].
  destruct Happ as (_ & Hok' & _). pose proof (kso_sorted _ _ _ _ _ Hok') as Hs.
  rewrite (drop_S _ _ _ Hy) in Hs. apply StronglySorted_app_1_r in Hs. inversion Hs as [|? ? _ Hf]; subst.
  rewrite Forall_cons in Hf. destruct Hf as [Hf _]. apply list_elem_of_lookup_2 in Hy.
  apply (Hirr (idf lk) Hlk). eapply kid_lt_trans; [done| |done|exact Hf|by apply Hlt]. by apply Hkok.
Qed.

Lemma kid_sorted_inj ls x y :
  (forall x, x ∈ ls -> kid_ok (idf x)) -> kid_sorted idf ls -> x ∈ ls -> y ∈ ls ->
  idf x = idf y -> x = y.
Proof.
  intros Hok Hsort Hx Hy E.
  assert (forall z, z ∈ ls -> ~ kid_lt (idf z) (idf z)) as Hirr.
  { intros z Hz H. unfold kid_lt in H. pose proof (kid_order_sgn (idf z) (idf z) (Hok z Hz) (Hok z Hz)). lia. }
  apply list_elem_of_lookup_1 in Hx as Hi, Hy as Hj. destruct Hi as [i Hi], Hj as [j Hj].
  destruct (Nat.lt_total i j) as [H|[->|H]]; [|by simplify_eq|].
  - pose proof (sorted_lookup _ _ _ _ _ _ Hsort H Hi Hj) as Hlt. simpl in Hlt. rewrite E in Hlt. by apply Hirr in Hlt.
  - pose proof (sorted_lookup _ _ _ _ _ _ Hsort H Hj Hi) as Hlt. simpl in Hlt. rewrite E in Hlt. by apply Hirr in Hlt.
Qed.

Lemma kid_sorted_NoDup ls :
  (forall x, x ∈ ls -> kid_ok (idf x)) -> kid_sorted idf ls -> NoDup ls.
Proof.
  intros Hok Hsort. induction Hsort as [|x ls Hsort IH Hx]; [constructor|].
  constructor; [|apply IH; intros y Hy; apply Hok; by right].
  rewrite Forall_forall in Hx. intros Hin. specialize (Hx x Hin). unfold kid_lt in Hx.
  pose proof (kid_order_sgn (idf x) (idf x) (Hok x ltac:(by left)) (Hok x ltac:(by left))). lia.
Qed.

(** Appending a key that is already in the keyset changes neither the keyset nor
    the references: only the name of the key is locked. *)
Theorem ksAppendKey_present K S l lk ls k :
  keyset_ok K S idf l ls -> K !! lk = Some k -> k_key k <> None -> lk ∈ ls ->
  wp (ksAppendKey (Some l) (Some lk))
     (fun r h => r = Z.of_nat (length ls) /\ h_keys h = <[lk := locked k]> K /\
        sets_sim (metas_of K (lk :: ls)) S (h_sets h)) (mkHeap K S).
Proof.
  intros Hok Hk Hname Hin. unfold ksAppendKey. wstep.
  destruct (k_key k) as [nm|] eqn:Enm; [|done].
  assert (has_kid K S lk (idf lk)) as Hid by by apply (kso_ids _ _ _ _ _ Hok).
  assert (~ metas_of K (lk :: ls) l) as Hap.
  { intros (x & kx & Hx & ? & ?). apply (kso_apart _ _ _ _ _ Hok). exists x, kx.
    apply elem_of_cons in Hx as [->|]; done. }
  assert (forall x, x ∈ ls -> kid_ok (idf x)) as Hkok.
  { intros x Hx. eapply has_kid_ok. by apply (kso_ids _ _ _ _ _ Hok). }
  apply wp_bind, elektraKeyLock_name_spec with k; [done|]. intros _. apply wp_bind.
  destruct (kso_rep _ _ _ _ _ Hok) as (s & Hs & Hrep).
  eapply search_locked_spec; [done..| |]; intros S1 i.
  - intros x Hsim Hi E. assert (S1 !! l = Some s) by (by rewrite (sets_sim_other _ _ _ _ Hsim)).
    assert (x = lk) as ->.
    { eapply kid_sorted_inj; [done|apply Hok| |done|done]. by eapply list_elem_of_lookup_2. }
    wstep. destruct (Z.leb_spec 0 (Z.of_nat i)); [|lia]. cbn zeta.
    rewrite Nat2Z.id, (rep_get _ _ _ _ Hrep Hi). wstep. rewrite decide_True by done.
    apply wp_ret. rewrite (rep_size _ _ Hrep). done.
  - intros _ _ Hb. exfalso. apply list_elem_of_lookup_1 in Hin as [j Hj].
    assert (kid_order (idf lk) (idf lk) = 0%Z) as E
      by (apply kid_order_zero; [by eapply has_kid_ok..|done]).
    pose proof (Hb j lk Hj) as [H1 H2]. destruct (decide (j < i)); [specialize (H1 ltac:(done))|specialize (H2 ltac:(lia))]; simpl in *; lia.
Qed.

(** ** Replacing a key *)

Lemma has_kid_other K K' S x y id :
  (forall z, z <> x -> K' !! z = K !! z) -> not_metadata K S x -> y <> x ->
  has_kid K S y id -> has_kid K' S y id.
Proof.
  intros HK Hx Hy. apply (has_kid_kept (fun z => z = x)); [|by intros z ->|done].
  intros z k Hz. destruct (decide (z = x)); [by left|right]. exists k. by rewrite HK.
Qed.

Lemma kid_sorted_replace ls i x y :
  ls !! i = Some x -> idf y = idf x -> kid_sorted idf ls -> kid_sorted idf (<[i := y]> ls).
Proof.
  intros Hi E Hs. unfold kid_sorted in *. revert i Hi.
  induction Hs as [|z ls Hs IH Hz]; intros i Hi; [done|]. rewrite Forall_forall in Hz.
  destruct i as [|i]; simpl in *; simplify_eq; constructor; auto.
  - apply Forall_forall. intros w Hw. rewrite E. by apply Hz.
  - apply Forall_forall. intros w Hw. apply list_elem_of_insert_inv in Hw || idtac.
    apply list_elem_of_lookup_1 in Hw as [j Hj].
    destruct (decide (i = j)) as [<-|Hne].
    + rewrite list_lookup_insert_eq in Hj by (by eapply lookup_lt_Some). simplify_eq.
      rewrite E. apply Hz. by eapply list_elem_of_lookup_2.
    + rewrite list_lookup_insert_ne in Hj by done. apply Hz. by eapply list_elem_of_lookup_2.
Qed.

Lemma array_replace_rep s ls i x :
  ks_rep s ls -> i < length ls -> exists s', array_set s i (Some x) = ret s' /\ ks_rep s' (<[i := x]> ls).
Proof.
  intros [[(rest & Ea & El & Ht) Hroom Hmin] Hsz] Hi. eexists. split.
  - apply array_set_ok; [done|]. rewrite length_app, length_cells. lia.
  - split; [split|]; simpl; rewrite ?length_insert; [|done..].
    exists rest. split_and!; [|done|].
    + f_equal. rewrite insert_app_l by (by rewrite length_cells). f_equal.
      symmetry. apply (list_fmap_insert (fun l => Some (Some l))).
    + intros Hne. apply Ht. by intros ->.
Qed.

Lemma drop_key_spec K S x {B} (f : Z -> M B) Q :
  droppable K x -> (forall r, wp (f r) Q (mkHeap (release K x) S)) ->
  wp (keyDecRef (Some x);; r <- keyDel (Some x);; f r) Q (mkHeap K S).
Proof.
  intros (k & Hk & Hm) HQ. unfold release in HQ. rewrite Hk in HQ.
  apply wp_bind. unfold keyDecRef. wstep.
  destruct (Nat.ltb_spec 0 (k_ksReference k)) as [Hr|Hr].
  - wsteps. destruct (Nat.ltb_spec 1 (k_ksReference k)).
    + apply wp_bind. eapply keyDel_referenced_spec; [apply lookup_insert_eq|simpl; lia|]. apply HQ.
    + destruct Hm as [Hm|]; [|lia]. apply wp_bind.
      eapply keyDel_plain_spec; [apply lookup_insert_eq|done|simpl; lia|].
      rewrite delete_insert_eq. apply HQ.
  - destruct Hm as [Hm|]; [|lia].
    assert ((1 <? k_ksReference k) = false) as E by (apply Nat.ltb_ge; lia). rewrite E in HQ.
    wsteps. apply wp_bind. eapply keyDel_plain_spec; [done|done|lia|]. apply HQ.
Qed.

Lemma release_insert K x y k : x <> y -> release (<[y := k]> K) x = <[y := k]> (release K x).
Proof.
  intros Hne. unfold release. rewrite lookup_insert_ne by done. destruct (K !! x); [|done].
  destruct (_ <? _); [by rewrite insert_insert_ne|by rewrite delete_insert_ne].
Qed.

Lemma ksAppendKey_replace_spec K S l lk ls k i x :
  keyset_ok K S idf l ls -> K !! lk = Some k -> k_key k <> None -> has_kid K S lk (idf lk) ->
  ~ metas_of K (lk :: ls) l -> ls !! i = Some x -> idf x = idf lk -> x <> lk ->
  droppable K x -> not_metadata K S x ->
  wp (ksAppendKey (Some l) (Some lk))
     (fun r h => r = Z.of_nat (length ls) /\
        appended K (<[lk := referenced (locked k)]> (release K x)) S l lk ls (<[i := lk]> ls) i h)
     (mkHeap K S).
Proof.
  intros Hok Hk Hname Hid Hap Hi E Hne Hdrop Hnm. unfold ksAppendKey. wstep.
  destruct (k_key k) as [nm|] eqn:Enm; [|done].
  assert (forall y, y ∈ ls -> kid_ok (idf y)) as Hkok.
  { intros y Hy. eapply has_kid_ok. by apply (kso_ids _ _ _ _ _ Hok). }
  assert (x ∈ ls) as Hx by by eapply list_elem_of_lookup_2.
  apply wp_bind, elektraKeyLock_name_spec with k; [done|]. intros _. apply wp_bind.
  destruct (kso_rep _ _ _ _ _ Hok) as (s & Hs & Hrep).
  eapply search_locked_spec; [done..| |]; intros S1 j.
  2:{ intros _ _ Hb. exfalso.
      assert (kid_order (idf lk) (idf x) = 0%Z) as E'
        by (apply kid_order_zero; [by eapply has_kid_ok|by apply Hkok|done]).
      pose proof (Hb i x Hi) as [H1 H2].
      destruct (decide (i < j)); [specialize (H1 ltac:(done))|specialize (H2 ltac:(lia))]; simpl in *; lia. }
  intros y Hsim Hj Ey. assert (S1 !! l = Some s) as Hs1 by (by rewrite (sets_sim_other _ _ _ _ Hsim)).
  assert (NoDup ls) as Hnd by (eapply kid_sorted_NoDup; [done|apply Hok]).
  assert (y = x) as ->.
  { eapply kid_sorted_inj; [done|apply Hok|by eapply list_elem_of_lookup_2|done|congruence]. }
  assert (j = i) as -> by (by eapply NoDup_lookup).
  wstep. destruct (Z.leb_spec 0 (Z.of_nat i)); [|lia]. cbn zeta.
  rewrite Nat2Z.id, (rep_get _ _ _ _ Hrep Hi). wstep. rewrite decide_False by congruence.
  apply drop_key_spec.
  { destruct Hdrop as (kx & Hkx & ?). exists kx. by rewrite lookup_insert_ne. }
  intros _. rewrite release_insert by done. apply wp_bind.
  eapply keyIncRef_spec; [apply lookup_insert_eq|]. intros _. rewrite insert_insert_eq. wstep.
  set (K2 := <[lk := referenced (locked k)]> (release K x)).
  destruct (array_replace_rep s ls i lk Hrep) as (s' & Es' & Hrep'); [by eapply lookup_lt_Some|].
  rewrite Es'. wstep.
  assert (forall z, z ∈ <[i := lk]> ls -> z <> x /\ z ∈ lk :: ls) as Hin.
  { intros z [j Hz]%list_elem_of_lookup_1. destruct (decide (i = j)) as [<-|Hij].
    - rewrite list_lookup_insert_eq in Hz by (by eapply lookup_lt_Some). simplify_eq.
      split; [done|by left].
    - rewrite list_lookup_insert_ne in Hz by done. split.
      + intros ->. apply Hij. by eapply NoDup_lookup.
      + right. by eapply list_elem_of_lookup_2. }
  assert (same_ids (release K x) K2) as Hsame3.
  { apply same_ids_insert with k; [|done..]. by rewrite release_other. }
  assert (same_ids K (<[lk := referenced (locked k)]> K)) as Hsame by (by eapply same_ids_insert).
  eapply appended_finish; [by apply sets_sim_delete|done|done| | | | |].
  - apply list_lookup_insert_eq. by eapply lookup_lt_Some.
  - eapply kid_sorted_replace; [done|by symmetry|apply Hok].
  - intros z [Hzx Hz]%Hin. eapply has_kid_same_ids; [done|]. eapply has_kid_sim; [done|].
    eapply (has_kid_other K _ _ x); [intros; by apply release_other|done|done|].
    apply elem_of_cons in Hz as [->|?]; [done|by apply (kso_ids _ _ _ _ _ Hok)].
  - intros (z & kz & Hz & Hkz & Hm). apply Hin in Hz as [Hzx Hz]. apply Hap.
    eapply metas_of_same_ids; [done|by eapply keys_exist|]. exists z, kz. split_and!; [done| |done].
    rewrite <- Hkz. unfold K2. destruct (decide (lk = z)) as [<-|]; [by rewrite !lookup_insert_eq|].
    rewrite !lookup_insert_ne by done. by rewrite release_other.
  - intros h s3 Happ Hsz. apply wp_ret. rewrite Hsz, length_insert. done.
Qed.

(** Appending a key with the name and owner of another key of the keyset puts it
    in the place of that key, which loses its reference and is freed when it was
    the last one; size and order stay. *)
Theorem ksAppendKey_replaces K S l lk ls k i x :
  keyset_ok K S idf l ls -> K !! lk = Some k -> k_key k <> None -> has_kid K S lk (idf lk) ->
  ~ metas_of K (lk :: ls) l -> ls !! i = Some x -> idf x = idf lk -> x <> lk ->
  droppable K x -> not_metadata K S x ->
  wp (ksAppendKey (Some l) (Some lk))
     (fun r h => r = Z.of_nat (length ls) /\
        appended K (<[lk := referenced (locked k)]> (release K x)) S l lk ls (<[i := lk]> ls) i h)
     (mkHeap K S).
Proof. apply ksAppendKey_replace_spec. Qed.
End Append.
