(* ===== verification/LookupFacts.v ===== *)
(** * LookupFacts: what ksLookup finds

    [ksLookup] by name finds the key with the name exactly when there is one.
    A cascading name is looked up in the namespaces proc, dir, user and system
    in this order, then as it is, and the looked up key gets its name back. *)
From S2P Require Export DeleteFacts.


(** ** Options *)

Lemma test_clear_bit_same f b : test_bit (clear_bit f b) b = false.
Proof.
  unfold test_bit, clear_bit. replace (Z.land (Z.land f (Z.lnot b)) b) with 0%Z; [done|].
  apply Z.bits_inj'. intros i Hi. rewrite !Z.land_spec, Z.lnot_spec, Z.bits_0 by done.
  by destruct (Z.testbit f i), (Z.testbit b i).
Qed.

Lemma test_set_bit_same f b : b <> 0%Z -> test_bit (set_bit f b) b = true.
Proof.
  intros Hb. unfold test_bit, set_bit. replace (Z.land (Z.lor f b) b) with b.
  - by destruct (Z.eqb_spec b 0).
  - apply Z.bits_inj'. intros i Hi. rewrite Z.land_spec, Z.lor_spec.
    by destruct (Z.testbit f i), (Z.testbit b i).
Qed.

Lemma plain_options_clear o : plain_options o -> plain_options (clear_bit o KDB_O_DEL).
Proof.
  intros ((? & ? & ?) & ? & ? & ? & ?).
  repeat split; rewrite ?test_clear_bit_same, ?test_clear_bit_other; done.
Qed.

Lemma plain_options_clear_create o : plain_options o -> plain_options (clear_bit o KDB_O_CREATE).
Proof.
  intros ((? & ? & ?) & ? & ? & ? & ?).
  repeat split; rewrite ?test_clear_bit_same, ?test_clear_bit_other; done.
Qed.

(** Setting an option that [plain_options] does not mention. *)
Lemma plain_options_set o b :
  b ∈ [KDB_O_NOCASCADING; KDB_O_CALLBACK] -> plain_options o -> plain_options (set_bit o b).
Proof.
  intros Hb ((? & ? & ?) & ? & ? & ? & ?).
  repeat (apply elem_of_cons in Hb as [->|Hb];
    [repeat split; by rewrite test_set_bit_other|]). by apply elem_of_nil in Hb.
Qed.

(** ** Cascading *)

Section Cascade.
Context {R : Rec} {HR : RecLaws R}.
Context (K : gmap loc Key) (l key : loc) (ls : list loc) (k : Key) (name : cstr).
Context (Hk : K !! key = Some k) (Hname : k_key k = Some name) (Hmeta : k_meta k = None).
Context (Hnot : key ∉ ls).

(** [kc] is the looked up key, possibly under another name. *)
Definition renamed (kc : Key) : Prop := kc = k \/ exists c, kc = named k c.

Lemma named_renamed kc c : renamed kc -> named kc c = named k c.
Proof.
  intros [->|[c' ->]]; [done|]. unfold named, set_flags, set_name. simpl. f_equal.
  unfold set_bit. by rewrite <- Z.lor_assoc, Z.lor_diag.
Qed.

Lemma uname_of_renamed kc x : x ∈ ls -> uname_of (<[key := kc]> K) x = uname_of K x.
Proof. intros Hx. unfold uname_of. rewrite lookup_insert_ne; [done|]. by intros ->. Qed.

Lemma set_ok_renamed S kc : set_ok K S l ls -> set_ok (<[key := kc]> K) S l ls.
Proof.
  intros Hset. assert (keys_live K ls) as Hl by (by destruct Hset as (? & ? & ? & ? & ? & ?)).
  unfold keys_live in Hl. rewrite Forall_forall in Hl.
  eapply set_ok_keys; [|done]. intros x Hx. split; [|by apply uname_of_renamed].
  rewrite lookup_insert_ne; [by apply Hl|]. by intros ->.
Qed.

Lemma lookup_as_spec S kc nm options {B} (f : ptr -> M B) Q :
  set_ok K S l ls -> renamed kc -> deref nm <> SLASH -> plain_options options ->
  (forall S', sets_sim (eq l) S S' ->
     wp (f (find_uname K ls (elektraUnescapeKeyName nm))) Q (mkHeap (<[key := named k nm]> K) S')) ->
  wp (bindM (lookup_as l key nm options) f) Q (mkHeap (<[key := kc]> K) S).
Proof.
  intros Hset Hkc Hslash Hopt HQ. unfold lookup_as. wstep. apply wp_bind.
  eapply elektraFinalizeName_spec; [apply lookup_insert_eq|].
  rewrite insert_insert_eq, named_renamed by done. apply wp_bind.
  eapply rec_lookup_plain; [by apply set_ok_renamed|apply lookup_insert_eq|done|done|by left|done|].
  intros S' HS'. simpl. rewrite (find_uname_keys K) by (intros; by apply uname_of_renamed).
  by apply HQ.
Qed.

Definition first_found (names : list cstr) : ptr :=
  foldr (fun nm r => match find_uname K ls (elektraUnescapeKeyName nm) with
                     | Some x => Some x | None => r end) None names.

Lemma first_found_cons nm names :
  first_found (nm :: names) =
    match find_uname K ls (elektraUnescapeKeyName nm) with
    | Some x => Some x | None => first_found names end.
Proof. done. Qed.

Lemma namespace_name_first ns nm :
  ns ∈ namespaces -> deref (namespace_name ns nm) <> SLASH.
Proof. intros Hns. repeat (apply elem_of_cons in Hns as [->|Hns]; [done|]). by apply elem_of_nil in Hns. Qed.

Lemma cascade_namespaces_spec nss : forall S kc options {B} (f : ptr -> M B) Q,
  set_ok K S l ls -> renamed kc -> plain_options options -> (forall ns, ns ∈ nss -> ns ∈ namespaces) ->
  (forall S' kc', sets_sim (eq l) S S' -> (renamed kc' /\ (kc' = kc \/ exists c, kc' = named k c)) ->
     (nss <> [] -> exists c, kc' = named k c) ->
     wp (f (first_found ((fun ns => namespace_name ns name) <$> nss))) Q (mkHeap (<[key := kc']> K) S')) ->
  wp (bindM (cascade_namespaces l key name options nss) f) Q (mkHeap (<[key := kc]> K) S).
Proof.
  induction nss as [|ns nss IH]; intros S kc options B f Q Hset Hkc Hopt Hns HQ; cbn [cascade_namespaces].
  - wstep. apply HQ; [done|by auto|done].
  - wstep. unfold elektraLookupByNamespace.
    eapply lookup_as_spec; [done|done|apply namespace_name_first, Hns; by left| |].
    { by apply plain_options_clear. }
    intros S1 HS1. rewrite fmap_cons in HQ.
    destruct (find_uname K ls (elektraUnescapeKeyName (namespace_name ns name))) as [x|] eqn:Ef.
    + wstep. specialize (HQ S1 (named k (namespace_name ns name)) HS1).
      rewrite first_found_cons, Ef in HQ. apply HQ; [split; right; by eexists|intros _; by eexists].
    + eapply (IH S1 (named k (namespace_name ns name))); [by eapply set_ok_sim|by right; eexists|done| |].
      { intros ns' Hin. apply Hns. by right. }
      intros S2 kc' HS2 [Hr Hkc'] Hne. specialize (HQ S2 kc').
      rewrite first_found_cons, Ef in HQ. apply HQ; [by etrans| |].
      * split; [done|]. right. destruct Hkc' as [->|?]; eauto.
      * intros _. destruct Hkc' as [->|?]; eauto.
Qed.

(** What a cascading lookup finds. *)
Definition cascade_result (options : Z) : ptr :=
  match first_found ((fun ns => namespace_name ns name) <$>
                     [KEY_NS_PROC; KEY_NS_DIR; KEY_NS_USER; KEY_NS_SYSTEM]) with
  | Some x => Some x
  | None => if test_bit options KDB_O_NODEFAULT then None else find_uname K ls (k_uname k)
  end.

(** The key with its own name again. *)
Definition synced : Key := set_flags k (set_bit (k_flags k) KEY_FLAG_SYNC).

Lemma default_cascade_spec S kc options Q :
  set_ok K S l ls -> renamed kc -> plain_options options ->
  (forall S', sets_sim (eq l) S S' -> Q (cascade_result options) (mkHeap (<[key := synced]> K) S')) ->
  wp (default_cascade l key name (k_uname k) options) Q (mkHeap (<[key := kc]> K) S).
Proof.
  intros Hset Hkc Hopt HQ. unfold default_cascade.
  eapply cascade_namespaces_spec; [done|done|done| |].
  { intros ns Hns. unfold namespaces. by right. }
  intros S1 kc' HS1 _ Hne. destruct Hne as [c ->]; [done|]. unfold restore_name. wsteps.
  rewrite insert_insert_eq. replace (set_name (named k c) (Some name) (k_uname k)) with synced
    by (unfold synced, named, set_flags, set_name; simpl; by rewrite <- Hname).
  unfold cascade_result in HQ. destruct (first_found _) as [x|]; [apply wp_ret; by apply HQ|].
  destruct (test_bit options KDB_O_NODEFAULT); [apply wp_ret; by apply HQ|].
  eapply rec_lookup_plain; [eapply set_ok_renamed; by eapply set_ok_sim|apply lookup_insert_eq|
    exact Hname|exact Hmeta| | |].
  - right. by apply test_set_bit_same.
  - apply plain_options_set; [by left|]. by apply plain_options_clear.
  - intros S' HS'. simpl. rewrite (find_uname_keys K) by (intros; by apply uname_of_renamed).
    apply HQ. by etrans.
Qed.

(** No key of the keyset specifies the looked up name. *)
Definition no_spec (options : Z) : Prop :=
  test_bit options KDB_O_NOSPEC = true \/
  find_uname K ls (elektraUnescapeKeyName (namespace_name KEY_NS_SPEC name)) = None.

Lemma elektraLookupByCascading_spec S options Q :
  set_ok K S l ls -> plain_options options -> no_spec options ->
  (forall S', sets_sim (eq l) S S' -> Q (cascade_result options) (mkHeap (<[key := synced]> K) S')) ->
  wp (elektraLookupByCascading l key options) Q (mkHeap K S).
Proof.
  intros Hset Hopt Hns HQ. unfold elektraLookupByCascading. wstep. rewrite Hname. simpl.
  rewrite <- (insert_id K key k Hk).
  destruct (test_bit options KDB_O_NOSPEC) eqn:Eo.
  - wstep. apply default_cascade_spec; [done|by left|done|done].
  - destruct Hns as [?|Hns]; [congruence|].
    eapply lookup_as_spec; [done|by left|done| |].
    + apply plain_options_set; [right; by left|]. by apply plain_options_clear.
    + intros S' HS'. rewrite Hns.
      apply default_cascade_spec; [by eapply set_ok_sim|right; by eexists|done|].
      intros S2 HS2. apply HQ. by etrans.
Qed.
End Cascade.

(** C8.  [ksLookup] of a cascading name that no [spec/] key of the keyset specifies (or with
    [KDB_O_NOSPEC]): it tries the namespaces proc, dir, user and system in this order and
    returns the first key found, otherwise the default key with the cascading name itself
    (unless [KDB_O_NODEFAULT]).  The looked up key has no metadata, its name may be
    changed, it is not in the keyset, and the options are plain: it is renamed meanwhile
    but has its own name afterwards and is only marked as changed; no other key changes.
    With a [spec/] key the override, namespace, fallback and default metadata
    of it decide instead, which is not stated here. *)
Theorem ksLookup_cascades {CB : Callbacks} n K S l ls key k name options :
  set_ok K S l ls -> K !! key = Some k -> k_key k = Some name -> k_meta k = None ->
  deref name = SLASH -> test_bit (k_flags k) KEY_FLAG_RO_NAME = false -> key ∉ ls ->
  plain_options options -> test_bit options KDB_O_NOCASCADING = false -> no_spec K ls name options ->
  wp (ksLookup (Datatypes.S n) (Some l) (Some key) options)
     (fun r h => r = cascade_result K ls k name options /\ h_keys h = <[key := synced k]> K /\
                 sets_sim (eq l) S (h_sets h)) (mkHeap K S).
Proof.
  intros Hset Hk Hn Hm Hslash Hro Hnot Hopt Hnc Hns.
  unfold ksLookup, ksLookup_body. wstep. rewrite Hn, Hnc.
  pose proof Hopt as (_ & Hspec & _ & Hcr & Hdel). rewrite Hspec, Hcr, Hdel.
  rewrite (bool_decide_false (strcmp name [] = 0%Z)) by (by rewrite strcmp_nil, Hslash).
  rewrite (bool_decide_true (deref name = SLASH)) by done. cbn [negb andb].
  set (masked := clear_bit (clear_bit options KDB_O_DEL) KDB_O_CREATE).
  assert (plain_options masked) as Hmasked.
  { by apply plain_options_clear_create, plain_options_clear. }
  assert (forall b, Z.land (Z.lnot KDB_O_DEL) b = b -> Z.land (Z.lnot KDB_O_CREATE) b = b ->
            test_bit masked b = test_bit options b) as Hbit.
  { intros b H1 H2. unfold masked. by rewrite !test_clear_bit_other. }
  unfold with_unlocked. wsteps. rewrite Hro. apply wp_bind.
  eapply (elektraLookupByCascading_spec K l key ls k name); [done..| |].
  { unfold no_spec. by rewrite Hbit. }
  intros S' HS'. apply wp_bind.
  assert (forall x : ptr, (match x with Some _ => ret x | None => ret None end) = ret x) as E
    by (by intros [|]). rewrite E. apply wp_ret. wsteps.
  split_and!; [|done..]. unfold cascade_result. by rewrite Hbit.
Qed.

(** ** Searching by value *)

Section Value.
Context {CB : Callbacks} (n : nat).

(** The first key from position [i] on that passes a test. *)
Definition first_from (ls : list loc) (i : nat) (t : loc -> bool) : ptr := find t (drop i ls).

Lemma value_loop_spec K l ls (test : loc -> M bool) (t : loc -> bool) : forall rest fuel S s i Q,
  S !! l = Some s -> ks_rep s ls -> before s i -> drop i ls = rest -> i <= length ls ->
  length rest < fuel ->
  (forall x S, x ∈ rest -> wp (test x) (fun r h => r = t x /\ h = mkHeap K S) (mkHeap K S)) ->
  (forall c j, Q (find t rest) (mkHeap K (<[l := ks_with_cursor s c j]> S))) ->
  wp (value_loop fuel (Some l) test) Q (mkHeap K S).
Proof.
  intros rest fuel. revert rest. induction fuel as [|fuel IH]; intros rest S s i Q Hs Hrep Hb Hd Hi Hf Ht HQ; [lia|].
  cbn [value_loop]. apply wp_bind.
  pose proof (before_next _ _ Hb) as [Hnx Hcu].
  eapply ksNext_spec; [done|done| | |].
  - unfold cursor_ok. rewrite (rep_size _ _ Hrep). lia.
  - intros Hlt. rewrite Hnx. unfold after_next. rewrite Hnx.
    assert ((length ls <=? ks_current s) = false) as -> by (apply Nat.leb_gt; lia).
    destruct (ls !! i) as [x|] eqn:Ex.
    + assert (rest = x :: drop (Datatypes.S i) ls) as -> by (rewrite <- Hd; by apply drop_S).
      apply wp_bind. eapply wp_mono; [apply Ht; by left|]. intros r h [-> ->].
      simpl in HQ. destruct (t x); [apply wp_ret; apply HQ|].
      eapply (IH (drop (Datatypes.S i) ls)); [apply lookup_insert_eq|by apply ks_rep_cursor|done|done| | | |].
      * apply lookup_lt_Some in Ex. simpl. lia.
      * simpl in Hf. lia.
      * intros y S' Hy. apply Ht. by right.
      * intros c j. rewrite insert_insert_eq. apply HQ.
    + apply wp_ret. apply lookup_ge_None in Ex. rewrite drop_ge in Hd by done. subst rest. apply HQ.
  - intros Hge. apply wp_ret. assert (rest = []) as ->.
    { rewrite <- Hd. apply drop_ge. lia. }
    rewrite <- (insert_id S l s Hs). destruct s as [a sz al c j f]. apply (HQ c j).
Qed.

(** The string value of a key that has no metadata. *)
Definition string_value (K : gmap loc Key) (x : loc) : option cstr :=
  match K !! x with
  | Some k => match k_data k with None => Some [] | Some d => cstr_of d end
  | None => None
  end.

(** The keys are plain and their values are C strings. *)
Definition string_keys (K : gmap loc Key) (ls : list loc) : Prop :=
  Forall (fun x => (exists k, K !! x = Some k /\ k_meta k = None) /\ is_Some (string_value K x)) ls.

Definition value_matches (K : gmap loc Key) (v : cstr) (options : Z) (x : loc) : bool :=
  match string_value K x with
  | Some c => (test_bit options KDB_O_NOCASE && (strcasecmp c v =? 0)%Z) || (strcmp c v =? 0)%Z
  | None => false
  end.

(** [ksLookupByString] returns the first key, in the order of the keyset, whose
    string equals the searched one (ignoring case with [KDB_O_NOCASE]), and
    leaves the keyset rewound and otherwise unchanged. *)
Theorem ksLookupByString_first K S l s ls v options :
  S !! l = Some s -> ks_rep s ls -> string_keys K ls -> test_bit options KDB_O_NOALL = false ->
  wp (ksLookupByString n (Some l) (Some v) options)
     (fun r h => r = find (value_matches K v options) ls /\
                 h = mkHeap K (<[l := ks_with_cursor s None 0]> S)) (mkHeap K S).
Proof.
  intros Hs Hrep Hkeys Hall. unfold ksLookupByString. cbn zeta. rewrite Hall.
  apply wp_bind. eapply ksRewind_spec; [done|]. unfold ksGetCursor. wsteps.
  cbn [ks_cursor ks_with_cursor]. apply wp_bind.
  eapply (value_loop_spec K l ls _ (value_matches K v options) ls _ _ _ 0);
    [apply lookup_insert_eq|by apply ks_rep_cursor|done|done|lia| | |].
  - cbn [ks_size ks_with_cursor]. rewrite (rep_size _ _ Hrep). lia.
  - intros x S' Hx. unfold string_keys in Hkeys. rewrite Forall_forall in Hkeys.
    destruct (Hkeys x Hx) as [(k & Hk & Hm) [c Hc]]. unfold value_matches. rewrite Hc.
    unfold string_value in Hc. rewrite Hk in Hc.
    apply wp_bind. unfold keyIsString. apply wp_bind. eapply keyGetMeta_none; [done..|]. apply wp_ret.
    change (1 =? 0)%Z with false. cbn iota. unfold keyValue. do 2 wstep. destruct (k_data k) as [d|].
    + wstep. unfold as_cstr. rewrite Hc. by wsteps.
    + wstep. apply wp_bind. unfold keyIsBinary. apply wp_bind. eapply keyGetMeta_none; [done..|].
      apply wp_ret. change (0 =? 0)%Z with true. injection Hc as <-. wstep.
      unfold as_cstr. change (cstr_of [NUL]) with (Some (@nil ascii)). cbn iota. by wsteps.
  - intros c j. rewrite insert_insert_eq. unfold ksSetCursor. simpl. wstep. apply wp_bind.
    eapply ksRewind_spec; [apply lookup_insert_eq|]. rewrite insert_insert_eq. by wsteps.
Qed.
End Value.
