(* ===== verification/Hierarchy.v ===== *)
(** * Hierarchy: the tree of names

    A canonical name is a namespace, missing in a cascading name, and a list of
    parts, escaped and joined by slashes.  [keyIsBelow] compares the escaped
    names and one byte of the unescaped ones; the theorem says that this is the
    prefix order of the lists of parts. *)
From S2P Require Export AppendFacts.

(** ** Escaped parts that are prefixes of each other *)

Lemma strncmp_prefix a s :
  no_nul a -> no_nul s -> strncmp a s (length a) = 0%Z <-> a `prefix_of` s.
Proof.
  intros Ha. revert s. induction Ha as [|c a Hc Ha IH]; intros s Hs; simpl.
  { split; [intros _; apply prefix_nil|done]. }
  destruct s as [|d s]; simpl.
  { apply uchar_pos in Hc. split; [lia|]. by intros [? ?]. }
  inversion Hs; subst. case_decide as E.
  - subst. rewrite IH by done. split; [by apply prefix_cons|by intros ?%prefix_cons_inv_2].
  - split; [|by intros ?%prefix_cons_inv_1].
    intros H. exfalso. apply E, uchar_inj. lia.
Qed.

Lemma replicate_app_inj {A} (b : A) n m s t :
  replicate n b ++ s = replicate m b ++ t ->
  (forall s', s <> b :: s') -> (forall t', t <> b :: t') -> n = m /\ s = t.
Proof.
  revert m. induction n as [|n IH]; intros [|m] E Hs Ht; simpl in *; [done| | |].
  - by destruct (Hs (replicate m b ++ t)).
  - by destruct (Ht (replicate n b ++ s)).
  - injection E as E. destruct (IH m E Hs Ht). auto.
Qed.

(** With a pending backslash more, the loop never writes the backslashes before
    a slash. *)
Lemma escape_loop_slash p k s r :
  escape_part_loop p (S k) ++ s <> replicate k BSLASH ++ SLASH :: r.
Proof.
  destruct (backslash_run p) as (n & t & -> & Ht). rewrite escape_part_loop_run, <- app_assoc.
  assert (forall m u, k < m -> replicate m BSLASH ++ u <> replicate k BSLASH ++ SLASH :: r) as Hmore.
  { intros m u Hm. replace m with (k + S (m - k - 1)) by lia. rewrite replicate_add, <- app_assoc.
    by intros E%app_inv_head. }
  destruct t as [|c t]; simpl in *.
  - rewrite replicate_snoc, app_assoc, <- replicate_add. apply Hmore. lia.
  - rewrite decide_False by done. case_decide as Hc; subst.
    + simpl. rewrite replicate_snoc, replicate_snoc, <- app_assoc, app_assoc, <- replicate_add. apply Hmore. lia.
    + simpl. intros E. apply replicate_app_inj in E as [_ E]; congruence.
Qed.

Lemma escape_loop_run_only p k t : p <> [] -> escape_part_loop p k ++ t <> replicate k BSLASH.
Proof.
  destruct (backslash_run p) as (n & u & -> & Hu). intros Hne E.
  rewrite escape_part_loop_run, <- app_assoc in E. destruct u as [|c u]; simpl in *.
  - apply (f_equal length) in E. unfold elektraWriteBackslashes in E.
    rewrite !length_app, !length_replicate in E. destruct n; [done|lia].
  - assert (forall d l1 l2, l1 ++ d :: l2 = replicate k BSLASH -> d = BSLASH) as Hin.
    { intros d l1 l2 Ed. assert (d ∈ replicate k BSLASH) as Hd by (rewrite <- Ed; set_solver).
      by apply elem_of_replicate in Hd as []. }
    rewrite decide_False in E by done. case_decide; subst.
    + assert (SLASH = BSLASH); [|done]. eapply (Hin SLASH (replicate n BSLASH ++ BSLASH :: elektraWriteBackslashes (k + n))).
      rewrite <- E, <- !app_assoc. simpl. by rewrite <- !app_assoc.
    + apply Hu. eapply Hin. exact E.
Qed.

Lemma escape_loop_shorter p q k t :
  escape_part_loop p k ++ t = escape_part_loop q k -> t <> [] -> length p < length q.
Proof.
  revert q k. induction p as [|c p IH]; intros q k E Ht.
  { destruct q; simpl in *; [|lia]. apply (f_equal length) in E. rewrite length_app in E.
    destruct t; [done|simpl in E; lia]. }
  destruct q as [|d q].
  { exfalso. eapply (escape_loop_run_only (c :: p) k t); [done|]. exact E. }
  cut (length p < length q); [simpl; lia|]. simpl in E. unfold elektraWriteBackslashes in E.
  destruct (decide (c = BSLASH)) as [->|Hc]; [|destruct (decide (c = SLASH)) as [->|Hc']];
    (destruct (decide (d = BSLASH)) as [->|Hd]; [|destruct (decide (d = SLASH)) as [->|Hd']]); simpl in E.
  - injection E as E. by eapply IH.
  - injection E as E. by apply escape_loop_slash in E.
  - by injection E.
  - injection E as E. symmetry in E. rewrite <- app_assoc in E. simpl in E.
    rewrite <- (app_nil_r (escape_part_loop q (S k))) in E. by apply escape_loop_slash in E.
  - injection E as E. rewrite <- app_assoc in E. apply app_inv_head in E. injection E as E. by eapply IH.
  - by injection E.
  - by injection E.
  - by injection E.
  - injection E as -> E. by eapply IH.
Qed.

(** The words that are escaped as a whole. *)
Definition reserved (w : cstr) : Prop := w = lit "%" \/ w = lit "." \/ w = lit "..".

Lemma reserved_plain w : reserved w -> w <> [] /\ Forall (fun c => c <> BSLASH /\ c <> SLASH) w.
Proof. by intros [->|[->| ->]]; (split; [|repeat constructor]). Qed.

Lemma reserved_prefix w w' t : reserved w -> reserved w' -> w ++ t = w' -> t <> [] -> length w < length w'.
Proof. intros [->|[->| ->]] [->|[->| ->]]; destruct t; simpl; intros; simplify_eq; lia. Qed.

(** A reserved word behind backslashes, and a part that is not escaped as a whole. *)
Lemma escape_shorter_reserved_plain n w q t :
  reserved w -> replicate (S n) BSLASH ++ w ++ t = escape_part_loop q 0 -> n + length w < length q.
Proof.
  intros Hw E. destruct (backslash_run q) as (m & u & -> & Hu). rewrite escape_part_loop_run in E.
  destruct (reserved_plain w Hw) as [Hne Hpl]. destruct w as [|c w]; [done|].
  inversion Hpl as [|?? [Hc Hc'] ?]; subst. rewrite length_app, length_replicate.
  destruct u as [|d u]; simpl in E.
  - exfalso. unfold elektraWriteBackslashes in E. rewrite <- replicate_add in E.
    assert (c ∈ replicate (m + m) BSLASH) as Hmem by (rewrite <- E; set_solver).
    by apply elem_of_replicate in Hmem as [].
  - simpl in Hu. rewrite decide_False in E by done. case_decide as Hd; subst.
    + exfalso. change (BSLASH :: ?a) with (replicate 1 BSLASH ++ a) in E. simpl in E.
      unfold elektraWriteBackslashes in E. rewrite replicate_snoc in E.
      rewrite app_assoc, <- replicate_add in E. change (BSLASH :: replicate n BSLASH ++ ?a) with (replicate (S n) BSLASH ++ a) in E.
      apply replicate_app_inj in E as [_ E]; [congruence|congruence|by intros ? [=]].
    + change (BSLASH :: replicate n BSLASH ++ ?a) with (replicate (S n) BSLASH ++ a) in E.
      apply replicate_app_inj in E as [<- E]; [|congruence|congruence]. injection E as -> E.
      simpl. destruct w as [|c w]; [simpl; lia|].
      destruct u as [|d' u]; [done|].
      assert (w = []) as -> by (by destruct Hw as [Hw|[Hw|Hw]]; injection Hw). simpl. lia.
Qed.

Lemma escape_shorter_plain_reserved p n w t :
  reserved w -> (forall k v, p = replicate k BSLASH ++ v -> ~ reserved v) -> p <> [] ->
  escape_part_loop p 0 ++ t = replicate (S n) BSLASH ++ w -> t <> [] -> length p < n + length w.
Proof.
  intros Hw Hp Hne E Ht. destruct (backslash_run p) as (m & u & -> & Hu). rewrite escape_part_loop_run, <- app_assoc in E.
  destruct (reserved_plain w Hw) as [Hwne Hpl]. rewrite length_app, length_replicate.
  assert (length w <= 2) by (destruct Hw as [->|[->| ->]]; simpl; lia).
  assert (1 <= length w) by (destruct w; [done|simpl; lia]).
  destruct u as [|d u]; cbn [escape_part_loop] in E.
  - unfold elektraWriteBackslashes in E. rewrite app_assoc, <- replicate_add in E. simpl in E.
    assert (m + m <= S n) as Hle.
    { destruct (decide (m + m <= S n)) as [|Hgt]; [done|]. exfalso.
      replace (m + m) with (S n + S (m + m - S n - 1)) in E by lia. rewrite replicate_add, <- app_assoc in E.
      change (BSLASH :: replicate n BSLASH ++ w) with (replicate (S n) BSLASH ++ w) in E.
      apply app_inv_head in E. rewrite <- E in Hpl. simpl in Hpl. inversion Hpl as [|?? [? _]]. done. }
    destruct m; [done|]. simpl. lia.
  - simpl in Hu. rewrite decide_False in E by done. case_decide as Hd; subst.
    + exfalso. assert (SLASH ∈ w) as Hin.
      { assert (SLASH ∈ replicate (S n) BSLASH ++ w) as H1 by (rewrite <- E; set_solver).
        apply elem_of_app in H1 as [H1|]; [|done]. by apply elem_of_replicate in H1 as []. }
      rewrite Forall_forall in Hpl. by destruct (Hpl _ Hin).
    + apply replicate_app_inj in E as [-> E]; [|simpl; congruence|].
      2:{ intros s' ->. inversion Hpl as [|?? [? _]]. done. }
      exfalso. destruct u as [|d' u].
      * simpl in E. subst w. destruct Hw as [Hw|[Hw|Hw]]; injection Hw as -> Hw; try by subst.
        apply (Hp (S n) (lit ".")); [done|]. right. by left.
      * apply (f_equal length) in E. simpl in E. rewrite length_app in E.
        assert (1 <= length (escape_part_loop (d' :: u) 0)).
        { destruct (escape_part_loop (d' :: u) 0) eqn:E0; [by apply escape_part_loop_nil in E0|simpl; lia]. }
        assert (1 <= length t) by (destruct t; [done|simpl; lia]). simpl in *. lia.
Qed.

(** A part whose escaped form is a proper prefix of another one is shorter. *)
Lemma escape_shorter p q t :
  no_nul p -> no_nul q -> elektraEscapeKeyNamePart p ++ t = elektraEscapeKeyNamePart q -> t <> [] ->
  length p < length q.
Proof.
  intros Hp Hq E Ht. destruct (escape_part_case p Hp) as [->|n w -> Hw|n u Hpu Hu Hne H1 H2 H3].
  - destruct q; [|simpl; lia]. apply (f_equal length) in E. destruct t; [done|]. rewrite length_app in E. simpl in E. lia.
  - destruct (escape_part_case q Hq) as [->|m w' -> Hw'|m u _ _ _ _ _ _].
    + apply (f_equal length) in E. rewrite !length_app in E. simpl in E. destruct t; [done|simpl in E; lia].
    + rewrite !length_app, !length_replicate. rewrite <- app_assoc in E.
      destruct (reserved_plain w Hw) as [Hwn Hwp], (reserved_plain w' Hw') as [Hwn' Hwp'].
      apply replicate_app_inj in E as [E1 E2].
      * injection E1 as ->. pose proof (reserved_prefix w w' t Hw Hw' E2 Ht). lia.
      * intros s' E'. destruct w; [done|]. injection E' as -> _. inversion Hwp as [|?? [? _]]. done.
      * intros s' ->. inversion Hwp' as [|?? [? _]]. done.
    + rewrite length_app, length_replicate. rewrite <- app_assoc in E. by eapply escape_shorter_reserved_plain.
  - destruct (escape_part_case q Hq) as [->|m w' -> Hw'|].
    + apply (f_equal length) in E. rewrite length_app in E. simpl in E.
      assert (1 <= length (escape_part_loop p 0)).
      { destruct (escape_part_loop p 0) eqn:E0; [by apply escape_part_loop_nil in E0|simpl; lia]. }
      destruct t; [done|simpl in E; lia].
    + rewrite (length_app (replicate m BSLASH)), length_replicate. eapply escape_shorter_plain_reserved; [done| |done..].
      intros k v Ev Hv. rewrite Ev in Hpu. destruct (reserved_plain v Hv) as [Hvn Hvp].
      apply replicate_app_inj in Hpu as [_ ->].
      * by destruct Hv as [->|[->| ->]].
      * intros s' ->. inversion Hvp as [|?? [? _]]. done.
      * by intros t' ->.
    + by eapply escape_loop_shorter.
Qed.

Lemma escape_inj p q :
  no_nul p -> no_nul q -> elektraEscapeKeyNamePart p = elektraEscapeKeyNamePart q -> p = q.
Proof.
  intros Hp Hq E. assert (p ++ [NUL] = q ++ [NUL]) as H; [|by apply app_inj_tail in H as []].
  rewrite <- (unescape_level_escaped p []), <- (unescape_level_escaped q []), E by (done || constructor; done || by left).
  done.
Qed.

(** No escaped part continues with a separator. *)
Lemma escape_no_separator p q d :
  no_nul p -> no_nul q -> elektraEscapeKeyNamePart q = elektraEscapeKeyNamePart p ++ SLASH :: d -> False.
Proof.
  intros Hp Hq E. assert (part_end (SLASH :: d)) as Hd by (right; by eexists).
  pose proof (keyNameGetOneLevel_escaped p (SLASH :: d) Hp Hd) as H1.
  pose proof (keyNameGetOneLevel_escaped q [] Hq (or_introl eq_refl)) as H2.
  rewrite app_nil_r, <- E, H2 in *. injection H1 as H1. rewrite E, length_app in H1. simpl in H1. lia.
Qed.

(** ** Paths *)

Lemma escaped_path_cons p ps : escaped_path (p :: ps) = SLASH :: elektraEscapeKeyNamePart p ++ escaped_path ps.
Proof. done. Qed.

(** When the escaped path of [ps] is a prefix of that of [qs], then [ps] is a
    prefix of [qs], or the last part of [ps] is only a prefix of a part and
    the byte behind the unescaped name is no NUL. *)
Lemma path_prefix ps qs :
  Forall no_nul ps -> Forall no_nul qs -> escaped_path ps `prefix_of` escaped_path qs ->
  ps `prefix_of` qs \/
  ((exists c, (NUL :: unescaped_bytes qs) !! length (unescaped_bytes ps) = Some c /\ c <> NUL) /\ ~ ps `prefix_of` qs).
Proof.
  intros Hps. revert qs. induction Hps as [|p ps Hp Hps IH]; intros qs Hqs [s E]; [left; apply prefix_nil|].
  destruct Hqs as [|q qs Hq Hqs]; [done|]. rewrite !escaped_path_cons in E.
  injection E as E. rewrite <- app_assoc in E.
  assert (p = q \/ (exists d, d <> [] /\ elektraEscapeKeyNamePart q = elektraEscapeKeyNamePart p ++ d) /\ ps = [])
    as [->|[(d & Hd & Ed) ->]].
  { apply app_eq_inv in E as [(d & E1 & E2)|(d & E1 & E2)]; (destruct d as [|c d];
      [left; rewrite app_nil_r in E1; by apply escape_inj in E1|]).
    - destruct ps as [|p' ps]; [right; split; [by exists (c :: d)|done]|]. injection E2 as <- _.
      exfalso. by eapply (escape_no_separator p q d).
    - destruct qs; [done|]. injection E2 as <- _. exfalso. by eapply (escape_no_separator q p d). }
  - apply app_inv_head in E. destruct (IH qs Hqs) as [Hpre|[(c & Hc & Hn) Hpre]];
      [by exists s|left; by apply prefix_cons|right].
    split; [|by intros ?%prefix_cons_inv_2]. exists c. split; [|done].
    rewrite !unescaped_bytes_cons, length_app. cbn [length]. rewrite Nat.add_succ_r. simpl lookup.
    rewrite lookup_app_r, Nat.add_comm, Nat.add_sub by lia. exact Hc.
  - assert (length p < length q) as Hlt by (by eapply escape_shorter). right. split.
    + destruct (lookup_lt_is_Some_2 q (length p) Hlt) as [x Hx]. exists x. split.
      * rewrite !unescaped_bytes_cons, length_app. simpl. rewrite Nat.add_1_r. simpl. by rewrite lookup_app_l.
      * exact (Forall_lookup_1 _ _ _ _ Hq Hx).
    + intros ->%prefix_cons_inv_1. lia.
Qed.

(** The parts of the one name start those of the other one, which has more. *)
Definition above (ps qs : list cstr) : Prop := ps `prefix_of` qs /\ ps <> qs.
#[export] Instance above_dec ps qs : Decision (above ps qs) := _.

Lemma above_spec ps qs : above ps qs <-> exists r rs, qs = ps ++ r :: rs.
Proof.
  split.
  - intros [[[|r rs] ->] Hne]; [by rewrite app_nil_r in Hne|by exists r, rs].
  - intros (r & rs & ->). split; [by eexists|]. intros E. apply (f_equal length) in E.
    rewrite length_app in E. simpl in E. lia.
Qed.

Lemma unescaped_bytes_app ps qs : unescaped_bytes (ps ++ qs) = unescaped_bytes ps ++ unescaped_bytes qs.
Proof. unfold unescaped_bytes. by rewrite map_app, concat_app. Qed.

Lemma escaped_path_app ps qs : escaped_path (ps ++ qs) = escaped_path ps ++ escaped_path qs.
Proof. unfold escaped_path. by rewrite map_app, concat_app. Qed.

(** ** Keys with canonical names *)

Definition namespace_roots : list cstr := [lit "spec"; lit "proc"; lit "dir"; lit "user"; lit "system"].

(** The name with the parts [ps] in a namespace, or cascading. *)
Definition path_name (ns : option cstr) (ps : list cstr) : cstr :=
  match ns, ps with
  | Some n, _ => n ++ escaped_path ps
  | None, [] => [SLASH]
  | None, _ => escaped_path ps
  end.

Definition path_uname (ns : option cstr) (ps : list cstr) : list ascii :=
  default [] ns ++ NUL :: unescaped_bytes ps.

Definition path_ok (ns : option cstr) (ps : list cstr) : Prop :=
  match ns with Some n => n ∈ namespace_roots | None => True end /\ Forall no_nul ps.

Definition has_path (K : gmap loc Key) (l : loc) (ns : option cstr) (ps : list cstr) : Prop :=
  path_ok ns ps /\
  exists k, K !! l = Some k /\ k_key k = Some (path_name ns ps) /\
            k_uname k = elektraUnescapeKeyName (path_name ns ps).

(** A name is below another one when it continues its parts, in the same
    namespace or when one of the two names is cascading. *)
Definition path_below (ns : option cstr) (ps : list cstr) (ns' : option cstr) (ps' : list cstr) : Prop :=
  (ns = ns' \/ ns = None \/ ns' = None) /\ above ps ps'.
#[export] Instance path_below_dec ns ps ns' ps' : Decision (path_below ns ps ns' ps') := _.

Lemma root_facts n : n ∈ namespace_roots ->
  no_nul n /\ elektraEscapeKeyNamePart n = n /\ strchr n SLASH = None /\ n <> [].
Proof.
  intros H. repeat (apply elem_of_cons in H as [->|H]; [split_and!; [repeat constructor; done|done..]|]).
  by apply elem_of_nil in H.
Qed.

Lemma path_name_uname ns ps : path_ok ns ps -> elektraUnescapeKeyName (path_name ns ps) = path_uname ns ps.
Proof.
  intros [Hns Hps]. destruct ns as [n|]; simpl.
  - destruct (root_facts n Hns) as (Hn & E & _). rewrite <- E at 1. rewrite unescape_rooted by done.
    apply unescaped_bytes_cons.
  - destruct ps as [|p ps]; [done|]. by apply unescape_cascading.
Qed.

Section Below.
Context {R : Rec}.

Lemma uname_at_lookup u i c h : u !! i = Some c -> uname_at u (Z.of_nat (S i) - 1) h = Ret c h.
Proof.
  intros Hc. unfold uname_at. destruct (Z.eqb_spec (Z.of_nat (S i) - 1) (-1)); [lia|].
  destruct (Z.ltb_spec (Z.of_nat (S i) - 1) 0); [lia|].
  replace (Z.to_nat (Z.of_nat (S i) - 1)) with i by lia. by rewrite Hc.
Qed.

Lemma unescaped_end ps rs : (NUL :: unescaped_bytes (ps ++ rs)) !! length (unescaped_bytes ps) = Some NUL.
Proof.
  rewrite unescaped_bytes_app, app_comm_cons, lookup_app_l by (simpl; lia).
  destruct ps as [|p ps _] using rev_ind; [done|].
  rewrite unescaped_bytes_app, length_app. change (unescaped_bytes [p]) with ((p ++ [NUL]) ++ []).
  rewrite app_nil_r, length_app, app_assoc. simpl. rewrite Nat.add_1_r, Nat.add_succ_r. simpl.
  by rewrite <- length_app, lookup_app_r, Nat.sub_diag.
Qed.

(** The end of every branch of [keyIsBelow]. *)
Lemma below_test_spec kn cn ps qs u uk uc h :
  no_nul kn -> no_nul cn -> (kn `prefix_of` cn <-> escaped_path ps `prefix_of` escaped_path qs) ->
  Forall no_nul ps -> Forall no_nul qs ->
  (forall c, (NUL :: unescaped_bytes qs) !! length (unescaped_bytes ps) = Some c -> uname_at u (uk - 1) h = Ret c h) ->
  (uk <? uc)%Z = (length (unescaped_bytes ps) <? length (unescaped_bytes qs)) ->
  below_test kn cn (S (length kn)) u uk uc h = Ret (if bool_decide (above ps qs) then 1 else 0)%Z h.
Proof.
  intros Hkn Hcn Hiff Hps Hqs Hu Huc. unfold below_test. rewrite Nat.sub_succ, Nat.sub_0_r.
  rewrite (bool_decide_ext _ _ (strncmp_prefix _ _ Hkn Hcn)), (bool_decide_ext _ _ Hiff).
  case_bool_decide as Hpre.
  - unfold bindM. destruct (path_prefix ps qs Hps Hqs Hpre) as [[rs ->]|[(c & Hc & Hnul) Hn]].
    + rewrite (Hu _ (unescaped_end ps rs)), Huc, bool_decide_true by done. cbn [andb]. unfold ret.
      rewrite unescaped_bytes_app, length_app. destruct rs as [|r rs].
      * rewrite bool_decide_false; [|intros [_ ?]; by rewrite app_nil_r in *].
        assert ((length (unescaped_bytes ps) <? length (unescaped_bytes ps) + length (unescaped_bytes [])) = false)
          as -> by (apply Nat.ltb_ge; simpl; lia). done.
      * rewrite bool_decide_true by (apply above_spec; eauto). rewrite unescaped_bytes_cons, (length_app r).
        case_match eqn:E; [done|]. apply Nat.ltb_ge in E. simpl in E. lia.
    + rewrite (Hu _ Hc), (bool_decide_false (c = NUL)), (bool_decide_false (above _ _)); [done|by intros [? _]|done].
  - rewrite (bool_decide_false (above _ _)); [done|]. intros [[rs ->] _]. apply Hpre.
    rewrite escaped_path_app. by eexists.
Qed.

Lemma below_test_rooted n m ps qs h :
  n ∈ namespace_roots -> m ∈ namespace_roots -> Forall no_nul ps -> Forall no_nul qs ->
  below_test (path_name (Some n) ps) (path_name (Some m) qs) (S (length (path_name (Some n) ps)))
    (path_uname (Some m) qs) (Z.of_nat (length (path_uname (Some n) ps)))
    (Z.of_nat (length (path_uname (Some m) qs))) h =
  Ret (if bool_decide (n = m /\ above ps qs) then 1 else 0)%Z h.
Proof.
  intros Hn Hm Hps Hqs. destruct (root_facts n Hn) as (Hn0 & En & _), (root_facts m Hm) as (Hm0 & Em & _).
  assert (above (n :: ps) (m :: qs) <-> n = m /\ above ps qs) as Habove.
  { unfold above. split.
    - intros [Hp Hne]. pose proof (prefix_cons_inv_1 _ _ _ _ Hp) as ->. apply prefix_cons_inv_2 in Hp.
      split_and!; [done|done|congruence].
    - intros (-> & Hp & Hne). split; [by apply prefix_cons|congruence]. }
  rewrite <- (bool_decide_ext _ _ Habove). unfold path_name.
  change (path_uname (Some ?x) ?l) with (x ++ NUL :: unescaped_bytes l). rewrite <- !unescaped_bytes_cons.
  apply below_test_spec; [auto with nonul..|by constructor|by constructor| |].
  - rewrite !escaped_path_cons, En, Em. split; [by apply prefix_cons|by apply prefix_cons_inv_2].
  - intros c Hc. assert (length (unescaped_bytes (n :: ps)) = S (length n + length (unescaped_bytes ps))) as El
      by (rewrite unescaped_bytes_cons, length_app; simpl; lia).
    rewrite El in *. by apply uname_at_lookup.
  - rewrite Bool.eq_iff_eq_true, Z.ltb_lt, Nat.ltb_lt. lia.
Qed.

Lemma below_test_path ps qs h :
  Forall no_nul ps -> Forall no_nul qs ->
  below_test (escaped_path ps) (escaped_path qs) (S (length (escaped_path ps))) (NUL :: unescaped_bytes qs)
    (Z.of_nat (S (length (unescaped_bytes ps)))) (Z.of_nat (S (length (unescaped_bytes qs)))) h =
  Ret (if bool_decide (above ps qs) then 1 else 0)%Z h.
Proof.
  intros Hps Hqs. apply below_test_spec; [auto with nonul..|done|done| |].
  - intros c Hc. by apply uname_at_lookup.
  - rewrite Bool.eq_iff_eq_true, Z.ltb_lt, Nat.ltb_lt. lia.
Qed.

Lemma key_strings_path K S l ns ps {B} (f : cstr * list ascii * Z * Z -> M B) :
  has_path K l ns ps ->
  bindM (key_strings l) f (mkHeap K S) =
  f (path_name ns ps, path_uname ns ps, Z.of_nat (Datatypes.S (length (path_name ns ps))),
     Z.of_nat (length (path_uname ns ps))) (mkHeap K S).
Proof.
  intros [Hok (k & Hk & Hn & Hu)]. rewrite path_name_uname in Hu by done.
  unfold key_strings, bindM, get_key. cbn [h_keys]. rewrite Hk, Hn, Hu. unfold ret, keySize, keyUSize.
  by rewrite Hn, Hu.
Qed.

Lemma no_nul_path_name ns ps : path_ok ns ps -> no_nul (path_name ns ps).
Proof.
  intros [Hns Hps]. destruct ns as [n|]; simpl.
  - apply no_nul_app_2; [by apply root_facts|by apply no_nul_path].
  - destruct ps; [by repeat constructor|by apply no_nul_path].
Qed.

Lemma path_name_deref ns ps : path_ok ns ps -> deref (path_name ns ps) = SLASH <-> ns = None.
Proof.
  intros [Hns _]. destruct ns as [n|]; [|by destruct ps]. split; [|done].
  repeat (apply elem_of_cons in Hns as [->|Hns]; [done|]). by apply elem_of_nil in Hns.
Qed.

Lemma path_name_root ns ps :
  path_ok ns ps -> strcmp (path_name ns ps) (lit "/") = 0%Z <-> ns = None /\ ps = [].
Proof.
  intros Hok. rewrite strcmp_eq; [|by apply no_nul_path_name|by repeat constructor]. split; [|by intros [-> ->]].
  intros E. assert (ns = None) as -> by (apply (path_name_deref ns ps Hok); by rewrite E). split; [done|].
  destruct Hok as [_ Hps]. destruct ps as [|p ps]; [done|]. simpl in E. injection E as E. inversion Hps; subst.
  by destruct (escape_nonempty p) as (c & r & Er & _); [|rewrite Er in E].
Qed.

(** The level of the namespace, and the name behind it. *)
Lemma path_name_level n ps :
  path_ok (Some n) ps ->
  keyNameGetOneLevel (path_name (Some n) ps) = (path_name (Some n) ps, length n) /\
  drop (length n) (path_name (Some n) ps) = escaped_path ps.
Proof.
  intros [Hn Hps]. destruct (root_facts n Hn) as (Hn0 & En & _). simpl. split; [|apply drop_app_length].
  rewrite <- En at 1. rewrite keyNameGetOneLevel_escaped by auto with nonul. by rewrite En.
Qed.

Lemma strchr_root n ps : n ∈ namespace_roots -> strchr (n ++ escaped_path ps) SLASH = if decide (ps = []) then None else Some (escaped_path ps).
Proof.
  intros Hn. repeat (apply elem_of_cons in Hn as [->|Hn]; [by destruct ps|]). by apply elem_of_nil in Hn.
Qed.

Lemma nul_index_uname n ps h : no_nul n -> nul_index (n ++ NUL :: unescaped_bytes ps) h = Ret (length n) h.
Proof. intros Hn. unfold nul_index. by rewrite cstr_of_app. Qed.

Lemma path_name_cascading ps : ps <> [] -> path_name None ps = escaped_path ps.
Proof. by destruct ps. Qed.

(** Everything but the cascading root is below the root. *)
Lemma root_above ns ps : path_ok ns ps -> ~ (ns = None /\ ps = []) ->
  (if decide (deref (path_name ns ps) = SLASH) then true
   else if strchr (path_name ns ps) SLASH is Some _ then true else false) = bool_decide (path_below None [] ns ps).
Proof.
  intros Hok Hne. assert (path_below None [] ns ps <-> ps <> []) as Hb.
  { unfold path_below, above. split; [by intros [_ [_ ?]] ->|]. intros. split_and!; [auto|apply prefix_nil|congruence]. }
  rewrite (bool_decide_ext _ _ Hb). destruct ns as [n|].
  - rewrite decide_False by (by rewrite path_name_deref). simpl. destruct Hok as [Hn _].
    rewrite strchr_root by done. case_decide; subst; [done|]. by rewrite bool_decide_true.
  - rewrite decide_True by (by apply path_name_deref). by rewrite bool_decide_true by (by intros ->; apply Hne).
Qed.

Lemma level_not_all n ps :
  (Z.of_nat (length n) =? Z.of_nat (Datatypes.S (length (path_name (Some n) ps))))%Z = false.
Proof. apply Z.eqb_neq. simpl. rewrite length_app. lia. Qed.

Lemma keyIsBelow_paths K S lk lc ns ps ns' ps' :
  has_path K lk ns ps -> has_path K lc ns' ps' ->
  keyIsBelow (Some lk) (Some lc) (mkHeap K S) =
  Ret (if bool_decide (path_below ns ps ns' ps') then 1 else 0)%Z (mkHeap K S).
Proof.
  intros H H'. unfold keyIsBelow. erewrite key_strings_path by done. erewrite key_strings_path by done.
  destruct H as [Hok _], H' as [Hok' _]. cbn beta iota.
  rewrite (bool_decide_ext _ _ (path_name_root _ _ Hok')), (bool_decide_ext _ _ (path_name_root _ _ Hok)).
  case_bool_decide as Hr'.
  { destruct Hr' as [-> ->]. rewrite bool_decide_false; [done|]. intros [_ [[r E] Hne]]. by destruct ps. }
  case_bool_decide as Hr.
  { destruct Hr as [-> ->]. rewrite <- root_above by done. case_decide; [done|]. by destruct (strchr _ _). }
  rewrite Nat2Z.id. pose proof (proj2 Hok) as Hps. pose proof (proj2 Hok') as Hps'.
  destruct ns' as [m|], ns as [n|].
  - rewrite !decide_False by (by rewrite path_name_deref).
    pose proof (proj1 Hok) as Hn. pose proof (proj1 Hok') as Hm. rewrite below_test_rooted by done.
    rewrite (bool_decide_ext (path_below (Some n) ps (Some m) ps') (n = m /\ above ps ps')); [done|].
    unfold path_below. naive_solver.
  - rewrite decide_False, decide_True by (by rewrite path_name_deref).
    destruct (path_name_level m ps' Hok') as [-> Hd]. cbn zeta. cbn [snd]. rewrite level_not_all, Hd.
    unfold bindM. change (path_uname (Some m) ps') with (m ++ NUL :: unescaped_bytes ps').
    destruct (root_facts m (proj1 Hok')) as (Hm & _). rewrite nul_index_uname, drop_app_length, length_app by done.
    rewrite path_name_cascading by naive_solver. change (path_uname None ps) with (NUL :: unescaped_bytes ps).
    cbn [length]. replace (Z.of_nat (length m + Datatypes.S (length (unescaped_bytes ps'))) - Z.of_nat (length m))%Z
      with (Z.of_nat (Datatypes.S (length (unescaped_bytes ps')))) by lia.
    rewrite below_test_path by done.
    rewrite (bool_decide_ext (path_below None ps (Some m) ps') (above ps ps')); [done|]. unfold path_below. naive_solver.
  - rewrite decide_True, decide_False by (by rewrite path_name_deref).
    destruct (path_name_level n ps Hok) as [-> Hd]. cbn zeta. cbn [snd]. rewrite level_not_all, Hd.
    unfold bindM. change (path_uname (Some n) ps) with (n ++ NUL :: unescaped_bytes ps).
    destruct (root_facts n (proj1 Hok)) as (Hn & _). rewrite nul_index_uname, length_app by done.
    rewrite path_name_cascading by naive_solver. change (path_uname None ps') with (NUL :: unescaped_bytes ps').
    cbn [length]. replace (Z.of_nat (length n + Datatypes.S (length (unescaped_bytes ps))) - Z.of_nat (length n))%Z
      with (Z.of_nat (Datatypes.S (length (unescaped_bytes ps)))) by lia.
    rewrite below_test_path by done.
    rewrite (bool_decide_ext (path_below (Some n) ps None ps') (above ps ps')); [done|]. unfold path_below. naive_solver.
  - rewrite !decide_True by (by apply path_name_deref). rewrite !path_name_cascading by naive_solver.
    change (path_uname None ?l) with (NUL :: unescaped_bytes l). cbn [length]. rewrite below_test_path by done.
    rewrite (bool_decide_ext (path_below None ps None ps') (above ps ps')); [done|]. unfold path_below. naive_solver.
Qed.

(** ** keyIsBelowOrSame and keyIsDirectBelow *)

Lemma cstr_of_inj s t r r' : no_nul s -> no_nul t -> s ++ NUL :: r = t ++ NUL :: r' -> s = t /\ r = r'.
Proof.
  intros Hs Ht E. pose proof (cstr_of_app s Hs r) as H. rewrite E, cstr_of_app in H by done.
  injection H as ->. split; [done|]. by apply app_inv_head in E as [= ->].
Qed.

Lemma unescaped_bytes_inj ps qs :
  Forall no_nul ps -> Forall no_nul qs -> unescaped_bytes ps = unescaped_bytes qs -> ps = qs.
Proof.
  intros Hps. revert qs. induction Hps as [|p ps Hp Hps IH]; intros qs Hqs E; destruct Hqs as [|q qs Hq Hqs];
    rewrite ?unescaped_bytes_cons in E; [done|by destruct q|by destruct p|].
  apply cstr_of_inj in E as [-> E]; [|done..]. by rewrite (IH qs).
Qed.

Lemma path_uname_inj ns ps ns' ps' :
  path_ok ns ps -> path_ok ns' ps' -> path_uname ns ps = path_uname ns' ps' -> ns = ns' /\ ps = ps'.
Proof.
  assert (forall ns ps, path_ok ns ps -> no_nul (default [] ns) /\ (default [] ns = [] -> ns = None)) as Hroot.
  { intros [n|] ? [Hn _]; [|by repeat constructor]. destruct (root_facts n Hn) as (? & _ & _ & ?). done. }
  intros Hok Hok' E. destruct (Hroot _ _ Hok), (Hroot _ _ Hok').
  apply cstr_of_inj in E as [E Eu]; [|done..]. split; [|by apply unescaped_bytes_inj; [apply Hok|apply Hok'|]].
  destruct ns, ns'; simpl in *; naive_solver.
Qed.

Lemma path_name_inj ns ps ns' ps' :
  path_ok ns ps -> path_ok ns' ps' -> path_name ns ps = path_name ns' ps' -> ns = ns' /\ ps = ps'.
Proof.
  intros Hok Hok' E. apply path_uname_inj; [done..|]. by rewrite <- !path_name_uname, E.
Qed.

Lemma bindM_Ret {A B} (e : M A) (f : A -> M B) h a h' : e h = Ret a h' -> bindM e f h = f a h'.
Proof. unfold bindM. by intros ->. Qed.

Lemma keyName_path K S l ns ps :
  has_path K l ns ps -> keyName (Some l) (mkHeap K S) = Ret (Some (path_name ns ps)) (mkHeap K S).
Proof.
  intros [_ (k & Hk & Hn & _)]. unfold keyName, bindM, get_key. cbn [h_keys]. by rewrite Hk, Hn.
Qed.

Lemma keyIsBelowOrSame_paths K S lk lc ns ps ns' ps' :
  has_path K lk ns ps -> has_path K lc ns' ps' ->
  keyIsBelowOrSame (Some lk) (Some lc) (mkHeap K S) =
  Ret (if bool_decide (path_below ns ps ns' ps' \/ (ns = ns' /\ ps = ps')) then 1 else 0)%Z (mkHeap K S).
Proof.
  intros H H'. unfold keyIsBelowOrSame.
  erewrite bindM_Ret by (by eapply keyName_path). erewrite bindM_Ret by (by eapply keyName_path).
  erewrite bindM_Ret by (by eapply keyIsBelow_paths). destruct H as [Hok _], H' as [Hok' _].
  case_bool_decide as Hb; cbn [negb Z.eqb].
  - by rewrite bool_decide_true by (by left).
  - simpl default. rewrite (bool_decide_ext (path_below ns ps ns' ps' \/ _) (strcmp (path_name ns ps) (path_name ns' ps') = 0%Z)); [done|].
    rewrite strcmp_eq by (by apply no_nul_path_name). split; [|intros E; right; by apply path_name_inj].
    by intros [?|[-> ->]].
Qed.

(** The last part is the only one behind the parts of the key. *)
Lemma last_part_end r rs n :
  (Z.of_nat (n + length r) =? Z.of_nat (n + length (unescaped_bytes (r :: rs))) - 1)%Z = bool_decide (rs = []).
Proof.
  rewrite unescaped_bytes_cons, length_app. cbn [length]. case_bool_decide as E.
  - subst. apply Z.eqb_eq. change (length (unescaped_bytes [])) with 0. lia.
  - destruct rs as [|r' rs]; [done|]. apply Z.eqb_neq. rewrite unescaped_bytes_cons, length_app. cbn [length]. lia.
Qed.

Lemma last_part_found u r rs h :
  no_nul r ->
  bindM (nul_index (drop (length u) (u ++ unescaped_bytes (r :: rs)))) (fun i =>
    ret (if (Z.of_nat (length u + i) =? Z.of_nat (length (u ++ unescaped_bytes (r :: rs))) - 1)%Z then 1 else 0)%Z) h =
  Ret (if bool_decide (rs = []) then 1 else 0)%Z h.
Proof.
  intros Hr. rewrite drop_app_length, length_app. unfold bindM, nul_index.
  rewrite unescaped_bytes_cons, cstr_of_app, <- unescaped_bytes_cons by done. cbn [ret].
  by rewrite last_part_end.
Qed.

Lemma path_uname_app ns ps qs : path_uname ns (ps ++ qs) = path_uname ns ps ++ unescaped_bytes qs.
Proof. unfold path_uname. by rewrite unescaped_bytes_app, <- app_assoc. Qed.

Lemma keyIsDirectBelow_paths K S lk lc ns ps ns' ps' :
  has_path K lk ns ps -> has_path K lc ns' ps' -> (ns' = None -> ns = None) ->
  keyIsDirectBelow (Some lk) (Some lc) (mkHeap K S) =
  Ret (if bool_decide (path_below ns ps ns' ps' /\ length ps' = Datatypes.S (length ps)) then 1 else 0)%Z (mkHeap K S).
Proof.
  intros H H' Hns. unfold keyIsDirectBelow. erewrite bindM_Ret by (by eapply keyIsBelow_paths).
  case_bool_decide as Hb; cbn [Z.eqb].
  2:{ by rewrite bool_decide_false by naive_solver. }
  erewrite key_strings_path by done. erewrite key_strings_path by done. cbn beta iota zeta.
  destruct H as [Hok _], H' as [Hok' _]. destruct Hb as [Hroot (r & rs & ->)%above_spec].
  assert (length (ps ++ r :: rs) = Datatypes.S (length ps) <-> rs = []) as Hlen.
  { rewrite length_app. destruct rs; simpl; (split; intros; [done || lia|done || lia]). }
  rewrite (bool_decide_ext _ (rs = [])).
  2:{ rewrite Hlen. split; [by intros []|]. intros ->. split; [|done]. split; [done|]. apply above_spec. eauto. }
  pose proof (proj2 Hok') as [_ [Hr Hrs]%Forall_cons]%Forall_app. rewrite Nat2Z.id, path_uname_app.
  destruct ns as [n|].
  - rewrite decide_True by (by rewrite path_name_deref).
    assert (ns' = Some n) as -> by naive_solver. by apply last_part_found.
  - rewrite decide_False by (intros Hd; by apply Hd, path_name_deref). destruct ns' as [m|].
    + rewrite decide_True by (by rewrite path_name_deref).
      destruct (root_facts m (proj1 Hok')) as (Hm & _). erewrite bindM_Ret.
      2:{ unfold nul_index, path_uname. simpl default. rewrite <- app_assoc. simpl. by rewrite cstr_of_app. }
      change (path_uname (Some m) ps) with (m ++ path_uname None ps). rewrite <- length_app.
      by apply last_part_found.
    + rewrite decide_False by (intros Hd; by apply Hd, path_name_deref). by apply last_part_found.
Qed.

(** ** The contracts *)

(** C11.  [keyIsBelow] on canonical names is the prefix order of the parts: the
    checked name continues the parts of the key, in the same namespace or when
    one of the two names is cascading.  It reads nothing outside of the names. *)
Theorem keyIsBelow_prefix K S lk lc ns ps ns' ps' :
  has_path K lk ns ps -> has_path K lc ns' ps' ->
  keyIsBelow (Some lk) (Some lc) (mkHeap K S) =
  Ret (if bool_decide (path_below ns ps ns' ps') then 1 else 0)%Z (mkHeap K S).
Proof. apply keyIsBelow_paths. Qed.

(** [keyIsDirectBelow] holds exactly for a name with one part more, unless only
    the checked name is cascading (then it reads at a wrong offset). *)
Theorem keyIsDirectBelow_child K S lk lc ns ps ns' ps' :
  has_path K lk ns ps -> has_path K lc ns' ps' -> (ns' = None -> ns = None) ->
  keyIsDirectBelow (Some lk) (Some lc) (mkHeap K S) =
  Ret (if bool_decide (path_below ns ps ns' ps' /\ length ps' = Datatypes.S (length ps)) then 1 else 0)%Z (mkHeap K S).
Proof. apply keyIsDirectBelow_paths. Qed.
End Below.
