(* ===== verification/NameFacts.v ===== *)
(** * NameFacts: operations on names

    Adding, setting and reading the base name of a key with a canonical name
    are the operations on the last element of its list of parts. *)
From S2P Require Export Hierarchy.

Lemma renamed_has_path K l k ns ps :
  path_ok ns ps -> has_path (<[l := named k (path_name ns ps)]> K) l ns ps.
Proof. intros Hok. split; [done|]. eexists. split; [apply lookup_insert_eq|done]. Qed.

(** ** Paths and their last part *)

Lemma path_name_snoc ns ps p :
  path_name ns (ps ++ [p]) =
  (match ns, ps with None, [] => [] | _, _ => path_name ns ps end) ++ SLASH :: elektraEscapeKeyNamePart p.
Proof.
  assert (escaped_path [p] = SLASH :: elektraEscapeKeyNamePart p) as E by (unfold escaped_path; simpl; by rewrite app_nil_r).
  destruct ns as [n|]; simpl; [by rewrite escaped_path_app, app_assoc, E|].
  destruct ps as [|p0 ps]; [by rewrite <- E|].
  change (p0 :: ps ++ [p]) with ((p0 :: ps) ++ [p]). by rewrite escaped_path_app, E.
Qed.

Lemma path_ok_snoc ns ps p : path_ok ns (ps ++ [p]) <-> path_ok ns ps /\ no_nul p.
Proof. unfold path_ok. rewrite Forall_app, Forall_singleton. tauto. Qed.

Lemma path_ok_app ns ps qs : path_ok ns ps -> Forall no_nul qs -> path_ok ns (ps ++ qs).
Proof. intros [Hns Hps] Hqs. split; [done|]. by apply Forall_app. Qed.

Lemma path_name_not_empty ns ps : path_ok ns ps -> deref (path_name ns ps) <> NUL.
Proof.
  intros [Hns _]. destruct ns as [n|]; [|by destruct ps]. simpl.
  repeat (apply elem_of_cons in Hns as [->|Hns]; [done|]). by apply elem_of_nil in Hns.
Qed.

(** The namespace of a name does not depend on its parts. *)
Lemma path_name_namespace ns ps :
  path_ok ns ps -> keyGetNameNamespace (Some (path_name ns ps)) = keyGetNameNamespace (Some (path_name ns [])).
Proof.
  intros [Hns _]. destruct ns as [n|]; [|by destruct ps].
  destruct ps as [|p ps]; [done|]. simpl path_name. rewrite escaped_path_cons.
  repeat (apply elem_of_cons in Hns as [->|Hns]; [done|]). by apply elem_of_nil in Hns.
Qed.

(** The scan of [keySetBaseName] finds the last part. *)
Lemma search_base_path fuel name qs p acc :
  Forall no_nul (qs ++ [p]) -> length qs + 1 < fuel ->
  search_base fuel name (escaped_path (qs ++ [p])) acc =
  Some (length name - length (elektraEscapeKeyNamePart p), length (elektraEscapeKeyNamePart p) + 1).
Proof.
  revert fuel acc. induction qs as [|q qs IH]; intros fuel acc Hps Hf; (destruct fuel as [|fuel]; simpl in Hf; [lia|]).
  - cbn [app] in Hps. apply Forall_cons in Hps as [Hp _]. cbn [app search_base]. rewrite escaped_path_cons, keyNameGetOneLevel_slash.
    rewrite keyNameGetOneLevel_escaped by (done || by left).
    rewrite decide_False by (by apply deref_escape_app). rewrite drop_app_length.
    change (escaped_path []) with (@nil ascii). rewrite app_nil_r.
    destruct fuel as [|fuel]; [lia|]. done.
  - simpl in Hps. apply Forall_cons in Hps as [Hq Hqs]. cbn [app search_base].
    rewrite escaped_path_cons, keyNameGetOneLevel_slash, keyNameGetOneLevel_escaped by auto with nonul.
    rewrite decide_False by (by apply deref_escape_app). rewrite drop_app_length. apply IH; [done|lia].
Qed.

Lemma search_base_root fuel name n ps acc :
  n ∈ namespace_roots -> Forall no_nul ps ->
  search_base (Datatypes.S fuel) name (n ++ escaped_path ps) acc =
  search_base fuel name (escaped_path ps) (Some (length name - length (n ++ escaped_path ps), length n + 1)).
Proof.
  intros Hn Hps. cbn [search_base]. destruct (path_name_level n ps) as [E Ed]; [done|]. simpl in E, Ed. rewrite E.
  rewrite decide_False; [by rewrite Ed|].
  destruct (root_facts n Hn) as (Hn0 & En & _). rewrite <- En. by apply deref_escape_app.
Qed.

Lemma last_part_app p u acc : no_nul p -> last_part (reverse p ++ NUL :: u) acc = p ++ acc.
Proof.
  intros Hp. revert acc. induction p as [|c p IH] using rev_ind; intros acc; [done|].
  apply no_nul_app in Hp as [Hp Hc]. rewrite reverse_app. inversion Hc; subst. simpl.
  rewrite decide_False by done. rewrite IH by done. by rewrite <- app_assoc.
Qed.

Lemma last_part_all p acc : no_nul p -> last_part (reverse p) acc = p ++ acc.
Proof.
  intros Hp. revert acc. induction p as [|c p IH] using rev_ind; intros acc; [done|].
  apply no_nul_app in Hp as [Hp Hc]. rewrite reverse_app. inversion Hc; subst. simpl.
  rewrite decide_False by done. rewrite IH by done. by rewrite <- app_assoc.
Qed.

Lemma path_uname_end ns ps : exists x, path_uname ns ps = x ++ [NUL].
Proof.
  unfold path_uname. destruct ps as [|p ps _] using rev_ind; [by exists (default [] ns)|].
  rewrite unescaped_bytes_app. change (unescaped_bytes [p]) with ((p ++ [NUL]) ++ []). rewrite app_nil_r.
  exists (default [] ns ++ NUL :: unescaped_bytes ps ++ p). by rewrite <- app_assoc; simpl; rewrite <- app_assoc.
Qed.

Lemma base_of_path ns ps :
  path_ok ns ps ->
  base_of (S (length (path_name ns ps))) (length (path_uname ns ps)) (path_uname ns ps) = default [] (last ps).
Proof.
  intros Hok. destruct ps as [|p ps _] using rev_ind.
  - destruct ns as [n|]; [|done]. destruct (root_facts n (proj1 Hok)) as (Hn & _). unfold base_of, path_uname, path_name.
    simpl default. change (unescaped_bytes []) with (@nil ascii). change (escaped_path []) with (@nil ascii).
    rewrite app_nil_r, reverse_app. cbn [reverse rev_append app tail]. rewrite last_part_all, app_nil_r, length_app by done.
    cbn [length]. assert ((S (length n) + (length n + 1 - 1 - length n) =? length n + 1) = true) as -> by (apply Nat.eqb_eq; lia).
    done.
  - pose proof (unescaped_name_length (path_name ns (ps ++ [p]))) as Hlen. rewrite path_name_uname in Hlen by done.
    apply path_ok_snoc in Hok as [Hok Hp]. destruct (path_uname_end ns ps) as [x Ex].
    assert (path_uname ns (ps ++ [p]) = x ++ NUL :: p ++ [NUL]) as E.
    { rewrite path_uname_app, Ex. change (unescaped_bytes [p]) with ((p ++ [NUL]) ++ []).
      by rewrite app_nil_r, <- app_assoc. }
    rewrite E in *. rewrite last_snoc. unfold base_of.
    assert (last_part (tail (reverse (x ++ NUL :: p ++ [NUL]))) [] = p) as ->.
    { rewrite app_comm_cons, app_assoc, reverse_app. simpl. rewrite reverse_app, reverse_cons, <- app_assoc. simpl.
      by rewrite last_part_app, app_nil_r. }
    rewrite length_app in *. cbn [length] in *. rewrite length_app in *. cbn [length] in *.
    assert ((S (length (path_name ns (ps ++ [p]))) + (length x + S (length p + 1) - 1 - length p) =?
      length x + S (length p + 1)) = false) as -> by (apply Nat.eqb_neq; lia). done.
Qed.

Lemma search_base_name ns ps p :
  path_ok ns (ps ++ [p]) ->
  let name := path_name ns (ps ++ [p]) in
  search_base (S (length name)) name name None =
  Some (length name - length (elektraEscapeKeyNamePart p), length (elektraEscapeKeyNamePart p) + 1).
Proof.
  intros Hok name. pose proof (proj2 Hok) as Hps.
  assert (length ps + 1 <= length (escaped_path (ps ++ [p]))) as Hl.
  { pose proof (length_escaped_path _ Hps) as H. rewrite length_app in H. exact H. }
  destruct ns as [n|].
  - destruct (root_facts n (proj1 Hok)) as (_ & _ & _ & Hne).
    assert (1 <= length n) by (destruct n; [done|simpl; lia]).
    unfold name at 3. simpl path_name. rewrite search_base_root by (done || apply Hok).
    apply search_base_path; [done|]. unfold name. simpl. rewrite length_app. lia.
  - unfold name at 3. rewrite path_name_cascading by (by destruct ps). apply search_base_path; [done|].
    unfold name. rewrite path_name_cascading by (by destruct ps). lia.
Qed.

Lemma search_base_empty ns :
  path_ok ns [] ->
  search_base (S (length (path_name ns []))) (path_name ns []) (path_name ns []) None =
  match ns with Some n => Some (0, length n + 1) | None => None end.
Proof.
  intros Hok. destruct ns as [n|]; [|done]. unfold path_name at 3. rewrite search_base_root by (done || apply Hok).
  unfold path_name. change (escaped_path []) with (@nil ascii). rewrite app_nil_r, Nat.sub_diag.
  destruct (root_facts n (proj1 Hok)) as (_ & _ & _ & Hne). by destruct n.
Qed.

(** ** Adding levels *)

Lemma last_app_ne {A} (u t : list A) : t <> [] -> last (u ++ t) = last t.
Proof. intros Ht. destruct t as [|x t _] using rev_ind; [done|]. by rewrite app_assoc, !last_snoc. Qed.

Lemma last_cons_ne {A} (c : A) t : t <> [] -> last (c :: t) = last t.
Proof. apply (last_app_ne [c]). Qed.

(** The escaping doubles the backslashes at the end. *)
Lemma escape_loop_end u m k :
  last u <> Some BSLASH -> u <> [] ->
  exists t, escape_part_loop (u ++ replicate m BSLASH) k = t ++ replicate (m + m) BSLASH /\ last t <> Some BSLASH /\ t <> [].
Proof.
  revert k. induction u as [|c u IH]; intros k Hl Hne; [done|].
  destruct u as [|d u].
  - simpl in Hl. simpl. rewrite decide_False by congruence.
    assert (escape_part_loop (replicate m BSLASH) 0 = replicate (m + m) BSLASH) as E.
    { rewrite <- (app_nil_r (replicate m BSLASH)), escape_part_loop_run. simpl. unfold elektraWriteBackslashes.
      by rewrite replicate_add. }
    rewrite E. case_decide; subst.
    + exists (BSLASH :: elektraWriteBackslashes k ++ [SLASH]). split_and!; [|by rewrite app_comm_cons, last_snoc|done].
      simpl. by rewrite <- app_assoc.
    + exists [c]. split_and!; [done|simpl; congruence|done].
  - destruct (IH (S k)) as (t1 & E1 & Hl1 & Hn1); [done|done|]. destruct (IH 0) as (t0 & E0 & Hl0 & Hn0); [done|done|].
    rewrite <- app_comm_cons. cbn [escape_part_loop]. rewrite app_comm_cons in *.
    repeat case_decide; rewrite ?E1, ?E0.
    + exists (c :: t1). split_and!; [done| |done]. by rewrite last_cons_ne.
    + exists ((BSLASH :: elektraWriteBackslashes k ++ [c]) ++ t0). rewrite last_app_ne by done.
      split_and!; [|done|done]. simpl. by rewrite <- !app_assoc.
    + exists (c :: t0). split_and!; [done| |done]. by rewrite last_cons_ne.
Qed.

Definition only_backslashes (p : cstr) : Prop := p <> [] /\ Forall (eq BSLASH) p.

#[global] Instance only_backslashes_dec p : Decision (only_backslashes p).
Proof. unfold only_backslashes. apply _. Defined.

Lemma only_backslashes_replicate u m :
  last u <> Some BSLASH -> u ++ replicate m BSLASH <> [] -> only_backslashes (u ++ replicate m BSLASH) <-> u = [].
Proof.
  intros Hl Hne. unfold only_backslashes. rewrite Forall_app. split.
  - intros [_ [Hu _]]. destruct u as [|c u _] using rev_ind; [done|]. apply Forall_app in Hu as [_ Hc].
    inversion Hc as [|? ? E]; subst. by rewrite last_snoc in Hl.
  - intros ->. split_and!; [done|constructor|]. by apply Forall_replicate.
Qed.

(** The end of an escaped part: an even number of backslashes. *)
Lemma escape_end p :
  no_nul p -> exists t n, elektraEscapeKeyNamePart p = t ++ replicate n BSLASH /\ last t <> Some BSLASH /\
                          Nat.even n = true /\ (t = [] <-> only_backslashes p).
Proof.
  intros Hp. destruct (escape_part_case p Hp) as [->|n w -> Hw|n v _ _ Hne _ _ _].
  - exists (lit "%"), 0. split_and!; [done..|]. unfold only_backslashes. naive_solver.
  - exists (replicate (S n) BSLASH ++ w), 0. rewrite app_nil_r. split_and!; [done| |done|].
    + rewrite last_app. by destruct Hw as [->|[->| ->]].
    + split; [done|]. intros [_ [_ H]%Forall_app]. exfalso.
      by destruct Hw as [->|[->| ->]]; inversion H.
  - assert (exists u m, p = u ++ replicate m BSLASH /\ last u <> Some BSLASH) as (u & m & -> & Hu).
    { destruct (backslash_run (reverse p)) as (m & u & E & Ht). exists (reverse u), m.
      apply (f_equal reverse) in E. rewrite reverse_involutive, reverse_app, reverse_replicate in E. split; [done|].
      rewrite last_reverse. destruct u; simpl in *; congruence. }
    pose proof (only_backslashes_replicate u m Hu Hne) as Hob. destruct u as [|c u].
    + exists [], (m + m). split_and!; [|done|apply even_double|by rewrite Hob]. simpl.
      rewrite <- (app_nil_r (replicate m BSLASH)), escape_part_loop_run. simpl. unfold elektraWriteBackslashes. by rewrite replicate_add.
    + destruct (escape_loop_end (c :: u) m 0) as (t & E & Ht & Hn); [done|done|].
      exists t, (m + m). split_and!; [done|done|apply even_double|by rewrite Hob].
Qed.

(** A path as [keyAddName] takes it: without the separator at its start. *)
Definition relative_path (qs : list cstr) : cstr := tail (escaped_path qs).

Definition single_backslashes (qs : list cstr) : Prop :=
  match qs with [p] => only_backslashes p | _ => False end.

#[global] Instance single_backslashes_dec qs : Decision (single_backslashes qs).
Proof. destruct qs as [|p [|q qs]]; simpl; apply _. Defined.

Lemma relative_path_cons q qs : relative_path (q :: qs) = elektraEscapeKeyNamePart q ++ escaped_path qs.
Proof. unfold relative_path. by rewrite escaped_path_cons. Qed.

(** Validation accepts every canonical path, but for a single part of nothing
    but backslashes: it does not look at the first character. *)
Lemma validate_relative q qs :
  Forall no_nul (q :: qs) ->
  elektraValidateKeyName (relative_path (q :: qs)) (S (length (relative_path (q :: qs)))) =
  negb (bool_decide (single_backslashes (q :: qs))).
Proof.
  intros Hqs. destruct (exists_last (l := q :: qs)) as (rs & p & E); [done|]. rewrite E in *.
  apply Forall_app in Hqs as [Hrs [Hp _]%Forall_cons]. destruct (escape_end p Hp) as (t & n & Et & Ht & Hn & Htp).
  destruct (escape_nonempty p Hp) as (d & r & Ed & _).
  destruct rs as [|r0 rs]; cbn [app] in *.
  - rewrite relative_path_cons. change (escaped_path []) with (@nil ascii). rewrite app_nil_r, Et in *.
    rewrite validate_trailing_backslashes by congruence. cbn [single_backslashes].
    destruct t as [|c t].
    + rewrite bool_decide_true by (by apply Htp). destruct n as [|n]; [done|]. rewrite Nat.even_succ in Hn.
      simpl. rewrite Nat.sub_0_r, <- Nat.negb_odd, Hn. done.
    + rewrite bool_decide_false; [done|]. by intros ?%Htp.
  - rewrite (bool_decide_false (single_backslashes _)) by (destruct rs; intros []).
    assert (relative_path (r0 :: rs ++ [p]) = (relative_path (r0 :: rs) ++ SLASH :: t) ++ replicate n BSLASH) as ->.
    { rewrite !relative_path_cons, escaped_path_app, <- !app_assoc. do 2 f_equal.
      unfold escaped_path. simpl. by rewrite app_nil_r, Et. }
    rewrite validate_trailing_backslashes.
    + by destruct (relative_path (r0 :: rs)).
    + rewrite last_app_ne by done. destruct t as [|c t]; [done|]. by rewrite last_cons_ne.
    + by destruct (relative_path (r0 :: rs)).
Qed.

Lemma escape_not_dots p :
  no_nul p -> elektraEscapeKeyNamePart p <> lit "." /\ elektraEscapeKeyNamePart p <> lit "..".
Proof.
  intros Hp. assert (forall w, elektraEscapeKeyNamePart p = w -> w = lit "." \/ w = lit ".." -> False) as H.
  { intros w E Hw. pose proof (unescape_level_escaped p [] Hp) as Hl.
    rewrite E, app_nil_r in Hl. specialize (Hl ltac:(constructor) ltac:(by left)).
    assert (w ++ [NUL] = p ++ [NUL]) as [-> _]%app_inj_tail by (by destruct Hw as [-> | ->]).
    by destruct Hw as [-> | ->]. }
  split; intros E; by eapply H; eauto.
Qed.

(** One step of the loop of [keyAddName], at a canonical level. *)
Lemma add_name_step fuel c p qs avoid :
  Forall no_nul (p :: qs) ->
  add_name_loop (S fuel) c (relative_path (p :: qs)) avoid =
  add_name_loop fuel (c ++ (if avoid then [] else [SLASH]) ++ elektraEscapeKeyNamePart p) (escaped_path qs) false.
Proof.
  intros [Hp Hqs]%Forall_cons. rewrite relative_path_cons. cbn [add_name_loop].
  rewrite keyNameGetOneLevel_escaped by auto using no_nul_path, part_end_path.
  rewrite decide_False by (by apply deref_escape_app). rewrite take_app_length, drop_app_length.
  destruct (escape_not_dots p Hp) as [H1 H2].
  assert (forall w, elektraEscapeKeyNamePart p <> w -> no_nul w ->
    (length (elektraEscapeKeyNamePart p) =? length w) &&
    bool_decide (strncmp (elektraEscapeKeyNamePart p ++ escaped_path qs) w (length w) = 0%Z) = false) as H.
  { intros w Hw Hnw. destruct (Nat.eqb_spec (length (elektraEscapeKeyNamePart p)) (length w)) as [E|]; [|done].
    apply bool_decide_false. rewrite strncmp_zero_iff by done. rewrite <- E, take_app_length, E, firstn_all. tauto. }
  pose proof (H (lit ".") H1 ltac:(by repeat constructor)) as E1.
  pose proof (H (lit "..") H2 ltac:(by repeat constructor)) as E2. cbn [length lit String.list_ascii_of_string] in E1, E2.
  unfold lit. cbn [String.list_ascii_of_string]. by rewrite E1, E2.
Qed.

Lemma add_name_path fuel c qs :
  Forall no_nul qs -> length qs < fuel -> add_name_loop fuel c (escaped_path qs) false = c ++ escaped_path qs.
Proof.
  revert fuel c. induction qs as [|p qs IH]; intros fuel c Hqs Hf; (destruct fuel as [|fuel]; simpl in Hf; [lia|]).
  { simpl. by rewrite app_nil_r. }
  assert (add_name_loop (S fuel) c (escaped_path (p :: qs)) false =
          add_name_loop (S fuel) c (relative_path (p :: qs)) false) as ->.
  { cbn [add_name_loop]. by rewrite escaped_path_cons, keyNameGetOneLevel_slash, relative_path_cons. }
  rewrite add_name_step by done. apply Forall_cons in Hqs as [_ Hqs]. rewrite IH by (done || lia).
  by rewrite escaped_path_cons, <- !app_assoc.
Qed.

Lemma length_relative_path q qs : Forall no_nul (q :: qs) -> length qs < length (relative_path (q :: qs)).
Proof.
  intros [Hq Hqs]%Forall_cons. rewrite relative_path_cons, length_app.
  pose proof (length_escaped_path _ Hqs). destruct (escape_nonempty q Hq) as (c & r & -> & _). simpl. lia.
Qed.

(** The content [keyAddName] writes: the parts of both paths. *)
Lemma keyAddName_content_path ns ps q qs :
  path_ok ns ps -> Forall no_nul (q :: qs) ->
  keyAddName_content (path_name ns ps) (relative_path (q :: qs)) = path_name ns (ps ++ q :: qs).
Proof.
  intros Hok Hqs. unfold keyAddName_content. rewrite add_name_step by done.
  pose proof (length_relative_path _ _ Hqs). apply Forall_cons in Hqs as [Hq Hqs'].
  rewrite add_name_path by (done || lia).
  assert (bool_decide (deref (path_name ns ps) = SLASH) && (S (length (path_name ns ps)) =? 2) =
          bool_decide (ns = None /\ ps = [])) as ->.
  { rewrite (bool_decide_ext _ _ (path_name_deref ns ps Hok)). destruct ns as [n|].
    { by rewrite (bool_decide_false (Some n = None)), bool_decide_false by naive_solver. }
    destruct ps as [|p ps]; [done|]. rewrite (bool_decide_false (None = None /\ _)) by naive_solver.
    rewrite path_name_cascading, escaped_path_cons, length_cons, length_app by done. apply proj2, Forall_cons in Hok as [Hp _].
    by destruct (escape_nonempty p Hp) as (c & r & -> & _). }
  destruct (decide (ns = None /\ ps = [])) as [[-> ->]|Hroot].
  - rewrite bool_decide_true by done. simpl. by rewrite escaped_path_cons.
  - rewrite bool_decide_false by done. rewrite <- app_assoc. simpl app.
    destruct ns as [n|]; [|destruct ps as [|p ps]; [naive_solver|]]; simpl path_name.
    + by rewrite escaped_path_app, escaped_path_cons, <- app_assoc.
    + change (p :: ps ++ q :: qs) with ((p :: ps) ++ q :: qs). by rewrite escaped_path_app, escaped_path_cons.
Qed.

Lemma not_only_slashes p rest :
  no_nul p -> elektraOnlySlashes (SLASH :: elektraEscapeKeyNamePart p ++ rest) = false.
Proof.
  intros Hp. destruct (escape_nonempty p Hp) as (c & r & -> & Hc & _). unfold elektraOnlySlashes. simpl.
  by rewrite bool_decide_false.
Qed.

(** Setting a canonical name, after the switch. *)
Lemma set_name_rest_rooted n q qs :
  n ∈ namespace_roots -> Forall no_nul (q :: qs) ->
  set_name_rest (path_name (Some n) (q :: qs)) (S (length n)) (S (length n)) =
  if decide (single_backslashes (q :: qs)) then None else Some (path_name (Some n) (q :: qs)).
Proof.
  intros Hn Hqs. pose proof (length_relative_path _ _ Hqs) as Hlen.
  destruct (root_facts n Hn) as (Hn0 & _ & _ & Hne).
  pose proof (keyAddName_content_path (Some n) [] q qs (conj Hn (Forall_nil_2 _)) Hqs) as Hc.
  simpl path_name in Hc. rewrite app_nil_r in Hc. simpl path_name.
  rewrite escaped_path_cons, <- relative_path_cons in *.
  unfold set_name_rest. rewrite !length_app, Nat.sub_succ, Nat.sub_0_r, take_app_length, drop_app_length. cbn [length].
  assert (drop (S (length n)) (n ++ SLASH :: relative_path (q :: qs)) = relative_path (q :: qs)) as ->.
  { rewrite drop_app, drop_ge by lia. by replace (S (length n) - length n) with 1 by lia. }
  rewrite (proj2 (Nat.eqb_neq (S (length n + S (length (relative_path (q :: qs))))) (S (length n)))) by lia.
  rewrite relative_path_cons, not_only_slashes by (by apply Forall_cons in Hqs as [? _]). cbn [orb].
  rewrite <- relative_path_cons, validate_relative, bool_decide_false by (by destruct Hn0).
  rewrite Hc. by case_bool_decide; [rewrite decide_True|rewrite decide_False].
Qed.

Lemma set_name_rest_cascading q qs :
  Forall no_nul (q :: qs) ->
  set_name_rest (path_name None (q :: qs)) 2 1 =
  if decide (single_backslashes (q :: qs)) then None else Some (path_name None (q :: qs)).
Proof.
  intros Hqs. pose proof (length_relative_path _ _ Hqs) as Hlen.
  pose proof (keyAddName_content_path None [] q qs (conj I (Forall_nil_2 _)) Hqs) as Hc.
  simpl path_name in *. rewrite escaped_path_cons, <- relative_path_cons in *.
  unfold set_name_rest. cbn [length Nat.sub]. rewrite ?firstn_cons, ?skipn_cons, ?drop_0, ?take_0.
  rewrite (proj2 (Nat.eqb_neq _ 1)), (proj2 (Nat.eqb_neq _ 2)) by lia.
  rewrite relative_path_cons, not_only_slashes by (by apply Forall_cons in Hqs as [? _]). cbn [orb].
  rewrite <- relative_path_cons, validate_relative, bool_decide_false by done.
  rewrite Hc. by case_bool_decide; [rewrite decide_True|rewrite decide_False].
Qed.

Lemma set_name_rest_root n :
  n <> [] -> set_name_rest (path_name (Some n) []) (S (length n)) (S (length n)) = Some (path_name (Some n) []).
Proof.
  intros Hn. unfold set_name_rest, path_name. change (escaped_path []) with (@nil ascii).
  by rewrite app_nil_r, Nat.eqb_refl, Nat.sub_succ, Nat.sub_0_r, firstn_all.
Qed.

(** ** The operations *)

Section Names.
Context {R : Rec} (K : gmap loc Key) (S : gmap loc KeySet) (l : loc) (k : Key).
Context (Hk : K !! l = Some k).

(** [keyAddBaseName] appends a part to the name, whatever characters it has:
    only the name of the key changes. *)
Theorem keyAddBaseName_appends ns ps base :
  has_path K l ns ps -> test_bit (k_flags k) KEY_FLAG_RO_NAME = false -> no_nul base ->
  wp (keyAddBaseName (Some l) (Some base))
     (fun r h => h = mkHeap (<[l := named k (path_name ns (ps ++ [base]))]> K) S /\
                 has_path (h_keys h) l ns (ps ++ [base]) /\
                 r = Z.of_nat (Datatypes.S (length (path_name ns (ps ++ [base]))))) (mkHeap K S).
Proof.
  intros (Hok & k' & Hk' & Hn & _) Hro Hb. simplify_eq. unfold keyAddBaseName. wstep. rewrite Hro, Hn.
  assert ((if bool_decide (strcmp (path_name ns ps) (lit "/") = 0%Z) then path_name ns ps ++ elektraEscapeKeyNamePart base
           else path_name ns ps ++ [SLASH] ++ elektraEscapeKeyNamePart base) = path_name ns (ps ++ [base])) as ->.
  { rewrite path_name_snoc, (bool_decide_ext _ _ (path_name_root ns ps Hok)).
    case_bool_decide as E; [by destruct E as [-> ->]|]. destruct ns; [done|]. by destruct ps; [destruct E|]. }
  eapply elektraFinalizeName_spec; [done|]. split_and!; [done| |done].
  apply renamed_has_path, path_ok_snoc. done.
Qed.

(** [keySetBaseName] replaces the last part of the name; a name of nothing but
    a namespace or the root has none and is refused. *)
Theorem keySetBaseName_replaces ns ps base :
  has_path K l ns ps -> test_bit (k_flags k) KEY_FLAG_RO_NAME = false -> no_nul base ->
  wp (keySetBaseName (Some l) (Some base))
     (fun r h => if decide (ps = []) then r = (-1)%Z /\ h = mkHeap K S
                 else let qs := removelast ps ++ [base] in
                      h = mkHeap (<[l := named k (path_name ns qs)]> K) S /\
                      has_path (h_keys h) l ns qs /\ r = Z.of_nat (Datatypes.S (length (path_name ns qs)))) (mkHeap K S).
Proof.
  intros (Hok & k' & Hk' & Hn & _) Hro Hb. simplify_eq. unfold keySetBaseName. wstep. rewrite Hro, Hn.
  destruct ps as [|p ps _] using rev_ind.
  - rewrite search_base_empty by done. by destruct ns; apply wp_ret.
  - rewrite (search_base_name ns ps p) by done. rewrite path_name_snoc.
    set (pre := match ns, ps with None, [] => [] | _, _ => path_name ns ps end).
    rewrite length_app. cbn [length].
    replace (length pre + Datatypes.S (length (elektraEscapeKeyNamePart p)) - length (elektraEscapeKeyNamePart p))
      with (Datatypes.S (length pre)) by lia. cbn iota zeta.
    replace (Datatypes.S (length pre + Datatypes.S (length (elektraEscapeKeyNamePart p))) -
               (length (elektraEscapeKeyNamePart p) + 1) - 1) with (length pre) by lia.
    rewrite take_app_length.
    assert (pre ++ [SLASH] ++ elektraEscapeKeyNamePart base = path_name ns (ps ++ [base])) as -> by (by rewrite path_name_snoc).
    eapply elektraFinalizeName_spec; [done|]. rewrite decide_False by (by destruct ps). rewrite removelast_last.
    split_and!; [done| |done]. apply path_ok_snoc in Hok as [Hok _]. by apply renamed_has_path, path_ok_snoc.
Qed.

(** [keyAddName] appends a whole relative path.  It refuses, and changes
    nothing, when the path is a single part of backslashes only. *)
Theorem keyAddName_appends ns ps qs :
  has_path K l ns ps -> test_bit (k_flags k) KEY_FLAG_RO_NAME = false -> Forall no_nul qs -> qs <> [] ->
  wp (keyAddName (Some l) (Some (relative_path qs)))
     (fun r h => if decide (single_backslashes qs) then r = (-1)%Z /\ h = mkHeap K S
                 else h = mkHeap (<[l := named k (path_name ns (ps ++ qs))]> K) S /\
                      has_path (h_keys h) l ns (ps ++ qs) /\ r <> (-1)%Z) (mkHeap K S).
Proof.
  intros (Hok & k' & Hk' & Hn & _) Hro Hqs Hne. simplify_eq. destruct qs as [|q qs]; [done|].
  pose proof (length_relative_path _ _ Hqs) as Hlen.
  eapply keyAddName_spec; [done..| |by intros E; rewrite E in Hlen; simpl in Hlen; lia|].
  { by apply path_name_not_empty. }
  rewrite validate_relative by done. case_bool_decide as E; cbn [negb]; [by rewrite decide_True|].
  intros r Hr. rewrite decide_False by done. rewrite keyAddName_content_path by done. split_and!; [done| |done].
  apply renamed_has_path. by apply path_ok_app.
Qed.

Lemma keySetName_path_spec {HR : RecLaws R} ns ps :
  path_ok ns ps -> k_meta k = None -> test_bit (k_flags k) KEY_FLAG_RO_NAME = false ->
  wp (keySetName (Some l) (Some (path_name ns ps)))
     (fun r h => if decide (single_backslashes ps)
                 then r = (-1)%Z /\ h = mkHeap (<[l := set_name k None []]> K) S
                 else h = mkHeap (<[l := named (set_name k None []) (path_name ns ps)]> K) S /\
                      has_path (h_keys h) l ns ps /\ r <> (-1)%Z) (mkHeap K S).
Proof.
  intros Hok Hm Hro. unfold keySetName, elektraKeySetName, elektraRemoveKeyName.
  match goal with |- wp _ ?Q _ => set (post := Q) end. wstep. rewrite Hro. wsteps.
  change (test_bit 0 KEY_META_NAME) with false. apply wp_bind.
  eapply rec_keySetOwner_plain; [apply lookup_insert_eq|done|]. intros r.
  assert (forall a b, (forall c, path_name ns ps !! (b - 1) = Some c -> c = SLASH) -> 0 < b ->
    set_name_rest (path_name ns ps) a b = (if decide (single_backslashes ps) then None else Some (path_name ns ps)) ->
    wp (elektraSetNameRest l (path_name ns ps) a b) post (mkHeap (<[l := set_name k None []]> K) S)) as Hrest.
  { intros a b Hb Hb0 E. eapply elektraSetNameRest_spec; [apply lookup_insert_eq|done|done|done|].
    rewrite E. unfold post. case_decide; rewrite insert_insert_eq; [done|]. intros r' Hr.
    split_and!; [done| |done]. by apply renamed_has_path. }
  rewrite path_name_namespace by done. destruct ns as [n|].
  - assert (wp (elektraSetNameRest l (path_name (Some n) ps) (Datatypes.S (length n)) (Datatypes.S (length n)))
      post (mkHeap (<[l := set_name k None []]> K) S)) as H.
    { apply Hrest; [|lia|].
      + intros c. rewrite Nat.sub_succ, Nat.sub_0_r. simpl. rewrite lookup_app_r, Nat.sub_diag by done.
        by destruct ps; simpl; intros [= <-].
      + destruct ps; [by apply set_name_rest_root, (root_facts n), Hok|]. by apply set_name_rest_rooted; apply Hok. }
    destruct Hok as [Hn _].
    repeat (apply elem_of_cons in Hn as [->|Hn]; [first [exact H|by destruct ps; apply wp_bind, wp_ret]|]).
    by apply elem_of_nil in Hn.
  - apply Hrest; [|lia|].
    + intros c. by destruct ps; simpl; intros [= <-].
    + destruct ps; [done|]. by apply set_name_rest_cascading, Hok.
Qed.

(** C33.  [keySetName] gives a key any canonical name of the five namespaces or of
    the cascading one.  A name with one part, of backslashes only, is refused,
    and the key has no name then. *)
Theorem keySetName_path {HR : RecLaws R} ns ps :
  path_ok ns ps -> k_meta k = None -> test_bit (k_flags k) KEY_FLAG_RO_NAME = false ->
  wp (keySetName (Some l) (Some (path_name ns ps)))
     (fun r h => if decide (single_backslashes ps)
                 then r = (-1)%Z /\ h = mkHeap (<[l := set_name k None []]> K) S
                 else h = mkHeap (<[l := named (set_name k None []) (path_name ns ps)]> K) S /\
                      has_path (h_keys h) l ns ps /\ r <> (-1)%Z) (mkHeap K S).
Proof. apply keySetName_path_spec. Qed.

(** [keyBaseName] is the last part, and empty for a namespace or the root. *)
Theorem keyBaseName_last ns ps :
  has_path K l ns ps ->
  keyBaseName (Some l) (mkHeap K S) = Ret (Some (default [] (last ps))) (mkHeap K S).
Proof.
  intros (Hok & k' & Hk' & Hn & Hu). simplify_eq. unfold keyBaseName, bindM, get_key. cbn [h_keys]. rewrite Hk, Hn.
  unfold ret, keySize, keyUSize. rewrite Hn, Hu, path_name_uname by done. do 2 f_equal.
  by apply base_of_path.
Qed.
End Names.
