(* ===== verification/CutFacts.v ===== *)
(** * CutFacts: cutting a keyset

    [ksCut] at a key takes exactly the keys at and below it out of a sorted
    keyset: they are neighbours, because the order of keysets keeps
    hierarchies together.  The internal cursor stays on its key. *)
From S2P Require Export Hierarchy.

(** ** Neighbours *)

Lemma unescaped_prefix ps qs :
  Forall no_nul ps -> Forall no_nul qs -> unescaped_bytes ps `prefix_of` unescaped_bytes qs -> ps `prefix_of` qs.
Proof.
  intros Hps. revert qs. induction Hps as [|p ps Hp Hps IH]; intros qs Hqs [s E]; [apply prefix_nil|].
  rewrite unescaped_bytes_cons, <- app_assoc in E. destruct Hqs as [|q qs Hq Hqs]; [by destruct p|].
  rewrite unescaped_bytes_cons in E. apply cstr_of_inj in E as [-> E]; [|done..].
  apply prefix_cons, IH; [done|]. by exists s.
Qed.

Lemma prefix_unescaped ps qs : ps `prefix_of` qs -> unescaped_bytes ps `prefix_of` unescaped_bytes qs.
Proof. intros [r ->]. rewrite unescaped_bytes_app. by exists (unescaped_bytes r). Qed.

(** Below or same, in a namespace. *)
Definition in_subtree (n : cstr) (ps : list cstr) (m : cstr) (qs : list cstr) : Prop := n = m /\ ps `prefix_of` qs.

Lemma in_subtree_below n ps m qs :
  path_below (Some n) ps (Some m) qs \/ (Some n = Some m /\ ps = qs) <-> in_subtree n ps m qs.
Proof.
  unfold path_below, above, in_subtree. split.
  - intros [[H [Hp _]]|[[= ->] ->]]; [|done]. split; [|done]. by destruct H as [[= ->]|[?|?]].
  - intros [-> Hp]. destruct (decide (ps = qs)) as [->|]; [by right|left]. auto.
Qed.

Lemma in_subtree_uname n ps m qs :
  path_ok (Some n) ps -> path_ok (Some m) qs ->
  in_subtree n ps m qs <-> path_uname (Some n) ps `prefix_of` path_uname (Some m) qs.
Proof.
  intros [Hn Hps] [Hm Hqs]. unfold path_uname, in_subtree. simpl default. split.
  - intros [-> Hp]. apply prefix_app, prefix_cons. by apply prefix_unescaped.
  - intros [s E]. rewrite <- app_assoc in E. simpl in E.
    destruct (root_facts n Hn) as [Hn0 _], (root_facts m Hm) as [Hm0 _].
    apply cstr_of_inj in E as [-> E]; [|done..]. split; [done|].
    apply unescaped_prefix; [done..|]. by exists s.
Qed.

(** ** Scanning *)

(** The number of elements at the beginning of the list that satisfy [p]. *)
Fixpoint span_len {A} (p : A -> bool) (l : list A) : nat :=
  match l with x :: r => if p x then S (span_len p r) else 0 | [] => 0 end.

(** The elements that satisfy [p] are neighbours. *)
Definition neighbours {A} (p : A -> bool) (l : list A) : Prop :=
  forall i j k x y z, i <= j -> j <= k -> l !! i = Some x -> l !! j = Some y -> l !! k = Some z ->
    p x = true -> p z = true -> p y = true.

Lemma span_split {A} (p : A -> bool) (l : list A) :
  exists a b, l = a ++ b /\ span_len p l = length a /\ Forall (fun x => p x = true) a /\
    (forall x r, b = x :: r -> p x = false).
Proof.
  induction l as [|x l (a & b & -> & E & Ha & Hb)]; [by exists [], []|]. simpl. destruct (p x) eqn:Ex.
  - exists (x :: a), b. rewrite E. split_and!; [done|done|by constructor|done].
  - exists [], (x :: a ++ b). split_and!; [done|done|done|]. by intros ?? [= -> _].
Qed.

Lemma filter_all {A} (p : A -> bool) l : Forall (fun x => p x = true) l -> List.filter p l = l.
Proof. induction 1 as [|x l Hx _ IH]; simpl; [done|]. by rewrite Hx, IH. Qed.

Lemma filter_none {A} (p : A -> bool) l : Forall (fun x => p x = false) l -> List.filter p l = [].
Proof. induction 1 as [|x l Hx _ IH]; simpl; [done|]. by rewrite Hx. Qed.

(** The neighbours in the middle. *)
Lemma neighbours_split {A} (p : A -> bool) l :
  neighbours p l ->
  exists a b c, l = a ++ b ++ c /\ span_len (fun x => negb (p x)) l = length a /\
    span_len p (b ++ c) = length b /\ List.filter p l = b /\ List.filter (fun x => negb (p x)) l = a ++ c /\
    (b = [] -> c = []).
Proof.
  intros Hn. destruct (span_split (fun x => negb (p x)) l) as (a & bc & -> & Ea & Ha & Hbc).
  destruct (span_split p bc) as (b & c & -> & Eb & Hb & Hc).
  assert (Forall (fun x => p x = false) a) as Ha' by (eapply Forall_impl; [exact Ha|]; intros x; simpl; by destruct (p x)).
  assert (Forall (fun x => p x = false) c) as Hc'.
  { apply Forall_lookup_2. intros k z Hz. destruct (p z) eqn:Ez; [|done]. destruct b as [|x b].
    - destruct c as [|y c]; [done|]. pose proof (Hbc y c eq_refl) as H1. pose proof (Hc y c eq_refl) as H2. by rewrite H2 in H1.
    - destruct c as [|y c]; [done|]. pose proof (Hc y c eq_refl) as Hy. inversion Hb as [|?? Hx _]; subst.
      rewrite <- Hy. symmetry. apply (Hn (length a) (length a + length (x :: b)) (length a + length (x :: b) + k) x y z); [lia|lia|..].
      + by rewrite lookup_app_r, Nat.sub_diag by lia.
      + rewrite lookup_app_r, Nat.add_sub', lookup_app_r, Nat.sub_diag by lia. done.
      + rewrite lookup_app_r, lookup_app_r by lia. rewrite <- Hz. f_equal. lia.
      + done.
      + done. }
  exists a, b, c. split_and!; [done|done|done| | |].
  - rewrite !List.filter_app, (filter_none p a), (filter_all p b), (filter_none p c) by done. by rewrite app_nil_r.
  - rewrite !List.filter_app, (filter_all _ a), (filter_none _ b), (filter_all _ c); [done|..].
    + eapply Forall_impl; [exact Hc'|]. by intros x ->.
    + eapply Forall_impl; [exact Hb|]. by intros x ->.
    + done.
  - intros ->. destruct c as [|y c]; [done|]. pose proof (Hbc y c eq_refl) as H1.
    pose proof (Hc y c eq_refl) as H2. by rewrite H2 in H1.
Qed.

(** ** The heap *)

Section Cut.
Context {R : Rec}.

Lemma cut_scan_spec K S l s ls c want (p : loc -> bool) fuel it Q :
  S !! l = Some s -> ks_rep s ls ->
  (forall x, x ∈ ls -> keyIsBelowOrSame (Some c) (Some x) (mkHeap K S) = Ret (if p x then 1 else 0)%Z (mkHeap K S)) ->
  (want = 0 \/ want = 1)%Z -> length ls - it < fuel ->
  Q (it + span_len (fun x => Bool.eqb (p x) (want =? 1)%Z) (drop it ls)) (mkHeap K S) ->
  wp (cut_scan fuel l (Some c) want it) Q (mkHeap K S).
Proof.
  intros Hs Hrep Hp Hw. revert it. induction fuel as [|fuel IH]; intros it Hf HQ; [lia|].
  cbn [cut_scan]. wstep. rewrite (rep_size _ _ Hrep). destruct (Nat.ltb_spec it (length ls)) as [Hlt|Hge].
  - destruct (lookup_lt_is_Some_2 ls it Hlt) as [x Hx]. rewrite (rep_get _ _ _ _ Hrep Hx). wstep.
    apply wp_bind. eapply wp_run; [apply Hp; by eapply list_elem_of_lookup_2|].
    rewrite (drop_S _ _ _ Hx) in HQ. cbn [span_len] in HQ.
    assert (((if p x then 1 else 0) =? want)%Z = Bool.eqb (p x) (want =? 1)%Z) as ->
      by (destruct (p x), Hw; subst; done).
    destruct (Bool.eqb _ _); [|by rewrite Nat.add_0_r in HQ; apply wp_ret].
    apply IH; [lia|]. by rewrite Nat.add_succ_r in HQ.
  - apply wp_ret. rewrite drop_ge, Nat.add_0_r in HQ by lia. done.
Qed.

(** The new cursor and whether it is set after the keys moved. *)
Definition cursor_cut (s : KeySet) (f it : nat) : bool * ptr * nat :=
  let cur := ks_current s in
  if (f <=? cur) && (cur <? it) then if f =? 0 then (false, None, 0) else (true, ks_cursor s, f - 1)
  else if it <=? cur then if ks_size s <=? it then (false, None, 0) else (true, ks_cursor s, f + cur - it)
  else (false, ks_cursor s, cur).

Lemma cut_cursor_spec K S l s f it Q :
  S !! l = Some s -> f < it ->
  (let '(b, c, i) := cursor_cut s f it in Q b (mkHeap K (<[l := ks_with_cursor s c i]> S))) ->
  wp (cut_cursor l f it) Q (mkHeap K S).
Proof.
  intros Hs Hlt HQ. unfold cut_cursor, cursor_cut in *. wstep.
  assert (ks_with_cursor s (ks_cursor s) (ks_current s) = s) as Hid by (by destruct s).
  destruct ((f <=? ks_current s) && (ks_current s <? it)).
  - destruct (Nat.eqb_spec f 0) as [->|Hf].
    + apply wp_assoc, wp_bind. eapply ksRewind_spec; [done|]. wsteps. simpl.
      destruct (Nat.leb_spec it 0); [lia|]. by apply wp_ret.
    + wsteps. simpl. destruct (Nat.leb_spec it (f - 1)); [lia|]. by apply wp_ret.
  - wsteps. destruct (it <=? ks_current s).
    + destruct (ks_size s <=? it).
      * apply wp_bind. eapply ksRewind_spec; [done|]. by apply wp_ret.
      * wsteps. done.
    + apply wp_ret. by rewrite Hid, insert_id in HQ.
Qed.

Lemma ksNew_empty_spec K S n Q :
  (forall s, ks_rep s [] -> n < ks_alloc s -> ks_cursor s = None ->
     Q (fresh_loc S) (mkHeap K (<[fresh_loc S := s]> S))) ->
  wp (ksNew n []) Q (mkHeap K S).
Proof.
  intros HQ. unfold ksNew, ksVNew, ksNewEmpty, ksInit, ksRewind. wsteps.
  set (a := if Datatypes.S n <? KEYSET_SIZE then KEYSET_SIZE else Datatypes.S n).
  assert (Datatypes.S n <= a /\ KEYSET_SIZE <= a) as [Hn Hmin].
  { unfold a. destruct (Nat.ltb_spec (Datatypes.S n) KEYSET_SIZE); lia. }
  assert (0 < a) by lia.
  erewrite array_set_ok by (done || by rewrite length_replicate). wsteps.
  destruct (Datatypes.S n =? 1); cbn [va_append]; wsteps; rewrite !insert_insert_eq; (apply HQ; [|simpl; lia|done]).
  all: destruct a as [|a]; [lia|]; split; [split|]; simpl; [|lia|done|done].
  all: exists (Some None :: replicate a None); simpl; rewrite length_replicate; by split_and!.
Qed.

Lemma cut_copy_spec s r a b c :
  ks_rep s (a ++ b ++ c) -> ks_rep r [] -> length b < ks_alloc r ->
  exists r', cut_copy s r (length a) (length b) = ret r' /\ ks_rep r' b /\ ks_cursor r' = ks_cursor r.
Proof.
  intros [[(rest & Ea & El & _) Hroom _] _] [[(rest' & Er & El' & _) Hroom' Hmin] _] Hb. unfold cut_copy. rewrite Ea, Er.
  simpl in El'. rewrite !length_app in *.
  assert ((length a + length b <=? length (cells (a ++ b ++ c)) + length rest) = true) as ->
    by (apply Nat.leb_le; rewrite length_cells, !length_app; lia).
  simpl. assert ((length b <=? length rest') = true) as -> by (apply Nat.leb_le; lia).
  assert (take (length b) (drop (length a) (cells (a ++ b ++ c) ++ rest)) = cells b) as ->.
  { rewrite !cells_app, <- !app_assoc. rewrite <- (length_cells a), drop_app_length, <- (length_cells b).
    apply take_app_length. }
  assert (exists t rest2, drop (length b) rest' = t :: rest2) as (t & rest2 & Ed).
  { destruct (drop (length b) rest') eqn:E; [|eauto]. apply (f_equal length) in E. rewrite length_drop in E. simpl in E. lia. }
  rewrite Ed. assert (length rest2 + S (length b) = length rest').
  { apply (f_equal length) in Ed. rewrite length_drop in Ed. simpl in Ed. lia. }
  eexists. split; [unfold bindM; simpl; erewrite array_set_ok; [reflexivity|done|]|].
  { simpl. rewrite length_app, length_cells. simpl. lia. }
  split; [|done]. split; [split|]; simpl; [|lia|done|done].
  exists (Some None :: rest2). rewrite insert_app_r_alt, length_cells, Nat.sub_diag by (by rewrite length_cells).
  simpl. split_and!; [done|lia|done].
Qed.

(** Moving [c] down over [b]. *)
Lemma shift_down {X} (a b c rest : list X) (x : X) :
  b <> [] -> exists t, length t + 1 = length b + length rest /\
  <[length a + length c := x]>
    (take (length a) (a ++ b ++ c ++ rest) ++
     take (length c) (drop (length a + length b) (a ++ b ++ c ++ rest)) ++
     drop (length a + length c) (a ++ b ++ c ++ rest)) = a ++ c ++ x :: t.
Proof.
  intros Hb. rewrite take_app_length, <- drop_drop, drop_app_length, drop_app_length, take_app_length.
  assert (exists y t, drop (length a + length c) (a ++ b ++ c ++ rest) = y :: t /\ length t + 1 = length b + length rest)
    as (y & t & -> & Ht).
  { destruct (drop (length a + length c) (a ++ b ++ c ++ rest)) as [|y t] eqn:E;
      apply (f_equal length) in E; rewrite length_drop, !length_app in E; simpl in E.
    - destruct b; [done|simpl in E; lia].
    - exists y, t. split; [done|]. destruct b; [done|simpl in *; lia]. }
  exists t. split; [done|]. rewrite insert_app_r_alt by lia. replace (length a + length c - length a) with (length c) by lia.
  rewrite insert_app_r_alt, Nat.sub_diag by lia. done.
Qed.

Lemma ksCopyInternal_spec K S l s a b c Q :
  S !! l = Some s -> ks_rep s (a ++ b ++ c) -> b <> [] ->
  (forall s', ks_rep s' (a ++ c) -> ks_cursor s' = ks_cursor s -> ks_current s' = ks_current s ->
     array_get s' (length (a ++ c)) = ret None -> forall r, Q r (mkHeap K (<[l := s']> S))) ->
  wp (ksCopyInternal l (length a) (length a + length b)) Q (mkHeap K S).
Proof.
  intros Hs [[(rest & Ea & El & _) Hroom Hmin] Hsz] Hb HQ. unfold ksCopyInternal. wstep. cbn zeta.
  rewrite !length_app in *. rewrite !cells_app, <- !app_assoc in Ea.
  destruct (shift_down (cells a) (cells b) (cells c) rest (Some None)) as (t & Ht & Eshift);
    [by destruct b|]. rewrite !length_cells in *.
  set (a1 := take (length a) _ ++ _) in Eshift.
  assert (length a1 = ks_alloc s) as Hlen.
  { apply (f_equal length) in Eshift. rewrite length_insert in Eshift. rewrite Eshift, !length_app, !length_cells.
    simpl. lia. }
  replace (ks_size s - (length a + length b)) with (length c) by lia.
  assert ((if length c =? 0 then ret s else array_memmove s (length a) (length a + length b) (length c)) =
          ret (ks_with_array s (Some a1))) as ->.
  { destruct (Nat.eqb_spec (length c) 0) as [E0|E0].
    - unfold a1. rewrite E0. simpl. rewrite Nat.add_0_r, take_drop. f_equal. unfold ks_with_array. rewrite <- Ea. by destruct s.
    - unfold array_memmove. rewrite Ea, !length_app, !length_cells.
      assert ((length a + length c <=? length a + (length b + (length c + length rest))) = true) as -> by (apply Nat.leb_le; lia).
      assert ((length a + length b + length c <=? length a + (length b + (length c + length rest))) = true) as ->
        by (apply Nat.leb_le; lia). done. }
  wstep. cbn [ks_size ks_with_size ks_with_array]. rewrite Hsz.
  replace (length a + (length b + length c) + length a - (length a + length b)) with (length a + length c) by lia.
  erewrite array_set_ok; [|done|rewrite Hlen; lia]. wsteps.
  assert (ks_array (ks_with_array (ks_with_size (ks_with_array s (Some a1)) (length a + length c))
            (Some (<[length a + length c := Some None]> a1))) = Some (cells (a ++ c) ++ Some None :: t)) as Earr
    by (simpl; by rewrite Eshift, cells_app, <- app_assoc).
  apply HQ; [|done|done|].
  - split; [split|]; cbn [ks_alloc ks_size ks_with_array ks_with_size]; rewrite ?length_app; [|lia|done|done].
    exists (Some None :: t). split_and!; [exact Earr|simpl; lia|done].
  - unfold array_get. rewrite Earr, lookup_app_r, length_cells, length_app, Nat.sub_diag
      by (rewrite length_cells, length_app; lia). done.
Qed.

(** The internal cursor is on a key, at the end or rewound. *)
Definition cursor_on (s : KeySet) (ls : list loc) : Prop :=
  match ks_cursor s with
  | Some x => ls !! ks_current s = Some x
  | None => ks_current s = 0 \/ ks_current s = length ls
  end.

(** What [cursor_cut] and the last step of [ksCut] make of the cursor. *)
Lemma cursor_cut_spec s a b c set cu i :
  cursor_on s (a ++ b ++ c) -> ks_size s = length (a ++ b ++ c) -> b <> [] ->
  cursor_cut s (length a) (length a + length b) = (set, cu, i) ->
  i <= length (a ++ c) /\
  forall cu', cu' = (if set then (a ++ c) !! i else cu) ->
    match cu' with Some x => (a ++ c) !! i = Some x | None => i = 0 \/ i = length (a ++ c) end /\
    forall x, ks_cursor s = Some x -> x ∉ b -> cu' = Some x.
Proof.
  intros Hon Hsz Hb E. assert (1 <= length b) as Hb1 by (destruct b; [done|simpl; lia]).
  unfold cursor_on, cursor_cut in *. rewrite Hsz, !length_app in *.
  destruct (Nat.leb_spec (length a) (ks_current s)) as [H1|H1];
    [destruct (Nat.ltb_spec (ks_current s) (length a + length b)) as [H2|H2]|]; cbn [andb] in E.
  - assert (forall x, ks_cursor s = Some x -> x ∉ b -> False) as Hin.
    { intros x Hx Hnin. rewrite Hx, lookup_app_r, lookup_app_l in Hon by lia. by apply Hnin, (list_elem_of_lookup_2 _ _ _ Hon). }
    destruct (Nat.eqb_spec (length a) 0); injection E as <- <- <-.
    + split; [lia|]. intros cu' ->. split; [by left|]. intros x Hx Hn. destruct (Hin x Hx Hn).
    + split; [lia|]. intros cu' ->. split; [|intros x Hx Hn; destruct (Hin x Hx Hn)].
      destruct (lookup_lt_is_Some_2 (a ++ c) (length a - 1)) as [y ->]; [rewrite length_app; lia|done].
  - destruct (Nat.leb_spec (length a + length b) (ks_current s)); [|lia].
    assert (forall x, ks_cursor s = Some x -> (a ++ c) !! (length a + ks_current s - (length a + length b)) = Some x) as Hsome.
    { intros x Hx. rewrite Hx, lookup_app_r, lookup_app_r in Hon by lia. rewrite lookup_app_r by lia.
      rewrite <- Hon. f_equal. lia. }
    assert (ks_cursor s = None -> ks_current s = length a + (length b + length c)) as Hnone by (intros Ec; rewrite Ec in Hon; lia).
    assert (forall x, ks_cursor s = Some x -> ks_current s < length a + (length b + length c)) as Hlt.
    { intros x Hx. rewrite Hx in Hon. apply lookup_lt_Some in Hon. by rewrite !length_app in Hon. }
    destruct (Nat.leb_spec (length a + (length b + length c)) (length a + length b)); injection E as <- <- <-.
    + split; [lia|]. intros cu' ->. split; [by left|]. intros x Hx. specialize (Hlt x Hx). lia.
    + destruct (ks_cursor s) as [x|].
      * specialize (Hlt x eq_refl). split; [lia|]. intros cu' ->. rewrite (Hsome x eq_refl). split; [done|]. by intros ? [= ->].
      * specialize (Hnone eq_refl). split; [lia|]. intros cu' ->.
        rewrite lookup_ge_None_2 by (rewrite length_app; lia). split; [right; lia|done].
  - destruct (Nat.leb_spec (length a + length b) (ks_current s)); [lia|]. injection E as <- <- <-.
    split; [lia|]. intros cu' ->. destruct (ks_cursor s) as [x|].
    + rewrite lookup_app_l in Hon by lia. rewrite lookup_app_l by lia. split; [done|]. by intros ? [= ->].
    + split; [left; lia|done].
Qed.
End Cut.

(** ** The keys of the two keysets *)

Lemma StronglySorted_filter {A} (Rl : A -> A -> Prop) (p : A -> bool) l :
  StronglySorted Rl l -> StronglySorted Rl (List.filter p l).
Proof.
  induction 1 as [|x l Hl IH Hx]; simpl; [constructor|]. destruct (p x); [|done]. constructor; [done|].
  rewrite Forall_forall in *. intros y Hy. apply Hx. apply list_elem_of_In, filter_In in Hy as [Hy _].
  by apply list_elem_of_In.
Qed.

Lemma elem_of_filter_bool {A} (p : A -> bool) l x : x ∈ List.filter p l <-> x ∈ l /\ p x = true.
Proof. rewrite !list_elem_of_In. apply filter_In. Qed.

Lemma uname_order_le_trans u v w :
  (uname_order u v <= 0)%Z -> (uname_order v w <= 0)%Z -> (uname_order u w <= 0)%Z.
Proof.
  intros H1 H2. destruct (decide (uname_order u v = 0)%Z) as [E|E]; [apply uname_order_zero in E; by subst|].
  destruct (decide (uname_order v w = 0)%Z) as [E'|E']; [apply uname_order_zero in E'; by subst|].
  pose proof (name_order_lt_trans uchar u v w). lia.
Qed.

Lemma uname_order_prefix u t : (uname_order u (u ++ t) <= 0)%Z.
Proof. induction u as [|c u IH]; simpl; [by destruct t|]. by rewrite Z.sub_diag. Qed.

Section Subtree.
Context (K : gmap loc Key) (S : gmap loc KeySet) (idf : loc -> kid) (path : loc -> cstr * list cstr).
Context (n : cstr) (ps : list cstr).

(** Every key of [ls] has a canonical name in a namespace. *)
Definition rooted (ls : list loc) : Prop := forall x, x ∈ ls -> has_path K x (Some (path x).1) (path x).2.

(** The key is the cutpoint or below it. *)
Definition subtree (x : loc) : bool := bool_decide (n = (path x).1 /\ ps `prefix_of` (path x).2).

Lemma rooted_uname ls x : rooted ls -> x ∈ ls -> has_kid K S x (idf x) -> (idf x).1 = path_uname (Some (path x).1) (path x).2.
Proof.
  intros Hp Hx (k & Hk & Hu & _). destruct (Hp x Hx) as (Hok & k' & Hk' & _ & Hu').
  rewrite path_name_uname in Hu' by done. congruence.
Qed.

Lemma subtree_prefix ls x :
  path_ok (Some n) ps -> rooted ls -> x ∈ ls -> has_kid K S x (idf x) ->
  subtree x = true <-> path_uname (Some n) ps `prefix_of` (idf x).1.
Proof.
  intros Hok Hp Hx Hid. rewrite (rooted_uname ls x) by done. unfold subtree. rewrite bool_decide_eq_true.
  apply in_subtree_uname; [done|]. apply (Hp x Hx).
Qed.

Lemma sorted_le ls i j x y :
  kid_sorted idf ls -> i <= j -> ls !! i = Some x -> ls !! j = Some y -> (uname_order (idf x).1 (idf y).1 <= 0)%Z.
Proof.
  intros Hs Hij Hx Hy. destruct (decide (i = j)) as [->|].
  - simplify_eq. by rewrite name_order_refl.
  - pose proof (sorted_lookup _ _ _ _ _ _ Hs (ltac:(lia) : i < j) Hx Hy) as H. unfold kid_lt, kid_order in H.
    destruct (Z.eqb_spec (uname_order (idf x).1 (idf y).1) 0); lia.
Qed.

Lemma subtree_neighbours l ls :
  keyset_ok K S idf l ls -> path_ok (Some n) ps -> rooted ls -> neighbours subtree ls.
Proof.
  intros Hks Hok Hp i j k x y z Hij Hjk Hx Hy Hz.
  assert (forall i x, ls !! i = Some x -> subtree x = true <-> path_uname (Some n) ps `prefix_of` (idf x).1) as Hpre.
  { intros i' x' Hx'. apply list_elem_of_lookup_2 in Hx'. apply (subtree_prefix ls); [done..|]. by apply (kso_ids _ _ _ _ _ Hks). }
  rewrite (Hpre i x), (Hpre k z), (Hpre j y) by done. intros [t Et] [t' Et'].
  pose proof (sorted_le ls i j x y (kso_sorted _ _ _ _ _ Hks) Hij Hx Hy) as H1.
  pose proof (sorted_le ls j k y z (kso_sorted _ _ _ _ _ Hks) Hjk Hy Hz) as H2.
  eapply (prefix_between_order _ t'); [|by rewrite <- Et'].
  eapply uname_order_le_trans; [|exact H1]. rewrite Et. apply uname_order_prefix.
Qed.

(** A sorted part of the keys of a keyset, in a keyset of its own. *)
Lemma keyset_ok_part S' l ls l' ls' s' :
  keyset_ok K S idf l ls -> (forall x, x ∈ ls' -> x ∈ ls) -> kid_sorted idf ls' ->
  S' !! l' = Some s' -> ks_rep s' ls' -> (forall m, metas_of K ls m -> S' !! m = S !! m) ->
  ~ metas_of K ls l' -> keyset_ok K S' idf l' ls'.
Proof.
  intros Hks Hsub Hsort Hs' Hrep Hm Hap. split; [by exists s'| |done|].
  - intros x Hx. eapply has_kid_sets; [|apply (kso_ids _ _ _ _ _ Hks); by apply Hsub].
    intros k m Hk Hkm. apply Hm. exists x, k. auto.
  - intros (x & k & Hx & ?). apply Hap. exists x, k. auto.
Qed.

Lemma metas_live l ls m : keyset_ok K S idf l ls -> metas_of K ls m -> is_Some (S !! m).
Proof.
  intros Hks (x & k & Hx & Hk & Hm). destruct (kso_ids _ _ _ _ _ Hks x Hx) as (k' & Hk' & _ & Ho).
  simplify_eq. unfold has_meta in Ho. rewrite Hm in Ho. destruct Ho as (ms & (s & Hs & _) & _). eauto.
Qed.
End Subtree.

Section Contract.
Context {R : Rec} (idf : loc -> kid) (path : loc -> cstr * list cstr).

(** The cursor after the keys moved. *)
Lemma set_cut_cursor_spec K S l s' ls' (set : bool) i cu0 (v : ptr) (Q : ptr -> heap -> Prop) :
  S !! l = Some s' -> ks_rep s' ls' -> ks_current s' = i -> ks_cursor s' = cu0 -> i <= length ls' ->
  array_get s' (length ls') = ret None ->
  Q v (mkHeap K (<[l := ks_with_cursor s' (if set then ls' !! i else cu0) i]> S)) ->
  wp ((if set then
         s <- get_ks l;; p <- array_get s (ks_current s);; put_ks l (ks_with_cursor s p (ks_current s))
       else ret tt);; ret v) Q (mkHeap K S).
Proof.
  intros Hs Hrep Hi Hcu Hle Hend HQ. destruct set.
  - wstep. wstep. rewrite Hi. assert (array_get s' i = ret (ls' !! i)) as ->.
    { destruct (ls' !! i) as [x|] eqn:E; [by apply (rep_get _ ls')|]. apply lookup_ge_None in E.
      by replace i with (length ls') by lia. }
    by wsteps.
  - wsteps. rewrite <- Hcu, <- Hi in HQ. assert (ks_with_cursor s' (ks_cursor s') (ks_current s') = s') as E by (by destruct s').
    by rewrite E, insert_id in HQ.
Qed.

Lemma span_len_ext {A} (p q : A -> bool) l : (forall x, p x = q x) -> span_len p l = span_len q l.
Proof. intros H. induction l as [|x l IH]; simpl; [done|]. by rewrite H, IH. Qed.

(** What [ksCut] at the name with the parts [ps] in [n] guarantees: the keyset
    [lr] has the keys from there on, [l] the others and its cursor. *)
Definition cut_result (K : gmap loc Key) (S S' : gmap loc KeySet) (s : KeySet) (ls : list loc) (n : cstr)
    (ps : list cstr) (l lr : loc) : Prop :=
  let others := List.filter (fun x => negb (subtree path n ps x)) ls in
  S !! lr = None /\ delete lr (delete l S') = delete l S /\
  keyset_ok K S' idf lr (List.filter (subtree path n ps) ls) /\ keyset_ok K S' idf l others /\
  exists s', S' !! l = Some s' /\ cursor_on s' others /\
    forall x, ks_cursor s = Some x -> subtree path n ps x = false -> ks_cursor s' = Some x.

Lemma cut_result_intro K S S' s ls n ps l lr s' r' :
  let others := List.filter (fun x => negb (subtree path n ps x)) ls in
  keyset_ok K S idf l ls -> S !! lr = None -> S' !! l = Some s' -> S' !! lr = Some r' ->
  (forall m, m <> l -> m <> lr -> S' !! m = S !! m) -> lr <> l ->
  ks_rep s' others -> ks_rep r' (List.filter (subtree path n ps) ls) -> cursor_on s' others ->
  (forall x, ks_cursor s = Some x -> subtree path n ps x = false -> ks_cursor s' = Some x) ->
  cut_result K S S' s ls n ps l lr.
Proof.
  intros others Hks Hlr Hl' Hlr' Hoth Hne Hrep Hrep' Hon Hcur.
  assert (forall m, metas_of K ls m -> S' !! m = S !! m) as Hm.
  { intros m Hm. apply Hoth; intros ->; [by apply (kso_apart _ _ _ _ _ Hks)|].
    eapply metas_live in Hm; [|done]. rewrite Hlr in Hm. by destruct Hm. }
  assert (forall q : loc -> bool, kid_sorted idf (List.filter q ls)) as Hsort
    by (intros; apply StronglySorted_filter, Hks).
  split_and!; [done| | | |by exists s'].
  - apply map_eq. intros m. destruct (decide (m = lr)) as [->|]; [by rewrite lookup_delete_eq, lookup_delete_ne|].
    rewrite lookup_delete_ne by done. destruct (decide (m = l)) as [->|]; [by rewrite !lookup_delete_eq|].
    rewrite !lookup_delete_ne by done. by apply Hoth.
  - eapply keyset_ok_part; [done| |apply Hsort|done|done|done|].
    + by intros x [? _]%elem_of_filter_bool.
    + intros Hap. eapply metas_live in Hap; [|done]. rewrite Hlr in Hap. by destruct Hap.
  - eapply keyset_ok_part; [done| |apply Hsort|done|done|done|apply Hks].
    by intros x [? _]%elem_of_filter_bool.
Qed.

(** The end of [ksCut]: the keys [b] move to a new keyset. *)
Lemma cut_move_spec K S l s (a b c : list loc) (set : bool) (cu : ptr) (i : nat) (Q : ptr -> heap -> Prop) :
  S !! l = Some s -> ks_rep s (a ++ b ++ c) -> b <> [] -> i <= length (a ++ c) ->
  (forall lr S' s' r', S !! lr = None -> S' !! l = Some s' -> S' !! lr = Some r' ->
     (forall m, m <> l -> m <> lr -> S' !! m = S !! m) -> lr <> l -> ks_rep s' (a ++ c) -> ks_rep r' b ->
     ks_cursor s' = (if set then (a ++ c) !! i else cu) -> ks_current s' = i -> Q (Some lr) (mkHeap K S')) ->
  wp (returned <- ksNew (length b) [];;
      s <- get_ks l;;
      r <- get_ks returned;;
      r <- cut_copy s r (length a) (length b);;
      put_ks returned r;;
      ksCopyInternal l (length a) (length a + length b);;
      (if set : bool then
         s <- get_ks l;;
         p <- array_get s (ks_current s);;
         put_ks l (ks_with_cursor s p (ks_current s))
       else ret tt);;
      ret (Some returned)) Q (mkHeap K (<[l := ks_with_cursor s cu i]> S)).
Proof.
  intros Hs Hrep Hb Hi HQ. apply wp_bind, ksNew_empty_spec. intros r0 Hr0 Hroom Hr0c.
  set (S1 := <[l := _]> S). set (lr := fresh_loc S1).
  assert (S1 !! lr = None) as Hlr by apply fresh_loc_None.
  assert (lr <> l) as Hne by (intros E; rewrite E in Hlr; unfold S1 in Hlr; by rewrite lookup_insert_eq in Hlr).
  unfold S1 in Hlr. rewrite lookup_insert_ne in Hlr by done.
  assert (S1 !! l = Some (ks_with_cursor s cu i)) as Hs1 by apply lookup_insert_eq.
  pose proof (ks_rep_cursor _ _ cu i Hrep) as Hrep1. set (s1 := ks_with_cursor s cu i) in *.
  eapply wp_get_ks; [by rewrite lookup_insert_ne by done|]. eapply wp_get_ks; [apply lookup_insert_eq|].
  destruct (cut_copy_spec s1 r0 a b c) as (r' & -> & Hr' & _); [done..|]. wstep.
  eapply wp_put_ks; [apply lookup_insert_eq|]. rewrite insert_insert_eq.
  apply wp_bind. eapply (ksCopyInternal_spec K _ l s1 a b c); [by rewrite lookup_insert_ne by done|done|done|].
  intros s2 Hrep2 Hc2 Hu2 Hend _.
  eapply set_cut_cursor_spec; [apply lookup_insert_eq|exact Hrep2|exact Hu2|exact Hc2|exact Hi|exact Hend|].
  rewrite insert_insert_eq. eapply (HQ lr); [done|apply lookup_insert_eq| | |done|by apply ks_rep_cursor|exact Hr'|done|done].
  - rewrite lookup_insert_ne by done. apply lookup_insert_eq.
  - intros m Hml Hmlr. unfold S1. by rewrite !lookup_insert_ne by done.
Qed.

Lemma ksCutAt_spec K S l s ls c n ps Q :
  keyset_ok K S idf l ls -> S !! l = Some s -> cursor_on s ls -> rooted K path ls -> has_path K c (Some n) ps ->
  (forall lr S', cut_result K S S' s ls n ps l lr -> Q (Some lr) (mkHeap K S')) ->
  wp (ksCutAt l (Some c)) Q (mkHeap K S).
Proof.
  intros Hks Hs Hon Hroot Hc HQ.
  destruct (neighbours_split (subtree path n ps) ls) as (a & b & c' & Els & Ea & Eb & Efp & Efn & Hbc).
  { eapply subtree_neighbours; [done|apply Hc|done]. }
  assert (ks_rep s ls) as Hrep by (destruct (kso_rep _ _ _ _ _ Hks) as (s0 & Hs0 & ?); by simplify_eq).
  assert (forall x, x ∈ ls -> keyIsBelowOrSame (Some c) (Some x) (mkHeap K S) =
            Ret (if subtree path n ps x then 1 else 0)%Z (mkHeap K S)) as Hp.
  { intros x Hx. rewrite (keyIsBelowOrSame_paths K S c x (Some n) ps (Some (path x).1) (path x).2) by (done || by apply Hroot).
    unfold subtree. by rewrite (bool_decide_ext _ _ (in_subtree_below _ _ _ _)). }
  unfold ksCutAt. wstep. rewrite (rep_size _ _ Hrep). apply wp_bind.
  eapply (cut_scan_spec K S l s ls c 0%Z (subtree path n ps)); [done|done|done|by left|lia|].
  rewrite drop_0, (span_len_ext _ (fun x => negb (subtree path n ps x))), Ea by (intros x; by destruct (subtree path n ps x)).
  rewrite Nat.add_0_l. destruct (Nat.eqb_spec (length a) (length ls)) as [E|E].
  - assert (b = []) as -> by (rewrite Els, !length_app in E; destruct b; [done|simpl in E; lia]). rewrite Hbc, !app_nil_r in * by done.
    apply wp_bind, ksNew_empty_spec. intros r0 Hr0 _ _. apply wp_ret, HQ. subst a.
    eapply (cut_result_intro _ _ _ _ _ _ _ _ _ s r0); [done|apply fresh_loc_None| |apply lookup_insert_eq| |
      by eapply fresh_loc_ne|by rewrite Efn|by rewrite Efp|by rewrite Efn|done].
    + rewrite lookup_insert_ne; [done|by eapply fresh_loc_ne].
    + intros m _ Hm. by rewrite lookup_insert_ne.
  - assert (b <> []) as Hb by (intros ->; apply E; by rewrite Els, Hbc, !app_nil_r).
    apply wp_bind.
    eapply (cut_scan_spec K S l s ls c 1%Z (subtree path n ps)); [done|done|done|by right|rewrite Els, !length_app; lia|].
    rewrite (span_len_ext _ (subtree path n ps)) by (intros x; by destruct (subtree path n ps x)).
    assert (span_len (subtree path n ps) (drop (length a) ls) = length b) as -> by (by rewrite Els, drop_app_length).
    apply wp_bind, (cut_cursor_spec K S l s); [done|destruct b; [done|simpl; lia]|].
    destruct (cursor_cut s (length a) (length a + length b)) as [[set cu] i] eqn:Ecut.
    rewrite Els in Hon. eapply cursor_cut_spec in Ecut; [|done|rewrite (rep_size _ _ Hrep); by f_equal|done].
    destruct Ecut as [Hi Hcur]. specialize (Hcur _ eq_refl) as [Hon' Hstay].
    replace (length a + length b - length a) with (length b) by lia.
    eapply (cut_move_spec K S l s); [done|by rewrite <- Els|done|done|].
    intros lr S' s' r' Hlr Hl' Hlr' Hoth Hne Hrep' Hrepr Hcu Hcur'. apply HQ.
    eapply (cut_result_intro _ _ _ _ _ _ _ _ _ s' r'); rewrite ?Efn, ?Efp; [done..| |].
    + unfold cursor_on. rewrite Hcu, Hcur'. exact Hon'.
    + intros x Hx Hout. rewrite Hcu. apply Hstay; [done|]. rewrite <- Efp.
      intros [_ Hin]%elem_of_filter_bool. congruence.
Qed.

Lemma ksCut_spec K S l s ls c n ps Q :
  keyset_ok K S idf l ls -> S !! l = Some s -> cursor_on s ls -> rooted K path ls -> has_path K c (Some n) ps ->
  (forall lr S', cut_result K S S' s ls n ps l lr -> Q (Some lr) (mkHeap K S')) ->
  wp (ksCut (Some l) (Some c)) Q (mkHeap K S).
Proof.
  intros Hks Hs Hon Hroot Hc HQ. pose proof Hc as (Hok & k & Hk & Hn & _). unfold ksCut. wstep. rewrite Hn.
  rewrite decide_False by (by rewrite path_name_deref). by eapply ksCutAt_spec.
Qed.

(** C10.  [ksCut] at a key with a canonical name in a namespace, of a keyset whose keys all
    have canonical names in a namespace: the returned keyset has exactly the keys at and
    below that name, the keyset exactly the others, both in order; no key changes and no
    other keyset does.  The internal cursor stays on its key unless that key was cut out.
    With a cascading key in the keyset, which [keyIsBelowOrSame] takes for a key below,
    this is not so, and a cascading cutpoint is cut per namespace; both are left out. *)
Theorem ksCut_splits K S l s ls c n ps :
  keyset_ok K S idf l ls -> S !! l = Some s -> cursor_on s ls -> rooted K path ls -> has_path K c (Some n) ps ->
  wp (ksCut (Some l) (Some c))
     (fun r h => h_keys h = K /\ exists lr, r = Some lr /\ cut_result K S (h_sets h) s ls n ps l lr) (mkHeap K S).
Proof.
  intros Hks Hs Hon Hroot Hc. eapply ksCut_spec; [done..|]. intros lr S' H. split; [done|]. by exists lr.
Qed.
End Contract.
