(* ===== verification/Merge.v ===== *)
(** * Merge: appending a keyset to a keyset

    [ksAppend] makes the union of two keysets: a key of the second one takes the
    place of the key of the first one with the same name and owner.  The union is
    specified by its order and its elements, which determine it. *)
From S2P Require Export AppendFacts.
Local Open Scope elektra_scope.

(** ** The union of sorted lists of keys *)

(** [rs] is the union of [ls] and [as], where the keys of [as] win. *)
Definition merged (idf : loc -> kid) (ls xs rs : list loc) : Prop :=
  kid_sorted idf rs /\ forall z, z ∈ rs <-> z ∈ xs \/ z ∈ ls /\ forall y, y ∈ xs -> idf y <> idf z.

(** What becomes of the key at [z] when the keys [xs] are appended to [ls]. *)
Definition appended_key (idf : loc -> kid) (ls xs : list loc) (z : loc) (k : Key) : option Key :=
  if decide (z ∈ xs) then Some (if decide (z ∈ ls) then locked k else referenced (locked k))
  else if decide (z ∈ ls /\ Exists (fun y => idf y = idf z) xs) then
    if 1 <? k_ksReference k then Some (set_ref k (k_ksReference k - 1)) else None
  else Some k.

Lemma appended_key_in idf ls xs z k :
  z ∈ xs -> appended_key idf ls xs z k = Some (if decide (z ∈ ls) then locked k else referenced (locked k)).
Proof. intros H. unfold appended_key. by rewrite decide_True. Qed.

Lemma appended_key_replaced idf ls xs y z k :
  z ∉ xs -> z ∈ ls -> y ∈ xs -> idf y = idf z ->
  appended_key idf ls xs z k = if 1 <? k_ksReference k then Some (set_ref k (k_ksReference k - 1)) else None.
Proof.
  intros Hz Hl Hy E. unfold appended_key. rewrite decide_False by done. rewrite decide_True; [done|].
  split; [done|]. apply Exists_exists. by exists y.
Qed.

Lemma appended_key_kept idf ls xs z k :
  z ∉ xs -> (z ∈ ls -> forall y, y ∈ xs -> idf y <> idf z) -> appended_key idf ls xs z k = Some k.
Proof.
  intros Hz Hl. unfold appended_key. rewrite decide_False by done. rewrite decide_False; [done|].
  intros [H (y & Hy & E)%Exists_exists]. by apply (Hl H y).
Qed.

(** No metadata keyset lists the key at [x]. *)
Definition unlisted (K : gmap loc Key) (S : gmap loc KeySet) (x : loc) : Prop :=
  forall y k m s ms, K !! y = Some k -> k_meta k = Some m -> S !! m = Some s -> ks_rep s ms -> x ∉ ms.

Lemma unlisted_not_metadata K S x : unlisted K S x -> not_metadata K S x.
Proof. intros H y k m ms Hy Hm (s & Hs & Hrep & _). by eapply H. Qed.

Section Merged.
Context (idf : loc -> kid).

Lemma merged_nil ls : kid_sorted idf ls -> merged idf ls [] ls.
Proof.
  intros Hs. split; [done|]. intros z. split; [|by intros [?%not_elem_of_nil|[? _]]].
  intros Hz. right. split; [done|]. intros y Hy%not_elem_of_nil. done.
Qed.

Lemma merged_snoc ls xs x rs rs' :
  merged idf ls xs rs -> merged idf rs [x] rs' -> (forall y, y ∈ xs -> idf x <> idf y) -> merged idf ls (xs ++ [x]) rs'.
Proof.
  intros [_ H1] [Hs H2] Hne. split; [done|]. intros z. rewrite H2, H1, elem_of_app, list_elem_of_singleton. split.
  - intros [->|[[Hz|[Hz Hxs]] Hx]]; [auto..|]. right. split; [done|].
    intros y [Hy| ->%list_elem_of_singleton]%elem_of_app; [auto|]. apply Hx. by left.
  - intros [[Hz| ->]|[Hz Hxs]]; [|by left|]; right.
    + split; [by left|]. intros y ->%list_elem_of_singleton. auto.
    + split; [|intros y Hy; apply Hxs, elem_of_app; by right].
      right. split; [done|]. intros y Hy. apply Hxs, elem_of_app. by left.
Qed.

Lemma merged_new ls x i :
  (forall y, y ∈ ls -> idf y <> idf x) -> kid_sorted idf (take i ls ++ x :: drop i ls) -> merged idf ls [x] (take i ls ++ x :: drop i ls).
Proof.
  intros Hnew Hs. split; [done|]. intros z. rewrite list_elem_of_singleton. split.
  - intros [->|Hz]%elem_of_insert_list%elem_of_cons; [by left|right]. split; [done|].
    intros y ->%list_elem_of_singleton E. by apply (Hnew z).
  - rewrite elem_of_app, elem_of_cons. intros [->|[Hz _]]; [auto|].
    rewrite <- (take_drop i ls), elem_of_app in Hz. tauto.
Qed.

Lemma merged_replace ls x i z0 :
  ls !! i = Some z0 -> idf z0 = idf x -> (forall z, z ∈ ls -> idf z = idf z0 -> z = z0) -> NoDup ls ->
  kid_sorted idf (<[i := x]> ls) -> merged idf ls [x] (<[i := x]> ls).
Proof.
  intros Hi E Hinj Hnd Hs. split; [done|]. intros z. rewrite list_elem_of_singleton. split.
  - intros [j Hj]%list_elem_of_lookup_1. destruct (decide (i = j)) as [<-|Hij].
    + rewrite list_lookup_insert_eq in Hj by by eapply lookup_lt_Some. left. congruence.
    + rewrite list_lookup_insert_ne in Hj by done. right. split; [by eapply list_elem_of_lookup_2|].
      intros y ->%list_elem_of_singleton Ez. apply Hij. eapply NoDup_lookup; [done|exact Hi|].
      rewrite <- (Hinj z); [done|by eapply list_elem_of_lookup_2|congruence].
  - intros [->|[Hz Hx]].
    + eapply list_elem_of_lookup_2, list_lookup_insert_eq. by eapply lookup_lt_Some.
    + apply list_elem_of_lookup_1 in Hz as [j Hj]. eapply (list_elem_of_lookup_2 _ j). rewrite list_lookup_insert_ne; [done|].
      intros ->. apply (Hx x); [by left|congruence].
Qed.

(** The union is determined. *)
Lemma kid_sorted_ext ls ls' :
  (forall x, x ∈ ls -> kid_ok (idf x)) -> kid_sorted idf ls -> kid_sorted idf ls' -> (forall z, z ∈ ls <-> z ∈ ls') -> ls = ls'.
Proof.
  intros Hok Hs Hs' Hel.
  assert (forall x, x ∈ ls -> ~ kid_lt (idf x) (idf x)) as Hirr.
  { intros x Hx H. unfold kid_lt in H. pose proof (kid_order_sgn (idf x) (idf x) (Hok x Hx) (Hok x Hx)). lia. }
  revert ls' Hs' Hel. induction Hs as [|x ls Hs IH Hf]; intros ls' Hs' Hel.
  - destruct ls' as [|y ls']; [done|]. exfalso. apply (not_elem_of_nil y). apply Hel. by left.
  - destruct Hs' as [|y ls' Hs' Hf']; [exfalso; apply (not_elem_of_nil x); apply Hel; by left|].
    rewrite Forall_forall in Hf, Hf'.
    assert (x = y) as <-.
    { pose proof (proj1 (Hel x) ltac:(by left)) as [->|Hx]%elem_of_cons; [done|].
      pose proof (proj2 (Hel y) ltac:(by left)) as [->|Hy]%elem_of_cons; [done|].
      exfalso. apply (Hirr x); [by left|].
      apply kid_lt_trans with (idf y); [apply Hok; by left|apply Hok; by right|apply Hok; by left|by apply Hf|by apply Hf']. }
    f_equal. apply IH; [intros z Hz; apply Hok; by right|intros z Hz; apply Hirr; by right|done|].
    intros z. pose proof (Hel z) as Hz. rewrite !elem_of_cons in Hz. split; intros Hin.
    + destruct (proj1 Hz ltac:(by right)) as [->|]; [|done]. exfalso. apply (Hirr x); [by left|by apply Hf].
    + destruct (proj2 Hz ltac:(by right)) as [->|]; [|done]. exfalso. apply (Hirr x); [by left|by apply Hf'].
Qed.
End Merged.

(** ** The keys of the heap *)

Section AppendKeys.
Context (idf : loc -> kid).

(** What appending the keys [ys] to those of [cur] does to all keys. *)
Definition append_keys (K K' : gmap loc Key) (cur : list loc) (ys : list loc) : Prop :=
  forall z, K' !! z = k ← K !! z; appended_key idf cur ys z k.

Lemma appended_key_meta cur ys z k k' : appended_key idf cur ys z k = Some k' ->
  k_uname k' = k_uname k /\ k_meta k' = k_meta k /\ k_data k' = k_data k /\ k_key k' = k_key k.
Proof. unfold appended_key. repeat case_decide; [..|destruct (1 <? _)|]; intros; by simplify_eq. Qed.

Lemma append_keys_from K K' cur ys z k' : append_keys K K' cur ys -> K' !! z = Some k' ->
  exists k, K !! z = Some k /\ k_meta k' = k_meta k /\ k_key k' = k_key k.
Proof.
  intros H. rewrite H. destruct (K !! z) as [k|]; simpl; [|done]. intros (? & ? & ? & ?)%appended_key_meta. by exists k.
Qed.

(** The last reason why a key stays as it is. *)
Lemma append_keys_other K K' cur x z :
  append_keys K K' cur [x] -> z <> x -> (z ∈ cur -> idf x <> idf z) -> K' !! z = K !! z.
Proof.
  intros H Hzx Hz. rewrite H. destruct (K !! z) as [k|]; [|done]. simpl. unfold appended_key.
  rewrite decide_False by by rewrite list_elem_of_singleton.
  rewrite decide_False; [done|]. rewrite Exists_cons, Exists_nil. naive_solver.
Qed.

(** Another key takes the place of the key at [z]. *)
Definition replaced (cur ys : list loc) (z : loc) : Prop := z ∈ cur /\ z ∉ ys /\ exists y, y ∈ ys /\ idf y = idf z.

Lemma append_keys_stay K K' cur ys z k : append_keys K K' cur ys -> K !! z = Some k ->
  replaced cur ys z \/ exists k', K' !! z = Some k' /\ k_uname k' = k_uname k /\ k_meta k' = k_meta k /\ k_data k' = k_data k.
Proof.
  intros HK Hk. rewrite HK, Hk. simpl. unfold appended_key. case_decide; [right; case_decide; by eexists|].
  case_decide as Hr; [|right; by exists k]. left. destruct Hr as [? (y & ? & ?)%Exists_exists]. split_and!; [done..|by exists y].
Qed.

(** Changes of a keyset that is nobody's metadata and of cursors. *)
Lemma has_kid_sim_delete P K S S' l y id :
  sets_sim P (delete l S) (delete l S') -> (forall k, K !! y = Some k -> k_meta k <> Some l) -> has_kid K S y id -> has_kid K S' y id.
Proof.
  intros Hsim Hm H.
  assert (forall k m, K !! y = Some k -> k_meta k = Some m -> l <> m) as Hlm by (intros k m Hk Hkm ->; by apply (Hm k)).
  apply (has_kid_sets K (delete l S')); [intros k m Hk Hkm; rewrite lookup_delete_ne; [done|by eapply Hlm]|].
  eapply has_kid_sim; [exact Hsim|]. apply (has_kid_sets K S); [|done].
  intros k m Hk Hkm. rewrite lookup_delete_ne; [done|by eapply Hlm].
Qed.

(** Appending leaves the identity of every key that is not replaced. *)
Lemma has_kid_append_keys P K K' S S' l cur ys y id :
  append_keys K K' cur ys -> sets_sim P (delete l S) (delete l S') -> (forall k, K !! y = Some k -> k_meta k <> Some l) ->
  (forall z, replaced cur ys z -> unlisted K S z) -> ~ replaced cur ys y -> has_kid K S y id -> has_kid K' S' y id.
Proof.
  intros HK Hsim Hm Hr Hy Hid. eapply has_kid_sim_delete; [exact Hsim| |].
  - intros k' Hk'. destruct (append_keys_from _ _ _ _ _ _ HK Hk') as (k & Hk & -> & _). by apply Hm.
  - eapply (has_kid_kept (replaced cur ys)); [|by intros z Hz; apply unlisted_not_metadata, Hr|done|done].
    intros z k Hk. by apply (append_keys_stay K).
Qed.
End AppendKeys.

(** ** Appending one key *)

(** The cursor of the keyset is rewound or on one of its keys. *)
Definition cursor_fine (S : gmap loc KeySet) (l : loc) : Prop := exists s, S !! l = Some s /\ cursor_ok s.

Section Merge.
Context {R : Rec} {HR : RecLaws R} (idf : loc -> kid).

(** The keyset at [la] with the keys [xs] is appended to the one at [l]. *)
Context (l la : loc) (xs : list loc) (sa : KeySet) (Hne : l <> la) (Hrepa : ks_rep sa xs).
Context (Hsort : kid_sorted idf xs) (Hkok : forall x, x ∈ xs -> kid_ok (idf x)).

(** The heap while the keyset at [l] has the keys [cur] and those of [rest] follow. *)
Record merging (K : gmap loc Key) (S : gmap loc KeySet) (cur rest : list loc) : Prop := {
  mg_ok : keyset_ok K S idf l cur;
  mg_source : S !! la = Some sa;
  mg_ids x : x ∈ xs -> has_kid K S x (idf x);
  mg_names x k : x ∈ xs -> K !! x = Some k -> k_key k <> None;
  mg_target y k : K !! y = Some k -> k_meta k <> Some l;
  mg_metas y k : y ∈ xs \/ y ∈ cur -> K !! y = Some k -> k_meta k <> Some la;
  mg_replaced z x : z ∈ cur -> x ∈ rest -> idf x = idf z -> x = z \/ droppable K z /\ unlisted K S z
}.

Lemma mg_no_metas K S cur rest ys m :
  merging K S cur rest -> m = l \/ m = la -> (forall y, y ∈ ys -> y ∈ xs \/ y ∈ cur) -> ~ metas_of K ys m.
Proof. intros H [->| ->] Hys (y & k & Hy & Hk & Hm); [by eapply mg_target|eapply mg_metas; eauto]. Qed.

Lemma append_keys_present K cur x k :
  K !! x = Some k -> x ∈ cur -> (forall z, z ∈ cur -> idf x = idf z -> z = x) -> append_keys idf K (<[x := locked k]> K) cur [x].
Proof.
  intros Hk Hx Hinj z. destruct (decide (x = z)) as [<-|Hxz].
  - rewrite lookup_insert_eq, Hk. simpl. unfold appended_key. by rewrite decide_True, decide_True by (done || by left).
  - rewrite lookup_insert_ne by done. destruct (K !! z) as [kz|]; [|done]. simpl. unfold appended_key.
    rewrite decide_False by (rewrite list_elem_of_singleton; congruence).
    rewrite decide_False; [done|]. rewrite Exists_cons, Exists_nil. intros [Hz [E|[]]]. by apply Hxz, eq_sym, Hinj.
Qed.

Lemma append_keys_new K cur x k :
  K !! x = Some k -> (forall z, z ∈ cur -> idf z <> idf x) -> append_keys idf K (<[x := referenced (locked k)]> K) cur [x].
Proof.
  intros Hk Hnew z. destruct (decide (x = z)) as [<-|Hxz].
  - rewrite lookup_insert_eq, Hk. simpl. unfold appended_key. rewrite decide_True, decide_False by (by left || by intros ?%Hnew). done.
  - rewrite lookup_insert_ne by done. destruct (K !! z) as [kz|]; [|done]. simpl. unfold appended_key.
    rewrite decide_False by (rewrite list_elem_of_singleton; congruence).
    rewrite decide_False; [done|]. rewrite Exists_cons, Exists_nil. intros [Hz [E|[]]]. by apply (Hnew z).
Qed.

Lemma append_keys_replace K cur x k z0 :
  K !! x = Some k -> x ∉ cur -> z0 ∈ cur -> idf z0 = idf x -> (forall z, z ∈ cur -> idf z = idf x -> z = z0) ->
  append_keys idf K (<[x := referenced (locked k)]> (release K z0)) cur [x].
Proof.
  intros Hk Hx Hz0 E Hinj z. destruct (decide (x = z)) as [<-|Hxz].
  - rewrite lookup_insert_eq, Hk. simpl. unfold appended_key. rewrite decide_True, decide_False by (by left || done). done.
  - rewrite lookup_insert_ne by done. assert (forall k', appended_key idf cur [x] z k' =
      if decide (z = z0) then if 1 <? k_ksReference k' then Some (set_ref k' (k_ksReference k' - 1)) else None else Some k') as Hz.
    { intros k'. unfold appended_key. rewrite (decide_False (P := z ∈ [x])) by (rewrite list_elem_of_singleton; congruence).
      apply decide_ext. rewrite Exists_cons, Exists_nil. split; [intros [? [?|[]]]; by apply Hinj|intros ->; auto]. }
    destruct (decide (z = z0)) as [->|Hne'].
    + unfold release. destruct (K !! z0) as [k0|] eqn:Ek0; simpl; [|by rewrite Ek0]. rewrite Hz.
      destruct (1 <? _); [by rewrite lookup_insert_eq|by rewrite lookup_delete_eq].
    + rewrite release_other by done. destruct (K !! z) as [kz|]; [|done]. simpl. by rewrite Hz.
Qed.

Lemma merging_next K S K' S' cur cur' x rest :
  merging K S cur (x :: rest) -> x ∈ xs -> (forall y, y ∈ rest -> y ∈ xs /\ y <> x) ->
  merged idf cur [x] cur' -> append_keys idf K K' cur [x] -> keyset_ok K' S' idf l cur' ->
  sets_sim (metas_of K (x :: cur)) (delete l S) (delete l S') -> merging K' S' cur' rest.
Proof.
  intros Hmg Hx Hrest [_ Hcur'] HK Hok' Hsim. pose proof Hmg as [Hok Hsrc Hids Hnames Htarget Hmetas Hrepl]. split.
  - done.
  - rewrite <- (lookup_delete_ne S' l), (sets_sim_other _ _ _ _ Hsim), lookup_delete_ne by (done || (eapply mg_no_metas; [exact Hmg|by right|intros y [->|Hy]%elem_of_cons; auto])).
    done.
  - intros y Hy. assert (forall z, replaced idf cur [x] z -> z <> x /\ unlisted K S z /\ idf x = idf z) as Hr.
    { intros z (Hz & Hzx & y' & ->%list_elem_of_singleton & E). rewrite list_elem_of_singleton in Hzx.
      destruct (Hrepl z x Hz ltac:(by left) E) as [->|[_ Hu]]; done. }
    eapply has_kid_append_keys; [exact HK|exact Hsim| |by intros z Hz; apply Hr| |by apply Hids].
    + intros k Hk. apply (Htarget y k Hk).
    + intros Hry. destruct (Hr y Hry) as (Hyx & _ & E). apply Hyx. symmetry. by apply (kid_sorted_inj idf xs).
  - intros y k' Hy Hk'. destruct (append_keys_from _ _ _ _ _ _ _ HK Hk') as (k & Hk & _ & ->). by eapply Hnames.
  - intros y k' Hk'. destruct (append_keys_from _ _ _ _ _ _ _ HK Hk') as (k & Hk & -> & _). by eapply Htarget.
  - intros y k' Hy Hk'. destruct (append_keys_from _ _ _ _ _ _ _ HK Hk') as (k & Hk & -> & _). eapply Hmetas; [|done].
    destruct Hy as [?|[->%list_elem_of_singleton|[? _]]%Hcur']; auto.
  - intros z y Hz Hy E. destruct (Hrest y Hy) as [Hyx Hyne]. apply Hcur' in Hz as [->%list_elem_of_singleton|[Hz Hzx]].
    { by left; apply (kid_sorted_inj idf xs). }
    assert (idf x <> idf z) as Hxz by (apply Hzx; by left).
    destruct (Hrepl z y Hz ltac:(by right) E) as [?|[Hd Hu]]; [by left|]. right. split.
    + destruct Hd as (k & Hk & Hd). exists k. split; [|done]. rewrite <- Hk. eapply append_keys_other; [exact HK| |done]. by intros ->.
    + intros w kw m s ms Hw Hm Hs Hms. destruct (append_keys_from _ _ _ _ _ _ _ HK Hw) as (k & Hk & Hkm & _).
      assert (l <> m) as Hlm by (intros ->; by apply (Htarget w k Hk); congruence).
      rewrite <- (lookup_delete_ne S' l) in Hs by done. symmetry in Hsim.
      destruct (sets_sim_lookup _ _ _ _ _ Hsim Hs) as (s0 & Hs0 & Hsim0). rewrite lookup_delete_ne in Hs0 by done.
      eapply (Hu w k m s0 ms); [done|congruence|done|by eapply ks_rep_sim].
Qed.

Lemma merge_step K S cur x rest :
  merging K S cur (x :: rest) -> x ∈ xs -> (forall y, y ∈ rest -> y ∈ xs /\ y <> x) ->
  wp (ksAppendKey (Some l) (Some x))
    (fun _ h => exists cur', merged idf cur [x] cur' /\ append_keys idf K (h_keys h) cur [x] /\
       merging (h_keys h) (h_sets h) cur' rest /\ sets_sim (metas_of K (x :: cur)) (delete l S) (delete l (h_sets h)) /\
       (cursor_fine S l -> cursor_fine (h_sets h) l))
    (mkHeap K S).
Proof.
  intros Hmg Hx Hrest. pose proof Hmg as [Hok Hsrc Hids Hnames Htarget Hmetas Hrepl].
  destruct (Hids x Hx) as (k & Hk & Hkid). assert (k_key k <> None) as Hnm by by eapply Hnames.
  assert (forall z z', z ∈ cur -> z' ∈ cur -> idf z = idf z' -> z = z') as Hinj.
  { intros z z' Hz Hz'. apply (kid_sorted_inj idf cur); [|apply Hok|done..]. intros w Hw. eapply has_kid_ok, (kso_ids _ _ _ _ _ Hok _ Hw). }
  assert (forall K' cur' h, merged idf cur [x] cur' -> append_keys idf K K' cur [x] -> h_keys h = K' ->
    keyset_ok K' (h_sets h) idf l cur' -> sets_sim (metas_of K (x :: cur)) (delete l S) (delete l (h_sets h)) ->
    (cursor_fine S l -> cursor_fine (h_sets h) l) ->
    exists cur', merged idf cur [x] cur' /\ append_keys idf K (h_keys h) cur [x] /\
       merging (h_keys h) (h_sets h) cur' rest /\ sets_sim (metas_of K (x :: cur)) (delete l S) (delete l (h_sets h)) /\
       (cursor_fine S l -> cursor_fine (h_sets h) l)) as Hend.
  { intros K' cur' [K2 S'] Hm HK <- Hok' Hsim Hcf. exists cur'. split_and!; [done..| |done|done]. by eapply merging_next. }
  assert (forall S' cur' i, cur' !! i = Some x ->
    (exists s, S' !! l = Some s /\ ks_rep s cur') ->
    (exists s, S' !! l = Some s /\ ks_cursor s = Some x /\ ks_current s = i) -> cursor_fine S' l) as Hcur.
  { intros S' cur' i Hi (s1 & Hs1 & Hrep1) (s2 & Hs2 & _ & Hcu). assert (s1 = s2) as -> by congruence. exists s2. split; [done|].
    right. rewrite (rep_size _ _ Hrep1), Hcu. by eapply lookup_lt_Some. }
  assert (~ metas_of K (x :: cur) l) as Hap by (eapply mg_no_metas; [exact Hmg|by left|intros y [->|Hy]%elem_of_cons; auto]).
  destruct (decide (x ∈ cur)) as [Hin|Hout].
  - eapply wp_mono; [by apply (ksAppendKey_present idf K S l x cur k)|]. intros r h (_ & HK & Hsim). eapply Hend; [| |exact HK| | |].
    + split; [apply Hok|]. intros z. rewrite list_elem_of_singleton. split; [|by intros [->|[? _]]].
      intros Hz. destruct (decide (z = x)) as [->|Hzx]; [by left|right]. split; [done|].
      intros y ->%list_elem_of_singleton E. apply Hzx. by apply Hinj.
    + apply append_keys_present; [done..|]. intros z Hz E. by apply Hinj.
    + split.
      * destruct (kso_rep _ _ _ _ _ Hok) as (s & Hs & Hrep). exists s. split; [|done].
        rewrite (sets_sim_other _ _ _ _ Hsim); [done|]. done.
      * intros y Hy. eapply has_kid_same_ids; [by apply (same_ids_insert K x k)|]. eapply has_kid_sim; [exact Hsim|]. by apply Hok.
      * apply Hok.
      * intros (y & ky & _ & Hky & Hm). assert (k_meta (if decide (x = y) then k else ky) <> Some l) as Hml; [apply (Htarget y)|].
        -- case_decide as E; [by subst|]. by rewrite lookup_insert_ne in Hky.
        -- apply Hml. case_decide as E; [|done]. subst. rewrite lookup_insert_eq in Hky. by simplify_eq.
    + by apply sets_sim_delete.
    + intros (s & Hs & Hc). exists s. split; [|done]. by rewrite (sets_sim_other _ _ _ _ Hsim).
  - destruct (decide (Exists (fun z => idf z = idf x) cur)) as [(z & Hz & E)%Exists_exists|Hno].
    + destruct (list_elem_of_lookup_1 _ _ Hz) as [i Hi].
      destruct (Hrepl z x Hz ltac:(by left) (eq_sym E)) as [->|[Hd Hu]]; [done|].
      assert (z <> x) as Hzx by by intros ->.
      eapply wp_mono; [apply (ksAppendKey_replace_spec idf K S l x cur k i z); try done; [by apply Hids|by apply unlisted_not_metadata]|].
      intros r h (_ & HK & Hok' & Hat & Hon & Hsim). eapply Hend; [| |exact HK|exact Hok'|done|by intros _; eapply Hcur; [exact Hat|apply Hok'|exact Hon]].
      * apply merged_replace with z; [done..| | |apply Hok'].
        -- intros w Hw Ew. by apply Hinj.
        -- eapply kid_sorted_NoDup; [|apply Hok]. intros w Hw. eapply has_kid_ok, (kso_ids _ _ _ _ _ Hok _ Hw).
      * apply append_keys_replace; [done..|]. intros w Hw Ew. apply Hinj; congruence.
    + eapply wp_mono; [apply (ksAppendKey_new_spec idf K S l x cur k); try done; [by apply Hids|]|].
      { intros y Hy E. apply Hno, Exists_exists. by exists y. }
      intros r h (_ & i & Hi & HK & Hok' & Hat & Hon & Hsim). eapply Hend; [| |exact HK|exact Hok'|done|by intros _; eapply Hcur; [exact Hat|apply Hok'|exact Hon]].
      * apply merged_new; [|apply Hok']. intros y Hy E. apply Hno, Exists_exists. by exists y.
      * apply append_keys_new; [done|]. intros y Hy E. apply Hno, Exists_exists. by exists y.
Qed.

Lemma append_keys_snoc K0 K K' ls pre cur x :
  merged idf ls pre cur -> (forall y, y ∈ pre -> idf x <> idf y) ->
  append_keys idf K0 K ls pre -> append_keys idf K K' cur [x] -> append_keys idf K0 K' ls (pre ++ [x]).
Proof.
  intros [_ Hcur] Hpre H0 H1 z. rewrite H1, H0. destruct (K0 !! z) as [k|]; [|done]. simpl. clear H0 H1.
  assert (x ∉ pre) as Hxpre by (intros ?; by eapply Hpre).
  assert (forall y, y ∈ pre ++ [x] <-> y ∈ pre \/ y = x) as Hin by (intros y; by rewrite elem_of_app, list_elem_of_singleton).
  assert (forall (P : loc -> Prop), P x -> forall y, y ∈ [x] -> P y) as Hsing by (by intros P HP y ->%list_elem_of_singleton).
  destruct (decide (z ∈ pre)) as [Hp|Hp].
  { rewrite !appended_key_in by (rewrite ?Hin; auto). simpl. rewrite appended_key_kept; [done| |].
    - intros ->%list_elem_of_singleton. done.
    - intros _. apply Hsing. by apply Hpre. }
  destruct (decide (z = x)) as [->|Hzx].
  { rewrite (appended_key_kept idf ls pre x) by (done || by intros _ y Hy E; apply (Hpre y)). simpl.
    rewrite (appended_key_in idf cur) by by left. rewrite appended_key_in by (rewrite Hin; auto). f_equal. apply decide_ext. rewrite Hcur. split; [tauto|].
    intros Hx. right. split; [done|]. intros y Hy E. by apply (Hpre y). }
  assert (z ∉ [x]) as Hzx' by by intros ->%list_elem_of_singleton.
  assert (z ∉ pre ++ [x]) as Hzin by (rewrite Hin; tauto).
  destruct (decide (z ∈ ls /\ Exists (fun y => idf y = idf z) pre)) as [[Hls (y & Hy & E)%Exists_exists]|Hno].
  { rewrite (appended_key_replaced idf ls pre y) by done. rewrite (appended_key_replaced idf ls (pre ++ [x]) y) by (done || (apply Hin; auto)).
    destruct (1 <? _); [|done]. simpl. apply appended_key_kept; [done|]. intros [?|[_ Hn]]%Hcur; [done|]. by destruct (Hn y). }
  assert (z ∈ ls -> forall y, y ∈ pre -> idf y <> idf z) as Hkept.
  { intros Hz y Hy E. apply Hno. split; [done|]. apply Exists_exists. by exists y. }
  rewrite (appended_key_kept idf ls pre) by done. simpl. destruct (decide (z ∈ ls /\ idf x = idf z)) as [[Hz E]|Hz].
  - rewrite (appended_key_replaced idf cur [x] x), (appended_key_replaced idf ls (pre ++ [x]) x); try done; [rewrite Hin; auto| |by left].
    apply Hcur. right. auto.
  - rewrite !appended_key_kept; [done|done| |done|].
    + intros Hzl y [Hy| ->]%Hin; [by apply Hkept|]. intros E. by apply Hz.
    + intros [?|[Hzl _]]%Hcur; [done|]. apply Hsing. intros E. by apply Hz.
Qed.

Lemma metas_of_append_keys K0 K ls pre ys m : append_keys idf K0 K ls pre -> metas_of K ys m -> metas_of K0 ys m.
Proof.
  intros HK (y & k' & Hy & Hk' & Hm). destruct (append_keys_from _ _ _ _ _ _ _ HK Hk') as (k & Hk & E & _).
  exists y, k. split_and!; [done..|congruence].
Qed.

Lemma append_loop_spec K0 S0 ls fuel pre rest K S cur :
  xs = pre ++ rest -> length rest < fuel -> merging K S cur rest -> merged idf ls pre cur -> append_keys idf K0 K ls pre ->
  sets_sim (metas_of K0 (ls ++ xs)) (delete l S0) (delete l S) ->
  wp (append_loop fuel l la (length pre))
    (fun _ h => exists rs, merged idf ls xs rs /\ append_keys idf K0 (h_keys h) ls xs /\ merging (h_keys h) (h_sets h) rs [] /\
       sets_sim (metas_of K0 (ls ++ xs)) (delete l S0) (delete l (h_sets h)) /\ (cursor_fine S l -> cursor_fine (h_sets h) l)) (mkHeap K S).
Proof.
  revert pre rest K S cur. induction fuel as [|fuel IH]; intros pre rest K S cur Hxs Hf Hmg Hm HK Hsim; [lia|].
  pose proof (kid_sorted_NoDup _ _ Hkok Hsort) as Hnd. cbn [append_loop]. pose proof (mg_source _ _ _ _ Hmg) as Hsrc. wstep.
  assert (length xs = length pre + length rest) as Hlen by (by rewrite Hxs, length_app).
  rewrite (rep_size _ _ Hrepa), Hlen. destruct rest as [|x rest].
  - simpl. destruct (Nat.leb_spec (length pre + 0) (length pre)); [|lia]. apply wp_ret. exists cur.
    rewrite app_nil_r in Hxs. rewrite <- Hxs in Hm, HK. by split_and!.
  - simpl. destruct (Nat.leb_spec (length pre + Datatypes.S (length rest)) (length pre)); [lia|].
    assert (xs !! length pre = Some x) as Hx by (by rewrite Hxs, lookup_app_r, Nat.sub_diag by lia).
    rewrite (rep_get _ _ _ _ Hrepa Hx). wstep. apply wp_bind.
    assert (x ∈ xs) as Hxin by by eapply list_elem_of_lookup_2.
    rewrite Hxs in Hnd. apply NoDup_app in Hnd as (_ & Hdis & Hnd). apply NoDup_cons in Hnd as [Hxr _].
    assert (forall y, y ∈ pre -> idf x <> idf y) as Hpre.
    { intros y Hy E. apply (Hdis y Hy). assert (x = y) as ->; [|by left]. apply (kid_sorted_inj idf xs); [done..| |done].
      rewrite Hxs, elem_of_app. by left. }
    eapply wp_mono; [apply (merge_step K S cur x rest Hmg Hxin)|].
    { intros y Hy. split; [rewrite Hxs, elem_of_app; right; by right|]. by intros ->. }
    intros _ [K' S'] (cur' & Hm' & HK' & Hmg' & Hsim' & Hcf). simpl in *.
    replace (Datatypes.S (length pre)) with (length (pre ++ [x])) by (rewrite length_app; simpl; lia).
    eapply wp_mono; [eapply (IH _ rest); [by rewrite <- app_assoc|lia|exact Hmg'| | |]|].
    + by eapply merged_snoc.
    + by eapply append_keys_snoc.
    + etrans; [exact Hsim|]. eapply sets_sim_weaken; [|exact Hsim']. intros m Hmm.
      eapply metas_of_append_keys in Hmm; [|exact HK]. destruct Hmm as (y & k & Hy & Hk & Hkm). exists y, k. split_and!; [|done..].
      apply elem_of_app. apply elem_of_cons in Hy as [->|Hy]; [by right|]. apply Hm in Hy as [Hy|[Hy _]]; [|by left].
      right. rewrite Hxs, elem_of_app. by left.
    + intros _ h (rs & H1 & H2 & H3 & H4 & H5). exists rs. split_and!; auto.
Qed.
End Merge.

(** ** Appending a keyset *)

(** The keysets at [l] and [la], with the keys [ls] and [xs], may be united: the keys
    have names, [l] is no metadata and [la] not the metadata of one of them, and the keys of [l] that will be
    replaced have no metadata or another reference and are no metadata themselves. *)
Record appendable (idf : loc -> kid) (K : gmap loc Key) (S : gmap loc KeySet) (l la : loc) (ls xs : list loc) : Prop := {
  apd_target : keyset_ok K S idf l ls;
  apd_source : keyset_ok K S idf la xs;
  apd_ne : l <> la;
  apd_names x k : x ∈ xs -> K !! x = Some k -> k_key k <> None;
  apd_no_meta y k : K !! y = Some k -> k_meta k <> Some l;
  apd_metas y k : y ∈ xs \/ y ∈ ls -> K !! y = Some k -> k_meta k <> Some la;
  apd_replaced z x : z ∈ ls -> x ∈ xs -> idf x = idf z -> x = z \/ droppable K z /\ unlisted K S z
}.

Section Append.
Context {R : Rec} {HR : RecLaws R} (idf : loc -> kid).

Lemma grow_alloc_spec fuel a need h Q :
  1 <= a -> need + 1 < fuel + a -> 1 <= fuel -> (forall n, need < n -> Q n h) -> wp (grow_alloc fuel a need) Q h.
Proof.
  revert a. induction fuel as [|fuel IH]; intros a Ha Hf Hfuel HQ; [lia|]. cbn [grow_alloc].
  destruct (Nat.leb_spec a need); [|by apply wp_ret, HQ]. apply IH; [lia..|done].
Qed.

Lemma ksAppend_spec K S l la ls xs :
  appendable idf K S l la ls xs ->
  wp (ksAppend (Some l) (Some la))
    (fun r h => exists rs, merged idf ls xs rs /\ r = Z.of_nat (length rs) /\
       keyset_ok (h_keys h) (h_sets h) idf l rs /\ keyset_ok (h_keys h) (h_sets h) idf la xs /\
       append_keys idf K (h_keys h) ls xs /\ sets_sim (metas_of K (ls ++ xs)) (delete l S) (delete l (h_sets h)) /\
       (cursor_fine S l -> cursor_fine (h_sets h) l))
    (mkHeap K S).
Proof.
  intros [Hok Hoka Hne Hnames Htarget Hmetas Hrepl]. pose proof Hok as [(s & Hs & Hrep) Hids Hsort Hap].
  pose proof Hoka as [(sa & Hsa & Hrepa) Hidsa Hsorta Hapa]. unfold ksAppend. do 2 wstep.
  rewrite (rep_size _ _ Hrepa), (rep_size _ _ Hrep). destruct (Nat.eqb_spec (length xs) 0) as [H0|H0].
  - apply length_zero_iff_nil in H0 as ->. apply wp_ret. exists ls. split_and!; [by apply merged_nil|done|done|done| |done|done].
    intros z. simpl. destruct (K !! z) as [k|]; [|done]. simpl. rewrite appended_key_kept; [done|apply not_elem_of_nil|].
    intros _ y Hy%not_elem_of_nil. done.
  - cbn zeta. apply wp_bind. pose proof (blk_min _ _ (rep_block _ _ Hrep)) as Hmin. unfold KEYSET_SIZE in Hmin.
    apply grow_alloc_spec; [lia..|]. intros n Hn. apply wp_bind.
    eapply ksResize_spec; [exact Hs|apply Hrep|lia|rewrite (rep_size _ _ Hrep); lia|]. intros r s' Hb' Hsz' _ Hcu Hci _.
    assert (ks_rep s' ls) as Hrep' by (split; [done|]; by rewrite Hsz', (rep_size _ _ Hrep)).
    assert (forall x id, has_kid K S x id -> has_kid K (<[l := s']> S) x id) as Hkid.
    { intros x id. apply has_kid_sets. intros k m Hk Hm. rewrite lookup_insert_ne; [done|]. intros ->. by apply (Htarget x k Hk). }
    assert (forall x, x ∈ xs -> kid_ok (idf x)) as Hkok by (intros x Hx; by eapply has_kid_ok, Hidsa).
    apply wp_bind. eapply wp_mono; [apply (append_loop_spec idf l la xs sa Hne Hrepa Hsorta Hkok K (<[l := s']> S) ls _ [] xs K (<[l := s']> S) ls)|].
    + done.
    + lia.
    + split; [| |by intros x Hx; apply Hkid, Hidsa|done|done|done|].
      * split; [|by intros x Hx; apply Hkid, Hids|done..]. exists s'. by rewrite lookup_insert_eq.
      * by rewrite lookup_insert_ne.
      * intros z x Hz Hx E. destruct (Hrepl z x Hz Hx E) as [?|[Hd Hu]]; [by left|]. right. split; [done|].
        intros y k m s1 ms Hy Hm Hs1. eapply Hu; [done..|]. rewrite <- Hs1. rewrite lookup_insert_ne; [done|].
        intros ->. by apply (Htarget y k Hy).
    + by apply merged_nil.
    + intros z. destruct (K !! z) as [k|]; [|done]. simpl. rewrite appended_key_kept; [done|apply not_elem_of_nil|].
      intros _ y Hy%not_elem_of_nil. done.
    + done.
    + intros _ [K' S'] (rs & Hm & HK & Hmg & Hsim & Hcf). simpl in *. rewrite delete_insert_any in Hsim.
      destruct (kso_rep _ _ _ _ _ (mg_ok _ _ _ _ _ _ _ _ _ Hmg)) as (s2 & Hs2 & Hrep2). wstep. apply wp_ret.
      exists rs. split_and!; [done|by rewrite (rep_size _ _ Hrep2)|apply Hmg| |done|done|].
      * split; [|apply Hmg|done|].
        -- exists sa. split; [apply Hmg|done].
        -- eapply mg_no_metas; [exact Hmg|by right|auto].
      * intros (s1 & Hs1 & Hc1). apply Hcf. exists s'. split; [apply lookup_insert_eq|]. assert (s1 = s) as -> by congruence.
        unfold cursor_ok in *. by rewrite Hcu, Hci, Hsz'.
Qed.

(** C6.  [ksAppend] makes the union of two keysets: the target is sorted and has exactly
    the keys of the source and those of its own keys whose name and owner no key of the
    source has; the new size is returned.  Appended keys have a locked name and one
    reference more if they were not in the target, replaced keys lose one and are freed
    when it was the last; all other keys, the source and the other keysets stay. *)
Theorem ksAppend_merges K S l la ls xs :
  appendable idf K S l la ls xs ->
  wp (ksAppend (Some l) (Some la))
    (fun r h => exists rs, merged idf ls xs rs /\ r = Z.of_nat (length rs) /\
       keyset_ok (h_keys h) (h_sets h) idf l rs /\ keyset_ok (h_keys h) (h_sets h) idf la xs /\
       append_keys idf K (h_keys h) ls xs /\ sets_sim (metas_of K (ls ++ xs)) (delete l S) (delete l (h_sets h)) /\
       (cursor_fine S l -> cursor_fine (h_sets h) l))
    (mkHeap K S).
Proof. apply ksAppend_spec. Qed.

(** ** Keysets that are not appended to *)

(** No key has the keyset at [m] as its metadata. *)
Definition no_meta (K : gmap loc Key) (m : loc) : Prop := forall y k, K !! y = Some k -> k_meta k <> Some m.

Lemma no_meta_appended K K' cur ys m : append_keys idf K K' cur ys -> no_meta K m -> no_meta K' m.
Proof.
  intros HK Hm y k' Hk'. destruct (append_keys_from _ _ _ _ _ _ _ HK Hk') as (k & Hk & -> & _). by eapply Hm.
Qed.

Lemma no_meta_metas K ls m : no_meta K m -> ~ metas_of K ls m.
Proof. intros H (x & k & _ & Hk & Hm). by eapply H. Qed.

Lemma keyset_ok_appended P K K' S S' l cur ys m zs :
  append_keys idf K K' cur ys -> sets_sim P (delete l S) (delete l S') -> ~ P m -> m <> l -> no_meta K l -> no_meta K m ->
  (forall z, replaced idf cur ys z -> z ∉ zs /\ unlisted K S z) -> keyset_ok K S idf m zs -> keyset_ok K' S' idf m zs.
Proof.
  intros HK Hsim HP Hne Hl Hm Hr [(s & Hs & Hrep) Hids Hsort _]. split; [| |done|].
  - exists s. split; [|done]. rewrite <- (lookup_delete_ne S' l), (sets_sim_other _ _ _ _ Hsim), lookup_delete_ne by done. done.
  - intros z Hz. eapply has_kid_append_keys; [exact HK|exact Hsim| | |by intros [? _]%Hr|by apply Hids].
    + intros k Hk. by eapply Hl.
    + intros w Hw. by apply Hr.
  - apply no_meta_metas. by eapply no_meta_appended.
Qed.

Lemma keyset_ok_sim_delete P K S S' l m zs :
  sets_sim P (delete l S) (delete l S') -> ~ P m -> m <> l -> no_meta K l -> no_meta K m ->
  keyset_ok K S idf m zs -> keyset_ok K S' idf m zs.
Proof.
  intros Hsim HP Hne Hl Hm. apply (keyset_ok_appended P K K S S' l [] []); [|done..|].
  - intros z. destruct (K !! z) as [k|]; [|done]. simpl. rewrite appended_key_kept; [done|apply not_elem_of_nil|].
    intros Hz%not_elem_of_nil. done.
  - by intros z (Hz%not_elem_of_nil & _).
Qed.

(** Keys that have another reference only lose one. *)
Lemma release_ids K xs : NoDup xs -> (forall x, x ∈ xs -> exists k, K !! x = Some k /\ 1 < k_ksReference k) ->
  same_ids K (foldl release K xs) /\
  forall z, foldl release K xs !! z = k ← K !! z; Some (if decide (z ∈ xs) then set_ref k (k_ksReference k - 1) else k).
Proof.
  intros Hnd Hr.
  assert (forall z, foldl release K xs !! z = k ← K !! z; Some (if decide (z ∈ xs) then set_ref k (k_ksReference k - 1) else k)) as H.
  { intros z. destruct (decide (z ∈ xs)) as [Hz|Hz].
    - rewrite release_list_lookup by done. destruct (Hr z Hz) as (k & -> & Hk). simpl. by rewrite (proj2 (Nat.ltb_lt _ _) Hk).
    - rewrite release_list_other by done. by destruct (K !! z). }
  split; [|done]. intros z k Hz. rewrite H, Hz. simpl. eexists. split; [done|]. by case_decide.
Qed.

Lemma keyset_ok_same_ids K K' S l ls : same_ids K K' -> no_meta K' l -> keyset_ok K S idf l ls -> keyset_ok K' S idf l ls.
Proof.
  intros HK Hm [Hrep Hids Hsort _]. split; [done| |done|by apply no_meta_metas].
  intros x Hx. eapply has_kid_same_ids; [done|by apply Hids].
Qed.

Lemma keyset_ok_sets K S S' m ls :
  keyset_ok K S idf m ls -> S' !! m = S !! m -> (forall m', metas_of K ls m' -> S' !! m' = S !! m') -> keyset_ok K S' idf m ls.
Proof.
  intros [(s & Hs & Hrep) Hids Hsort Hap] Hm Hms. split; [exists s; by rewrite Hm| |done..].
  intros x Hx. apply (has_kid_sets K S); [|by apply Hids]. intros k m' Hk Hm'. apply Hms. by exists x, k.
Qed.

Lemma keyset_ok_insert K S l s m ls :
  keyset_ok K S idf m ls -> m <> l -> no_meta K l -> keyset_ok K (<[l := s]> S) idf m ls.
Proof.
  intros Hok Hne Hm. eapply keyset_ok_sets; [done|by rewrite lookup_insert_ne|].
  intros m' Hm'. rewrite lookup_insert_ne; [done|]. intros <-. by eapply no_meta_metas.
Qed.

Lemma keyset_ok_delete K S l m ls : keyset_ok K S idf m ls -> m <> l -> no_meta K l -> keyset_ok K (delete l S) idf m ls.
Proof.
  intros Hok Hne Hm. eapply keyset_ok_sets; [done|by rewrite lookup_delete_ne|].
  intros m' Hm'. rewrite lookup_delete_ne; [done|]. intros <-. by eapply no_meta_metas.
Qed.

(** Appending to an empty keyset. *)
Lemma merged_empty xs rs : (forall x, x ∈ xs -> kid_ok (idf x)) -> kid_sorted idf xs -> merged idf [] xs rs -> rs = xs.
Proof.
  intros Hok Hs [Hrs Hin]. symmetry. apply (kid_sorted_ext idf); [done..|]. intros z. rewrite Hin, elem_of_nil. tauto.
Qed.

Lemma keyset_ok_kid K S l ls x : keyset_ok K S idf l ls -> x ∈ ls -> kid_ok (idf x).
Proof. intros Hok Hx. eapply has_kid_ok, (kso_ids _ _ _ _ _ Hok), Hx. Qed.

Lemma keyset_ok_nil K S l s : S !! l = Some s -> ks_rep s [] -> keyset_ok K S idf l [].
Proof.
  intros Hs Hrep. split; [by exists s|by intros x Hx%not_elem_of_nil|constructor|].
  by intros (x & k & Hx%not_elem_of_nil & _).
Qed.

Lemma referenced_back k : (Z.of_nat (k_ksReference k) < SSIZE_MAX)%Z -> set_ref (referenced (locked k)) (k_ksReference (referenced (locked k)) - 1) = locked k.
Proof. intros H. destruct k. unfold set_ref, referenced, locked. simpl in *. by rewrite one_more_lt, Nat.sub_1_r by done. Qed.

(** The keys of [lr] move to the empty keyset [l], which takes over the references. *)
Lemma refill_spec K S l lr s xs (Q : unit -> heap -> Prop) :
  keyset_ok K S idf lr xs -> S !! l = Some s -> ks_rep s [] -> l <> lr -> no_meta K l -> no_meta K lr ->
  (forall x k, x ∈ xs -> K !! x = Some k -> 1 <= k_ksReference k /\ (Z.of_nat (k_ksReference k) < SSIZE_MAX)%Z /\ k_key k <> None) ->
  (forall K' S', keyset_ok K' S' idf l xs -> same_ids K K' ->
     (forall z, K' !! z = k ← K !! z; Some (if decide (z ∈ xs) then locked k else k)) ->
     sets_sim (metas_of K xs) (delete l (delete lr S)) (delete l S') -> Q tt (mkHeap K' S')) ->
  wp (ksAppend (Some l) (Some lr);; ksDel (Some lr);; ret tt) Q (mkHeap K S).
Proof.
  intros Hok Hs Hrep Hne Hml Hmlr Hk HQ. assert (NoDup xs) as Hnd.
  { eapply kid_sorted_NoDup, Hok. intros x Hx. by eapply keyset_ok_kid. }
  apply wp_bind. eapply wp_mono; [apply (ksAppend_spec K S l lr [] xs)|].
  { split; [by eapply keyset_ok_nil|done..| |exact Hml|by intros y k _; apply Hmlr|by intros z x Hz%not_elem_of_nil].
    intros x k Hx Hkx. by apply (Hk x k). }
  intros _ [K1 S1] (rs & Hm & _ & Hok1 & Hok2 & HK1 & Hsim & _). cbn [h_keys h_sets app] in *.
  apply merged_empty in Hm as ->; [|intros x; by eapply keyset_ok_kid|apply Hok].
  assert (no_meta K1 l /\ no_meta K1 lr) as [Hml1 Hmlr1] by (split; by eapply no_meta_appended).
  assert (forall z, K1 !! z = k ← K !! z; Some (if decide (z ∈ xs) then referenced (locked k) else k)) as HK1'.
  { intros z. rewrite HK1. destruct (K !! z) as [k|]; [|done]. simpl. case_decide.
    - rewrite appended_key_in by done. by rewrite decide_False by apply not_elem_of_nil.
    - rewrite appended_key_kept; [done..|]. intros Hz%not_elem_of_nil. done. }
  assert (forall x, x ∈ xs -> exists k, K1 !! x = Some k /\ 1 < k_ksReference k) as Hrefs.
  { intros x Hx. destruct (kso_ids _ _ _ _ _ Hok x Hx) as (k & Hkx & _). rewrite HK1', Hkx. simpl. rewrite decide_True by done.
    eexists. split; [done|]. destruct (Hk x k Hx Hkx) as [Hr _]. by apply one_more_several. }
  destruct (release_ids K1 xs Hnd Hrefs) as [Hids HK2]. destruct (kso_rep _ _ _ _ _ Hok2) as (s2 & Hs2 & Hrep2).
  apply wp_bind. eapply ksDel_spec; [exact Hs2|exact Hrep2|done| |].
  { intros x Hx. destruct (Hrefs x Hx) as (k & ? & ?). exists k. auto. }
  assert (forall z, foldl release K1 xs !! z = k ← K !! z; Some (if decide (z ∈ xs) then locked k else k)) as HK'.
  { intros z. rewrite HK2, HK1'. destruct (K !! z) as [k|] eqn:Ez; [|done]. simpl. case_decide as Hz; [|done].
    rewrite referenced_back; [done|]. by apply (Hk z k Hz Ez). }
  apply wp_ret, HQ; [| |exact HK'|].
  - apply keyset_ok_delete; [|done|].
    + eapply keyset_ok_same_ids; [exact Hids| |exact Hok1]. intros y k' Hk'. rewrite HK2 in Hk'.
      destruct (K1 !! y) as [k|] eqn:Ey; [|done]. simpl in Hk'. injection Hk' as <-. case_decide; simpl; by eapply Hml1.
    + intros y k' Hk'. rewrite HK2 in Hk'. destruct (K1 !! y) as [k|] eqn:Ey; [|done]. simpl in Hk'. injection Hk' as <-.
      case_decide; simpl; by eapply Hmlr1.
  - intros z k Hz. rewrite HK', Hz. simpl. eexists. split; [done|]. by case_decide.
  - rewrite (delete_delete S), (delete_delete S1). by apply sets_sim_delete.
Qed.
End Append.
