(* ===== verification/SetMeta.v ===== *)
(** * SetMeta: metadata as a finite map

    [keySetMeta] pops the metadata key with the name from the metadata keyset and
    appends a new one.  Here the metadata of a key is a finite map from names to
    values, and setting and removing refine the insertion into it and the deletion
    from it.  [ksLookup] with [KDB_O_POP] comes first. *)
From S2P Require Export Merge CutFacts.
Local Open Scope elektra_scope.

(** ** Popping at the cursor *)

(** One cell is moved behind the cells of [c]. *)
Lemma rotate_cells {X} (a c rest : list X) (y : X) :
  <[length a + length c := y]>
    (take (length a) (a ++ y :: c ++ rest) ++
     take (length c) (drop (length a + 1) (a ++ y :: c ++ rest)) ++
     drop (length a + length c) (a ++ y :: c ++ rest)) = a ++ c ++ y :: rest.
Proof.
  rewrite take_app_length, <- !drop_drop, !drop_app_length. cbn [drop]. rewrite drop_0, take_app_length.
  rewrite insert_app_r_alt by lia. replace (length a + length c - length a) with (length c) by lia.
  rewrite insert_app_r_alt, Nat.sub_diag by lia. do 2 f_equal.
  assert (exists z, drop (length c) (y :: c ++ rest) = z :: rest) as [z ->]; [|done].
  rewrite app_comm_cons. destruct (exists_last (l := y :: c)) as (c' & z & E); [done|].
  exists z. pose proof (f_equal length E) as El. rewrite length_app in El. simpl in El.
  rewrite E, <- app_assoc. replace (length c) with (length c') by lia. by rewrite drop_app_length.
Qed.

Section Pop.
Context {R : Rec}.

Lemma rotate_rep s a x b :
  ks_rep s (a ++ x :: b) ->
  exists s1 s2, array_memmove s (length a) (length a + 1) (length b) = ret s1 /\ ks_size s1 = ks_size s /\
    array_set s1 (length a + length b) (Some x) = ret s2 /\ ks_rep s2 ((a ++ b) ++ [x]).
Proof.
  intros [[(rest & Ea & El & Ht) Hroom Hmin] Hsz]. rewrite length_app in *. simpl in *.
  rewrite cells_app, <- app_assoc in Ea. simpl in Ea.
  pose proof (rotate_cells (cells a) (cells b) rest (Some (Some x))) as Erot. rewrite !length_cells in Erot.
  set (a1 := take (length a) _ ++ _) in Erot.
  assert (length a1 = ks_alloc s) as Hlen.
  { apply (f_equal length) in Erot. rewrite length_insert in Erot. rewrite Erot, !length_app, !length_cells. simpl. lia. }
  exists (ks_with_array s (Some a1)). eexists. split_and!; [|done|apply array_set_ok; [done|lia]|].
  - unfold array_memmove. rewrite Ea, !length_app. simpl. rewrite length_app, !length_cells.
    assert ((length a + length b <=? length a + S (length b + length rest)) = true) as -> by (apply Nat.leb_le; lia).
    assert ((length a + 1 + length b <=? length a + S (length b + length rest)) = true) as -> by (apply Nat.leb_le; lia). done.
  - assert (length ((a ++ b) ++ [x]) = length a + S (length b)) as E by (rewrite !length_app; simpl; lia).
    split; [split|]; cbn [ks_array ks_alloc ks_size ks_with_array]; rewrite ?E; [|lia|done|done].
    exists rest. split_and!; [|lia|intros _; apply Ht; by destruct a].
    rewrite Erot, !cells_app, <- !app_assoc. done.
Qed.

Lemma elektraKsPopAtCursor_spec K S l s a x b k Q :
  S !! l = Some s -> ks_rep s (a ++ x :: b) -> K !! x = Some k ->
  (forall s', ks_rep s' (a ++ b) -> cursor_ok s' ->
     Q (Some x) (mkHeap (<[x := set_ref k (k_ksReference k - 1)]> K) (<[l := s']> S))) ->
  wp (elektraKsPopAtCursor (Some l) (Z.of_nat (length a))) Q (mkHeap K S).
Proof.
  intros Hs Hrep Hk HQ. pose proof (rep_size _ _ Hrep) as Hsz. rewrite length_app in Hsz. simpl in Hsz.
  unfold elektraKsPopAtCursor. destruct (Z.ltb_spec (Z.of_nat (length a)) 0); [lia|]. rewrite Nat2Z.id. wstep.
  destruct (Nat.leb_spec (ks_size s) (length a)); [lia|].
  assert (forall s2, ks_rep s2 ((a ++ b) ++ [x]) ->
    wp (ksRewind (Some l);; ksPop (Some l)) Q (mkHeap K (<[l := s2]> S))) as Hfin.
  { intros s2 Hrep2. apply wp_bind. eapply ksRewind_spec; [apply lookup_insert_eq|]. rewrite insert_insert_eq.
    eapply (ksPop_spec K _ l _ (a ++ b) x k); [apply lookup_insert_eq|by apply ks_rep_cursor|done|].
    intros s' Hrep' Hc _ _. rewrite insert_insert_eq. apply HQ; [done|]. by left. }
  destruct (Nat.eqb_spec (length a) (ks_size s - 1)) as [E|E]; cbn [negb].
  - destruct b as [|y b]; [|simpl in *; lia]. apply wp_ret_bind. rewrite <- (insert_id S l s) by done. apply Hfin. by rewrite app_nil_r.
  - rewrite (rep_get s _ (length a) x Hrep) by by apply list_lookup_middle. wstep.
    destruct (rotate_rep s a x b Hrep) as (s1 & s2 & E1 & Esz & E2 & Hrep2).
    replace (ks_size s - length a - 1) with (length b) by lia. rewrite E1. do 4 wstep. rewrite Esz.
    replace (ks_size s - 1) with (length a + length b) by lia. rewrite E2. do 2 wstep. by apply Hfin.
Qed.

(** ** Looking up a key and popping it *)

(** What the popping lookup of a key with the unescaped name [u] promises. *)
Definition pops (K : gmap loc Key) (S : gmap loc KeySet) (l : loc) (ls : list loc) (u : list ascii)
    (Q : ptr -> heap -> Prop) : Prop :=
  (find_uname K ls u = None -> forall S', sets_sim (eq l) S S' -> Q None (mkHeap K S')) /\
  (forall a x b k s', ls = a ++ x :: b -> uname_of K x = u -> K !! x = Some k -> ks_rep s' (a ++ b) -> cursor_ok s' ->
     Q (Some x) (mkHeap (<[x := set_ref k (k_ksReference k - 1)]> K) (<[l := s']> S))).

Lemma elektraLookupBinarySearch_pops K S l ls key k options Q :
  set_ok K S l ls -> K !! key = Some k ->
  test_bit options KDB_O_WITHOWNER = false -> test_bit options KDB_O_NOCASE = false -> test_bit options KDB_O_POP = true ->
  pops K S l ls (k_uname k) Q -> wp (elektraLookupBinarySearch l key options) Q (mkHeap K S).
Proof.
  intros (s & Hs & Hrep & Hc & Hlive & Hsort) Hk Ho Hn Hp [HN HS].
  unfold elektraLookupBinarySearch, ksGetCursor. wsteps. apply wp_bind. rewrite (rep_size _ _ Hrep). eapply wp_mono.
  - eapply (bsearch_spec s ls Hrep (fun x => uname_order (k_uname k) (uname_of K x)) (fun h => h = mkHeap K S));
      [by apply uname_sorted_ordered| |lia..| |done].
    + unfold search_compare. rewrite Ho, Hn. simpl. by apply keyCompareByName_compares.
    + intros i x Hi. split; [lia|]. apply lookup_lt_Some in Hi. lia.
  - intros [i|] h' (-> & H).
    + destruct H as (x & Hx & Hz). rewrite Hp. apply uname_order_zero in Hz.
      pose proof (take_drop_middle _ _ _ Hx) as El. unfold keys_live in Hlive. rewrite Forall_forall in Hlive.
      destruct (Hlive x ltac:(by eapply list_elem_of_lookup_2)) as [kx Hkx].
      assert (i = length (take i ls)) as Ei by (rewrite length_take; apply lookup_lt_Some in Hx; lia). rewrite Ei.
      eapply elektraKsPopAtCursor_spec; [done|by rewrite El|done|]. intros s' Hrep' Hc'. by eapply HS.
    + apply wp_bind. eapply restore_cursor_spec; [done..|]. intros c i r Hci. apply wp_ret. apply HN.
      * apply find_uname_None. intros x Hx Hu. apply (H x Hx). by apply uname_order_zero.
      * apply sets_sim_insert with s; [done|done|]. by apply set_sim_cursor.
Qed.
End Pop.

(** What the recursive calls promise when they pop. *)
Class PopLaws (R : Rec) : Prop :=
  rec_lookup_pops K S l ls key k name Q :
    set_ok K S l ls -> K !! key = Some k -> k_key k = Some name -> k_meta k = None -> deref name <> SLASH -> key ∉ ls ->
    pops K S l ls (k_uname k) Q -> wp (rec_ksLookup (Some l) (Some key) KDB_O_POP) Q (mkHeap K S).

(** The key looked up with may be the one that is popped. *)
Lemma ksLookup_pops {CB : Callbacks} n K S l ls key k name Q :
  set_ok K S l ls -> K !! key = Some k -> k_key k = Some name -> k_meta k = None -> deref name <> SLASH ->
  pops K S l ls (k_uname k) Q -> wp (ksLookup n (Some l) (Some key) KDB_O_POP) Q (mkHeap K S).
Proof.
  intros Hset Hk Hn Hm Hsl [HN HS]. unfold ksLookup, ksLookup_body. wstep. rewrite Hn.
  replace (_ && _ && _) with false by (rewrite (bool_decide_false (deref name = SLASH)) by done; by rewrite andb_false_r).
  apply wp_bind. simpl. unfold elektraLookupSearch. apply wp_bind.
  eapply elektraLookupBinarySearch_pops; [exact Hset|exact Hk|done..|]. split.
  - intros Hf S' Hsim. apply wp_bind. eapply keyGetMeta_none; [done..|]. apply wp_ret. wsteps. by apply HN.
  - intros a x b kx s' El Hu Hkx Hrep Hc. apply wp_bind.
    assert (exists k', <[x := set_ref kx (k_ksReference kx - 1)]> K !! key = Some k' /\ k_meta k' = None) as (k' & Hk' & Hm').
    { destruct (decide (x = key)) as [->|Hne]; [|exists k; by rewrite lookup_insert_ne]. rewrite lookup_insert_eq.
      assert (kx = k) as -> by congruence. by eexists. }
    eapply keyGetMeta_none; [exact Hk'|done|]. apply wp_ret. wsteps. by eapply HS.
Qed.

#[global] Instance knot_pops {CB : Callbacks} n : PopLaws (knot (S n)).
Proof. intros K S l ls key k name Q Hset Hk Hn Hm Hsl _ HP. by eapply (ksLookup_pops n). Qed.

(** ** Metadata as a keyset *)

Definition plain_id (K : gmap loc Key) (z : loc) : kid := (uname_of K z, None).
Definition plain_keys (K : gmap loc Key) (ms : list loc) : Prop := forall x, x ∈ ms -> plain_key K x.

Lemma plain_has_kid K S x : plain_key K x -> has_kid K S x (plain_id K x).
Proof. intros (k & Hk & Hm). exists k. unfold plain_id, uname_of, has_meta. by rewrite Hk, Hm. Qed.

Lemma plain_no_metas K xs m : plain_keys K xs -> ~ metas_of K xs m.
Proof. intros H (x & k & Hx & Hk & Hm). destruct (H x Hx) as (k' & ? & ?). congruence. Qed.

Lemma plain_kid_lt u v : kid_lt (u, None) (v, None) <-> uname_lt u v.
Proof. unfold kid_lt, kid_order, uname_lt. simpl. destruct (Z.eqb_spec (uname_order u v) 0); [split; lia|done]. Qed.

Lemma set_ok_keyset K S m ms : set_ok K S m ms -> plain_keys K ms -> keyset_ok K S (plain_id K) m ms.
Proof.
  intros (s & Hs & Hrep & _ & _ & Hsort) Hpl. split; [by exists s|by intros x Hx; apply plain_has_kid, Hpl| |by apply plain_no_metas].
  unfold uname_sorted in Hsort. clear Hpl Hrep. induction Hsort as [|x ls _ IH Hf]; constructor; [done|].
  rewrite Forall_forall in *. intros y Hy. by apply plain_kid_lt, Hf.
Qed.

Lemma keyset_set_ok K K' S m ms s :
  keyset_ok K' S (plain_id K) m ms -> S !! m = Some s -> cursor_ok s ->
  set_ok K' S m ms /\ forall x, x ∈ ms -> uname_of K' x = uname_of K x.
Proof.
  intros [(s' & Hs' & Hrep) Hid Hsort _] Hs Hc. rewrite Hs in Hs'. injection Hs' as <-.
  assert (forall x, x ∈ ms -> is_Some (K' !! x) /\ uname_of K' x = uname_of K x) as Hx.
  { intros x Hx. destruct (Hid x Hx) as (k & Hk & Hu & _). split; [by exists k|]. unfold uname_of at 1. by rewrite Hk. }
  split; [|intros x H; by apply Hx]. exists s. split_and!; [done..| |].
  - apply Forall_forall. intros x H. by apply Hx.
  - unfold uname_sorted. clear Hrep Hid Hs. induction Hsort as [|x ls Hsort IH Hf]; [constructor|]. constructor.
    + apply IH. intros y Hy. apply Hx. by right.
    + rewrite Forall_forall in *. intros y Hy. rewrite (proj2 (Hx x ltac:(by left))), (proj2 (Hx y ltac:(by right))).
      apply plain_kid_lt. by apply Hf.
Qed.

Lemma set_ok_live K S m ms x : set_ok K S m ms -> x ∈ ms -> is_Some (K !! x).
Proof. intros (_ & _ & _ & _ & Hl & _). unfold keys_live in Hl. rewrite Forall_forall in Hl. apply Hl. Qed.

Lemma set_ok_sorted K S m ms : set_ok K S m ms -> uname_sorted K ms.
Proof. by intros (_ & _ & _ & _ & _ & ?). Qed.

Lemma find_uname_ext K K' ms ms' u :
  uname_sorted K ms -> (forall x, x ∈ ms' /\ uname_of K' x = u <-> x ∈ ms /\ uname_of K x = u) ->
  find_uname K' ms' u = find_uname K ms u.
Proof.
  intros Hs H. pose proof (find_uname_spec K' ms' u) as H'. destruct (find_uname K' ms' u) as [x|] eqn:E.
  - symmetry. apply find_uname_Some; [done|by apply H..].
  - symmetry. apply find_uname_None. intros x Hx Hu. destruct (proj2 (H x) (conj Hx Hu)) as [? ?]. by apply (H' x).
Qed.

Section SetMeta.
Context {R : Rec} {HR : RecLaws R} {HP : PopLaws R}.

Definition synced (k : Key) : Key := set_flags k (set_bit (k_flags k) KEY_FLAG_SYNC).

(** The key that holds the metadata value, in the metadata keyset. *)
Definition meta_locked (t : Key) : Key :=
  set_flags t (set_bit (set_bit (set_bit (k_flags t) KEY_FLAG_RO_NAME) KEY_FLAG_RO_VALUE) KEY_FLAG_RO_META).

(** Appending the new metadata key at [f], which ends [keySetMeta]. *)
Lemma append_meta_spec K S l k m ms f t (r : Z) Q :
  set_ok K S m ms -> plain_keys K ms -> K !! l = Some k -> l ∉ ms -> K !! f = Some t -> f <> l -> f ∉ ms ->
  k_meta t = None -> k_key t <> None -> find_uname K ms (k_uname t) = None ->
  (forall S' ms', let t' := referenced (locked (meta_locked t)) in let K' := <[l := synced k]> (<[f := t']> K) in
     delete m S' = delete m S -> set_ok K' S' m ms' -> (forall x, x ∈ ms' <-> x = f \/ x ∈ ms) -> Q r (mkHeap K' S')) ->
  wp (t <- get_key f;; put_key f (meta_locked t);; ksAppendKey (Some m) (Some f);;
      k <- get_key l;; put_key l (synced k);; ret r) Q (mkHeap K S).
Proof.
  intros Hset Hpl Hk Hl Hf Hfl Hfms Htm Htn Hnew HQ. wstep. wstep. set (K1 := <[f := meta_locked t]> K).
  assert (same_ids K K1) as Hsame by by apply (same_ids_insert K f t).
  assert (forall x, x ∈ ms -> K1 !! x = K !! x) as HK1 by (intros x Hx; unfold K1; rewrite lookup_insert_ne; [done|by intros ->]).
  assert (plain_keys K1 (f :: ms)) as Hpl1.
  { intros x [->|Hx]%elem_of_cons; [exists (meta_locked t); split; [apply lookup_insert_eq|done]|].
    unfold plain_key. rewrite HK1 by done. by apply Hpl. }
  assert (plain_keys K1 ms) as Hpl1' by (intros x Hx; apply Hpl1; by right).
  assert (set_ok K1 S m ms) as Hset1 by by eapply set_ok_same_ids.
  apply wp_bind. eapply wp_mono; [eapply (ksAppendKey_new_spec (plain_id K1) K1 S m f ms (meta_locked t))|].
  - by apply set_ok_keyset.
  - apply lookup_insert_eq.
  - done.
  - apply plain_has_kid, Hpl1. by left.
  - by apply plain_no_metas.
  - intros x Hx [= E]. unfold uname_of, K1 in E. rewrite lookup_insert_eq, lookup_insert_ne in E by by intros ->.
    pose proof (find_uname_spec K ms (k_uname t)) as Hsp. rewrite Hnew in Hsp. by apply (Hsp x).
  - intros r' [K2 S2] (_ & i & Hi & HK2 & Hok & Hfi & (s2 & Hs2 & Hc2 & Hu2) & Hsim). cbn [h_keys h_sets] in *. rewrite <- HK2 in Hok.
    assert (K2 !! l = Some k) as Hk2.
    { rewrite HK2, lookup_insert_ne by done. unfold K1. by rewrite lookup_insert_ne. }
    do 2 wstep. apply wp_ret.
    assert (cursor_ok s2) as Hcok.
    { right. destruct (kso_rep _ _ _ _ _ Hok) as (s3 & Hs3 & Hrep3). rewrite Hs2 in Hs3. injection Hs3 as <-.
      rewrite (rep_size _ _ Hrep3), Hu2. by eapply lookup_lt_Some. }
    destruct (keyset_set_ok _ _ _ _ _ _ Hok Hs2 Hcok) as [Hset2 _].
    assert (K2 = <[f := referenced (locked (meta_locked t))]> K) as EK2 by (rewrite HK2; unfold K1; apply insert_insert_eq).
    rewrite EK2. apply HQ with (take i ms ++ f :: drop i ms).
    + apply map_eq. intros m'. symmetry. apply (sets_sim_other _ _ _ m') in Hsim; [done|]. by apply plain_no_metas.
    + eapply set_ok_same_ids; [|exact Hset2]. rewrite <- EK2. by apply (same_ids_insert K2 l k).
    + intros x. rewrite <- (take_drop i ms) at 3. rewrite !elem_of_app, elem_of_cons. tauto.
Qed.

(** [keyDel] of a plain key that was popped drops the reference the keyset held. *)
Lemma keyDel_popped K S x k Q :
  K !! x = Some k -> k_meta k = None -> (forall r, Q r (mkHeap (release K x) S)) ->
  wp (keyDel (Some x)) Q (mkHeap (<[x := set_ref k (k_ksReference k - 1)]> K) S).
Proof.
  intros Hk Hm HQ. unfold release in HQ. rewrite Hk in HQ. destruct (Nat.ltb_spec 1 (k_ksReference k)).
  - eapply keyDel_referenced_spec; [apply lookup_insert_eq|simpl; lia|]. apply HQ.
  - eapply keyDel_plain_spec; [apply lookup_insert_eq|done|simpl; lia|]. rewrite delete_insert_eq. apply HQ.
Qed.

Lemma release_live K x y : y <> x -> K !! y = release K x !! y.
Proof. intros H. symmetry. apply release_other. by intros ->. Qed.

(** The keys [K] without the metadata [u] in [ms]. *)
Definition without (K : gmap loc Key) (ms : list loc) (u : list ascii) : gmap loc Key :=
  match find_uname K ms u with Some x => release K x | None => K end.

Lemma without_other K ms u y : find_uname K ms u <> Some y -> without K ms u !! y = K !! y.
Proof. unfold without. destruct (find_uname K ms u); [|done]. intros H. apply release_other. congruence. Qed.

Lemma set_ok_split K S S' m a x b s' :
  set_ok K S m (a ++ x :: b) -> S' !! m = Some s' -> ks_rep s' (a ++ b) -> cursor_ok s' ->
  set_ok (release K x) S' m (a ++ b) /\
  forall y, y ∈ a ++ b <-> y ∈ a ++ x :: b /\ uname_of K y <> uname_of K x.
Proof.
  intros (s & _ & _ & _ & Hlive & Hsort) Hs' Hrep Hc. unfold uname_sorted, keys_live in *.
  rewrite StronglySorted_app in Hsort. destruct Hsort as (Hcross & Ha & Hxb). apply StronglySorted_inv in Hxb as [Hb Hx].
  rewrite Forall_forall in Hx, Hlive.
  assert (forall y, y ∈ a ++ b -> uname_of K y <> uname_of K x) as Hne.
  { intros y [Hy|Hy]%elem_of_app E; [specialize (Hcross y x Hy ltac:(by left))|specialize (Hx y Hy)].
    - rewrite E in Hcross. by apply uname_lt_irrefl in Hcross.
    - rewrite E in Hx. by apply uname_lt_irrefl in Hx. }
  assert (forall y, y ∈ a ++ b -> release K x !! y = K !! y) as Hrel.
  { intros y Hy. apply release_other. intros ->. by eapply Hne. }
  split.
  - apply (set_ok_keys K); [|exists s'; split_and!; [done..| |]].
    + intros y Hy. unfold uname_of. rewrite Hrel by done. split; [|done]. apply Hlive. rewrite elem_of_app, elem_of_cons. rewrite elem_of_app in Hy. tauto.
    + apply Forall_forall. intros y Hy. apply Hlive. rewrite elem_of_app, elem_of_cons. rewrite elem_of_app in Hy. tauto.
    + apply StronglySorted_app. split_and!; [|done..]. intros y z Hy Hz. apply Hcross; [done|by right].
  - intros y. split.
    + intros Hy. split; [|by apply Hne]. rewrite elem_of_app, elem_of_cons. rewrite elem_of_app in Hy. tauto.
    + intros [Hy Hu]. rewrite elem_of_app, elem_of_cons in Hy. rewrite elem_of_app. destruct Hy as [?|[->|?]]; [by left|done|by right].
Qed.

Lemma pop_meta_spec K S m ms f t c Q :
  set_ok K S m ms -> plain_keys K ms -> K !! f = Some t -> f ∉ ms -> k_key t = Some c -> deref c <> SLASH -> k_meta t = None ->
  (forall b S' ms', delete m S' = delete m S -> set_ok (without K ms (k_uname t)) S' m ms' ->
     (forall x, x ∈ ms' <-> x ∈ ms /\ uname_of K x <> k_uname t) -> Q b (mkHeap (without K ms (k_uname t)) S')) ->
  wp (pop_meta (Some m) (Some f)) Q (mkHeap K S).
Proof.
  intros Hset Hpl Hf Hfms Hc Hsl Htm HQ. unfold pop_meta. apply wp_bind. eapply rec_lookup_pops; [done..|]. split.
  - intros Hnone S' Hsim. wsteps. unfold without in HQ. rewrite Hnone in HQ. apply (HQ _ _ ms).
    + apply map_eq. intros y. destruct (decide (m = y)) as [<-|Hy]; [by rewrite !lookup_delete_eq|].
      rewrite !lookup_delete_ne by done. by apply (sets_sim_other _ _ _ y) in Hsim.
    + by eapply set_ok_sim.
    + intros x. pose proof (find_uname_spec K ms (k_uname t)) as Hsp. rewrite Hnone in Hsp. split; [|by intros [? _]]. auto.
  - intros a x b k s' -> Hu Hk Hrep Hcur. apply wp_bind.
    destruct (Hpl x) as (k' & Hk' & Hm); [set_solver|]. rewrite Hk in Hk'. injection Hk' as <-.
    eapply keyDel_popped; [done..|]. intros r. apply wp_ret.
    assert (without K (a ++ x :: b) (k_uname t) = release K x) as E.
    { unfold without. erewrite find_uname_Some; [done|by eapply set_ok_sorted|set_solver|done]. }
    rewrite E in HQ. destruct (set_ok_split K S (<[m := s']> S) m a x b s') as [Hset' Hin]; [done|apply lookup_insert_eq|done..|].
    apply (HQ _ _ (a ++ b)); [apply delete_insert_eq|done|]. by rewrite <- Hu.
Qed.

(** ** The map from names to values *)

(** The key [k] has the metadata keys [ms], which stand for the map [vals] from unescaped
    names to values. *)
Record metadata (K : gmap loc Key) (S : gmap loc KeySet) (k : Key) (ms : list loc) (vals : gmap (list ascii) cstr) : Prop := {
  md_set : match k_meta k with None => ms = [] | Some m => set_ok K S m ms end;
  md_plain : plain_keys K ms;
  md_view u : match find_uname K ms u, vals !! u with
              | None, None => True
              | Some x, Some c => meta_cstr K x c
              | _, _ => False
              end
}.

Lemma metadata_has_meta K S k ms vals u : metadata K S k ms vals -> has_meta K S k u (vals !! u).
Proof.
  intros [Hset _ Hview]. unfold has_meta. specialize (Hview u). destruct (k_meta k) as [m|]; [by exists ms|].
  subst. simpl in Hview. by destruct (vals !! u).
Qed.

Lemma metadata_not_own K S l k ms vals : K !! l = Some k -> metadata K S k ms vals -> l ∉ ms.
Proof.
  intros Hk [Hset Hpl _] Hl. destruct (Hpl l Hl) as (k' & Hk' & Hm). simplify_eq. rewrite Hm in Hset. subst. by apply not_elem_of_nil in Hl.
Qed.

Lemma metadata_sorted K S k ms vals : metadata K S k ms vals -> uname_sorted K ms.
Proof. intros [Hset _ _]. destruct (k_meta k); [by eapply set_ok_sorted|]. subst. constructor. Qed.

Lemma metadata_nil K S k : k_meta k = None -> metadata K S k [] ∅.
Proof. intros Hm. split; [by rewrite Hm|by intros x ?%not_elem_of_nil|done]. Qed.

(** The keys [ms'] are those of [ms] without the name [u], and perhaps a new one at [f]. *)
Lemma metadata_updated K S k ms vals u K' S' k' m ms' (new : option (loc * cstr)) :
  metadata K S k ms vals -> k_meta k' = Some m -> set_ok K' S' m ms' ->
  (forall x, x ∈ ms' <-> match new with Some (f, _) => x = f | None => False end \/ x ∈ ms /\ uname_of K x <> u) ->
  (forall x, x ∈ ms -> uname_of K x <> u -> K' !! x = K !! x) ->
  match new with Some (f, s) => plain_key K' f /\ uname_of K' f = u /\ meta_cstr K' f s | None => True end ->
  metadata K' S' k' ms' (partial_alter (fun _ => snd <$> new) u vals).
Proof.
  intros Hmd Hm Hset Hin Hsame Hnew. pose proof (metadata_sorted _ _ _ _ _ Hmd) as Hsort. destruct Hmd as [_ Hpl Hview].
  assert (forall x, x ∈ ms -> uname_of K x <> u -> uname_of K' x = uname_of K x) as Hu by (intros x Hx Hne; unfold uname_of at 1; by rewrite Hsame).
  split; [by rewrite Hm| |].
  - intros x [Hx|[Hx Hne]]%Hin; [destruct new as [[f s]|]; [subst x; apply Hnew|done]|]. unfold plain_key. rewrite Hsame by done. by apply Hpl.
  - intros v. destruct (decide (u = v)) as [<-|Huv].
    + rewrite lookup_partial_alter_eq. destruct new as [[f s]|]; simpl.
      * destruct Hnew as (_ & Hfu & Hfs). rewrite (find_uname_Some K' ms' u f); [done|by eapply set_ok_sorted|apply Hin; by left|done].
      * rewrite find_uname_None; [done|]. intros x [[]|[Hx Hne]]%Hin. by rewrite Hu.
    + rewrite lookup_partial_alter_ne by done. rewrite (find_uname_ext K K' ms ms' v Hsort).
      * specialize (Hview v). pose proof (find_uname_spec K ms v) as Hsp. destruct (find_uname K ms v) as [x|]; [|done].
        destruct (vals !! v) as [c|]; [|done]. destruct Hsp as [Hx Hxv]. unfold meta_cstr in *. rewrite Hsame; [done|done|congruence].
      * intros x. rewrite Hin. split.
        -- intros [[Hx|[Hx Hne]] Hxv]; [|by rewrite <- Hu]. destruct new as [[f s]|]; [|done]. subst x. destruct Hnew as (_ & Hfu & _). congruence.
        -- intros [Hx Hxv]. assert (uname_of K x <> u) by congruence. rewrite Hu by done. auto.
Qed.

(** ** keySetMeta *)

(** What happens to the rest of the heap when the metadata [u] of the key at [l] is set. *)
Record meta_frame (K : gmap loc Key) (S : gmap loc KeySet) (l : loc) (k : Key) (ms : list loc) (u : list ascii)
    (K' : gmap loc Key) (S' : gmap loc KeySet) : Prop := {
  mf_keys y ky : y <> l -> K !! y = Some ky -> find_uname K ms u <> Some y -> K' !! y = Some ky;
  mf_old x : find_uname K ms u = Some x -> K' !! x = release K x !! x;
  mf_sets m s : S !! m = Some s -> k_meta k <> Some m -> S' !! m = Some s
}.

(** The metadata keys are old ones or new, and so is the metadata keyset. *)
Definition meta_own (K : gmap loc Key) (S : gmap loc KeySet) (k : Key) (ms : list loc) (k' : Key) (ms' : list loc) : Prop :=
  (forall x, x ∈ ms' -> x ∈ ms \/ K !! x = None) /\ (forall m, k_meta k' = Some m -> k_meta k = Some m \/ S !! m = None).

(** Nothing but the metadata of the key differs, and that it needs to be synchronised. *)
Definition same_but_meta (k k' : Key) : Prop := exists m, k' = set_meta k m \/ k' = set_meta (synced k) m.

(** The new metadata key. *)
Definition meta_key (c : cstr) (s : cstr) : Key :=
  referenced (locked (meta_locked (set_data (named (set_name emptyKey None []) c) (Some (s ++ [NUL]))))).

Lemma same_but_meta_refl k : same_but_meta k k.
Proof. exists (k_meta k). left. by destruct k. Qed.

Lemma same_but_meta_synced k : same_but_meta k (synced k).
Proof. exists (k_meta k). right. by destruct k. Qed.

Lemma delete_others {V} (S S' : gmap loc V) m m' s : delete m S' = delete m S -> S !! m' = Some s -> m' <> m -> S' !! m' = Some s.
Proof. intros E Hs Hne. rewrite <- Hs. pose proof (f_equal (fun x => x !! m') E) as H. simpl in H. by rewrite !lookup_delete_ne in H. Qed.

(** Naming the new key, the first step. *)
Lemma new_meta_spec K S nm c (g : loc -> M Z) Q :
  meta_name nm c -> wp (g (fresh_loc K)) Q (mkHeap (<[fresh_loc K := named (set_name emptyKey None []) c]> K) S) ->
  wp (toSet <- elektraKeyMalloc;; elektraKeySetName (Some toSet) (Some nm) (set_bit KEY_META_NAME KEY_EMPTY_NAME);; g toSet) Q (mkHeap K S).
Proof.
  intros Hnm HQ. unfold elektraKeyMalloc. wstep. apply wp_bind. eapply setName_meta_spec; [apply lookup_insert_eq|done|done|done|].
  intros r _. by rewrite insert_insert_eq.
Qed.

(** The first metadata of a key. *)
Lemma keySetMeta_first K S l k nm c s Q :
  K !! l = Some k -> k_meta k = None -> test_bit (k_flags k) KEY_FLAG_RO_META = false -> meta_name nm c ->
  (forall S' ms', let f := fresh_loc K in let K' := <[l := synced (set_meta k (Some (fresh_loc S)))]> (<[f := meta_key c s]> K) in
     delete (fresh_loc S) S' = S -> set_ok K' S' (fresh_loc S) ms' -> (forall x, x ∈ ms' <-> x = f \/ x ∈ []) ->
     Q (Z.of_nat (Datatypes.S (length s))) (mkHeap K' S')) ->
  wp (keySetMeta (Some l) (Some nm) (Some s)) Q (mkHeap K S).
Proof.
  intros Hk Hm Hro Hnm HQ. pose proof (fresh_loc_ne _ _ _ Hk) as Hfl. unfold keySetMeta. wstep. rewrite Hro.
  rewrite (bool_decide_false (Some s = None)) by done. rewrite andb_false_r. eapply new_meta_spec; [done|].
  set (f := fresh_loc K) in *. set (sk := named _ c). wstep.
  rewrite Hm. do 4 wstep. rewrite insert_insert_eq, Hm. wstep. apply wp_bind, ksNew_empty_spec. intros s0 Hs0 _ Hc0.
  do 2 wstep. set (K1 := <[l := _]> _). set (m := fresh_loc S) in *.
  eapply (append_meta_spec K1 _ l (set_meta k (Some m)) m []).
  - exists s0. split_and!; [apply lookup_insert_eq|done|by left|constructor..].
  - by intros x ?%not_elem_of_nil.
  - apply lookup_insert_eq.
  - apply not_elem_of_nil.
  - unfold K1. rewrite lookup_insert_ne by done. apply lookup_insert_eq.
  - done.
  - apply not_elem_of_nil.
  - done.
  - done.
  - done.
  - intros S' ms' t' K' HS' Hset' Hin.
    assert (K' = <[l := synced (set_meta k (Some m))]> (<[f := meta_key c s]> K)) as EK.
    { unfold K', K1. rewrite (insert_insert_ne _ l f) by done. rewrite !insert_insert_eq.
      rewrite (insert_insert_ne _ f l) by done. by rewrite insert_insert_eq. }
    rewrite EK in *. eapply HQ; [|done..]. rewrite HS', delete_insert_id; [done|]. apply fresh_loc_None.
Qed.

Lemma without_insert K ms u f t : f ∉ ms -> without (<[f := t]> K) ms u = <[f := t]> (without K ms u).
Proof.
  intros Hf. unfold without. rewrite (find_uname_keys K).
  - pose proof (find_uname_spec K ms u) as Hsp. destruct (find_uname K ms u) as [x|]; [|done].
    apply release_insert. intros ->. by destruct Hsp.
  - intros x Hx. unfold uname_of. rewrite lookup_insert_ne; [done|by intros ->].
Qed.

(** The old value is popped; [b] says whether there was one. *)
Lemma pop_old_spec K S l k m ms vals nm c (g : M Z) Q :
  let f := fresh_loc K in let u := elektraUnescapeKeyName c in let sk := named (set_name emptyKey None []) c in
  K !! l = Some k -> metadata K S k ms vals -> k_meta k = Some m -> meta_name nm c ->
  (forall k2 S' ms', k2 = k \/ k2 = synced k -> delete m S' = delete m S ->
     let K' := <[l := k2]> (<[f := sk]> (without K ms u)) in set_ok K' S' m ms' ->
     (forall x, x ∈ ms' <-> x ∈ ms /\ uname_of K x <> u) -> wp g Q (mkHeap K' S')) ->
  wp ((removed <- pop_meta (Some m) (Some f);;
       if removed : bool then k <- get_key l;; put_key l (synced k) else ret tt);; g) Q (mkHeap (<[f := sk]> K) S).
Proof.
  intros f u sk Hk Hmd Hm Hnm HQ. pose proof (fresh_loc_ne _ _ _ Hk) as Hfl. fold f in Hfl.
  pose proof (metadata_not_own _ _ _ _ _ _ Hk Hmd) as Hl. pose proof (md_plain _ _ _ _ _ Hmd) as Hpl.
  pose proof (md_set _ _ _ _ _ Hmd) as Hset. rewrite Hm in Hset.
  assert (f ∉ ms) as Hfms by (intros Hf; destruct (Hpl _ Hf) as (k' & Hk' & _); unfold f in Hk'; by rewrite fresh_loc_None in Hk').
  assert (forall x, x ∈ ms -> <[f := sk]> K !! x = K !! x) as HK by (intros x Hx; apply lookup_insert_ne; by intros ->).
  assert (forall x, x ∈ ms -> uname_of (<[f := sk]> K) x = uname_of K x) as Hun by (intros x Hx; unfold uname_of; by rewrite HK).
  assert (without K ms u !! l = Some k) as Hwl.
  { rewrite without_other; [done|]. intros E. pose proof (find_uname_spec K ms u) as Hsp. rewrite E in Hsp. by destruct Hsp. }
  apply wp_assoc, wp_bind. eapply (pop_meta_spec _ S m ms f sk c).
  - eapply set_ok_keys; [|exact Hset]. intros x Hx. split; [rewrite HK by done; by eapply set_ok_live|by apply Hun].
  - intros x Hx. unfold plain_key. rewrite HK by done. by apply Hpl.
  - apply lookup_insert_eq.
  - done.
  - done.
  - apply Hnm.
  - done.
  - intros b S' ms' HS Hset' Hin. change (k_uname sk) with u in *. rewrite without_insert in * by done.
    assert (forall x, x ∈ ms' <-> x ∈ ms /\ uname_of K x <> u) as Hin'.
    { intros x. rewrite Hin. split; intros [Hx ?]; (split; [done|]); by rewrite Hun in *. }
    set (K1 := <[f := sk]> (without K ms u)) in *.
    assert (K1 !! l = Some k) as Hk1 by (unfold K1; by rewrite lookup_insert_ne).
    destruct b.
    + do 3 wstep. apply (HQ (synced k) _ ms'); [by right|done| |done]. eapply set_ok_same_ids; [|exact Hset']. by apply (same_ids_insert K1 l k).
    + wstep. rewrite <- (insert_id K1 l k) by done. apply (HQ k _ ms'); [by left|done| |done]. fold K1. by rewrite insert_id.
Qed.

Lemma synced_idem k : synced (synced k) = synced k.
Proof. unfold synced, set_flags, set_bit. simpl. by rewrite <- Z.lor_assoc, Z.lor_diag. Qed.

Lemma keySetMeta_existing K S l k m ms vals nm c v Q :
  let f := fresh_loc K in let u := elektraUnescapeKeyName c in
  K !! l = Some k -> metadata K S k ms vals -> k_meta k = Some m -> test_bit (k_flags k) KEY_FLAG_RO_META = false -> meta_name nm c ->
  match v with
  | Some s => forall S' ms', delete m S' = delete m S ->
      let K' := <[l := synced k]> (<[f := meta_key c s]> (without K ms u)) in
      set_ok K' S' m ms' -> (forall x, x ∈ ms' <-> x = f \/ x ∈ ms /\ uname_of K x <> u) -> Q (Z.of_nat (Datatypes.S (length s))) (mkHeap K' S')
  | None => forall k2 S' ms', k2 = k \/ k2 = synced k -> delete m S' = delete m S -> let K' := <[l := k2]> (without K ms u) in
      set_ok K' S' m ms' -> (forall x, x ∈ ms' <-> x ∈ ms /\ uname_of K x <> u) -> Q 0%Z (mkHeap K' S')
  end ->
  wp (keySetMeta (Some l) (Some nm) v) Q (mkHeap K S).
Proof.
  intros f u Hk Hmd Hm Hro Hnm HQ. pose proof (fresh_loc_ne _ _ _ Hk) as Hfl. fold f in Hfl.
  pose proof (metadata_not_own _ _ _ _ _ _ Hk Hmd) as Hl. pose proof (md_plain _ _ _ _ _ Hmd) as Hpl.
  assert (f ∉ ms) as Hfms by (intros Hf; destruct (Hpl _ Hf) as (k' & Hk' & _); unfold f in Hk'; by rewrite fresh_loc_None in Hk').
  unfold keySetMeta. wstep. rewrite Hro. rewrite (bool_decide_false (k_meta k = None)) by congruence. cbn [andb].
  eapply new_meta_spec; [done|]. fold f. wstep. rewrite Hm. eapply pop_old_spec; [done..|]. fold f u.
  intros k2 S1 ms1 Hk2 HS1 K1 Hset1 Hin1.
  assert (K1 !! f = Some (named (set_name emptyKey None []) c)) as Hf1.
  { unfold K1. rewrite lookup_insert_ne by done. apply lookup_insert_eq. }
  assert (f ∉ ms1) as Hf1ms by (intros [? _]%Hin1; done).
  assert (without K ms u !! f = None) as Hwf.
  { rewrite without_other; [apply fresh_loc_None|]. intros E. pose proof (find_uname_spec K ms u) as Hsp. rewrite E in Hsp. by destruct Hsp. }
  destruct v as [s|].
  - do 3 wstep. set (K2 := <[f := set_data _ _]> K1).
    assert (K2 !! l = Some k2) as Hk2l by (unfold K2, K1; rewrite lookup_insert_ne by done; apply lookup_insert_eq).
    assert (set_ok K2 S1 m ms1) as Hset2.
    { eapply set_ok_keys; [|exact Hset1]. intros x Hx. unfold uname_of, K2. rewrite lookup_insert_ne by by intros ->. split; [|done]. by eapply set_ok_live. }
    replace (k_meta k2) with (Some m) by (destruct Hk2 as [->| ->]; done). wstep.
    eapply (append_meta_spec K2 S1 l k2 m ms1 f).
    + done.
    + intros x Hx. assert (K2 !! x = K !! x) as E; [|unfold plain_key; rewrite E; apply Hpl, Hin1, Hx].
      apply Hin1 in Hx as [Hx Hux]. unfold K2, K1. rewrite !lookup_insert_ne by by intros ->.
      apply without_other. intros E. pose proof (find_uname_spec K ms u) as Hsp. rewrite E in Hsp. by destruct Hsp.
    + done.
    + intros [? _]%Hin1. done.
    + apply lookup_insert_eq.
    + done.
    + done.
    + done.
    + done.
    + apply find_uname_None. intros x Hx. assert (uname_of K2 x = uname_of K x) as ->; [|by apply Hin1].
      apply Hin1 in Hx as [Hx Hux]. unfold uname_of, K2, K1. rewrite !lookup_insert_ne by by intros ->.
      rewrite without_other; [done|]. intros E. pose proof (find_uname_spec K ms u) as Hsp. rewrite E in Hsp. by destruct Hsp.
    + intros S' ms' t' K' HS' Hset' Hin'.
      assert (K' = <[l := synced k]> (<[f := meta_key c s]> (without K ms u))) as EK.
      { unfold K', K2, K1. rewrite insert_insert_eq, (insert_insert_ne _ f l) by done. rewrite !insert_insert_eq. f_equal.
        destruct Hk2 as [->| ->]; [done|apply synced_idem]. }
      rewrite EK in *. apply HQ with ms'; [congruence|done|]. intros x. rewrite Hin', Hin1. done.
  - apply wp_bind. eapply keyDel_plain_spec; [exact Hf1|done|done|]. apply wp_ret.
    assert (delete f K1 = <[l := k2]> (without K ms u)) as EK.
    { unfold K1. rewrite delete_insert_ne by done. by rewrite delete_insert_id. }
    rewrite EK. apply HQ with ms1; [done..| |done]. rewrite <- EK.
    eapply set_ok_keys; [|exact Hset1]. intros x Hx. unfold uname_of. rewrite lookup_delete_ne by by intros ->. split; [|done]. by eapply set_ok_live.
Qed.

Lemma frame_set K S l k k' m ms u f t S' :
  K !! l = Some k -> k_meta k = Some m \/ S !! m = None -> (l ∉ ms) -> f = fresh_loc K -> f <> l -> f ∉ ms ->
  delete m S' = delete m S -> meta_frame K S l k ms u (<[l := k']> (<[f := t]> (without K ms u))) S'.
Proof.
  intros Hk Hm Hl Hf Hfl Hfms HS. pose proof (find_uname_spec K ms u) as Hsp. split.
  - intros y ky Hy Hky Hold. rewrite !lookup_insert_ne; [by rewrite without_other|subst f; by eapply fresh_loc_ne|done].
  - intros x Hx. rewrite Hx in Hsp. rewrite !lookup_insert_ne by (intros ->; by destruct Hsp). unfold without. by rewrite Hx.
  - intros m' s Hs Hm'. eapply delete_others; [exact HS|done|]. intros ->. destruct Hm; congruence.
Qed.

Lemma keySetMeta_spec K S l k ms vals nm c v :
  let u := elektraUnescapeKeyName c in
  K !! l = Some k -> metadata K S k ms vals -> test_bit (k_flags k) KEY_FLAG_RO_META = false -> meta_name nm c ->
  match v with Some s => no_nul s | None => True end ->
  wp (keySetMeta (Some l) (Some nm) v)
    (fun r h => exists k' ms', r = match v with Some s => Z.of_nat (Datatypes.S (length s)) | None => 0%Z end /\
       h_keys h !! l = Some k' /\ same_but_meta k k' /\
       metadata (h_keys h) (h_sets h) k' ms' (partial_alter (fun _ => v) u vals) /\
       meta_frame K S l k ms u (h_keys h) (h_sets h) /\ meta_own K S k ms k' ms') (mkHeap K S).
Proof.
  intros u Hk Hmd Hro Hnm Hv. pose proof (fresh_loc_ne _ _ _ Hk) as Hfl.
  pose proof (metadata_not_own _ _ _ _ _ _ Hk Hmd) as Hl. pose proof (md_plain _ _ _ _ _ Hmd) as Hpl.
  assert (fresh_loc K ∉ ms) as Hfms by (intros Hf; destruct (Hpl _ Hf) as (k' & Hk' & _); by rewrite fresh_loc_None in Hk').
  assert (forall x, x ∈ ms -> uname_of K x <> u -> find_uname K ms u <> Some x) as Hold.
  { intros x Hx Hu E. pose proof (find_uname_spec K ms u) as Hsp. rewrite E in Hsp. by destruct Hsp. }
  destruct (k_meta k) as [m|] eqn:Em; [|destruct v as [s|]].
  - eapply keySetMeta_existing; [done..|]. fold u. destruct v as [s|].
    + intros S' ms' HS K' Hset Hin. exists (synced k), ms'. cbn [h_keys h_sets]. split_and!; [done|apply lookup_insert_eq|apply same_but_meta_synced| | |].
      * change (Some s) with (snd <$> Some (fresh_loc K, s)). eapply (metadata_updated K S k ms vals u K' S'); [done..| |].
        -- intros x Hx Hux. unfold K'. rewrite !lookup_insert_ne by (by intros <-). by apply without_other, Hold.
        -- assert (K' !! fresh_loc K = Some (meta_key c s)) as E by (unfold K'; rewrite lookup_insert_ne by done; apply lookup_insert_eq).
           split_and!; [by exists (meta_key c s)|unfold uname_of; by rewrite E|]. exists (meta_key c s). split_and!; [done..|]. by apply cstr_of_app.
      * apply (frame_set _ _ _ _ _ m); auto.
      * split; [|by left]. intros x [->|[? _]]%Hin; [right; apply fresh_loc_None|by left].
    + intros k2 S' ms' Hk2 HS K' Hset Hin. exists k2, ms'. cbn [h_keys h_sets]. split_and!; [done|apply lookup_insert_eq| | | |].
      * destruct Hk2 as [->| ->]; [apply same_but_meta_refl|apply same_but_meta_synced].
      * eapply (metadata_updated K S k ms vals u K' S' k2 m ms' None); [done|by destruct Hk2 as [->| ->]|done| | |done].
        -- intros x. rewrite Hin. tauto.
        -- intros x Hx Hux. unfold K'. rewrite lookup_insert_ne by (by intros <-). by apply without_other, Hold.
      * split; [|intros x Hx|].
        -- intros y ky Hy Hky Hyo. unfold K'. rewrite lookup_insert_ne by done. by rewrite without_other.
        -- pose proof (find_uname_spec K ms u) as Hsp. rewrite Hx in Hsp. unfold K'. rewrite lookup_insert_ne by (intros ->; by destruct Hsp). unfold without. by rewrite Hx.
        -- intros m' s Hs Hm'. eapply delete_others; [exact HS|done|]. congruence.
      * split; [|by left; destruct Hk2 as [->| ->]; simpl in *]. intros x [? _]%Hin. by left.
  - eapply keySetMeta_first; [done..|]. intros S' ms' f K' HS Hset Hin. pose proof (md_set _ _ _ _ _ Hmd) as Hms. rewrite Em in Hms. subst ms.
    exists (synced (set_meta k (Some (fresh_loc S)))), ms'. cbn [h_keys h_sets]. split_and!; [done|apply lookup_insert_eq| | | |].
    + exists (Some (fresh_loc S)). by right.
    + change (Some s) with (snd <$> Some (f, s)). eapply (metadata_updated K S k [] vals u K' S'); [done|done|done| |by intros x ?%not_elem_of_nil|].
      * intros x. rewrite Hin, elem_of_nil. tauto.
      * assert (K' !! f = Some (meta_key c s)) as E by (unfold K'; rewrite lookup_insert_ne by done; apply lookup_insert_eq).
        split_and!; [by exists (meta_key c s)|unfold uname_of; by rewrite E|]. exists (meta_key c s). split_and!; [done..|]. by apply cstr_of_app.
    + apply (frame_set K S l k _ (fresh_loc S) [] u f (meta_key c s)); auto using fresh_loc_None.
      rewrite HS. symmetry. apply delete_id, fresh_loc_None.
    + split.
      * intros x [->|[]%not_elem_of_nil]%Hin. right. apply fresh_loc_None.
      * intros m [= <-]. right. apply fresh_loc_None.
  - unfold keySetMeta. wstep. rewrite Hro, (bool_decide_true (k_meta k = None)) by done. cbn. apply wp_ret.
    exists k, ms. cbn [h_keys h_sets]. split_and!; [done..|apply same_but_meta_refl| | |].
    + pose proof (md_set _ _ _ _ _ Hmd) as Hms. rewrite Em in Hms. subst ms.
      assert (partial_alter (fun _ => None) u vals = vals) as ->; [|done]. change (delete u vals = vals). apply delete_id. pose proof (md_view _ _ _ _ _ Hmd u) as Hv'. simpl in Hv'. by destruct (vals !! u).
    + pose proof (md_set _ _ _ _ _ Hmd) as Hms. rewrite Em in Hms. subst ms. by split.
    + split; [by left|]. intros m Hm. congruence.
Qed.

(** Reading metadata: [keyGetMeta] and then the value. *)
Definition read_meta (key : ptr) (nm : cstr) : M (option cstr) :=
  m <- keyGetMeta key (Some nm);;
  match m with Some _ => v <- keyString m;; ret (Some v) | None => ret None end.

Lemma keyString_meta_spec K S x s Q : meta_cstr K x s -> Q s (mkHeap K S) -> wp (keyString (Some x)) Q (mkHeap K S).
Proof.
  intros (k & Hk & Hm & Hd) HQ. unfold keyString. wstep. destruct (k_data k) as [d|]; [|apply wp_ret; by subst].
  unfold keyIsBinary. wstep. apply wp_bind. eapply keyGetMeta_none; [done..|]. wstep. cbn. unfold as_cstr. rewrite Hd. by apply wp_ret.
Qed.

Lemma keyGetMeta_reads K S l k ms vals nm c Q :
  K !! l = Some k -> metadata K S k ms vals -> meta_name nm c ->
  (forall S', (forall m, k_meta k <> Some m -> S' !! m = S !! m) -> metadata K S' k ms vals ->
     Q (vals !! elektraUnescapeKeyName c) (mkHeap K S')) ->
  wp (read_meta (Some l) nm) Q (mkHeap K S).
Proof.
  intros Hk Hmd Hnm HQ. unfold read_meta. pose proof Hmd as [Hset Hpl Hview]. specialize (Hview (elektraUnescapeKeyName c)). apply wp_bind.
  destruct (k_meta k) as [m|] eqn:Em.
  - eapply keyGetMeta_spec; [done..|]. intros S' Hsim.
    assert (metadata K S' k ms vals) as Hmd'.
    { destruct Hmd as [_ ? ?]. split; [|done|done]. rewrite Em. by eapply set_ok_sim. }
    assert (forall m0, Some m <> Some m0 -> S' !! m0 = S !! m0) as HS' by (intros m0 Hne; apply (sets_sim_other _ _ _ _ Hsim); congruence).
    specialize (HQ S' HS' Hmd').
    destruct (find_uname K ms _) as [x|], (vals !! _) as [s|]; try done; [|by apply wp_ret].
    apply wp_bind. eapply keyString_meta_spec; [exact Hview|]. by apply wp_ret.
  - subst ms. simpl in Hview. destruct (vals !! _) eqn:E; [done|]. eapply keyGetMeta_none; [done..|]. apply wp_ret. by apply HQ.
Qed.

(** ** The contracts *)

(** C12.  [keySetMeta] refines the insertion into the finite map that the metadata of the
    key stands for, and, for NULL, the deletion from it; it returns the size of the
    value.  Nothing else of the key changes but its flags, the old metadata key loses
    a reference and is freed with the last one, and no other key or keyset changes. *)
Theorem keySetMeta_updates K S l k ms vals nm c v :
  K !! l = Some k -> metadata K S k ms vals -> test_bit (k_flags k) KEY_FLAG_RO_META = false -> meta_name nm c ->
  match v with Some s => no_nul s | None => True end ->
  wp (keySetMeta (Some l) (Some nm) v)
    (fun r h => exists k' ms', r = match v with Some s => Z.of_nat (Datatypes.S (length s)) | None => 0%Z end /\
       h_keys h !! l = Some k' /\ same_but_meta k k' /\
       metadata (h_keys h) (h_sets h) k' ms' (partial_alter (fun _ => v) (elektraUnescapeKeyName c) vals) /\
       meta_frame K S l k ms (elektraUnescapeKeyName c) (h_keys h) (h_sets h) /\ meta_own K S k ms k' ms') (mkHeap K S).
Proof. apply keySetMeta_spec. Qed.

(** C13.  Metadata that was set is read back, metadata that was removed is gone, and
    metadata with any other name has the value it had before. *)
Theorem keySetMeta_read_back K S l k ms vals nm c v nm' c' :
  K !! l = Some k -> metadata K S k ms vals -> test_bit (k_flags k) KEY_FLAG_RO_META = false -> meta_name nm c -> meta_name nm' c' ->
  match v with Some s => no_nul s | None => True end ->
  wp (keySetMeta (Some l) (Some nm) v;; read_meta (Some l) nm')
    (fun r _ => r = if decide (elektraUnescapeKeyName c = elektraUnescapeKeyName c') then v else vals !! elektraUnescapeKeyName c')
    (mkHeap K S).
Proof.
  intros Hk Hmd Hro Hnm Hnm' Hv. apply wp_bind. eapply wp_mono; [by eapply keySetMeta_spec|].
  intros r [K1 S1] (k1 & ms1 & _ & Hk1 & _ & Hmd1 & _ & _). cbn [h_keys h_sets] in *.
  eapply keyGetMeta_reads; [done..|]. intros S2 _ _. case_decide as E.
  - rewrite <- E. apply lookup_partial_alter_eq.
  - by apply lookup_partial_alter_ne.
Qed.
End SetMeta.
