(* ===== verification/Duplicate.v ===== *)
(** * Duplicate: copies of keysets and keys

    [ksDup] makes a keyset that shares the keys, [keyDup] a key that shares the
    metadata keys but has a metadata keyset of its own: changing the metadata of the
    copy does not change that of the original. *)
From S2P Require Export SetMeta.
Local Open Scope elektra_scope.

(** The metadata of all keys is allocated. *)
Definition metas_allocated (K : gmap loc Key) (S : gmap loc KeySet) : Prop :=
  forall y k m, K !! y = Some k -> k_meta k = Some m -> is_Some (S !! m).

(** The copy of a key without metadata. *)
Definition dup_of (k : Key) : Key := mkKey (k_data k) (k_key k) (k_uname k) KEY_FLAG_SYNC 0 None.

Lemma keyDup_plain {R : Rec} K S l k Q :
  K !! l = Some k -> k_meta k = None -> Q (Some (fresh_loc K)) (mkHeap (<[fresh_loc K := dup_of k]> K) S) -> wp (keyDup (Some l)) Q (mkHeap K S).
Proof.
  intros Hk Hm HQ. unfold keyDup, keyCopy. pose proof (fresh_loc_ne _ _ _ Hk) as Hne. wstep. apply wp_bind. wstep.
  replace (_ || _ || _) with false by done. wstep. rewrite Hm. cbn [ksDup]. do 3 wstep. cbn [k_meta set_flags emptyKey ksDel]. do 2 wstep.
  simpl. apply wp_ret. rewrite insert_insert_eq. exact HQ.
Qed.

Section Duplicate.
Context {R : Rec} {HR : RecLaws R} {HP : PopLaws R}.

Lemma fresh_no_meta K S : metas_allocated K S -> no_meta K (fresh_loc S).
Proof. intros H y k Hk Hm. destruct (H y k _ Hk Hm) as [s Hs]. by rewrite fresh_loc_None in Hs. Qed.

Lemma ksDup_spec idf K S la xs :
  keyset_ok K S idf la xs -> metas_allocated K S -> (forall x k, x ∈ xs -> K !! x = Some k -> k_key k <> None) ->
  wp (ksDup (Some la))
    (fun r h => exists l, r = Some l /\ l = fresh_loc S /\ keyset_ok (h_keys h) (h_sets h) idf l xs /\ keyset_ok (h_keys h) (h_sets h) idf la xs /\
       (forall z, h_keys h !! z = k ← K !! z; Some (if decide (z ∈ xs) then referenced (locked k) else k)) /\
       sets_sim (metas_of K xs) S (delete l (h_sets h)) /\ cursor_fine (h_sets h) l) (mkHeap K S).
Proof.
  intros Hok Hma Hnames. destruct (kso_rep _ _ _ _ _ Hok) as (sa & Hsa & _). unfold ksDup. wstep. apply wp_bind, ksNew_empty_spec.
  intros s Hs _ Hc0. set (l := fresh_loc S). pose proof (fresh_no_meta _ _ Hma) as Hl. fold l in Hl.
  assert (l <> la) as Hne by by eapply fresh_loc_ne.
  apply wp_bind. eapply wp_mono; [apply (ksAppend_spec idf K (<[l := s]> S) l la [] xs)|].
  - split; [by eapply keyset_ok_nil; [apply lookup_insert_eq|]|by apply keyset_ok_insert; [|by apply not_eq_sym|]|done..| |by intros z x Hz%not_elem_of_nil].
    intros y k [Hy|Hy%not_elem_of_nil] Hk; [|done]. intros Hm. apply (kso_apart _ _ _ _ _ Hok). by exists y, k.
  - intros r [K' S'] (rs & Hm & _ & Hok1 & Hok2 & HK & Hsim & Hcf). cbn [h_keys h_sets app] in *. apply wp_ret.
    apply merged_empty in Hm as ->; [|intros x; by eapply keyset_ok_kid|apply Hok]. exists l. split_and!; [done..| | |].
    + intros z. rewrite HK. destruct (K !! z) as [k|]; [|done]. simpl. case_decide.
      * rewrite appended_key_in by done. by rewrite decide_False by apply not_elem_of_nil.
      * rewrite appended_key_kept; [done..|]. intros Hz%not_elem_of_nil. done.
    + by rewrite delete_insert_id in Hsim by apply fresh_loc_None.
    + apply Hcf. exists s. split; [apply lookup_insert_eq|by left].
Qed.

(** [ksDup] returns a new keyset with exactly the keys of the source, in order; the
    keys are shared and gain a reference, the source and everything else stays. *)
Theorem ksDup_shares idf K S la xs :
  keyset_ok K S idf la xs -> metas_allocated K S -> (forall x k, x ∈ xs -> K !! x = Some k -> k_key k <> None) ->
  wp (ksDup (Some la))
    (fun r h => exists l, r = Some l /\ l = fresh_loc S /\ keyset_ok (h_keys h) (h_sets h) idf l xs /\ keyset_ok (h_keys h) (h_sets h) idf la xs /\
       (forall z, h_keys h !! z = k ← K !! z; Some (if decide (z ∈ xs) then referenced (locked k) else k)) /\
       sets_sim (metas_of K xs) S (delete l (h_sets h)) /\ cursor_fine (h_sets h) l) (mkHeap K S).
Proof. apply ksDup_spec. Qed.

(** The copy of a key whose metadata keyset is [m]. *)
Definition copied (k : Key) (m : ptr) : Key :=
  mkKey (k_data k) (k_key k) (k_uname k) (set_bit KEY_FLAG_SYNC KEY_FLAG_SYNC) 0 m.

(** Metadata keys may gain references and locks. *)
Lemma metadata_locked K S k ms vals K' S' k' m :
  metadata K S k ms vals -> k_meta k' = Some m -> set_ok K' S' m ms ->
  (forall x kx, x ∈ ms -> K !! x = Some kx -> exists kx', K' !! x = Some kx' /\ k_uname kx' = k_uname kx /\ k_meta kx' = k_meta kx /\ k_data kx' = k_data kx) ->
  metadata K' S' k' ms vals.
Proof.
  intros [_ Hpl Hview] Hm Hset HK. split; [by rewrite Hm| |].
  - intros x Hx. destruct (Hpl x Hx) as (kx & Hkx & Hmx). destruct (HK x kx Hx Hkx) as (kx' & Hkx' & _ & Hm' & _). exists kx'. split; [done|congruence].
  - intros u. rewrite (find_uname_keys K).
    + specialize (Hview u). pose proof (find_uname_spec K ms u) as Hsp. destruct (find_uname K ms u) as [x|]; [|done].
      destruct (vals !! u) as [c|]; [|done]. destruct Hsp as [Hx _]. destruct Hview as (kx & Hkx & Hmx & Hd).
      destruct (HK x kx Hx Hkx) as (kx' & Hkx' & _ & Hm' & Hd'). exists kx'. rewrite Hd'. split_and!; congruence || done.
    + intros x Hx. destruct (Hpl x Hx) as (kx & Hkx & _). destruct (HK x kx Hx Hkx) as (kx' & Hkx' & Hu & _). unfold uname_of. by rewrite Hkx, Hkx', Hu.
Qed.

Lemma metas_allocated_insert K S d k : metas_allocated K S -> k_meta k = None -> metas_allocated (<[d := k]> K) S.
Proof. intros H Hk y ky m [[<- <-]|[_ Hy]]%lookup_insert_Some Hm; [congruence|by eapply H]. Qed.

(** Duplicating the metadata keyset [m], which keeps the keys [ms]. *)
Lemma ksDup_metadata K S m ms Q :
  set_ok K S m ms -> plain_keys K ms -> metas_allocated K S -> (forall x kx, x ∈ ms -> K !! x = Some kx -> k_key kx <> None) ->
  (forall K' S' m', S !! m' = None -> (forall z, K' !! z = kz ← K !! z; Some (if decide (z ∈ ms) then referenced (locked kz) else kz)) ->
     (forall n, n <> m' -> S' !! n = S !! n) -> set_ok K' S' m' ms -> set_ok K' S' m ms -> Q (Some m') (mkHeap K' S')) ->
  wp (ksDup (Some m)) Q (mkHeap K S).
Proof.
  intros Hset Hpl Hma Hnames HQ. eapply wp_mono; [eapply ksDup_spec; [by apply set_ok_keyset|done..]|].
  intros r [K' S'] (m' & -> & Em' & Hok1 & Hok2 & HK & Hsim & (s' & Hs' & Hc')). cbn [h_keys h_sets] in *.
  assert (S !! m' = None) as Hnone by (rewrite Em'; apply fresh_loc_None).
  assert (forall n, n <> m' -> S' !! n = S !! n) as HS.
  { intros n Hn. apply (sets_sim_other _ _ _ n) in Hsim; [|by apply plain_no_metas]. by rewrite lookup_delete_ne in Hsim. }
  destruct Hset as (s & Hs & _ & Hc & _).
  assert (m <> m') as Hne by congruence.
  apply HQ; [done..| |].
  - by eapply keyset_set_ok.
  - eapply keyset_set_ok; [done|by rewrite HS|done].
Qed.

Lemma metadata_empty K S k vals K' S' k' : metadata K S k [] vals -> k_meta k' = None -> metadata K' S' k' [] vals.
Proof. intros [_ _ Hv] Hm. split; [by rewrite Hm|by intros x ?%not_elem_of_nil|done]. Qed.

(** What [keyDup] leaves: the copy at [d], and the original with the same metadata. *)
Record duplicated (K : gmap loc Key) (S : gmap loc KeySet) (k : Key) (ms : list loc) (vals : gmap (list ascii) cstr)
    (d : loc) (m : ptr) (K' : gmap loc Key) (S' : gmap loc KeySet) : Prop := {
  dup_key : K' !! d = Some (copied k m);
  dup_own m' : m = Some m' -> S !! m' = None;
  dup_metadata : metadata K' S' (copied k m) ms vals;
  dup_source : metadata K' S' k ms vals;
  dup_keys z : z <> d -> K' !! z = kz ← K !! z; Some (if decide (z ∈ ms) then referenced (locked kz) else kz);
  dup_sets m' s : S !! m' = Some s -> S' !! m' = Some s
}.

Lemma keyDup_spec K S l k ms vals :
  K !! l = Some k -> metadata K S k ms vals -> metas_allocated K S -> (forall x kx, x ∈ ms -> K !! x = Some kx -> k_key kx <> None) ->
  wp (keyDup (Some l)) (fun r h => r = Some (fresh_loc K) /\ exists m, duplicated K S k ms vals (fresh_loc K) m (h_keys h) (h_sets h)) (mkHeap K S).
Proof.
  set (d := fresh_loc K).
  intros Hk Hmd Hma Hnames. pose proof (fresh_loc_ne _ _ _ Hk) as Hdl. fold d in Hdl.
  pose proof (md_plain _ _ _ _ _ Hmd) as Hpl.
  assert (d ∉ ms) as Hdms by (intros Hf; destruct (Hpl _ Hf) as (k' & Hk' & _); unfold d in Hk'; by rewrite fresh_loc_None in Hk').
  unfold keyDup, keyCopy. wstep. fold d. set (e := set_flags emptyKey KEY_FLAG_SYNC). set (K1 := <[d := e]> K).
  assert (forall z, z <> d -> K1 !! z = K !! z) as HK1 by (intros z Hz; unfold K1; by rewrite lookup_insert_ne).
  assert (forall x, x ∈ ms -> K1 !! x = K !! x) as HK1ms by (intros x Hx; apply HK1; by intros ->).
  assert (K1 !! d = Some e) as HK1d by apply lookup_insert_eq.
  assert (K1 !! l = Some k) as Hk1 by by rewrite HK1.
  pose proof (md_set _ _ _ _ _ Hmd) as Hset. apply wp_bind. wstep. replace (_ || _ || _) with false by done. wstep.
  assert (forall K2 S2 m, K2 !! d = Some e ->
    duplicated K S k ms vals d m (<[d := copied k m]> K2) S2 ->
    wp (kd0 <- get_key d;; put_key d (mkKey (k_data k) (k_key k) (k_uname k) (set_bit (k_flags kd0) KEY_FLAG_SYNC) (k_ksReference kd0) m);;
        ksDel (k_meta e);; ret 1%Z)
      (fun a h' => wp (if (a =? -1)%Z then keyDel (Some d);; ret None else ret (Some d))
        (fun r h => r = Some d /\ exists m, duplicated K S k ms vals d m (h_keys h) (h_sets h)) h') (mkHeap K2 S2)) as Hend.
  { intros K2 S2 m HK2d Hdup. wsteps. cbn [k_meta e set_flags emptyKey ksDel]. do 2 wstep. simpl. apply wp_ret. split; [done|]. by exists m. }
  destruct (k_meta k) as [m|] eqn:Em.
  - apply wp_bind. eapply (ksDup_metadata K1 S m ms).
    + eapply set_ok_keys; [|exact Hset]. intros x Hx. unfold uname_of. rewrite HK1ms by done. split; [|done]. by eapply set_ok_live.
    + intros x Hx. unfold plain_key. rewrite HK1ms by done. by apply Hpl.
    + by apply metas_allocated_insert.
    + intros x kx Hx. rewrite HK1ms by done. by apply Hnames.
    + intros K2 S2 m' Hm' HK2 HS2 Hset2 Hset2'. apply Hend; [rewrite HK2, HK1d; simpl; by rewrite decide_False|].
      assert (forall z, z <> d -> <[d := copied k (Some m')]> K2 !! z = kz ← K !! z; Some (if decide (z ∈ ms) then referenced (locked kz) else kz)) as HK2'.
      { intros z Hz. rewrite lookup_insert_ne by done. by rewrite HK2, HK1. }
      assert (forall x, x ∈ ms -> is_Some (<[d := copied k (Some m')]> K2 !! x) /\ uname_of (<[d := copied k (Some m')]> K2) x = uname_of K2 x) as Hids.
      { intros x Hx. destruct (Hpl x Hx) as (kx & Hkx & _). assert (x <> d) by by intros ->.
        rewrite HK2' by done. unfold uname_of. rewrite Hkx, lookup_insert_ne by done. by split. }
      assert (forall x kx, x ∈ ms -> K !! x = Some kx -> exists kx', <[d := copied k (Some m')]> K2 !! x = Some kx' /\
        k_uname kx' = k_uname kx /\ k_meta kx' = k_meta kx /\ k_data kx' = k_data kx) as Hkeep.
      { intros x kx Hx Hkx. rewrite HK2' by (by intros ->). rewrite Hkx. simpl. rewrite decide_True by done. by eexists. }
      split.
      * apply lookup_insert_eq.
      * by intros ? [= <-].
      * eapply metadata_locked; [done|done|by eapply set_ok_keys|done].
      * eapply metadata_locked; [done|done|by eapply set_ok_keys|done].
      * done.
      * intros n s Hn. rewrite HS2; congruence.
  - subst ms. cbn [ksDup]. wstep. apply Hend; [done|]. split; [apply lookup_insert_eq|done|by eapply metadata_empty|by eapply metadata_empty| |done].
    intros z Hz. rewrite lookup_insert_ne, HK1 by done. by destruct (K !! z).
Qed.

(** [keyDup] returns a new key with the names, the value and the metadata of the source
    and no reference; it has a metadata keyset of its own, that shares the metadata keys,
    which gain a reference, and every other key and keyset is as before. *)
Theorem keyDup_copies K S l k ms vals :
  K !! l = Some k -> metadata K S k ms vals -> metas_allocated K S -> (forall x kx, x ∈ ms -> K !! x = Some kx -> k_key kx <> None) ->
  wp (keyDup (Some l)) (fun r h => r = Some (fresh_loc K) /\ exists m, duplicated K S k ms vals (fresh_loc K) m (h_keys h) (h_sets h)) (mkHeap K S).
Proof. apply keyDup_spec. Qed.

(** C14.  A key and its copy are independent: metadata set on the copy, or removed from it, does not
    change the metadata of the original. *)
Theorem keyDup_independent K S l k ms vals nm c v :
  K !! l = Some k -> metadata K S k ms vals -> metas_allocated K S -> (forall x kx, x ∈ ms -> K !! x = Some kx -> k_key kx <> None) ->
  (forall x kx, x ∈ ms -> K !! x = Some kx -> 0 < k_ksReference kx) -> meta_name nm c -> match v with Some s => no_nul s | None => True end ->
  wp (d <- keyDup (Some l);; keySetMeta d (Some nm) v)
    (fun _ h => exists kd ms', h_keys h !! fresh_loc K = Some kd /\ h_keys h !! l = Some k /\
       metadata (h_keys h) (h_sets h) kd ms' (partial_alter (fun _ => v) (elektraUnescapeKeyName c) vals) /\
       metadata (h_keys h) (h_sets h) k ms vals) (mkHeap K S).
Proof.
  intros Hk Hmd Hma Hnames Hrefs Hnm Hv. apply wp_bind. eapply wp_mono; [by eapply keyDup_spec|].
  intros r [K1 S1] (-> & m & Hdup). cbn [h_keys h_sets] in *. destruct Hdup as [Hd Hown Hmd1 Hsrc HK1 HS1].
  set (d := fresh_loc K) in *. pose proof (fresh_loc_ne _ _ _ Hk) as Hdl. fold d in Hdl.
  assert (l ∉ ms) as Hl by by eapply metadata_not_own.
  assert (K1 !! l = Some k) as Hk1 by (rewrite HK1, Hk by done; simpl; by rewrite decide_False).
  eapply wp_mono; [eapply (keySetMeta_spec K1 S1 d (copied k m) ms vals nm c v); done|].
  intros r' [K2 S2] (kd & ms' & _ & Hd2 & _ & Hmd2 & [HK HO HS] & _). cbn [h_keys h_sets] in *.
  pose proof (find_uname_spec K1 ms (elektraUnescapeKeyName c)) as Hsp.
  assert (forall x, x ∈ ms -> x <> d) as Hdms.
  { intros x Hx ->. destruct (md_plain _ _ _ _ _ Hmd d Hx) as (kx & Hkx & _). unfold d in Hkx. by rewrite fresh_loc_None in Hkx. }
  assert (forall x kx, x ∈ ms -> K1 !! x = Some kx -> exists kx', K2 !! x = Some kx' /\
    k_uname kx' = k_uname kx /\ k_meta kx' = k_meta kx /\ k_data kx' = k_data kx) as Hkeep.
  { intros x kx1 Hx Hkx1. pose proof (Hdms x Hx) as Hxd. destruct (decide (find_uname K1 ms (elektraUnescapeKeyName c) = Some x)) as [Hf|Hf].
    - destruct (md_plain _ _ _ _ _ Hmd x Hx) as (kx & Hkx & _). pose proof (Hrefs x kx Hx Hkx) as Href. rewrite (HO x Hf). unfold release. rewrite Hkx1.
      rewrite HK1, Hkx in Hkx1 by done. simpl in Hkx1. rewrite decide_True in Hkx1 by done. injection Hkx1 as <-. cbn [referenced set_ref k_ksReference locked set_flags].
      pose proof (one_more_several _ Href). destruct (Nat.ltb_spec 1 (one_more (k_ksReference kx))); [|lia]. eexists. split; [apply lookup_insert_eq|done].
    - exists kx1. split; [|done]. by apply HK. }
  exists kd, ms'. split_and!; [done| |done|].
  - rewrite (HK l k); [done|by apply not_eq_sym|done|]. intros Hf. rewrite Hf in Hsp. by destruct Hsp.
  - pose proof (md_set _ _ _ _ _ Hsrc) as Hms. destruct (k_meta k) as [m0|] eqn:Em; [|subst ms; by eapply metadata_empty].
    eapply metadata_locked; [exact Hsrc|done| |done].
    pose proof (md_set _ _ _ _ _ Hmd) as Hms0. rewrite Em in Hms0. destruct Hms0 as (s & Hs & _).
    destruct Hms as (s1 & Hs1 & ? & ? & ? & ?). eapply (set_ok_keys K1).
    + intros x Hx. destruct (md_plain _ _ _ _ _ Hsrc x Hx) as (kx & Hkx & _). destruct (Hkeep x kx Hx Hkx) as (kx' & Hkx' & Hu & _).
      unfold uname_of. rewrite Hkx, Hkx'. by split.
    + exists s1. split_and!; [|done..]. apply HS; [done|]. simpl. intros ->. specialize (Hown _ eq_refl). congruence.
Qed.
End Duplicate.
