(* ===== verification/Divide.v ===== *)
(** * Divide: every key goes to the part of its backend

    [mountGetBackend] finds the backend of the longest mountpoint; [splitDivide]
    appends every key of a keyset to the part of its backend, in the order of
    the keyset.  [kwp m Q s] says that [m] run on [s] returns with a result and a
    state that satisfy [Q]. *)
From S2P Require Export AppendFacts Split.
#[local] Open Scope kdb_scope.

Section Kwp.
Context {MD : Modules}.

Definition kwp {A} (m : KM A) (Q : A -> kstate -> Prop) (s : kstate) : Prop := exists a s', m s = KRet a s' /\ Q a s'.

Lemma kwp_ret {A} (a : A) (Q : A -> kstate -> Prop) s : Q a s -> kwp (kret a) Q s.
Proof. intros H. by exists a, s. Qed.

Lemma kwp_bind {A B} (m : KM A) (f : A -> KM B) Q s : kwp m (fun a s' => kwp (f a) Q s') s -> kwp (kbind m f) Q s.
Proof. intros (a & s' & E & b & s'' & E' & HQ). exists b, s''. unfold kbind. by rewrite E. Qed.

Lemma kwp_step {A B} (m : KM A) (f : A -> KM B) Q s s' a : m s = KRet a s' -> kwp (f a) Q s' -> kwp (kbind m f) Q s.
Proof. intros E H. apply kwp_bind. by exists a, s'. Qed.

Lemma kwp_mono {A} (m : KM A) (Q Q' : A -> kstate -> Prop) s : kwp m Q s -> (forall a s', Q a s' -> Q' a s') -> kwp m Q' s.
Proof. intros (a & s' & E & HQ) H. exists a, s'. auto. Qed.

Lemma kwp_lift {A} (m : M A) (Q : A -> kstate -> Prop) s :
  wp m (fun a h => Q a (with_heap s h)) (st_heap s) -> kwp (lift m) Q s.
Proof. intros (a & h & E & HQ). exists a, (with_heap s h). unfold lift. by rewrite E. Qed.

Lemma with_heap_id s : with_heap s (st_heap s) = s.
Proof. by destruct s. Qed.

Lemma wp_eta {A} (m : M A) (Q : A -> heap -> Prop) hp : wp m Q (mkHeap (h_keys hp) (h_sets hp)) -> wp m Q hp.
Proof. by destruct hp. Qed.

(** A computation on the heap that changes nothing. *)
Lemma lift_pure {A} (m : M A) s a : m (st_heap s) = Ret a (st_heap s) -> lift m s = KRet a s.
Proof. intros E. unfold lift. by rewrite E, with_heap_id. Qed.
End Kwp.

(** ** The backend and the part of a name *)

Section Route.
Context {E : Env} {MD : Modules}.

(** The name of a key. *)
Definition has_name (K : gmap loc Key) (x : loc) (n : cstr) : Prop := exists k, K !! x = Some k /\ k_key k = Some n.

(** What [mountGetBackend] returns for a key with the name [n]. *)
Definition backend_of (h : KDB) (n : cstr) : ptr :=
  if decide (n = []) then kdb_defaultBackend h
  else match trieLookup (kdb_trie h) (Some n) with None => kdb_defaultBackend h | r => r end.

Lemma mountGetBackend_ret s kdb h x n :
  st_kdbs s !! kdb = Some h -> has_name (h_keys (st_heap s)) x n -> no_nul n ->
  mountGetBackend (Some kdb) (Some x) s = KRet (backend_of h n) s.
Proof.
  intros Hh (k & Hk & Hn) Hnn. unfold mountGetBackend, get_kdb, deref_in, kbind. rewrite Hh.
  rewrite (lift_pure _ s (Some n)) by (unfold keyName, bindM, get_key; by rewrite Hk, Hn).
  cbv beta iota. change (default [] (Some n)) with n. unfold backend_of. assert (bool_decide (strcmp n [] = 0%Z) = bool_decide (n = [])) as ->.
  { apply bool_decide_ext, strcmp_eq; [done|constructor]. }
  destruct (decide (n = [])) as [->|Hne]; [by rewrite bool_decide_eq_true_2|by rewrite bool_decide_eq_false_2].
Qed.

(** The name of the parent key of a part. *)
Definition parent_name (K : gmap loc Key) (p : Part) : cstr :=
  match part_parent p with
  | Some x => match K !! x with Some k => default [] (k_key k) | None => [] end
  | None => []
  end.

Definition parent_ok (K : gmap loc Key) (p : Part) : Prop := exists x n, part_parent p = Some x /\ has_name K x n.

(** Whether a part belongs to the namespace of a key. *)
Definition in_namespace (ns : elektraNamespace) (pname : cstr) : option bool :=
  match ns with
  | KEY_NS_SPEC => Some (keyNameIsSpec pname)
  | KEY_NS_DIR => Some (keyNameIsDir pname)
  | KEY_NS_USER => Some (keyNameIsUser pname)
  | KEY_NS_SYSTEM => Some (keyNameIsSystem pname)
  | KEY_NS_PROC | KEY_NS_EMPTY | KEY_NS_NONE | KEY_NS_META | KEY_NS_CASCADING => None
  end.

(** The first part of the backend of a name, in its namespace when the backend is
    mounted in several. *)
Fixpoint find_part (K : gmap loc Key) (parts : list Part) (backend : ptr) (n : cstr) : option nat :=
  match parts with
  | [] => None
  | p :: r =>
      if decide (backend = part_handle p) then
        if test_bit (part_syncbits p) SPLIT_FLAG_CASCADING then
          match in_namespace (keyGetNameNamespace (Some n)) (parent_name K p) with
          | None => None
          | Some true => Some 0
          | Some false => S <$> find_part K r backend n
          end
        else Some 0
      else S <$> find_part K r backend n
  end.

Lemma keyIs_ret (q : cstr -> bool) (s : kstate) x n :
  has_name (h_keys (st_heap s)) x n -> lift (keyIs q (Some x)) s = KRet (if q n then 1 else 0)%Z s.
Proof. intros (k & Hk & Hn). apply lift_pure. unfold keyIs, bindM, get_key. by rewrite Hk, Hn. Qed.

Lemma search_namespace_ret s ns p :
  parent_ok (h_keys (st_heap s)) p ->
  search_namespace ns (part_parent p) s = KRet (in_namespace ns (parent_name (h_keys (st_heap s)) p)) s.
Proof.
  intros (x & n & Hp & Hn). unfold parent_name. rewrite Hp. destruct Hn as (k & Hk & Hn). rewrite Hk, Hn. simpl default.
  assert (has_name (h_keys (st_heap s)) x n) as Hx by by exists k.
  destruct ns; try reflexivity; cbv beta iota zeta delta [search_namespace in_namespace kbind];
    unfold keyIsSpec, keyIsDir, keyIsUser, keyIsSystem; rewrite (keyIs_ret _ s x n Hx); by destruct (_ n).
Qed.

Lemma search_backend_loop_ret s parts backend x n i :
  has_name (h_keys (st_heap s)) x n -> Forall (parent_ok (h_keys (st_heap s))) parts ->
  search_backend_loop parts backend (Some x) i s =
  KRet (match find_part (h_keys (st_heap s)) parts backend n with Some j => i + Z.of_nat j | None => -1 end)%Z s.
Proof.
  intros Hx Hp. revert i. induction Hp as [|p parts Hp _ IH]; intros i; [done|]. cbn [search_backend_loop find_part].
  destruct (decide (backend = part_handle p)).
  - destruct (test_bit _ _); [|by rewrite Z.add_0_r]. unfold kbind at 1.
    rewrite (lift_pure _ s (keyGetNameNamespace (Some n))).
    2: { destruct Hx as (k & Hk & Hn). unfold keyGetNamespace, bindM, get_key. by rewrite Hk, Hn. }
    unfold kbind. rewrite search_namespace_ret by done. destruct (in_namespace _ _) as [[]|]; [by rewrite Z.add_0_r| |done].
    rewrite IH. destruct (find_part _ _ _ _); simpl; [f_equal; lia|done].
  - rewrite IH. destruct (find_part _ _ _ _); simpl; [f_equal; lia|done].
Qed.

Lemma splitSearchBackend_ret s sp sl backend x n :
  st_splits s !! sp = Some sl -> has_name (h_keys (st_heap s)) x n -> Forall (parent_ok (h_keys (st_heap s))) (sp_parts sl) ->
  splitSearchBackend (Some sp) backend (Some x) s =
  KRet (match find_part (h_keys (st_heap s)) (sp_parts sl) backend n with Some j => Z.of_nat j | None => -1 end)%Z s.
Proof.
  intros Hs Hx Hp. unfold splitSearchBackend, get_split, deref_in. unfold kbind. rewrite Hs.
  rewrite (search_backend_loop_ret s _ backend x n 0) by done. by destruct (find_part _ _ _ _).
Qed.
End Route.

(** ** Dividing *)

(** Only the reference counter, locks and whether a key has them changed. *)
Definition alike (k k' : Key) : Prop :=
  k_uname k' = k_uname k /\ k_key k' = k_key k /\ k_meta k' = k_meta k /\ k_data k' = k_data k /\
  test_bit (k_flags k') KEY_FLAG_SYNC = test_bit (k_flags k) KEY_FLAG_SYNC.

Definition grown (K K' : gmap loc Key) : Prop := forall x k, K !! x = Some k -> exists k', K' !! x = Some k' /\ alike k k'.

#[global] Instance grown_preorder : PreOrder grown.
Proof.
  split; [intros K x k Hx; by exists k|]. intros K1 K2 K3 H12 H23 x k Hx.
  destruct (H12 x k Hx) as (k2 & Hk2 & ? & ? & ? & ? & ?). destruct (H23 x k2 Hk2) as (k3 & Hk3 & ? & ? & ? & ? & ?).
  exists k3. split; [done|]. split_and!; congruence.
Qed.

Lemma grown_same_ids K K' : grown K K' -> same_ids K K'.
Proof. intros H x k Hx. destruct (H x k Hx) as (k' & Hk' & ? & ? & ? & ? & ?). eauto. Qed.

Lemma grown_name K K' x n : grown K K' -> has_name K x n -> has_name K' x n.
Proof. intros H (k & Hk & Hn). destruct (H x k Hk) as (k' & Hk' & _ & ? & _). exists k'. split; [done|congruence]. Qed.

Lemma grown_parent_ok K K' p : grown K K' -> parent_ok K p -> parent_ok K' p.
Proof. intros H (x & n & Hp & Hn). exists x, n. split; [done|by eapply grown_name]. Qed.

Lemma grown_parent_name K K' p : grown K K' -> parent_ok K p -> parent_name K' p = parent_name K p.
Proof.
  intros H (x & n & Hp & Hn). unfold parent_name. rewrite Hp. destruct (grown_name _ _ _ _ H Hn) as (k' & -> & ->).
  by destruct Hn as (k & -> & ->).
Qed.

Lemma grown_append K x k : K !! x = Some k -> grown K (<[x := referenced (locked k)]> K).
Proof.
  intros Hx y ky Hy. destruct (decide (x = y)) as [<-|Hne].
  - exists (referenced (locked k)). rewrite lookup_insert_eq. split; [done|]. assert (ky = k) as -> by congruence.
    split_and!; try done. by apply test_set_bit_other.
  - exists ky. rewrite lookup_insert_ne by done. split; [done|by split_and!].
Qed.

Definition needs_sync (K : gmap loc Key) (x : loc) : bool :=
  match K !! x with Some k => test_bit (k_flags k) KEY_FLAG_SYNC | None => false end.

Lemma find_part_ext K K' parts parts' backend n :
  Forall2 (fun p p' => part_handle p' = part_handle p /\ parent_name K' p' = parent_name K p /\
             test_bit (part_syncbits p') SPLIT_FLAG_CASCADING = test_bit (part_syncbits p) SPLIT_FLAG_CASCADING) parts parts' ->
  find_part K' parts' backend n = find_part K parts backend n.
Proof. induction 1 as [|p p' parts parts' (H1 & H2 & H3) _ IH]; [done|]. cbn [find_part]. by rewrite H1, H2, H3, IH. Qed.

Lemma find_part_lookup K parts backend n i :
  find_part K parts backend n = Some i -> exists p, parts !! i = Some p /\ part_handle p = backend.
Proof.
  revert i. induction parts as [|p parts IH]; intros i; [done|]. cbn [find_part].
  destruct (decide (backend = part_handle p)) as [->|].
  - destruct (test_bit _ _); [|intros [= <-]; by exists p].
    destruct (in_namespace _ _) as [[]|]; [intros [= <-]; by exists p| |done].
    intros (j & Hj & ->)%fmap_Some. by apply IH.
  - intros (j & Hj & ->)%fmap_Some. by apply IH.
Qed.

(** [ksNext] when the cursor is before the key [i]. *)
Lemma ksNext_before {R : Rec} K S l s ls i :
  S !! l = Some s -> ks_rep s ls -> before s i -> i <= length ls ->
  wp (ksNext (Some l))
     (fun r h => r = ls !! i /\ exists s', h = mkHeap K (<[l := s']> S) /\ ks_rep s' ls /\ (i < length ls -> before s' (Datatypes.S i)))
     (mkHeap K S).
Proof.
  intros Hs Hrep Hb Hi. pose proof (before_next _ _ Hb) as [Hnx Hcu]. eapply ksNext_spec; [done|done| | |].
  { unfold cursor_ok. rewrite (rep_size _ _ Hrep). lia. }
  - intros Hc. rewrite Hnx. split; [done|]. unfold after_next. rewrite Hnx.
    assert ((length ls <=? ks_current s) = false) as -> by (apply Nat.leb_gt; lia).
    eexists. split; [done|]. split; [by apply ks_rep_cursor|]. by intros [x ->]%lookup_lt_is_Some_2.
  - intros Hc. split; [by rewrite lookup_ge_None_2 by lia|]. exists s. split; [by rewrite insert_id|]. split; [done|lia].
Qed.

Section Divide.
Context {E : Env} {MD : Modules} {HR : RecLaws env_rec} (idf : loc -> kid) (name : loc -> cstr).

(** The keys [ls] of the keyset [l], the handle [h] and the split with the parts
    [parts], whose keysets are [ms]. *)
Context (K0 : gmap loc Key) (h : KDB) (parts : list Part) (ms : list loc) (l : loc) (ls : list loc).

(** The part a key belongs to. *)
Definition route (x : loc) : option nat := find_part K0 parts (backend_of h (name x)) (name x).

(** The keys of [xs] that belong to the part [i]. *)
Definition sent (i : nat) (xs : list loc) : list loc := filter (fun x => route x = Some i) xs.

Definition any_sync (xs : list loc) : bool := existsb (needs_sync K0) xs.

(** The parts when the keys [xs] have been divided. *)
Definition divided (xs : list loc) : list Part :=
  imap (fun i p => if any_sync (sent i xs) then with_syncbits p (Z.lor (part_syncbits p) 1) else p) parts.

Lemma sent_snoc i xs x : sent i (xs ++ [x]) = if decide (route x = Some i) then sent i xs ++ [x] else sent i xs.
Proof. unfold sent. rewrite filter_app, filter_cons, filter_nil. case_decide; [done|by rewrite app_nil_r]. Qed.

Lemma divided_lookup xs i p : parts !! i = Some p ->
  divided xs !! i = Some (if any_sync (sent i xs) then with_syncbits p (Z.lor (part_syncbits p) 1) else p).
Proof. intros Hp. unfold divided. by rewrite list_lookup_imap, Hp. Qed.

Lemma divided_nil : divided [] = parts.
Proof. apply list_eq. intros i. unfold divided. rewrite list_lookup_imap. by destruct (parts !! i). Qed.

Lemma divided_same_lookup xs i q : divided xs !! i = Some q ->
  exists p, parts !! i = Some p /\ part_handle q = part_handle p /\ part_parent q = part_parent p /\ part_keyset q = part_keyset p /\
    test_bit (part_syncbits q) SPLIT_FLAG_CASCADING = test_bit (part_syncbits p) SPLIT_FLAG_CASCADING.
Proof.
  unfold divided. rewrite list_lookup_imap. intros (p & Hp & ->)%fmap_Some. exists p. split; [done|].
  destruct (any_sync _); [|done]. split_and!; try done. simpl. by apply (test_set_bit_other _ 1 SPLIT_FLAG_CASCADING).
Qed.

Lemma divided_find K xs backend n :
  grown K0 K -> Forall (parent_ok K0) parts -> find_part K (divided xs) backend n = find_part K0 parts backend n.
Proof.
  intros Hg Hp. apply find_part_ext, Forall2_same_length_lookup. split; [unfold divided; by rewrite length_imap|].
  intros i p q Hi Hq. apply divided_same_lookup in Hq as (p' & Hp' & H1 & H2 & _ & H3). assert (p' = p) as -> by congruence.
  split_and!; [done| |done]. rewrite <- (grown_parent_name K0 K p) by (done || by eapply Forall_lookup_1). unfold parent_name. by rewrite H2.
Qed.

Lemma divided_parent_ok K xs : grown K0 K -> Forall (parent_ok K0) parts -> Forall (parent_ok K) (divided xs).
Proof.
  intros Hg Hp. apply Forall_lookup_2. intros i q Hq. apply divided_same_lookup in Hq as (p & Hi & _ & H2 & _).
  destruct (Forall_lookup_1 _ _ _ _ Hp Hi) as (x & n & Hx & Hn). exists x, n. split; [congruence|by eapply grown_name].
Qed.

(** The keysets do not overlap with each other or the metadata. *)
Record apart : Prop := {
  ap_parts : map part_keyset parts = map Some ms;
  ap_NoDup : NoDup (l :: ms);
  ap_metas m : m ∈ l :: ms -> ~ metas_of K0 ls m
}.

Lemma apart_keyset i p : apart -> parts !! i = Some p -> exists m, ms !! i = Some m /\ part_keyset p = Some m.
Proof.
  intros Ha Hp. pose proof (f_equal (fun x => x !! i) (ap_parts Ha)) as He. rewrite !list_lookup_fmap, Hp in He. simpl in He.
  destruct (ms !! i) as [m|]; [|done]. injection He as He. by exists m.
Qed.

(** The keys of [xs] that have a part are referenced by it. *)
Definition routed (xs : list loc) : list loc := filter (fun x => is_Some (route x)) xs.

Definition divided_keys (K : gmap loc Key) (xs : list loc) : Prop :=
  forall z, K !! z = k ← K0 !! z; Some (if decide (z ∈ routed xs) then referenced (locked k) else k).

(** The heap when the keys [xs] have been divided and the cursor is before the
    [j]th key; when [j] is greater than the size the cursor may be anywhere. *)
Record divided_heap (xs : list loc) (j : nat) (hp : heap) : Prop := {
  dh_keys : divided_keys (h_keys hp) xs;
  dh_source : exists c, h_sets hp !! l = Some c /\ ks_rep c ls /\ (j <= length ls -> before c j);
  dh_ids x : x ∈ ls -> has_kid (h_keys hp) (h_sets hp) x (idf x);
  dh_parts i m : ms !! i = Some m -> keyset_ok (h_keys hp) (h_sets hp) idf m (sent i xs)
}.

Lemma divided_keys_grown K xs : divided_keys K xs -> grown K0 K.
Proof.
  intros HK x k Hk. rewrite HK, Hk. simpl. eexists. split; [done|]. case_decide; [|done].
  split_and!; try done. by apply test_set_bit_other.
Qed.

Lemma dh_grown xs j hp : divided_heap xs j hp -> grown K0 (h_keys hp).
Proof. intros Hd. by eapply divided_keys_grown, dh_keys. Qed.

Lemma routed_snoc xs x : routed (xs ++ [x]) = if decide (is_Some (route x)) then routed xs ++ [x] else routed xs.
Proof. unfold routed. rewrite filter_app, filter_cons, filter_nil. case_decide; [done|by rewrite app_nil_r]. Qed.

Lemma divided_keys_append K xs x k :
  divided_keys K xs -> x ∉ xs -> is_Some (route x) -> K !! x = Some k -> divided_keys (<[x := referenced (locked k)]> K) (xs ++ [x]).
Proof.
  intros HK Hx Hr Hk z. rewrite routed_snoc, decide_True by done. destruct (decide (x = z)) as [<-|Hne].
  - rewrite lookup_insert_eq. rewrite HK in Hk. destruct (K0 !! x) as [k0|]; [|done]. simpl in *.
    rewrite decide_False in Hk by (unfold routed; rewrite list_elem_of_filter; tauto). rewrite decide_True by set_solver. congruence.
  - rewrite lookup_insert_ne, HK by done. destruct (K0 !! z) as [k0|]; [|done]. simpl. f_equal. apply decide_ext.
    rewrite elem_of_app, list_elem_of_singleton. split; [auto|]. by intros [?|<-].
Qed.

Context (Hap : apart) (Hsort : kid_sorted idf ls) (Hname : forall x, x ∈ ls -> has_name K0 x (name x)).

Lemma key_exists x : x ∈ ls -> is_Some (K0 !! x).
Proof. intros Hx. destruct (Hname x Hx) as (k & Hk & _). by exists k. Qed.

Lemma metas_of_sub K xs m : grown K0 K -> (forall x, x ∈ xs -> x ∈ ls) -> metas_of K xs m -> metas_of K0 ls m.
Proof.
  intros Hg Hsub Hm. eapply (metas_of_same_ids K0 K) in Hm; [|by apply grown_same_ids|intros x Hx; by apply key_exists, Hsub].
  destruct Hm as (x & k & Hx & Hk & Hm). exists x, k. auto.
Qed.

Lemma sent_sub i xs x : x ∈ sent i xs -> x ∈ xs /\ route x = Some i.
Proof. unfold sent. rewrite list_elem_of_filter. tauto. Qed.

(** What appending to one keyset leaves of the others. *)
Lemma appended_others K K2 S m x xs xs' i hp m' :
  grown K0 K -> (forall y, y ∈ x :: xs -> y ∈ ls) -> m ∈ ms -> m' ∈ l :: ms -> m' <> m ->
  appended idf K K2 S m x xs xs' i hp -> h_sets hp !! m' = S !! m'.
Proof.
  intros Hg Hsub Hm Hm' Hne (_ & _ & _ & _ & Hsim). pose proof (sets_sim_other _ _ _ m' Hsim) as H.
  rewrite !lookup_delete_ne in H by done. apply H. intros Hmeta. apply (ap_metas Hap m' Hm'). by eapply metas_of_sub.
Qed.

Lemma appended_kid K K2 S m x xs xs' i hp y :
  grown K0 K -> grown K K2 -> m ∈ ms -> y ∈ ls -> has_kid K S y (idf y) ->
  appended idf K K2 S m x xs xs' i hp -> has_kid K2 (h_sets hp) y (idf y).
Proof.
  intros Hg Hg2 Hm Hy Hid (_ & _ & _ & _ & Hsim). eapply has_kid_same_ids; [by apply grown_same_ids|].
  assert (forall k m', K !! y = Some k -> k_meta k = Some m' -> m <> m') as Hne.
  { intros k m' Hk Hm' ->. apply (ap_metas Hap m'); [by right|]. eapply (metas_of_sub K [y]); [done|by intros z ->%list_elem_of_singleton|].
    exists y, k. split; [by left|done]. }
  apply (has_kid_sets K (delete m (h_sets hp))); [intros k m' Hk Hm'; by rewrite lookup_delete_ne by by eapply Hne|].
  eapply has_kid_sim; [exact Hsim|]. apply (has_kid_sets K S); [|done].
  intros k m' Hk Hm'. by rewrite lookup_delete_ne by by eapply Hne.
Qed.

Lemma append_divided xs x rest i m j hp :
  ls = xs ++ x :: rest -> route x = Some i -> ms !! i = Some m -> divided_heap xs j hp ->
  wp (ksAppendKey (Some m) (Some x)) (fun _ hp' => divided_heap (xs ++ [x]) j hp') hp.
Proof.
  intros Hls Hr Hm Hd. pose proof (dh_grown _ _ _ Hd) as Hg. destruct Hd as [HK0 (c & Hc & Hrep & Hb) Hids Hparts]. destruct hp as [K S]. simpl in *.
  assert (x ∉ xs) as Hxxs.
  { assert (NoDup ls) as Hnd by (eapply kid_sorted_NoDup, Hsort; intros y Hy; by eapply has_kid_ok, Hids).
    rewrite Hls in Hnd. apply NoDup_app in Hnd as (_ & Hnd & _). intros Hin. by apply (Hnd x Hin); left. }
  assert (x ∈ ls) as Hx by (rewrite Hls; set_solver). assert (forall y, y ∈ xs -> y ∈ ls) as Hxs by (rewrite Hls; set_solver).
  assert (forall y, y ∈ x :: sent i xs -> y ∈ ls) as Hsub.
  { intros y [->|[Hy _]%sent_sub]%elem_of_cons; auto. }
  assert (m ∈ ms) as Hmin by by eapply list_elem_of_lookup_2.
  assert (m ∈ l :: ms) as Hmin' by by right.
  destruct (grown_name _ _ _ _ Hg (Hname x Hx)) as (k & Hk & Hkn).
  eapply wp_mono.
  { apply (ksAppendKey_last_spec idf K S m x (sent i xs) k); [by apply Hparts|done|by rewrite Hkn|by apply Hids| |].
    - intros Hmeta. apply (ap_metas Hap m); [by right|]. by eapply metas_of_sub.
    - intros y [Hy _]%sent_sub. pose proof Hsort as Hs. rewrite Hls in Hs. apply StronglySorted_app_1_elem_of with (x1 := y) (x2 := x) in Hs; [done|done|by left]. }
  cbv beta. intros _ hp Happ. pose proof (grown_append K x k Hk) as Hg2.
  assert (grown K0 (<[x:=referenced (locked k)]> K)) as Hg3 by (by etrans).
  assert (h_keys hp = <[x:=referenced (locked k)]> K) as HK by apply Happ.
  split; rewrite ?HK.
  - by apply divided_keys_append.
  - assert (l <> m) as Hne by (intros <-; pose proof (ap_NoDup Hap) as Hnd; by inversion Hnd).
    assert (l ∈ l :: ms) as Hl by by left. exists c. split; [|done]. by rewrite (appended_others _ _ S m x _ _ _ _ l Hg Hsub Hmin Hl Hne Happ).
  - intros y Hy. eapply appended_kid; [exact Hg|done..|by apply Hids|exact Happ].
  - intros i' m' Hm'. rewrite sent_snoc. destruct (decide (route x = Some i')) as [Hr'|Hr'].
    + assert (i' = i) as -> by congruence. assert (m' = m) as -> by congruence. apply Happ.
    + assert (m' <> m) as Hne.
      { intros ->. apply Hr'. rewrite Hr. f_equal. pose proof (ap_NoDup Hap) as Hnd. apply NoDup_cons in Hnd as [_ Hnd].
        by eapply NoDup_lookup. }
      assert (m' ∈ l :: ms) as Hm'' by (right; by eapply list_elem_of_lookup_2). destruct (Hparts i' m' Hm') as [(c' & Hc' & Hrep') Hi' Hs' Ha'].
      split; [|..|].
      * exists c'. split; [|done]. by rewrite (appended_others _ _ S m x _ _ _ _ m' Hg Hsub Hmin Hm'' Hne Happ).
      * intros y Hy. assert (y ∈ ls) by (apply sent_sub in Hy as [Hy _]; auto). eapply appended_kid; [exact Hg|done..|by apply Hids|exact Happ].
      * done.
      * intros Hmeta. apply (ap_metas Hap m' Hm''). eapply metas_of_sub; [exact Hg3| |exact Hmeta]. intros y [Hy _]%sent_sub. auto.
Qed.

Lemma skip_divided xs x j hp : route x = None -> divided_heap xs j hp -> divided_heap (xs ++ [x]) j hp.
Proof.
  intros Hr [Hg Hs Hi Hp]. split; [|done..|].
  - intros z. rewrite routed_snoc, decide_False by (rewrite Hr; by intros []). apply Hg.
  - intros i m Hm. rewrite sent_snoc, decide_False by congruence. by apply Hp.
Qed.

(** Moving the cursor of the divided keyset. *)
Lemma next_divided xs j K S c c' :
  (forall x, x ∈ xs -> x ∈ ls) ->
  divided_heap xs j (mkHeap K S) -> S !! l = Some c -> ks_rep c' ls -> forall j', (j' <= length ls -> before c' j') ->
  divided_heap xs j' (mkHeap K (<[l := c']> S)).
Proof.
  intros Hsub Hd Hc Hrep' j' Hb. pose proof (dh_grown _ _ _ Hd) as Hg. destruct Hd as [HK0 _ Hids Hparts]. simpl in *. split; simpl; [done| | |].
  - exists c'. by rewrite lookup_insert_eq.
  - intros x Hx. eapply (has_kid_insert_ks _ _ _ _ _ _ ls); [|done|by apply Hids].
    intros Hm. apply (ap_metas Hap l); [by left|]. by apply (metas_of_sub K ls).
  - intros i m Hm. destruct (Hparts i m Hm) as [(c1 & Hc1 & Hrep1) Hi Hs Ha]. split; [| |done..].
    + exists c1. split; [|done]. rewrite lookup_insert_ne; [done|]. intros <-.
      pose proof (ap_NoDup Hap) as Hnd. apply NoDup_cons in Hnd as [Hnd _]. apply Hnd. by eapply list_elem_of_lookup_2.
    + intros x Hx. assert (x ∈ ls) as Hin by (apply Hsub; by apply sent_sub in Hx as [Hx _]).
      eapply (has_kid_insert_ks _ _ _ _ _ _ ls); [|done|by apply Hi].
      intros Hmeta. apply (ap_metas Hap l); [by left|]. by apply (metas_of_sub K ls).
Qed.

(** ** The loop *)

Lemma backend_of_some n : kdb_defaultBackend h <> None -> exists b, backend_of h n = Some b.
Proof.
  intros Hd. unfold backend_of. destruct (kdb_defaultBackend h) as [d|]; [|done].
  destruct (decide _); [by exists d|]. destruct (trieLookup _ _) as [b|]; [by exists b|by exists d].
Qed.

Context (s0 : kstate) (sp kdb : loc) (alloc : nat) (HK0 : h_keys (st_heap s0) = K0).
Context (Hkdb : st_kdbs s0 !! kdb = Some h) (Hdef : kdb_defaultBackend h <> None).
Context (Hpar : Forall (parent_ok K0) parts) (Hnul : forall x, x ∈ ls -> no_nul (name x)).

(** The state when the keys [xs] have been divided. *)
Definition divided_state (xs : list loc) (hp : heap) : kstate :=
  set_splits (with_heap s0 hp) (<[sp := mkSplit (divided xs) alloc]> (st_splits s0)).

(** Whether one of the divided keys [xs] needs synchronisation. *)
Definition divided_sync (xs : list loc) : Z := if any_sync (routed xs) then 1%Z else 0%Z.

Lemma any_sync_snoc xs x : any_sync (xs ++ [x]) = any_sync xs || needs_sync K0 x.
Proof. unfold any_sync. rewrite existsb_app. simpl. by rewrite orb_false_r. Qed.

Lemma divided_sync_snoc xs x :
  divided_sync (xs ++ [x]) = if bool_decide (is_Some (route x)) && needs_sync K0 x then 1%Z else divided_sync xs.
Proof.
  unfold divided_sync. rewrite routed_snoc. destruct (decide _) as [Hr|Hr].
  - rewrite bool_decide_eq_true_2, any_sync_snoc by done. simpl. by destruct (any_sync _), (needs_sync _ _).
  - by rewrite bool_decide_eq_false_2 by done.
Qed.

(** The keys of other parts and of no part leave the parts as they are. *)
Lemma divided_snoc_none xs x : route x = None \/ needs_sync K0 x = false -> divided (xs ++ [x]) = divided xs.
Proof.
  intros Hr. unfold divided. apply imap_ext. intros i p Hp. rewrite sent_snoc. destruct (decide _) as [Hi|]; [|done].
  destruct Hr as [Hr|Hr]; [congruence|]. by rewrite any_sync_snoc, Hr, orb_false_r.
Qed.

Lemma divided_snoc xs x i p :
  route x = Some i -> needs_sync K0 x = true -> parts !! i = Some p ->
  exists q, divided xs !! i = Some q /\ divided (xs ++ [x]) = <[i := with_syncbits q (Z.lor (part_syncbits q) 1)]> (divided xs).
Proof.
  intros Hr Hs Hp. eexists. split; [by apply divided_lookup|]. apply list_eq. intros i'.
  destruct (decide (i = i')) as [<-|Hne].
  - rewrite list_lookup_insert_eq by (unfold divided; rewrite length_imap; by eapply lookup_lt_Some).
    rewrite (divided_lookup _ _ _ Hp), sent_snoc, decide_True, any_sync_snoc, Hs, orb_true_r by done.
    f_equal. destruct (any_sync _); [|done]. destruct p; unfold with_syncbits; simpl. f_equal. by rewrite <- Z.lor_assoc, Z.lor_diag.
  - rewrite list_lookup_insert_ne by done. unfold divided. rewrite !list_lookup_imap, sent_snoc, decide_False by congruence. done.
Qed.

Lemma needs_sync_ret s x : x ∈ ls -> grown K0 (h_keys (st_heap s)) ->
  lift (keyNeedSync (Some x)) s = KRet (if needs_sync K0 x then 1 else 0)%Z s.
Proof.
  intros Hx Hg. apply lift_pure. destruct (key_exists x Hx) as [k Hk]. destruct (Hg x k Hk) as (k' & Hk' & _ & _ & _ & _ & Hf).
  unfold keyNeedSync, bindM, get_key, needs_sync. by rewrite Hk, Hk', Hf.
Qed.

(** The body of the loop of [splitDivide]. *)
Definition divide_turn (needsSync : Z) : KM (Z + Z) :=
  curKey <- lift (ksNext (Some l));;
  match curKey with
  | None => kret (inr needsSync)
  | Some _ =>
      curHandle <- mountGetBackend (Some kdb) curKey;;
      match curHandle with
      | None => kret (inr (-1)%Z)
      | Some _ =>
          curFound <- splitSearchBackend (Some sp) curHandle curKey;;
          if (curFound =? -1)%Z then kret (inl needsSync)
          else
            p <- split_part (Some sp) (Z.to_nat curFound);;
            lift (ksAppendKey (part_keyset p) curKey);;
            sync <- lift (keyNeedSync curKey);;
            if (sync =? 1)%Z then
              put_part (Some sp) (Z.to_nat curFound) (with_syncbits p (Z.lor (part_syncbits p) 1));;
              kret (inl 1%Z)
            else kret (inl needsSync)
      end
  end.

Lemma next_turn {A} xs rest hp (f : ptr -> KM A) Q :
  ls = xs ++ rest -> divided_heap xs (length xs) hp ->
  (forall hp', divided_heap xs (S (length xs)) hp' -> kwp (f (head rest)) Q (divided_state xs hp')) ->
  kwp (kbind (lift (ksNext (Some l))) f) Q (divided_state xs hp).
Proof.
  intros Hls Hd HQ. apply kwp_bind, kwp_lift. destruct (dh_source _ _ _ Hd) as (c & Hc & Hrep & Hb).
  assert (forall x, x ∈ xs -> x ∈ ls) as Hsub by (rewrite Hls; set_solver).
  destruct hp as [K S]. change (st_heap _) with (mkHeap K S).
  assert (length ls = length xs + length rest) as Hlen by (by rewrite Hls, length_app).
  assert (head rest = ls !! length xs) as Hhd by (rewrite Hls, lookup_app_r, Nat.sub_diag by lia; by destruct rest).
  assert (length xs <= length ls) as Hle by lia.
  eapply wp_mono; [apply (ksNext_before K S l c ls (length xs) Hc Hrep (Hb Hle) Hle)|].
  intros r hp (-> & c' & -> & Hrep' & Hb'). rewrite <- Hhd. apply HQ.
  apply (next_divided xs (length xs) K S c c'); done.
Qed.

Lemma put_part_ret s sl i p q :
  st_splits s !! sp = Some sl -> sp_parts sl !! i = Some q ->
  put_part (Some sp) i p s = KRet tt (set_splits s (<[sp := mkSplit (<[i := p]> (sp_parts sl)) (sp_alloc sl)]> (st_splits s))).
Proof.
  intros Hs Hq. unfold put_part, get_split, deref_in, kbind. rewrite Hs. unfold sp_size.
  rewrite (proj2 (Nat.ltb_lt i (length (sp_parts sl)))) by by eapply lookup_lt_Some. unfold put_split, store. by rewrite Hs.
Qed.

(** A turn of the loop for the key [x]. *)
Lemma divide_turn_spec xs x rest hp :
  ls = xs ++ x :: rest -> divided_heap xs (length xs) hp ->
  kwp (divide_turn (divided_sync xs))
    (fun r s => r = inl (divided_sync (xs ++ [x])) /\ exists hp', s = divided_state (xs ++ [x]) hp' /\ divided_heap (xs ++ [x]) (S (length xs)) hp')
    (divided_state xs hp).
Proof.
  intros Hls Hd. unfold divide_turn. apply (next_turn xs (x :: rest)); [done..|]. cbn [head]. intros hp' Hd'.
  pose proof (dh_grown _ _ _ Hd') as Hg. assert (x ∈ ls) as Hx by (rewrite Hls; set_solver).
  assert (has_name (h_keys (st_heap (divided_state xs hp'))) x (name x)) as Hn by (eapply grown_name; [exact Hg|auto]).
  eapply kwp_step; [apply (mountGetBackend_ret _ kdb h x (name x)); auto|].
  destruct (backend_of_some (name x) Hdef) as [b Hb]. rewrite Hb.
  eapply kwp_step; [apply (splitSearchBackend_ret _ sp (mkSplit (divided xs) alloc) _ x (name x)); [apply lookup_insert_eq|done|by apply divided_parent_ok]|].
  cbn [sp_parts]. rewrite <- Hb, divided_find by done. change (find_part _ _ _ _) with (route x).
  rewrite divided_sync_snoc. destruct (route x) as [i|] eqn:Hr.
  2: { apply kwp_ret. rewrite bool_decide_eq_false_2 by by intros []. split; [done|]. exists hp'.
       unfold divided_state. rewrite divided_snoc_none by by left. split; [done|by apply skip_divided]. }
  destruct (find_part_lookup _ _ _ _ _ Hr) as (p & Hp & _).
  destruct (apart_keyset i p Hap Hp) as (m & Hm & Hpm).
  rewrite (proj2 (Z.eqb_neq (Z.of_nat i) (-1)%Z)) by lia. rewrite Nat2Z.id.
  pose proof (divided_lookup xs i p Hp) as Hq. destruct (divided_same_lookup _ _ _ Hq) as (p' & Hp' & _ & _ & Hqm & _).
  assert (p' = p) as -> by congruence. rewrite Hpm in Hqm. revert Hq Hqm. generalize (if any_sync (sent i xs) then with_syncbits p (Z.lor (part_syncbits p) 1) else p).
  intros q Hq Hqm. eapply kwp_step.
  { unfold split_part, get_split, deref_in, kbind. cbn [st_splits divided_state set_splits]. rewrite lookup_insert_eq. cbn [sp_parts]. by rewrite Hq. }
  rewrite Hqm. apply kwp_bind, kwp_lift. eapply wp_mono; [by eapply append_divided|]. cbv beta. intros _ h2 Hd2.
  change (with_heap (divided_state xs hp') h2) with (divided_state xs h2).
  eapply kwp_step; [apply (needs_sync_ret _ x Hx), (dh_grown _ _ _ Hd2)|].
  rewrite bool_decide_eq_true_2 by done. destruct (needs_sync K0 x) eqn:Hs.
  - destruct (divided_snoc xs x i p Hr Hs Hp) as (q' & Hq' & Heq). assert (q' = q) as -> by congruence.
    eapply kwp_step; [by eapply put_part_ret; [apply lookup_insert_eq|]|].
    cbn [sp_parts sp_alloc]. rewrite <- Heq. change (set_splits (divided_state xs h2) _) with
      (set_splits (with_heap s0 h2) (<[sp := mkSplit (divided (xs ++ [x])) alloc]> (<[sp := mkSplit (divided xs) alloc]> (st_splits s0)))).
    rewrite insert_insert_eq.
    apply kwp_ret. split; [done|]. by exists h2.
  - apply kwp_ret. split; [done|]. exists h2. unfold divided_state. by rewrite divided_snoc_none by by right.
Qed.

Lemma divide_loop_spec fuel xs rest hp :
  ls = xs ++ rest -> divided_heap xs (length xs) hp -> length rest < fuel ->
  kwp (kloop fuel divide_turn (divided_sync xs))
    (fun r s => r = divided_sync ls /\ exists hp', s = divided_state ls hp' /\ divided_heap ls (S (length ls)) hp') (divided_state xs hp).
Proof.
  revert xs rest hp. induction fuel as [|fuel IH]; intros xs rest hp Hls Hd Hf; [lia|]. cbn [kloop]. apply kwp_bind. destruct rest as [|x rest].
  - rewrite app_nil_r in Hls. unfold divide_turn. apply (next_turn xs []); [by rewrite app_nil_r|done|]. intros hp' Hd'.
    apply kwp_ret, kwp_ret. rewrite Hls. split; [done|]. by exists hp'.
  - eapply kwp_mono; [by eapply divide_turn_spec|]. intros r s (-> & hp' & -> & Hd'). apply (IH _ rest).
    + by rewrite <- app_assoc.
    + by rewrite length_app, Nat.add_1_r.
    + simpl in Hf. lia.
Qed.
End Divide.

(** ** splitDivide *)

(** The handle [h] at [kdb], the split at [sp] with the parts [parts] whose keysets
    [ms] are empty, and the keyset [l] with the keys [ls] may be divided. *)
Record dividable {MD : Modules} (idf : loc -> kid) (name : loc -> cstr) (s : kstate) (sp kdb : loc) (h : KDB) (parts : list Part) (alloc : nat)
    (ms : list loc) (l : loc) (ls : list loc) : Prop := {
  dv_kdb : st_kdbs s !! kdb = Some h;
  dv_default : kdb_defaultBackend h <> None;
  dv_split : st_splits s !! sp = Some (mkSplit parts alloc);
  dv_parents : Forall (parent_ok (h_keys (st_heap s))) parts;
  dv_apart : apart (h_keys (st_heap s)) parts ms l ls;
  dv_names x : x ∈ ls -> has_name (h_keys (st_heap s)) x (name x) /\ no_nul (name x);
  dv_ids x : x ∈ ls -> has_kid (h_keys (st_heap s)) (h_sets (st_heap s)) x (idf x);
  dv_sorted : kid_sorted idf ls;
  dv_source : exists c, h_sets (st_heap s) !! l = Some c /\ ks_rep c ls;
  dv_empty m : m ∈ ms -> exists c, h_sets (st_heap s) !! m = Some c /\ ks_rep c []
}.

Section SplitDivide.
Context {E : Env} {MD : Modules} {HR : RecLaws env_rec} (idf : loc -> kid) (name : loc -> cstr).
Context (s : kstate) (sp kdb : loc) (h : KDB) (parts : list Part) (alloc : nat) (ms : list loc) (l : loc) (ls : list loc).
Context (Hdv : dividable idf name s sp kdb h parts alloc ms l ls).

(** The start of the loop. *)
Lemma rewound_divided c : h_sets (st_heap s) !! l = Some c -> ks_rep c ls ->
  divided_heap idf name (h_keys (st_heap s)) h parts ms l ls [] 0
    (mkHeap (h_keys (st_heap s)) (<[l := ks_with_cursor c None 0]> (h_sets (st_heap s)))).
Proof.
  intros Hc Hrep. pose proof (dv_apart _ _ _ _ _ _ _ _ _ _ _ Hdv) as Hap.
  eapply (next_divided idf name (h_keys (st_heap s)) h parts ms l ls Hap (fun x Hx => proj1 (dv_names _ _ _ _ _ _ _ _ _ _ _ Hdv x Hx)) [] (S (length ls))); [| |done|by apply ks_rep_cursor|done].
  { intros x Hx%not_elem_of_nil. done. }
  split; simpl; [|  |apply Hdv|].
  - intros z. simpl. by destruct (_ !! z).
  - exists c. split_and!; [done..|lia].
  - intros i m Hm. split; [by eapply (dv_empty _ _ _ _ _ _ _ _ _ _ _ Hdv), list_elem_of_lookup_2| |constructor|].
    + intros x Hx%not_elem_of_nil. done.
    + intros (x & k & Hx%not_elem_of_nil & _). done.
Qed.

Lemma splitDivide_spec :
  kwp (splitDivide (Some sp) (Some kdb) (Some l))
    (fun r s' =>
       r = divided_sync name (h_keys (st_heap s)) h parts ls /\
       s' = set_splits (with_heap s (st_heap s'))
              (<[sp := mkSplit (divided name (h_keys (st_heap s)) h parts ls) alloc]> (st_splits s)) /\
       divided_keys name (h_keys (st_heap s)) h parts (h_keys (st_heap s')) ls /\
       (forall x, x ∈ ls -> has_kid (h_keys (st_heap s')) (h_sets (st_heap s')) x (idf x)) /\
       (exists c, h_sets (st_heap s') !! l = Some c /\ ks_rep c ls) /\
       forall i m, ms !! i = Some m ->
         keyset_ok (h_keys (st_heap s')) (h_sets (st_heap s')) idf m (sent name (h_keys (st_heap s)) h parts i ls)) s.
Proof.
  destruct (dv_source _ _ _ _ _ _ _ _ _ _ _ Hdv) as (c & Hc & Hrep). unfold splitDivide.
  apply kwp_bind, kwp_lift, wp_eta. eapply ksRewind_spec; [exact Hc|].
  pose proof (rewound_divided c Hc Hrep) as Hd. revert Hd. generalize (mkHeap (h_keys (st_heap s)) (<[l := ks_with_cursor c None 0]> (h_sets (st_heap s)))).
  intros hp Hd. destruct (dh_source _ _ _ _ _ _ _ _ _ _ _ Hd) as (c' & Hc' & Hrep' & _).
  eapply kwp_step.
  { apply (lift_pure _ (with_heap s hp)). unfold ks_turns, bindM, get_ks. cbn [st_heap with_heap]. by rewrite Hc'. }
  rewrite (rep_size _ _ Hrep').
  replace (with_heap s hp) with (divided_state name (h_keys (st_heap s)) h parts s sp alloc [] hp).
  2: { unfold divided_state. rewrite divided_nil, insert_id by apply Hdv. by destruct s. }
  eapply kwp_mono; [eapply (divide_loop_spec idf name _ h parts ms l ls) with (xs := []) (rest := ls)|].
  all: try done; try apply Hdv; try (intros x Hx; by apply (dv_names _ _ _ _ _ _ _ _ _ _ _ Hdv)); try lia.
  intros r s' (-> & h2 & -> & Hd2). cbn [st_heap divided_state set_splits with_heap]. destruct (dh_source _ _ _ _ _ _ _ _ _ _ _ Hd2) as (c2 & Hc2 & Hrep2 & _).
  split_and!; [done..|apply (dh_keys _ _ _ _ _ _ _ _ _ _ _ Hd2)|apply (dh_ids _ _ _ _ _ _ _ _ _ _ _ Hd2)|by exists c2|apply (dh_parts _ _ _ _ _ _ _ _ _ _ _ Hd2)].
Qed.

(** C3.  [splitDivide] appends every key of the keyset to the part of the split that
    [splitSearchBackend] finds for the backend of the longest mountpoint of its name, in
    the order of the keyset; the keys without such a part are left out.  It sets the
    synchronisation bit of exactly the parts that got a key which needs it and returns
    1 if there was one and 0 otherwise; it always returns, and the backends, plugins,
    handles and trace, the source keyset's keys and every name, value and metadata stay
    as they are. *)
Theorem splitDivide_routes :
  kwp (splitDivide (Some sp) (Some kdb) (Some l))
    (fun r s' =>
       r = divided_sync name (h_keys (st_heap s)) h parts ls /\
       s' = set_splits (with_heap s (st_heap s'))
              (<[sp := mkSplit (divided name (h_keys (st_heap s)) h parts ls) alloc]> (st_splits s)) /\
       divided_keys name (h_keys (st_heap s)) h parts (h_keys (st_heap s')) ls /\
       (exists c, h_sets (st_heap s') !! l = Some c /\ ks_rep c ls) /\
       forall i m, ms !! i = Some m ->
         keyset_ok (h_keys (st_heap s')) (h_sets (st_heap s')) idf m (sent name (h_keys (st_heap s)) h parts i ls)) s.
Proof.
  eapply kwp_mono; [apply splitDivide_spec|]. intros r s' (-> & Hs & HK & _ & Hl & Hp). split_and!; done.
Qed.
End SplitDivide.

(** C35.  [mountGetBackend] returns the default backend for a key without a name, and
    otherwise the backend of the longest mountpoint that is a prefix of the name with
    a slash at its end, or the default backend when no mountpoint is; it changes
    nothing. *)
Theorem mountGetBackend_longest {E : Env} {MD : Modules} s kdb h x n :
  st_kdbs s !! kdb = Some h -> trie_ok (kdb_trie h) -> has_name (h_keys (st_heap s)) x n -> no_nul n ->
  exists b, mountGetBackend (Some kdb) (Some x) s = KRet b s /\
    (n = [] -> b = kdb_defaultBackend h) /\
    (n <> [] -> exists r, is_longest (trie_map (kdb_trie h)) (n ++ [SLASH]) r /\
       b = match r with Some v => Some v | None => kdb_defaultBackend h end).
Proof.
  intros Hh Ht Hx Hn. exists (backend_of h n). split; [by apply mountGetBackend_ret|]. unfold backend_of.
  split; intros Hne; [by rewrite decide_True|]. rewrite decide_False by done. exists (trieLookup (kdb_trie h) (Some n)).
  split; [by apply trieLookup_longest|done].
Qed.
