(* ===== verification/Gather.v ===== *)
(** * Gather: the keys of all parts come back

    [splitMerge] appends the keysets of all parts to one keyset.  After [splitDivide]
    and [ksClear] this brings every key that has a part back. *)
From S2P Require Export Merge Divide.
#[local] Open Scope kdb_scope.

Section Gather.
Context {E : Env} {MD : Modules} {HR : RecLaws env_rec} (idf : loc -> kid).

(** What becomes of the key at [z] when the keys [xs] are merged to [ls] and no two
    different keys have the same name and owner. *)
Definition gathered_key (ls xs : list loc) (z : loc) (k : Key) : Key :=
  if decide (z ∈ xs) then if decide (z ∈ ls) then locked k else referenced (locked k) else k.

Definition gathered_keys (K K' : gmap loc Key) (ls xs : list loc) : Prop :=
  forall z, K' !! z = k ← K !! z; Some (gathered_key ls xs z k).

(** The keyset at [l] has the keys [ls], those at [ms] have the keys [xss]. *)
Record gatherable (K : gmap loc Key) (S : gmap loc KeySet) (l : loc) (ls : list loc) (ms : list loc) (xss : list (list loc)) : Prop := {
  gt_target : keyset_ok K S idf l ls;
  gt_no_meta : no_meta K l;
  gt_parts : Forall2 (fun m xs => m <> l /\ no_meta K m /\ keyset_ok K S idf m xs) ms xss;
  gt_names x k : x ∈ concat xss -> K !! x = Some k -> k_key k <> None;
  gt_distinct x y : x ∈ ls ++ concat xss -> y ∈ ls ++ concat xss -> idf x = idf y -> x = y
}.

(** The keyset at [l] has the keys [ls] and [xs], in order. *)
Record gathered (K : gmap loc Key) (S : gmap loc KeySet) (l : loc) (ls xs rs : list loc) (hp : heap) : Prop := {
  gd_sorted : kid_sorted idf rs;
  gd_elements z : z ∈ rs <-> z ∈ ls \/ z ∈ xs;
  gd_keyset : keyset_ok (h_keys hp) (h_sets hp) idf l rs;
  gd_keys : gathered_keys K (h_keys hp) ls xs;
  gd_sets : sets_sim (metas_of K (ls ++ xs)) (delete l S) (delete l (h_sets hp))
}.

(** One keyset. *)
Lemma gather_step K S l ls m ms xs xss :
  gatherable K S l ls (m :: ms) (xs :: xss) ->
  wp (ksAppend (Some l) (Some m))
    (fun _ hp => exists rs, gathered K S l ls xs rs hp /\ gatherable (h_keys hp) (h_sets hp) l rs ms xss) (mkHeap K S).
Proof.
  intros [Hok Hml Hparts Hnames Hinj]. apply Forall2_cons in Hparts as [(Hne & Hmm & Hokm) Hparts]. cbn [concat] in *.
  eapply wp_mono; [apply (ksAppend_spec idf K S l m ls xs)|].
  { split; [done|done|by apply not_eq_sym| |done| |].
    - intros x k Hx. apply Hnames. set_solver.
    - intros y k _. apply Hmm.
    - intros z x Hz Hx Ei. left. apply Hinj; [set_solver..|done]. }
  intros _ [K' S'] (rs & [Hrs Hin] & _ & Hok' & _ & HK & Hsim & _). cbn [h_keys h_sets] in *.
  assert (forall z, z ∈ rs <-> z ∈ ls \/ z ∈ xs) as Hin'.
  { intros z. rewrite Hin. split; [tauto|]. intros [Hz|Hz]; [|by left]. destruct (decide (z ∈ xs)); [by left|right].
    split; [done|]. intros y Hy Ei. assert (y = z) as -> by (apply Hinj; [set_solver..|done]). done. }
  assert (gathered_keys K K' ls xs) as HK'.
  { intros z. rewrite HK. destruct (K !! z) as [k|]; [|done]. simpl. unfold gathered_key. case_decide as Hz; [by rewrite appended_key_in|].
    apply appended_key_kept; [done|]. intros Hzl y Hy Ei. assert (y = z) as -> by (apply Hinj; [set_solver..|done]). done. }
  assert (forall z, replaced idf ls xs z -> False) as Hrep.
  { intros z (Hz & Hzx & y & Hy & Ei). assert (y = z) as -> by (apply Hinj; [set_solver..|done]). done. }
  exists rs. split; [by split|]. split.
  - done.
  - by eapply no_meta_appended.
  - eapply Forall2_impl; [exact Hparts|]. intros m' zs (Hne' & Hm' & Hok''). split_and!; [done|by eapply no_meta_appended|].
    eapply keyset_ok_appended; [exact HK|exact Hsim|by apply no_meta_metas|done..|by intros z ?%Hrep|done].
  - intros x k' Hx Hk'. rewrite HK' in Hk'. destruct (K !! x) as [k|] eqn:Ek; [|done]. simpl in Hk'. injection Hk' as <-.
    unfold gathered_key. assert (k_key k <> None) by (eapply Hnames; [apply elem_of_app; by right|exact Ek]). repeat case_decide; done.
  - intros x y Hx Hy. apply Hinj; revert Hx Hy; rewrite !elem_of_app, !Hin'; tauto.
Qed.

Lemma locked_idem k : locked (locked k) = locked k.
Proof. destruct k. unfold locked, set_flags, set_bit. simpl. by rewrite <- Z.lor_assoc, Z.lor_diag. Qed.

Lemma locked_referenced k : locked (referenced k) = referenced (locked k).
Proof. by destruct k. Qed.

Lemma gathered_trans K S l ls xs ys rs rs' hp hp' :
  gathered K S l ls xs rs hp -> gathered (h_keys hp) (h_sets hp) l rs ys rs' hp' -> gathered K S l ls (xs ++ ys) rs' hp'.
Proof.
  intros [_ H1 _ HK1 Hs1] [Hs H2 Hok HK2 Hs2]. split; [done| |done| |].
  - intros z. rewrite H2, H1, elem_of_app. tauto.
  - intros z. rewrite HK2, HK1. destruct (K !! z) as [k|]; [|done]. simpl. f_equal. unfold gathered_key.
    repeat case_decide; rewrite ?H1, ?elem_of_app, ?locked_referenced, ?locked_idem in *; tauto.
  - etrans; [eapply sets_sim_weaken; [|exact Hs1]|eapply sets_sim_weaken; [|exact Hs2]].
    + intros m (x & k & Hx & Hk). exists x, k. split; [set_solver|done].
    + intros m (x & k' & Hx & Hk' & Hm). rewrite HK1 in Hk'. destruct (K !! x) as [k|] eqn:Ek; [|done]. simpl in Hk'. injection Hk' as <-.
      exists x, k. split; [|split; [done|]].
      * rewrite elem_of_app, H1 in Hx. set_solver.
      * revert Hm. unfold gathered_key. repeat case_decide; done.
Qed.

(** No keyset. *)
Lemma gathered_nil K S l ls : keyset_ok K S idf l ls -> gathered K S l ls [] ls (mkHeap K S).
Proof.
  intros Hok. split; [apply Hok| |done| |done].
  - intros z. rewrite elem_of_nil. tauto.
  - intros z. cbn [h_keys]. destruct (K !! z) as [k|]; done.
Qed.

(** All keysets in turn. *)
Lemma gather_loop parts ms xss s ls l (Q : unit -> kstate -> Prop) :
  map part_keyset parts = map Some ms -> gatherable (h_keys (st_heap s)) (h_sets (st_heap s)) l ls ms xss ->
  (forall rs hp, gathered (h_keys (st_heap s)) (h_sets (st_heap s)) l ls (concat xss) rs hp -> Q tt (with_heap s hp)) ->
  kwp (kforM parts (fun p => lift (ksAppend (Some l) (part_keyset p));; kret tt)) Q s.
Proof.
  revert ms xss s ls Q. induction parts as [|p parts IH]; intros ms xss s ls Q Hms Hg HQ.
  - destruct ms as [|m ms]; [|done]. pose proof (gt_parts _ _ _ _ _ _ Hg) as Hp. apply Forall2_nil_inv_l in Hp as ->.
    apply kwp_ret. rewrite <- (with_heap_id s). apply (HQ ls). destruct (st_heap s). apply gathered_nil, Hg.
  - destruct ms as [|m ms]; [done|]. injection Hms as Hm Hms. destruct xss as [|xs xss]; [by apply gt_parts, Forall2_cons_nil_inv in Hg|].
    cbn [kforM]. rewrite Hm. apply kwp_bind, kwp_bind, kwp_lift, wp_eta. eapply wp_mono; [by eapply gather_step|].
    intros _ hp (rs & Hd & Hg'). apply kwp_ret. eapply (IH ms xss _ rs); [done|exact Hg'|].
    intros rs' hp' Hd'. apply (HQ rs'). by eapply gathered_trans.
Qed.

(** Merging leaves the other keysets. *)
Lemma gathered_same_ids K S l ls xs rs hp : gathered K S l ls xs rs hp -> same_ids K (h_keys hp).
Proof.
  intros Hd x k Hk. rewrite (gd_keys _ _ _ _ _ _ _ Hd), Hk. simpl. eexists. split; [done|]. unfold gathered_key. repeat case_decide; done.
Qed.

Lemma gathered_no_meta K S l ls xs rs hp m : gathered K S l ls xs rs hp -> no_meta K m -> no_meta (h_keys hp) m.
Proof.
  intros Hd Hm y k' Hk'. rewrite (gd_keys _ _ _ _ _ _ _ Hd) in Hk'. destruct (K !! y) as [k|] eqn:Ek; [|done]. simpl in Hk'. injection Hk' as <-.
  pose proof (Hm y k Ek). unfold gathered_key. repeat case_decide; done.
Qed.

Lemma gathered_other K S l ls xs rs hp m zs :
  gathered K S l ls xs rs hp -> no_meta K l -> no_meta K m -> m <> l -> keyset_ok K S idf m zs -> keyset_ok (h_keys hp) (h_sets hp) idf m zs.
Proof.
  intros Hd Hl Hm Hne Hok. eapply keyset_ok_same_ids; [by eapply gathered_same_ids|by eapply gathered_no_meta|].
  eapply keyset_ok_sim_delete; [apply (gd_sets _ _ _ _ _ _ _ Hd)|by apply no_meta_metas|done..].
Qed.

Lemma splitMerge_spec s sp parts alloc l ls ms xss :
  st_splits s !! sp = Some (mkSplit parts alloc) -> map part_keyset parts = map Some ms ->
  gatherable (h_keys (st_heap s)) (h_sets (st_heap s)) l ls ms xss ->
  kwp (splitMerge (Some sp) (Some l))
    (fun r s' => r = 1%Z /\ s' = with_heap s (st_heap s') /\
       exists rs, gathered (h_keys (st_heap s)) (h_sets (st_heap s)) l ls (concat xss) rs (st_heap s')) s.
Proof.
  intros Hs Hms Hg. unfold splitMerge. eapply kwp_step; [unfold get_split, deref_in; by rewrite Hs|].
  apply kwp_bind. eapply gather_loop; [exact Hms|exact Hg|]. intros rs hp Hd. apply kwp_ret. split_and!; [done|done|]. by exists rs.
Qed.
End Gather.

(** [splitMerge] brings the keys of all parts to the keyset: it has, in the order of
    keysets, exactly its own keys and those of the parts, and returns 1.  A key that was
    not there gains a reference; the parts and all other keysets stay, when no two
    different keys have the same name and owner. *)
Theorem splitMerge_gathers {E : Env} {MD : Modules} {HR : RecLaws env_rec} idf s sp parts alloc l ls ms xss :
  st_splits s !! sp = Some (mkSplit parts alloc) -> map part_keyset parts = map Some ms ->
  gatherable idf (h_keys (st_heap s)) (h_sets (st_heap s)) l ls ms xss ->
  kwp (splitMerge (Some sp) (Some l))
    (fun r s' => r = 1%Z /\ s' = with_heap s (st_heap s') /\
       exists rs, gathered idf (h_keys (st_heap s)) (h_sets (st_heap s)) l ls (concat xss) rs (st_heap s')) s.
Proof. apply splitMerge_spec. Qed.

(** ** Dividing, clearing, merging *)

Section Regroup.
Context {E : Env} {MD : Modules} {HR : RecLaws env_rec} (idf : loc -> kid) (name : loc -> cstr).
Context (s : kstate) (sp kdb : loc) (h : KDB) (parts : list Part) (alloc : nat) (ms : list loc) (l : loc) (ls : list loc).
Let K0 := h_keys (st_heap s).
Context (Hdv : dividable idf name s sp kdb h parts alloc ms l ls).

(** The keysets are no metadata, and every key has a name, a part and the reference of its
    keyset; its counter has room for another one. *)
Context (Hmeta : forall m, m ∈ l :: ms -> no_meta K0 m).
Context (Hkeys : forall x k, x ∈ ls -> K0 !! x = Some k -> 1 <= k_ksReference k /\ (Z.of_nat (k_ksReference k) < SSIZE_MAX)%Z).
Context (Hrouted : forall x, x ∈ ls -> is_Some (route name K0 h parts x)).

Let xss := imap (fun i _ => sent name K0 h parts i ls) ms.

Lemma length_parts : length parts = length ms.
Proof. pose proof (f_equal length (ap_parts _ _ _ _ _ (dv_apart _ _ _ _ _ _ _ _ _ _ _ Hdv))) as H. by rewrite !length_map in H. Qed.

Lemma sent_all z : z ∈ concat xss <-> z ∈ ls.
Proof.
  rewrite list_elem_of_In, in_concat. split.
  - intros (xs & Hxs & Hz). apply list_elem_of_In in Hz. apply list_elem_of_In, list_elem_of_lookup_1 in Hxs as [i Hi]. unfold xss in Hi.
    rewrite list_lookup_imap in Hi. destruct (ms !! i); [|done]. injection Hi as <-. by apply sent_sub in Hz as [? _].
  - intros Hz. destruct (Hrouted z Hz) as [i Hi]. destruct (find_part_lookup _ _ _ _ _ Hi) as (p & Hp & _).
    assert (is_Some (ms !! i)) as [m Hm] by (apply lookup_lt_is_Some_2; rewrite <- length_parts; by eapply lookup_lt_Some).
    exists (sent name K0 h parts i ls). split; apply list_elem_of_In.
    + apply list_elem_of_lookup_2 with i. unfold xss. by rewrite list_lookup_imap, Hm.
    + unfold sent. by rewrite list_elem_of_filter.
Qed.

Lemma routed_all : routed name K0 h parts ls = ls.
Proof.
  unfold routed. revert Hrouted. clear. induction ls as [|x xs IH]; intros Hr; [done|]. rewrite filter_cons, decide_True by (apply Hr; by left).
  f_equal. apply IH. intros y Hy. apply Hr. by right.
Qed.

Lemma divided_keysets : map part_keyset (divided name K0 h parts ls) = map Some ms.
Proof.
  rewrite <- (ap_parts _ _ _ _ _ (dv_apart _ _ _ _ _ _ _ _ _ _ _ Hdv)). apply list_eq. intros i. rewrite !list_lookup_fmap.
  destruct (divided _ _ _ _ _ !! i) as [q|] eqn:Hq.
  - apply divided_same_lookup in Hq as (p & -> & _ & _ & E' & _). simpl. by rewrite E'.
  - unfold divided in Hq. rewrite list_lookup_imap in Hq. by destruct (parts !! i).
Qed.

(** The keys after [ksClear]: only their names are locked. *)
Definition cleared_keys (K : gmap loc Key) : Prop := forall z, K !! z = k ← K0 !! z; Some (if decide (z ∈ ls) then locked k else k).

Lemma clear_divided K1 S1 c (Q : Z -> heap -> Prop) :
  divided_keys name K0 h parts K1 ls -> S1 !! l = Some c -> ks_rep c ls ->
  (forall K2 c', cleared_keys K2 -> same_ids K1 K2 -> ks_rep c' [] -> Q 0%Z (mkHeap K2 (<[l := c']> S1))) ->
  wp (ksClear l) Q (mkHeap K1 S1).
Proof.
  intros HK1 Hc Hrep HQ.
  assert (NoDup ls) as Hnd by (eapply kid_sorted_NoDup, (dv_sorted _ _ _ _ _ _ _ _ _ _ _ Hdv); intros x Hx; by eapply has_kid_ok, (dv_ids _ _ _ _ _ _ _ _ _ _ _ Hdv)).
  assert (forall z, K1 !! z = k ← K0 !! z; Some (if decide (z ∈ ls) then referenced (locked k) else k)) as HK1'.
  { intros z. rewrite HK1. by rewrite routed_all. }
  assert (forall x, x ∈ ls -> exists k, K1 !! x = Some k /\ 1 < k_ksReference k) as Hrefs.
  { intros x Hx. destruct (dv_names _ _ _ _ _ _ _ _ _ _ _ Hdv x Hx) as [(k & Hk & _) _]. fold K0 in Hk.
    rewrite HK1', Hk. simpl. rewrite decide_True by done. eexists. split; [done|]. destruct (Hkeys x k Hx Hk). by apply one_more_several. }
  destruct (release_ids K1 ls Hnd Hrefs) as [Hids HK2].
  eapply ksClear_spec; [done|done|done| |].
  { intros x Hx. destruct (Hrefs x Hx) as (k & Hk & ?). exists k. auto. }
  intros c' Hrep'. apply HQ; [|done|done]. intros z. rewrite HK2, HK1'. destruct (K0 !! z) as [k|] eqn:Ez; [|done]. simpl. f_equal.
  case_decide as Hz; [by apply referenced_back, (Hkeys z k)|done].
Qed.

Lemma cleared_no_meta K m : cleared_keys K -> no_meta K0 m -> no_meta K m.
Proof.
  intros HK Hm y k' Hk'. rewrite HK in Hk'. destruct (K0 !! y) as [k|] eqn:Ek; [|done]. simpl in Hk'. injection Hk' as <-.
  pose proof (Hm y k Ek). by case_decide.
Qed.

Lemma cleared_gatherable K1 K2 S1 c' :
  cleared_keys K2 -> same_ids K1 K2 -> ks_rep c' [] ->
  (forall i m, ms !! i = Some m -> keyset_ok K1 S1 idf m (sent name K0 h parts i ls)) ->
  gatherable idf K2 (<[l := c']> S1) l [] ms xss.
Proof.
  intros HK2 Hids Hrep Hparts. pose proof (dv_apart _ _ _ _ _ _ _ _ _ _ _ Hdv) as Hap. split.
  - eapply keyset_ok_nil; [apply lookup_insert_eq|done].
  - eapply cleared_no_meta; [done|]. apply Hmeta. by left.
  - apply Forall2_same_length_lookup. split; [unfold xss; by rewrite length_imap|]. intros i m xs Hm Hxs.
    unfold xss in Hxs. rewrite list_lookup_imap, Hm in Hxs. injection Hxs as <-.
    assert (m ∈ l :: ms) as Hin by (right; by eapply list_elem_of_lookup_2).
    assert (m <> l) as Hne.
    { intros ->. pose proof (ap_NoDup _ _ _ _ _ Hap) as Hnd. apply NoDup_cons in Hnd as [Hnd _]. apply Hnd. by eapply list_elem_of_lookup_2. }
    split_and!; [done|eapply cleared_no_meta; [done|by apply Hmeta]|].
    apply keyset_ok_insert; [|done|eapply cleared_no_meta; [done|apply Hmeta; by left]].
    eapply keyset_ok_same_ids; [done|eapply cleared_no_meta; [done|by apply Hmeta]|by apply Hparts].
  - intros x k' Hx Hk'. apply sent_all in Hx. destruct (dv_names _ _ _ _ _ _ _ _ _ _ _ Hdv x Hx) as [(k & Hk & Hn) _]. fold K0 in Hk.
    rewrite HK2, Hk in Hk'. simpl in Hk'. injection Hk' as <-. rewrite decide_True by done. simpl. by rewrite Hn.
  - cbn [app]. intros x y Hx%sent_all Hy%sent_all. apply (kid_sorted_inj idf ls); [|apply Hdv|done..].
    intros z Hz. by eapply has_kid_ok, (dv_ids _ _ _ _ _ _ _ _ _ _ _ Hdv).
Qed.

(** C5.  Nothing is lost on the way through the parts: after dividing a keyset, clearing it
    and merging the parts into it, the division of [kdbSet] and the end of [kdbGet], it has the keys it had in the
    order it had them, every part has its keys, and every key has the reference of the
    keyset and that of its part, when every key has a part and no counter was at [SSIZE_MAX]. *)
Theorem splitMerge_regroups :
  kwp (splitDivide (Some sp) (Some kdb) (Some l);; lift (ksClear l);; splitMerge (Some sp) (Some l))
    (fun r s' => let K := h_keys (st_heap s') in r = 1%Z /\ keyset_ok K (h_sets (st_heap s')) idf l ls /\
       (forall i m, ms !! i = Some m -> keyset_ok K (h_sets (st_heap s')) idf m (sent name K0 h parts i ls)) /\
       forall z, K !! z = k ← K0 !! z; Some (if decide (z ∈ ls) then referenced (locked k) else k)) s.
Proof.
  apply kwp_bind. eapply kwp_mono; [by eapply splitDivide_spec|]. intros r1 s1 (_ & Hs1 & HK1 & _ & (c & Hc & Hrep) & Hparts).
  apply kwp_bind, kwp_lift, wp_eta. eapply clear_divided; [exact HK1|exact Hc|exact Hrep|]. intros K2 c' HK2 Hids Hrep'.
  pose proof (cleared_gatherable _ _ _ _ HK2 Hids Hrep' Hparts) as Hg. set (s2 := with_heap s1 (mkHeap K2 (<[l := c']> (h_sets (st_heap s1))))).
  eapply kwp_mono; [eapply (splitMerge_spec idf s2 sp (divided name K0 h parts ls) alloc l [] ms xss)|].
  - unfold s2. rewrite Hs1. cbn. apply lookup_insert_eq.
  - apply divided_keysets.
  - exact Hg.
  - intros r s' (-> & _ & rs & Hd). cbn [st_heap s2 with_heap h_keys h_sets] in *. cbv zeta.
    assert (rs = ls) as ->.
    { pose proof (gd_elements _ _ _ _ _ _ _ _ Hd) as Hel. apply (kid_sorted_ext idf); [| |apply Hdv|].
      - intros x Hx. apply Hel in Hx as [Hx%not_elem_of_nil|Hx%sent_all]; [done|]. by eapply has_kid_ok, (dv_ids _ _ _ _ _ _ _ _ _ _ _ Hdv).
      - apply Hd.
      - intros z. rewrite Hel, elem_of_nil, sent_all. tauto. }
    split_and!; [done|apply Hd| |].
    + intros i m Hm. destruct (Forall2_lookup_l _ _ _ _ _ (gt_parts _ _ _ _ _ _ _ Hg) Hm) as (xs & Hxs & Hne & Hmm & Hok).
      unfold xss in Hxs. rewrite list_lookup_imap, Hm in Hxs. injection Hxs as <-.
      eapply gathered_other; [exact Hd|apply Hg|done..].
    + intros z. rewrite (gd_keys _ _ _ _ _ _ _ _ Hd), HK2. destruct (K0 !! z) as [k|]; [|done]. simpl. f_equal. unfold gathered_key.
      rewrite (decide_False (P := z ∈ [])) by apply not_elem_of_nil. rewrite (decide_ext _ _ _ _ (sent_all z)). case_decide; [by rewrite locked_idem|done].
Qed.
End Regroup.
