(* ===== verification/Sync.v ===== *)
(** * Sync: which parts [kdbSet] has to write

    [splitDivide] marks the parts that got a changed key, [splitSync] those that do
    not have as many keys as the backend had the last time.  Together they decide. *)
From S2P Require Export Gather.
#[local] Open Scope kdb_scope.

(** [kdbGet] has not set the size of the backend yet. *)
Definition UNREAD : Z := -1.

Section Sync.
Context {E : Env} {MD : Modules}.

(** The backend of the part had [z] keys in the namespace of the part. *)
Definition backend_size (s : kstate) (p : Part) (z : Z) : Prop :=
  exists x nm b lb, part_parent p = Some x /\ has_name (h_keys (st_heap s)) x nm /\
    part_handle p = Some lb /\ st_backends s !! lb = Some b /\ size_of b (keyGetNameNamespace (Some nm)) = Some z.

(** The part has [n] keys now. *)
Definition sized (s : kstate) (p : Part) (z : Z) (n : nat) : Prop :=
  backend_size s p z /\ exists m c, part_keyset p = Some m /\ h_sets (st_heap s) !! m = Some c /\ ks_size c = n.

Definition resized (z : Z) (n : nat) : bool := bool_decide (z <> Z.of_nat n).

Definition mark_resized (p : Part) (zn : Z * nat) : Part :=
  if resized zn.1 zn.2 then with_syncbits p (set_bit (part_syncbits p) SPLIT_FLAG_SYNC) else p.

(** Up to the first part that was not read. *)
Fixpoint sync_parts (parts : list Part) (sizes : list (Z * nat)) (i : nat) (needsSync : Z) : Z * list Part :=
  match parts, sizes with
  | p :: parts', (z, n) :: sizes' =>
      if (z =? UNREAD)%Z then ((- Z.of_nat i - 2)%Z, parts)
      else
        let (r, ps) := sync_parts parts' sizes' (S i) (if resized z n then 1%Z else needsSync) in
        (r, mark_resized p (z, n) :: ps)
  | _, _ => (needsSync, parts)
  end.

Lemma splits_id s sp sl : st_splits s !! sp = Some sl -> set_splits s (<[sp := sl]> (st_splits s)) = s.
Proof. intros H. rewrite insert_id by done. by destruct s. Qed.

Lemma sized_splits s p z n S : sized s p z n -> sized (set_splits s S) p z n.
Proof. by destruct s. Qed.

Lemma sync_loop_spec s sp alloc parts sizes pre i needsSync :
  st_splits s !! sp = Some (mkSplit (pre ++ parts) alloc) -> length pre = i ->
  Forall2 (fun p zn => sized s p zn.1 zn.2) parts sizes ->
  sync_loop (Some sp) parts i needsSync s =
    KRet (sync_parts parts sizes i needsSync).1
      (set_splits s (<[sp := mkSplit (pre ++ (sync_parts parts sizes i needsSync).2) alloc]> (st_splits s))).
Proof.
  intros Hs <- Hsz. revert pre s needsSync Hs Hsz. revert sizes. induction parts as [|p parts IH]; intros sizes pre s needsSync Hs Hsz.
  - apply Forall2_nil_inv_l in Hsz as ->. simpl. by rewrite splits_id.
  - apply Forall2_cons_inv_l in Hsz as ([z n] & sizes' & Hp & Hsz & ->). cbn [fst snd] in Hp.
    destruct Hp as [(x & nm & b & lb & Hx & (k & Hk & Hnm) & Hlb & Hb & Hz) (m & c & Hm & Hc & Hn)].
    assert (lift (keyGetNamespace (part_parent p)) s = KRet (keyGetNameNamespace (Some nm)) s) as Hns.
    { apply lift_pure. rewrite Hx. unfold keyGetNamespace, bindM, get_key. by rewrite Hk, Hnm. }
    assert (get_backend (part_handle p) s = KRet b s) as Hgb by (unfold get_backend, deref_in; by rewrite Hlb, Hb).
    assert (lift (ksGetSize (part_keyset p)) s = KRet (Z.of_nat n) s) as Hgs.
    { apply lift_pure. rewrite Hm. unfold ksGetSize, bindM, get_ks. by rewrite Hc, Hn. }
    assert (sync_loop (Some sp) (p :: parts) (length pre) needsSync s =
      (if (z =? UNREAD)%Z then kret (- Z.of_nat (length pre) - 2)%Z
       else if resized z n then
         put_part (Some sp) (length pre) (with_syncbits p (set_bit (part_syncbits p) SPLIT_FLAG_SYNC));;
         sync_loop (Some sp) parts (S (length pre)) 1
       else sync_loop (Some sp) parts (S (length pre)) needsSync) s) as ->.
    { cbn [sync_loop]. unfold kbind at 1. rewrite Hns. destruct (keyGetNameNamespace _); try discriminate Hz.
      all: unfold kbind at 1; rewrite Hgb, Hz; cbn [default from_option id]; unfold UNREAD; destruct (z =? -1)%Z; [done|].
      all: unfold kbind at 1; rewrite Hgs; done. }
    cbn [sync_parts]. destruct (z =? UNREAD)%Z; [cbn; by rewrite splits_id|].
    assert (mark_resized p (z, n) = if resized z n then with_syncbits p (set_bit (part_syncbits p) SPLIT_FLAG_SYNC) else p) as Hmk by done.
    set (need := if resized z n then 1%Z else needsSync). set (s' := set_splits s (<[sp := mkSplit ((pre ++ [mark_resized p (z, n)]) ++ parts) alloc]> (st_splits s))).
    assert ((if resized z n then put_part (Some sp) (length pre) (with_syncbits p (set_bit (part_syncbits p) SPLIT_FLAG_SYNC));;
         sync_loop (Some sp) parts (S (length pre)) 1 else sync_loop (Some sp) parts (S (length pre)) needsSync) s =
      sync_loop (Some sp) parts (length (pre ++ [mark_resized p (z, n)])) need s') as ->.
    { rewrite length_app, Nat.add_1_r. unfold need, s'. rewrite Hmk. destruct (resized z n).
      - unfold kbind at 1. erewrite put_part_ret; [|exact Hs|cbn [sp_parts]; by rewrite list_lookup_middle].
        cbn [sp_parts sp_alloc]. by rewrite insert_app_r_alt, Nat.sub_diag, <- app_assoc by lia.
      - rewrite <- app_assoc. by rewrite splits_id. }
    rewrite (IH sizes').
    + rewrite length_app, Nat.add_1_r. fold need. destruct (sync_parts parts sizes' _ need) as [r ps]. cbn [fst snd]. unfold s'. rewrite <- !app_assoc. f_equal. unfold set_splits. cbn [st_splits st_heap st_plugins st_backends st_kdbs st_modules st_trace]. cbn [app]. by rewrite insert_insert_eq.
    + unfold s'. apply lookup_insert_eq.
    + eapply Forall2_impl; [exact Hsz|]. intros. by apply sized_splits.
Qed.

(** All parts were read. *)
Lemma sync_parts_read parts sizes i needsSync :
  length parts = length sizes -> Forall (fun zn => zn.1 <> UNREAD) sizes ->
  sync_parts parts sizes i needsSync =
    (if existsb (fun zn => resized zn.1 zn.2) sizes then 1%Z else needsSync, zip_with mark_resized parts sizes).
Proof.
  revert sizes i needsSync. induction parts as [|p parts IH]; intros [|[z n] sizes] i needsSync Hlen Hr; try done.
  apply Forall_cons in Hr as [Hz Hr]. cbn [sync_parts zip_with existsb fst snd] in *. rewrite (proj2 (Z.eqb_neq _ _) Hz).
  rewrite IH by (done || by injection Hlen). destruct (resized z n); simpl; [|done]. by destruct (existsb _ _).
Qed.

(** The first part that was not read. *)
Lemma sync_parts_unread parts pre n post i needsSync :
  length parts = length (pre ++ (UNREAD, n) :: post) -> Forall (fun zn => zn.1 <> UNREAD) pre ->
  (sync_parts parts (pre ++ (UNREAD, n) :: post) i needsSync).1 = (- Z.of_nat (i + length pre) - 2)%Z.
Proof.
  revert parts i needsSync. induction pre as [|[z m] pre IH]; intros [|p parts] i needsSync Hlen Hr; try done.
  - simpl. by rewrite Nat.add_0_r.
  - apply Forall_cons in Hr as [Hz Hr]. cbn [sync_parts app length fst] in *. rewrite (proj2 (Z.eqb_neq _ _) Hz).
    specialize (IH parts (S i) (if resized z m then 1%Z else needsSync)). destruct (sync_parts parts _ _ _) as [r ps]. cbn [fst] in *.
    rewrite IH by (done || by injection Hlen). lia.
Qed.

Lemma splitSync_spec s sp parts alloc sizes :
  st_splits s !! sp = Some (mkSplit parts alloc) -> Forall2 (fun p zn => sized s p zn.1 zn.2) parts sizes ->
  splitSync (Some sp) s =
    KRet (sync_parts parts sizes 0 0).1 (set_splits s (<[sp := mkSplit (sync_parts parts sizes 0 0).2 alloc]> (st_splits s))).
Proof.
  intros Hs Hsz. unfold splitSync, kbind, get_split, deref_in. rewrite Hs. by apply (sync_loop_spec s sp alloc parts sizes []).
Qed.
End Sync.

(** [splitSync] compares the number of keys of every part with the size the backend had.
    When all backends were read it marks exactly the parts whose number differs, and
    returns 1 if there is one and 0 otherwise; else it returns [-i-2] for the first part
    [i] whose backend was not read.  Nothing but the split changes. *)
Theorem splitSync_compares {E : Env} {MD : Modules} s sp parts alloc sizes :
  st_splits s !! sp = Some (mkSplit parts alloc) -> Forall2 (fun p zn => sized s p zn.1 zn.2) parts sizes ->
  exists r parts', splitSync (Some sp) s = KRet r (set_splits s (<[sp := mkSplit parts' alloc]> (st_splits s))) /\
    (Forall (fun zn => zn.1 <> UNREAD) sizes ->
       r = (if existsb (fun zn => resized zn.1 zn.2) sizes then 1%Z else 0%Z) /\ parts' = zip_with mark_resized parts sizes) /\
    forall pre n post, sizes = pre ++ (UNREAD, n) :: post -> Forall (fun zn => zn.1 <> UNREAD) pre -> r = (- Z.of_nat (length pre) - 2)%Z.
Proof.
  intros Hs Hsz. pose proof (Forall2_length _ _ _ Hsz) as Hlen. eexists _, _. split; [by apply splitSync_spec|]. split.
  - intros Hr. by rewrite sync_parts_read.
  - intros pre n post -> Hr. by rewrite sync_parts_unread.
Qed.

(** ** Dividing and comparing *)

Section DivideSync.
Context {E : Env} {MD : Modules} {HR : RecLaws env_rec} (idf : loc -> kid) (name : loc -> cstr).
Context (s : kstate) (sp kdb : loc) (h : KDB) (parts : list Part) (alloc : nat) (ms : list loc) (l : loc) (ls : list loc).
Let K0 := h_keys (st_heap s).
Context (Hdv : dividable idf name s sp kdb h parts alloc ms l ls).

(** The sizes of the backends. *)
Context (zs : list Z).
Context (Hread : Forall2 (fun p z => z <> UNREAD /\ backend_size s p z) parts zs).

(** The part [i], whose backend has the size [z], has to be written. *)
Definition part_changed (i : nat) (z : Z) : bool :=
  any_sync K0 (sent name K0 h parts i ls) || resized z (length (sent name K0 h parts i ls)).

Definition mark_changed (i : nat) (p : Part) (z : Z) : Part :=
  if part_changed i z then with_syncbits p (Z.lor (part_syncbits p) 1) else p.

Let sizes := imap (fun i z => (z, length (sent name K0 h parts i ls))) zs.

Lemma length_zs : length zs = length parts.
Proof. symmetry. apply (Forall2_length _ _ _ Hread). Qed.

Lemma sizes_read : Forall (fun zn => zn.1 <> UNREAD) sizes.
Proof.
  apply Forall_lookup_2. intros i zn Hi. unfold sizes in Hi. rewrite list_lookup_imap in Hi. apply fmap_Some in Hi as (z & Hz & ->).
  destruct (Forall2_lookup_r _ _ _ _ _ Hread Hz) as (p & _ & Hne & _). done.
Qed.

Lemma divided_sizes s1 :
  s1 = set_splits (with_heap s (st_heap s1)) (<[sp := mkSplit (divided name K0 h parts ls) alloc]> (st_splits s)) ->
  divided_keys name K0 h parts (h_keys (st_heap s1)) ls ->
  (forall i m, ms !! i = Some m -> keyset_ok (h_keys (st_heap s1)) (h_sets (st_heap s1)) idf m (sent name K0 h parts i ls)) ->
  Forall2 (fun p zn => sized s1 p zn.1 zn.2) (divided name K0 h parts ls) sizes.
Proof.
  intros Hs1 HK1 Hparts. apply Forall2_same_length_lookup. split; [unfold sizes, divided; by rewrite !length_imap, length_zs|].
  intros i q zn Hq Hzn. unfold sizes in Hzn. rewrite list_lookup_imap in Hzn. apply fmap_Some in Hzn as (z & Hz & ->). cbn [fst snd].
  apply divided_same_lookup in Hq as (p & Hp & Hh & Hpar & Hks & _).
  destruct (Forall2_lookup_lr _ _ _ _ _ _ Hread Hp Hz) as [_ (x & nm & b & lb & Hx & Hnm & Hlb & Hb & Hsz)]. split.
  - exists x, nm, b, lb. split_and!; [congruence|eapply grown_name; [by eapply divided_keys_grown|exact Hnm]|congruence|by rewrite Hs1|done].
  - destruct (apart_keyset _ _ _ _ _ i p (dv_apart _ _ _ _ _ _ _ _ _ _ _ Hdv) Hp) as (m & Hm & Hpm).
    destruct (kso_rep _ _ _ _ _ (Hparts i m Hm)) as (c & Hc & Hrep). exists m, c. split_and!; [congruence|done|by apply rep_size].
Qed.

(** The result is 1 when a part has to be written. *)
Lemma changed_result :
  Z.lor (divided_sync name K0 h parts ls) (if existsb (fun zn => resized zn.1 zn.2) sizes then 1%Z else 0%Z) =
  (if existsb id (imap part_changed zs) then 1%Z else 0%Z).
Proof.
  assert (existsb id (imap part_changed zs) = any_sync K0 (routed name K0 h parts ls) || existsb (fun zn => resized zn.1 zn.2) sizes) as ->.
  2: { unfold divided_sync. by destruct (any_sync _ _), (existsb _ _). }
  apply Bool.eq_iff_eq_true. rewrite orb_true_iff. unfold any_sync. rewrite !existsb_exists. split.
  - intros (b & Hb & Ht). apply list_elem_of_In, list_elem_of_lookup_1 in Hb as [i Hi]. rewrite list_lookup_imap in Hi.
    apply fmap_Some in Hi as (z & Hz & ->). unfold id, part_changed, any_sync in Ht. apply orb_true_iff in Ht as [Ht|Ht].
    + left. apply existsb_exists in Ht as (x & Hx & Ht). exists x. split; [|done]. apply list_elem_of_In. apply list_elem_of_In, sent_sub in Hx as [Hx Hr].
      unfold routed. rewrite list_elem_of_filter. split; [by exists i|done].
    + right. exists (z, length (sent name K0 h parts i ls)). split; [|done]. apply list_elem_of_In, list_elem_of_lookup_2 with i.
      unfold sizes. by rewrite list_lookup_imap, Hz.
  - intros [(x & Hx & Ht)|(zn & Hzn & Ht)].
    + apply list_elem_of_In in Hx. unfold routed in Hx. apply list_elem_of_filter in Hx as [[i Hi] Hx].
      destruct (find_part_lookup _ _ _ _ _ Hi) as (p & Hp & _). destruct (Forall2_lookup_l _ _ _ _ _ Hread Hp) as (z & Hz & _).
      exists (part_changed i z). split; [apply list_elem_of_In, list_elem_of_lookup_2 with i; by rewrite list_lookup_imap, Hz|].
      unfold id, part_changed, any_sync. apply orb_true_iff. left. apply existsb_exists. exists x. split; [|done].
      apply list_elem_of_In. unfold sent. by rewrite list_elem_of_filter.
    + apply list_elem_of_In, list_elem_of_lookup_1 in Hzn as [i Hi]. unfold sizes in Hi. rewrite list_lookup_imap in Hi.
      apply fmap_Some in Hi as (z & Hz & ->). exists (part_changed i z).
      split; [apply list_elem_of_In, list_elem_of_lookup_2 with i; by rewrite list_lookup_imap, Hz|].
      unfold id, part_changed. apply orb_true_iff. by right.
Qed.

Lemma changed_part i p z : parts !! i = Some p -> zs !! i = Some z ->
  zip_with mark_resized (divided name K0 h parts ls) sizes !! i = Some (mark_changed i p z).
Proof.
  intros Hp Hz. rewrite lookup_zip_with. rewrite (divided_lookup _ _ _ _ _ _ _ Hp). unfold sizes. rewrite list_lookup_imap, Hz. simpl. f_equal.
  unfold mark_changed, part_changed, mark_resized. cbn [fst snd]. destruct (any_sync _ _), (resized _ _); try done.
  destruct p. unfold with_syncbits, set_bit, SPLIT_FLAG_SYNC. simpl. by rewrite <- Z.lor_assoc.
Qed.

(** What both decide; see [splitSync_decides]. *)
Lemma splitSync_decides_spec :
  kwp (r1 <- splitDivide (Some sp) (Some kdb) (Some l);; r2 <- splitSync (Some sp);; kret (Z.lor r1 r2))
    (fun r s' => r = (if existsb id (imap part_changed zs) then 1%Z else 0%Z) /\
       exists parts', st_splits s' !! sp = Some (mkSplit parts' alloc) /\ length parts' = length parts /\
         forall i p z, parts !! i = Some p -> zs !! i = Some z -> parts' !! i = Some (mark_changed i p z)) s.
Proof.
  apply kwp_bind. eapply kwp_mono; [by eapply splitDivide_spec|]. intros r1 s1 (-> & Hs1 & HK1 & _ & _ & Hparts).
  eapply kwp_step; [eapply (splitSync_spec s1 sp (divided name K0 h parts ls) alloc sizes)|].
  - rewrite Hs1. apply lookup_insert_eq.
  - by apply divided_sizes.
  - apply kwp_ret. assert (length (divided name K0 h parts ls) = length sizes) as Hlen by (unfold sizes, divided; by rewrite !length_imap, length_zs).
    rewrite sync_parts_read by (done || apply sizes_read). split; [apply changed_result|].
    exists (zip_with mark_resized (divided name K0 h parts ls) sizes). split; [apply lookup_insert_eq|]. split; [|apply changed_part].
    rewrite length_zip_with, <- Hlen, Nat.min_id. unfold divided. by rewrite length_imap.
Qed.

(** C4.  [splitDivide] and [splitSync] decide together what [kdbSet] has to write: a part is
    marked exactly when it got a key that needs synchronisation or when it does not have as
    many keys as its backend had, so that keys were added or removed; the results of both
    give 1 when a part has to be written and 0 otherwise.  All backends were read. *)
Theorem splitSync_decides :
  kwp (r1 <- splitDivide (Some sp) (Some kdb) (Some l);; r2 <- splitSync (Some sp);; kret (Z.lor r1 r2))
    (fun r s' => r = (if existsb id (imap part_changed zs) then 1%Z else 0%Z) /\
       exists parts', st_splits s' !! sp = Some (mkSplit parts' alloc) /\ length parts' = length parts /\
         forall i p z, parts !! i = Some p -> zs !! i = Some z -> parts' !! i = Some (mark_changed i p z)) s.
Proof. apply splitSync_decides_spec. Qed.
End DivideSync.
