(* ===== verification/Buildup.v ===== *)
(** * Buildup: the split of a parent key

    [splitBuildup] fills the split of [kdbGet] and [kdbSet] with a copy of every part of
    the handle the parent key asks for: all of them for the root, those of its own
    backend and those mounted below for a key in a namespace, and for a cascading key
    those of the four namespaces that are stored. *)
From S2P Require Export KdbFacts Sync Duplicate NameFacts.
#[local] Open Scope kdb_scope.

Section Buildup.
Context {E : Env} {MD : Modules} {HR : RecLaws env_rec}.

(** A namespace and the parts of a name. *)
Notation path := (cstr * list cstr)%type.

(** A key without metadata that has the canonical name of [np]. *)
Definition plain_path (K : gmap loc Key) (x : loc) (np : path) : Prop :=
  has_path K x (Some np.1) np.2 /\ exists k, K !! x = Some k /\ k_meta k = None.

(** The same name, or a name below. *)
Definition at_or_below (a b : path) : Prop := a.1 = b.1 /\ a.2 `prefix_of` b.2.
#[export] Instance at_or_below_dec a b : Decision (at_or_below a b) := _.

Lemma plain_cmp K S x y kx ky :
  K !! x = Some kx -> K !! y = Some ky -> k_meta kx = None -> k_meta ky = None -> k_key kx <> None -> k_key ky <> None ->
  exists r, keyCmp (Some x) (Some y) (mkHeap K S) = Ret r (mkHeap K S) /\ (r = 0%Z <-> k_uname kx = k_uname ky).
Proof.
  intros Hx Hy Hmx Hmy Hnx Hny.
  assert (wp (keyCmp (Some x) (Some y)) (fun r h => h = mkHeap K S /\ (r = 0%Z <-> k_uname kx = k_uname ky)) (mkHeap K S)) as (r & h & Hr & -> & H0); [|by exists r].
  unfold keyCmp. wsteps. destruct (k_key kx), (k_key ky); try done.
  apply (keyCompareByNameOwner_spec (fun _ => False) K S x y (k_uname kx, None) (k_uname ky, None)).
  - exists kx. unfold has_meta. by rewrite Hmx.
  - exists ky. unfold has_meta. by rewrite Hmy.
  - intros k m Hk Hm. congruence.
  - intros k m Hk Hm. congruence.
  - intros S' HS. assert (S' = S) as -> by (apply map_eq; intros m; destruct (HS m) as (_ & _ & H); apply H; by intros []). split; [done|].
    rewrite kid_order_zero by done. split; [by intros [= ?]|by intros ->].
Qed.


Lemma plain_path_uname K x a : plain_path K x a ->
  exists k, K !! x = Some k /\ k_meta k = None /\ k_key k = Some (path_name (Some a.1) a.2) /\ k_uname k = path_uname (Some a.1) a.2.
Proof.
  intros [(Hok & k & Hk & Hn & Hu) (k' & Hk' & Hm)]. simplify_eq. exists k. split_and!; try done. by rewrite Hu, path_name_uname.
Qed.

Lemma at_or_below_cases a b : at_or_below a b <-> a = b \/ path_below (Some a.1) a.2 (Some b.1) b.2.
Proof.
  destruct a as [n ps], b as [m qs]. unfold at_or_below, path_below, above. simpl. split.
  - intros [-> Hp]. destruct (decide (ps = qs)) as [->|]; [by left|]. right. split; [by left|done].
  - intros [[= -> ->]|[Hns [Hp _]]]; [done|]. split; [|done]. by destruct Hns as [[= ->]|[?|?]].
Qed.

(** [keyRel] is not negative exactly for the same name and the names below. *)
Lemma keyRel_paths K S x y a b : plain_path K x a -> plain_path K y b ->
  exists r, keyRel (Some x) (Some y) (mkHeap K S) = Ret r (mkHeap K S) /\ (0 <=? r)%Z = bool_decide (at_or_below a b).
Proof.
  intros Hx Hy. destruct (plain_path_uname _ _ _ Hx) as (kx & Hkx & Hmx & Hnx & Hux). destruct (plain_path_uname _ _ _ Hy) as (ky & Hky & Hmy & Hny & Huy).
  destruct (plain_cmp K S x y kx ky) as (r & Hr & H0); [done..|congruence|congruence|].
  destruct Hx as [Hpx _], Hy as [Hpy _].
  assert (r = 0%Z <-> a = b) as Hab.
  { rewrite H0, Hux, Huy. split; [|by intros ->]. intros [? ?]%path_uname_inj; [|apply Hpx|apply Hpy]. destruct a, b. simpl in *. congruence. }
  rewrite (bool_decide_ext _ _ (at_or_below_cases a b)).
  unfold keyRel.
  rewrite (bindM_Ret _ _ _ kx (mkHeap K S)) by (unfold get_key; cbn; by rewrite Hkx).
  rewrite (bindM_Ret _ _ _ ky (mkHeap K S)) by (unfold get_key; cbn; by rewrite Hky). rewrite Hnx, Hny.
  rewrite (bindM_Ret _ _ _ _ _ Hr). destruct (Z.eqb_spec r 0) as [E0|E0].
  { exists 0%Z. split; [done|]. symmetry. apply bool_decide_eq_true. left. by apply Hab. }
  assert (a <> b) as Hne by (by rewrite <- Hab).
  erewrite bindM_Ret by (by apply (keyIsDirectBelow_paths _ _ _ _ _ _ _ _ Hpx Hpy)).
  rewrite (bool_decide_ext (a = b \/ _) (path_below (Some a.1) a.2 (Some b.1) b.2)) by naive_solver.
  case_bool_decide as Hd; [exists 1%Z; cbn; split; [done|]; symmetry; apply bool_decide_eq_true; naive_solver|].
  cbn [Z.eqb negb]. erewrite bindM_Ret by (by apply (keyIsBelow_paths _ _ _ _ _ _ _ _ Hpx Hpy)).
  case_bool_decide as Hb; [by exists 2%Z|]. cbn [Z.eqb negb].
  assert (forall q z k n, K !! z = Some k -> k_key k = Some n -> keyIs q (Some z) (mkHeap K S) = Ret (if q n then 1 else 0)%Z (mkHeap K S)) as His.
  { intros q z k n Hk Hn. unfold keyIs. rewrite (bindM_Ret _ _ _ k (mkHeap K S)) by (unfold get_key; cbn; by rewrite Hk). by rewrite Hn. }
  unfold keyIsUser, keyIsSystem. do 2 (erewrite bindM_Ret by (by eapply His)).
  destruct (_ && _); [by exists (-3)%Z|]. do 2 (erewrite bindM_Ret by (by eapply His)).
  destruct (_ && _); [by exists (-3)%Z|by exists (-2)%Z].
Qed.

(** The part [q] of a split is a copy of the part [p] of the handle, with an empty keyset. *)
Definition copy_of (hp : heap) (p q : Part) : Prop :=
  part_handle q = part_handle p /\ part_syncbits q = part_syncbits p /\
  (exists x k y, part_parent p = Some x /\ part_parent q = Some y /\
     h_keys hp !! x = Some k /\ h_keys hp !! y = Some (dup_of k)) /\
  (exists m c, part_keyset q = Some m /\ h_sets hp !! m = Some c /\ ks_rep c []).

Lemma copy_of_mono hp hp' p q : h_keys hp ⊆ h_keys hp' -> h_sets hp ⊆ h_sets hp' -> copy_of hp p q -> copy_of hp' p q.
Proof.
  intros HK HS (H1 & H2 & (x & k & y & Hx & Hy & Hk & Hd) & (m & c & Hm & Hc & Hr)). split_and!; [done..| |].
  - exists x, k, y. split_and!; [done|done|by eapply lookup_weaken..].
  - exists m, c. split_and!; [done|by eapply lookup_weaken|done].
Qed.

(** The parts [new] are copies of [ps]; their keys and keysets are new and different. *)
Record copies (s : kstate) (hp : heap) (ps new : list Part) : Prop := {
  cp_copies : Forall2 (copy_of hp) ps new;
  cp_NoDup : NoDup (map part_keyset new);
  cp_NoDup_parents : NoDup (map part_parent new);
  cp_fresh q m : q ∈ new -> part_keyset q = Some m -> h_sets (st_heap s) !! m = None;
  cp_fresh_parents q y : q ∈ new -> part_parent q = Some y -> h_keys (st_heap s) !! y = None
}.

(** Locations that are allocated first, and locations that are new then. *)
Lemma NoDup_stages {V} (f : Part -> ptr) (M : gmap loc V) new new' :
  NoDup (map f new) -> NoDup (map f new') -> (forall q, q ∈ new -> exists m, f q = Some m /\ is_Some (M !! m)) ->
  (forall q m, q ∈ new' -> f q = Some m -> M !! m = None) -> NoDup (map f (new ++ new')).
Proof.
  intros H1 H2 Hold Hnew. rewrite map_app. apply NoDup_app. split_and!; [done| |done]. intros m Hm Hm'.
  apply list_elem_of_fmap in Hm as (q & -> & Hq). apply list_elem_of_fmap in Hm' as (q' & Eq & Hq').
  destruct (Hold q Hq) as (m & Em & Hm). rewrite (Hnew q' m Hq') in Hm by congruence. by destruct Hm.
Qed.

Lemma copies_old hp ps new q : Forall2 (copy_of hp) ps new -> q ∈ new ->
  (exists m, part_keyset q = Some m /\ is_Some (h_sets hp !! m)) /\ (exists y, part_parent q = Some y /\ is_Some (h_keys hp !! y)).
Proof.
  intros Hc (i & Hq)%list_elem_of_lookup_1.
  destruct (Forall2_lookup_r _ _ _ _ _ Hc Hq) as (p & _ & _ & _ & (x & k & y & _ & Hy & _ & Hk) & (m & c & Em & Hm & _)).
  split; [by exists m|by exists y].
Qed.

Lemma fresh_weaken {V} (M M' : gmap loc V) x : M ⊆ M' -> M' !! x = None -> M !! x = None.
Proof. intros HM Hx. destruct (M !! x) eqn:Ex; [|done]. by rewrite (lookup_weaken _ _ _ _ Ex HM) in Hx. Qed.

(** The copies [new] of [ps] were appended to the split at [l]; nothing else changed. *)
Definition appended_copies (s : kstate) (l : loc) (ps : list Part) (s' : kstate) : Prop :=
  exists sp new a, st_splits s !! l = Some sp /\
    s' = set_splits (with_heap s (st_heap s')) (<[l := mkSplit (sp_parts sp ++ new) a]> (st_splits s)) /\
    h_keys (st_heap s) ⊆ h_keys (st_heap s') /\ h_sets (st_heap s) ⊆ h_sets (st_heap s') /\
    copies s (st_heap s') ps new.

Lemma appended_copies_nil s l sp : st_splits s !! l = Some sp -> appended_copies s l [] s.
Proof.
  intros Hs. exists sp, [], (sp_alloc sp). split_and!; [done| |done..|].
  - rewrite app_nil_r. destruct s, sp. cbn in *. by rewrite insert_id.
  - split; [constructor..|by intros ? ? ?%not_elem_of_nil|by intros ? ? ?%not_elem_of_nil].
Qed.

Lemma appended_copies_trans s1 s2 s3 l ps qs :
  appended_copies s1 l ps s2 -> appended_copies s2 l qs s3 -> appended_copies s1 l (ps ++ qs) s3.
Proof.
  intros (sp & new & a & Hs1 & E2 & HK & HS & [Hc Hnd Hndp Hf Hfp]) (sp' & new' & a' & Hs2 & E3 & HK' & HS' & [Hc' Hnd' Hndp' Hf' Hfp']).
  assert (st_splits s2 = <[l := mkSplit (sp_parts sp ++ new) a]> (st_splits s1)) as Esp by (by rewrite E2).
  rewrite Esp, lookup_insert_eq in Hs2. injection Hs2 as <-. exists sp, (new ++ new'), a'. split_and!; [done| |by etrans|by etrans|].
  - rewrite E3 at 1. rewrite E2 at 1. unfold set_splits, with_heap. cbn. rewrite Esp, insert_insert_eq, app_assoc. done.
  - split.
    + apply Forall2_app; [|done]. eapply Forall2_impl; [exact Hc|]. intros p q. by apply copy_of_mono.
    + eapply (NoDup_stages _ (h_sets (st_heap s2))); [done..| |done]. intros q Hq. by eapply copies_old.
    + eapply (NoDup_stages _ (h_keys (st_heap s2))); [done..| |done]. intros q Hq. by eapply copies_old.
    + intros q m [Hq|Hq]%elem_of_app Hm; [by eapply Hf|]. eapply fresh_weaken; [exact HS|by eapply Hf'].
    + intros q m [Hq|Hq]%elem_of_app Hm; [by eapply Hfp|]. eapply fresh_weaken; [exact HK|by eapply Hfp'].
Qed.

(** [splitAppend (split, handle, keyDup (parent), syncbits)] *)
Lemma append_copy_spec s l sp p x k :
  st_splits s !! l = Some sp -> part_parent p = Some x -> h_keys (st_heap s) !! x = Some k -> k_meta k = None ->
  kwp (d <- lift (keyDup (part_parent p));; splitAppend (Some l) (part_handle p) d (part_syncbits p);; kret tt)
    (fun _ s' => appended_copies s l [p] s') s.
Proof.
  intros Hs Hx Hk Hm. rewrite Hx. apply kwp_bind, kwp_lift, wp_eta. eapply keyDup_plain; [done..|].
  set (K := h_keys (st_heap s)) in *. set (S := h_sets (st_heap s)). set (K1 := <[fresh_loc K := dup_of k]> K).
  apply kwp_bind. unfold splitAppend.
  eapply kwp_step; [unfold get_split, deref_in; cbn [st_splits with_heap]; by rewrite Hs|].
  apply kwp_bind, kwp_lift. cbn [st_heap with_heap]. apply ksNew_empty_spec. intros c Hrep _ _.
  eapply kwp_step; [unfold put_split, store; cbn [st_splits with_heap]; by rewrite Hs|]. apply kwp_ret, kwp_ret.
  exists sp, [mkPart (Some (fresh_loc S)) (part_handle p) (Some (fresh_loc K)) (part_syncbits p)],
    (if sp_alloc sp <? Datatypes.S (sp_size sp) then sp_alloc sp * 2 else sp_alloc sp).
  split_and!; [done|by destruct s| | |].
  - apply insert_subseteq, fresh_loc_None.
  - apply insert_subseteq, fresh_loc_None.
  - split.
    + constructor; [|constructor]. split_and!; [done..| |].
      * exists x, k, (fresh_loc K). split_and!; [done..| |by apply lookup_insert_eq].
        cbn. unfold K1. rewrite lookup_insert_ne; [done|by eapply fresh_loc_ne].
      * exists (fresh_loc S), c. split_and!; [done| |done]. apply lookup_insert_eq.
    + cbn. apply NoDup_singleton.
    + cbn. apply NoDup_singleton.
    + intros q m ->%list_elem_of_singleton [= <-]. apply fresh_loc_None.
    + intros q m ->%list_elem_of_singleton [= <-]. apply fresh_loc_None.
Qed.

(** The mountpoints of the parts [mounts] of a handle. *)
Definition mounts_at (K : gmap loc Key) (where_ : loc -> path) (mounts : list Part) : Prop :=
  Forall (fun p => exists x, part_parent p = Some x /\ plain_path K x (where_ x)) mounts.

Definition mount_path (where_ : loc -> path) (p : Part) : path := from_option where_ ([], []) (part_parent p).

(** The parts [splitBuildup] takes for the key [key]: that of its own backend, and those
    mounted below the key. *)
Definition concerns (h : KDB) (where_ : loc -> path) (key : path) (p : Part) : Prop :=
  backend_of h (path_name (Some key.1) key.2) = part_handle p /\ at_or_below (mount_path where_ p) key \/
  at_or_below key (mount_path where_ p).

#[export] Instance concerns_dec h where_ key p : Decision (concerns h where_ key p) := _.

Lemma plain_path_mono K K' x a : K ⊆ K' -> plain_path K x a -> plain_path K' x a.
Proof.
  intros HK [(Hok & k & Hk & Hn) (k' & Hk' & Hm)]. split; [split; [done|]; exists k|exists k']; (split; [by eapply lookup_weaken|done]).
Qed.

Lemma mounts_at_mono K K' where_ mounts : K ⊆ K' -> mounts_at K where_ mounts -> mounts_at K' where_ mounts.
Proof. intros HK H. eapply Forall_impl; [exact H|]. intros p (x & Hx & Hp). exists x. split; [done|by eapply plain_path_mono]. Qed.

Lemma appended_copies_heap s l ps s' : appended_copies s l ps s' ->
  h_keys (st_heap s) ⊆ h_keys (st_heap s') /\ is_Some (st_splits s' !! l) /\ st_kdbs s' = st_kdbs s /\
  st_backends s' = st_backends s /\ st_plugins s' = st_plugins s /\ st_trace s' = st_trace s.
Proof.
  intros (sp & new & a & Hs & E' & HK & _). split; [done|]. rewrite E'. cbn. by rewrite lookup_insert_eq.
Qed.

Lemma lift_keyRel s x y a b : plain_path (h_keys (st_heap s)) x a -> plain_path (h_keys (st_heap s)) y b ->
  exists r, lift (keyRel (Some x) (Some y)) s = KRet r s /\ (0 <=? r)%Z = bool_decide (at_or_below a b).
Proof.
  intros Hx Hy. destruct (keyRel_paths _ (h_sets (st_heap s)) _ _ _ _ Hx Hy) as (r & Hr & Hrel). exists r. split; [|done].
  apply lift_pure. by destruct (st_heap s).
Qed.

Lemma buildup_part_spec s l h where_ key a p x :
  is_Some (st_splits s !! l) -> part_parent p = Some x -> plain_path (h_keys (st_heap s)) x (where_ x) ->
  plain_path (h_keys (st_heap s)) key a ->
  kwp (buildup_part (Some l) (backend_of h (path_name (Some a.1) a.2)) (Some key) p)
    (fun _ s' => appended_copies s l (if decide (concerns h where_ a p) then [p] else []) s') s.
Proof.
  intros [sp Hs] Hx Hpx Hkey. destruct (plain_path_uname _ _ _ Hpx) as (k & Hk & Hm & _).
  pose proof (append_copy_spec s l sp p x k Hs Hx Hk Hm) as Hadd.
  destruct (lift_keyRel s x key _ _ Hpx Hkey) as (r1 & Hr1 & E1). destruct (lift_keyRel s key x _ _ Hkey Hpx) as (r2 & Hr2 & E2).
  unfold buildup_part. set (b := backend_of h (path_name (Some a.1) a.2)).
  assert (concerns h where_ a p <-> b = part_handle p /\ at_or_below (where_ x) a \/ at_or_below a (where_ x)) as Hc.
  { unfold concerns, mount_path. by rewrite Hx. }
  destruct (decide (b = part_handle p)) as [Eb|Eb].
  - rewrite Hx. eapply kwp_step; [exact Hr1|]. rewrite E1. rewrite Hx in Hadd. destruct (bool_decide_reflect (at_or_below (where_ x) a)) as [Hb1|Hb1].
    + rewrite decide_True by (apply Hc; by left). exact Hadd.
    + eapply kwp_step; [exact Hr2|]. rewrite E2. destruct (bool_decide_reflect (at_or_below a (where_ x))) as [Hb2|Hb2].
      * rewrite decide_True by (apply Hc; by right). exact Hadd.
      * rewrite decide_False by (rewrite Hc; naive_solver). apply kwp_ret. by eapply appended_copies_nil.
  - apply kwp_bind, kwp_ret. cbn [Z.leb Z.compare]. rewrite Hx in *. eapply kwp_step; [exact Hr2|]. rewrite E2. destruct (bool_decide_reflect (at_or_below a (where_ x))) as [Hb2|Hb2].
    + rewrite decide_True by (apply Hc; by right). exact Hadd.
    + rewrite decide_False by (rewrite Hc; naive_solver). apply kwp_ret. by eapply appended_copies_nil.
Qed.

Lemma buildup_loop_spec s l where_ mounts f (P : Part -> Prop) `{!forall p, Decision (P p)} :
  is_Some (st_splits s !! l) -> mounts_at (h_keys (st_heap s)) where_ mounts ->
  (forall s1 p x, h_keys (st_heap s) ⊆ h_keys (st_heap s1) -> is_Some (st_splits s1 !! l) -> part_parent p = Some x ->
     plain_path (h_keys (st_heap s1)) x (where_ x) ->
     kwp (f p) (fun _ s' => appended_copies s1 l (if decide (P p) then [p] else []) s') s1) ->
  kwp (kforM mounts f) (fun _ s' => appended_copies s l (filter P mounts) s') s.
Proof.
  intros Hl Hm Hf. revert s Hl Hm Hf. induction mounts as [|p mounts IH]; intros s Hl Hm Hf.
  { apply kwp_ret. destruct Hl as [sp Hs]. by eapply appended_copies_nil. }
  apply Forall_cons in Hm as [(x & Hx & Hpx) Hm]. cbn [kforM]. apply kwp_bind.
  eapply kwp_mono; [by eapply Hf|]. intros [] s1 H1. destruct (appended_copies_heap _ _ _ _ H1) as (HK & Hl1 & _).
  eapply kwp_mono; [apply IH; [done|by eapply mounts_at_mono|]|].
  - intros s2 q y HK2. apply Hf. by etrans.
  - intros [] s2 H2. rewrite filter_cons. pose proof (appended_copies_trans _ _ _ _ _ _ H1 H2) as H12.
    by destruct (decide (P p)).
Qed.

(** The handle [kdb] with its parts. *)
Record mounted (s : kstate) (kdb : loc) (h : KDB) (where_ : loc -> path) (mounts : list Part) : Prop := {
  mt_kdb : st_kdbs s !! kdb = Some h;
  mt_parts : exists l sp, kdb_split h = Some l /\ st_splits s !! l = Some sp /\ sp_parts sp = mounts;
  mt_paths : mounts_at (h_keys (st_heap s)) where_ mounts
}.

Lemma buildup_backends_key s l kdb h where_ mounts key a :
  mounted s kdb h where_ mounts -> is_Some (st_splits s !! l) -> plain_path (h_keys (st_heap s)) key a ->
  kwp (buildup_backends (Some l) (Some kdb) (Some key))
    (fun r s' => r = 1%Z /\ appended_copies s l (filter (concerns h where_ a) mounts) s') s.
Proof.
  intros [Hkdb (sl & sp & Hsl & Hsp & Hmounts) Hpaths] Hl Hkey. unfold buildup_backends.
  destruct (plain_path_uname _ _ _ Hkey) as (k & Hk & _ & Hn & _).
  eapply kwp_step; [eapply mountGetBackend_ret; [done|by exists k|by apply no_nul_path_name, Hkey]|].
  eapply kwp_step; [unfold get_kdb, deref_in; by rewrite Hkdb|]. rewrite Hsl.
  eapply kwp_step; [unfold get_split, deref_in; by rewrite Hsp|]. rewrite Hmounts.
  apply kwp_bind. eapply kwp_mono; [by eapply (buildup_loop_spec s l where_ mounts _ (concerns h where_ a)); [..|intros s1 p x HK Hl1 Hx Hpx; eapply buildup_part_spec; [done..|by eapply plain_path_mono]]|].
  intros [] s1 H1. by apply kwp_ret.
Qed.

Lemma buildup_backends_all s l kdb h where_ mounts :
  mounted s kdb h where_ mounts -> is_Some (st_splits s !! l) ->
  kwp (buildup_backends (Some l) (Some kdb) None) (fun r s' => r = 1%Z /\ appended_copies s l mounts s') s.
Proof.
  intros [Hkdb (sl & sp & Hsl & Hsp & Hmounts) Hpaths] Hl. unfold buildup_backends, mountGetBackend.
  apply kwp_bind. eapply kwp_step; [unfold get_kdb, deref_in; by rewrite Hkdb|]. apply kwp_ret.
  eapply kwp_step; [unfold get_kdb, deref_in; by rewrite Hkdb|]. rewrite Hsl.
  eapply kwp_step; [unfold get_split, deref_in; by rewrite Hsp|]. rewrite Hmounts.
  apply kwp_bind. eapply kwp_mono; [eapply (buildup_loop_spec s l where_ mounts _ (fun _ => True)); [done..|]|].
  - intros s1 p x HK Hl1 Hx Hpx. rewrite decide_True by done. destruct (plain_path_uname _ _ _ Hpx) as (k & Hk & Hm & _).
    destruct Hl1 as [sp1 Hs1]. by eapply append_copy_spec.
  - intros [] s1 H1. apply kwp_ret. split; [done|].
    assert (filter (fun _ => True) mounts = mounts) as Hf by (clear; induction mounts as [|p r IH]; [done|by rewrite filter_cons_True, IH]).
    by rewrite Hf in H1.
Qed.

(** ** Cascading keys *)

(** [keyAddName] takes a whole cascading name. *)
Lemma validate_absolute ps : Forall no_nul ps -> ps <> [] ->
  elektraValidateKeyName (escaped_path ps) (Datatypes.S (length (escaped_path ps))) = true.
Proof.
  intros Hps Hne. destruct (exists_last (l := ps)) as (rs & p & ->); [done|]. apply Forall_app in Hps as [_ [Hp _]%Forall_cons].
  destruct (escape_end p Hp) as (t & n & Et & Ht & Hn & _).
  assert (escaped_path (rs ++ [p]) = (escaped_path rs ++ SLASH :: t) ++ replicate n BSLASH) as ->.
  { rewrite escaped_path_app, escaped_path_cons, Et. change (escaped_path []) with (@nil ascii). by rewrite app_nil_r, <- app_assoc. }
  rewrite validate_trailing_backslashes.
  - by destruct (escaped_path rs).
  - rewrite last_app_ne by done. destruct t as [|c t]; [done|]. by rewrite last_cons_ne.
  - by destruct (escaped_path rs).
Qed.

(** The key whose name [splitBuildup] sets for every namespace. *)
Definition scratch (k : Key) : Prop :=
  k_meta k = None /\ k_ksReference k = 0 /\ test_bit (k_flags k) KEY_FLAG_RO_NAME = false.

Lemma scratch_named k c : scratch k -> scratch (named k c).
Proof. intros (H1 & H2 & H3). split_and!; [done..|]. cbn. by rewrite test_set_bit_other. Qed.

Lemma set_cascading_name K S kl k n ps :
  K !! kl = Some k -> scratch k -> n ∈ namespace_roots -> Forall no_nul ps -> ps <> [] ->
  wp (keySetName (Some kl) (Some n))
    (fun _ h1 => delete kl (h_keys h1) = delete kl K /\
       wp (keyAddName (Some kl) (Some (path_name None ps)))
         (fun _ h => exists k', h = mkHeap (<[kl := k']> K) S /\ scratch k' /\ plain_path (h_keys h) kl (n, ps)) h1) (mkHeap K S).
Proof.
  intros Hk Hsc Hn Hps Hne. pose proof Hsc as (Hm & Hr & Hro).
  assert (path_ok (Some n) []) as Hok by (split; [done|constructor]). assert (path_name (Some n) [] = n) as En by apply app_nil_r.
  rewrite <- En at 1. eapply wp_mono; [by eapply keySetName_path_spec|]. intros r h Hh. cbn beta in Hh.
  rewrite decide_False in Hh by (by intros []). destruct Hh as (-> & _). set (k1 := named (set_name k None []) (path_name (Some n) [])).
  cbn [h_keys]. rewrite delete_insert_eq. split; [done|].
  assert (scratch k1) as Hk1 by (by apply (scratch_named (set_name k None []))). rewrite path_name_cascading by done.
  eapply keyAddName_spec; [apply lookup_insert_eq|apply Hk1|done|by apply path_name_not_empty| |].
  { destruct ps as [|p ps]; [done|]. by rewrite escaped_path_cons. }
  rewrite validate_absolute by done. intros r' _. rewrite insert_insert_eq.
  assert (keyAddName_content (path_name (Some n) []) (escaped_path ps) = path_name (Some n) ps) as ->.
  { unfold keyAddName_content. rewrite bool_decide_false by (intros Hd; by apply (path_name_deref (Some n) []) in Hd).
    cbn [andb]. pose proof (length_escaped_path _ Hps). rewrite add_name_path by (done || lia). by rewrite En. }
  eexists. split; [done|]. split; [by apply (scratch_named k1)|]. cbn [h_keys]. split; [by apply renamed_has_path|].
  eexists. by rewrite lookup_insert_eq.
Qed.

(** The state without the key at [kl]. *)
Definition without (kl : loc) (s : kstate) : kstate :=
  with_heap s (mkHeap (delete kl (h_keys (st_heap s))) (h_sets (st_heap s))).

Lemma appended_copies_without s l ps s' kl :
  appended_copies s l ps s' -> is_Some (h_keys (st_heap s) !! kl) -> Forall (fun p => part_parent p <> Some kl) ps ->
  appended_copies (without kl s) l ps (without kl s').
Proof.
  intros (sp & new & a & Hs & E' & HK & HS & [Hc Hnd Hndp Hf Hfp]) Hkl Hps. exists sp, new, a. split_and!; [done| | |done|].
  - rewrite E' at 1. done.
  - by apply delete_mono.
  - split; [|done..|].
    + apply Forall2_same_length_lookup. split; [by eapply Forall2_length|]. intros i p q Hp Hq.
      destruct (Forall2_lookup_lr _ _ _ _ _ _ Hc Hp Hq) as (H1 & H2 & (x & k & y & Hx & Hy & Hk & Hd) & Hm).
      split_and!; [done..| |done]. exists x, k, y. split_and!; [done..| |]; cbn.
      * rewrite lookup_delete_ne; [done|]. intros ->. by apply (Forall_lookup_1 _ _ _ _ Hps Hp).
      * rewrite lookup_delete_ne; [done|]. intros ->. assert (q ∈ new) as Hin by (by eapply list_elem_of_lookup_2).
        rewrite (Hfp q y Hin Hy) in Hkl. by destruct Hkl.
    + intros q y Hq Hy. cbn. rewrite lookup_delete_None. right. by eapply Hfp.
Qed.

Lemma mounted_appended s l ps s' kdb h where_ mounts :
  mounted s kdb h where_ mounts -> kdb_split h <> Some l -> appended_copies s l ps s' -> mounted s' kdb h where_ mounts.
Proof.
  intros [Hk (sl & sp & Hsl & Hsp & Hm) Hp] Hne (sp0 & new & a & Hs & E' & HK & _). split.
  - by rewrite E'.
  - exists sl, sp. split_and!; [done| |done]. rewrite E'. cbn. rewrite lookup_insert_ne; [done|]. intros <-. done.
  - by eapply mounts_at_mono.
Qed.

Lemma mounted_without s kl kdb h where_ mounts :
  mounted (without kl s) kdb h where_ mounts ->
  mounted s kdb h where_ mounts /\ Forall (fun p => part_parent p <> Some kl) mounts.
Proof.
  intros [Hk Hs Hp]. split.
  - split; [done|done|]. eapply mounts_at_mono; [|exact Hp]. apply delete_subseteq.
  - eapply Forall_impl; [exact Hp|]. intros p (x & Hx & (_ & k & Hk' & _) & _) E'. rewrite Hx in E'. injection E' as ->.
    cbn in Hk'. by rewrite lookup_delete_eq in Hk'.
Qed.

(** A key in a namespace. *)
Lemma splitBuildup_rooted fuel s l kdb key a :
  plain_path (h_keys (st_heap s)) key a ->
  splitBuildup_fuel (Datatypes.S fuel) (Some l) kdb (Some key) s = buildup_backends (Some l) kdb (Some key) s.
Proof.
  intros Hkey. destruct (plain_path_uname _ _ _ Hkey) as (k & Hk & _ & Hn & _). destruct Hkey as [[Hok _] _].
  cbn [splitBuildup_fuel]. unfold kbind at 1.
  rewrite (lift_pure _ s (Some (path_name (Some a.1) a.2))) by (unfold keyName, bindM, get_key; by rewrite Hk, Hn).
  rewrite bool_decide_false by (rewrite strcmp_nil; by apply path_name_not_empty).
  rewrite bool_decide_false by (rewrite path_name_root by done; by intros []). cbn [orb].
  rewrite decide_False; [done|]. by intros ?%path_name_deref.
Qed.

(** The root of the namespaces [splitBuildup] visits. *)
Definition buildup_root (ns : elektraNamespace) : option cstr :=
  match ns with
  | KEY_NS_SPEC => Some (lit "spec") | KEY_NS_DIR => Some (lit "dir") | KEY_NS_USER => Some (lit "user")
  | KEY_NS_SYSTEM => Some (lit "system") | _ => None
  end.

Definition namespace_parts (h : KDB) (where_ : loc -> path) (mounts : list Part) (ps : list cstr) (ns : elektraNamespace) : list Part :=
  match buildup_root ns with Some n => filter (concerns h where_ (n, ps)) mounts | None => [] end.

Section Cascade.
Context (s : kstate) (l kdb key kl : loc) (h : KDB) (where_ : loc -> path) (mounts : list Part) (ps : list cstr).
Context (Hm : mounted s kdb h where_ mounts) (Hne : kdb_split h <> Some l).
Context (Hkey : has_path (h_keys (st_heap s)) key None ps) (Hps : ps <> []) (Hkl : h_keys (st_heap s) !! kl = None).

(** The parts [acc] were appended, and the key at [kl] is to be named again. *)
Definition cascading (acc : list Part) (s1 : kstate) : Prop :=
  appended_copies s l acc (without kl s1) /\ exists k, h_keys (st_heap s1) !! kl = Some k /\ scratch k.

Definition cascade_turn (ins : elektraNamespace) : KM unit :=
  ok <- elektraKeySetNameByNamespace (Some kl) ins;;
  if (ok =? 0)%Z then kret tt
  else
    n <- lift (keyName (Some key));;
    lift (keyAddName (Some kl) n);;
    splitBuildup_fuel 1 (Some l) (Some kdb) (Some kl);;
    kret tt.

Lemma cascade_rooted acc s1 n Q :
  cascading acc s1 -> n ∈ namespace_roots ->
  (forall s2, cascading (acc ++ filter (concerns h where_ (n, ps)) mounts) s2 -> Q tt s2) ->
  kwp (lift (keySetName (Some kl) (Some n));; m <- lift (keyName (Some key));; lift (keyAddName (Some kl) m);;
       splitBuildup_fuel 1 (Some l) (Some kdb) (Some kl);; kret tt) Q s1.
Proof.
  intros [Happ (k & Hk & Hsc)] Hn HQ. destruct Hkey as [[_ Hnul] (kk & Hkk & Hkn & _)].
  destruct (appended_copies_heap _ _ _ _ Happ) as (HK & Hl1 & _).
  assert (forall K', delete kl K' = delete kl (h_keys (st_heap s1)) -> K' !! key = Some kk) as Hkey'.
  { intros K' E'. assert (delete kl K' !! key = Some kk) as Hd by (rewrite E'; by eapply lookup_weaken).
    by apply lookup_delete_Some in Hd as []. }
  destruct (set_cascading_name _ (h_sets (st_heap s1)) kl k n ps Hk Hsc Hn Hnul Hps) as (r1 & h1 & Hrun1 & Hd1 & r2 & h2 & Hrun2 & k' & Eh2 & Hsc' & Hpath).
  set (s2 := with_heap s1 h2).
  assert (without kl s2 = without kl s1) as Ew.
  { unfold without, s2. rewrite Eh2. cbn. by rewrite delete_insert_eq. }
  assert (kwp (splitBuildup_fuel 1 (Some l) (Some kdb) (Some kl);; kret tt) Q s2) as Hlast.
  { apply kwp_bind. destruct (mounted_without s2 kl kdb h where_ mounts) as [Hm2 Hno].
    { rewrite Ew. by eapply mounted_appended. }
    destruct (buildup_backends_key s2 l kdb h where_ mounts kl (n, ps)) as (r3 & s3 & H3 & -> & H3'); [done|done|done|].
    exists 1%Z, s3. split; [by rewrite (splitBuildup_rooted _ _ _ _ _ (n, ps))|]. apply kwp_ret, HQ. split.
    - eapply appended_copies_trans; [exact Happ|]. rewrite <- Ew. apply appended_copies_without; [done| |].
      + cbn. rewrite Eh2. cbn. by rewrite lookup_insert_eq.
      + apply Forall_forall. intros p [_ Hp]%list_elem_of_filter. rewrite Forall_forall in Hno. by apply Hno.
    - destruct (appended_copies_heap _ _ _ _ H3') as [HK3 _]. exists k'. split; [|done].
      eapply lookup_weaken; [|exact HK3]. cbn. rewrite Eh2. apply lookup_insert_eq. }
  assert (mkHeap (h_keys (st_heap s1)) (h_sets (st_heap s1)) = st_heap s1) as Eh by by destruct (st_heap s1).
  eapply kwp_step; [unfold lift; rewrite <- Eh, Hrun1; reflexivity|].
  eapply kwp_step.
  { apply lift_pure. unfold keyName, bindM, get_key. cbn [st_heap with_heap]. rewrite (Hkey' _ Hd1), Hkn. reflexivity. }
  eapply kwp_step; [unfold lift; cbn [st_heap with_heap]; rewrite Hrun2; reflexivity|]. exact Hlast.
Qed.

Lemma cascade_turn_spec acc s1 ins Q :
  cascading acc s1 -> (forall s2, cascading (acc ++ namespace_parts h where_ mounts ps ins) s2 -> Q tt s2) -> kwp (cascade_turn ins) Q s1.
Proof.
  intros Hc HQ. unfold namespace_parts in *.
  assert (forall n, n ∈ namespace_roots -> buildup_root ins = Some n ->
    elektraKeySetNameByNamespace (Some kl) ins = kbind (lift (keySetName (Some kl) (Some n))) (fun _ => kret 1%Z) ->
    kwp (cascade_turn ins) Q s1) as Hroot.
  { intros n Hn Er Eb. rewrite Er in HQ. unfold cascade_turn. rewrite Eb.
    destruct (cascade_rooted acc s1 n Q Hc Hn HQ) as (u & s2 & Hrun & HQ2). exists u, s2. split; [|done]. rewrite <- Hrun.
    unfold kbind. by destruct (lift (keySetName (Some kl) (Some n)) s1). }
  destruct ins; cbn [buildup_root] in *; try (eapply Hroot; [|reflexivity..]; apply list_elem_of_In; simpl; tauto).
  all: unfold cascade_turn; apply kwp_bind, kwp_ret; cbn; apply kwp_ret, HQ; by rewrite app_nil_r.
Qed.

Lemma cascade_loop acc s1 nss Q :
  cascading acc s1 -> (forall s2, cascading (acc ++ flat_map (namespace_parts h where_ mounts ps) nss) s2 -> Q tt s2) ->
  kwp (kforM nss cascade_turn) Q s1.
Proof.
  revert acc s1. induction nss as [|ins nss IH]; intros acc s1 Hc HQ.
  { apply kwp_ret, HQ. by rewrite app_nil_r. }
  cbn [kforM]. apply kwp_bind. eapply cascade_turn_spec; [done|]. intros s2 Hc2. eapply IH; [done|].
  intros s3. rewrite <- app_assoc. apply HQ.
Qed.
End Cascade.

(** The parts of the handle a parent key asks for: all for an empty name and for the
    root, those it concerns for a key in a namespace, and for a cascading key those it
    concerns in one of the namespaces spec, dir, user and system. *)
Inductive asks_for (K : gmap loc Key) (key : loc) (h : KDB) (where_ : loc -> path) (mounts : list Part) : list Part -> Prop :=
| asks_empty k : K !! key = Some k -> default [] (k_key k) = [] -> asks_for K key h where_ mounts mounts
| asks_root : has_path K key None [] -> asks_for K key h where_ mounts mounts
| asks_rooted a : plain_path K key a -> asks_for K key h where_ mounts (filter (concerns h where_ a) mounts)
| asks_cascading ps :
    has_path K key None ps -> ps <> [] -> asks_for K key h where_ mounts (flat_map (namespace_parts h where_ mounts ps) namespaces).

Lemma kwp_eq {A} (m m' : KM A) Q s : m s = m' s -> kwp m' Q s -> kwp m Q s.
Proof. unfold kwp. by intros ->. Qed.

Lemma buildup_named s l kdb key k :
  h_keys (st_heap s) !! key = Some k ->
  splitBuildup (Some l) (Some kdb) (Some key) s =
  let name := default [] (k_key k) in
  (if bool_decide (strcmp name [] = 0%Z) || bool_decide (strcmp name (lit "/") = 0%Z)
   then buildup_backends (Some l) (Some kdb) None
   else if decide (deref name = SLASH) then
     kl <- lift (keyNew None []);; kforM namespaces (cascade_turn l kdb key kl);; lift (keyDel (Some kl));; kret 1%Z
   else buildup_backends (Some l) (Some kdb) (Some key)) s.
Proof.
  intros Hk. unfold splitBuildup. cbn [splitBuildup_fuel]. unfold kbind at 1.
  rewrite (lift_pure _ s (Some (default [] (k_key k)))); [done|].
  unfold keyName, bindM, get_key. rewrite Hk. by destruct (k_key k).
Qed.

Lemma buildup_cascading s l kdb key h where_ mounts ps :
  mounted s kdb h where_ mounts -> kdb_split h <> Some l -> is_Some (st_splits s !! l) ->
  has_path (h_keys (st_heap s)) key None ps -> ps <> [] ->
  kwp (kl <- lift (keyNew None []);; kforM namespaces (cascade_turn l kdb key kl);; lift (keyDel (Some kl));; kret 1%Z)
    (fun r s' => r = 1%Z /\ appended_copies s l (flat_map (namespace_parts h where_ mounts ps) namespaces) s') s.
Proof.
  intros Hm Hne [sp Hs] Hkey Hps. set (kl := fresh_loc (h_keys (st_heap s))).
  apply kwp_bind, kwp_lift, wp_eta. unfold keyNew, elektraKeyMalloc. apply wp_last. wstep. apply wp_ret. fold kl.
  set (s1 := with_heap s _). assert (without kl s1 = s) as Es1.
  { unfold without, s1, kl. cbn. rewrite delete_insert_fresh. destruct s as [hp ? ? ? ? ? ?]. by destruct hp. }
  apply kwp_bind. eapply (cascade_loop s l kdb key kl h where_ mounts ps Hm Hne Hkey Hps []).
  { split; [rewrite Es1; by eapply appended_copies_nil|]. exists emptyKey. split; [apply lookup_insert_eq|done]. }
  intros s2 [Happ (k & Hk & Hmeta & Href & _)]. apply kwp_bind, kwp_lift, wp_eta. eapply keyDel_plain_spec; [done..|].
  apply kwp_ret. split; [done|]. exact Happ.
Qed.

(** [splitBuildup] appends a copy of every part the parent key asks for, and returns 1. *)
Lemma splitBuildup_spec s l kdb key h where_ mounts ps :
  mounted s kdb h where_ mounts -> kdb_split h <> Some l -> is_Some (st_splits s !! l) ->
  asks_for (h_keys (st_heap s)) key h where_ mounts ps ->
  kwp (splitBuildup (Some l) (Some kdb) (Some key)) (fun r s' => r = 1%Z /\ appended_copies s l ps s') s.
Proof.
  intros Hm Hne Hl Hask. assert (exists k, h_keys (st_heap s) !! key = Some k) as [k Hk].
  { inversion Hask as [k0 ? ? E1|[_ (k0 & ? & _)] E1|a [[_ (k0 & ? & _)] _] E1|ps0 [_ (k0 & ? & _)] ? E1]; by exists k0. }
  pose proof (buildup_named s l kdb key k Hk) as Eb. cbn zeta in Eb.
  assert (forall ns ps0, has_path (h_keys (st_heap s)) key ns ps0 -> path_ok ns ps0 /\ default [] (k_key k) = path_name ns ps0) as Hname.
  { intros ns ps0 (Hok & k0 & Hk0 & Hn & _). simplify_eq. by rewrite Hn. }
  destruct Hask as [k0 Hk0 Hn|Hp|a Hp|ps Hp Hps].
  - simplify_eq. rewrite Hn in Eb. eapply kwp_eq; [exact Eb|]. by eapply buildup_backends_all.
  - destruct (Hname _ _ Hp) as [_ Hn]. rewrite Hn in Eb. eapply kwp_eq; [exact Eb|]. by eapply buildup_backends_all.
  - eapply kwp_eq; [apply (splitBuildup_rooted 1 s l _ key a Hp)|]. by apply buildup_backends_key.
  - destruct (Hname _ _ Hp) as [Hok Hn]. rewrite Hn in Eb.
    rewrite bool_decide_false in Eb by (rewrite strcmp_nil; by apply path_name_not_empty).
    rewrite bool_decide_false in Eb by (rewrite path_name_root by done; by intros []). cbn [orb] in Eb.
    rewrite decide_True in Eb by (by apply (path_name_deref None ps)). eapply kwp_eq; [exact Eb|]. by apply buildup_cascading.
Qed.
End Buildup.

(** ** The result *)

Section Result.
Context {E : Env} {MD : Modules}.

Lemma kbind_ret {A B} (m : KM A) (f : A -> KM B) s b s' :
  kbind m f s = KRet b s' -> exists a s1, m s = KRet a s1 /\ f a s1 = KRet b s'.
Proof. unfold kbind. destruct (m s) as [a s1| |]; [|done..]. eauto. Qed.

(** [splitBuildup] always returns 1. *)
Lemma buildup_backends_ret split kdb key s r s' : buildup_backends split kdb key s = KRet r s' -> r = 1%Z.
Proof. unfold buildup_backends. intros H. do 4 apply kbind_ret in H as (? & ? & _ & H). by injection H as <- _. Qed.

Lemma splitBuildup_ret split kdb key s r s' : splitBuildup split kdb key s = KRet r s' -> r = 1%Z.
Proof.
  unfold splitBuildup. cbn [splitBuildup_fuel]. intros H. apply kbind_ret in H as (name & s1 & _ & H).
  destruct name as [name|]; [|by apply buildup_backends_ret in H].
  destruct (_ || _); [by apply buildup_backends_ret in H|].
  destruct (decide (deref name = SLASH)); [|by apply buildup_backends_ret in H].
  do 3 apply kbind_ret in H as (? & ? & _ & H). by injection H as <- _.
Qed.

(** *** Keys without a backend *)

Lemma runs_kloop {F} {HF : Frame F} {A B} fuel (f : A -> KM (A + B)) a s (I : A -> Prop) (T : B -> Prop) :
  I a -> (forall a1 s1, F s s1 -> I a1 -> runs F (f a1) s1 (fun t _ => match t with inl a2 => I a2 | inr b => T b end)) ->
  runs F (kloop fuel f a) s (fun b _ => T b).
Proof.
  revert a s. induction fuel as [|n IH]; intros a s Ha Hf; [apply runs_nofuel|]. cbn [kloop].
  eapply runs_bind; [by apply Hf|]. intros [a2|b] s1 evs1 HF1 H1; [|by apply runs_ret].
  apply IH; [done|]. intros a3 s2 HF2. apply Hf. by etrans.
Qed.

Lemma mountGetBackend_none handle h key s :
  st_kdbs s !! handle = Some h ->
  runs same_backends (mountGetBackend (Some handle) key) s (fun b _ => b = None -> kdb_defaultBackend h = None).
Proof.
  intros Hh. unfold mountGetBackend, get_kdb. apply runs_deref_in. intros ? ? [= <-] ?. simplify_eq.
  destruct key as [x|]; [|by apply runs_ret]. eapply (runs_quiet_bind (F := same_backends)); [solve_quiet|]. intros n s1 _.
  destruct (bool_decide _); [by apply runs_ret|]. apply runs_ret. by destruct (trieLookup _ _).
Qed.

(** [splitDivide] and [splitAppoint] fail only without a default backend. *)
Lemma splitDivide_fails split handle h ks s :
  st_kdbs s !! handle = Some h ->
  runs same_backends (splitDivide split (Some handle) ks) s (fun r _ => r = (-1)%Z -> kdb_defaultBackend h = None).
Proof.
  intros Hh. unfold splitDivide. apply runs_quiet_bind; [solve_quiet|]. intros z s1 (E1 & E1b & E1c).
  apply runs_quiet_bind; [solve_quiet|]. intros fuel s2 (E2 & E2b & E2c).
  apply (runs_kloop _ _ _ _ (fun z => z <> (-1)%Z)); [done|]. intros need s3 (E3 & E3b & E3c) Hneed.
  apply runs_quiet_bind; [solve_quiet|]. intros cur s4 (E4 & E4b & E4c). destruct cur as [x|]; [|by apply runs_ret].
  eapply runs_bind; [apply (mountGetBackend_none handle h); congruence|]. intros [b|] s5 evs _ Hb; [|apply runs_ret; auto].
  apply runs_quiet_bind; [solve_quiet|]. intros found s6 _. destruct (found =? -1)%Z; [by apply runs_ret|].
  apply runs_quiet_bind; [solve_quiet|]. intros p s7 _. apply runs_quiet_bind; [solve_quiet|]. intros z1 s8 _.
  apply runs_quiet_bind; [solve_quiet|]. intros sync s9 _. destruct (sync =? 1)%Z; [|by apply runs_ret].
  apply runs_quiet_bind; [solve_quiet|]. intros [] s10 _. by apply runs_ret.
Qed.

Lemma splitAppoint_fails split handle h ks s :
  st_kdbs s !! handle = Some h ->
  runs same_backends (splitAppoint split (Some handle) ks) s (fun r _ => r = (-1)%Z -> kdb_defaultBackend h = None).
Proof.
  intros Hh. unfold splitAppoint. apply runs_quiet_bind; [solve_quiet|]. intros z s1 (E1 & E1b & E1c).
  apply runs_quiet_bind; [solve_quiet|]. intros z2 s2 (E2 & E2b & E2c).
  eapply (runs_bind _ _ _ (fun r _ => r = Some (-1)%Z -> kdb_defaultBackend h = None)).
  2:{ intros r s3 evs _ Hr. apply runs_ret. intros Er. apply Hr. destruct r; simpl in Er; [by subst|done]. }
  unfold kdb_ks_loop. apply runs_quiet_bind; [solve_quiet|]. intros fuel s3 (E3 & E3b & E3c).
  apply (runs_kloop _ _ _ _ (fun _ => True)); [done|]. intros [] s4 (E4 & E4b & E4c) _.
  apply runs_quiet_bind; [solve_quiet|]. intros [x|] s5 (E5 & E5b & E5c); [|by apply runs_ret].
  eapply (runs_bind _ _ _ (fun r _ => match r with Some b => b = (-1)%Z -> kdb_defaultBackend h = None | None => True end)).
  - eapply runs_bind; [apply (mountGetBackend_none handle h); congruence|]. intros [b|] s6 evs _ Hb; [|apply runs_ret; auto].
    apply runs_quiet_bind; [solve_quiet|]. intros found s7 _. apply runs_quiet_bind; [solve_quiet|]. intros p s8 _.
    destruct (test_bit _ _); [by apply runs_ret|]. apply runs_quiet_bind; [solve_quiet|]. intros z3 s9 _. by apply runs_ret.
  - intros [b|] s6 evs _ Hb; apply runs_ret; [|done]. intros [= ->]. by apply Hb.
Qed.
End Result.
