(* ===== verification/Transaction.v ===== *)
(** * Transaction: commit and rollback of kdbSet

    [kdbSet] as a whole: which plugins it calls, and that the plugins of the
    commit run exactly when no plugin before them failed. *)
From S2P Require Export Buildup.
#[local] Open Scope kdb_scope.

Section Rules.
Context {MD : Modules}.

Lemma runs_weaken {A} F (m : KM A) s (T T' : A -> list event -> Prop) :
  runs F m s T -> (forall a evs, T a evs -> T' a evs) -> runs any_state m s T'.
Proof. intros H HT a s' E. apply H in E as (_ & evs & Ht & HTa). split; [done|]. eauto. Qed.

(** Sequencing of a computation with a frame of its own. *)
Lemma runs_bind_frame {A B} F (m : KM A) (f : A -> KM B) s (T1 : A -> list event -> Prop) (T : B -> list event -> Prop) :
  runs F m s T1 ->
  (forall a s1 evs1, m s = KRet a s1 -> F s s1 -> T1 a evs1 -> runs any_state (f a) s1 (fun b evs2 => T b (evs1 ++ evs2))) ->
  runs any_state (kbind m f) s T.
Proof.
  intros H1 H2 b s' E. unfold kbind in E. destruct (m s) as [a s1| |] eqn:Em; [|done..].
  destruct (H1 a s1 Em) as (HF1 & evs1 & Ht1 & HT1). destruct (H2 a s1 evs1 eq_refl HF1 HT1 b s' E) as (_ & evs2 & Ht2 & HT2).
  split; [done|]. exists (evs1 ++ evs2). split; [by rewrite Ht2, Ht1, app_assoc|done].
Qed.

Lemma runs_quiet_frame {A B} F (m : KM A) (f : A -> KM B) s (T : B -> list event -> Prop) :
  quiet F m -> (forall a s1, m s = KRet a s1 -> F s s1 -> runs any_state (f a) s1 T) -> runs any_state (kbind m f) s T.
Proof. intros H1 H2. eapply (runs_bind_frame F); [apply H1|]. intros a s1 evs1 Em HF ->. by apply H2. Qed.

Lemma runs_quiet_trace {A B} F (m : KM A) (f : A -> KM B) s (T : B -> list event -> Prop) :
  quiet F m -> (forall a s1, m s = KRet a s1 -> F s s1 -> st_trace s1 = st_trace s -> runs any_state (f a) s1 T) ->
  runs any_state (kbind m f) s T.
Proof.
  intros H1 H2. eapply (runs_quiet_frame F); [done|]. intros a s1 Em HF. apply (H2 a s1 Em HF).
  destruct (H1 s a s1 Em) as (_ & evs & Ht & ->). by rewrite app_nil_r in Ht.
Qed.

(** Plugins and handles stay. *)
Definition same_plugins (s s' : kstate) : Prop := st_plugins s' = st_plugins s /\ st_kdbs s' = st_kdbs s.

#[global] Instance same_plugins_frame : Frame same_plugins.
Proof. unfold same_plugins. split; [|done]. split; [done|]. intros s1 s2 s3 (?&?) (?&?). split_and!; congruence. Qed.

Lemma quiet_put_backend p v : quiet same_plugins (put_backend p v).
Proof.
  intros s a s' E. unfold put_backend, store in E. destruct p as [l|]; [|done]. destruct (st_backends s !! l); [|done].
  injection E as _ <-. split; [done|]. exists []. by rewrite app_nil_r.
Qed.

(** What a computation on keys leaves. *)
Lemma lift_splits {A B} (m : M A) (f : A -> KM B) s b s' :
  kbind (lift m) f s = KRet b s' -> exists a s1, f a s1 = KRet b s' /\ st_splits s1 = st_splits s.
Proof.
  unfold kbind, lift. destruct (m (st_heap s)) as [a h| |]; [|done..]. intros H. by exists a, (with_heap s h).
Qed.
End Rules.

Section Prepare.
Context {E : Env} {MD : Modules}.

(** The part needs sync. *)
Definition synced (p : Part) : bool := (Z.land (part_syncbits p) 1 =? 1)%Z.

(** What stays of a part when its keyset is replaced. *)
Definition part_id (p : Part) : ptr * ptr * Z := (part_handle p, part_parent p, part_syncbits p).

Lemma put_split_ret l v sp s s' u :
  st_splits s !! l = Some sp -> put_split (Some l) v s = KRet u s' -> st_splits s' = <[l := v]> (st_splits s).
Proof. intros H. unfold put_split, store. rewrite H. by intros [= _ <-]. Qed.

Lemma prepare_loop_keeps fuel l i sp s s' u :
  st_splits s !! l = Some sp -> prepare_loop fuel (Some l) i s = KRet u s' ->
  exists sp', st_splits s' !! l = Some sp' /\
    map part_id (sp_parts sp') = map part_id (take i (sp_parts sp) ++ List.filter synced (drop i (sp_parts sp))).
Proof.
  revert i sp s. induction fuel as [|n IH]; intros i sp s Hs Hr; [done|]. cbn [prepare_loop] in Hr.
  unfold kbind at 1, get_split, deref_in in Hr. rewrite Hs in Hr.
  destruct (sp_parts sp !! i) as [p|] eqn:Hp.
  - rewrite (drop_S _ _ _ Hp). simpl. fold (synced p) in Hr. destruct (synced p) eqn:Hsync.
    + apply lift_splits in Hr as (ks & s1 & Hr & E1). apply lift_splits in Hr as (z & s2 & Hr & E2).
      unfold kbind at 1 in Hr. unfold put_part, kbind at 1, get_split, deref_in in Hr. rewrite E2, E1, Hs in Hr.
      assert (i < sp_size sp) as Hi by (by apply lookup_lt_Some in Hp).
      apply Nat.ltb_lt in Hi as Hi'. rewrite Hi' in Hr.
      destruct (put_split _ _ s2) as [[] s3| |] eqn:Eput; [|done..].
      apply (put_split_ret _ _ sp) in Eput; [|by rewrite E2, E1].
      destruct (IH (S i) (mkSplit (<[i:=with_keyset p ks]> (sp_parts sp)) (sp_alloc sp)) s3) as (sp' & Hs' & Hm).
      { by rewrite Eput, lookup_insert_eq. }
      { exact Hr. }
      exists sp'. split; [done|]. rewrite Hm. simpl. rewrite (take_S_r _ _ (with_keyset p ks)) by (by apply list_lookup_insert_eq).
      rewrite take_insert_ge, drop_insert_lt by lia. rewrite !map_app. simpl. by rewrite <- app_assoc.
    + unfold kbind at 1 in Hr. unfold splitRemove, kbind at 1, get_split, deref_in in Hr. rewrite Hs, Hp in Hr.
      destruct (kbind _ _ s) as [[] s3| |] eqn:Erem; [|done..].
      apply lift_splits in Erem as (z1 & s1 & Erem & E1). apply lift_splits in Erem as (z2 & s2 & Erem & E2).
      apply (put_split_ret _ _ sp) in Erem; [|by rewrite E2, E1].
      eapply IH in Hr as (sp' & Hs' & Hm); [|by rewrite Erem, lookup_insert_eq].
      exists sp'. split; [done|]. rewrite Hm. simpl. apply lookup_lt_Some in Hp.
      assert (length (take i (sp_parts sp)) = i) as Hlen by (rewrite length_take; lia).
      rewrite take_app_length', drop_app_length' by done. done.
  - injection Hr as _ <-. exists sp. split; [done|]. rewrite take_ge, drop_ge by (by apply lookup_ge_None in Hp).
    by rewrite app_nil_r.
Qed.

(** [splitPrepare] keeps the parts that need sync, in their order. *)
Lemma splitPrepare_parts l sp s s' u :
  st_splits s !! l = Some sp -> splitPrepare (Some l) s = KRet u s' ->
  exists sp', st_splits s' !! l = Some sp' /\ map part_id (sp_parts sp') = map part_id (List.filter synced (sp_parts sp)).
Proof.
  intros Hs Hr. unfold splitPrepare, kbind, get_split, deref_in in Hr. rewrite Hs in Hr.
  by apply (prepare_loop_keeps _ _ 0 sp) in Hr.
Qed.
End Prepare.

(** ** The traces of kdbSet *)

Section SetTrace.
Context {E : Env} {MD : Modules}.

(** The plugins called for errors, and those called from the commit on. *)
Definition rollback_trace (s : kstate) (h : KDB) (ks : ptr) (parts : list Part) : list (place * loc * ptr) :=
  global_calls s p_kdbError (kdb_globalPlugins h) PREROLLBACK ks ++ rollback_calls s parts ++
  global_calls s p_kdbError (kdb_globalPlugins h) POSTROLLBACK ks.
Definition commit_trace (s : kstate) (h : KDB) (ks : ptr) (parts : list Part) : list (place * loc * ptr) :=
  global_calls s p_kdbSet (kdb_globalPlugins h) PRECOMMIT ks ++ commit_calls s parts ++
  global_calls s p_kdbSet (kdb_globalPlugins h) POSTCOMMIT ks.

(** The parts of the split at [split]. *)
Definition has_parts (s : kstate) (split : ptr) (parts : list Part) : Prop :=
  exists l sp, split = Some l /\ st_splits s !! l = Some sp /\ sp_parts sp = parts.

(** What [kdbSet] does first: it saves the error of the parent key, warns about an empty
    name, copies the parent key and makes a split. *)
Definition set_start (key : ptr) : KM ptr :=
  ns <- lift (keyGetNamespace key);;
  save_error key;;
  (if decide (ns = KEY_NS_EMPTY)
   then lift (add_warning 105 key [lit "invalid key name passed to kdbSet"]) else kret tt);;
  lift (keyDup key);;
  splitNew.

(** From [s1] to [s2] [splitBuildup] fills the empty split at [l]: with a copy of each of
    the parts of the handle the parent key asks for. *)
Definition built (handle : loc) (h : KDB) (key : ptr) (l : loc) (s1 s2 : kstate) : Prop :=
  splitBuildup (Some l) (Some handle) key s1 = KRet 1%Z s2 /\
  st_splits s1 !! l = Some (mkSplit [] APPROXIMATE_NR_OF_BACKENDS) /\
  forall x where_ mounts ps, RecLaws env_rec -> key = Some x -> mounts <> [] -> mounted s1 handle h where_ mounts ->
    asks_for (h_keys (st_heap s1)) x h where_ mounts ps -> appended_copies s1 l ps s2.

(** From [s2] to [s3] the keys are divided. *)
Definition set_divided (s : kstate) (handle : loc) (h : KDB) (ks key : ptr) (l : loc) (s2 : kstate) (d : Z) (s3 : kstate) : Prop :=
  exists s1, set_start key s = KRet (Some l) s1 /\ built handle h key l s1 s2 /\ splitDivide (Some l) (Some handle) ks s2 = KRet d s3.

(** [need] is what has to be written, and [parts'] are the parts of the divided split
    with their marks: when the backends were read, a part is marked that got a key which
    needs it or whose number of keys changed. *)
Definition decided (handle : loc) (h : KDB) (ks : ptr) (l : loc) (s2 : kstate) (need : Z) (parts' : list Part) : Prop :=
  forall idf name parts alloc ms kl ls zs, RecLaws env_rec -> ks = Some kl ->
    dividable idf name s2 l handle h parts alloc ms kl ls ->
    Forall2 (fun p z => z <> UNREAD /\ backend_size s2 p z) parts zs ->
    need = (if existsb id (imap (part_changed name s2 h parts ls) zs) then 1%Z else 0%Z) /\
    length parts' = length parts /\
    forall i p z, parts !! i = Some p -> zs !! i = Some z -> parts' !! i = Some (mark_changed name s2 h parts ls i p z).

(** The parts of the split after [splitSync], and what has to be written. *)
Definition set_synced (s : kstate) (handle : loc) (h : KDB) (ks key : ptr) (need : Z) (parts : list Part) : Prop :=
  exists l s2 d s3 y s4, set_divided s handle h ks key l s2 d s3 /\ d <> (-1)%Z /\ splitSync (Some l) s3 = KRet y s4 /\
    parts = from_option sp_parts [] (st_splits s4 !! l) /\ need = Z.lor d y /\ decided handle h ks l s2 need parts.

(** There is no keyset, or the parent key has a wrong name. *)
Definition set_wrong (s : kstate) (ks key : ptr) : Prop :=
  ks = None \/ exists ns hp, keyGetNamespace key (st_heap s) = Ret ns hp /\ (ns = KEY_NS_NONE \/ ns = KEY_NS_META).

(** The result of [kdbSet] and the plugins it called. *)
Inductive set_trace (s : kstate) (handle : loc) (h : KDB) (ks key : ptr) : Z -> list event -> Prop :=
| set_refused : set_wrong s ks key -> set_trace s handle h ks key (-1) []
| set_unneeded parts : set_synced s handle h ks key 0 parts -> set_trace s handle h ks key 0 []
| set_not_synced need parts :
    set_synced s handle h ks key need parts -> need <> 0%Z -> need <> 1%Z -> set_trace s handle h ks key (-1) []
| set_not_divided l s2 s3 parts evs :
    kdb_defaultBackend h = None -> set_divided s handle h ks key l s2 (-1) s3 -> has_parts s3 (Some l) parts ->
    map call_of evs = rollback_trace s h ks parts -> set_trace s handle h ks key (-1) evs
| set_rolled_back marked parts evss evs :
    set_synced s handle h ks key 1 marked -> map part_id parts = map part_id (List.filter synced marked) ->
    Forall2 (part_prepared s (kdb_globalPlugins h)) parts evss ->
    existsb failed (concat evss) = true ->
    map call_of evs = rollback_trace s h ks parts -> set_trace s handle h ks key (-1) (concat evss ++ evs)
| set_committed marked parts evss evs :
    set_synced s handle h ks key 1 marked -> map part_id parts = map part_id (List.filter synced marked) ->
    Forall2 (part_prepared s (kdb_globalPlugins h)) parts evss ->
    existsb failed (concat evss) = false ->
    map call_of evs = commit_trace s h ks parts -> set_trace s handle h ks key 1 (concat evss ++ evs).

Lemma global_calls_same s s1 fn hooks g ks :
  st_plugins s1 = st_plugins s -> global_calls s1 fn hooks g ks = global_calls s fn hooks g ks.
Proof. intros E1. unfold global_calls, fn_of. by rewrite E1. Qed.

Lemma part_prepared_same s s1 hooks part evs :
  st_plugins s1 = st_plugins s -> st_backends s1 = st_backends s ->
  part_prepared s1 hooks part evs -> part_prepared s hooks part evs.
Proof.
  intros E1 E2. unfold part_prepared, prepare_slot_calls, hook_call, global_calls, slot_call, fn_of. by rewrite E1, E2.
Qed.

Lemma call_global_calls {F} {HF : Frame F} call fn handle h g ks key s s0 :
  (forall where_ p s, st_plugins s = st_plugins s0 -> runs F (call where_ p ks key) s (called s0 fn where_ p ks)) ->
  st_kdbs s !! handle = Some h -> st_plugins s = st_plugins s0 ->
  runs F (call_global call (Some handle) g ks key) s (fun _ evs =>
    map call_of evs = global_calls s0 fn (kdb_globalPlugins h) g ks).
Proof.
  intros Hcall Hh Ep. unfold call_global, global_calls. apply runs_deref_in. intros l h' [= <-] Hh'. simplify_eq.
  destruct (kdb_globalPlugins h g) as [q|]; [|by apply runs_ret].
  eapply runs_bind; [by apply Hcall|]. intros r s1 evs _ Hc. apply runs_ret. rewrite app_nil_r. unfold called in Hc.
  destruct (fn_of s0 fn (Some q)) as [[l' f]|]; [|done]. by subst evs.
Qed.

Lemma call_global_set_calls {F} {HF : Frame F} handle h g ks key s s0 :
  st_kdbs s !! handle = Some h -> st_plugins s = st_plugins s0 ->
  runs F (call_global call_set (Some handle) g ks key) s (fun _ evs =>
    map call_of evs = global_calls s0 p_kdbSet (kdb_globalPlugins h) g ks).
Proof. intros. apply call_global_calls; [|done..]. intros. by apply runs_call_set. Qed.

Lemma call_global_error_calls {F} {HF : Frame F} handle h g ks key s s0 :
  st_kdbs s !! handle = Some h -> st_plugins s = st_plugins s0 ->
  runs F (call_global call_error (Some handle) g ks key) s (fun _ evs =>
    map call_of evs = global_calls s0 p_kdbError (kdb_globalPlugins h) g ks).
Proof. intros. apply call_global_calls; [|done..]. intros. by apply runs_call_error. Qed.

Lemma call_global_get_calls {F} {HF : Frame F} handle h g ks key s s0 :
  st_kdbs s !! handle = Some h -> st_plugins s = st_plugins s0 ->
  runs F (call_global call_get (Some handle) g ks key) s (fun _ evs =>
    map call_of evs = global_calls s0 p_kdbGet (kdb_globalPlugins h) g ks).
Proof. intros. apply call_global_calls; [|done..]. intros. by apply runs_call_get. Qed.

Lemma has_parts_same s s1 split parts : st_splits s1 = st_splits s -> has_parts s1 split parts -> has_parts s split parts.
Proof. intros E1 (l & sp & H1 & H2 & H3). exists l, sp. by rewrite <- E1. Qed.

Lemma has_parts_unique s split ps qs : has_parts s split ps -> has_parts s split qs -> ps = qs.
Proof. intros (l & sp & -> & H2 & <-) (l' & sp' & [= <-] & H2' & <-). congruence. Qed.

Lemma rollback_has_parts split key s :
  runs same_structs (elektraSetRollback split key) s (fun _ evs =>
    exists parts, has_parts s split parts /\ map call_of evs = rollback_calls s parts).
Proof.
  intros u s' Hr. destruct split as [l|]; [|done].
  destruct (st_splits s !! l) as [sp|] eqn:Hs.
  - destruct (elektraSetRollback_calls l sp key s Hs u s' Hr) as (HF & evs & Ht & Hc). split; [done|].
    exists evs. split; [done|]. exists (sp_parts sp). split; [by exists l, sp|done].
  - unfold elektraSetRollback, kbind, get_split, deref_in in Hr. by rewrite Hs in Hr.
Qed.

Lemma quiet_update_size_loop parts : quiet same_plugins (update_size_loop parts).
Proof.
  induction parts as [|p r IH]; cbn [update_size_loop]; solve_quiet; try apply quiet_put_backend; apply IH.
Qed.
Lemma quiet_splitUpdateSize split : quiet same_plugins (splitUpdateSize split).
Proof. unfold splitUpdateSize. solve_quiet. apply quiet_update_size_loop. Qed.

(** The label [error] calls the error plugins of the parts the split has, and
    [kdbSet] returns -1. *)
Lemma set_error_path_calls handle h split ks key init ekey old s :
  st_kdbs s !! handle = Some h ->
  runs any_state (set_error_path (Some handle) split ks key init ekey old) s (fun r evs =>
    r = (-1)%Z /\ exists parts, has_parts s split parts /\ map call_of evs = rollback_trace s h ks parts).
Proof.
  intros Hh. unfold set_error_path.
  eapply (runs_quiet_frame same_structs); [solve_quiet|]. intros [] s1 _ (E1 & E2 & E3 & E4).
  eapply (runs_bind_frame same_structs); [apply (call_global_error_calls _ h _ _ _ _ s); congruence|].
  intros [] s2 evs1 _ (F1 & F2 & F3 & F4) H1.
  eapply (runs_bind_frame same_structs); [apply rollback_has_parts|]. intros [] s3 evs2 _ (G1 & G2 & G3 & G4) (parts & Hparts & H2).
  eapply (runs_quiet_frame same_structs); [solve_quiet|]. intros [] s4 _ (I1 & I2 & I3 & I4).
  eapply (runs_quiet_frame same_structs); [solve_quiet|]. intros [] s5 _ (J1 & J2 & J3 & J4).
  eapply (runs_bind_frame same_structs); [apply (call_global_error_calls _ h _ _ _ _ s); congruence|].
  intros [] s6 evs3 _ _ H3. apply runs_quiet_bind; [solve_quiet|]. intros [] s7 _.
  apply runs_quiet_bind; [solve_quiet|]. intros z s8 _. apply runs_quiet_bind; [solve_quiet|]. intros [] s9 _.
  apply runs_quiet_bind; [solve_quiet|]. intros z2 s10 _. apply runs_ret. split; [done|].
  exists parts. split; [eapply has_parts_same; [|exact Hparts]; congruence|].
  rewrite app_nil_r, !map_app, H1, H2, H3. unfold rollback_trace, rollback_calls.
  by rewrite (slots_calls_same s s2) by congruence.
Qed.

(** The commit calls the plugins from the slot of the commit on. *)
Lemma set_commit_calls handle h split sp ks key init old s :
  st_kdbs s !! handle = Some h -> st_splits s !! split = Some sp ->
  runs any_state (set_commit (Some handle) (Some split) ks key init old) s (fun r evs =>
    r = 1%Z /\ map call_of evs = commit_trace s h ks (sp_parts sp)).
Proof.
  intros Hh Hs. unfold set_commit.
  eapply (runs_quiet_frame same_structs); [solve_quiet|]. intros z s1 _ (E1 & E2 & E3 & E4).
  eapply (runs_quiet_frame same_structs); [solve_quiet|]. intros [] s2 _ (F1 & F2 & F3 & F4).
  eapply (runs_bind_frame same_structs); [apply (call_global_set_calls _ h _ _ _ _ s); congruence|].
  intros [] s3 evs1 _ (G1 & G2 & G3 & G4) H1.
  eapply (runs_bind_frame same_structs); [apply (elektraSetCommit_calls _ sp); congruence|].
  intros [] s4 evs2 _ (I1 & I2 & I3 & I4) H2.
  eapply (runs_quiet_frame same_plugins); [apply quiet_splitUpdateSize|]. intros z1 s5 _ (J1 & J2).
  eapply (runs_quiet_frame same_structs); [solve_quiet|]. intros [] s6 _ (K1 & K2 & K3 & K4).
  eapply (runs_bind_frame same_structs); [apply (call_global_set_calls _ h _ _ _ _ s); congruence|].
  intros [] s7 evs3 _ _ H3. do 5 (apply runs_quiet_bind; [solve_quiet|]; intros ? ? _).
  apply runs_ret. split; [done|]. rewrite app_nil_r, !map_app, H1, H2, H3. unfold commit_trace, commit_calls.
  by rewrite (slots_calls_same s s3) by congruence.
Qed.

(** No update or wrong keys: no plugin is called. *)
Lemma set_nothing_calls split key init old syncstate s :
  runs any_state (set_nothing split key init old syncstate) s (fun r evs =>
    r = (if (syncstate =? 0)%Z then 0 else -1)%Z /\ evs = []).
Proof.
  unfold set_nothing. do 6 (apply runs_quiet_bind; [solve_quiet|]; intros ? ? _). by apply runs_ret.
Qed.

Lemma rollback_trace_same s s1 h ks parts :
  st_plugins s1 = st_plugins s -> st_backends s1 = st_backends s -> rollback_trace s1 h ks parts = rollback_trace s h ks parts.
Proof.
  intros E1 E2. unfold rollback_trace, rollback_calls. by rewrite !(global_calls_same s s1), (slots_calls_same s s1).
Qed.

Lemma commit_trace_same s s1 h ks parts :
  st_plugins s1 = st_plugins s -> st_backends s1 = st_backends s -> commit_trace s1 h ks parts = commit_trace s h ks parts.
Proof.
  intros E1 E2. unfold commit_trace, commit_calls. by rewrite !(global_calls_same s s1), (slots_calls_same s s1).
Qed.

(** Once the parts that need no sync are removed, the plugins before the
    commit run; their results decide about commit and rollback. *)
Lemma set_transaction_calls handle h split sp ks key init old s0 s marked pkey :
  st_kdbs s !! handle = Some h -> st_splits s !! split = Some sp -> same_backends s0 s ->
  set_synced s0 handle h ks pkey 1 marked -> map part_id (sp_parts sp) = map part_id (List.filter synced marked) ->
  runs any_state
    (r <- elektraSetPrepare (Some split) key (kdb_globalPlugins h) None;;
     if (any_error r =? -1)%Z then set_error_path (Some handle) (Some split) ks key init (error_key r) old
     else set_commit (Some handle) (Some split) ks key init old) s (set_trace s0 handle h ks pkey).
Proof.
  intros Hh Hs (E1 & E2 & E3) Hsync Hparts.
  eapply (runs_bind_frame same_structs); [by apply (elektraSetPrepare_calls _ sp)|].
  intros st s1 evs1 _ (F1 & F2 & F3 & F4) (Herr & evss & -> & Hpp).
  assert (Forall2 (part_prepared s0 (kdb_globalPlugins h)) (sp_parts sp) evss) as Hpp0.
  { eapply Forall2_impl; [exact Hpp|]. intros part evs. by apply part_prepared_same. }
  rewrite Herr. destruct (existsb failed (concat evss)) eqn:Hfail; simpl.
  - eapply runs_mono; [apply (set_error_path_calls _ h); congruence|]. intros r evs (-> & parts & Hp & Hc).
    assert (has_parts s1 (Some split) (sp_parts sp)) as Hp' by (exists split, sp; split_and!; congruence).
    rewrite (has_parts_unique _ _ _ _ Hp Hp') in Hc. rewrite (rollback_trace_same s0 s1) in Hc by congruence.
    by eapply set_rolled_back.
  - eapply runs_mono; [apply (set_commit_calls _ h _ sp); congruence|]. intros r evs (-> & Hc).
    rewrite (commit_trace_same s0 s1) in Hc by congruence. by eapply set_committed.
Qed.

(** What [splitBuildup] returned is what it should build. *)
Lemma built_intro handle h key l s1 s2 r :
  splitBuildup (Some l) (Some handle) key s1 = KRet r s2 ->
  st_splits s1 !! l = Some (mkSplit [] APPROXIMATE_NR_OF_BACKENDS) -> built handle h key l s1 s2.
Proof.
  intros Hr Hs. assert (r = 1%Z) as -> by by eapply splitBuildup_ret. split_and!; [done..|].
  intros x where_ mounts ps HR -> Hne Hm Hask.
  destruct (splitBuildup_spec s1 l handle x h where_ mounts ps Hm) as (r & s' & Hrun & _ & Happ); [|by eexists|done|congruence].
  intros Hsplit. destruct (mt_parts _ _ _ _ _ Hm) as (sl & sp & Hsl & Hsp & <-). apply Hne.
  rewrite Hsl in Hsplit. injection Hsplit as ->. rewrite Hs in Hsp. by injection Hsp as <-.
Qed.

(** What [splitDivide] and [splitSync] returned is what they should decide. *)
Lemma decided_intro handle h ks l s2 d s3 y s4 :
  splitDivide (Some l) (Some handle) ks s2 = KRet d s3 -> splitSync (Some l) s3 = KRet y s4 ->
  decided handle h ks l s2 (Z.lor d y) (from_option sp_parts [] (st_splits s4 !! l)).
Proof.
  intros Hd Hy idf name parts alloc ms kl ls zs HR -> Hdv Hread.
  destruct (splitSync_decides_spec idf name s2 l handle h parts alloc ms kl ls Hdv zs Hread) as (r & s' & Hrun & -> & parts' & Hs' & Hlen & Hparts).
  unfold kbind in Hrun. rewrite Hd, Hy in Hrun. injection Hrun as Hrun <-. by rewrite Hs'.
Qed.

(** The parts that are left are those that need sync. *)
Lemma splitPrepare_filter split s s' u :
  splitPrepare split s = KRet u s' ->
  exists l sp', split = Some l /\ st_splits s' !! l = Some sp' /\
    map part_id (sp_parts sp') = map part_id (List.filter synced (from_option sp_parts [] (st_splits s !! l))).
Proof.
  intros Hr. destruct split as [l|]; [|done]. destruct (st_splits s !! l) as [sp|] eqn:Hs.
  - destruct (splitPrepare_parts _ _ _ _ _ Hs Hr) as (sp' & Hs' & Hm). exists l, sp'. by rewrite Hs.
  - unfold splitPrepare, kbind, get_split, deref_in in Hr. by rewrite Hs in Hr.
Qed.

Lemma splitNew_ret split s s' :
  splitNew s = KRet split s' -> exists l, split = Some l /\ st_splits s' !! l = Some (mkSplit [] APPROXIMATE_NR_OF_BACKENDS).
Proof.
  unfold splitNew, kbind, alloc_split, alloc, kret. intros [= <- <-]. eexists. split; [done|]. apply lookup_insert_eq.
Qed.

Lemma kdbSet_body_calls handle h ks key init l old s0 s pkey :
  st_kdbs s0 !! handle = Some h -> same_backends s0 s -> key = pkey ->
  set_start pkey s0 = KRet (Some l) s -> st_splits s !! l = Some (mkSplit [] APPROXIMATE_NR_OF_BACKENDS) ->
  runs any_state (kdbSet_body (Some handle) ks key init (Some l) old) s (set_trace s0 handle h ks pkey).
Proof.
  intros Hh (E1 & E2 & E3) -> Hstart Hnew. unfold kdbSet_body.
  eapply (runs_quiet_frame same_backends); [solve_quiet|]. intros r s1 Hr (F1 & F2 & F3).
  pose proof (built_intro handle h pkey l s s1 r Hr Hnew) as Hbuilt. apply splitBuildup_ret in Hr as ->.
  simpl (1 =? -1)%Z. cbn iota.
  eapply (runs_quiet_frame same_backends); [solve_quiet|]. intros d s2 Hd (G1 & G2 & G3).
  assert (set_divided s0 handle h ks pkey l s1 d s2) as Hdiv by by exists s.
  destruct (Z.eqb_spec d (-1)) as [->|Hd1].
  { apply (splitDivide_fails (Some l) handle h ks s1) in Hd as (_ & _ & _ & Hdef); [|congruence].
    eapply (runs_quiet_frame same_structs); [solve_quiet|]. intros [] s3 _ (I1 & I2 & I3 & I4).
    eapply (runs_quiet_frame same_structs); [solve_quiet|]. intros cur s4 _ (J1 & J2 & J3 & J4).
    eapply (runs_quiet_frame same_structs); [solve_quiet|]. intros n s5 _ (K1 & K2 & K3 & K4).
    eapply (runs_quiet_frame same_structs); [solve_quiet|]. intros [] s6 _ (L1 & L2 & L3 & L4).
    eapply runs_mono; [apply (set_error_path_calls _ h); congruence|]. intros z evs (-> & parts & Hp & Hc).
    rewrite (rollback_trace_same s0 s6) in Hc by congruence. eapply set_not_divided; [by apply Hdef|exact Hdiv| |exact Hc].
    eapply has_parts_same; [|exact Hp]. congruence. }
  eapply (runs_quiet_frame same_backends); [solve_quiet|]. intros y s3 Hy (I1 & I2 & I3).
  assert (set_synced s0 handle h ks pkey (Z.lor d y) (from_option sp_parts [] (st_splits s3 !! l))) as Hsync.
  { destruct Hdiv as (s' & Hs' & Hb' & Hd'). exists l, s1, d, s2, y, s3. split_and!; [by exists s'|done..|].
    by eapply decided_intro. }
  destruct (Z.eqb_spec (Z.lor d y) 1) as [Eneed|Eneed]; cbn [negb].
  2:{ eapply runs_mono; [apply set_nothing_calls|]. intros z evs [-> ->]. destruct (Z.eqb_spec (Z.lor d y) 0) as [E0|E0].
      - rewrite E0 in Hsync. by eapply set_unneeded.
      - by eapply set_not_synced. }
  rewrite Eneed in Hsync. eapply (runs_quiet_frame same_backends); [solve_quiet|]. intros [] s4 Hprep (J1 & J2 & J3).
  destruct (splitPrepare_filter _ _ _ _ Hprep) as (l' & sp & [= <-] & Hs & Hparts).
  eapply (runs_quiet_frame same_structs); [solve_quiet|]. intros [] s5 _ (K1 & K2 & K3 & K4).
  apply runs_deref_in. intros l' h' [= <-] Hh'. assert (h' = h) as -> by congruence.
  eapply (set_transaction_calls _ _ _ sp); [congruence|congruence| |done|done]. split_and!; congruence.
Qed.

Lemma kdbSet_calls handle h ks key s :
  st_kdbs s !! handle = Some h -> runs any_state (kdbSet (Some handle) ks key) s (set_trace s handle h ks key).
Proof.
  intros Hh. unfold kdbSet.
  destruct (lift (keyGetNamespace key) s) as [ns s1| |] eqn:Hns; [|intros r s' Hr; unfold kbind in Hr; by rewrite Hns in Hr..].
  assert (exists hp, keyGetNamespace key (st_heap s) = Ret ns hp) as [hp Hhp].
  { unfold lift in Hns. destruct (keyGetNamespace key (st_heap s)) as [ns' hp| |]; [|done..]. injection Hns as -> _. by exists hp. }
  eapply (runs_quiet_frame same_structs); [solve_quiet|]. intros ns' s1' Hns' (E1 & E2 & E3 & E4).
  rewrite Hns in Hns'. injection Hns' as <- <-.
  destruct (decide (ns = KEY_NS_NONE)) as [->|Hn1].
  { apply runs_ret. apply set_refused. right. eauto. }
  eapply (runs_quiet_frame same_structs); [unfold save_error; solve_quiet|]. intros old s2 Hold (F1 & F2 & F3 & F4).
  destruct (decide (ns = KEY_NS_META)) as [->|Hn2].
  { do 4 (apply runs_quiet_bind; [solve_quiet|]; intros ? ? _). apply runs_ret. apply set_refused. right. eauto. }
  eapply (runs_quiet_frame same_structs); [solve_quiet|]. intros [] s3 Hwarn (G1 & G2 & G3 & G4).
  destruct ks as [ks|].
  2:{ do 3 (apply runs_quiet_bind; [solve_quiet|]; intros ? ? _). apply runs_ret. apply set_refused. by left. }
  eapply (runs_quiet_frame same_backends); [solve_quiet|]. intros init s4 Hdup (I1 & I2 & I3).
  eapply (runs_quiet_frame same_backends); [solve_quiet|]. intros split s5 Hnew (J1 & J2 & J3).
  assert (exists l, split = Some l /\ st_splits s5 !! l = Some (mkSplit [] APPROXIMATE_NR_OF_BACKENDS)) as (l & -> & Hl).
  { by eapply splitNew_ret. }
  apply kdbSet_body_calls; [done|split_and!; congruence|done| |done].
  unfold set_start, kbind. by rewrite Hns, Hold, Hwarn, Hdup.
Qed.

End SetTrace.
