(* ===== verification/GetFacts.v ===== *)
(** * GetFacts: updating a keyset with kdbGet

    Which plugins [kdbGet] calls: after the global plugin [PREGETSTORAGE] the resolvers of
    all parts the parent key asks for, then the plugins of those parts only whose resolver
    reported a change.  [yields]
    also speaks about the state a computation returns in. *)
From S2P Require Export Transaction.
#[local] Open Scope kdb_scope.

Section Yields.
Context {MD : Modules}.

(** When [m], run on [s], returns, its result, the events it appended and the
    state it returns in satisfy [T]. *)
Definition yields {A} (m : KM A) (s : kstate) (T : A -> list event -> kstate -> Prop) : Prop :=
  forall a s', m s = KRet a s' -> exists evs, st_trace s' = st_trace s ++ evs /\ T a evs s'.

Lemma yields_mono {A} (m : KM A) s (T T' : A -> list event -> kstate -> Prop) :
  yields m s T -> (forall a evs s', T a evs s' -> T' a evs s') -> yields m s T'.
Proof. intros H HT a s' E. apply H in E as (evs & Ht & HTa). eauto. Qed.

Lemma yields_ret {A} (a : A) s (T : A -> list event -> kstate -> Prop) : T a [] s -> yields (kret a) s T.
Proof. intros HT a' s' [= <- <-]. exists []. by rewrite app_nil_r. Qed.

Lemma yields_bind {A B} (m : KM A) (f : A -> KM B) s (T1 : A -> list event -> kstate -> Prop) (T : B -> list event -> kstate -> Prop) :
  yields m s T1 ->
  (forall a s1 evs1, T1 a evs1 s1 -> yields (f a) s1 (fun b evs2 s2 => T b (evs1 ++ evs2) s2)) ->
  yields (kbind m f) s T.
Proof.
  intros H1 H2 b s' E. unfold kbind in E. destruct (m s) as [a s1| |] eqn:Em; [|done..].
  destruct (H1 a s1 Em) as (evs1 & Ht1 & HT1). destruct (H2 a s1 evs1 HT1 b s' E) as (evs2 & Ht2 & HT2).
  exists (evs1 ++ evs2). split; [by rewrite Ht2, Ht1, app_assoc|done].
Qed.

Lemma yields_runs {A} F (m : KM A) s (T : A -> list event -> Prop) :
  runs F m s T -> yields m s (fun a evs s' => F s s' /\ T a evs).
Proof. intros H a s' E. apply H in E as (HF & evs & Ht & HTa). eauto. Qed.

Lemma runs_yields {A} F (m : KM A) s (T : A -> list event -> Prop) :
  yields m s (fun a evs s' => F s s' /\ T a evs) -> runs F m s T.
Proof. intros H a s' E. apply H in E as (evs & Ht & HF & HTa). eauto. Qed.

Lemma yields_and {A} F (m : KM A) s (T : A -> list event -> kstate -> Prop) (T' : A -> list event -> Prop) :
  yields m s T -> runs F m s T' -> yields m s (fun a evs s' => T a evs s' /\ T' a evs).
Proof.
  intros H H' a s' E. destruct (H a s' E) as (evs & Ht & HT). destruct (H' a s' E) as (_ & evs' & Ht' & HT').
  exists evs. assert (evs' = evs) as -> by (rewrite Ht in Ht'; by apply app_inv_head in Ht'). done.
Qed.

Lemma yields_quiet_bind {A B} F (m : KM A) (f : A -> KM B) s (T : B -> list event -> kstate -> Prop) :
  quiet F m -> (forall a s1, F s s1 -> yields (f a) s1 T) -> yields (kbind m f) s T.
Proof.
  intros H1 H2. eapply yields_bind; [apply (yields_runs F), H1|]. intros a s1 evs1 [HF ->]. by apply H2.
Qed.

Lemma yields_quiet {A} F (m : KM A) s (T : A -> list event -> kstate -> Prop) :
  quiet F m -> (forall a s', F s s' -> T a [] s') -> yields m s T.
Proof. intros H HT. eapply yields_mono; [apply (yields_runs F), H|]. intros a evs s' [HF ->]. by apply HT. Qed.

(** An invariant of a fold. *)
Lemma yields_kfold {A S B} (l : list A) (f : S -> A -> KM (S + B)) s st
    (I : list A -> S -> list event -> kstate -> Prop) (T : (S + B) -> list event -> kstate -> Prop) evs0 :
  I l st evs0 s ->
  (forall x r st evs s1, I (x :: r) st evs s1 ->
     yields (f st x) s1 (fun t evs' s2 => match t with inl st' => I r st' (evs ++ evs') s2 | inr b => T (inr b) (evs ++ evs') s2 end)) ->
  (forall st evs s1, I [] st evs s1 -> T (inl st) evs s1) ->
  yields (kfold l f st) s (fun t evs s' => T t (evs0 ++ evs) s').
Proof.
  revert s st evs0. induction l as [|x l IH]; intros s st evs0 H0 Hf HT.
  { apply yields_ret. rewrite app_nil_r. by apply HT. }
  eapply yields_bind; [apply Hf; exact H0|]. intros [st'|b] s1 evs1 H1; cbn beta iota in *.
  - eapply yields_mono; [apply (IH s1 st' (evs0 ++ evs1) H1 Hf HT)|]. intros t evs2 s2 HTt. by rewrite app_assoc.
  - apply yields_ret. by rewrite app_nil_r.
Qed.

Lemma yields_deref_in {V A} (m : kstate -> gmap loc V) p (f : V -> KM A) s T :
  (forall l v, p = Some l -> m s !! l = Some v -> yields (f v) s T) -> yields (kbind (deref_in m p) f) s T.
Proof.
  intros H a s' E'. unfold kbind, deref_in in E'. destruct p as [l|]; [|done].
  destruct (m s !! l) as [v|] eqn:Ev; [|done]. by apply (H l v).
Qed.

Lemma yields_split_part {A} split i (f : Part -> KM A) s T :
  (forall l sp p, split = Some l -> st_splits s !! l = Some sp -> sp_parts sp !! i = Some p -> yields (f p) s T) ->
  yields (kbind (split_part split i) f) s T.
Proof.
  intros H a s' E'. unfold kbind, split_part, kbind, get_split, deref_in in E'. destruct split as [l|]; [|done].
  destruct (st_splits s !! l) as [sp|] eqn:Es; [|done]. destruct (sp_parts sp !! i) as [p|] eqn:Ep; [|done].
  by apply (H l sp p).
Qed.

Lemma yields_slot {A} b w i (f : ptr -> KM A) s T :
  (forall p, b_slots b w !! i = Some p -> yields (f p) s T) -> yields (kbind (slot b w i) f) s T.
Proof. intros H a s' E'. unfold kbind, slot in E'. destruct (b_slots b w !! i) as [p|]; [|done]. by apply (H p). Qed.

Lemma yields_has_fn {A} fn p (f : bool -> KM A) s T :
  yields (f (bool_decide (is_Some (fn_of s fn p)))) s T -> yields (kbind (has_fn fn p) f) s T.
Proof.
  intros H a s' E'. unfold has_fn, get_plugin, deref_in, fn_of, kbind in *. destruct p as [l|]; simpl in *; [|by apply H].
  destruct (st_plugins s !! l) as [pl|]; simpl in *; [|done]. destruct (fn pl); simpl in *; by apply H.
Qed.

(** The part [i] of the split at [l] is [p] from now on. *)
Lemma yields_put_part {A} l i p sp (f : unit -> KM A) s T :
  st_splits s !! l = Some sp ->
  yields (f tt) (set_splits s (<[l := mkSplit (<[i := p]> (sp_parts sp)) (sp_alloc sp)]> (st_splits s))) T ->
  yields (kbind (put_part (Some l) i p) f) s T.
Proof.
  intros Hs H a s' E'. unfold kbind, put_part, kbind, get_split, deref_in in E'. rewrite Hs in E'.
  destruct (i <? sp_size sp); [|done]. unfold put_split, store in E'. rewrite Hs in E'. by apply H.
Qed.
End Yields.

Section Check.
Context {E : Env} {MD : Modules}.

(** Plugins, handles, the slots of backends and the splits stay. *)
Definition backend_slots (b : Backend) : list ptr * list ptr * list ptr := (b_setplugins b, b_getplugins b, b_errorplugins b).

Definition same_slots (s s' : kstate) : Prop :=
  st_plugins s' = st_plugins s /\ st_kdbs s' = st_kdbs s /\
  fmap (M := gmap loc) backend_slots (st_backends s') = fmap (M := gmap loc) backend_slots (st_backends s).

Definition only_sizes (s s' : kstate) : Prop := same_slots s s' /\ st_splits s' = st_splits s.

#[global] Instance same_slots_preorder : PreOrder same_slots.
Proof. unfold same_slots. split; [done|]. intros s1 s2 s3 (?&?&?) (?&?&?). split_and!; congruence. Qed.

#[global] Instance only_sizes_frame : Frame only_sizes.
Proof.
  unfold only_sizes. split; [|done]. split; [by split|]. intros s1 s2 s3 [H1 H2] [H3 H4]. split; [by etrans|congruence].
Qed.

Lemma same_structs_slots s s' : same_structs s s' -> same_slots s s'.
Proof. intros (H1 & H2 & H3 & H4). unfold same_slots. by rewrite H1, H2, H4. Qed.

Lemma same_structs_only_sizes s s' : same_structs s s' -> only_sizes s s'.
Proof. intros H. split; [by apply same_structs_slots|]. by destruct H as (?&?&?&?). Qed.

Lemma slot_call_slots s s1 w fn mk p part : same_slots s s1 -> slot_call s1 w fn mk p part = slot_call s w fn mk p part.
Proof.
  intros (E1 & E2 & E3). unfold slot_call, fn_of. destruct (part_handle part) as [h|]; [|done]. simpl.
  apply (f_equal (fun m => m !! h)) in E3. rewrite !lookup_fmap in E3. rewrite E1.
  destruct (st_backends s1 !! h) as [b1|], (st_backends s !! h) as [b|]; try done. simpl in *. injection E3 as ? ? ?.
  assert (b_slots b1 w = b_slots b w) as -> by (destruct w; simpl; congruence). done.
Qed.

Lemma global_calls_slots s s1 fn hooks g ks : same_slots s s1 -> global_calls s1 fn hooks g ks = global_calls s fn hooks g ks.
Proof. intros (E1 & _). by apply global_calls_same. Qed.

(** Only the sizes of backends change. *)
Lemma runs_put_sizes l v v' s :
  st_backends s !! l = Some v -> backend_slots v' = backend_slots v ->
  runs only_sizes (put_backend (Some l) v') s (fun _ evs => evs = []).
Proof.
  intros Hv Hs u s' Hr. unfold put_backend, store in Hr. rewrite Hv in Hr. injection Hr as _ <-.
  split; [|exists []; by rewrite app_nil_r]. split; [|done]. split_and!; [done..|]. simpl. rewrite fmap_insert.
  apply map_eq. intros k. destruct (decide (k = l)) as [->|Hk]; [|by rewrite lookup_insert_ne].
  by rewrite lookup_insert_eq, lookup_fmap, Hv, Hs.
Qed.

Lemma quiet_backendUpdateSize b key n : quiet only_sizes (backendUpdateSize b key n).
Proof.
  intros s. unfold backendUpdateSize. apply runs_quiet_bind; [solve_quiet|]. intros ns s1 _.
  destruct ns; try by apply runs_ret.
  all: apply runs_deref_in; intros l v -> Hv; eapply runs_bind; [by apply (runs_put_sizes l v)|].
  all: intros u s2 evs _ ->; by apply runs_ret.
Qed.

(** *** The resolvers *)

Definition resolver_call (s : kstate) (part : Part) : list (place * loc * ptr) :=
  slot_call s getplugins p_kdbGet GetSlot RESOLVER_PLUGIN part.

(** The resolver of [part] reported whether an update is needed, and [part']
    remembers it. *)
Definition checked (s : kstate) (part part' : Part) (evs : list event) : Prop :=
  exists e, evs = [e] /\ resolver_call s part = [call_of e] /\
    (ev_ret e = 0%Z /\ part' = with_syncbits part (clear_bit (part_syncbits part) SPLIT_FLAG_SYNC) \/
     ev_ret e = 1%Z /\ part' = with_syncbits part (set_bit (clear_bit (part_syncbits part) SPLIT_FLAG_SYNC) SPLIT_FLAG_SYNC)).

(** There is no resolver, or it reported an error. *)
Definition check_failed (s : kstate) (part : Part) (evs : list event) : Prop :=
  resolver_call s part = map call_of evs /\ (evs = [] \/ exists e, evs = [e] /\ ev_ret e <> 0%Z /\ ev_ret e <> 1%Z).

Definition changed (e : event) : bool := (ev_ret e =? 1)%Z.

Lemma check_update_yields l key n i sp part s s0 :
  st_splits s !! l = Some sp -> sp_parts sp !! i = Some part -> same_slots s0 s ->
  yields (check_update (Some l) key n i) s (fun t evs s' => same_slots s0 s' /\
    exists part', st_splits s' !! l = Some (mkSplit (<[i := part']> (sp_parts sp)) (sp_alloc sp)) /\
    match t with
    | inl n' => checked s0 part part' evs /\ n' = (n + Z.of_nat (length (List.filter changed evs)))%Z
    | inr r => r = (-1)%Z /\ check_failed s0 part evs
    end).
Proof.
  intros Hs Hp Hslots. unfold check_update. apply yields_split_part. intros ? ? ? [= <-] ? ?. simplify_eq.
  apply (yields_put_part _ _ _ sp); [done|].
  set (part1 := with_syncbits part _). set (s1 := set_splits s _).
  assert (same_slots s0 s1) as H1 by exact Hslots.
  apply yields_deref_in. intros h b Hh Hb. apply yields_slot. intros q Hq. apply yields_has_fn.
  assert (resolver_call s0 part = match fn_of s1 p_kdbGet q with Some (l, _) => [(GetSlot RESOLVER_PLUGIN, l, part_keyset part)] | None => [] end) as Hres.
  { unfold resolver_call. rewrite <- (slot_call_slots s0 s1) by done. by apply (slot_call_lookup _ _ _ _ _ _ h b q). }
  eapply (yields_bind _ _ _ (fun ret evs s2 => only_sizes s1 s2 /\ resolver_call s0 part = map call_of evs /\
    ((evs = [] /\ ret = (-1)%Z) \/ exists e, evs = [e] /\ ev_ret e = ret))).
  { case_bool_decide as Hfn.
    - eapply (yields_quiet_bind same_structs); [solve_quiet|]. intros z2 s2 F2.
      eapply (yields_quiet_bind same_structs); [solve_quiet|]. intros [] s3 F3.
      eapply (yields_quiet_bind same_structs); [solve_quiet|]. intros [] s4 F4.
      eapply yields_bind; [apply (yields_runs same_structs), (runs_call_get _ _ _ _ _ s1)|].
      { destruct F2 as (<- & _), F3 as (<- & _), F4 as (<- & _). done. }
      intros ret s5 evs [F5 Hc]. unfold called in Hc. destruct (fn_of s1 p_kdbGet q) as [[l' f]|]; [|done]. subst evs.
      eapply (yields_quiet_bind same_structs); [solve_quiet|]. intros [] s6 F6.
      eapply (yields_quiet_bind only_sizes); [apply quiet_backendUpdateSize|]. intros z7 s7 F7. apply yields_ret.
      split; [|split; [done|right; by eexists]].
      etrans; [|exact F7]. apply same_structs_only_sizes. by do 4 (etrans; [eassumption|]).
    - apply yields_ret. split; [reflexivity|]. split; [|by left]. rewrite Hres.
      destruct (fn_of s1 p_kdbGet q); [exfalso; apply Hfn; eauto|done]. }
  intros ret s2 evs ([H2 E2] & Hc & Hret).
  assert (st_splits s2 !! l = Some (mkSplit (<[i := part1]> (sp_parts sp)) (sp_alloc sp))) as Hs2.
  { rewrite E2. apply lookup_insert_eq. }
  assert (same_slots s0 s2) as H02 by (by etrans).
  destruct (Z.eqb_spec ret 1) as [->|Hr1]; [|destruct (Z.eqb_spec ret 0) as [->|Hr0]].
  - apply yields_split_part. intros ? sp2 p2 [= <-] Hs2' Hp2. simplify_eq. simpl in Hp2.
    rewrite list_lookup_insert_eq in Hp2 by (by apply lookup_lt_Some in Hp). injection Hp2 as <-.
    eapply yields_put_part; [exact Hs2|]. apply yields_ret. rewrite app_nil_r. split; [exact H02|].
    exists (with_syncbits part1 (set_bit (part_syncbits part1) SPLIT_FLAG_SYNC)). simpl. rewrite lookup_insert_eq, list_insert_insert_eq.
    split; [done|]. destruct Hret as [[_ ?]|(e & -> & He)]; [done|]. simpl. split.
    + exists e. split_and!; [done|by rewrite Hc|]. by right.
    + unfold changed. rewrite He. done.
  - apply yields_ret. rewrite app_nil_r. split; [done|]. exists part1. split; [done|].
    destruct Hret as [[_ ?]|(e & -> & He)]; [done|]. simpl. split.
    + exists e. split_and!; [done|by rewrite Hc|]. by left.
    + unfold changed. rewrite He. simpl. lia.
  - apply yields_ret. rewrite app_nil_r. split; [done|]. exists part1. split; [done|]. split; [done|]. split; [done|].
    destruct Hret as [[-> _]|(e & -> & He)]; [by left|]. right. exists e. subst ret. done.
Qed.

(** [elektraGetCheckUpdateNeeded] asks the resolvers of the parts in their
    order, until one of them fails, and counts those that need an update. *)
Definition all_checked (s : kstate) (parts parts' : list Part) (evs : list event) : Prop :=
  exists evss, evs = concat evss /\ Forall3 (checked s) parts parts' evss.

Lemma all_checked_snoc s parts parts' evs part part' evs' :
  all_checked s parts parts' evs -> checked s part part' evs' -> all_checked s (parts ++ [part]) (parts' ++ [part']) (evs ++ evs').
Proof.
  intros (evss & -> & H) Hc. exists (evss ++ [evs']). split; [by rewrite concat_app; simpl; rewrite app_nil_r|].
  apply Forall3_app; [done|]. by repeat constructor.
Qed.

Lemma checkUpdateNeeded_yields l key sp s :
  st_splits s !! l = Some sp ->
  yields (elektraGetCheckUpdateNeeded (Some l) key) s (fun r evs s' => same_slots s s' /\
    (r = Z.of_nat (length (List.filter changed evs)) /\
       (exists sp', st_splits s' !! l = Some sp' /\ all_checked s (sp_parts sp) (sp_parts sp') evs) \/
     r = (-1)%Z /\ exists i part parts' evs1 evs2, sp_parts sp !! i = Some part /\ evs = evs1 ++ evs2 /\
       all_checked s (take i (sp_parts sp)) parts' evs1 /\ check_failed s part evs2)).
Proof.
  intros Hs. unfold elektraGetCheckUpdateNeeded. apply yields_deref_in. intros ? ? [= <-] ?. simplify_eq.
  eapply yields_bind.
  - apply (yields_kfold _ _ s 0%Z
      (fun r n evs s1 => same_slots s s1 /\ n = Z.of_nat (length (List.filter changed evs)) /\
         exists i parts', r = seq i (sp_size sp - i) /\ i <= sp_size sp /\ length parts' = i /\
           st_splits s1 !! l = Some (mkSplit (parts' ++ drop i (sp_parts sp)) (sp_alloc sp)) /\
           all_checked s (take i (sp_parts sp)) parts' evs)
      (fun t evs s' => same_slots s s' /\ match t with
         | inl n => n = Z.of_nat (length (List.filter changed evs)) /\
             exists sp', st_splits s' !! l = Some sp' /\ all_checked s (sp_parts sp) (sp_parts sp') evs
         | inr r => r = (-1)%Z /\ exists i part parts' evs1 evs2, sp_parts sp !! i = Some part /\ evs = evs1 ++ evs2 /\
             all_checked s (take i (sp_parts sp)) parts' evs1 /\ check_failed s part evs2
         end) []).
    + split; [reflexivity|]. split; [done|]. exists 0, []. rewrite Nat.sub_0_r. split_and!; [done|lia|done| |].
      * simpl. rewrite Hs. by destruct sp.
      * exists []. split; [done|constructor].
    + intros i r n evs s1 (H1 & -> & j & parts' & Hl & Hj & Hlen & Hs1 & Hall).
      destruct (sp_size sp - j) as [|m] eqn:Em; [done|]. simpl in Hl. injection Hl as -> ->.
      destruct (lookup_lt_is_Some_2 (sp_parts sp) j) as [part Hp]; [unfold sp_size in Em; lia|].
      eapply yields_mono; [apply (check_update_yields l key _ j _ part s1 s Hs1)|].
      * simpl. rewrite lookup_app_r by lia. by rewrite Hlen, Nat.sub_diag, lookup_drop, Nat.add_0_r.
      * done.
      * intros [n'|r'] evs' s2 (H2 & part' & Hs2 & Ht); simpl in Hs2.
        -- destruct Ht as [Hc ->]. split; [done|]. rewrite List.filter_app, length_app. split; [lia|].
           exists (S j), (parts' ++ [part']). split_and!; [f_equal; lia|lia|rewrite length_app; simpl; lia| |].
           ++ rewrite Hs2. f_equal. f_equal. rewrite (drop_S _ _ _ Hp).
              rewrite insert_app_r_alt by lia. rewrite Hlen, Nat.sub_diag. simpl. by rewrite <- app_assoc.
           ++ rewrite (take_S_r _ _ part) by done. by apply all_checked_snoc.
        -- destruct Ht as [-> Hf]. split; [done|]. split; [done|]. by exists j, part, parts', evs, evs'.
    + intros n evs s1 (H1 & -> & i & parts' & Hl & Hi & Hlen & Hs1 & Hall). split; [done|]. split; [done|].
      destruct (sp_size sp - i) as [|m] eqn:Em; [|done]. eexists. split; [exact Hs1|]. simpl.
      rewrite drop_ge, app_nil_r by (unfold sp_size in *; lia). rewrite take_ge in Hall by (unfold sp_size in *; lia). done.
  - intros [n|r] s1 evs (H1 & H2); apply yields_ret; rewrite app_nil_r; (split; [done|]).
    + left. destruct H2 as [-> H2]. by split.
    + by right.
Qed.
End Check.

(** ** Updating the changed parts *)

Section Update.
Context {E : Env} {MD : Modules}.

(** A plugin of a backend reported an error. *)
Definition get_failed (e : event) : bool :=
  match ev_place e with GetSlot _ => (ev_ret e =? -1)%Z | _ => false end.

(** A loop over [l] that does the calls [g x] for every [x] and stops with -1
    when a plugin fails; [proj] is what of the events is described. *)
Lemma runs_kfold_calls {A S X} (F : kstate -> kstate -> Prop) {HF : Frame F} (proj : list event -> list X) (g : A -> list X)
    (l : list A) (f : S -> A -> KM (S + Z)) (st : S) s :
  (forall a b, proj (a ++ b) = proj a ++ proj b) -> proj [] = [] ->
  (forall x st s1, x ∈ l -> F s s1 -> runs F (f st x) s1 (fun t evs => match t with
     | inl _ => proj evs = g x /\ existsb get_failed evs = false
     | inr r => r = (-1)%Z /\ proj evs `prefix_of` g x /\ existsb get_failed evs = true
     end)) ->
  runs F (kfold l f st) s (fun t evs => match t with
     | inl _ => proj evs = flat_map g l /\ existsb get_failed evs = false
     | inr r => r = (-1)%Z /\ proj evs `prefix_of` flat_map g l /\ existsb get_failed evs = true
     end).
Proof.
  intros Happ Hnil Hf.
  apply (runs_kfold _ _ s st
    (fun r _ evs => exists don, l = don ++ r /\ proj evs = flat_map g don /\ existsb get_failed evs = false)
    (fun t evs => match t with
     | inl _ => proj evs = flat_map g l /\ existsb get_failed evs = false
     | inr r => r = (-1)%Z /\ proj evs `prefix_of` flat_map g l /\ existsb get_failed evs = true
     end) []).
  - by exists [].
  - intros x r st1 evs s1 HF1 (don & Hl & Hp & Hnf). eapply runs_mono; [apply Hf; [|done]|].
    + rewrite Hl. set_solver.
    + intros [st2|z] evs'.
      * intros [Hp' Hnf']. exists (don ++ [x]). rewrite <- app_assoc, Happ, Hp, Hp', flat_map_app, existsb_app, Hnf, Hnf'.
        split_and!; [done| |done]. simpl. by rewrite app_nil_r.
      * intros (-> & Hp' & Hf'). split; [done|]. rewrite Happ, Hp, existsb_app, Hf', orb_true_r, Hl, flat_map_app.
        split; [|done]. apply prefix_app. simpl. by apply prefix_app_r.
  - intros st1 evs (don & Hl & Hp & Hnf). rewrite app_nil_r in Hl. by subst don.
Qed.

(** The plugins in the slots [ps] of the backend of a part that changed. *)
Definition part_changed (part : Part) : bool := test_bit (part_syncbits part) SPLIT_FLAG_SYNC.

Definition get_calls (s : kstate) (ps : list nat) (part : Part) : list (place * loc * ptr) :=
  if part_changed part then flat_map (fun p => slot_call s getplugins p_kdbGet GetSlot p part) ps else [].

(** The plugin of a slot that is called to get a part, in one or two passes. *)
Lemma call_slot_calls F {HF : Frame F} part key p s s0 (f : Z -> KM (unit + Z)) :
  st_plugins s = st_plugins s0 -> st_backends s = st_backends s0 ->
  (forall r, f r = kret (if (r =? -1)%Z then inr (-1)%Z else inl tt)) ->
  runs F
    (b <- get_backend (part_handle part);;
     plugin <- slot b getplugins p;;
     has <- has_fn p_kdbGet plugin;;
     ret <- (if has : bool then call_get (GetSlot p) plugin (part_keyset part) key else kret 0%Z);;
     f ret) s (fun t evs =>
    map call_of evs = slot_call s0 getplugins p_kdbGet GetSlot p part /\
    match t with inl _ => existsb get_failed evs = false | inr r => r = (-1)%Z /\ existsb get_failed evs = true end).
Proof.
  intros Ep Eb Hf. apply runs_deref_in. intros h b Hh Hb. apply runs_slot. intros q Hq. apply runs_has_fn.
  assert (st_backends s0 !! h = Some b) as Hb0 by (by rewrite <- Eb).
  rewrite (slot_call_lookup s0 _ _ _ _ _ h b q) by done.
  assert (fn_of s p_kdbGet q = fn_of s0 p_kdbGet q) as -> by (unfold fn_of; by rewrite Ep).
  eapply (runs_bind _ _ _ (fun ret evs => existsb get_failed evs = (ret =? -1)%Z /\
    map call_of evs = match fn_of s0 p_kdbGet q with Some (l, _) => [(GetSlot p, l, part_keyset part)] | None => [] end)).
  - case_bool_decide as Hfn.
    + eapply runs_mono; [by apply (runs_call_get _ _ _ _ _ s0)|]. intros ret evs Hc. unfold called in Hc.
      destruct (fn_of s0 p_kdbGet q) as [[l f']|]; [|done]. subst evs. simpl. by rewrite orb_false_r.
    + apply runs_ret. destruct (fn_of s0 p_kdbGet q); [exfalso; apply Hfn; eauto|done].
  - intros ret s1 evs _ [H1 H2]. rewrite Hf. destruct (Z.eqb_spec ret (-1)) as [->|Hne]; apply runs_ret; rewrite app_nil_r; by rewrite H1.
Qed.

Lemma do_update_calls l sp key i part u s s0 :
  st_splits s !! l = Some sp -> sp_parts sp !! i = Some part -> st_plugins s = st_plugins s0 -> st_backends s = st_backends s0 ->
  runs same_structs (do_update (Some l) key u i) s (fun t evs => match t with
    | inl _ => map call_of evs = get_calls s0 (seq 1 (NR_OF_PLUGINS - 1)) part /\ existsb get_failed evs = false
    | inr r => r = (-1)%Z /\ map call_of evs `prefix_of` get_calls s0 (seq 1 (NR_OF_PLUGINS - 1)) part /\ existsb get_failed evs = true
    end).
Proof.
  intros Hs Hp Ep Eb. unfold do_update. apply runs_split_part. intros ? ? ? [= <-] ? ?. simplify_eq. unfold get_calls.
  fold (part_changed part). destruct (part_changed part); simpl negb; cbn iota; [|by apply runs_ret].
  apply runs_quiet_bind; [solve_quiet|]. intros z s1 (E1 & E2 & _).
  apply runs_quiet_bind; [solve_quiet|]. intros [] s2 (F1 & F2 & _).
  apply runs_quiet_bind; [solve_quiet|]. intros [] s3 (G1 & G2 & _).
  apply (runs_kfold_calls same_structs (map call_of) (fun p => slot_call s0 getplugins p_kdbGet GetSlot p part)); [apply map_app|done|].
  intros p [] s4 _ (I1 & I2 & _). unfold update_slot. eapply runs_mono.
  - apply (call_slot_calls same_structs part key p s4 s0); [congruence|congruence|done].
  - intros [[]|r] evs [H1 H2]; [done|]. destruct H2 as [-> H2]. by rewrite H1.
Qed.

(** Calls by the index of a part. *)
Definition at_index {X} (g : Part -> list X) (sp : Split) (i : nat) : list X :=
  match sp_parts sp !! i with Some part => g part | None => [] end.

Lemma flat_map_at_index {X} (g : Part -> list X) sp n :
  n <= sp_size sp -> flat_map (at_index g sp) (seq 0 n) = flat_map g (take n (sp_parts sp)).
Proof.
  induction n as [|n IH]; intros Hn; [done|]. unfold sp_size in *.
  destruct (lookup_lt_is_Some_2 (sp_parts sp) n) as [x Hx]; [lia|]. rewrite seq_S, (take_S_r _ _ x) by done.
  rewrite !flat_map_app, IH by lia. simpl. unfold at_index at 1. by rewrite Hx.
Qed.

(** The parts [elektraGetDoUpdate] gets: all but the bypass. *)
Definition but_last (parts : list Part) : list Part := take (length parts - 1) parts.

Definition update_calls (s : kstate) (parts : list Part) : list (place * loc * ptr) :=
  flat_map (get_calls s (seq 1 (NR_OF_PLUGINS - 1))) (but_last parts).

Lemma doUpdate_calls l sp key s :
  st_splits s !! l = Some sp ->
  runs same_structs (elektraGetDoUpdate (Some l) key) s (fun r evs =>
    r = 0%Z /\ map call_of evs = update_calls s (sp_parts sp) /\ existsb get_failed evs = false \/
    r = (-1)%Z /\ map call_of evs `prefix_of` update_calls s (sp_parts sp) /\ existsb get_failed evs = true).
Proof.
  intros Hs. unfold elektraGetDoUpdate. apply runs_deref_in. intros ? ? [= <-] ?. simplify_eq.
  unfold update_calls, but_last. fold (sp_size sp).
  rewrite <- flat_map_at_index by lia. eapply runs_bind.
  - apply (runs_kfold_calls same_structs (map call_of) (at_index (get_calls s (seq 1 (NR_OF_PLUGINS - 1))) sp)); [apply map_app|done|].
    intros i [] s1 Hi (E1 & E2 & E3 & E4). apply elem_of_seq in Hi. unfold at_index.
    destruct (lookup_lt_is_Some_2 (sp_parts sp) i) as [part Hp]; [unfold sp_size in Hi; lia|]. rewrite Hp.
    apply (do_update_calls l sp); congruence.
  - intros [[]|r] s1 evs _ H; apply runs_ret; rewrite app_nil_r.
    + left. by destruct H.
    + right. by destruct H as (-> & H1 & H2).
Qed.

(** *** With global plugins *)

(** The plugins of backends among the calls, and their slots. *)
Definition slots_of (evs : list event) : list (nat * loc) :=
  flat_map (fun e => match ev_place e with GetSlot p => [(p, ev_plugin e)] | _ => [] end) evs.

Definition slot_plugin (s : kstate) (part : Part) (p : nat) : list (nat * loc) :=
  map (fun '(_, l, _) => (p, l)) (slot_call s getplugins p_kdbGet GetSlot p part).

Definition pass_plugins (s : kstate) (run : UpdatePass) (part : Part) : list (nat * loc) :=
  if part_changed part then flat_map (slot_plugin s part) (pass_slots run) else [].

Definition pass_calls (s : kstate) (run : UpdatePass) (parts : list Part) : list (nat * loc) :=
  flat_map (pass_plugins s run) (but_last parts).

Lemma slots_of_app a b : slots_of (a ++ b) = slots_of a ++ slots_of b.
Proof. apply flat_map_app. Qed.

Lemma slots_of_call s part p evs :
  map call_of evs = slot_call s getplugins p_kdbGet GetSlot p part -> slots_of evs = slot_plugin s part p.
Proof.
  unfold slot_plugin, slot_call. destruct (_ ≫= _) as [[l f]|]; simpl.
  - destruct evs as [|e [|? ?]]; try done. intros [= Hp Hl Hk]. unfold slots_of. simpl. by rewrite Hp, Hl.
  - by destruct evs.
Qed.

(** A global plugin is no plugin of a backend. *)
Definition global_only (evs : list event) : Prop := slots_of evs = [] /\ existsb get_failed evs = false.

Lemma get_hook_calls handle g ks key init parent s :
  runs same_structs (get_hook handle g ks key init parent) s (fun _ evs => global_only evs).
Proof.
  unfold get_hook. apply runs_deref_in. intros l h -> Hh. destruct (kdb_globalPlugins h g) as [q|]; [|by apply runs_ret].
  apply runs_quiet_bind; [solve_quiet|]. intros [] s1 _. apply runs_quiet_bind; [solve_quiet|]. intros z s2 _.
  eapply runs_bind; [by apply (runs_call_get _ _ _ _ _ s2)|]. intros r s3 evs _ Hc.
  apply runs_quiet_bind; [solve_quiet|]. intros [] s4 _. apply runs_ret. rewrite app_nil_r. unfold called in Hc.
  destruct (fn_of s2 p_kdbGet (Some q)) as [[l' f]|]; [|done]. by subst evs.
Qed.

Lemma global_only_app a b : global_only a -> global_only b -> global_only (a ++ b).
Proof. intros [H1 H2] [H3 H4]. split; [by rewrite slots_of_app, H1, H3|by rewrite existsb_app, H2, H4]. Qed.

Lemma hooks_before_calls handle ks key init part done p s :
  runs same_structs (hooks_before handle ks key init part done p) s (fun _ evs => global_only evs).
Proof.
  unfold hooks_before. eapply (runs_bind _ _ _ (fun _ evs => global_only evs)).
  { destruct (_ && _); [apply get_hook_calls|by apply runs_ret]. }
  intros pgs s1 evs1 _ H1. destruct pgs; [apply runs_ret; by apply global_only_app|].
  eapply (runs_bind _ _ _ (fun _ evs => global_only evs)).
  { destruct (_ && _); [apply get_hook_calls|by apply runs_ret]. }
  intros pgc s2 evs2 _ H2. apply runs_ret. apply global_only_app; [done|]. by apply global_only_app.
Qed.

Lemma quiet_prepareGlobalKS {F} {HF : Frame F} ks key : quiet F (prepareGlobalKS ks key).
Proof. unfold prepareGlobalKS, move_cascading. solve_quiet. Qed.

Lemma hooked_slot_calls handle ks key init part done p s s0 :
  st_plugins s = st_plugins s0 -> st_backends s = st_backends s0 ->
  runs same_structs (hooked_slot handle ks key init part done p) s (fun t evs => slots_of evs = slot_plugin s0 part p /\
    match t with inl _ => existsb get_failed evs = false | inr r => r = (-1)%Z /\ existsb get_failed evs = true end).
Proof.
  intros Ep Eb. unfold hooked_slot. eapply runs_bind; [apply hooks_before_calls|]. intros done1 s1 evs1 (E1 & E2 & _) [Hs1 Hf1].
  apply runs_deref_in. intros h b Hh Hb. apply runs_slot. intros q Hq. apply runs_has_fn.
  assert (slot_plugin s0 part p = match fn_of s0 p_kdbGet q with Some (l, _) => [(p, l)] | None => [] end) as Hslot.
  { unfold slot_plugin. rewrite (slot_call_lookup s0 _ _ _ _ _ h b q) by (try done; congruence). by destruct (fn_of s0 p_kdbGet q) as [[l f]|]. }
  assert (fn_of s1 p_kdbGet q = fn_of s0 p_kdbGet q) as -> by (unfold fn_of; by rewrite E1, Ep).
  assert (forall ret evs ks, called s0 p_kdbGet (GetSlot p) q ks ret evs -> existsb get_failed evs = (ret =? -1)%Z /\ slots_of evs = slot_plugin s0 part p) as Hcalled.
  { intros ret evs ks' Hc. rewrite Hslot. unfold called in Hc. destruct (fn_of s0 p_kdbGet q) as [[l f]|]; [|done]. subst evs.
    simpl. unfold get_failed. simpl. by rewrite orb_false_r. }
  eapply (runs_bind _ _ _ (fun ret evs => existsb get_failed evs = (ret =? -1)%Z /\ slots_of evs = slot_plugin s0 part p)).
  - case_bool_decide as Hfn.
    + destruct (p <=? STORAGE_PLUGIN).
      * eapply runs_mono; [apply (runs_call_get _ _ _ _ _ s0); congruence|]. intros ret evs Hc. by eapply Hcalled.
      * apply runs_quiet_bind; [apply quiet_prepareGlobalKS|]. intros cut s2 (F1 & _).
        eapply runs_bind; [apply (runs_call_get _ _ _ _ _ s0); congruence|]. intros ret s3 evs _ Hc.
        apply runs_quiet_bind; [solve_quiet|]. intros z s4 _. apply runs_quiet_bind; [solve_quiet|]. intros z' s5 _.
        apply runs_ret. rewrite app_nil_r. by eapply Hcalled.
    + apply runs_ret. rewrite Hslot. destruct (fn_of s0 p_kdbGet q); [exfalso; apply Hfn; eauto|done].
  - intros ret s2 evs _ [H1 H2]. apply runs_ret. rewrite slots_of_app, app_nil_r, Hs1, H2.
    destruct (Z.eqb_spec ret (-1)) as [->|Hne]; rewrite existsb_app, Hf1, H1; done.
Qed.

Lemma doUpdateWithGlobalHooks_calls handle l sp ks key init run s :
  st_splits s !! l = Some sp ->
  runs same_structs (elektraGetDoUpdateWithGlobalHooks handle (Some l) ks key init run) s (fun r evs =>
    r = 0%Z /\ slots_of evs = pass_calls s run (sp_parts sp) /\ existsb get_failed evs = false \/
    r = (-1)%Z /\ slots_of evs `prefix_of` pass_calls s run (sp_parts sp) /\ existsb get_failed evs = true).
Proof.
  intros Hs. unfold elektraGetDoUpdateWithGlobalHooks. apply runs_deref_in. intros ? ? [= <-] ?. simplify_eq.
  unfold pass_calls, but_last. fold (sp_size sp). rewrite <- flat_map_at_index by lia. eapply runs_bind.
  - apply (runs_kfold_calls same_structs slots_of (at_index (pass_plugins s run) sp)); [apply slots_of_app|done|].
    intros i dn s1 Hi (E1 & E2 & E3 & E4). apply elem_of_seq in Hi. unfold at_index.
    destruct (lookup_lt_is_Some_2 (sp_parts sp) i) as [part Hp]; [unfold sp_size in Hi; lia|]. rewrite Hp.
    apply runs_split_part. intros ? sp' part' [= <-] Hs' Hp'. assert (part' = part) as -> by congruence. unfold pass_plugins.
    fold (part_changed part). destruct (part_changed part); simpl negb; cbn iota; [|by apply runs_ret].
    apply runs_quiet_bind; [solve_quiet|]. intros z s2 (F1 & F2 & _).
    apply runs_quiet_bind; [solve_quiet|]. intros [] s3 (G1 & G2 & _).
    apply runs_quiet_bind; [solve_quiet|]. intros [] s4 (I1 & I2 & _).
    apply (runs_kfold_calls same_structs slots_of (slot_plugin s part)); [apply slots_of_app|done|].
    intros p done1 s5 _ (J1 & J2 & _). eapply runs_mono; [apply (hooked_slot_calls _ _ _ _ _ _ _ _ s); congruence|].
    intros [d|r] evs [H1 H2]; [done|]. destruct H2 as [-> H2]. by rewrite H1.
  - intros [d|r] s1 evs _ H; apply runs_ret; rewrite app_nil_r.
    + left. by destruct H.
    + right. by destruct H as (-> & H1 & H2).
Qed.
End Update.

(** ** The traces of kdbGet *)

Section GetTrace.
Context {E : Env} {MD : Modules}.

Lemma quiet_splitGet split key handle : quiet only_sizes (splitGet split key handle).
Proof.
  unfold splitGet, elektraSplitPostprocess, wrong_namespace, elektraDropCurrentKey, mountpoint_strings.
  solve_quiet; try apply quiet_backendUpdateSize.
Qed.

Lemma quiet_get_merge split key handle ks : quiet only_sizes (get_merge split key handle ks).
Proof.
  unfold get_merge, splitMerge. apply quiet_bind; [apply quiet_splitGet|]. solve_quiet.
Qed.

(** [splitAppoint] adds one part, the bypass. *)
Lemma splitAppoint_yields l sp handle ks s :
  st_splits s !! l = Some sp ->
  yields (splitAppoint (Some l) handle ks) s (fun _ evs s' => evs = [] /\ same_slots s s' /\
    exists sp' p, st_splits s' !! l = Some sp' /\ sp_parts sp' = sp_parts sp ++ [p]).
Proof.
  intros Hs. unfold splitAppoint.
  eapply (yields_bind _ _ _ (fun _ evs s' => evs = [] /\ same_slots s s' /\
    exists sp' p, st_splits s' !! l = Some sp' /\ sp_parts sp' = sp_parts sp ++ [p])).
  - unfold splitAppend. apply yields_deref_in. intros ? ? [= <-] ?. simplify_eq.
    eapply (yields_quiet_bind same_structs); [solve_quiet|]. intros k s1 F1. pose proof F1 as (E1 & E2 & E3 & E4).
    intros z s' Hr. unfold kbind, put_split, store in Hr. rewrite E3, Hs in Hr. injection Hr as _ <-. exists []. rewrite app_nil_r.
    split; [done|]. split; [done|]. split; [by apply (same_structs_slots s s1)|]. eexists _, _. simpl. by rewrite lookup_insert_eq.
  - intros z s1 evs1 (-> & H1 & sp' & p & Hs1 & Hp). eapply (yields_quiet same_structs); [solve_quiet|].
    intros r s2 F2. split; [done|]. split; [etrans; [exact H1|by apply same_structs_slots]|]. destruct F2 as (_ & _ & -> & _). eauto.
Qed.

(** Global plugins are called while the parts are updated. *)
Definition has_get_hooks (h : KDB) : bool :=
  bool_decide (kdb_globalPlugins h POSTGETSTORAGE <> None) || bool_decide (kdb_globalPlugins h POSTGETCLEANUP <> None).

(** The plugins called for the [parts] of which those marked are to be updated:
    slot after slot and part after part, or in two passes around global
    plugins. *)
Definition updated_by (s : kstate) (h : KDB) (parts : list Part) (evs : list event) : Prop :=
  if has_get_hooks h then
    slots_of evs = flat_map (pass_plugins s FIRST) parts ++ flat_map (pass_plugins s LAST) parts
  else map call_of evs = flat_map (get_calls s (seq 1 (NR_OF_PLUGINS - 1))) parts.

(** Such a sequence of calls that was left. *)
Definition updated_until (s : kstate) (h : KDB) (parts : list Part) (evs : list event) : Prop :=
  if has_get_hooks h then
    slots_of evs `prefix_of` flat_map (pass_plugins s FIRST) parts ++ flat_map (pass_plugins s LAST) parts
  else map call_of evs `prefix_of` flat_map (get_calls s (seq 1 (NR_OF_PLUGINS - 1))) parts.

Lemma updated_until_nil s h parts : updated_until s h parts [].
Proof. unfold updated_until. destruct (has_get_hooks h); apply prefix_nil. Qed.

Lemma but_last_snoc parts p : but_last (parts ++ [p]) = parts.
Proof. unfold but_last. rewrite length_app. simpl. rewrite Nat.add_sub. apply take_app_length. Qed.

Lemma get_calls_slots s s1 ps part : same_slots s s1 -> get_calls s1 ps part = get_calls s ps part.
Proof.
  intros H. unfold get_calls. destruct (part_changed part); [|done]. apply flat_map_ext. intros p. by apply slot_call_slots.
Qed.

Lemma pass_plugins_slots s s1 run part : same_slots s s1 -> pass_plugins s1 run part = pass_plugins s run part.
Proof.
  intros H. unfold pass_plugins. destruct (part_changed part); [|done]. apply flat_map_ext. intros p. unfold slot_plugin.
  by rewrite (slot_call_slots s s1).
Qed.

Lemma update_plain l sp p0 parts h key s s0 :
  st_splits s !! l = Some sp -> sp_parts sp = parts ++ [p0] -> same_slots s0 s -> has_get_hooks h = false ->
  runs same_structs (elektraGetDoUpdate (Some l) key) s (fun r evs =>
    r = 0%Z /\ updated_by s0 h parts evs /\ existsb get_failed evs = false \/
    r = (-1)%Z /\ updated_until s0 h parts evs /\ existsb get_failed evs = true).
Proof.
  intros Hs Hp H0 Hh. eapply runs_mono; [by apply (doUpdate_calls l sp)|].
  assert (update_calls s (sp_parts sp) = flat_map (get_calls s0 (seq 1 (NR_OF_PLUGINS - 1))) parts) as ->.
  { unfold update_calls. rewrite Hp, but_last_snoc. apply flat_map_ext. intros part. by apply get_calls_slots. }
  intros r evs H. unfold updated_by, updated_until. by rewrite Hh.
Qed.

Lemma update_pass l sp p0 parts handle ks key init run s s0 :
  st_splits s !! l = Some sp -> sp_parts sp = parts ++ [p0] -> same_slots s0 s ->
  runs same_structs (elektraGetDoUpdateWithGlobalHooks handle (Some l) ks key init run) s (fun r evs =>
    r = 0%Z /\ slots_of evs = flat_map (pass_plugins s0 run) parts /\ existsb get_failed evs = false \/
    r = (-1)%Z /\ slots_of evs `prefix_of` flat_map (pass_plugins s0 run) parts /\ existsb get_failed evs = true).
Proof.
  intros Hs Hp H0. eapply runs_mono; [by apply (doUpdateWithGlobalHooks_calls _ l sp)|].
  assert (pass_calls s run (sp_parts sp) = flat_map (pass_plugins s0 run) parts) as ->; [|done].
  unfold pass_calls. rewrite Hp, but_last_snoc. apply flat_map_ext. intros part. by apply pass_plugins_slots.
Qed.

(** After the check: the marked parts are updated, or an error ends it. *)
Lemma get_update_yields handle h l sp ks key init old s s0 :
  st_splits s !! l = Some sp -> same_slots s0 s -> st_kdbs s0 !! handle = Some h ->
  yields (get_update (Some handle) (Some l) ks key init old) s (fun ok evs s' => same_slots s0 s' /\
    if ok : bool then updated_by s0 h (sp_parts sp) evs /\ existsb get_failed evs = false
    else updated_until s0 h (sp_parts sp) evs /\ (evs = [] /\ kdb_defaultBackend h = None \/ existsb get_failed evs = true)).
Proof.
  intros Hs H0 Hh. unfold get_update. eapply yields_bind.
  { eapply yields_and; [by apply (splitAppoint_yields l sp)|]. apply (splitAppoint_fails _ handle h). destruct H0 as (_ & E2 & _). congruence. }
  intros r s1 evs1 [(-> & H1 & sp1 & p0 & Hs1 & Hp1) Hdef]. assert (same_slots s0 s1) as H01 by (by etrans). clear H1.
  destruct (Z.eqb_spec r (-1)) as [Hr|Hr].
  { eapply (yields_quiet_bind only_sizes); [solve_quiet|]. intros [] s2 [F2 _].
    eapply (yields_quiet_bind only_sizes); [solve_quiet|]. intros [] s3 [F3 _]. apply yields_ret.
    split; [by do 2 (etrans; [eassumption|])|]. split; [apply updated_until_nil|left; auto]. }
  apply yields_deref_in. intros ? h' [= <-] Hh'.
  assert (h' = h) as -> by (destruct H01 as (_ & E2 & _); congruence). fold (has_get_hooks h).
  destruct (has_get_hooks h) eqn:Hhooks.
  - eapply (yields_quiet_bind only_sizes); [solve_quiet|]. intros [] s2 [F2 G2]. rewrite <- G2 in Hs1.
    assert (same_slots s0 s2) as H02 by (by etrans).
    eapply yields_bind; [apply (yields_runs same_structs); by apply (update_pass l sp1 p0 (sp_parts sp) None None key init FIRST s2 s0)|].
    intros r1 s3 evs1 [F3 Hev]. pose proof F3 as (_ & _ & G3 & _). apply same_structs_slots in F3. rewrite <- G3 in Hs1.
    assert (same_slots s0 s3) as H03 by (by etrans).
    destruct Hev as [(-> & Hc1 & Hf1)|(-> & Hc1 & Hf1)]; simpl (_ =? _)%Z; cbn iota.
    2:{ apply yields_ret. rewrite app_nil_r. split; [done|]. split; [|by right]. unfold updated_until. rewrite Hhooks. by apply prefix_app_r. }
    eapply (yields_quiet_bind only_sizes); [solve_quiet|]. intros z s4 [F4 G4]. rewrite <- G4 in Hs1.
    eapply (yields_quiet_bind only_sizes); [solve_quiet|]. intros [] s5 [F5 G5]. rewrite <- G5 in Hs1.
    eapply (yields_quiet_bind only_sizes); [apply quiet_get_merge|]. intros [] s6 [F6 G6]. rewrite <- G6 in Hs1.
    eapply (yields_quiet_bind only_sizes); [solve_quiet|]. intros [] s7 [F7 G7]. rewrite <- G7 in Hs1.
    assert (same_slots s0 s7) as H07 by (by do 4 (etrans; [eassumption|])).
    eapply yields_bind; [apply (yields_runs same_structs); by apply (update_pass l sp1 p0 (sp_parts sp) (Some handle) ks key init LAST s7 s0)|].
    intros r2 s8 evs2 [F8 Hev2]. apply same_structs_slots in F8. assert (same_slots s0 s8) as H08 by (by etrans).
    destruct Hev2 as [(-> & Hc2 & Hf2)|(-> & Hc2 & Hf2)]; simpl (_ =? _)%Z; cbn iota.
    + eapply (yields_quiet_bind only_sizes); [solve_quiet|]. intros z9 s9 [F9 _]. apply yields_ret. rewrite app_nil_r.
      split; [by etrans|]. cbn [app]. unfold updated_by. by rewrite Hhooks, slots_of_app, Hc1, Hc2, existsb_app, Hf1, Hf2.
    + apply yields_ret. rewrite app_nil_r. split; [done|]. cbn [app]. split; [|right; by rewrite existsb_app, Hf2, orb_true_r].
      unfold updated_until. rewrite Hhooks, slots_of_app, Hc1. by apply prefix_app.
  - eapply (yields_quiet_bind only_sizes); [solve_quiet|]. intros [] s2 [F2 G2]. rewrite <- G2 in Hs1.
    assert (same_slots s0 s2) as H02 by (by etrans).
    eapply yields_bind; [apply (yields_runs same_structs); by apply (update_plain l sp1 p0 (sp_parts sp) h key s2 s0)|].
    intros r1 s3 evs1 [F3 Hev]. apply same_structs_slots in F3. assert (same_slots s0 s3) as H03 by (by etrans).
    destruct Hev as [(-> & Hc1 & Hf1)|(-> & Hc1 & Hf1)]; simpl (_ =? _)%Z; cbn iota.
    2:{ apply yields_ret. rewrite app_nil_r. split; [done|]. split; [done|by right]. }
    eapply (yields_quiet_bind only_sizes); [solve_quiet|]. intros z s4 [F4 _].
    eapply (yields_quiet_bind only_sizes); [apply quiet_get_merge|]. intros [] s5 [F5 _].
    apply yields_ret. rewrite app_nil_r. split; [by do 2 (etrans; [eassumption|])|done].
Qed.

(** *** The whole of kdbGet *)

Definition pre_calls (s : kstate) (h : KDB) (ks : ptr) := global_calls s p_kdbGet (kdb_globalPlugins h) PREGETSTORAGE ks.
Definition post_calls (s : kstate) (h : KDB) (ks : ptr) := global_calls s p_kdbGet (kdb_globalPlugins h) POSTGETSTORAGE ks.

(** What [kdbGet] does before it calls [splitBuildup]: it saves the error of the parent key,
    warns about an empty name, copies the parent key, makes a split and calls the global
    plugin [PREGETSTORAGE]. *)
Definition get_start (handle : loc) (ks key : ptr) : KM ptr :=
  ns <- lift (keyGetNamespace key);;
  save_error key;;
  (if decide (ns = KEY_NS_EMPTY)
   then lift (add_warning 105 key [lit "invalid key name passed to kdbGet"]) else kret tt);;
  lift (keyDup key);;
  split <- splitNew;;
  call_global call_get (Some handle) PREGETSTORAGE ks key;;
  kret split.

(** The plugins [pre] were called before [splitBuildup], which made the split with
    [parts]: a copy of each of the parts of the handle the parent key asks for. *)
Definition get_built (s : kstate) (handle : loc) (h : KDB) (ks key : ptr) (pre : list event) (parts : list Part) : Prop :=
  exists l s1 s2 sp, get_start handle ks key s = KRet (Some l) s1 /\
    st_trace s1 = st_trace s ++ pre /\ map call_of pre = pre_calls s h ks /\
    built handle h key l s1 s2 /\ st_splits s2 !! l = Some sp /\ parts = sp_parts sp.

(** The parent key has no name or is a metadata key. *)
Definition get_wrong (s : kstate) (key : ptr) : Prop :=
  exists ns hp, keyGetNamespace key (st_heap s) = Ret ns hp /\ (ns = KEY_NS_NONE \/ ns = KEY_NS_META).

(** The result of [kdbGet] and the plugins it called: those before, those that
    check, those that update and the global plugin after an error. *)
Inductive get_trace (s : kstate) (handle : loc) (h : KDB) (ks key : ptr) : Z -> list event -> Prop :=
| get_refused : get_wrong s key -> get_trace s handle h ks key (-1) []
| get_no_keyset post : ks = None -> map call_of post = post_calls s h ks -> get_trace s handle h ks key (-1) post
| get_unneeded pre parts parts' chk :
    get_built s handle h ks key pre parts -> all_checked s parts parts' chk -> existsb changed chk = false ->
    get_trace s handle h ks key 0 (pre ++ chk)
| get_check_failed pre parts i part parts' chk bad post :
    get_built s handle h ks key pre parts -> parts !! i = Some part ->
    all_checked s (take i parts) parts' chk -> check_failed s part bad ->
    map call_of post = post_calls s h ks -> get_trace s handle h ks key (-1) (pre ++ chk ++ bad ++ post)
| get_update_failed pre parts parts' chk upd post :
    get_built s handle h ks key pre parts -> all_checked s parts parts' chk -> existsb changed chk = true ->
    updated_until s h parts' upd -> upd = [] /\ kdb_defaultBackend h = None \/ existsb get_failed upd = true ->
    map call_of post = post_calls s h ks -> get_trace s handle h ks key (-1) (pre ++ chk ++ upd ++ post)
| get_updated pre parts parts' chk upd :
    get_built s handle h ks key pre parts -> all_checked s parts parts' chk -> existsb changed chk = true ->
    updated_by s h parts' upd -> existsb get_failed upd = false ->
    get_trace s handle h ks key 1 (pre ++ chk ++ upd).

Lemma existsb_filter_length {A} (f : A -> bool) l : existsb f l = negb (length (List.filter f l) =? 0).
Proof. induction l as [|x l IH]; [done|]. simpl. rewrite IH. by destruct (f x). Qed.

(** The label [error]. *)
Lemma get_error_calls handle h split ks key init old s s0 :
  same_slots s0 s -> st_kdbs s0 !! handle = Some h ->
  runs any_state (get_error (Some handle) split ks key init old) s (fun r evs =>
    r = (-1)%Z /\ map call_of evs = post_calls s0 h ks).
Proof.
  intros H0 Hh. unfold get_error. eapply (runs_quiet_frame same_structs); [solve_quiet|]. intros [] s1 _ F1.
  apply same_structs_slots in F1. assert (same_slots s0 s1) as (G1 & G2 & _) by (by etrans).
  eapply (runs_bind_frame same_structs); [apply (call_global_get_calls _ h _ _ _ _ s0); [congruence|done]|].
  intros [] s2 evs _ _ Hc. do 5 (apply runs_quiet_bind; [solve_quiet|]; intros ? ? _).
  apply runs_ret. by rewrite app_nil_r.
Qed.

Lemma same_backends_slots s s' : same_backends s s' -> same_slots s s'.
Proof. intros (H1 & H2 & H3). unfold same_slots. by rewrite H1, H2, H3. Qed.

Lemma checkUpdateNeeded_some split key s r s' :
  elektraGetCheckUpdateNeeded split key s = KRet r s' -> exists l sp, split = Some l /\ st_splits s !! l = Some sp.
Proof.
  unfold elektraGetCheckUpdateNeeded, kbind at 1, get_split, deref_in. destruct split as [l|]; [|done].
  destruct (st_splits s !! l) as [sp|] eqn:Hs; [|done]. eauto.
Qed.

Lemma check_failed_slots s s1 part evs : same_slots s s1 -> check_failed s1 part evs -> check_failed s part evs.
Proof. intros H. unfold check_failed, resolver_call. by rewrite (slot_call_slots s s1). Qed.

Lemma all_checked_slots s s1 parts parts' evs : same_slots s s1 -> all_checked s1 parts parts' evs -> all_checked s parts parts' evs.
Proof.
  intros H (evss & -> & Hc). exists evss. split; [done|]. eapply Forall3_impl; [exact Hc|].
  intros part part' es. unfold checked, resolver_call. by rewrite (slot_call_slots s s1).
Qed.

Lemma yields_any {A} (m : KM A) s s0 (T : A -> list event -> Prop) :
  runs any_state m s T -> yields m s (fun a evs s' => any_state s0 s' /\ T a evs).
Proof. intros H a s' Hm. apply H in Hm as (_ & evs & Ht & HT). by exists evs. Qed.

(** From the check on. *)
Lemma kdbGet_check_calls handle h split ks key init old pre s s0 :
  st_kdbs s0 !! handle = Some h -> same_slots s0 s ->
  (forall l sp, split = Some l -> st_splits s !! l = Some sp -> get_built s0 handle h ks key pre (sp_parts sp)) ->
  runs any_state
    (needed <- elektraGetCheckUpdateNeeded split key;;
     if (needed =? 0)%Z then
       copy_name key init;;
       splitUpdateFileName split (Some handle) key;;
       lift (keyDel init);;
       splitDel split;;
       lift (keyDel old);;
       kret 0%Z
     else if (needed =? -1)%Z then get_error (Some handle) split ks key init old
     else
       ok <- get_update (Some handle) split ks key init old;;
       if ok : bool then
         lift (ksRewind ks);;
         copy_name key init;;
         splitUpdateFileName split (Some handle) key;;
         lift (keyDel init);;
         lift (keyDel old);;
         splitDel split;;
         kret 1%Z
       else get_error (Some handle) split ks key init old) s (fun r evs => get_trace s0 handle h ks key r (pre ++ evs)).
Proof.
  intros Hh H0 Hsplit. apply runs_yields.
  destruct (elektraGetCheckUpdateNeeded split key s) as [n s1'| |] eqn:Hcheck;
    [|intros r s'; unfold kbind; by rewrite Hcheck..].
  destruct (checkUpdateNeeded_some _ _ _ _ _ Hcheck) as (l & sp & -> & Hs). pose proof (Hsplit l sp eq_refl Hs) as Hpre.
  eapply yields_bind; [by apply (checkUpdateNeeded_yields l key sp)|].
  intros needed s1 chk (H1 & Hn). assert (same_slots s0 s1) as H01 by (by etrans).
  destruct Hn as [[Hn (sp' & Hs1 & Hall)]|[-> (i & part & parts' & evs1 & evs2 & Hp & -> & Hall & Hbad)]].
  - assert (existsb changed chk = negb (needed =? 0)%Z) as Hch.
    { rewrite existsb_filter_length, Hn. by destruct (length (List.filter changed chk)). }
    apply (all_checked_slots s0 s) in Hall; [|done].
    destruct (needed =? 0)%Z eqn:Hz.
    + apply yields_any. do 5 (apply runs_quiet_bind; [solve_quiet|]; intros ? ? _). apply runs_ret.
      rewrite app_nil_r. by eapply get_unneeded.
    + assert ((needed =? -1)%Z = false) as -> by (apply Z.eqb_neq; lia).
      eapply yields_bind; [by apply (get_update_yields handle h l sp' _ _ _ _ s1 s0)|].
      intros [] s2 upd [H2 Hupd].
      * destruct Hupd as [Hupd Hf]. apply yields_any.
        do 6 (apply runs_quiet_bind; [solve_quiet|]; intros ? ? _). apply runs_ret. rewrite app_nil_r.
        by eapply get_updated.
      * destruct Hupd as [Hupd Hf]. eapply yields_mono; [apply (yields_runs any_state); by apply (get_error_calls handle h _ _ _ _ _ s2 s0)|].
        intros r post s3 [_ [-> Hpost]]. split; [done|]. by eapply get_update_failed.
  - apply (all_checked_slots s0 s) in Hall; [|done]. apply (check_failed_slots s0 s) in Hbad; [|done].
    eapply yields_mono; [apply (yields_runs any_state); by apply (get_error_calls handle h _ _ _ _ _ s1 s0)|].
    intros r post s3 [_ [-> Hpost]]. split; [done|]. rewrite <- app_assoc. by eapply get_check_failed.
Qed.

Lemma kdbGet_body_calls handle h ks key init l old s0 s :
  st_kdbs s0 !! handle = Some h -> same_backends s0 s -> st_trace s = st_trace s0 ->
  (forall u s1, call_global call_get (Some handle) PREGETSTORAGE (Some ks) key s = KRet u s1 ->
     get_start handle (Some ks) key s0 = KRet (Some l) s1) ->
  st_splits s !! l = Some (mkSplit [] APPROXIMATE_NR_OF_BACKENDS) ->
  runs any_state (kdbGet_body (Some handle) (Some ks) key init (Some l) old) s (get_trace s0 handle h (Some ks) key).
Proof.
  intros Hh (E1 & E2 & E3) Htr Hstart Hnew r s' Hr. unfold kdbGet_body in Hr. apply kbind_ret in Hr as (u & s1 & Hcall & Hr).
  assert (runs same_structs (call_global call_get (Some handle) PREGETSTORAGE (Some ks) key) s
    (fun _ evs => map call_of evs = pre_calls s0 h (Some ks))) as Hruns by (apply (call_global_get_calls _ h _ _ _ _ s0); congruence).
  destruct (Hruns u s1 Hcall) as ((I1 & I2 & I3 & I4) & pre & Htr1 & Hpre).
  apply kbind_ret in Hr as (built1 & s2 & Hb & Hr).
  pose proof (built_intro handle h key l s1 s2 built1 Hb ltac:(congruence)) as Hbuilt.
  destruct (quiet_splitBuildup (F := same_backends) same_backends_loose (Some l) (Some handle) key s1 built1 s2 Hb) as ((J1 & J2 & J3) & evs & Htr2 & ->).
  apply splitBuildup_ret in Hb as ->. simpl (1 =? -1)%Z in Hr. cbn iota in Hr.
  destruct (fun H1 H2 H3 => kdbGet_check_calls handle h (Some l) (Some ks) key init old pre s2 s0 H1 H2 H3 r s' Hr) as (_ & evs & Ht & HT).
  - done.
  - apply same_backends_slots. split_and!; congruence.
  - intros ? sp [= <-] Hs. exists l, s1, s2, sp. split_and!; [by eapply Hstart|congruence|done..].
  - split; [done|]. exists (pre ++ evs). split; [|done]. by rewrite Ht, Htr2, app_nil_r, Htr1, <- app_assoc.
Qed.

Lemma kdbGet_calls handle h ks key s :
  st_kdbs s !! handle = Some h -> runs any_state (kdbGet (Some handle) ks key) s (get_trace s handle h ks key).
Proof.
  intros Hh. unfold kdbGet.
  destruct (lift (keyGetNamespace key) s) as [ns s1| |] eqn:Hns; [|intros r s' Hr; unfold kbind in Hr; by rewrite Hns in Hr..].
  assert (exists hp, keyGetNamespace key (st_heap s) = Ret ns hp) as [hp Hhp].
  { unfold lift in Hns. destruct (keyGetNamespace key (st_heap s)) as [ns' hp| |]; [|done..]. injection Hns as -> _. by exists hp. }
  eapply (runs_quiet_trace same_structs); [solve_quiet|]. intros ns' s1' Hns' F1 T1.
  rewrite Hns in Hns'. injection Hns' as <- <-.
  destruct (decide (ns = KEY_NS_NONE)) as [->|Hn1].
  { apply runs_ret. apply get_refused. exists KEY_NS_NONE, hp. auto. }
  eapply (runs_quiet_trace same_structs); [unfold save_error; solve_quiet|]. intros old s2 Hold F2 T2.
  destruct (decide (ns = KEY_NS_META)) as [->|Hn2].
  { do 4 (apply runs_quiet_bind; [solve_quiet|]; intros ? ? _). apply runs_ret. apply get_refused. exists KEY_NS_META, hp. auto. }
  eapply (runs_quiet_trace same_structs); [solve_quiet|]. intros [] s3 Hwarn F3 T3.
  eapply (runs_quiet_trace same_structs); [solve_quiet|]. intros init s4 Hdup F4 T4.
  assert (same_structs s s4) as F by (by do 3 (etrans; [eassumption|])). clear F1 F2 F3 F4.
  assert (same_backends s s4) as FB by (by destruct F as (?&?&?&?)). clear F.
  eapply (runs_quiet_trace same_backends); [solve_quiet|]. intros split s5 Hnew F5 T5.
  destruct (splitNew_ret _ _ _ Hnew) as (l & -> & Hl). assert (same_backends s s5) as FB5 by (by etrans).
  destruct ks as [ks|].
  - apply kdbGet_body_calls; [done|done|congruence| |done]. intros u s6 Hcall.
    unfold get_start, kbind. by rewrite Hns, Hold, Hwarn, Hdup, Hnew, Hcall.
  - unfold kdbGet_body. do 2 (eapply (runs_quiet_frame same_backends); [solve_quiet|]; intros ? ? _ ?).
    eapply runs_mono; [apply (get_error_calls handle h _ _ _ _ _ _ s); [|done]|].
    + apply same_backends_slots. by do 2 (etrans; [eassumption|]).
    + intros r post [-> Hpost]. by apply get_no_keyset.
Qed.

End GetTrace.
