(* ===== verification/Ease.v ===== *)
(** * Ease: array elements and helpers

    [libs/ease/array.c], [libs/ease/functional.c] and [libs/ease/keyname.c].
    An array element has the base name [#], then one underscore less than its
    number has digits, then the number.  The theorems show that the names sort
    like the numbers, that numbers are read back, and for which numbers the
    21 byte buffer of [elektraArrayIncName] is large enough. *)
From S2P Require Export LookupFacts.

(** ** Names of array elements *)

Definition isdigit (c : ascii) : bool := ((48 <=? uchar c) && (uchar c <=? 57))%Z.
Definition isspace (c : ascii) : bool :=
  ((uchar c =? 32) || ((9 <=? uchar c) && (uchar c <=? 13)))%Z.

(** [for (; p ( *current); current++) count++;] *)
Fixpoint count_while (p : ascii -> bool) (s : cstr) : nat * cstr :=
  match s with
  | c :: r => if p c then let (n, t) := count_while p r in (S n, t) else (0, s)
  | [] => (0, [])
  end.

Definition is_underscore (c : ascii) : bool := bool_decide (c = "_"%char).

Definition ELEKTRA_MAX_ARRAY_SIZE : nat := 21.

(** [elektraArrayValidateName] on the base name. *)
Definition array_syntax (current : cstr) : Z :=
  if bool_decide (strcmp current (lit "#") = 0%Z) then 0
  else if bool_decide (deref current = "#"%char) then
    let (underscores, current) := count_while is_underscore (tail current) in
    let (digits, _) := count_while isdigit current in
    if negb (underscores + 1 =? digits) then -1
    else if ELEKTRA_MAX_ARRAY_SIZE - 2 <? underscores + digits then -1
    else 1
  else -1.

Definition INT64_MAX : Z := 2 ^ 63 - 1.

(** The digits [sscanf] reads. *)
Fixpoint read_digits (s : cstr) (acc : Z) : Z :=
  match s with
  | c :: r => if isdigit c then read_digits r (acc * 10 + (uchar c - 48)) else acc
  | [] => acc
  end.

(** [sscanf (s, "%ld", &n)]: white space, a sign, digits; [None] when there is
    no number.  A number out of range sets [errno]. *)
Definition sscanf_ld (s : cstr) : option Z :=
  let s := snd (count_while isspace s) in
  let (neg, s) := match s with
                  | c :: r => if decide (c = "-"%char) then (true, r)
                              else if decide (c = "+"%char) then (false, r) else (false, s)
                  | [] => (false, s)
                  end in
  if isdigit (deref s) then
    let n := read_digits s 0 in Some (if neg then - n else n)%Z
  else None.

(** [None] stands for the error -1; a number below the range sets [errno]
    and so does one above it. *)
Definition elektraReadArrayNumber (baseName : cstr) : option Z :=
  match sscanf_ld baseName with
  | None => None
  | Some n => if (INT64_MAX <? n)%Z then None else if (n <? 0)%Z then None else Some n
  end.

Section Ease.
Context {R : Rec}.

Definition elektraArrayValidateName (key : ptr) : M Z :=
  match key with
  | None => ret (-1)%Z
  | Some _ =>
      current <- keyBaseName key;;
      match current with None => ret (-1)%Z | Some c => ret (array_syntax c) end
  end.

(** The new name is written into a buffer of [ELEKTRA_MAX_ARRAY_SIZE] bytes
    with its NUL. *)
Definition elektraArrayIncName (key : ptr) : M Z :=
  baseName <- keyBaseName key;;
  arrayElement <- elektraArrayValidateName key;;
  if (arrayElement =? -1)%Z then ret (-1)%Z
  else
    let baseName := snd (count_while is_underscore (tail (default [] baseName))) in
    match (if (arrayElement =? 0)%Z then Some (-1)%Z else elektraReadArrayNumber baseName) with
    | None => ret (-1)%Z
    | Some oldIndex =>
        if (INT64_MAX <=? oldIndex)%Z then undefined
        else
          let newName := elektraWriteArrayNumber (oldIndex + 1) in
          if ELEKTRA_MAX_ARRAY_SIZE <? length newName + 1 then undefined
          else keySetBaseName key (Some newName);; ret 0%Z
    end.

(** ** functional.c *)

Fixpoint filter_loop (fuel : nat) (result input : ptr) (filter : ptr -> M Z) (cnt : Z) : M (bool * Z) :=
  match fuel with
  | O => nofuel
  | S n =>
      current <- ksNext input;;
      match current with
      | None => ret (true, cnt)
      | Some _ =>
          rc <- filter current;;
          if (rc <=? -1)%Z then ret (false, (-1)%Z)
          else if (0 <? rc)%Z then
            d <- keyDup current;;
            ksAppendKey result d;;
            filter_loop n result input filter (cnt + 1)
          else filter_loop n result input filter cnt
      end
  end.

Definition elektraKsFilter (result input : ptr) (filter : option (ptr -> M Z)) : M Z :=
  match result, input, filter with
  | Some _, Some l, Some f =>
      cursor <- ksGetCursor input;;
      ksRewind input;;
      s <- get_ks l;;
      let* (finished, cnt) := filter_loop (S (S (ks_size s))) result input f 0 in
      if finished : bool then ksSetCursor input cursor;; ret cnt else ret (-1)%Z
  | _, _, _ => ret (-1)%Z
  end.

(** ** Arrays *)

Definition arrayFilter (arrayParent key : ptr) : M Z :=
  d <- keyIsDirectBelow arrayParent key;;
  if (d =? 0)%Z then ret 0%Z
  else v <- elektraArrayValidateName key;; ret (if (v =? 0)%Z then 0 else 1)%Z.

Definition elektraArrayGet (arrayParent keys : ptr) : M ptr :=
  match arrayParent, keys with
  | Some _, Some _ =>
      n <- ksGetSize keys;;
      arrayKeys <- ksNew (Z.to_nat n) [];;
      elektraKsFilter (Some arrayKeys) keys (Some (arrayFilter arrayParent));;
      ret (Some arrayKeys)
  | _, _ => ret None
  end.

Definition elektraArrayGetNextKey (arrayKeys : ptr) : M ptr :=
  match arrayKeys with
  | None => ret None
  | Some _ =>
      last <- ksPop arrayKeys;;
      match last with
      | None => ret None
      | Some _ =>
          ksAppendKey arrayKeys last;;
          newKey <- keyDup last;;
          r <- elektraArrayIncName newKey;;
          if (r =? -1)%Z then keyDel newKey;; ret None else ret newKey
      end
  end.

(** ** keyname.c *)

(** [strstr]: the offset of the first occurrence. *)
Fixpoint strstr (haystack needle : cstr) : option nat :=
  if bool_decide (take (length needle) haystack = needle) then Some 0
  else match haystack with [] => None | _ :: r => S <$> strstr r needle end.

(** The bytes [keyName] points into: the escaped name, its NUL and the
    unescaped name in the same buffer. *)
Definition name_buffer (key : ptr) : M (list ascii) :=
  match key with
  | None => undefined
  | Some l =>
      k <- get_key l;;
      ret (match k_key k with None => [NUL] | Some n => n ++ NUL :: k_uname k end)
  end.

(** The returned pointer, as the C string it points to; a pointer computed
    from a failed [strstr] or outside of the buffer is undefined. *)
Definition elektraKeyGetRelativeName (cur parentKey : ptr) : M cstr :=
  p <- keyName parentKey;;
  c <- keyName cur;;
  b <- name_buffer cur;;
  match p, c with
  | Some p, Some c =>
      if bool_decide (strcmp p (lit "/") = 0%Z) then as_cstr b
      else
        size <- keyGetNameSize parentKey;;
        let offset := Z.to_nat size in
        if bool_decide (deref p = SLASH) && negb (bool_decide (deref c = SLASH)) then
          match strstr c p with
          | None => undefined
          | Some o => as_cstr (drop (offset + o) b)
          end
        else as_cstr (drop offset b)
  | _, _ => undefined
  end.
End Ease.

(** ** Numbers and their decimals *)

(** The last [k] decimals of [n]. *)
Fixpoint fixed (k : nat) (n : Z) : cstr :=
  match k with O => [] | S k => fixed k (n / 10) ++ [digit (n mod 10)] end.

(** [n] has [k + 1] decimals. *)
Fixpoint decimals (k : nat) (n : Z) : Prop :=
  match k with O => (0 <= n < 10)%Z | S k => (10 <= n)%Z /\ decimals k (n / 10) end.

Lemma decimals_exist n : (0 <= n)%Z -> exists k, decimals k n.
Proof.
  intros Hn. assert (0 <= n)%Z as Hn' by done. revert n Hn Hn'.
  apply (Z_lt_induction (fun n => (0 <= n)%Z -> exists k, decimals k n)).
  intros n IH Hn. destruct (decide (n < 10)%Z); [by exists 0|].
  destruct (IH (n / 10)%Z) as [k Hk].
  { split; [apply Z.div_pos; lia|apply Z.div_lt; lia]. }
  { apply Z.div_pos; lia. }
  exists (S k). split; [lia|done].
Qed.

Lemma decimals_bound k n :
  decimals k n -> (0 <= n < 10 ^ (Z.of_nat k + 1) /\ (0 < Z.of_nat k -> 10 ^ Z.of_nat k <= n))%Z.
Proof.
  revert n. induction k as [|k IH]; intros n; simpl decimals; [lia|].
  intros [Hn [H1 H2]%IH].
  assert (n < 10 * 10 ^ (Z.of_nat k + 1))%Z.
  { pose proof (Z.div_mod n 10). pose proof (Z.mod_pos_bound n 10). lia. }
  assert (10 ^ (Z.of_nat (S k) + 1) = 10 * 10 ^ (Z.of_nat k + 1))%Z as ->.
  { rewrite <- Z.pow_succ_r by lia. f_equal. lia. }
  split; [lia|]. intros _. destruct k as [|k]; [simpl; lia|].
  specialize (H2 ltac:(lia)).
  assert (10 ^ Z.of_nat (S (S k)) = 10 * 10 ^ Z.of_nat (S k))%Z as ->.
  { rewrite <- Z.pow_succ_r by lia. f_equal. lia. }
  pose proof (Z.mul_div_le n 10). lia.
Qed.

Lemma decimals_lt k j n m : decimals k n -> decimals j m -> k < j -> (n < m)%Z.
Proof.
  intros [H1 _]%decimals_bound [_ H2]%decimals_bound Hlt. specialize (H2 ltac:(lia)).
  assert (10 ^ (Z.of_nat k + 1) <= 10 ^ Z.of_nat j)%Z by (apply Z.pow_le_mono_r; lia). lia.
Qed.

Lemma decimals_max k n : decimals k n -> (n <= INT64_MAX)%Z -> k <= 18.
Proof.
  intros [_ H]%decimals_bound Hn. destruct (decide (k <= 18)); [done|]. specialize (H ltac:(lia)).
  assert (10 ^ 19 <= 10 ^ Z.of_nat k)%Z by (apply Z.pow_le_mono_r; lia).
  unfold INT64_MAX in Hn. lia.
Qed.

(** What [elektraWriteArrayNumber] writes. *)
Lemma decimal_fixed k : forall fuel n acc,
  decimals k n -> k < fuel -> decimal fuel n acc = fixed (S k) n ++ acc.
Proof.
  induction k as [|k IH]; intros [|fuel] n acc Hn Hf; try lia; cbn [decimal]; simpl decimals in Hn.
  - rewrite Z.div_small by lia. done.
  - destruct Hn as [Hn Hk]. destruct (Z.eqb_spec (n / 10) 0) as [E|E].
    { apply Z.div_small_iff in E; lia. }
    rewrite IH by (done || lia). cbn [fixed]. by rewrite <- !app_assoc.
Qed.

Lemma underscores_replicate k : forall fuel n,
  decimals k n -> k < fuel -> underscores fuel (n / 10) = replicate k "_"%char.
Proof.
  induction k as [|k IH]; intros [|fuel] n Hn Hf; try lia; cbn [underscores]; simpl decimals in Hn.
  - by rewrite Z.div_small by lia.
  - destruct Hn as [Hn Hk]. destruct (Z.ltb_spec 0 (n / 10)) as [E|E].
    + rewrite IH by (done || lia). done.
    + pose proof (Z.div_str_pos n 10). lia.
Qed.

Lemma write_array_number k n :
  decimals k n -> (n <= INT64_MAX)%Z ->
  elektraWriteArrayNumber n = "#"%char :: replicate k "_"%char ++ fixed (S k) n.
Proof.
  intros Hk Hn. pose proof (decimals_max _ _ Hk Hn). unfold elektraWriteArrayNumber.
  rewrite (underscores_replicate k), (decimal_fixed k), app_nil_r by (done || lia). done.
Qed.

Lemma length_fixed k n : length (fixed k n) = k.
Proof. revert n. induction k as [|k IH]; intros n; simpl; [done|]. rewrite length_app, IH. simpl. lia. Qed.

Lemma uchar_digit n : (0 <= n < 10)%Z -> uchar (digit n) = (48 + n)%Z.
Proof. intros Hn. apply uchar_ascii. lia. Qed.

Lemma isdigit_digit n : (0 <= n < 10)%Z -> isdigit (digit n) = true.
Proof. intros Hn. unfold isdigit. rewrite uchar_digit by done. lia. Qed.

Lemma fixed_digits k n : Forall (fun c => isdigit c = true) (fixed k n).
Proof.
  revert n. induction k as [|k IH]; intros n; simpl; [constructor|].
  apply Forall_app. split; [apply IH|]. constructor; [|done].
  apply isdigit_digit, Z.mod_pos_bound. lia.
Qed.

(** ** Validation and reading *)

Definition starts_not (p : ascii -> bool) (t : cstr) : Prop :=
  match t with c :: _ => p c = false | [] => True end.

Lemma count_while_app p ds t :
  Forall (fun c => p c = true) ds -> starts_not p t -> count_while p (ds ++ t) = (length ds, t).
Proof.
  intros Hds Ht. induction Hds as [|c ds Hc Hds IH]; simpl.
  - destruct t as [|c t]; simpl in *; [done|by rewrite Ht].
  - by rewrite Hc, IH.
Qed.

Lemma count_while_inv p s n t :
  count_while p s = (n, t) ->
  exists ds, s = ds ++ t /\ length ds = n /\ Forall (fun c => p c = true) ds /\ starts_not p t.
Proof.
  revert n t. induction s as [|c s IH]; intros n t; simpl.
  - intros [= <- <-]. by exists [].
  - destruct (p c) eqn:Ec.
    + destruct (count_while p s) as [m u] eqn:E. intros [= <- <-].
      destruct (IH _ _ eq_refl) as (ds & -> & <- & ? & ?). exists (c :: ds). by split_and!; [| |constructor|].
    + intros [= <- <-]. by exists [].
Qed.

Lemma underscores_are us : Forall (fun c => is_underscore c = true) us -> us = replicate (length us) "_"%char.
Proof.
  induction 1 as [|c us Hc _ IH]; [done|]. simpl. apply bool_decide_eq_true in Hc. by rewrite Hc, <- IH.
Qed.

Lemma replicate_underscores k : Forall (fun c => is_underscore c = true) (replicate k "_"%char).
Proof. induction k; by constructor. Qed.

Lemma array_syntax_digits k digits rest :
  length digits = S k -> Forall (fun c => isdigit c = true) digits -> starts_not isdigit rest ->
  array_syntax ("#"%char :: replicate k "_"%char ++ digits ++ rest) = if k <=? 9 then 1%Z else (-1)%Z.
Proof.
  intros Hlen Hd Hr. unfold array_syntax.
  assert (starts_not is_underscore (digits ++ rest)) as Hu.
  { destruct Hd as [|c ds Hc _]; [done|]. simpl. apply bool_decide_eq_false. by intros ->. }
  rewrite bool_decide_false.
  - rewrite bool_decide_true by done. cbn [tail].
    rewrite (count_while_app _ _ _ (replicate_underscores k) Hu), length_replicate.
    rewrite count_while_app, Hlen by done.
    replace (k + 1 =? S k) with true by (symmetry; apply Nat.eqb_eq; lia). cbn [negb].
    unfold ELEKTRA_MAX_ARRAY_SIZE. destruct (Nat.leb_spec k 9), (Nat.ltb_spec (21 - 2) (k + S k)); (done || lia).
  - destruct digits as [|c ds]; [done|]. inversion Hd as [|? ? Hc _]; subst. clear Hd Hu.
    simpl. assert (uchar c <> 0)%Z as Hc0.
    { unfold isdigit in Hc. lia. }
    destruct k; simpl; [done|]. done.
Qed.

Lemma array_syntax_inv s :
  array_syntax s = 1%Z ->
  exists k digits rest, s = "#"%char :: replicate k "_"%char ++ digits ++ rest /\
    length digits = S k /\ Forall (fun c => isdigit c = true) digits /\ starts_not isdigit rest /\ k <= 9.
Proof.
  unfold array_syntax. case_bool_decide; [done|]. case_bool_decide as Hs; [|done].
  destruct s as [|c s]; [done|]. simpl in Hs. subst c. cbn [tail].
  destruct (count_while is_underscore s) as [k s1] eqn:E1.
  destruct (count_while isdigit s1) as [d s2] eqn:E2.
  destruct (Nat.eqb_spec (k + 1) d) as [Hk|]; [|done]. cbn [negb].
  destruct (Nat.ltb_spec (ELEKTRA_MAX_ARRAY_SIZE - 2) (k + d)) as [|Hle]; [done|]. intros _.
  apply count_while_inv in E1 as (us & -> & Hus & Hu & _).
  apply count_while_inv in E2 as (ds & -> & Hds & Hd & Hr).
  exists k, ds, s2. apply underscores_are in Hu. rewrite <- Hus, <- Hu.
  unfold ELEKTRA_MAX_ARRAY_SIZE in Hle. split_and!; (done || lia).
Qed.

(** Which numbers make valid elements. *)
Lemma array_syntax_write n :
  (0 <= n <= INT64_MAX)%Z ->
  array_syntax (elektraWriteArrayNumber n) = if (n <? 10 ^ 10)%Z then 1%Z else (-1)%Z.
Proof.
  intros Hn. destruct (decimals_exist n) as [k Hk]; [lia|].
  rewrite (write_array_number k) by (done || lia). rewrite <- (app_nil_r (fixed (S k) n)).
  rewrite array_syntax_digits; [|apply length_fixed|apply fixed_digits|done].
  apply decimals_bound in Hk as [H1 H2].
  destruct (Nat.leb_spec k 9), (Z.ltb_spec n (10 ^ 10)); try done; exfalso.
  - assert (10 ^ (Z.of_nat k + 1) <= 10 ^ 10)%Z by (apply Z.pow_le_mono_r; lia). lia.
  - specialize (H2 ltac:(lia)).
    assert (10 ^ 10 <= 10 ^ Z.of_nat k)%Z by (apply Z.pow_le_mono_r; lia). lia.
Qed.

Lemma read_digits_app s c acc :
  Forall (fun c => isdigit c = true) s -> isdigit c = true ->
  read_digits (s ++ [c]) acc = (read_digits s acc * 10 + (uchar c - 48))%Z.
Proof.
  intros Hs Hc. revert acc. induction Hs as [|d s Hd Hs IH]; intros acc; simpl; [by rewrite Hc|].
  rewrite Hd. apply IH.
Qed.

Lemma read_digits_fixed k n : decimals k n -> read_digits (fixed (S k) n) 0 = n.
Proof.
  revert n. induction k as [|k IH]; intros n Hn; simpl decimals in Hn.
  - simpl. rewrite isdigit_digit by (apply Z.mod_pos_bound; lia).
    rewrite uchar_digit, Z.mod_small by (try apply Z.mod_pos_bound; lia). lia.
  - destruct Hn as [Hn Hk]. cbn [fixed] in *. rewrite read_digits_app.
    + rewrite IH by done. rewrite uchar_digit by (apply Z.mod_pos_bound; lia).
      pose proof (Z.div_mod n 10). lia.
    + apply (fixed_digits (S k)).
    + apply isdigit_digit, Z.mod_pos_bound. lia.
Qed.

Lemma fixed_head k n : exists c r, fixed (S k) n = c :: r /\ isdigit c = true.
Proof.
  pose proof (fixed_digits (S k) n) as Hd. pose proof (length_fixed (S k) n) as Hl.
  destruct (fixed (S k) n) as [|c r]; [done|]. inversion Hd; subst. eauto.
Qed.

(** The number is read back from behind the [#] and the underscores. *)
Lemma elektraReadArrayNumber_write n :
  (0 <= n <= INT64_MAX)%Z ->
  elektraReadArrayNumber (snd (count_while is_underscore (tail (elektraWriteArrayNumber n)))) = Some n.
Proof.
  intros Hn. destruct (decimals_exist n) as [k Hk]; [lia|].
  rewrite (write_array_number k) by (done || lia). cbn [tail].
  destruct (fixed_head k n) as (c & r & E & Hc).
  rewrite count_while_app; [|apply replicate_underscores|].
  2:{ rewrite E. apply bool_decide_eq_false. by intros ->. }
  cbn [snd]. unfold elektraReadArrayNumber, sscanf_ld.
  assert (isspace c = false /\ c <> "-"%char /\ c <> "+"%char) as (Hs & Hm & Hp).
  { split_and!; [|by intros ->..]. unfold isspace, isdigit in *. lia. }
  rewrite E. cbn [count_while]. rewrite Hs. cbn [snd].
  rewrite decide_False, decide_False by done. cbn [deref]. rewrite Hc, <- E, read_digits_fixed by done.
  destruct (Z.ltb_spec INT64_MAX n), (Z.ltb_spec n 0); (done || lia).
Qed.

(** A base name is accepted as an array element exactly when it is a [#], then
    one underscore less than there are digits, at most ten digits, and then
    anything that does not start with a digit. *)
Theorem array_syntax_accepts s :
  array_syntax s = 1%Z <->
  exists k digits rest, s = "#"%char :: replicate k "_"%char ++ digits ++ rest /\
    length digits = S k /\ Forall (fun c => isdigit c = true) digits /\ starts_not isdigit rest /\ k <= 9.
Proof.
  split; [apply array_syntax_inv|]. intros (k & ds & rest & -> & Hl & Hd & Hr & Hk).
  rewrite array_syntax_digits by done. by apply Nat.leb_le in Hk as ->.
Qed.

(** The number an element name was written with is read back from behind the
    [#] and the underscores, for every number of 64 bits. *)
Theorem array_number_roundtrip n :
  (0 <= n <= INT64_MAX)%Z ->
  elektraReadArrayNumber (snd (count_while is_underscore (tail (elektraWriteArrayNumber n)))) = Some n.
Proof. apply elektraReadArrayNumber_write. Qed.

(** ** The order of elements *)

Lemma name_order_app f a b a' b' :
  length a = length b ->
  name_order f (a ++ a') (b ++ b') =
    if (name_order f a b =? 0)%Z then name_order f a' b' else name_order f a b.
Proof.
  revert b. induction a as [|x a IH]; intros [|y b] Hl; try done. simpl in *.
  destruct (Z.eqb_spec (f x - f y) 0); [apply IH; lia|].
  destruct (Z.eqb_spec (f x - f y) 0); [lia|done].
Qed.

Lemma fixed_order k : forall n m,
  (0 <= n < 10 ^ Z.of_nat k)%Z -> (0 <= m < 10 ^ Z.of_nat k)%Z ->
  Z.sgn (uname_order (fixed k n) (fixed k m)) = Z.sgn (n - m).
Proof.
  induction k as [|k IH]; intros n m Hn Hm.
  - simpl in *. f_equal. lia.
  - assert (10 ^ Z.of_nat (S k) = 10 * 10 ^ Z.of_nat k)%Z as E
      by (rewrite <- Z.pow_succ_r by lia; f_equal; lia).
    cbn [fixed]. rewrite name_order_app by (by rewrite !length_fixed).
    pose proof (Z.div_mod n 10 ltac:(lia)). pose proof (Z.div_mod m 10 ltac:(lia)).
    pose proof (Z.mod_pos_bound n 10 ltac:(lia)). pose proof (Z.mod_pos_bound m 10 ltac:(lia)).
    assert (0 <= n / 10 < 10 ^ Z.of_nat k)%Z as Hn' by (split; [apply Z.div_pos; lia|apply Z.div_lt_upper_bound; lia]).
    assert (0 <= m / 10 < 10 ^ Z.of_nat k)%Z as Hm' by (split; [apply Z.div_pos; lia|apply Z.div_lt_upper_bound; lia]).
    specialize (IH _ _ Hn' Hm').
    destruct (Z.eqb_spec (uname_order (fixed k (n / 10)) (fixed k (m / 10))) 0) as [E0|E0].
    + rewrite E0 in IH. simpl. rewrite !uchar_digit by done.
      destruct (Z.eqb_spec (48 + n mod 10 - (48 + m mod 10)) 0); simpl; lia.
    + lia.
Qed.

(** A longer number has more underscores, and [_] is greater than digits. *)
Lemma fewer_underscores k j c s r :
  k < j -> isdigit c = true ->
  (uname_order (replicate k "_"%char ++ c :: s) (replicate j "_"%char ++ r) < 0)%Z.
Proof.
  intros Hlt Hc. revert j Hlt. induction k as [|k IH]; intros [|j] Hlt; try lia; simpl.
  - change (uchar "_"%char) with 95%Z. unfold isdigit in Hc.
    destruct (Z.eqb_spec (uchar c - 95) 0); lia.
  - apply IH. lia.
Qed.

Lemma write_order_lt n m t :
  (0 <= n < m)%Z -> (m <= INT64_MAX)%Z ->
  (uname_order (elektraWriteArrayNumber n ++ t) (elektraWriteArrayNumber m ++ t) < 0)%Z.
Proof.
  intros Hn Hm. destruct (decimals_exist n) as [k Hk]; [lia|].
  destruct (decimals_exist m) as [j Hj]; [lia|].
  rewrite (write_array_number k), (write_array_number j) by (done || lia).
  cbn [app name_order]. rewrite Z.sub_diag. cbn [Z.eqb]. rewrite <- !app_assoc.
  destruct (Nat.lt_total k j) as [Hlt|[<-|Hlt]].
  - destruct (fixed_head k n) as (c & s & -> & Hc). by apply fewer_underscores.
  - rewrite name_order_app, name_order_refl by done. cbn [Z.eqb].
    rewrite name_order_app by (by rewrite !length_fixed).
    apply decimals_bound in Hk as [Hk _], Hj as [Hj _].
    pose proof (fixed_order (S k) n m) as Ho.
    replace (Z.of_nat (S k)) with (Z.of_nat k + 1)%Z in Ho by lia. specialize (Ho Hk Hj).
    destruct (Z.eqb_spec (uname_order (fixed (S k) n) (fixed (S k) m)) 0); lia.
  - pose proof (decimals_lt _ _ _ _ Hj Hk Hlt). lia.
Qed.

(** The elements of one array sort like their numbers: [u] is the unescaped
    name of the array, with which the unescaped names of its elements start. *)
Theorem array_names_sorted u n m :
  (0 <= n <= INT64_MAX)%Z -> (0 <= m <= INT64_MAX)%Z ->
  Z.sgn (compare_names memcmp (u ++ elektraWriteArrayNumber n ++ [NUL])
           (u ++ elektraWriteArrayNumber m ++ [NUL])) = Z.sgn (n - m).
Proof.
  intros Hn Hm. rewrite compare_names_memcmp, name_order_app, name_order_refl by done. cbn [Z.eqb].
  destruct (Z.lt_total n m) as [H|[<-|H]].
  - pose proof (write_order_lt n m [NUL] ltac:(lia) ltac:(lia)). lia.
  - rewrite name_order_refl. lia.
  - pose proof (write_order_lt m n [NUL] ltac:(lia) ltac:(lia)) as Ho.
    apply name_order_antisym in Ho. lia.
Qed.

(** ** The buffer of elektraArrayIncName *)

Lemma array_buffer_fits n :
  (0 <= n <= INT64_MAX)%Z ->
  length (elektraWriteArrayNumber n) + 1 <= ELEKTRA_MAX_ARRAY_SIZE <-> (n < 10 ^ 10)%Z.
Proof.
  intros Hn. destruct (decimals_exist n) as [k Hk]; [lia|].
  rewrite (write_array_number k) by (done || lia). cbn [length].
  rewrite length_app, length_replicate, length_fixed. unfold ELEKTRA_MAX_ARRAY_SIZE.
  apply decimals_bound in Hk as [H1 H2]. split; intros H.
  - assert (10 ^ (Z.of_nat k + 1) <= 10 ^ 10)%Z by (apply Z.pow_le_mono_r; lia). lia.
  - destruct (decide (k <= 9)); [lia|]. specialize (H2 ltac:(lia)).
    assert (10 ^ 10 <= 10 ^ Z.of_nat k)%Z by (apply Z.pow_le_mono_r; lia). lia.
Qed.

Lemma elektraArrayIncName_spec {R : Rec} K S l k name base :
  K !! l = Some k -> k_key k = Some name -> base_of (keySize k) (keyUSize k) (k_uname k) = base ->
  (base = lit "#" ->
     elektraArrayIncName (Some l) (mkHeap K S) =
     bindM (keySetBaseName (Some l) (Some (lit "#0"))) (fun _ => ret 0%Z) (mkHeap K S)) /\
  (forall n, (0 <= n <= INT64_MAX)%Z -> base = elektraWriteArrayNumber n ->
     elektraArrayIncName (Some l) (mkHeap K S) =
       if (n <? 10 ^ 10 - 1)%Z then
         bindM (keySetBaseName (Some l) (Some (elektraWriteArrayNumber (n + 1)))) (fun _ => ret 0%Z)
           (mkHeap K S)
       else if (n =? 10 ^ 10 - 1)%Z then Undefined
       else Ret (-1)%Z (mkHeap K S)).
Proof.
  intros Hk Hn Hb.
  assert (forall (f : option cstr -> M Z),
    bindM (keyBaseName (Some l)) f (mkHeap K S) = f (Some base) (mkHeap K S)) as Hbase.
  { intros f. unfold keyBaseName, bindM, get_key. cbn [h_keys]. rewrite Hk. cbn iota. by rewrite Hn, Hb. }
  assert (forall (f : Z -> M Z), bindM (elektraArrayValidateName (Some l)) f (mkHeap K S) =
                                  f (array_syntax base) (mkHeap K S)) as Hval.
  { intros f. unfold bindM at 1. unfold elektraArrayValidateName. rewrite Hbase. done. }
  unfold elektraArrayIncName. rewrite Hbase, Hval. split.
  - intros ->. done.
  - intros n Hr ->. rewrite array_syntax_write by done. unfold id. cbn [default from_option].
    destruct (Z.ltb_spec n (10 ^ 10)%Z) as [H1|H1].
    + change (1 =? -1)%Z with false. cbn iota zeta. rewrite elektraReadArrayNumber_write by done.
      change (1 =? 0)%Z with false. cbn iota.
      destruct (Z.leb_spec INT64_MAX n) as [H2|H2]; [unfold INT64_MAX in *; lia|].
      pose proof (array_buffer_fits (n + 1) ltac:(lia)) as Hfit.
      destruct (Nat.ltb_spec ELEKTRA_MAX_ARRAY_SIZE (length (elektraWriteArrayNumber (n + 1)) + 1)),
        (Z.ltb_spec n (10 ^ 10 - 1)%Z); try done; try (exfalso; lia).
      destruct (Z.eqb_spec n (10 ^ 10 - 1)%Z); [done|lia].
    + change (-1 =? -1)%Z with true. cbn iota.
      destruct (Z.ltb_spec n (10 ^ 10 - 1)%Z); [lia|]. destruct (Z.eqb_spec n (10 ^ 10 - 1)%Z); [lia|]. done.
Qed.

(** C40.  [elektraArrayIncName] on the element with the number [n]: the next number
    is set, unless it does not fit into the buffer; larger numbers are not
    valid.  The start element [#] becomes [#0]. *)
Theorem elektraArrayIncName_next {R : Rec} K S l k name base :
  K !! l = Some k -> k_key k = Some name -> base_of (keySize k) (keyUSize k) (k_uname k) = base ->
  (base = lit "#" ->
     elektraArrayIncName (Some l) (mkHeap K S) =
     bindM (keySetBaseName (Some l) (Some (lit "#0"))) (fun _ => ret 0%Z) (mkHeap K S)) /\
  (forall n, (0 <= n <= INT64_MAX)%Z -> base = elektraWriteArrayNumber n ->
     elektraArrayIncName (Some l) (mkHeap K S) =
       if (n <? 10 ^ 10 - 1)%Z then
         bindM (keySetBaseName (Some l) (Some (elektraWriteArrayNumber (n + 1)))) (fun _ => ret 0%Z)
           (mkHeap K S)
       else if (n =? 10 ^ 10 - 1)%Z then Undefined
       else Ret (-1)%Z (mkHeap K S)).
Proof. apply elektraArrayIncName_spec. Qed.
