(* ===== verification/Stdio.v ===== *)
(** * Stdio: streams that are read

    A file that is open for reading is its bytes, the position of the stream and the
    indicator of its end, as the C library has them: reading behind the last byte
    reads nothing and sets the indicator. *)
From S2P Require Export Prelude.

Definition NEWLINE : ascii := ascii_of_nat 10.

Record stream := mkStream { st_data : list ascii; st_pos : nat; st_eof : bool }.

(** [fopen]: the bytes of the file, from the start. *)
Definition st_open (data : list ascii) : stream := mkStream data 0 false.

(** What has not been read. *)
Definition st_rest (s : stream) : list ascii := drop (st_pos s) (st_data s).

Definition st_skip (n : nat) (s : stream) : stream := mkStream (st_data s) (st_pos s + n) (st_eof s).
Definition st_ended (s : stream) : stream := mkStream (st_data s) (st_pos s) true.

(** [fgetc], and [fread] of one byte. *)
Definition fgetc (s : stream) : option ascii * stream :=
  match st_rest s with
  | [] => (None, st_ended s)
  | c :: _ => (Some c, st_skip 1 s)
  end.

(** [fseek] from the start. *)
Definition fseek (s : stream) (pos : nat) : stream := mkStream (st_data s) pos false.

(** The bytes up to and with the next newline, or all. *)
Fixpoint first_line (r : list ascii) : list ascii :=
  match r with
  | [] => []
  | c :: r => if decide (c = NEWLINE) then [c] else c :: first_line r
  end.

Definition ends_line (l : list ascii) : bool := bool_decide (last l = Some NEWLINE).

(** [getline]: [None] is the result -1. *)
Definition getline (s : stream) : option (list ascii) * stream :=
  match first_line (st_rest s) with
  | [] => (None, st_ended s)
  | l => (Some l, let s := st_skip (length l) s in if ends_line l then s else st_ended s)
  end.

(** [fgets] of at most [n - 1] bytes. *)
Definition fgets (n : nat) (s : stream) : option (list ascii) * stream :=
  match n with
  | 0 => (None, s)
  | 1 => (Some [], s)
  | S n =>
      let l := take n (first_line (st_rest s)) in
      match l with
      | [] => (None, st_ended s)
      | _ => (Some l, let s := st_skip (length l) s in if ends_line l || bool_decide (length l = n) then s else st_ended s)
      end
  end.

(** ** Reading *)

Lemma rest_open data : st_rest (st_open data) = data.
Proof. done. Qed.

Lemma rest_skip s l r : st_rest s = l ++ r -> st_rest (st_skip (length l) s) = r.
Proof. unfold st_rest, st_skip. simpl. intros H. by rewrite <- drop_drop, H, drop_app_length. Qed.

Lemma rest_ended s : st_rest (st_ended s) = st_rest s.
Proof. done. Qed.

Lemma fgetc_cons s c r : st_rest s = c :: r -> exists s', fgetc s = (Some c, s') /\ st_rest s' = r /\ st_eof s' = st_eof s.
Proof. intros H. unfold fgetc. rewrite H. eexists. split_and!; [done| |done]. by apply (rest_skip s [c]). Qed.

Lemma fgetc_nil s : st_rest s = [] -> exists s', fgetc s = (None, s') /\ st_rest s' = [] /\ st_eof s' = true.
Proof. intros H. unfold fgetc. rewrite H. by eexists. Qed.

Lemma first_line_break l r : NEWLINE ∉ l -> first_line (l ++ NEWLINE :: r) = l ++ [NEWLINE].
Proof.
  induction l as [|c l IH]; intros H; [done|]. apply not_elem_of_cons in H as [Hc H]. cbn [app first_line].
  rewrite decide_False by done. by rewrite IH.
Qed.

Lemma first_line_end l : NEWLINE ∉ l -> first_line l = l.
Proof.
  induction l as [|c l IH]; intros H; [done|]. apply not_elem_of_cons in H as [Hc H]. cbn [first_line].
  rewrite decide_False by done. by rewrite IH.
Qed.

Lemma getline_break s l r : st_rest s = l ++ NEWLINE :: r -> NEWLINE ∉ l ->
  exists s', getline s = (Some (l ++ [NEWLINE]), s') /\ st_rest s' = r /\ st_eof s' = st_eof s.
Proof.
  intros H Hl. unfold getline. rewrite H, first_line_break by done.
  assert (exists c t, l ++ [NEWLINE] = c :: t) as (c & t & E) by (destruct l; by eexists _, _). rewrite E, <- E.
  eexists. split_and!; [done|..]; unfold ends_line; rewrite last_snoc, bool_decide_true by done; [|done].
  apply rest_skip. by rewrite H, <- app_assoc.
Qed.

Lemma getline_end s : st_rest s = [] -> exists s', getline s = (None, s') /\ st_rest s' = [] /\ st_eof s' = true.
Proof. intros H. unfold getline. rewrite H. by eexists. Qed.
