(* ===== verification/Filter.v ===== *)
(** * Filter: plugins that change the values of keys

    What the plugins [base64], [ccode], [hexcode] and [null] share: the loop over
    the keys of a keyset, here with its invariant, and the decoding of
    hexadecimal digits. *)
From S2P Require Export Env KeySets MetaFacts.
#[local] Open Scope elektra_scope.

(** [while ((cur = ksNext (ks)) != 0) body], where [body] changes variables. *)
Fixpoint each_key {R : Rec} {A} (fuel : nat) (ks : ptr) (body : A -> loc -> M A) (a : A) : M A :=
  match fuel with
  | O => nofuel
  | S n =>
      cur <- ksNext ks;;
      match cur with
      | None => ret a
      | Some c => a <- body a c;; each_key n ks body a
      end
  end.

Definition for_each {R : Rec} {A} (ks : ptr) (body : A -> loc -> M A) (a : A) : M A :=
  ksRewind ks;; fuel <- ks_turns ks;; each_key fuel ks body a.

(** [I i] holds before the [i]th turn, wherever the cursor of the keyset is.  The body
    leaves the keyset alone. *)
Section Loop.
Context {R : Rec} {A : Type} (body : A -> loc -> M A) (l : loc) (ls : list loc).
Context (I : nat -> A -> gmap loc Key -> gmap loc KeySet -> Prop).
Hypothesis Hcursor : forall i a K S s c j, S !! l = Some s -> I i a K S -> I i a K (<[l := ks_with_cursor s c j]> S).
Hypothesis Hbody : forall i x a K S, ls !! i = Some x -> I i a K S ->
  wp (body a x) (fun a' h => I (Datatypes.S i) a' (h_keys h) (h_sets h) /\ h_sets h !! l = S !! l) (mkHeap K S).

Definition looped (a : A) (h : heap) : Prop :=
  I (length ls) a (h_keys h) (h_sets h) /\ exists s', h_sets h !! l = Some s' /\ ks_rep s' ls.

Lemma each_key_loop fuel K S s a i :
  S !! l = Some s -> ks_rep s ls -> before s i -> i <= length ls -> length ls - i < fuel -> I i a K S ->
  wp (each_key fuel (Some l) body a) looped (mkHeap K S).
Proof.
  revert K S s a i. induction fuel as [|fuel IH]; intros K S s a i Hs Hrep Hb Hi Hf HI; [lia|].
  pose proof (before_next _ _ Hb) as [Hnx Hcu]. cbn [each_key]. apply wp_bind.
  eapply ksNext_spec; [done|done| | |].
  { unfold cursor_ok. rewrite (rep_size _ _ Hrep). lia. }
  - intros Hc. assert (after_next s ls = ks_with_cursor s (ls !! i) i) as E.
    { unfold after_next. rewrite Hnx. by assert ((length ls <=? ks_current s) = false) as -> by (apply Nat.leb_gt; lia). }
    rewrite Hnx, E. destruct (ls !! i) as [x|] eqn:Hx.
    + apply lookup_lt_Some in Hx as Hlt.
      wcall (Hbody i x a); [done|by apply Hcursor|]. intros a' [K' S'] [HI' HS]. simpl in *. rewrite lookup_insert_eq in HS.
      eapply (IH K' S' _ a' (Datatypes.S i)); [done|by apply ks_rep_cursor|done|lia|lia|done].
    + apply lookup_ge_None in Hx. assert (i = length ls) as -> by lia. wsteps. split; [by apply Hcursor|].
      eexists. split; [apply lookup_insert_eq|]. by apply ks_rep_cursor.
  - intros Hc. wsteps. assert (i = length ls) as -> by lia. split; [done|]. by exists s.
Qed.

Lemma for_each_loop K S s a :
  S !! l = Some s -> ks_rep s ls -> I 0 a K S -> wp (for_each (Some l) body a) looped (mkHeap K S).
Proof.
  intros Hs Hrep HI. unfold for_each. apply wp_bind. eapply ksRewind_spec; [done|]. unfold ks_turns. do 2 wstep.
  cbn [ks_size ks_with_cursor]. rewrite (rep_size _ _ Hrep). wstep.
  eapply (each_key_loop _ _ _ _ a 0); [apply lookup_insert_eq|by apply ks_rep_cursor|done|lia|lia|by apply Hcursor].
Qed.
End Loop.

(** The body may change keys only. *)
Section ForEach.
Context {R : Rec} {A : Type} (body : A -> loc -> M A) (l : loc) (ls : list loc).
Context (I : nat -> A -> gmap loc Key -> Prop).
Hypothesis Hbody : forall i x a K S, ls !! i = Some x -> I i a K ->
  wp (body a x) (fun a' h => I (Datatypes.S i) a' (h_keys h) /\ h_sets h = S) (mkHeap K S).

Definition iterated (S : gmap loc KeySet) (a : A) (h : heap) : Prop :=
  I (length ls) a (h_keys h) /\ delete l (h_sets h) = delete l S /\
  exists s', h_sets h !! l = Some s' /\ ks_rep s' ls.

Lemma for_each_spec K S s a :
  S !! l = Some s -> ks_rep s ls -> I 0 a K -> wp (for_each (Some l) body a) (iterated S) (mkHeap K S).
Proof.
  intros Hs Hrep HI.
  eapply wp_mono; [eapply (for_each_loop body l ls (fun i a K' S' => I i a K' /\ delete l S' = delete l S)); [| |done..]|].
  - intros i b K1 S1 s1 c j _ [H1 H2]. split; [done|]. by rewrite delete_insert_eq.
  - intros i x b K1 S1 Hx [H1 H2]. eapply wp_mono; [by eapply Hbody|]. intros b' h [H3 H4]. by rewrite H4.
  - intros b h [[H1 H2] H3]. done.
Qed.
End ForEach.

(** ** Recoding string values *)

Definition same_but_value (k k' : Key) : Prop :=
  k' = set_flags (set_data k (k_data k')) (k_flags k') /\
  (k_flags k' = k_flags k \/ k_flags k' = set_bit (k_flags k) KEY_FLAG_SYNC).

Definition recode (k : Key) (v : list ascii) : Key :=
  set_flags (set_data k (Some (v ++ [NUL]))) (set_bit (k_flags k) KEY_FLAG_SYNC).

(** The key [x] has the bytes [v] and a NUL as its value, which may be changed. *)
Definition has_value (K : gmap loc Key) (x : loc) (v : list ascii) : Prop :=
  exists k, K !! x = Some k /\ k_data k = Some (v ++ [NUL]) /\ test_bit (k_flags k) KEY_FLAG_RO_VALUE = false.

Lemma same_but_value_refl k : same_but_value k k.
Proof. split; [by destruct k|by left]. Qed.

Lemma same_but_value_recode k k' v : same_but_value k k' -> same_but_value k (recode k' v).
Proof.
  intros [E F]. split.
  - unfold recode. simpl. rewrite E. by destruct k.
  - right. unfold recode, set_bit. simpl. destruct F as [->| ->]; [done|]. unfold set_bit. by rewrite <- Z.lor_assoc, Z.lor_diag.
Qed.

Section Recode.
Context {R : Rec} {A : Type} (body : A -> loc -> M A) (ok : A -> Prop) (f : list ascii -> list ascii) (P : list ascii -> Prop).
Hypothesis Hbody : forall a x k v K S,
  K !! x = Some k -> k_data k = Some (v ++ [NUL]) -> test_bit (k_flags k) KEY_FLAG_RO_VALUE = false -> ok a -> P v ->
  wp (body a x) (fun a' h => h = mkHeap (<[x := recode k (f v)]> K) S /\ ok a') (mkHeap K S).

(** The first [i] keys have their new values. *)
Definition recoded (K : gmap loc Key) (ls : list loc) (vs : list (list ascii)) (i : nat) (a : A) (K' : gmap loc Key) : Prop :=
  ok a /\ Forall2 (has_value K') ls (map f (take i vs) ++ drop i vs) /\
  (forall y, y ∉ ls -> K' !! y = K !! y) /\
  (forall y k, K !! y = Some k -> exists k', K' !! y = Some k' /\ same_but_value k k').

Lemma lookup_recoded vs i j :
  (map f (take i vs) ++ drop i vs) !! j = if decide (j < i) then f <$> vs !! j else vs !! j.
Proof.
  destruct (decide (j < i)) as [Hj|Hj].
  - destruct (decide (j < length vs)).
    + rewrite lookup_app_l by (rewrite length_map, length_take; lia). rewrite list_lookup_fmap, lookup_take_lt by lia. done.
    + rewrite (lookup_ge_None_2 vs j) by lia. apply lookup_ge_None_2.
      rewrite length_app, length_map, length_take, length_drop. lia.
  - destruct (decide (i <= length vs)).
    + rewrite lookup_app_r by (rewrite length_map, length_take; lia). rewrite lookup_drop, length_map, length_take. f_equal. lia.
    + rewrite (lookup_ge_None_2 vs j) by lia. apply lookup_ge_None_2.
      rewrite length_app, length_map, length_take, length_drop. lia.
Qed.

Lemma recode_pass K S l s ls vs a :
  S !! l = Some s -> ks_rep s ls -> NoDup ls -> Forall2 (has_value K) ls vs -> Forall P vs -> ok a ->
  wp (for_each (Some l) body a)
    (fun a' h => recoded K ls vs (length vs) a' (h_keys h) /\ delete l (h_sets h) = delete l S /\
                 exists s', h_sets h !! l = Some s' /\ ks_rep s' ls) (mkHeap K S).
Proof.
  intros Hs Hrep Hnd Hvs HP Ha. pose proof (Forall2_length _ _ _ Hvs) as Hlen. rewrite <- Hlen.
  apply (for_each_spec body l ls (recoded K ls vs)) with (s := s); [|done|done|].
  - intros i x b K1 S1 Hx (Hb & HF & Hother & Hsame).
    destruct (lookup_lt_is_Some_2 vs i) as [v Hv]; [rewrite <- Hlen; by eapply lookup_lt_Some|].
    destruct (Forall2_lookup_lr _ _ _ i x v HF Hx) as (k & Hk & Hd & Hro).
    { rewrite lookup_recoded. by rewrite decide_False by lia. }
    eapply wp_mono; [eapply Hbody; try done; by eapply Forall_lookup_1|].
    intros b' h [-> Hb']. simpl. split; [|done]. split_and!; [done| | |].
    + apply Forall2_same_length_lookup. split.
      { rewrite length_app, length_map, length_take, length_drop, Hlen. lia. }
      intros j y w Hy Hw. rewrite lookup_recoded in Hw. destruct (decide (j = i)) as [->|Hji].
      * rewrite decide_True, Hv in Hw by lia. injection Hw as <-. assert (y = x) as -> by congruence.
        eexists. split_and!; [apply lookup_insert_eq|done|]. simpl. by rewrite test_set_bit_other.
      * assert (x <> y) as Hxy by (intros <-; apply Hji, (NoDup_lookup ls j i x); done).
        destruct (Forall2_lookup_lr _ _ _ j y w HF Hy) as (k' & Hk' & ?).
        { rewrite lookup_recoded, <- Hw. destruct (decide (j < i)), (decide (j < Datatypes.S i)); done || lia. }
        exists k'. by rewrite lookup_insert_ne.
    + intros y Hy. rewrite lookup_insert_ne; [by apply Hother|]. intros ->. apply Hy. by eapply list_elem_of_lookup_2.
    + intros y k0 Hy. destruct (Hsame y k0 Hy) as (k1 & Hk1 & Hsb). destruct (decide (x = y)) as [<-|].
      * assert (k1 = k) as -> by congruence. eexists. split; [apply lookup_insert_eq|]. by apply same_but_value_recode.
      * exists k1. by rewrite lookup_insert_ne.
  - split_and!; [done..|]. intros y k Hy. exists k. split; [done|apply same_but_value_refl].
Qed.
End Recode.

Lemma same_but_value_trans k1 k2 k3 : same_but_value k1 k2 -> same_but_value k2 k3 -> same_but_value k1 k3.
Proof.
  intros [E1 F1] [E2 F2]. split.
  - rewrite E2, E1. by destruct k1.
  - destruct F2 as [->| ->]; [done|]. right. destruct F1 as [->| ->]; [done|]. unfold set_bit. by rewrite <- Z.lor_assoc, Z.lor_diag.
Qed.

(** The keys [ls] have the values [vs]; nothing else but values changed. *)
Definition revalued (K : gmap loc Key) (ls : list loc) (vs : list (list ascii)) (K' : gmap loc Key) : Prop :=
  Forall2 (has_value K') ls vs /\
  (forall y, y ∉ ls -> K' !! y = K !! y) /\
  (forall y k, K !! y = Some k -> exists k', K' !! y = Some k' /\ same_but_value k k').

Lemma recoded_all {A} (ok : A -> Prop) f K ls vs a K' :
  recoded ok f K ls vs (length vs) a K' -> ok a /\ revalued K ls (map f vs) K'.
Proof. intros (Ha & HF & H). rewrite firstn_all, drop_all, app_nil_r in HF. by split. Qed.

Lemma revalued_trans K1 K2 K3 ls vs ws : revalued K1 ls vs K2 -> revalued K2 ls ws K3 -> revalued K1 ls ws K3.
Proof.
  intros (_ & Ho1 & Hs1) (HF & Ho2 & Hs2). split_and!; [done| |].
  - intros y Hy. by rewrite Ho2, Ho1.
  - intros y k Hy. destruct (Hs1 y k Hy) as (k1 & Hk1 & ?). destruct (Hs2 y k1 Hk1) as (k2 & Hk2 & ?).
    exists k2. split; [done|]. by eapply same_but_value_trans.
Qed.

Lemma revalued_name K ls vs K' y k : revalued K ls vs K' -> K !! y = Some k -> exists k', K' !! y = Some k' /\ k_key k' = k_key k.
Proof. intros (_ & _ & H) Hy. destruct (H y k Hy) as (k' & Hk' & [Ek _]). exists k'. split; [done|]. by rewrite Ek. Qed.

Lemma map_inverse {A B} (f : A -> B) (g : B -> A) l : (forall x, g (f x) = x) -> map g (map f l) = l.
Proof. intros H. rewrite map_map. erewrite map_ext; [apply map_id|done]. Qed.

(** [m] returns 1 and data [ok] holds of, and gives the keys of the keyset [l]
    the values [ws] for [vs]. *)
Definition recodes {D} (m : M (Z * D)) (ok : D -> Prop) (l : loc) (ls : list loc) (vs ws : list (list ascii))
    (K : gmap loc Key) (S : gmap loc KeySet) : Prop :=
  forall s, S !! l = Some s -> ks_rep s ls -> NoDup ls -> Forall2 (has_value K) ls vs ->
  wp m (fun r h => fst r = 1%Z /\ ok (snd r) /\ revalued K ls ws (h_keys h) /\ delete l (h_sets h) = delete l S /\
          exists s', h_sets h !! l = Some s' /\ ks_rep s' ls) (mkHeap K S).

Lemma recode_pass_recodes {R : Rec} {D} (body : D -> loc -> M D) (ok : D -> Prop) f (P : list ascii -> Prop) l ls vs a K S :
  (forall a x k v K S, K !! x = Some k -> k_data k = Some (v ++ [NUL]) -> test_bit (k_flags k) KEY_FLAG_RO_VALUE = false ->
     ok a -> P v -> wp (body a x) (fun a' h => h = mkHeap (<[x := recode k (f v)]> K) S /\ ok a') (mkHeap K S)) ->
  Forall P vs -> ok a -> recodes (d <- for_each (Some l) body a;; ret (1%Z, d)) ok l ls vs (map f vs) K S.
Proof.
  intros Hbody HP Ha s Hs Hrep Hnd Hvs. apply wp_bind. eapply wp_mono; [by eapply (recode_pass body ok f P)|].
  intros d h (Hr & HS & Hs'). apply recoded_all in Hr as [Hd Hr]. by apply wp_ret.
Qed.

(** Storing with [set] and reading with [get] gives the values back. *)
Lemma recodes_roundtrip {D} (set : M (Z * D)) (get : D -> M (Z * D)) ok l ls vs ws K S s :
  S !! l = Some s -> ks_rep s ls -> NoDup ls -> Forall2 (has_value K) ls vs ->
  recodes set ok l ls vs ws K S ->
  (forall d K1 S1, ok d -> revalued K ls ws K1 -> recodes (get d) ok l ls ws vs K1 S1) ->
  wp (r1 <- set;; r2 <- get (snd r1);; ret (fst r1, fst r2))
     (fun r h => r = (1, 1)%Z /\ revalued K ls vs (h_keys h) /\ delete l (h_sets h) = delete l S) (mkHeap K S).
Proof.
  intros Hs Hrep Hnd Hvs Hset Hget. apply wp_bind. eapply wp_mono; [by eapply Hset|].
  intros [r1 d1] [K1 S1] (Hr1 & Hd1 & Hv1 & HS1 & s1 & Hs1 & Hrep1). simpl in *.
  apply wp_bind. eapply wp_mono; [eapply (Hget d1 K1 S1); [done..|apply Hv1]|].
  intros [r2 d2] h (Hr2 & _ & Hv2 & HS2 & _). simpl in *. subst. apply wp_ret.
  split_and!; [done|by eapply revalued_trans|congruence].
Qed.

(** ** Hexadecimal digits *)

Definition byte (z : Z) : ascii := ascii_of_N (Z.to_N (z mod 256)).

Lemma uchar_byte z : uchar (byte z) = (z mod 256)%Z.
Proof. apply uchar_ascii, Z.mod_pos_bound. lia. Qed.

Lemma byte_uchar c : byte (uchar c) = c.
Proof. apply uchar_inj. rewrite uchar_byte. apply Z.mod_small, uchar_range. Qed.

Definition elektraHexcodeConvFromHex (c : ascii) : Z :=
  let u := uchar c in
  if ((48 <=? u) && (u <=? 57))%Z then (u - 48)%Z
  else if ((97 <=? u) && (u <=? 102))%Z then (u - 87)%Z
  else if ((65 <=? u) && (u <=? 70))%Z then (u - 55)%Z
  else 0%Z (* Unknown escape char *).

Definition elektraHexcodeConvToHex (c : Z) : ascii :=
  if ((0 <=? c) && (c <=? 9))%Z then byte (48 + c)
  else if ((10 <=? c) && (c <=? 15))%Z then byte (55 + c)
  else "0"%char.

Lemma convFromHex_ToHex c : (0 <= c < 16)%Z -> elektraHexcodeConvFromHex (elektraHexcodeConvToHex c) = c.
Proof.
  intros Hc. assert (c = Z.of_nat (Z.to_nat c)) as -> by lia. assert (Z.to_nat c < 16) as H by lia. clear Hc.
  revert H. generalize (Z.to_nat c). intros n Hn. do 16 (destruct n as [|n]; [reflexivity|]). lia.
Qed.

(** ** What the plugins share *)

(** [qsort] of an array; the order of elements that compare equal, which C leaves open, is that
    of the array. *)
Fixpoint sort_insert (cmp : ptr -> ptr -> M Z) (x : loc) (l : list loc) : M (list loc) :=
  match l with
  | [] => ret [x]
  | y :: r => c <- cmp (Some x) (Some y);; if (c <=? 0)%Z then ret (x :: l) else r <- sort_insert cmp x r;; ret (y :: r)
  end.
Fixpoint sort_array (cmp : ptr -> ptr -> M Z) (l : list loc) : M (list loc) :=
  match l with [] => ret [] | x :: r => r <- sort_array cmp r;; sort_insert cmp x r end.

Section Shared.
Context {E : Env}.

Definition is_named (parentKey : ptr) (name : string) : M bool :=
  n <- keyName parentKey;;
  match n with None => undefined | Some n => ret (bool_decide (strcmp n (lit name) = 0%Z)) end.

(** [s[i]] of a C string. *)
Definition char_at (s : cstr) (i : nat) : M ascii :=
  match (s ++ [NUL]) !! i with Some c => ret c | None => undefined end.

(** The byte two hexadecimal digits stand for. *)
Definition hex_byte (s : cstr) : M ascii :=
  c1 <- char_at s 1;;
  c0 <- char_at s 0;;
  ret (byte (elektraHexcodeConvFromHex c1 + elektraHexcodeConvFromHex c0 * 16)).

(** The key [/escape] of the configuration, a backslash without it. *)
Definition escape_of (config : ptr) : M ascii :=
  key <- env_ksLookupByName config (Some (lit "/escape")) 0;;
  match key with
  | None => ret BSLASH
  | Some _ =>
      n <- keyGetBaseNameSize key;;
      size <- keyGetValueSize key;;
      if negb (n =? 0)%Z && (size =? 3)%Z then s <- keyString key;; hex_byte s else ret BSLASH
  end.

(** [buf[out] = 0; keySetRaw (cur, buf, out + 1)]: what was written must fit. *)
Definition write_back (cur : loc) (bufalloc : nat) (out : list ascii) : M unit :=
  if bufalloc <? length out + 1 then undefined
  else keySetRaw (Some cur) (Some (out ++ [NUL])) (length out + 1);; ret tt.

Lemma write_back_spec cur n out K S k (Q : unit -> heap -> Prop) :
  K !! cur = Some k -> test_bit (k_flags k) KEY_FLAG_RO_VALUE = false -> length out + 1 <= n ->
  Q tt (mkHeap (<[cur := recode k out]> K) S) -> wp (write_back cur n out) Q (mkHeap K S).
Proof.
  intros Hk Hro Hn HQ. unfold write_back. destruct (Nat.ltb_spec n (length out + 1)); [lia|].
  unfold keySetRaw. wstep. wstep. rewrite Hro. destruct (Nat.eqb_spec (length out + 1) 0); [lia|].
  destruct (Nat.ltb_spec (length (out ++ [NUL])) (length out + 1)) as [Hlt|_]; [rewrite length_app in Hlt; simpl in Hlt; lia|].
  wstep. wstep. rewrite (take_ge (out ++ [NUL])) by (rewrite length_app; simpl; lia).
  unfold keyGetValueSize. wsteps. cbn [k_data set_flags set_data]. by wsteps.
Qed.

Lemma get_value_spec {B} cur K S k d (f : option (list ascii) -> M B) (Q : B -> heap -> Prop) :
  K !! cur = Some k -> k_data k = Some d ->
  wp (f (Some d)) Q (mkHeap K S) ->
  wp (val <- keyValue (Some cur);; f val) Q (mkHeap K S).
Proof. intros Hk Hd HQ. unfold keyValue. wstep. wstep. rewrite Hd. by wsteps. Qed.

Lemma get_size_spec {B} cur K S k d (f : Z -> M B) (Q : B -> heap -> Prop) :
  K !! cur = Some k -> k_data k = Some d ->
  wp (f (Z.of_nat (length d))) Q (mkHeap K S) -> wp (size <- keyGetValueSize (Some cur);; f size) Q (mkHeap K S).
Proof. intros Hk Hd HQ. unfold keyGetValueSize. wstep. wstep. rewrite Hd. by wsteps. Qed.

Lemma is_named_spec {B} l k n name (b : bool) K S (f : bool -> M B) (Q : B -> heap -> Prop) :
  K !! l = Some k -> k_key k = Some n -> bool_decide (strcmp n (lit name) = 0%Z) = b ->
  wp (f b) Q (mkHeap K S) -> wp (x <- is_named (Some l) name;; f x) Q (mkHeap K S).
Proof. intros Hk Hn Hb HQ. unfold is_named, keyName. do 3 wstep. rewrite Hn. wsteps. by rewrite Hb. Qed.

Lemma recodes_not_named {D} (m : bool -> M (Z * D)) pk k n name ok l ls vs ws K S :
  K !! pk = Some k -> k_key k = Some n -> bool_decide (strcmp n (lit name) = 0%Z) = false ->
  recodes (m false) ok l ls vs ws K S -> recodes (b <- is_named (Some pk) name;; m b) ok l ls vs ws K S.
Proof. intros Hk Hn Hb Hm s ????. eapply is_named_spec; [done..|]. by eapply Hm. Qed.
End Shared.
