(* ===== verification/Entries.v ===== *)
(** * Entries: keys as names, values and metadata

    What an application sees of a key is its name, its value and a finite map of
    metadata.  [world] says that the keys of a list stand for such entries and own
    their metadata, and that the rest of the heap is left alone; the operations on
    keys refine operations on entries.  Plugins are verified against it. *)
From S2P Require Export SetMeta Filter.
#[local] Open Scope elektra_scope.

Record entry := mkEntry {
  en_name : option cstr;
  en_data : option (list ascii);
  en_meta : gmap (list ascii) cstr
}.

(** The unescaped name of metadata. *)
Definition mu (nm : string) : list ascii := elektraUnescapeKeyName (lit nm).

Definition with_meta (e : entry) (u : list ascii) (v : option cstr) : entry :=
  mkEntry (en_name e) (en_data e) (partial_alter (fun _ => v) u (en_meta e)).
Definition with_data (e : entry) (d : option (list ascii)) : entry := mkEntry (en_name e) d (en_meta e).

Definition is_binary (e : entry) : bool := bool_decide (is_Some (en_meta e !! mu "binary")).

(** What [keyString] returns. *)
Definition string_of (e : entry) : option cstr :=
  match en_data e with
  | None => Some []
  | Some d => if is_binary e then Some (lit "(binary)") else cstr_of d
  end.

(** What [keySetString] does. *)
Definition with_string (e : entry) (s : cstr) : entry :=
  with_data (with_meta e (mu "binary") None) (match s with [] => None | _ => Some (s ++ [NUL]) end).

Lemma string_of_with_string e s : no_nul s -> string_of (with_string e s) = Some s.
Proof.
  intros Hs. unfold string_of, with_string, is_binary. simpl. destruct s as [|c s]; [done|].
  rewrite lookup_partial_alter_eq. simpl bool_decide. cbn iota. by apply cstr_of_app.
Qed.

(** ** The heap behind the entries *)

Definition represents (K : gmap loc Key) (S : gmap loc KeySet) (l : loc) (e : entry) (ms : list loc) : Prop :=
  exists k, K !! l = Some k /\ k_key k = en_name e /\ k_data k = en_data e /\
    test_bit (k_flags k) KEY_FLAG_RO_META = false /\ test_bit (k_flags k) KEY_FLAG_RO_VALUE = false /\
    metadata K S k ms (en_meta e).

(** The keys and keysets [FK] and [FS] are not part of the entries. *)
Record world (ls : list loc) (FK : gmap loc Key) (FS : gmap loc KeySet) (e : loc -> entry) (own : loc -> list loc)
    (K : gmap loc Key) (S : gmap loc KeySet) : Prop := {
  w_rep l : l ∈ ls -> represents K S l (e l) (own l);
  w_keys l l' : l ∈ ls -> l' ∈ ls -> l <> l' -> l' ∉ own l /\ forall x, x ∈ own l -> x ∉ own l';
  w_sets l l' k k' m : l ∈ ls -> l' ∈ ls -> l <> l' -> K !! l = Some k -> K !! l' = Some k' -> k_meta k = Some m -> k_meta k' <> Some m;
  w_frame y k : FK !! y = Some k -> K !! y = Some k /\ y ∉ ls /\ forall l, l ∈ ls -> y ∉ own l;
  w_others m s : FS !! m = Some s -> S !! m = Some s /\ forall l k, l ∈ ls -> K !! l = Some k -> k_meta k <> Some m
}.

Definition entries (ls : list loc) (FK : gmap loc Key) (FS : gmap loc KeySet) (e : loc -> entry)
    (K : gmap loc Key) (S : gmap loc KeySet) : Prop := exists own, world ls FK FS e own K S.

Definition upd {A} (f : loc -> A) (l : loc) (a : A) : loc -> A := fun x => if decide (x = l) then a else f x.

Lemma upd_eq {A} (f : loc -> A) l a : upd f l a l = a.
Proof. unfold upd. by rewrite decide_True. Qed.

Lemma upd_ne {A} (f : loc -> A) l l' a : l' <> l -> upd f l a l' = f l'.
Proof. intros H. unfold upd. by rewrite decide_False. Qed.

Lemma upd_id {A} (f : loc -> A) l : forall x, upd f l (f l) x = f x.
Proof. intros x. unfold upd. by case_decide; subst. Qed.

(** Metadata only depends on its own keys and keyset. *)
Lemma metadata_frame K S K' S' k ms vals :
  metadata K S k ms vals -> (forall x, x ∈ ms -> K' !! x = K !! x) -> (forall m, k_meta k = Some m -> S' !! m = S !! m) ->
  metadata K' S' k ms vals.
Proof.
  intros [Hset Hpl Hview] HK HS. split.
  - destruct (k_meta k) as [m|]; [|done]. destruct Hset as (s & Hs & Hrep & Hc & Hl & Hsort).
    apply (set_ok_keys K); [|exists s; rewrite HS by done; by split_and!].
    intros x Hx. unfold uname_of. rewrite HK by done. split; [|done]. unfold keys_live in Hl. rewrite Forall_forall in Hl. by apply Hl.
  - intros x Hx. unfold plain_key. rewrite HK by done. by apply Hpl.
  - intros u. rewrite (find_uname_keys K) by (intros x Hx; unfold uname_of; by rewrite HK).
    specialize (Hview u). pose proof (find_uname_spec K ms u) as Hsp. destruct (find_uname K ms u) as [x|]; [|done].
    destruct (vals !! u); [|done]. destruct Hsp as [Hx _]. unfold meta_cstr. by rewrite HK.
Qed.

Section World.
Context (ls : list loc) (FK : gmap loc Key) (FS : gmap loc KeySet).

(** One entry changes: the key [l], its metadata [ms] and their keyset. *)
Lemma world_step e own K S K' S' l k k' e' ms' :
  world ls FK FS e own K S -> l ∈ ls -> K !! l = Some k -> K' !! l = Some k' -> represents K' S' l e' ms' ->
  (forall y ky, y <> l -> y ∉ own l -> K !! y = Some ky -> K' !! y = Some ky) ->
  (forall m s, S !! m = Some s -> k_meta k <> Some m -> S' !! m = Some s) ->
  meta_own K S k (own l) k' ms' ->
  world ls FK FS (upd e l e') (upd own l ms') K' S'.
Proof.
  intros [Hrep Hkeys Hsets Hframe Hothers] Hl Hk Hk' Hrep' HK HS [Hown Hmeta].
  assert (forall x, x ∈ ms' -> forall y ky, K !! y = Some ky -> y ∉ own l -> x <> y) as Hnew.
  { intros x Hx y ky Hy Hyl ->. destruct (Hown y Hx); congruence. }
  assert (forall l' x, l' ∈ ls -> l' <> l -> x ∈ own l' -> exists kx, K !! x = Some kx /\ x <> l /\ x ∉ own l) as Hlive.
  { intros l' x Hl' Hne Hx. destruct (Hrep l' Hl') as (k1 & _ & _ & _ & _ & _ & Hmd).
    destruct (md_plain _ _ _ _ _ Hmd x Hx) as (kx & Hkx & _). exists kx. split; [done|].
    destruct (Hkeys l' l Hl' Hl Hne) as [Hnl Hdisj]. split; [by intros ->|by apply Hdisj]. }
  assert (forall l' k1, l' ∈ ls -> l' <> l -> K !! l' = Some k1 -> K' !! l' = Some k1) as Hstay.
  { intros l' k1 Hl' Hne Hk1. apply HK; [done| |done]. apply (Hkeys l l' Hl Hl'). by apply not_eq_sym. }
  split.
  - intros l' Hl'. destruct (decide (l' = l)) as [->|Hne]; [by rewrite !upd_eq|]. rewrite !upd_ne by done.
    destruct (Hrep l' Hl') as (k1 & Hk1 & Hn & Hd & Hrm & Hrv & Hmd). exists k1. split_and!; [by apply Hstay|done..|].
    eapply metadata_frame; [exact Hmd| |].
    + intros x Hx. destruct (Hlive l' x Hl' Hne Hx) as (kx & Hkx & Hxl & Hxo). rewrite Hkx. by apply HK.
    + intros m Hm. pose proof (md_set _ _ _ _ _ Hmd) as Hset. rewrite Hm in Hset. destruct Hset as (s & Hs & _). rewrite Hs.
      apply HS; [done|]. eapply (Hsets l' l); eauto.
  - intros l1 l2 H1 H2 Hne. destruct (decide (l1 = l)) as [->|H1l]; [|destruct (decide (l2 = l)) as [->|H2l]].
    + rewrite upd_eq, upd_ne by by apply not_eq_sym. destruct (Hrep l2 H2) as (k2 & Hk2 & _). destruct (Hkeys l l2 H1 H2 Hne) as [Hn Hd]. split.
      * intros Hx. by apply (Hnew l2 Hx l2 k2 Hk2 Hn).
      * intros x Hx Hx2. destruct (Hlive l2 x H2 ltac:(by apply not_eq_sym) Hx2) as (kx & Hkx & _ & Hxo). by apply (Hnew x Hx x kx Hkx Hxo).
    + rewrite upd_eq, upd_ne by done. destruct (Hkeys l1 l H1 H2 Hne) as [Hn Hd]. split; [done|].
      intros x Hx1 Hx. destruct (Hlive l1 x H1 H1l Hx1) as (kx & Hkx & _ & Hxo). by apply (Hnew x Hx x kx Hkx Hxo).
    + rewrite !upd_ne by done. by apply Hkeys.
  - intros l1 l2 k1 k2 m H1 H2 Hne Hk1 Hk2 Hm1 Hm2.
    assert (forall l' k0, l' ∈ ls -> l' <> l -> K' !! l' = Some k0 -> K !! l' = Some k0) as Hback.
    { intros l' k0 Hl' Hnl H0. destruct (Hrep l' Hl') as (k3 & Hk3 & _). pose proof (Hstay l' k3 Hl' Hnl Hk3). congruence. }
    assert (forall l' k0, l' ∈ ls -> l' <> l -> K !! l' = Some k0 -> k_meta k0 = Some m -> is_Some (S !! m)) as Hmlive.
    { intros l' k0 Hl' _ H0 Hm0. destruct (Hrep l' Hl') as (k3 & Hk3 & _ & _ & _ & _ & Hmd). assert (k3 = k0) as -> by congruence.
      pose proof (md_set _ _ _ _ _ Hmd) as Hset. rewrite Hm0 in Hset. destruct Hset as (s & Hs & _). by exists s. }
    destruct (decide (l1 = l)) as [->|H1l]; [|destruct (decide (l2 = l)) as [->|H2l]].
    + assert (k1 = k') as -> by congruence. apply not_eq_sym in Hne. pose proof (Hback l2 k2 H2 Hne Hk2) as H2'.
      destruct (Hmeta m Hm1) as [Hkm|Hnone]; [by eapply (Hsets l2 l k2 k m)|]. destruct (Hmlive l2 k2 H2 Hne H2' Hm2). congruence.
    + assert (k2 = k') as -> by congruence. pose proof (Hback l1 k1 H1 Hne Hk1) as H1'.
      destruct (Hmeta m Hm2) as [Hkm|Hnone]; [by eapply (Hsets l1 l k1 k m)|]. destruct (Hmlive l1 k1 H1 Hne H1' Hm1). congruence.
    + eapply (Hsets l1 l2 k1 k2 m); eauto.
  - intros y ky Hy. destruct (Hframe y ky Hy) as (HKy & Hyls & Hyo). split_and!; [apply HK; [by intros ->|by apply Hyo|done]|done|].
    intros l' Hl'. destruct (decide (l' = l)) as [->|]; [rewrite upd_eq|rewrite upd_ne by done; by apply Hyo].
    intros Hx. by apply (Hnew y Hx y ky HKy (Hyo l Hl)).
  - intros m s Hm. destruct (Hothers m s Hm) as [HSm Hno]. split; [apply HS; [done|by eapply Hno]|].
    intros l' k0 Hl' Hk0 Hm0. destruct (decide (l' = l)) as [->|Hne].
    + assert (k0 = k') as -> by congruence. destruct (Hmeta m Hm0) as [Hkm|]; [by eapply (Hno l k)|congruence].
    + destruct (Hrep l' Hl') as (k3 & Hk3 & _). pose proof (Hstay l' k3 Hl' Hne Hk3). eapply (Hno l' k3); [done..|congruence].
Qed.
End World.

Section Operations.
Context {R : Rec} {HR : RecLaws R} {HP : PopLaws R}.
Context (ls : list loc) (FK : gmap loc Key) (FS : gmap loc KeySet).

(** Moving the cursors of the metadata of an entry. *)
Lemma world_cursors e own K S S' l k :
  world ls FK FS e own K S -> l ∈ ls -> K !! l = Some k ->
  (forall m, k_meta k <> Some m -> S' !! m = S !! m) -> metadata K S' k (own l) (en_meta (e l)) -> world ls FK FS e own K S'.
Proof.
  intros [Hrep Hkeys Hsets Hframe Hothers] Hl Hk HS Hmd. split; [|done..|].
  - intros l' Hl'. destruct (Hrep l' Hl') as (k1 & Hk1 & Hn & Hd & Hrm & Hrv & Hmd1). exists k1. split_and!; [done..|].
    destruct (decide (l' = l)) as [->|Hne]; [by assert (k1 = k) as -> by congruence|].
    eapply metadata_frame; [exact Hmd1|done|]. intros m Hm. apply HS. by eapply (Hsets l' l k1 k).
  - intros m s Hm. destruct (Hothers m s Hm) as [HSm Hno]. split; [|done]. rewrite HS; [done|]. by eapply Hno.
Qed.

Lemma entries_getMeta e K S l nm c Q :
  entries ls FK FS e K S -> l ∈ ls -> meta_name nm c ->
  (forall p S', entries ls FK FS e K S' ->
     match en_meta (e l) !! elektraUnescapeKeyName c, p with Some s, Some x => meta_cstr K x s | None, None => True | _, _ => False end ->
     Q p (mkHeap K S')) ->
  wp (keyGetMeta (Some l) (Some nm)) Q (mkHeap K S).
Proof.
  intros [own Hw] Hl Hnm HQ. destruct (w_rep _ _ _ _ _ _ _ Hw l Hl) as (k & Hk & _ & _ & _ & _ & Hmd).
  pose proof Hmd as [Hset Hpl Hview]. specialize (Hview (elektraUnescapeKeyName c)). destruct (k_meta k) as [m|] eqn:Em.
  - eapply keyGetMeta_spec; [done..|]. intros S' Hsim. apply HQ.
    + exists own. eapply world_cursors; [exact Hw|done..| |].
      * intros m' Hm'. apply (sets_sim_other _ _ _ _ Hsim). congruence.
      * destruct Hmd as [_ ? ?]. split; [|done|done]. rewrite Em. by eapply set_ok_sim.
    + destruct (find_uname K (own l) _), (_ !! _); done.
  - rewrite Hset in Hview. simpl in Hview. eapply keyGetMeta_none; [done..|]. apply HQ; [by exists own|]. by destruct (_ !! _).
Qed.

Lemma meta_name_binary : meta_name (lit "binary") (lit "binary").
Proof. meta_name_eval. Qed.

Lemma entries_isBinary e K S l Q :
  entries ls FK FS e K S -> l ∈ ls ->
  (forall S', entries ls FK FS e K S' -> Q (if is_binary (e l) then 1%Z else 0%Z) (mkHeap K S')) ->
  wp (keyIsBinary (Some l)) Q (mkHeap K S).
Proof.
  intros He Hl HQ. unfold keyIsBinary. apply wp_bind. eapply entries_getMeta; [done..|apply meta_name_binary|].
  intros p S' He' Hp. apply wp_ret. specialize (HQ S' He'). unfold is_binary, mu in HQ.
  destruct (en_meta (e l) !! _), p; try done.
Qed.

Lemma entries_string e K S l s Q :
  entries ls FK FS e K S -> l ∈ ls -> string_of (e l) = Some s ->
  (forall S', entries ls FK FS e K S' -> Q s (mkHeap K S')) -> wp (keyString (Some l)) Q (mkHeap K S).
Proof.
  intros He Hl Hs HQ. pose proof He as [own Hw]. destruct (w_rep _ _ _ _ _ _ _ Hw l Hl) as (k & Hk & _ & Hd & _).
  unfold keyString. wstep. unfold string_of in Hs. rewrite <- Hd in Hs. destruct (k_data k) as [d|]; [|injection Hs as <-; apply wp_ret; by apply HQ].
  apply wp_bind. eapply entries_isBinary; [done..|]. intros S' He'. specialize (HQ S' He').
  destruct (is_binary (e l)); simpl; [injection Hs as <-; by apply wp_ret|]. unfold as_cstr. rewrite Hs. by apply wp_ret.
Qed.

Lemma entries_name e K S l n Q :
  entries ls FK FS e K S -> l ∈ ls -> en_name (e l) = Some n -> Q (Some n) (mkHeap K S) -> wp (keyName (Some l)) Q (mkHeap K S).
Proof.
  intros [own Hw] Hl Hn HQ. destruct (w_rep _ _ _ _ _ _ _ Hw l Hl) as (k & Hk & Hkn & _). unfold keyName. wstep. rewrite Hkn, Hn. by apply wp_ret.
Qed.

Lemma entries_setMeta e K S l nm c v Q :
  entries ls FK FS e K S -> l ∈ ls -> meta_name nm c -> match v with Some s => no_nul s | None => True end ->
  (forall r K' S', entries ls FK FS (upd e l (with_meta (e l) (elektraUnescapeKeyName c) v)) K' S' -> Q r (mkHeap K' S')) ->
  wp (keySetMeta (Some l) (Some nm) v) Q (mkHeap K S).
Proof.
  intros [own Hw] Hl Hnm Hv HQ. destruct (w_rep _ _ _ _ _ _ _ Hw l Hl) as (k & Hk & Hn & Hd & Hrm & Hrv & Hmd).
  eapply wp_mono; [by eapply keySetMeta_spec|]. intros r [K' S'] (k' & ms' & _ & Hk' & Hsame & Hmd' & [HK Hold HS] & Hown).
  cbn [h_keys h_sets] in *. apply HQ. exists (upd own l ms'). eapply world_step; [exact Hw|done..| | |done|done].
  - exists k'. destruct Hsame as (m & [-> | ->]); unfold synced; cbn [k_key k_data k_flags set_meta set_flags]; split_and!; try done.
    all: by rewrite test_set_bit_other.
  - intros y ky Hy Hyo Hky. apply HK; [done..|]. intros E. pose proof (find_uname_spec K (own l) (elektraUnescapeKeyName c)) as Hsp.
    rewrite E in Hsp. by destruct Hsp.
Qed.

(** Writing the value. *)
Lemma entries_put_data e K S l k d :
  entries ls FK FS e K S -> l ∈ ls -> K !! l = Some k ->
  entries ls FK FS (upd e l (with_data (e l) d)) (<[l := set_flags (set_data k d) (set_bit (k_flags k) KEY_FLAG_SYNC)]> K) S.
Proof.
  intros [own Hw] Hl Hk. destruct (w_rep _ _ _ _ _ _ _ Hw l Hl) as (k0 & Hk0 & Hn & Hd & Hrm & Hrv & Hmd).
  assert (k0 = k) as -> by congruence. exists (upd own l (own l)). pose proof (metadata_not_own _ _ _ _ _ _ Hk Hmd) as Hnl.
  set (k' := set_flags _ _). assert (metadata (<[l := k']> K) S k (own l) (en_meta (e l))) as Hmd'.
  { eapply metadata_frame; [exact Hmd|intros x Hx; apply lookup_insert_ne; by intros ->|done]. }
  eapply world_step; [exact Hw|done|done|apply lookup_insert_eq| | | |].
  - exists k'. split_and!; [apply lookup_insert_eq|done|done|unfold k'; simpl; by rewrite test_set_bit_other..|].
    destruct Hmd' as [? ? ?]. by split.
  - intros y ky Hy _ Hky. by rewrite lookup_insert_ne.
  - done.
  - split; [by left|]. intros m Hm. by left.
Qed.

Lemma entries_ext e e' K S : (forall l, l ∈ ls -> e l = e' l) -> entries ls FK FS e K S -> entries ls FK FS e' K S.
Proof. intros H [own [? ? ? ? ?]]. exists own. split; [|done..]. intros l Hl. rewrite <- H by done. auto. Qed.

Lemma entries_setString e K S l s Q :
  entries ls FK FS e K S -> l ∈ ls -> no_nul s ->
  (forall r K' S', entries ls FK FS (upd e l (with_string (e l) s)) K' S' -> Q r (mkHeap K' S')) ->
  wp (keySetString (Some l) (Some s)) Q (mkHeap K S).
Proof.
  intros He Hl Hs HQ. unfold keySetString. apply wp_bind.
  eapply entries_setMeta; [done..|apply meta_name_binary|done|]. intros r0 K1 S1 He1.
  pose proof He1 as [own Hw]. destruct (w_rep _ _ _ _ _ _ _ Hw l Hl) as (k & Hk & _ & _ & _ & Hrv & _).
  set (d := match s with [] => None | _ => Some (s ++ [NUL]) end).
  pose proof (entries_put_data _ _ _ l k d He1 Hl Hk) as He2. set (K2 := <[l := _]> K1) in He2.
  assert (forall S2, entries ls FK FS (upd (upd e l (with_meta (e l) (mu "binary") None)) l (with_data (upd e l (with_meta (e l) (mu "binary") None) l) d)) K2 S2 ->
    entries ls FK FS (upd e l (with_string (e l) s)) K2 S2) as Hend.
  { intros S2. apply entries_ext. intros x _. unfold upd. case_decide; [|done]. by rewrite decide_True. }
  assert (K2 !! l = Some (set_flags (set_data k d) (set_bit (k_flags k) KEY_FLAG_SYNC))) as Hk2 by apply lookup_insert_eq.
  destruct s as [|c s]; unfold keySetRaw; wstep; rewrite Hrv.
  - wstep. apply wp_bind. eapply entries_isBinary; [exact He2|done|]. intros S2 He3. apply wp_ret. by eapply HQ, Hend.
  - cbn [Nat.eqb]. destruct (Nat.ltb_spec (length ((c :: s) ++ [NUL])) (Datatypes.S (length (c :: s)))) as [Hlt|_];
      [simpl in Hlt; rewrite length_app in Hlt; simpl in Hlt; lia|].
    rewrite take_ge by (simpl; rewrite length_app; simpl; lia). wstep. unfold keyGetValueSize. wstep. apply wp_ret. by eapply HQ, Hend.
Qed.
End Operations.

(** ** Loops over a keyset outside of the entries *)

Section Loops.
Context {R : Rec} (ls : list loc) (FK : gmap loc Key) (ks : loc) (xs : list loc).

Lemma entries_put_ks FS e K S s s' :
  FS !! ks = Some s -> entries ls FK FS e K S -> entries ls FK (<[ks := s']> FS) e K (<[ks := s']> S).
Proof.
  intros Hs [own [Hrep Hkeys Hsets Hframe Hothers]]. destruct (Hothers ks s Hs) as [_ Hno]. exists own. split; [|done..|].
  - intros l Hl. destruct (Hrep l Hl) as (k & Hk & Hn & Hd & Hrm & Hrv & Hmd). exists k. split_and!; [done..|].
    eapply metadata_frame; [exact Hmd|done|]. intros m Hm. apply lookup_insert_ne. intros <-. by eapply Hno.
  - intros m s0 Hm. destruct (decide (ks = m)) as [<-|Hne].
    + rewrite lookup_insert_eq in *. by split.
    + rewrite lookup_insert_ne in * by done. by apply Hothers.
Qed.

Lemma entries_others FS e K S m s : entries ls FK FS e K S -> FS !! m = Some s -> S !! m = Some s.
Proof. intros [own Hw] Hm. by apply (w_others _ _ _ _ _ _ _ Hw m s Hm). Qed.

(** The entries of the keys [xs] are changed by [f], one after the other. *)
Section Map.
Context {A : Type} (body : A -> loc -> M A) (f : entry -> entry) (ok : A -> Prop) (P : entry -> Prop) (FS : gmap loc KeySet).
Hypothesis Hbody : forall FS' x a e K S, x ∈ xs -> ok a -> P (e x) -> entries ls FK FS' e K S ->
  wp (body a x) (fun a' h => ok a' /\ entries ls FK FS' (upd e x (f (e x))) (h_keys h) (h_sets h)) (mkHeap K S).

Definition mapped (e : loc -> entry) (zs : list loc) (x : loc) : entry := if decide (x ∈ zs) then f (e x) else e x.

Lemma mapped_snoc e zs x : x ∉ zs -> forall y, upd (mapped e zs) x (f (mapped e zs x)) y = mapped e (zs ++ [x]) y.
Proof.
  intros Hx y. unfold upd, mapped. rewrite (decide_False (P := x ∈ zs)) by done. destruct (decide (y = x)) as [->|Hne].
  - rewrite decide_True; [done|]. apply elem_of_app. right. by left.
  - destruct (decide (y ∈ zs)); [rewrite decide_True; [done|]; apply elem_of_app; by left|].
    rewrite decide_False; [done|]. rewrite elem_of_app, list_elem_of_singleton. tauto.
Qed.

Lemma entries_for_each e a K S s :
  FS !! ks = Some s -> ks_rep s xs -> NoDup xs -> (forall x, x ∈ xs -> P (e x)) -> ok a -> entries ls FK FS e K S ->
  wp (for_each (Some ks) body a)
    (fun a' h => ok a' /\ exists s', ks_rep s' xs /\ entries ls FK (<[ks := s']> FS) (mapped e xs) (h_keys h) (h_sets h)) (mkHeap K S).
Proof.
  intros Hs Hrep Hnd HP Ha He.
  eapply wp_mono; [apply (for_each_loop body ks xs (fun i b K' S' => ok b /\ exists s', ks_rep s' xs /\
    entries ls FK (<[ks := s']> FS) (mapped e (take i xs)) K' S')) with (s := s)|].
  - intros i b K1 S1 s1 c j Hs1 (Hb & s2 & Hrep2 & He1). split; [done|].
    assert (S1 !! ks = Some s2) as Hs2 by (eapply entries_others; [exact He1|apply lookup_insert_eq]). assert (s2 = s1) as -> by congruence.
    exists (ks_with_cursor s1 c j). split; [by apply ks_rep_cursor|]. eapply entries_put_ks in He1; [|apply lookup_insert_eq]. by rewrite insert_insert_eq in He1.
  - intros i x b K1 S1 Hx (Hb & s2 & Hrep2 & He1). assert (x ∉ take i xs) as Hxi.
    { intros Hin. apply list_elem_of_lookup_1 in Hin as [j Hj]. apply lookup_take_Some in Hj as [Hj Hji]. pose proof (NoDup_lookup _ _ _ _ Hnd Hx Hj). lia. }
    eapply wp_mono; [eapply Hbody; [by eapply list_elem_of_lookup_2|done| |exact He1]|].
    + unfold mapped. rewrite decide_False by done. apply HP. by eapply list_elem_of_lookup_2.
    + intros b' h [Hb' He2]. split; [split; [done|]|].
      * exists s2. split; [done|]. eapply entries_ext; [|exact He2]. intros y _. rewrite (take_S_r _ _ _ Hx). by apply mapped_snoc.
      * rewrite (entries_others _ _ _ _ _ _ He1 (lookup_insert_eq FS ks s2)). eapply entries_others; [exact He2|apply lookup_insert_eq].
  - by eapply entries_others.
  - done.
  - split; [done|]. exists s. split; [done|]. rewrite insert_id by done. eapply entries_ext; [|exact He].
    intros y _. unfold mapped. rewrite decide_False; [done|]. apply not_elem_of_nil.
  - intros a' h [(Ha' & s' & Hrep' & He') _]. rewrite firstn_all in He'. split; [done|]. by exists s'.
Qed.
End Map.
End Loops.
