(* ===== verification/Hexcode.v ===== *)
(** * Hexcode: values with hexadecimal escapes

    [plugins/hexcode/hexcode.c]: characters of values are written as an escape
    character and two hexadecimal digits.  The data [elektraPluginGetData]
    returns for the handle is an argument; the contract of the plugin, which
    the build generates, is another. *)
From S2P Require Export Filter.
#[local] Open Scope elektra_scope.

(** [buf] is whether the buffer is allocated; its contents are not kept from one
    key to the next. *)
Record CHexData := mkHex { hd : list bool; escape : ascii; buf : bool; bufalloc : nat }.

Definition hex_table (d : CHexData) (c : ascii) : bool := default false (hd d !! Z.to_nat (uchar c)).

Definition with_hd (d : CHexData) (t : list bool) : CHexData := mkHex t (escape d) (buf d) (bufalloc d).
Definition with_buffer (d : CHexData) (n : nat) : CHexData := mkHex (hd d) (escape d) true n.

(** The bytes the loop of [elektraHexcodeEncode] writes for one character. *)
Definition hex_encode_char (d : CHexData) (c : ascii) : list ascii :=
  if hex_table d c
  then [escape d; elektraHexcodeConvToHex (uchar c / 16); elektraHexcodeConvToHex (uchar c mod 16)]
  else [c].

Definition hex_encode (d : CHexData) (v : list ascii) : list ascii := flat_map (hex_encode_char d) v.

(** The loop of [elektraHexcodeDecode] on the rest of the value, whose last byte
    it does not decode; [None] when it reads behind the value. *)
Fixpoint hex_decode (d : CHexData) (val : list ascii) : option (list ascii) :=
  match val with
  | [] | [_] => Some []
  | c :: r =>
      if decide (c = escape d) then
        match r with
        | first :: second :: r' =>
            cons (byte (elektraHexcodeConvFromHex second + elektraHexcodeConvFromHex first * 16)) <$> hex_decode d r'
        | _ => None
        end
      else cons c <$> hex_decode d r
  end.

Section Hexcode.
Context {E : Env}.

(** Without a byte in the value [valsize - 1] wraps around. *)
Definition elektraHexcodeDecode (cur : loc) (d : CHexData) : M unit :=
  valsize <- keyGetValueSize (Some cur);;
  val <- keyValue (Some cur);;
  match val with
  | None => ret tt
  | Some val =>
      if (valsize =? 0)%Z then undefined
      else match hex_decode d val with None => undefined | Some out => write_back cur (bufalloc d) out end
  end.

Definition elektraHexcodeEncode (cur : loc) (d : CHexData) : M unit :=
  valsize <- keyGetValueSize (Some cur);;
  val <- keyValue (Some cur);;
  match val with
  | None => ret tt
  | Some val =>
      if (valsize =? 0)%Z then undefined
      else write_back cur (bufalloc d) (hex_encode d (take (Z.to_nat valsize - 1) val))
  end.

(** [if (!hd->buf)] *)
Definition hex_buffer (d : CHexData) : CHexData := if buf d then d else with_buffer d 1000.

(** [if (size > hd->bufalloc)] with the reallocation. *)
Definition hex_grow (d : CHexData) (size : Z) : CHexData :=
  if (Z.of_nat (bufalloc d) <? size)%Z then with_buffer d (Z.to_nat size) else d.

Definition hex_get_key (d : CHexData) (cur : loc) : M CHexData :=
  valsize <- keyGetValueSize (Some cur);;
  let d := hex_grow d valsize in
  elektraHexcodeDecode cur d;; ret d.

Definition hex_set_key (d : CHexData) (cur : loc) : M CHexData :=
  valsize <- keyGetValueSize (Some cur);;
  let d := hex_grow d (valsize * 3) in
  elektraHexcodeEncode cur d;; ret d.

(** The results of the functions come with the data of the plugin. *)
Definition elektraHexcodeGet (contract : M ptr) (d : CHexData) (returned parentKey : ptr) : M (Z * CHexData) :=
  b <- is_named parentKey "system/elektra/modules/hexcode";;
  if b : bool then
    pluginConfig <- contract;;
    ksAppend returned pluginConfig;;
    ksDel pluginConfig;;
    ret (1%Z, d)
  else d <- for_each returned hex_get_key (hex_buffer d);; ret (1%Z, d).

Definition elektraHexcodeSet (d : CHexData) (returned parentKey : ptr) : M (Z * CHexData) :=
  d <- for_each returned hex_set_key (hex_buffer d);; ret (1%Z, d).

Definition hex_mark (d : CHexData) (c : ascii) : CHexData := with_hd d (<[Z.to_nat (uchar c) := true]> (hd d)).

Definition elektraHexcodeOpen (config : ptr) : M (Z * CHexData) :=
  e <- escape_of config;;
  let d := mkHex (replicate 256 false) e false 0 in
  root <- env_ksLookupByName config (Some (lit "/chars")) 0;;
  match root with
  | None => ret (0%Z, fold_left hex_mark [NUL; "010"%char; BSLASH; " "%char] d)
  | Some _ =>
      fuel <- ks_turns config;;
      d <- each_key fuel config (fun d cur =>
             r <- keyRel root (Some cur);;
             if (r =? 1)%Z then
               n <- keyGetBaseNameSize (Some cur);;
               if negb (n =? 3)%Z then ret d
               else b <- keyBaseName (Some cur);; c <- hex_byte (default [] b);; ret (hex_mark d c)
             else ret d) d;;
      ret (0%Z, d)
  end.

(** The data is freed. *)
Definition elektraHexcodeClose (d : CHexData) : M Z := ret 0%Z.
End Hexcode.

(** ** Decoding what was encoded *)

(** The escape character is encoded itself, as in the default configuration. *)
Definition hex_ok (d : CHexData) : Prop := hex_table d (escape d) = true.

Lemma hex_digits c : byte (elektraHexcodeConvFromHex (elektraHexcodeConvToHex (uchar c mod 16)) +
                           elektraHexcodeConvFromHex (elektraHexcodeConvToHex (uchar c / 16)) * 16) = c.
Proof.
  pose proof (uchar_range c). rewrite !convFromHex_ToHex.
  - rewrite Z.add_comm, Z.mul_comm, <- Z.div_mod by lia. apply byte_uchar.
  - split; [apply Z.div_pos; lia|]. apply Z.div_lt_upper_bound; lia.
  - apply Z.mod_pos_bound. lia.
Qed.

Lemma hex_decode_plain d c l : c <> escape d -> l <> [] -> hex_decode d (c :: l) = cons c <$> hex_decode d l.
Proof. intros Hc Hl. destruct l as [|y l]; [done|]. cbn [hex_decode]. by rewrite decide_False. Qed.

Lemma hex_decode_encode d v z : hex_ok d -> hex_decode d (hex_encode d v ++ [z]) = Some v.
Proof.
  intros Hok. induction v as [|c v IH]; [done|]. unfold hex_encode in *. cbn [flat_map]. rewrite <- app_assoc.
  unfold hex_encode_char at 1. destruct (hex_table d c) eqn:Ec.
  - cbn [app hex_decode]. rewrite decide_True by done. rewrite IH. simpl. by rewrite hex_digits.
  - cbn [app]. rewrite hex_decode_plain, IH; [done| |by destruct (flat_map _ _)].
    intros ->. unfold hex_ok in Hok. congruence.
Qed.

Lemma hex_encode_length d v : length (hex_encode d v) <= 3 * length v.
Proof.
  unfold hex_encode. induction v as [|c v IH]; [done|]. cbn [flat_map]. rewrite length_app.
  unfold hex_encode_char at 1. destruct (hex_table d c); simpl in *; lia.
Qed.

Lemma hex_decode_length d v out : hex_decode d v = Some out -> v <> [] -> length out + 1 <= length v.
Proof.
  revert out. induction v as [v IH] using (induction_ltof1 _ length). unfold ltof in IH. intros out Hd Hv.
  destruct v as [|c [|y r]]; [done|by injection Hd as <-|]. destruct (decide (c = escape d)) as [->|Hc].
  - cbn [hex_decode] in Hd. rewrite decide_True in Hd by done. destruct r as [|z r]; [done|]. apply fmap_Some in Hd as (o & Ho & ->). destruct r as [|w r].
    + injection Ho as <-. simpl. lia.
    + apply IH in Ho; [|simpl; lia|done]. simpl in *. lia.
  - rewrite hex_decode_plain in Hd by done. apply fmap_Some in Hd as (o & Ho & ->).
    apply IH in Ho; [|simpl; lia|done]. simpl in *. lia.
Qed.

Section HexcodeFacts.
Context {E : Env}.

(** The data differs from [d0] in its buffer only. *)
Definition same_tables (d0 d : CHexData) : Prop := hd d = hd d0 /\ escape d = escape d0.

Lemma same_tables_encode d0 d v : same_tables d0 d -> hex_encode d v = hex_encode d0 v.
Proof. intros [H1 H2]. unfold hex_encode, hex_encode_char, hex_table. by rewrite H1, H2. Qed.

Lemma same_tables_decode d0 d v : same_tables d0 d -> hex_decode d v = hex_decode d0 v.
Proof.
  intros [_ H2]. induction v as [v IH] using (induction_ltof1 _ length). unfold ltof in IH.
  destruct v as [|c [|y r]]; [done..|]. destruct (decide (c = escape d0)) as [Hc|Hc].
  - cbn [hex_decode]. rewrite H2, !decide_True by done. destruct r as [|z r]; [done|]. by rewrite IH by (simpl; lia).
  - rewrite (hex_decode_plain d), (hex_decode_plain d0) by (rewrite ?H2; done). rewrite (IH (y :: r)); [done|simpl; lia].
Qed.

Lemma hex_grow_room d n : n <= bufalloc (hex_grow d (Z.of_nat n)).
Proof. unfold hex_grow. destruct (Z.ltb_spec (Z.of_nat (bufalloc d)) (Z.of_nat n)); simpl; lia. Qed.

Lemma hex_grow_tables d0 d n : same_tables d0 d -> same_tables d0 (hex_grow d n).
Proof. intros H. unfold hex_grow. by destruct (_ <? _)%Z. Qed.

Lemma hex_buffer_tables d0 d : same_tables d0 d -> same_tables d0 (hex_buffer d).
Proof. intros H. unfold hex_buffer. by destruct (buf d). Qed.

Lemma hex_set_key_spec d0 d x k v K S :
  K !! x = Some k -> k_data k = Some (v ++ [NUL]) -> test_bit (k_flags k) KEY_FLAG_RO_VALUE = false -> same_tables d0 d ->
  wp (hex_set_key d x) (fun d' h => h = mkHeap (<[x := recode k (hex_encode d0 v)]> K) S /\ same_tables d0 d') (mkHeap K S).
Proof.
  intros Hk Hd Hro Hs. unfold hex_set_key. eapply get_size_spec; [done..|]. rewrite length_app. cbn [length].
  unfold elektraHexcodeEncode. wstep. eapply get_size_spec; [done..|]. wstep. eapply get_value_spec; [done..|].
  rewrite length_app. cbn [length]. destruct (Z.eqb_spec (Z.of_nat (length v + 1)) 0); [lia|].
  replace (Z.to_nat (Z.of_nat (length v + 1)) - 1) with (length v) by lia. rewrite take_app_length.
  replace (Z.of_nat (length v + 1) * 3)%Z with (Z.of_nat ((length v + 1) * 3)) by lia.
  apply wp_bind. eapply write_back_spec; [done..| |].
  - pose proof (hex_grow_room d ((length v + 1) * 3)). pose proof (hex_encode_length (hex_grow d (Z.of_nat ((length v + 1) * 3))) v). lia.
  - apply wp_ret. split; [|by apply hex_grow_tables]. by rewrite (same_tables_encode d0) by by apply hex_grow_tables.
Qed.

Lemma hex_get_key_spec d0 d x k v K S :
  K !! x = Some k -> k_data k = Some (v ++ [NUL]) -> test_bit (k_flags k) KEY_FLAG_RO_VALUE = false -> same_tables d0 d ->
  is_Some (hex_decode d0 (v ++ [NUL])) ->
  wp (hex_get_key d x)
     (fun d' h => h = mkHeap (<[x := recode k (default [] (hex_decode d0 (v ++ [NUL])))]> K) S /\ same_tables d0 d') (mkHeap K S).
Proof.
  intros Hk Hd Hro Hs [w Hw]. unfold hex_get_key. eapply get_size_spec; [done..|].
  unfold elektraHexcodeDecode. wstep. eapply get_size_spec; [done..|]. wstep. eapply get_value_spec; [done..|].
  destruct (Z.eqb_spec (Z.of_nat (length (v ++ [NUL]))) 0) as [H0|_]; [rewrite length_app in H0; simpl in H0; lia|].
  rewrite (same_tables_decode d0), Hw by by apply hex_grow_tables. apply wp_bind. eapply write_back_spec; [done..| |].
  - pose proof (hex_grow_room d (length (v ++ [NUL]))). apply hex_decode_length in Hw; [lia|by destruct v].
  - apply wp_ret. split; [done|by apply hex_grow_tables].
Qed.

(** C29.  When the escape character is one of the characters to encode, as in the default
    configuration, and every key has a value that ends in NUL and may be changed:
    after [elektraHexcodeSet] the values are encoded; [elektraHexcodeGet] then gives every
    key its value back, whatever bytes stand before the last NUL.  Both return 1 and write
    only inside of their buffer; names, metadata and all other keys and keysets stay.  A
    value without a NUL at its end loses its last byte and is left out. *)
Theorem elektraHexcode_roundtrip contract d K S l s ls vs parentKey k n :
  S !! l = Some s -> ks_rep s ls -> NoDup ls -> Forall2 (has_value K) ls vs -> hex_ok d ->
  K !! parentKey = Some k -> k_key k = Some n -> bool_decide (strcmp n (lit "system/elektra/modules/hexcode") = 0%Z) = false ->
  wp (set <- elektraHexcodeSet d (Some l) (Some parentKey);;
      get <- elektraHexcodeGet contract (snd set) (Some l) (Some parentKey);;
      ret (fst set, fst get))
     (fun r h => r = (1, 1)%Z /\ revalued K ls vs (h_keys h) /\ delete l (h_sets h) = delete l S) (mkHeap K S).
Proof.
  intros Hs Hrep Hnd Hvs Hok Hk Hn Hb.
  eapply (recodes_roundtrip (elektraHexcodeSet d (Some l) (Some parentKey))
    (fun d1 => elektraHexcodeGet contract d1 (Some l) (Some parentKey)) (same_tables d) l ls vs (map (hex_encode d) vs)); [done..| |].
  - apply (recode_pass_recodes hex_set_key (same_tables d) (hex_encode d) (fun _ => True)); [|by apply Forall_true|by apply hex_buffer_tables].
    intros a x k0 v K1 S1 ??? Ha _. by eapply hex_set_key_spec.
  - intros d1 K1 S1 Hd1 Hv1. destruct (revalued_name _ _ _ _ _ _ Hv1 Hk) as (k1 & Hk1 & Hn1).
    apply (recodes_not_named _ _ k1 n); [done|by rewrite Hn1|done|]. set (dec v := default [] (hex_decode d (v ++ [NUL]))).
    rewrite <- (map_inverse (hex_encode d) dec vs) at 2 by (intros v; unfold dec; by rewrite hex_decode_encode).
    apply (recode_pass_recodes hex_get_key (same_tables d) dec (fun v => is_Some (hex_decode d (v ++ [NUL])))).
    + intros a x k0 v K2 S2 ??? Ha Hv. by eapply hex_get_key_spec.
    + apply Forall_map, Forall_true. intros v. by rewrite hex_decode_encode.
    + by apply hex_buffer_tables.
Qed.
End HexcodeFacts.
