(* ===== verification/Ccode.v ===== *)
(** * Ccode: values with escapes like those of C

    [plugins/ccode/ccode.c]: a character with an entry in the table [encode] is
    written as the escape character and this entry.  Data and contract are
    arguments as in [Hexcode.v]. *)
From S2P Require Export Filter.
#[local] Open Scope elektra_scope.

(** A NUL in [encode] is no entry. *)
Record CCodeData := mkCcode { encode : list ascii; decode : list ascii; c_escape : ascii; c_buf : bool; c_bufalloc : nat }.

Definition table_at (t : list ascii) (c : ascii) : ascii := default NUL (t !! Z.to_nat (uchar c)).

Definition c_with_buffer (d : CCodeData) (n : nat) : CCodeData := mkCcode (encode d) (decode d) (c_escape d) true n.

(** [encode[c] = e; decode[e] = c] *)
Definition c_enter (d : CCodeData) (c e : ascii) : CCodeData :=
  mkCcode (<[Z.to_nat (uchar c) := e]> (encode d)) (<[Z.to_nat (uchar e) := c]> (decode d)) (c_escape d) (c_buf d) (c_bufalloc d).

Definition ccode_encode_char (d : CCodeData) (c : ascii) : list ascii :=
  if decide (table_at (encode d) c = NUL) then [c] else [c_escape d; table_at (encode d) c].

Definition ccode_encode (d : CCodeData) (v : list ascii) : list ascii := flat_map (ccode_encode_char d) v.

(** A [char] as a number; it is signed. *)
Definition schar (c : ascii) : Z := if (uchar c <? 128)%Z then uchar c else (uchar c - 256)%Z.

(** The loop of [elektraCcodeDecode], which compares an [unsigned char] with the
    escape character. *)
Fixpoint ccode_decode (d : CCodeData) (val : list ascii) : list ascii :=
  match val with
  | [] | [_] => []
  | c :: r =>
      if (uchar c =? schar (c_escape d))%Z then
        match r with
        | c' :: r' => table_at (decode d) c' :: ccode_decode d r'
        | [] => []
        end
      else c :: ccode_decode d r
  end.

Section Ccode.
Context {E : Env}.

Definition elektraCcodeDecode (cur : loc) (d : CCodeData) : M unit :=
  valsize <- keyGetValueSize (Some cur);;
  val <- keyValue (Some cur);;
  match val with
  | None => ret tt
  | Some val => if (valsize =? 0)%Z then undefined else write_back cur (c_bufalloc d) (ccode_decode d val)
  end.

Definition elektraCcodeEncode (cur : loc) (d : CCodeData) : M unit :=
  valsize <- keyGetValueSize (Some cur);;
  val <- keyValue (Some cur);;
  match val with
  | None => ret tt
  | Some val =>
      if (valsize =? 0)%Z then undefined
      else write_back cur (c_bufalloc d) (ccode_encode d (take (Z.to_nat valsize - 1) val))
  end.

Definition ccode_buffer (d : CCodeData) : CCodeData := if c_buf d then d else c_with_buffer d 1000.
Definition ccode_grow (d : CCodeData) (size : Z) : CCodeData :=
  if (Z.of_nat (c_bufalloc d) <? size)%Z then c_with_buffer d (Z.to_nat size) else d.

Definition ccode_get_key (d : CCodeData) (cur : loc) : M CCodeData :=
  valsize <- keyGetValueSize (Some cur);;
  let d := ccode_grow d valsize in
  elektraCcodeDecode cur d;; ret d.

Definition ccode_set_key (d : CCodeData) (cur : loc) : M CCodeData :=
  valsize <- keyGetValueSize (Some cur);;
  let d := ccode_grow d (valsize * 2) in
  elektraCcodeEncode cur d;; ret d.

Definition elektraCcodeGet (contract : M ptr) (d : CCodeData) (returned parentKey : ptr) : M (Z * CCodeData) :=
  b <- is_named parentKey "system/elektra/modules/ccode";;
  if b : bool then
    pluginConfig <- contract;;
    ksAppend returned pluginConfig;;
    ksDel pluginConfig;;
    ret (1%Z, d)
  else d <- for_each returned ccode_get_key (ccode_buffer d);; ret (1%Z, d).

Definition elektraCcodeSet (d : CCodeData) (returned parentKey : ptr) : M (Z * CCodeData) :=
  d <- for_each returned ccode_set_key (ccode_buffer d);; ret (1%Z, d).

(** The escapes of C: backspace, tab, newline, vertical tab, form feed, return,
    backslash, both quotes and NUL. *)
Definition default_escapes : list (ascii * ascii) :=
  [("008", "b"); ("009", "t"); ("010", "n"); ("011", "v"); ("012", "f"); ("013", "r");
   ("\", "\"); ("039", "039"); ("034", "034"); ("000", "0")]%char.

Definition no_entries : list ascii := replicate 256 NUL.

Definition elektraCcodeOpen (config : ptr) : M (Z * CCodeData) :=
  e <- escape_of config;;
  let d := mkCcode no_entries no_entries e false 0 in
  root <- env_ksLookupByName config (Some (lit "/chars")) 0;;
  match root with
  | None => ret (0%Z, fold_left (fun d '(c, e) => c_enter d c e) default_escapes d)
  | Some _ =>
      fuel <- ks_turns config;;
      d <- each_key fuel config (fun d cur =>
             r <- keyRel root (Some cur);;
             if (r =? 1)%Z then
               n <- keyGetBaseNameSize (Some cur);;
               if negb (n =? 3)%Z then ret d
               else
                 size <- keyGetValueSize (Some cur);;
                 if negb (size =? 3)%Z then ret d
                 else
                   b <- keyBaseName (Some cur);;
                   res <- hex_byte (default [] b);;
                   s <- keyString (Some cur);;
                   val <- hex_byte s;;
                   ret (c_enter d res val)
             else ret d) d;;
      ret (0%Z, d)
  end.

(** The data is freed. *)
Definition elektraCcodeClose (d : CCodeData) : M Z := ret 0%Z.
End Ccode.

(** ** Decoding what was encoded *)

(** Every entry is decoded to its character, the escape character has one, and it
    is no negative [char]. *)
Definition ccode_ok (d : CCodeData) : Prop :=
  (forall c, table_at (encode d) c <> NUL -> table_at (decode d) (table_at (encode d) c) = c) /\
  table_at (encode d) (c_escape d) <> NUL /\ (uchar (c_escape d) < 128)%Z.

Lemma uchar_schar c e : (uchar e < 128)%Z -> (uchar c =? schar e)%Z = bool_decide (c = e).
Proof.
  intros He. unfold schar. destruct (Z.ltb_spec (uchar e) 128) as [_|]; [|lia]. destruct (Z.eqb_spec (uchar c) (uchar e)) as [Hc|Hc].
  - apply uchar_inj in Hc. by rewrite bool_decide_eq_true_2.
  - rewrite bool_decide_eq_false_2; [done|]. by intros ->.
Qed.

Lemma ccode_decode_plain d c l : (uchar c =? schar (c_escape d))%Z = false -> l <> [] -> ccode_decode d (c :: l) = c :: ccode_decode d l.
Proof. intros Hc Hl. destruct l as [|y l]; [done|]. cbn [ccode_decode]. by rewrite Hc. Qed.

Lemma ccode_decode_encode d v z : ccode_ok d -> ccode_decode d (ccode_encode d v ++ [z]) = v.
Proof.
  intros (Hdec & Hesc & Hneg). induction v as [|c v IH]; [done|]. unfold ccode_encode in *. cbn [flat_map]. rewrite <- app_assoc.
  unfold ccode_encode_char at 1. destruct (decide (table_at (encode d) c = NUL)) as [Hc|Hc].
  - cbn [app]. rewrite ccode_decode_plain, IH; [done| |by destruct (flat_map _ _)].
    rewrite uchar_schar, bool_decide_eq_false_2 by congruence. done.
  - cbn [app ccode_decode]. rewrite uchar_schar, bool_decide_eq_true_2 by done. by rewrite IH, Hdec.
Qed.

Lemma ccode_encode_length d v : length (ccode_encode d v) <= 2 * length v.
Proof.
  unfold ccode_encode. induction v as [|c v IH]; [done|]. cbn [flat_map]. rewrite length_app.
  unfold ccode_encode_char at 1. case_decide; simpl in *; lia.
Qed.

Lemma ccode_decode_length d v : v <> [] -> length (ccode_decode d v) + 1 <= length v.
Proof.
  induction v as [v IH] using (induction_ltof1 _ length). unfold ltof in IH. intros Hv.
  destruct v as [|c [|y r]]; [done|done|]. destruct (uchar c =? schar (c_escape d))%Z eqn:Hc.
  - cbn [ccode_decode]. rewrite Hc. destruct r as [|z r]; [simpl; lia|].
    assert (length (ccode_decode d (z :: r)) + 1 <= length (z :: r)) by (apply IH; [simpl; lia|done]). cbn [length] in *. lia.
  - rewrite ccode_decode_plain by done.
    assert (length (ccode_decode d (y :: r)) + 1 <= length (y :: r)) by (apply IH; [simpl; lia|done]). cbn [length] in *. lia.
Qed.

Section CcodeFacts.
Context {E : Env}.

(** The data differs from [d0] in its buffer only. *)
Definition same_codes (d0 d : CCodeData) : Prop := encode d = encode d0 /\ decode d = decode d0 /\ c_escape d = c_escape d0.

Lemma same_codes_encode d0 d v : same_codes d0 d -> ccode_encode d v = ccode_encode d0 v.
Proof. intros (H1 & _ & H3). unfold ccode_encode, ccode_encode_char. by rewrite H1, H3. Qed.

Lemma same_codes_decode d0 d v : same_codes d0 d -> ccode_decode d v = ccode_decode d0 v.
Proof.
  intros (_ & H2 & H3). induction v as [v IH] using (induction_ltof1 _ length). unfold ltof in IH.
  destruct v as [|c [|y r]]; [done..|]. destruct (uchar c =? schar (c_escape d0))%Z eqn:Hc.
  - cbn [ccode_decode]. rewrite H3, Hc, H2. f_equal. apply IH. simpl. lia.
  - rewrite (ccode_decode_plain d), (ccode_decode_plain d0) by (rewrite ?H3; done). f_equal. apply IH. simpl. lia.
Qed.

Lemma ccode_grow_room d n : n <= c_bufalloc (ccode_grow d (Z.of_nat n)).
Proof. unfold ccode_grow. destruct (Z.ltb_spec (Z.of_nat (c_bufalloc d)) (Z.of_nat n)); simpl; lia. Qed.

Lemma ccode_grow_codes d0 d n : same_codes d0 d -> same_codes d0 (ccode_grow d n).
Proof. intros H. unfold ccode_grow. by destruct (_ <? _)%Z. Qed.

Lemma ccode_buffer_codes d0 d : same_codes d0 d -> same_codes d0 (ccode_buffer d).
Proof. intros H. unfold ccode_buffer. by destruct (c_buf d). Qed.

Lemma ccode_set_key_spec d0 d x k v K S :
  K !! x = Some k -> k_data k = Some (v ++ [NUL]) -> test_bit (k_flags k) KEY_FLAG_RO_VALUE = false -> same_codes d0 d ->
  wp (ccode_set_key d x) (fun d' h => h = mkHeap (<[x := recode k (ccode_encode d0 v)]> K) S /\ same_codes d0 d') (mkHeap K S).
Proof.
  intros Hk Hd Hro Hs. unfold ccode_set_key. eapply get_size_spec; [done..|]. rewrite length_app. cbn [length].
  unfold elektraCcodeEncode. wstep. eapply get_size_spec; [done..|]. wstep. eapply get_value_spec; [done..|].
  rewrite length_app. cbn [length]. destruct (Z.eqb_spec (Z.of_nat (length v + 1)) 0); [lia|].
  replace (Z.to_nat (Z.of_nat (length v + 1)) - 1) with (length v) by lia. rewrite take_app_length.
  replace (Z.of_nat (length v + 1) * 2)%Z with (Z.of_nat ((length v + 1) * 2)) by lia.
  rewrite (same_codes_encode d0) by by apply ccode_grow_codes. apply wp_bind. eapply write_back_spec; [done..| |].
  - pose proof (ccode_grow_room d ((length v + 1) * 2)). pose proof (ccode_encode_length d0 v). lia.
  - apply wp_ret. split; [done|by apply ccode_grow_codes].
Qed.

Lemma ccode_get_key_spec d0 d x k v K S :
  K !! x = Some k -> k_data k = Some (v ++ [NUL]) -> test_bit (k_flags k) KEY_FLAG_RO_VALUE = false -> same_codes d0 d ->
  wp (ccode_get_key d x)
     (fun d' h => h = mkHeap (<[x := recode k (ccode_decode d0 (v ++ [NUL]))]> K) S /\ same_codes d0 d') (mkHeap K S).
Proof.
  intros Hk Hd Hro Hs. unfold ccode_get_key. eapply get_size_spec; [done..|].
  unfold elektraCcodeDecode. wstep. eapply get_size_spec; [done..|]. wstep. eapply get_value_spec; [done..|].
  destruct (Z.eqb_spec (Z.of_nat (length (v ++ [NUL]))) 0) as [H0|_]; [rewrite length_app in H0; simpl in H0; lia|].
  rewrite (same_codes_decode d0) by by apply ccode_grow_codes. apply wp_bind. eapply write_back_spec; [done..| |].
  - pose proof (ccode_grow_room d (length (v ++ [NUL]))). pose proof (ccode_decode_length d0 (v ++ [NUL]) ltac:(by destruct v)). lia.
  - apply wp_ret. split; [done|by apply ccode_grow_codes].
Qed.

(** After [elektraCcodeSet] the values are encoded; [elektraCcodeGet] then gives every
    key its value back, whatever bytes it has, if every entry of the table is
    decoded to its character and the escape character has an entry and is
    an ASCII character.  Both return 1 and write only inside of their buffer;
    names, metadata and all other keys and keysets stay. *)
Theorem elektraCcode_roundtrip contract d K S l s ls vs parentKey k n :
  S !! l = Some s -> ks_rep s ls -> NoDup ls -> Forall2 (has_value K) ls vs -> ccode_ok d ->
  K !! parentKey = Some k -> k_key k = Some n -> bool_decide (strcmp n (lit "system/elektra/modules/ccode") = 0%Z) = false ->
  wp (set <- elektraCcodeSet d (Some l) (Some parentKey);;
      get <- elektraCcodeGet contract (snd set) (Some l) (Some parentKey);;
      ret (fst set, fst get))
     (fun r h => r = (1, 1)%Z /\ revalued K ls vs (h_keys h) /\ delete l (h_sets h) = delete l S) (mkHeap K S).
Proof.
  intros Hs Hrep Hnd Hvs Hok Hk Hn Hb.
  eapply (recodes_roundtrip (elektraCcodeSet d (Some l) (Some parentKey))
    (fun d1 => elektraCcodeGet contract d1 (Some l) (Some parentKey)) (same_codes d) l ls vs (map (ccode_encode d) vs)); [done..| |].
  - apply (recode_pass_recodes ccode_set_key (same_codes d) (ccode_encode d) (fun _ => True)); [|by apply Forall_true|by apply ccode_buffer_codes].
    intros a x k0 v K1 S1 ??? Ha _. by eapply ccode_set_key_spec.
  - intros d1 K1 S1 Hd1 Hv1. destruct (revalued_name _ _ _ _ _ _ Hv1 Hk) as (k1 & Hk1 & Hn1).
    apply (recodes_not_named _ _ k1 n); [done|by rewrite Hn1|done|].
    rewrite <- (map_inverse (ccode_encode d) (fun v => ccode_decode d (v ++ [NUL])) vs) at 2 by (intros v; by apply ccode_decode_encode).
    apply (recode_pass_recodes ccode_get_key (same_codes d) _ (fun _ => True)); [|by apply Forall_true|by apply ccode_buffer_codes].
    intros a x k0 v K2 S2 ??? Ha _. by eapply ccode_get_key_spec.
Qed.

(** The default configuration satisfies the conditions of the round trip. *)
Lemma default_ccode_ok :
  ccode_ok (fold_left (fun d '(c, e) => c_enter d c e) default_escapes (mkCcode no_entries no_entries BSLASH false 0)).
Proof.
  set (d := fold_left _ _ _). split; [|split; [vm_compute; discriminate|reflexivity]].
  assert (forallb (fun c => bool_decide (table_at (encode d) c = NUL \/ table_at (decode d) (table_at (encode d) c) = c))
            (map (fun n => ascii_of_N (N.of_nat n)) (seq 0 256)) = true) as H by (vm_compute; reflexivity).
  rewrite forallb_forall in H. intros c Hc. specialize (H c). rewrite bool_decide_eq_true in H.
  destruct H as [H|H]; [|done|done]. apply in_map_iff. exists (N.to_nat (N_of_ascii c)).
  rewrite N2Nat.id, ascii_N_embedding. split; [done|]. apply in_seq. pose proof (N_ascii_bounded c). lia.
Qed.
End CcodeFacts.
