(* ===== verification/Base64.v ===== *)
(** * Base64: binary values as text

    [plugins/base64]: the plugin writes binary values in Base64 behind the prefix
    [@BASE64] and escapes the prefix character in strings.  The contract of the
    plugin and the function that adds a warning are generated by the build and
    are arguments. *)
From S2P Require Export Filter.
#[local] Open Scope elektra_scope.

(** ** base64_functions.c *)

Definition alphabet : cstr := lit "ABCDEFGHIJKLMNOPQRSTUVWXYZabcdefghijklmnopqrstuvwxyz0123456789+/".
Definition padding : ascii := "="%char.

Definition alphabet_at (i : Z) : ascii := nth (Z.to_nat i) alphabet NUL.

Definition encodedLength (inputLength : nat) : nat :=
  if inputLength mod 3 =? 0 then inputLength / 3 * 4 + 1
  else (inputLength + (3 - inputLength mod 3)) / 3 * 4 + 1.

(** The loop of [base64Encode], a group of at most three bytes per turn. *)
Fixpoint encode_groups (input : list ascii) : list ascii :=
  match input with
  | [] => []
  | [x] =>
      let p0 := uchar x in
      [alphabet_at (Z.shiftr p0 2); alphabet_at (Z.land (Z.shiftl p0 4 + Z.shiftr 0 4) 63); padding; padding]
  | [x; y] =>
      let p0 := uchar x in
      let p1 := uchar y in
      [alphabet_at (Z.shiftr p0 2); alphabet_at (Z.land (Z.shiftl p0 4 + Z.shiftr p1 4) 63);
       alphabet_at (Z.land (Z.shiftl p1 2 + Z.shiftr 0 6) 63); padding]
  | x :: y :: z :: r =>
      let i0 := uchar x in
      let i1 := uchar y in
      let i2 := uchar z in
      alphabet_at (Z.shiftr i0 2) :: alphabet_at (Z.land (Z.shiftl i0 4 + Z.shiftr i1 4) 63) ::
      alphabet_at (Z.land (Z.shiftl i1 2 + Z.shiftr i2 6) 63) :: alphabet_at (Z.land i2 63) :: encode_groups r
  end.

(** [None] when the string and its NUL do not fit into the block. *)
Definition base64Encode (input : list ascii) : option cstr :=
  let encoded := encode_groups input in
  if encodedLength (length input) <? length encoded + 1 then None else Some encoded.

Fixpoint index_in (c : ascii) (l : cstr) (i : Z) : option Z :=
  match l with [] => None | a :: r => if decide (a = c) then Some i else index_in c r (i + 1)%Z end.

(** [None] sets the error flag. *)
Definition getBase64Index (c : ascii) : option Z :=
  if decide (c = padding) then Some 0%Z else index_in c alphabet 0.

(** The bytes a turn of the loop of [base64Decode] writes. *)
Definition decode_group (c0 c1 c2 c3 : ascii) : option (list ascii) :=
  match getBase64Index c0, getBase64Index c1, getBase64Index c2, getBase64Index c3 with
  | Some b0, Some b1, Some b2, Some b3 =>
      Some (byte (Z.shiftl b0 2 + Z.shiftr b1 4) ::
            (if decide (c2 = padding) then [] else [byte (Z.shiftl b1 4 + Z.shiftr b2 2)]) ++
            (if decide (c3 = padding) then [] else [byte (Z.shiftl b2 6 + b3)]))
  | _, _, _, _ => None
  end.

Definition is_padding (c : option ascii) : nat := if decide (c = Some padding) then 1 else 0.

(** [*outputLength] *)
Definition outputLength (input : cstr) : nat :=
  length input / 4 * 3 - is_padding (input !! (length input - 1)) - is_padding (input !! (length input - 2)).

(** [output[outputIndex++] = c] for the bytes [out]; [None] behind the block. *)
Fixpoint write_bytes (block : list (option ascii)) (outputIndex : nat) (out : list ascii) : option (list (option ascii)) :=
  match out with
  | [] => Some block
  | c :: r => if outputIndex <? length block then write_bytes (<[outputIndex := Some c]> block) (S outputIndex) r else None
  end.

(** The loop: [Some None] frees the block after an invalid character. *)
Fixpoint decode_loop (input : cstr) (block : list (option ascii)) (outputIndex : nat) : option (option (list (option ascii))) :=
  match input with
  | c0 :: c1 :: c2 :: c3 :: r =>
      match decode_group c0 c1 c2 c3 with
      | None => Some None
      | Some o =>
          match write_bytes block outputIndex o with
          | None => None
          | Some block => decode_loop r block (outputIndex + length o)
          end
      end
  | _ => Some (Some block)
  end.

(** The result and the block [*output] points to, whose cells are [None] where
    nothing was written; [None] when the loop writes behind the block. *)
Definition base64Decode (input : cstr) : option (Z * option (list (option ascii))) :=
  if length input =? 0 then Some (1%Z, None)
  else if negb (length input mod 4 =? 0) then Some ((-1)%Z, None)
  else
    match decode_loop input (replicate (outputLength input) None) 0 with
    | None => None
    | Some None => Some ((-1)%Z, None)
    | Some (Some block) => Some (1%Z, Some block)
    end.

(** ** base64.c *)

Definition ELEKTRA_PLUGIN_BASE64_PREFIX : cstr := lit "@BASE64".
Definition ELEKTRA_PLUGIN_BASE64_ESCAPE : cstr := lit "@".
Definition ELEKTRA_PLUGIN_BASE64_ESCAPE_CHAR : ascii := "@"%char.

Section Base64.
Context {E : Env} (add_warning : ptr -> cstr -> M unit) (contract : M ptr).

(** [keySetBinary] reads the whole buffer. *)
Definition set_decoded (k : loc) (buffer : option (list (option ascii))) : M unit :=
  match buffer with
  | None => keySetBinary (Some k) None 0;; ret tt
  | Some cells =>
      match mapM id cells with
      | None => undefined
      | Some b => keySetBinary (Some k) (Some b) (length b);; ret tt
      end
  end.

Definition base64_get_key (parentKey : ptr) (_ : unit) (k : loc) : M unit :=
  isString <- keyIsString (Some k);;
  if negb (isString =? 1)%Z then ret tt
  else
    strVal <- keyString (Some k);;
    let prefixLen := length ELEKTRA_PLUGIN_BASE64_PREFIX in
    if (prefixLen <=? length strVal) && (strncmp strVal ELEKTRA_PLUGIN_BASE64_PREFIX prefixLen =? 0)%Z then
      match base64Decode (drop prefixLen strVal) with
      | None => undefined
      | Some (result, buffer) => if (result =? 1)%Z then set_decoded k buffer else add_warning parentKey strVal
      end
    else if (2 <=? length strVal) && (strncmp strVal (ELEKTRA_PLUGIN_BASE64_ESCAPE ++ ELEKTRA_PLUGIN_BASE64_ESCAPE) 2 =? 0)%Z then
      keySetString (Some k) (Some (drop 1 strVal));; ret tt
    else ret tt.

Definition base64Get (ks parentKey : ptr) : M Z :=
  b <- is_named parentKey "system/elektra/modules/base64";;
  if b : bool then
    moduleConfig <- contract;;
    ksAppend ks moduleConfig;;
    ksDel moduleConfig;;
    ret 1%Z
  else for_each ks (base64_get_key parentKey) tt;; ret 1%Z.

Definition base64_set_key (_ : unit) (k : loc) : M unit :=
  isString <- keyIsString (Some k);;
  (if (isString =? 1)%Z then
     strVal <- keyString (Some k);;
     if (0 <? length strVal) && (strncmp strVal ELEKTRA_PLUGIN_BASE64_ESCAPE 1 =? 0)%Z
     then keySetString (Some k) (Some (ELEKTRA_PLUGIN_BASE64_ESCAPE_CHAR :: strVal));; ret tt
     else ret tt
   else ret tt);;
  isBinary <- keyIsBinary (Some k);;
  if (isBinary =? 1)%Z then
    value <- keyValue (Some k);;
    size <- keyGetValueSize (Some k);;
    match base64Encode (take (Z.to_nat size) (default [] value)) with
    | None => undefined
    | Some base64 => keySetString (Some k) (Some (ELEKTRA_PLUGIN_BASE64_PREFIX ++ base64));; ret tt
    end
  else ret tt.

Definition base64Set (ks parentKey : ptr) : M Z := for_each ks base64_set_key tt;; ret 1%Z.
End Base64.

(** ** Decoding what was encoded *)

(** The bytes of all groups. *)
Fixpoint decode_groups (input : cstr) : option (list ascii) :=
  match input with
  | c0 :: c1 :: c2 :: c3 :: r =>
      match decode_group c0 c1 c2 c3, decode_groups r with Some o, Some os => Some (o ++ os) | _, _ => None end
  | _ => Some []
  end.

Lemma three_step (P : list ascii -> Prop) :
  P [] -> (forall x, P [x]) -> (forall x y, P [x; y]) -> (forall x y z r, P r -> P (x :: y :: z :: r)) -> forall l, P l.
Proof.
  intros H0 H1 H2 H3 l. induction l as [l IH] using (induction_ltof1 _ length). unfold ltof in IH.
  destruct l as [|x [|y [|z r]]]; [done..|]. apply H3, IH. simpl. lia.
Qed.

Lemma encode_groups_length l : length (encode_groups l) + 1 = encodedLength (length l).
Proof.
  induction l as [| | |x y z r IH] using three_step; [done..|]. cbn [encode_groups length]. unfold encodedLength in *.
  replace (S (S (S (length r)))) with (length r + 1 * 3) by lia. rewrite Nat.Div0.mod_add.
  destruct (length r mod 3 =? 0); [rewrite Nat.div_add by lia; lia|].
  replace (length r + 1 * 3 + (3 - length r mod 3)) with (length r + (3 - length r mod 3) + 1 * 3) by lia.
  rewrite Nat.div_add by lia. lia.
Qed.

Lemma base64Encode_fits l : base64Encode l = Some (encode_groups l).
Proof.
  unfold base64Encode. rewrite encode_groups_length. by destruct (Nat.ltb_spec (encodedLength (length l)) (encodedLength (length l))); [lia|].
Qed.

Lemma alphabet_index i : (0 <= i < 64)%Z -> getBase64Index (alphabet_at i) = Some i /\ alphabet_at i <> padding.
Proof.
  intros Hi. assert (i = Z.of_nat (Z.to_nat i)) as -> by lia. assert (Z.to_nat i < 64) as H by lia. revert H. clear Hi.
  generalize (Z.to_nat i). intros n Hn. do 64 (destruct n as [|n]; [split; [reflexivity|discriminate]|]). lia.
Qed.

Lemma index_padding : getBase64Index padding = Some 0%Z.
Proof. reflexivity. Qed.

Lemma land63 z : Z.land z 63 = (z mod 64)%Z.
Proof. apply (Z.land_ones z 6). lia. Qed.

(** The sextets of three bytes, and the bytes again. *)
Lemma sextets a b c : (0 <= a < 256)%Z -> (0 <= b < 256)%Z -> (0 <= c < 256)%Z ->
  let s0 := Z.shiftr a 2 in
  let s1 := Z.land (Z.shiftl a 4 + Z.shiftr b 4) 63 in
  let s2 := Z.land (Z.shiftl b 2 + Z.shiftr c 6) 63 in
  let s3 := Z.land c 63 in
  ((0 <= s0 < 64) /\ (0 <= s1 < 64) /\ (0 <= s2 < 64) /\ (0 <= s3 < 64) /\
   (Z.shiftl s0 2 + Z.shiftr s1 4) mod 256 = a /\ (Z.shiftl s1 4 + Z.shiftr s2 2) mod 256 = b /\
   (Z.shiftl s2 6 + s3) mod 256 = c)%Z.
Proof.
  intros Ha Hb Hc. cbv zeta. rewrite !land63, !Z.shiftl_mul_pow2, !Z.shiftr_div_pow2 by lia.
  change (2 ^ 2)%Z with 4%Z. change (2 ^ 4)%Z with 16%Z. change (2 ^ 6)%Z with 64%Z. Z.div_mod_to_equations. lia.
Qed.

Lemma byte_eq z c : (z mod 256)%Z = uchar c -> byte z = c.
Proof. intros H. apply uchar_inj. by rewrite uchar_byte. Qed.

Lemma decode_encode_group x y z :
  let e := encode_groups [x; y; z] in
  exists c0 c1 c2 c3, e = [c0; c1; c2; c3] /\ decode_group c0 c1 c2 c3 = Some [x; y; z] /\ c2 <> padding /\ c3 <> padding.
Proof.
  cbn zeta. cbn [encode_groups]. eexists _, _, _, _. split; [done|].
  destruct (sextets (uchar x) (uchar y) (uchar z)) as (H0 & H1 & H2 & H3 & E0 & E1 & E2); [apply uchar_range..|].
  destruct (alphabet_index _ H0) as [I0 _], (alphabet_index _ H1) as [I1 _], (alphabet_index _ H2) as [I2 P2], (alphabet_index _ H3) as [I3 P3].
  split; [|done]. unfold decode_group. rewrite I0, I1, I2, I3, !decide_False by done.
  by rewrite (byte_eq _ x E0), (byte_eq _ y E1), (byte_eq _ z E2).
Qed.

Lemma decode_encode_two x y :
  exists c0 c1 c2, encode_groups [x; y] = [c0; c1; c2; padding] /\ decode_group c0 c1 c2 padding = Some [x; y] /\ c2 <> padding.
Proof.
  cbn [encode_groups]. eexists _, _, _. split; [done|].
  destruct (sextets (uchar x) (uchar y) 0) as (H0 & H1 & H2 & _ & E0 & E1 & _); [apply uchar_range..|lia|].
  destruct (alphabet_index _ H0) as [I0 _], (alphabet_index _ H1) as [I1 _], (alphabet_index _ H2) as [I2 P2].
  split; [|done]. unfold decode_group. rewrite I0, I1, I2, index_padding, (decide_False (P := _ = padding)), decide_True by done.
  by rewrite (byte_eq _ x E0), (byte_eq _ y E1).
Qed.

Lemma decode_encode_one x :
  exists c0 c1, encode_groups [x] = [c0; c1; padding; padding] /\ decode_group c0 c1 padding padding = Some [x].
Proof.
  cbn [encode_groups]. eexists _, _. split; [done|].
  destruct (sextets (uchar x) 0 0) as (H0 & H1 & _ & _ & E0 & _); [apply uchar_range|lia..|].
  destruct (alphabet_index _ H0) as [I0 _], (alphabet_index _ H1) as [I1 _].
  unfold decode_group. rewrite I0, I1, index_padding, decide_True by done. by rewrite (byte_eq _ x E0).
Qed.

Lemma decode_encode_groups l : decode_groups (encode_groups l) = Some l.
Proof.
  induction l as [|x|x y|x y z r IH] using three_step; [done| | |].
  - destruct (decode_encode_one x) as (c0 & c1 & -> & H). cbn [decode_groups]. by rewrite H.
  - destruct (decode_encode_two x y) as (c0 & c1 & c2 & -> & H & _). cbn [decode_groups]. by rewrite H.
  - destruct (decode_encode_group x y z) as (c0 & c1 & c2 & c3 & Ee & H & _).
    assert (encode_groups (x :: y :: z :: r) = encode_groups [x; y; z] ++ encode_groups r) as -> by done.
    rewrite Ee. cbn [app decode_groups]. by rewrite H, IH.
Qed.

Lemma is_padding_le c : is_padding c <= 1.
Proof. unfold is_padding. case_decide; lia. Qed.

Lemma is_padding_no c : c <> padding -> is_padding (Some c) = 0.
Proof. intros Hc. unfold is_padding. by rewrite decide_False by congruence. Qed.

Lemma outputLength_group c0 c1 c2 c3 :
  outputLength [c0; c1; c2; c3] = 3 - is_padding (Some c3) - is_padding (Some c2).
Proof. done. Qed.

(** Behind the first groups [outputLength] is that of the rest. *)
Lemma outputLength_cons c0 c1 c2 c3 r :
  r <> [] -> length r mod 4 = 0 -> outputLength (c0 :: c1 :: c2 :: c3 :: r) = 3 + outputLength r.
Proof.
  intros Hr Hm. assert (4 <= length r) as Hl.
  { destruct r; [done|]. apply Nat.Div0.mod_divides in Hm as [q Hq]. destruct q; simpl in *; lia. }
  unfold outputLength. cbn [length].
  replace (S (S (S (S (length r))))) with (length r + 1 * 4) by lia. rewrite Nat.div_add by lia.
  replace (length r + 1 * 4 - 1) with (S (S (S (S (length r - 1))))) by lia.
  replace (length r + 1 * 4 - 2) with (S (S (S (S (length r - 2))))) by lia. cbn [lookup list_lookup].
  assert (1 <= length r / 4) by (apply Nat.div_le_lower_bound; lia).
  pose proof (is_padding_le (r !! (length r - 1))) as Ha. pose proof (is_padding_le (r !! (length r - 2))) as Hb.
  set (a := is_padding (r !! (length r - 1))) in *. set (b := is_padding (r !! (length r - 2))) in *. clearbody a b. lia.
Qed.

Lemma encode_groups_mod l : length (encode_groups l) mod 4 = 0.
Proof.
  induction l as [| | |x y z r IH] using three_step; [done..|]. cbn [encode_groups length].
  replace (S (S (S (S (length (encode_groups r)))))) with (length (encode_groups r) + 1 * 4) by lia. by rewrite Nat.Div0.mod_add.
Qed.

Lemma encode_groups_empty l : encode_groups l = [] -> l = [].
Proof. destruct l as [|x [|y [|z r]]]; done. Qed.

Lemma outputLength_encode l : outputLength (encode_groups l) = length l.
Proof.
  induction l as [|x|x y|x y z r IH] using three_step; [done| | |].
  - by destruct (decode_encode_one x) as (c0 & c1 & -> & _).
  - destruct (decode_encode_two x y) as (c0 & c1 & c2 & -> & _ & H2). by rewrite outputLength_group, (is_padding_no c2).
  - destruct (decode_encode_group x y z) as (c0 & c1 & c2 & c3 & Ee & _ & H2 & H3).
    assert (encode_groups (x :: y :: z :: r) = encode_groups [x; y; z] ++ encode_groups r) as -> by done. rewrite Ee. cbn [app].
    destruct (decide (r = [])) as [->|Hr].
    + by rewrite outputLength_group, !is_padding_no.
    + rewrite outputLength_cons, IH; [done| |apply encode_groups_mod]. by intros ?%encode_groups_empty.
Qed.

(** ** Decoding any string *)

Lemma four_step (P : list ascii -> Prop) :
  P [] -> (forall x y z w r, length r mod 4 = 0 -> P r -> P (x :: y :: z :: w :: r)) -> forall l, length l mod 4 = 0 -> P l.
Proof.
  intros H0 H4 l. induction l as [l IH] using (induction_ltof1 _ length). unfold ltof in IH. intros Hl.
  destruct l as [|x [|y [|z [|w r]]]]; try done. cbn [length] in Hl.
  replace (S (S (S (S (length r))))) with (length r + 1 * 4) in Hl by lia. rewrite Nat.Div0.mod_add in Hl.
  apply H4; [done|]. apply IH; [simpl; lia|done].
Qed.

Definition in_alphabet (c : ascii) : Prop := c = padding \/ c ∈ alphabet.

#[global] Instance in_alphabet_dec c : Decision (in_alphabet c).
Proof. unfold in_alphabet. apply _. Defined.

Lemma index_in_None c l i : index_in c l i = None <-> c ∉ l.
Proof.
  revert i. induction l as [|a l IH]; intros i; simpl; [split; [set_solver|done]|].
  case_decide; [subst; split; [done|set_solver]|]. rewrite IH. set_solver.
Qed.

Lemma getBase64Index_None c : getBase64Index c = None <-> ~ in_alphabet c.
Proof.
  unfold getBase64Index, in_alphabet. case_decide; [split; [done|tauto]|]. rewrite index_in_None. tauto.
Qed.

Lemma decode_group_None c0 c1 c2 c3 : decode_group c0 c1 c2 c3 = None <-> ~ Forall in_alphabet [c0; c1; c2; c3].
Proof.
  unfold decode_group. rewrite !Forall_cons, Forall_nil.
  pose proof (getBase64Index_None c0). pose proof (getBase64Index_None c1).
  pose proof (getBase64Index_None c2). pose proof (getBase64Index_None c3).
  destruct (getBase64Index c0), (getBase64Index c1), (getBase64Index c2), (getBase64Index c3);
    destruct (decide (in_alphabet c0)), (decide (in_alphabet c1)), (decide (in_alphabet c2)), (decide (in_alphabet c3));
    (split; [done || naive_solver|naive_solver]).
Qed.

Lemma decode_groups_None l : length l mod 4 = 0 -> decode_groups l = None <-> ~ Forall in_alphabet l.
Proof.
  revert l. apply (four_step (fun l => decode_groups l = None <-> ~ Forall in_alphabet l)).
  - split; [done|]. intros H. by destruct H.
  - intros x y z w r _ IH. cbn [decode_groups]. pose proof (decode_group_None x y z w) as Hg.
    change (x :: y :: z :: w :: r) with ([x; y; z; w] ++ r). rewrite Forall_app.
    destruct (decode_group x y z w), (decode_groups r), (decide (Forall in_alphabet [x; y; z; w])), (decide (Forall in_alphabet r));
      naive_solver.
Qed.

Lemma decode_group_length c0 c1 c2 c3 o :
  decode_group c0 c1 c2 c3 = Some o -> length o = 3 - is_padding (Some c3) - is_padding (Some c2).
Proof.
  unfold decode_group. destruct (getBase64Index c0), (getBase64Index c1), (getBase64Index c2), (getBase64Index c3); try done.
  intros [= <-]. unfold is_padding. cbn [length]. rewrite length_app.
  destruct (decide (c2 = padding)), (decide (c3 = padding)); subst;
    rewrite ?(decide_True (P := Some padding = _)), ?decide_False by congruence; done.
Qed.

Lemma decode_groups_fits l o : length l mod 4 = 0 -> decode_groups l = Some o -> length o <= outputLength l.
Proof.
  intros Hl. revert l Hl o.
  apply (four_step (fun l => forall o, decode_groups l = Some o -> length o <= outputLength l)).
  - by intros o [= <-].
  - intros x y z w r Hr IH o Ho. cbn [decode_groups] in Ho.
    destruct (decode_group x y z w) as [o1|] eqn:E1; [|done]. destruct (decode_groups r) as [o2|] eqn:E2; [|done].
    injection Ho as <-. apply decode_group_length in E1. rewrite length_app. specialize (IH o2 eq_refl).
    destruct (decide (r = [])) as [->|Hne]; [injection E2 as <-; rewrite outputLength_group; simpl; lia|].
    rewrite outputLength_cons by done. lia.
Qed.

(** Bytes written inside of the block. *)
Lemma write_bytes_spec block i out :
  i + length out <= length block ->
  write_bytes block i out = Some (take i block ++ map Some out ++ drop (i + length out) block).
Proof.
  revert block i. induction out as [|c out IH]; intros block i Hi; cbn [write_bytes map length] in *.
  { cbn [app]. by rewrite Nat.add_0_r, take_drop. }
  destruct (Nat.ltb_spec i (length block)); [|lia]. rewrite IH by (rewrite length_insert; lia). f_equal.
  rewrite (take_S_r _ _ (Some c)) by (by apply list_lookup_insert_eq). rewrite take_insert_ge, drop_insert_lt by lia.
  rewrite <- app_assoc. by replace (S i + length out) with (i + S (length out)) by lia.
Qed.

(** The loop writes the bytes of the groups, also those before an invalid character,
    inside of the block. *)
Lemma decode_loop_spec l : length l mod 4 = 0 -> forall block i, i + outputLength l <= length block ->
  decode_loop l block i =
  Some (match decode_groups l with
        | None => None
        | Some out => Some (take i block ++ map Some out ++ drop (i + length out) block)
        end).
Proof.
  revert l. apply (four_step (fun l => forall block i, i + outputLength l <= length block -> decode_loop l block i = Some _)).
  { intros block i _. simpl. by rewrite Nat.add_0_r, take_drop. }
  intros x y z w r Hr IH block i Hi. cbn [decode_loop decode_groups].
  destruct (decode_group x y z w) as [o|] eqn:E1; [|done]. pose proof (decode_group_length _ _ _ _ _ E1) as Ho.
  assert (length o + outputLength r <= outputLength (x :: y :: z :: w :: r)) as Hfit.
  { destruct (decide (r = [])) as [->|Hne]; [change (outputLength []) with 0; rewrite outputLength_group, Ho; lia|]. rewrite outputLength_cons by done. lia. }
  rewrite write_bytes_spec by lia. rewrite IH.
  2: { rewrite !length_app, length_take, length_map, length_drop. lia. }
  destruct (decode_groups r) as [os|]; [|done]. do 2 f_equal.
  assert (length (take i block) = i) as Ht by (rewrite length_take; lia).
  assert (length (take i block ++ map Some o) = i + length o) as Hto by (by rewrite length_app, Ht, length_map).
  rewrite map_app, <- !app_assoc, (app_assoc (take i block)). rewrite take_app_length' by done. rewrite <- !app_assoc. do 3 f_equal.
  rewrite (app_assoc (take i block)), drop_app. rewrite (drop_ge (_ ++ _)) by lia. rewrite Hto, drop_drop, length_app. simpl. f_equal. lia.
Qed.

Lemma decode_loop_new l : length l mod 4 = 0 ->
  decode_loop l (replicate (outputLength l) None) 0 =
  Some (match decode_groups l with
        | None => None
        | Some out => Some (map Some out ++ replicate (outputLength l - length out) None)
        end).
Proof.
  intros Hl. rewrite decode_loop_spec by (done || by rewrite length_replicate). by destruct (decode_groups l); [rewrite drop_replicate|].
Qed.

(** C18.  [base64Decode] gives back the bytes [base64Encode] got, and both stay inside
    of the blocks they allocate; no bytes come back as NULL. *)
Theorem base64_roundtrip input :
  exists encoded, base64Encode input = Some encoded /\
    base64Decode encoded = Some (1%Z, if input is [] then None else Some (map Some input)).
Proof.
  exists (encode_groups input). split; [apply base64Encode_fits|]. unfold base64Decode.
  destruct (Nat.eqb_spec (length (encode_groups input)) 0) as [H0|H0].
  { apply nil_length_inv, encode_groups_empty in H0 as ->. done. }
  rewrite encode_groups_mod, decode_loop_new by apply encode_groups_mod. rewrite decode_encode_groups, outputLength_encode.
  cbn [negb Nat.eqb]. rewrite Nat.sub_diag, app_nil_r. by destruct input.
Qed.

(** C19.  [base64Decode] stays inside of its block for every string, also with the bytes
    before an invalid character.  It fails exactly when the length is no multiple of four
    or a character is neither in the alphabet nor the padding; padding may stand
    anywhere, so that AA==AAAA is decoded with the result 1.  Then the block has
    [outputLength] bytes: first the decoded ones, group after group, and those behind
    are not written: with padding inside of the string the plugin reads bytes that were
    never written. *)
Theorem base64Decode_spec input :
  exists result out, base64Decode input = Some (result, out) /\ (result = 1%Z \/ result = (-1)%Z) /\
    (result = (-1)%Z <-> length input mod 4 <> 0 \/ ~ Forall in_alphabet input) /\
    (result = (-1)%Z -> out = None) /\
    (result = 1%Z -> input <> [] -> exists cells bytes, out = Some cells /\ length cells = outputLength input /\
       decode_groups input = Some bytes /\ take (length bytes) cells = map Some bytes /\
       forall i, length bytes <= i < length cells -> cells !! i = Some None).
Proof.
  unfold base64Decode. destruct (Nat.eqb_spec (length input) 0) as [H0|H0].
  { apply nil_length_inv in H0 as ->. exists 1%Z, None. split_and!; [done|by left| |done|done]. split; [done|]. intros [?|H]; [done|]. by destruct H. }
  destruct (Nat.eqb_spec (length input mod 4) 0) as [Hm|Hm]; cbn [negb].
  2: { exists (-1)%Z, None. split_and!; [done|by right| |done|done]. split; [by left|done]. }
  rewrite decode_loop_new by done.
  pose proof (decode_groups_None input Hm) as HN. destruct (decode_groups input) as [o|] eqn:Eo.
  - pose proof (decode_groups_fits input o Hm Eo) as Hf.
    eexists 1%Z, _. split_and!; [done|by left| |done|].
    + split; [done|]. intros [?|H']; [done|]. by apply HN in H'.
    + intros _ _. eexists _, o. split_and!; [done| |done| |].
      * rewrite length_app, length_map, length_replicate. lia.
      * rewrite <- (length_map Some o). apply take_app_length.
      * intros i Hi. rewrite length_app, length_map, length_replicate in Hi. rewrite lookup_app_r by (rewrite length_map; lia).
        apply lookup_replicate_2. rewrite length_map. lia.
  - exists (-1)%Z, None. split_and!; [done|by right| |done|done]. split; [|done]. intros _. right. by apply HN.
Qed.
