(* ===== verification/Cachefilter.v ===== *)
(** * Cachefilter: keys that are kept aside

    [plugins/cachefilter/cachefilter.c] and [plugins/hidden/hidden.c]: the first keeps
    the keys outside of the parent key from the application, the second those that
    are not inactive, and both put them back before the keys are stored.  The private
    data [elektraPluginGetData] returns, a keyset, is an argument and a result;
    the contracts, which the build generates, are arguments. *)
From S2P Require Export Filter Merge CutFacts.
#[local] Open Scope elektra_scope.

Section Cachefilter.
Context {E : Env}.

(** The keys outside of [parentKey] move to [toBeCached]. *)
Definition filter_cached (toBeCached : loc) (returned parentKey : ptr) : M unit :=
  temp <- ksCut returned parentKey;;
  ksAppend (Some toBeCached) returned;;
  match returned with
  | None => undefined
  | Some r => ksClear r;; ret tt
  end;;
  ksAppend returned temp;;
  ksDel temp;;
  ret tt.

(** The result comes with the data [elektraPluginSetData] stores. *)
Definition elektraCachefilterGet (contract : M ptr) (data returned parentKey : ptr) : M (Z * ptr) :=
  b <- is_named parentKey "system/elektra/modules/cachefilter";;
  if b : bool then
    contract <- contract;;
    ksAppend returned contract;;
    ksDel contract;;
    ret (1%Z, data)
  else
    toBeCached <- (match data with
                   | Some c => ret c
                   | None => n <- ksGetSize returned;; ksNew (Z.to_nat n) []
                   end);;
    filter_cached toBeCached returned parentKey;;
    ret (1%Z, Some toBeCached).

(** [set_error] is what [ELEKTRA_SET_ERROR_SET] does to the parent key. *)
Definition elektraCachefilterSet (set_error : ptr -> M unit) (data returned parentKey : ptr) : M Z :=
  match data with
  | None => set_error parentKey;; ret (-1)%Z
  | Some _ => ksAppend returned data;; ret 1%Z
  end.

Definition elektraCachefilterClose (data : ptr) : M Z :=
  (if data is Some _ then ksDel data else ret 0%Z);; ret 1%Z.

(** ** hidden *)

Definition elektraHiddenOpen : M (Z * ptr) := ks <- ksNew 0 [];; ret (1%Z, Some ks).

Definition elektraHiddenClose (data : ptr) : M Z := ksDel data;; ret 1%Z.

(** One turn of the loop; the cursor of [returned] is not rewound before. *)
Definition hide_key (newReturned hiddenKeys : ptr) (cur : loc) : M unit :=
  inactive <- keyIsInactive (Some cur);;
  (if (inactive =? 0)%Z then ksAppendKey hiddenKeys (Some cur) else ksAppendKey newReturned (Some cur));;
  ret tt.

Definition elektraHiddenGet (contract : M ptr) (data returned parentKey : ptr) : M Z :=
  b <- is_named parentKey "system/elektra/modules/hidden";;
  if b : bool then
    pluginConfig <- contract;;
    ksAppend returned pluginConfig;;
    ksDel pluginConfig;;
    ret 1%Z
  else
    n <- ksGetSize returned;;
    newReturned <- ksNew (Z.to_nat n) [];;
    match data with
    | None => undefined
    | Some hidden => ksClear hidden;; ret tt
    end;;
    fuel <- ks_turns returned;;
    each_key fuel returned (fun _ cur => hide_key (Some newReturned) data cur) tt;;
    ksCopy returned (Some newReturned);;
    ksDel (Some newReturned);;
    ret 1%Z.

Definition elektraHiddenSet (data returned : ptr) : M Z := ksAppend returned data;; ret 1%Z.
End Cachefilter.

(** ** Caching *)

Section CachefilterFacts.
Context {E : Env} {HR : RecLaws env_rec} (idf : loc -> kid) (path : loc -> cstr * list cstr).

(** The keys of [ls] at and below the name with the parts [ps] in the namespace [n],
    and the others. *)
Definition inside (n : cstr) (ps : list cstr) (ls : list loc) : list loc := List.filter (subtree path n ps) ls.
Definition outside (n : cstr) (ps : list cstr) (ls : list loc) : list loc := List.filter (fun x => negb (subtree path n ps x)) ls.

(** The keyset [l] with the keys [ls] and the cache [tc] with the keys [cs]: the keysets
    hold references to their keys, whose counters have room for another one, and are no
    metadata; keys of the cache that will be replaced may be dropped. *)
Record cacheable (K : gmap loc Key) (S : gmap loc KeySet) (l : loc) (ls : list loc) (tc : loc) (cs : list loc)
    (n : cstr) (ps : list cstr) : Prop := {
  cb_keys : keyset_ok K S idf l ls;
  cb_cache : keyset_ok K S idf tc cs;
  cb_ne : tc <> l;
  cb_rooted : rooted K path ls;
  cb_refs x k : x ∈ ls -> K !! x = Some k -> (if decide (x ∈ cs) then 2 else 1) <= k_ksReference k /\
    (Z.of_nat (k_ksReference k) < SSIZE_MAX)%Z;
  cb_metas y k m : K !! y = Some k -> k_meta k = Some m -> m <> l /\ m <> tc /\ is_Some (S !! m);
  cb_replaced z x : z ∈ cs -> x ∈ outside n ps ls -> idf x = idf z -> x = z \/ droppable K z /\ unlisted K S z
}.

(** What becomes of the key at [z]: the references of [l] to keys outside go over to the
    cache, or are dropped when the cache has one. *)
Definition cached_key (ls cs : list loc) (n : cstr) (ps : list cstr) (z : loc) (k : Key) : option Key :=
  if decide (z ∈ ls) then
    Some (if decide (z ∈ outside n ps ls /\ z ∈ cs) then set_ref (locked k) (k_ksReference k - 1) else locked k)
  else appended_key idf cs (outside n ps ls) z k.

Lemma inside_outside n ps ls x : x ∈ ls <-> x ∈ inside n ps ls \/ x ∈ outside n ps ls.
Proof.
  unfold inside, outside. rewrite !elem_of_filter_bool. destruct (subtree path n ps x); simpl; naive_solver.
Qed.

Lemma inside_not_outside n ps ls x : x ∈ inside n ps ls -> x ∉ outside n ps ls.
Proof. unfold inside, outside. rewrite !elem_of_filter_bool. intros [_ ->] [_ ?]. done. Qed.

Lemma cacheable_inj K S l ls tc cs n ps x y :
  cacheable K S l ls tc cs n ps -> x ∈ ls -> y ∈ ls -> idf x = idf y -> x = y.
Proof.
  intros Hc. apply (kid_sorted_inj idf ls); [|apply Hc]. intros z. eapply keyset_ok_kid, Hc.
Qed.

Lemma cached_key_steps ls cs n ps z k :
  (replaced idf cs (outside n ps ls) z -> z ∉ ls) -> (z ∈ ls -> (Z.of_nat (k_ksReference k) < SSIZE_MAX)%Z) ->
  (appended_key idf cs (outside n ps ls) z k ≫= fun k0 =>
     Some (if decide (z ∈ outside n ps ls) then set_ref k0 (k_ksReference k0 - 1) else k0)) ≫= (fun k0 =>
     Some (if decide (z ∈ inside n ps ls) then locked k0 else k0)) = cached_key ls cs n ps z k.
Proof.
  intros Hr Hmax. unfold cached_key. destruct (decide (z ∈ inside n ps ls)) as [Hi|Hi].
  - pose proof (inside_not_outside _ _ _ _ Hi) as Ho. assert (z ∈ ls) as Hl by (apply (inside_outside n ps); by left).
    rewrite (decide_True (P := z ∈ ls)) by done. rewrite (decide_False (P := _ /\ _)) by tauto.
    rewrite appended_key_kept; [simpl; by rewrite decide_False|done|].
    intros Hz y Hy Ey. by apply Hr; [split_and!; [done..|by exists y]|].
  - destruct (decide (z ∈ outside n ps ls)) as [Ho|Ho].
    + assert (z ∈ ls) as Hl by (apply (inside_outside n ps); by right). rewrite (decide_True (P := z ∈ ls)) by done.
      rewrite appended_key_in by done. simpl. destruct (decide (z ∈ cs)); [by rewrite decide_True|].
      rewrite decide_False by tauto. rewrite referenced_back; [done|by apply Hmax].
    + rewrite decide_False by (rewrite (inside_outside n ps); tauto). by destruct (appended_key _ _ _ _ _).
Qed.

Lemma filter_cached_spec K S l s ls tc cs c n ps :
  cacheable K S l ls tc cs n ps -> S !! l = Some s -> cursor_on s ls -> has_path K c (Some n) ps ->
  wp (filter_cached tc (Some l) (Some c))
    (fun _ h => exists rs, merged idf cs (outside n ps ls) rs /\
       keyset_ok (h_keys h) (h_sets h) idf tc rs /\ keyset_ok (h_keys h) (h_sets h) idf l (inside n ps ls) /\
       (forall z, h_keys h !! z = k ← K !! z; cached_key ls cs n ps z k) /\
       sets_sim (metas_of K (cs ++ ls)) (delete l (delete tc S)) (delete l (delete tc (h_sets h)))) (mkHeap K S).
Proof.
  intros Hc Hs Hon Hpath. pose proof Hc as [Hks Hcache Hne Hroot Hrefs Hmetas Hrepl].
  assert (no_meta K l /\ no_meta K tc) as [Hml Hmtc].
  { split; intros y k Hk Hm; by destruct (Hmetas y k _ Hk Hm) as (? & ? & _). }
  unfold filter_cached. apply wp_bind. eapply ksCut_spec; [done..|].
  intros lr S1 (Hlr & HS1 & Hok_lr & Hok_l & _). fold (inside n ps ls) in Hok_lr. fold (outside n ps ls) in Hok_l.
  assert (no_meta K lr) as Hmlr by (intros y k Hk Hm; destruct (Hmetas y k _ Hk Hm) as (_ & _ & [? ?]); congruence).
  assert (lr <> l) as Hlrl by (intros ->; congruence).
  assert (lr <> tc) as Hlrtc by (intros ->; destruct (kso_rep _ _ _ _ _ Hcache) as (sc & Hsc & _); congruence).
  assert (forall m, m <> lr -> m <> l -> S1 !! m = S !! m) as HS1m.
  { intros m H1 H2. pose proof (f_equal (fun x => x !! m) HS1) as H. simpl in H. by rewrite !lookup_delete_ne in H. }
  assert (keyset_ok K S1 idf tc cs) as Hcache1.
  { eapply keyset_ok_sets; [exact Hcache|by apply HS1m|]. intros m' Hm'. apply HS1m; intros ->; [exact (no_meta_metas _ _ _ Hmlr Hm')|exact (no_meta_metas _ _ _ Hml Hm')]. }
  assert (forall z, replaced idf cs (outside n ps ls) z -> droppable K z /\ unlisted K S z /\ z ∉ ls) as Hr.
  { intros z (Hz & Hzo & x & Hx & Ex). destruct (Hrepl z x Hz Hx Ex) as [->|[Hd Hu]]; [done|]. split_and!; [done..|].
    intros Hzl. assert (x = z) as ->; [|done]. eapply cacheable_inj; [exact Hc| |done|done]. apply (inside_outside n ps). by right. }
  assert (forall z, unlisted K S z -> unlisted K S1 z) as Hunl.
  { intros z Hu y k m s0 ms Hy Hm Hs0. apply (Hu y k m s0 ms); [done..|]. rewrite <- Hs0. symmetry. apply HS1m; intros ->; [by eapply Hmlr|by eapply Hml]. }
  apply wp_bind. eapply wp_mono; [apply (ksAppend_spec idf K S1 tc l cs (outside n ps ls))|].
  { split; [done..| |exact Hmtc|by intros y k _; apply Hml|].
    - intros x k Hx Hk. destruct (Hroot x) as (_ & k' & Hk' & Hn & _); [apply (inside_outside n ps); by right|]. congruence.
    - intros z x Hz Hx Ex. destruct (Hrepl z x Hz Hx Ex) as [?|[Hd Hu]]; [by left|right]. auto. }
  intros _ [K2 S2] (rs & Hm & _ & Hok_tc2 & Hok_l2 & HK2 & Hsim2 & _). cbn [h_keys h_sets] in *.
  assert (no_meta K2 l /\ no_meta K2 tc /\ no_meta K2 lr) as (Hml2 & Hmtc2 & Hmlr2) by (split_and!; by eapply no_meta_appended).
  assert (keyset_ok K2 S2 idf lr (inside n ps ls)) as Hok_lr2.
  { eapply keyset_ok_appended; [exact HK2|exact Hsim2|by apply no_meta_metas|done..| |exact Hok_lr].
    intros z (_ & Hu & Hzl)%Hr. split; [|by apply Hunl]. intros Hz. apply Hzl, (inside_outside n ps). by left. }
  assert (forall ls' l', keyset_ok K S1 idf l' ls' -> NoDup ls') as Hnd.
  { intros ls' l' Hok. eapply kid_sorted_NoDup, Hok. intros x Hx. by eapply keyset_ok_kid. }
  assert (forall x, x ∈ outside n ps ls -> exists k, K2 !! x = Some k /\ 1 < k_ksReference k) as Hrefs2.
  { intros x Hx. destruct (kso_ids _ _ _ _ _ Hok_l x Hx) as (k & Hk & _). rewrite HK2, Hk. simpl. rewrite appended_key_in by done.
    eexists. split; [done|]. destruct (Hrefs x k ltac:(by apply (inside_outside n ps); right) Hk) as [Href _].
    case_decide; simpl; [lia|by apply one_more_several]. }
  destruct (kso_rep _ _ _ _ _ Hok_l2) as (s2 & Hs2 & Hrep2). cbv iota.
  apply wp_assoc, wp_bind. eapply ksClear_spec; [exact Hs2|exact Hrep2|by eapply Hnd| |].
  { intros x Hx. destruct (Hrefs2 x Hx) as (k & Hk & ?). exists k. auto. }
  intros s3 Hrep3. apply wp_ret_bind.
  destruct (release_ids K2 (outside n ps ls) (Hnd _ _ Hok_l) Hrefs2) as [Hids3 HK3].
  assert (forall m, no_meta K2 m -> no_meta (foldl release K2 (outside n ps ls)) m) as Hmeta3.
  { intros m Hm2 y k' Hk'. rewrite HK3 in Hk'. destruct (K2 !! y) as [k|] eqn:Ey; [|done]. simpl in Hk'. injection Hk' as <-.
    case_decide; simpl; by eapply Hm2. }
  assert (forall m zs, m <> l -> no_meta K2 m -> keyset_ok K2 S2 idf m zs ->
    keyset_ok (foldl release K2 (outside n ps ls)) (<[l := s3]> S2) idf m zs) as Hok3.
  { intros m zs Hml' Hmm Hok. apply (keyset_ok_insert idf _ _ l); [|done|by apply Hmeta3]. eapply keyset_ok_same_ids; [exact Hids3|by apply Hmeta3|done]. }
  eapply (refill_spec idf _ _ l lr s3 (inside n ps ls)); [by apply Hok3|apply lookup_insert_eq|exact Hrep3|by apply not_eq_sym|by apply Hmeta3..| |].
  { intros x k' Hx Hk'. rewrite HK3, HK2 in Hk'. pose proof (inside_not_outside _ _ _ _ Hx) as Hxo.
    assert (x ∈ ls) as Hxl by (apply (inside_outside n ps); by left).
    destruct (kso_ids _ _ _ _ _ Hks x Hxl) as (k & Hk & _). rewrite Hk in Hk'. simpl in Hk'. rewrite appended_key_kept in Hk'.
    - simpl in Hk'. rewrite decide_False in Hk' by done. injection Hk' as <-. destruct (Hrefs x k Hxl Hk) as [Href Hmax].
      destruct (Hroot x Hxl) as (_ & k' & Hk' & Hn & _). split_and!; [case_decide; lia|done|congruence].
    - done.
    - intros Hxc y Hy Ey. destruct (Hr x) as (_ & _ & ?); [|done]. split_and!; [done..|by exists y]. }
  intros K4 S4 Hok4 Hids4 HK4 Hsim4. exists rs. split_and!; [done| |done| |].
  - assert (no_meta K4 tc) as Hmtc4.
    { intros y k' Hk'. rewrite HK4 in Hk'. destruct (foldl _ _ _ !! y) as [k|] eqn:Ey; [|done]. simpl in Hk'. injection Hk' as <-.
      case_decide; simpl; by eapply Hmeta3. }
    eapply keyset_ok_same_ids; [exact Hids4|done|].
    eapply (keyset_ok_sim_delete idf _ _ _ _ l); [exact Hsim4|by apply no_meta_metas, Hmeta3|done|by apply Hmeta3..|].
    apply keyset_ok_delete; [by apply Hok3|by apply not_eq_sym|by apply Hmeta3].
  - intros z. rewrite HK4, HK3, HK2. destruct (K !! z) as [k|] eqn:Ek; [|done]. simpl. apply cached_key_steps; [by intros (_ & _ & ?)%Hr|]. intros Hz. by apply (Hrefs z k Hz Ek).
  - assert (delete l (delete tc S) = delete lr (delete l (delete tc S1))) as ->.
    { by rewrite (delete_delete S l tc), <- HS1, (delete_delete _ tc lr), (delete_delete _ tc l). }
    assert (delete l (delete tc S4) = delete tc (delete l S4)) as Hc4 by apply delete_delete.
    cbn [h_sets]. rewrite Hc4. etrans; [|apply sets_sim_delete; eapply sets_sim_weaken, Hsim4].
    + assert (delete tc (delete l (delete lr (<[l:=s3]> S2))) = delete lr (delete l (delete tc S2))) as ->.
      { by rewrite (delete_delete _ l lr), delete_insert_any, (delete_delete _ tc lr), (delete_delete _ tc l). }
      do 2 apply sets_sim_delete. eapply sets_sim_weaken, Hsim2. intros m (x & k & Hx & ?). exists x, k. split; [|done].
      rewrite elem_of_app in *. destruct Hx as [?|Hx]; [by left|right]. apply (inside_outside n ps). by right.
    + intros m (x & k' & Hx & Hk' & Hkm). rewrite HK3, HK2 in Hk'. destruct (K !! x) as [k|] eqn:Ek; [|done]. simpl in Hk'.
      destruct (appended_key _ _ _ _ k) as [k2|] eqn:Ek2; [|done]. simpl in Hk'. apply appended_key_meta in Ek2 as (_ & Ek2 & _).
      exists x, k. split_and!; [|done|].
      * rewrite elem_of_app. right. apply (inside_outside n ps). by left.
      * rewrite <- Ek2, <- Hkm. injection Hk' as <-. by case_decide.
Qed.

(** ** Putting the keys back *)

Lemma merged_back ls n ps rs : (forall x, x ∈ ls -> kid_ok (idf x)) -> kid_sorted idf ls ->
  merged idf (inside n ps ls) (outside n ps ls) rs -> rs = ls.
Proof.
  intros Hok Hs [Hrs Hin]. symmetry. apply (kid_sorted_ext idf); [done..|]. intros z. rewrite Hin, (inside_outside n ps). split.
  - intros [Hz|?]; [right|by left]. split; [done|]. intros y Hy Ey. apply (inside_not_outside _ _ _ _ Hz).
    assert (y = z) as <-; [|done]. apply (kid_sorted_inj idf ls); [done|done| | |done]; apply (inside_outside n ps); auto.
  - tauto.
Qed.

(** The keyset [l] with the keys [ls] holds a reference to each of them, whose counter has
    room for another one; it is no metadata and the metadata of all keys is allocated. *)
Record returned_ok (K : gmap loc Key) (S : gmap loc KeySet) (l : loc) (ls : list loc) : Prop := {
  rt_keys : keyset_ok K S idf l ls;
  rt_rooted : rooted K path ls;
  rt_refs x k : x ∈ ls -> K !! x = Some k -> 1 <= k_ksReference k /\ (Z.of_nat (k_ksReference k) < SSIZE_MAX)%Z;
  rt_metas y k m : K !! y = Some k -> k_meta k = Some m -> m <> l /\ is_Some (S !! m)
}.

(** Without a cache the keys outside are all it gets. *)
Lemma elektraCachefilterGet_first contract K S l s ls c n ps (Q : Z * ptr -> heap -> Prop) :
  returned_ok K S l ls -> S !! l = Some s -> cursor_on s ls -> has_path K c (Some n) ps ->
  bool_decide (strcmp (path_name (Some n) ps) (lit "system/elektra/modules/cachefilter") = 0%Z) = false ->
  (forall tc K' S', S !! tc = None -> keyset_ok K' S' idf tc (outside n ps ls) -> keyset_ok K' S' idf l (inside n ps ls) ->
     (forall z, K' !! z = k ← K !! z; Some (if decide (z ∈ ls) then locked k else k)) ->
     sets_sim (metas_of K ls) (delete l S) (delete l (delete tc S')) -> Q (1%Z, Some tc) (mkHeap K' S')) ->
  wp (elektraCachefilterGet contract None (Some l) (Some c)) Q (mkHeap K S).
Proof.
  intros [Hks Hroot Hrefs Hmetas] Hs Hon Hpath Hname HQ. pose proof Hpath as (Hpok & kc & Hkc & Hnc & _).
  unfold elektraCachefilterGet. eapply is_named_spec; [done..|].
  apply wp_bind, wp_bind. unfold ksGetSize. do 2 wstep. apply ksNew_empty_spec. intros sc Hsc _ _.
  set (tc := fresh_loc S) in *. assert (S !! tc = None) as Htc by apply fresh_loc_None.
  assert (tc <> l) as Hne by (intros ->; congruence).
  assert (no_meta K tc) as Hmtc by (intros y k Hk Hm; destruct (Hmetas y k _ Hk Hm) as [_ [? ?]]; congruence).
  apply wp_bind. eapply wp_mono; [apply (filter_cached_spec K (<[tc := sc]> S) l s ls tc [] c n ps)|].
  - split; [by apply keyset_ok_insert|by eapply keyset_ok_nil; [apply lookup_insert_eq|]|done..| | |by intros z x Hz%not_elem_of_nil].
    + intros x k Hx Hk. rewrite decide_False by apply not_elem_of_nil. by eapply Hrefs.
    + intros y k m Hk Hm. destruct (Hmetas y k m Hk Hm) as [Hml Hmi]. split_and!; [done|by intros ->; eapply Hmtc|].
      rewrite lookup_insert_ne; [done|]. intros <-. by eapply Hmtc.
  - by rewrite lookup_insert_ne.
  - done.
  - done.
  - intros _ [K' S'] (rs & Hm & Hok1 & Hok2 & HK' & Hsim). apply wp_ret. cbn [h_keys h_sets app] in *.
    assert (rs = outside n ps ls) as ->.
    { apply merged_empty in Hm; [done| |].
      - intros x Hx. eapply keyset_ok_kid; [exact Hks|]. apply (inside_outside n ps). by right.
      - by apply StronglySorted_filter, Hks. }
    apply HQ; [done..| |].
    + intros z. rewrite HK'. destruct (K !! z) as [k|]; [|done]. simpl. unfold cached_key. destruct (decide (z ∈ ls)) as [Hz|Hz].
      * rewrite (decide_False (P := _ /\ _)); [done|]. rewrite elem_of_nil. tauto.
      * rewrite appended_key_kept; [done| |by intros ?%not_elem_of_nil]. intros Ho. apply Hz, (inside_outside n ps). by right.
    + rewrite delete_insert_id in Hsim by done. done.
Qed.

End CachefilterFacts.
