(* ===== verification/Lineendings.v ===== *)
(** * Lineendings: the kind of line endings of a file

    [plugins/lineendings/lineendings.c]: a file is read byte by byte and rejected when
    its line endings are not the configured ones or not all the same. *)
From S2P Require Export Stdio Env Filter.
#[local] Open Scope elektra_scope.

Definition LF_BYTE : ascii := ascii_of_nat 10.
Definition CR_BYTE : ascii := ascii_of_nat 13.

Inductive Lineending := NA | CR | LF | CRLF | LFCR.

#[global] Instance Lineending_eq_dec : EqDecision Lineending.
Proof. solve_decision. Defined.

Definition LEString (index : Lineending) : string :=
  match index with NA => "NA" | CR => "CR" | LF => "LF" | CRLF => "CRLF" | LFCR => "LFCR" end.

(** The first one with the name. *)
Definition strToLE (str : cstr) : Lineending :=
  default NA (head (List.filter (fun e => bool_decide (strcmp (lit (LEString e)) str = 0%Z)) [NA; CR; LF; CRLF; LFCR])).

(** ** Reading the file *)

(** The line ending the two bytes make. *)
Definition found_ending (fc sc : ascii) : Lineending :=
  if decide (fc = LF_BYTE) then
    if decide (sc = CR_BYTE) then LFCR else if decide (sc = LF_BYTE) then LF else if decide (sc = NUL) then NA else LF
  else if decide (fc = CR_BYTE) then
    if decide (sc = LF_BYTE) then CRLF else if decide (sc = CR_BYTE) then CR else if decide (sc = NUL) then NA else CR
  else NA.

(** [fread (&c, 1, 1, fp)]: at the end of the file [c] stays. *)
Definition fread1 (c : ascii) (fp : stream) : ascii * stream :=
  match fgetc fp with (Some c, fp) => (c, fp) | (None, fp) => (c, fp) end.

(** The result is 0, or -2 or -3 with the number of a line. *)
Fixpoint endings_loop (fuel : nat) (validLineEnding lineEnding : Lineending) (fc sc : ascii) (line : Z) (fp : stream) : option (Z * Z) :=
  match fuel with
  | O => None
  | S fuel =>
      if st_eof fp then Some (0, line)%Z
      else
        let (sc, fp) := fread1 sc fp in
        let found := found_ending fc sc in
        let (sc, fp) := if decide (found = CRLF \/ found = LFCR) then fread1 sc fp else (sc, fp) in
        if decide (lineEnding = NA /\ found <> NA) then
          if decide (validLineEnding <> NA /\ found <> validLineEnding) then Some (-2, line)%Z
          else endings_loop fuel validLineEnding found sc sc ((line + 1) mod 2 ^ 64) fp
        else if decide (lineEnding <> found /\ found <> NA) then Some (-3, line)%Z
        else endings_loop fuel validLineEnding lineEnding sc sc line fp
  end.

(** The bytes of a file that is there. *)
Definition check_bytes (data : list ascii) (validLineEnding : Lineending) : option (Z * Z) :=
  let (fc, fp) := fread1 NUL (st_open data) in
  endings_loop (S (S (length data))) validLineEnding NA fc NUL 1 fp.

Section Lineendings.
Context {E : Env} (fopen : cstr -> option (list ascii)) (set_error : Z -> ptr -> Z -> M unit) (open_error : ptr -> cstr -> M unit) (contract : M ptr).

Definition checkLineEndings (fileName : cstr) (validLineEnding : Lineending) (parentKey : ptr) : M Z :=
  match fopen fileName with
  | None => ret (-1)%Z
  | Some data =>
      match check_bytes data validLineEnding with
      | None => nofuel
      | Some (r, line) =>
          (if (r =? -2)%Z then set_error 114 parentKey line else if (r =? -3)%Z then set_error 115 parentKey line else ret tt);;
          ret r
      end
  end.

Definition valid_ending (config : ptr) : M Lineending :=
  valid <- env_ksLookupByName config (Some (lit "/valid")) 0;;
  s <- keyString valid;;
  ret (strToLE s).

Definition elektraLineendingsGet (config returned parentKey : ptr) : M Z :=
  b <- is_named parentKey "system/elektra/modules/lineendings";;
  if b : bool then
    contract <- contract;;
    ksAppend returned contract;;
    ksDel contract;;
    ret 1%Z
  else
    validLineEnding <- valid_ending config;;
    fileName <- keyString parentKey;;
    r <- checkLineEndings fileName validLineEnding parentKey;;
    ret (if (r =? -3)%Z then -1 else 1)%Z.

Definition elektraLineendingsSet (config parentKey : ptr) : M Z :=
  validLineEnding <- valid_ending config;;
  fileName <- keyString parentKey;;
  r <- checkLineEndings fileName validLineEnding parentKey;;
  if (r =? -1)%Z then
    fileName <- keyString parentKey;;
    open_error parentKey fileName;;
    ret 1%Z
  else ret (if (r =? -2)%Z || (r =? -3)%Z then -1 else 1)%Z.
End Lineendings.

(** ** Texts *)

Definition ending_bytes (e : Lineending) : list ascii :=
  match e with NA => [] | CR => [CR_BYTE] | LF => [LF_BYTE] | CRLF => [CR_BYTE; LF_BYTE] | LFCR => [LF_BYTE; CR_BYTE] end.

Definition text (ls : list (list ascii * Lineending)) (last : list ascii) : list ascii :=
  concat (map (fun l => l.1 ++ ending_bytes l.2) ls) ++ last.

Definition plain_char (c : ascii) : Prop := c <> NUL /\ c <> LF_BYTE /\ c <> CR_BYTE.

(** An empty line has the ending of the line before it. *)
Fixpoint separated (before : Lineending) (ls : list (list ascii * Lineending)) : Prop :=
  match ls with
  | [] => True
  | (l, e) :: ls => Forall plain_char l /\ e <> NA /\ (l = [] -> before = NA \/ before = e) /\ separated e ls
  end.

(** What a file with these line endings gets. *)
Definition verdict (valid : Lineending) (es : list Lineending) : Z :=
  match es with
  | [] => 0
  | e :: es =>
      if decide (valid <> NA /\ e <> valid) then -2 else if decide (Forall (fun e' => e' = e) es) then 0 else -3
  end%Z.

(** The verdict from a line on, when the file has had the ending [before]. *)
Fixpoint verdict_from (valid before : Lineending) (es : list Lineending) : Z :=
  match es with
  | [] => 0
  | e :: es =>
      if decide (before = NA) then if decide (valid <> NA /\ e <> valid) then -2 else verdict_from valid e es
      else if decide (before = e) then verdict_from valid e es else -3
  end%Z.

Lemma verdict_from_known valid e es : e <> NA -> verdict_from valid e es = (if decide (Forall (fun e' => e' = e) es) then 0 else -3)%Z.
Proof.
  intros He. induction es as [|e' es IH]; [done|]. cbn [verdict_from]. rewrite (decide_False (P := e = NA)) by done.
  destruct (decide (e = e')) as [<-|Hne].
  - rewrite IH. destruct (decide (Forall _ es)); [rewrite decide_True by by constructor|rewrite decide_False; [|intros ?%Forall_cons]]; tauto.
  - rewrite decide_False; [done|]. intros [-> _]%Forall_cons. done.
Qed.

Lemma verdict_from_start valid es : Forall (fun e => e <> NA) es -> verdict_from valid NA es = verdict valid es.
Proof.
  destruct 1 as [|e es He _]; [done|]. cbn [verdict_from verdict]. rewrite decide_True by done. case_decide; [done|]. by apply verdict_from_known.
Qed.

Lemma separated_weaken e ls : separated e ls -> separated NA ls.
Proof. destruct ls as [|[l e'] ls]; [done|]. simpl. intuition. Qed.

Lemma separated_endings e ls : separated e ls -> Forall (fun e => e <> NA) (map snd ls).
Proof. revert e. induction ls as [|[l e'] ls IH]; intros e; [constructor|]. simpl. intros (_ & He & _ & H). constructor; [done|by eapply IH]. Qed.

(** What comes behind a line ending. *)
Lemma text_first e ls last c r : separated e ls -> Forall plain_char last -> text ls last = c :: r ->
  plain_char c \/ exists b, ending_bytes e = c :: b \/ e = NA.
Proof.
  intros Hs Hl. destruct ls as [|[[|c' l] e'] ls]; unfold text; cbn [map concat app fst snd].
  - intros ->. apply Forall_cons in Hl as [Hc _]. by left.
  - destruct Hs as (_ & He & Hb & _). destruct (Hb eq_refl) as [-> | ->]; intros H; right.
    + exists []. by right.
    + destruct e'; try done; injection H as <- _; eexists; left; reflexivity.
  - destruct Hs as (Hp & _). intros [= <- _]. apply Forall_cons in Hp as [Hc _]. by left.
Qed.

Lemma found_plain fc sc : plain_char fc -> found_ending fc sc = NA.
Proof. intros (H0 & H1 & H2). unfold found_ending. by rewrite !decide_False by done. Qed.

Lemma fread1_cons c fp d r : st_rest fp = d :: r -> exists fp', fread1 c fp = (d, fp') /\ st_rest fp' = r /\ st_eof fp' = st_eof fp.
Proof. intros H. destruct (fgetc_cons _ _ _ H) as (fp' & E & Hr & He). exists fp'. unfold fread1. by rewrite E. Qed.

Lemma fread1_nil c fp : st_rest fp = [] -> exists fp', fread1 c fp = (c, fp') /\ st_rest fp' = [] /\ st_eof fp' = true.
Proof. intros H. destruct (fgetc_nil _ H) as (fp' & E & Hr & He). exists fp'. unfold fread1. by rewrite E. Qed.

Lemma loop_ended fuel valid le fc sc line fp : st_eof fp = true -> fst <$> endings_loop (S fuel) valid le fc sc line fp = Some 0%Z.
Proof. intros H. cbn [endings_loop]. by rewrite H. Qed.

Section Loop.
Context (valid : Lineending).

(** After a line ending was found, the loop goes on unless it is the wrong one. *)
Lemma loop_found fuel le found sc line fp ls :
  found <> NA ->
  (forall line, fst <$> endings_loop fuel valid found sc sc line fp = Some (verdict_from valid found ls)) ->
  fst <$> (if decide (le = NA /\ found <> NA) then
             if decide (valid <> NA /\ found <> valid) then Some (-2, line)%Z
             else endings_loop fuel valid found sc sc ((line + 1) mod 2 ^ 64) fp
           else if decide (le <> found /\ found <> NA) then Some (-3, line)%Z
           else endings_loop fuel valid le sc sc line fp) = Some (verdict_from valid le (found :: ls)).
Proof.
  intros Hf Hloop. cbn [verdict_from]. destruct (decide (le = NA)) as [->|Hle].
  - rewrite decide_True by done. case_decide; [done|]. apply Hloop.
  - rewrite decide_False by tauto. destruct (decide (le = found)) as [->|Hne].
    + rewrite decide_False by tauto. apply Hloop.
    + by rewrite decide_True.
Qed.

Definition reads_endings (n : nat) : Prop := forall last fuel ls before le fc sc line fp,
  Forall plain_char last -> length (st_rest fp) <= n -> n + 2 <= fuel -> separated before ls ->
  fc :: st_rest fp = text ls last -> st_eof fp = false -> (sc = fc \/ st_rest fp <> [] \/ plain_char fc) ->
  fst <$> endings_loop fuel valid le fc sc line fp = Some (verdict_from valid le (map snd ls)).

(** A character of a line. *)
Lemma loop_plain n last fuel ls le fc sc line fp : (forall m, m < n -> reads_endings m) ->
  plain_char fc -> Forall plain_char last -> length (st_rest fp) <= n -> n + 2 <= fuel -> separated NA ls ->
  st_rest fp = text ls last -> st_eof fp = false ->
  fst <$> endings_loop fuel valid le fc sc line fp = Some (verdict_from valid le (map snd ls)).
Proof.
  intros IH Hp Hlast Hn Hfuel Hs Hr Heof. destruct fuel as [|fuel]; [lia|]. cbn [endings_loop]. rewrite Heof.
  destruct (st_rest fp) as [|c r] eqn:Er.
  - destruct (fread1_nil sc fp Er) as (fp' & -> & Hr' & He'). rewrite found_plain by done. cbn iota. rewrite !decide_False by intuition congruence.
    destruct fuel; [lia|]. rewrite loop_ended by done. destruct ls as [|[l e] ls]; [done|]. destruct Hs as (_ & He & _). by destruct l, e.
  - destruct (fread1_cons sc fp c r Er) as (fp' & -> & Hr' & He'). rewrite found_plain by done. cbn iota. rewrite !decide_False by intuition congruence.
    apply (IH (length r)) with last NA; rewrite ?Hr', ?He'; simpl in *; auto; lia.
Qed.

(** A line ending of one byte; the next byte may be read for the first time. *)
Lemma loop_single n last fuel ls le e fc sc line fp : (forall m, m < n -> reads_endings m) ->
  e = LF \/ e = CR -> ending_bytes e = [fc] -> Forall plain_char last -> length (st_rest fp) <= n -> n + 2 <= fuel -> separated e ls ->
  st_rest fp = text ls last -> st_eof fp = false -> (sc = fc \/ st_rest fp <> []) ->
  fst <$> endings_loop fuel valid le fc sc line fp = Some (verdict_from valid le (e :: map snd ls)).
Proof.
  intros IH He Hb Hlast Hn Hfuel Hs Hr Heof Hsc. destruct fuel as [|fuel]; [lia|]. cbn [endings_loop]. rewrite Heof.
  assert (forall c, plain_char c \/ c = fc -> found_ending fc c = e) as Hfound.
  { intros c Hc. unfold found_ending, plain_char in *. destruct He as [-> | ->]; injection Hb as <-; simpl; destruct Hc as [(?&?&?)| ->]; by rewrite ?decide_False by done. }
  destruct (st_rest fp) as [|c r] eqn:Er.
  - destruct Hsc as [->|]; [|done]. destruct (fread1_nil fc fp Er) as (fp' & -> & Hr' & He'). rewrite Hfound by (by right). cbn iota.
    rewrite (decide_False (P := e = CRLF \/ e = LFCR)) by (destruct He; intuition congruence). apply loop_found; [destruct He; congruence|].
    intros line'. destruct fuel; [lia|]. rewrite loop_ended by done. destruct ls as [|[l e'] ls]; [done|]. destruct Hs as (_ & He2 & _). by destruct l, e'.
  - destruct (fread1_cons sc fp c r Er) as (fp' & -> & Hr' & He').
    rewrite Hfound by (destruct (text_first _ _ _ _ _ Hs Hlast (eq_sym Hr)) as [|[b [Hb'|Hb']]]; [by left|right; congruence|destruct He; congruence]). cbn iota.
    rewrite (decide_False (P := e = CRLF \/ e = LFCR)) by (destruct He; intuition congruence). apply loop_found; [destruct He; congruence|].
    intros line'. apply (IH (length r)) with last e; rewrite ?Hr', ?He'; simpl in *; auto; lia.
Qed.

(** A line ending of two bytes; the byte behind it is read as well. *)
Lemma loop_double n last fuel ls le e fc d sc line fp : (forall m, m < n -> reads_endings m) ->
  e = CRLF \/ e = LFCR -> ending_bytes e = [fc; d] -> Forall plain_char last -> length (st_rest fp) <= n -> n + 2 <= fuel -> separated e ls ->
  st_rest fp = d :: text ls last -> st_eof fp = false ->
  fst <$> endings_loop fuel valid le fc sc line fp = Some (verdict_from valid le (e :: map snd ls)).
Proof.
  intros IH He Hb Hlast Hn Hfuel Hs Hr Heof. destruct fuel as [|fuel]; [lia|]. cbn [endings_loop]. rewrite Heof.
  destruct (fread1_cons sc fp _ _ Hr) as (fp1 & -> & Hr1 & He1).
  assert (found_ending fc d = e) as -> by (by destruct He as [-> | ->]; injection Hb as <- <-). cbn iota.
  rewrite (decide_True (P := e = CRLF \/ e = LFCR)) by done. rewrite Hr in Hn. destruct (st_rest fp1) as [|c r] eqn:Er.
  - destruct (fread1_nil d fp1 Er) as (fp' & -> & Hr' & He'). apply loop_found; [destruct He; congruence|]. intros line'.
    destruct fuel; [lia|]. rewrite loop_ended by done. destruct ls as [|[l e'] ls]; [done|]. destruct Hs as (_ & He2 & _). by destruct l, e'.
  - destruct (fread1_cons d fp1 c r Er) as (fp' & -> & Hr' & He'). apply loop_found; [destruct He; congruence|]. intros line'.
    rewrite <- Hr1 in Hn. apply (IH (length r)) with last e; rewrite ?Hr', ?He'; simpl in *; auto; try lia. congruence.
Qed.

Lemma endings_loop_spec n : reads_endings n.
Proof.
  induction n as [n IH] using lt_wf_ind. intros last fuel ls before le fc sc line fp Hlast Hn Hfuel Hs Ht Heof Hsc.
  destruct ls as [|[[|c l] e] ls].
  - change (text [] last) with last in Ht. rewrite <- Ht in Hlast. apply Forall_cons in Hlast as [Hc Hl]. by apply (loop_plain n (st_rest fp) fuel []).
  - destruct Hs as (_ & He & _ & Hs). unfold text in Ht. cbn [map concat fst snd app] in Ht. rewrite <- app_assoc in Ht. fold (text ls last) in Ht.
    cbn [map snd]. destruct e; [done|..]; injection Ht as -> Hr.
    + apply (loop_single n last); auto. destruct Hsc as [|[|Hp]]; auto. by destruct Hp as (_ & _ & []).
    + apply (loop_single n last); auto. destruct Hsc as [|[|Hp]]; auto. by destruct Hp as (_ & [] & _).
    + by apply (loop_double n last) with LF_BYTE; auto.
    + by apply (loop_double n last) with CR_BYTE; auto.
  - destruct Hs as (Hp & He & _ & Hs). apply Forall_cons in Hp as [Hc Hp]. injection Ht as -> Hr.
    apply (loop_plain n last fuel ((l, e) :: ls)); auto. split_and!; auto.
Qed.
End Loop.

(** C26.  The text of lines without NUL, of which an empty line has the ending of the line
    before it, but for the texts that are one LF or one CR: the result of the loop over the
    bytes is the [verdict] on the list of the line endings.  It is accepted (0) exactly
    when all are the first one and this is the configured one, if one is configured; else
    the result is -2 when the first one is not the configured one and -3 when another one
    differs from the first.  A text of one LF or CR is not looked at, whatever ending
    is configured, and of an empty line with another ending than the line before it the
    bytes read as other endings. *)
Theorem check_bytes_verdict ls last valid :
  separated NA ls -> Forall plain_char last -> text ls last <> [LF_BYTE] -> text ls last <> [CR_BYTE] ->
  fst <$> check_bytes (text ls last) valid = Some (verdict valid (map snd ls)).
Proof.
  intros Hs Hl H1 H2. rewrite <- (verdict_from_start _ _ (separated_endings _ _ Hs)). unfold check_bytes.
  destruct (text ls last) as [|c r] eqn:Et.
  - destruct (fread1_nil NUL (st_open []) eq_refl) as (fp & -> & _ & He). rewrite loop_ended by done.
    destruct ls as [|[l e] ls]; [done|]. destruct Hs as (_ & Hne & _). by destruct l, e.
  - destruct (fread1_cons NUL (st_open (c :: r)) c r eq_refl) as (fp & -> & Hr & He).
    apply (endings_loop_spec valid (length r)) with last NA; rewrite ?Hr; simpl; auto; [lia|].
    destruct r as [|d r]; [|right; by left]. right; right. destruct ls as [|[[|c' l] e] ls].
    + change (text [] last) with last in Et. subst last. by apply Forall_cons in Hl as [Hc _].
    + destruct Hs as (_ & Hne & _). destruct e; [done|by injection Et as <- _|by injection Et as <- _|done..].
    + destruct Hs as (Hp & _). apply Forall_cons in Hp as [Hc _]. by injection Et as <- _.
Qed.
