(* ===== verification/Line.v ===== *)
(** * Line: one key per line of a file

    [plugins/line/line.c]: every line of a file becomes an element of an array below
    the parent key; the values are written as lines. *)
From S2P Require Export Stdio Ease Filter.
#[local] Open Scope elektra_scope.

Section Line.
Context {E : Env} (fopen : cstr -> option (list ascii)) (writable : cstr -> bool).
Context (open_error : ptr -> M unit) (set_error : Z -> ptr -> option cstr -> M unit) (contract : M ptr).

(** [keySetString (read, value)] of the line without its newline. *)
Definition line_value (l : list ascii) : cstr :=
  default [] (cstr_of ((if ends_line l then removelast l else l) ++ [NUL])).

Fixpoint line_loop (fuel : nat) (fp : stream) (returned : ptr) : M (Z * stream) :=
  match fuel with
  | O => nofuel
  | S fuel =>
      match getline fp with
      | (None, fp) => ret (1%Z, fp)
      | (Some value, fp) =>
          tail <- ksTail returned;;
          read <- keyDup tail;;
          r <- elektraArrayIncName read;;
          if (r =? -1)%Z then keyDel read;; ret ((-1)%Z, fp)
          else
            keySetString read (Some (line_value value));;
            ksAppendKey returned read;;
            line_loop fuel fp returned
      end
  end.

Definition elektraLineRead (fp : stream) (returned : ptr) : M (Z * stream) :=
  line_loop (S (length (st_rest fp))) fp returned.

Definition elektraLineGet (returned parentKey : ptr) : M Z :=
  b <- is_named parentKey "system/elektra/modules/line";;
  if b : bool then
    moduleConfig <- contract;;
    ksAppend returned moduleConfig;;
    ksDel moduleConfig;;
    ret 1%Z
  else
    fileName <- keyString parentKey;;
    match fopen fileName with
    | None => open_error parentKey;; ret (-1)%Z
    | Some data =>
        n <- keyName parentKey;;
        b <- keyNew n [];;
        d <- keyDup (Some b);;
        ksAppendKey returned d;;
        keyAddName (Some b) (Some (lit "#"));;
        ksAppendKey returned (Some b);;
        let* (r, fp) := elektraLineRead (st_open data) returned in
        start <- env_ksLookup returned (Some b) KDB_O_POP;;
        keyDel start;;
        if (r =? -1)%Z then
          tail <- ksTail returned;;
          n <- keyName tail;;
          set_error 158 parentKey n;;
          ret (-1)%Z
        else if negb (st_eof fp) then set_error 60 parentKey None;; ret (-1)%Z
        else ret r
    end.

(** With the result comes what was written to the file. *)
Definition elektraLineSet (returned parentKey : ptr) : M (Z * option (list ascii)) :=
  fileName <- keyString parentKey;;
  if negb (writable fileName) then open_error parentKey;; ret ((-1)%Z, None)
  else
    ksRewind returned;;
    ksNext returned;;
    fuel <- ks_turns returned;;
    out <- each_key fuel returned (fun out cur => s <- keyString (Some cur);; ret (out ++ s ++ [NEWLINE])) [];;
    ret (1%Z, Some out).
End Line.
