(* ===== verification/LineFacts.v ===== *)
(** * LineFacts: reading and writing files of lines

    [elektraLineGet] turns the lines of a file into an array of keys, [elektraLineSet]
    writes them back. *)
From S2P Require Export Line Duplicate NameFacts.
#[local] Open Scope elektra_scope.

(** ** Keys without metadata *)

(** What [keySetString] stores. *)
Definition text_data (s : cstr) : option (list ascii) := match s with [] => None | _ => Some (s ++ [NUL]) end.

Definition with_text (k : Key) (s : cstr) : Key := set_flags (set_data k (text_data s)) (set_bit (k_flags k) KEY_FLAG_SYNC).

Section Plain.
Context {R : Rec}.

Lemma keySetString_plain K S l k s Q :
  K !! l = Some k -> k_meta k = None -> test_bit (k_flags k) KEY_FLAG_RO_VALUE = false ->
  (forall r, Q r (mkHeap (<[l := with_text k s]> K) S)) -> wp (keySetString (Some l) (Some s)) Q (mkHeap K S).
Proof.
  intros Hk Hm Hro HQ. unfold keySetString, keySetMeta. wstep. wstep.
  assert (forall r, Q r (mkHeap (<[l := with_text k s]> K) S)) as HQ' by done. clear HQ.
  assert (wp (match s with [] => keySetRaw (Some l) None 0 | _ => keySetRaw (Some l) (Some (s ++ [NUL])) (Datatypes.S (length s)) end) Q (mkHeap K S)) as H.
  { destruct s as [|c s]; unfold keySetRaw; wstep; rewrite Hro.
    - wstep. unfold keyIsBinary. apply wp_bind, wp_bind. eapply keyGetMeta_none; [apply lookup_insert_eq|done|]. wsteps. cbn. apply HQ'.
    - cbn [Nat.eqb]. destruct (Nat.ltb_spec (length ((c :: s) ++ [NUL])) (Datatypes.S (length (c :: s)))) as [Hlt|_];
        [simpl in Hlt; rewrite length_app in Hlt; simpl in Hlt; lia|].
      rewrite take_ge by (simpl; rewrite length_app; simpl; lia). wstep. unfold keyGetValueSize. wstep. apply wp_ret. apply HQ'. }
  rewrite Hm. destruct (test_bit (k_flags k) KEY_FLAG_RO_META); [apply wp_ret_bind; exact H|].
  rewrite !bool_decide_true by done. apply wp_ret_bind. exact H.
Qed.

Lemma keyNew_path {HR : RecLaws R} K S n ps Q :
  path_ok (Some n) ps -> ~ single_backslashes ps ->
  Q (fresh_loc K) (mkHeap (<[fresh_loc K := named (set_name emptyKey None []) (path_name (Some n) ps)]> K) S) ->
  wp (keyNew (Some (path_name (Some n) ps)) []) Q (mkHeap K S).
Proof.
  intros Hok Hsb HQ. unfold keyNew, keyVNew, elektraKeyMalloc, keyVInit. wstep. unfold keyInit. wsteps. rewrite insert_insert_eq.
  cbn [vinit_loop]. wsteps. cbn [v_flags v_name v_owner]. rewrite Z.land_0_l.
  apply wp_bind. eapply wp_mono; [eapply (keySetName_path_spec _ S (fresh_loc K) emptyKey); [apply lookup_insert_eq|done..]|].
  intros r h H. cbn beta in H. rewrite decide_False in H by done. destruct H as (-> & _). wsteps. by rewrite insert_insert_eq.
Qed.
End Plain.

(** ** The keys of an array *)

Record row := mkRow { rw_loc : loc; rw_parts : list cstr; rw_text : cstr }.

Section Rows.
Context (n : cstr).

(** The key of a row has its name and its value, and no metadata. *)
Definition row_key (K : gmap loc Key) (r : row) : Prop :=
  exists k, K !! rw_loc r = Some k /\ k_key k = Some (path_name (Some n) (rw_parts r)) /\
    k_uname k = path_uname (Some n) (rw_parts r) /\ k_meta k = None /\ k_data k = text_data (rw_text r) /\
    path_ok (Some n) (rw_parts r) /\ no_nul (rw_text r).

(** The keyset at [l] holds the rows in their order. *)
Definition listed (l : loc) (K : gmap loc Key) (S : gmap loc KeySet) (rows : list row) : Prop :=
  set_ok K S l (map rw_loc rows) /\ Forall (row_key K) rows.

Definition behind (rows : list row) (parts : list cstr) : Prop :=
  Forall (fun r => uname_lt (path_uname (Some n) (rw_parts r)) (path_uname (Some n) parts)) rows.

Lemma row_uname K r : row_key K r -> uname_of K (rw_loc r) = path_uname (Some n) (rw_parts r).
Proof. intros (k & Hk & _ & Hu & _). unfold uname_of. by rewrite Hk. Qed.

Lemma row_plain K rows : Forall (row_key K) rows -> plain_keys K (map rw_loc rows).
Proof.
  intros H x Hx. apply list_elem_of_In, in_map_iff in Hx as (r & <- & Hr). rewrite Forall_forall in H.
  destruct (H r) as (k & Hk & _ & _ & Hm & _); [by apply list_elem_of_In|]. by exists k.
Qed.

(** Flags and references do not matter. *)
Lemma row_key_change K x k k' r :
  K !! x = Some k -> k_key k' = k_key k -> k_uname k' = k_uname k -> k_meta k' = k_meta k -> k_data k' = k_data k ->
  row_key K r -> row_key (<[x := k']> K) r.
Proof.
  intros Hx H1 H2 H3 H4 (kr & Hkr & Hr). destruct (decide (x = rw_loc r)) as [->|Hne].
  - assert (kr = k) as -> by congruence. exists k'. rewrite lookup_insert_eq. rewrite H1, H2, H3, H4. by split.
  - exists kr. by rewrite lookup_insert_ne.
Qed.

Lemma row_key_other K x k r : x <> rw_loc r -> row_key K r -> row_key (<[x := k]> K) r.
Proof. intros Hne (kr & Hkr & Hr). exists kr. by rewrite lookup_insert_ne. Qed.

Lemma row_key_fresh K k r : row_key K r -> row_key (<[fresh_loc K := k]> K) r.
Proof. intros H. apply row_key_other; [|done]. destruct H as (kr & Hkr & _). by eapply fresh_loc_ne. Qed.

Lemma listed_keys l K K' S rows : listed l K S rows -> Forall (row_key K') rows -> listed l K' S rows.
Proof.
  intros [Hset Hrows] H. split; [|done]. eapply set_ok_keys; [|exact Hset]. intros x Hx.
  apply list_elem_of_In, in_map_iff in Hx as (r & <- & Hr). apply list_elem_of_In in Hr. rewrite Forall_forall in *.
  rewrite (row_uname K r), (row_uname K' r) by auto. split; [|done]. destruct (H r Hr) as (k & Hk & _). by exists k.
Qed.

Lemma listed_fresh l K S rows k : listed l K S rows -> listed l (<[fresh_loc K := k]> K) S rows.
Proof. intros H. eapply listed_keys; [exact H|]. eapply Forall_impl; [apply H|]. intros r. apply row_key_fresh. Qed.

Context {R : Rec} {HR : RecLaws R}.

Lemma append_row l K S rows r k :
  listed l K S rows -> row_key K r -> K !! rw_loc r = Some k -> behind rows (rw_parts r) ->
  wp (ksAppendKey (Some l) (Some (rw_loc r)))
    (fun _ h => listed l (h_keys h) (h_sets h) (rows ++ [r]) /\ h_keys h = <[rw_loc r := referenced (locked k)]> K) (mkHeap K S).
Proof.
  intros [Hset Hrows] Hr Hk Hb. pose proof (row_plain _ _ Hrows) as Hpl. pose proof (row_plain K [r] ltac:(by constructor)) as Hplr.
  assert (plain_keys K (rw_loc r :: map rw_loc rows)) as Hall.
  { intros x [->|Hx]%elem_of_cons; [apply Hplr; by left|by apply Hpl]. }
  pose proof Hr as (k' & Hk' & Hname & _). assert (k' = k) as -> by congruence. clear Hk'.
  eapply wp_mono; [eapply (ksAppendKey_last_spec (plain_id K) K S l (rw_loc r) (map rw_loc rows) k)|].
  - by apply set_ok_keyset.
  - done.
  - congruence.
  - apply plain_has_kid, Hplr. by left.
  - by apply plain_no_metas.
  - intros x Hx. apply list_elem_of_In, in_map_iff in Hx as (r' & <- & Hr'). apply list_elem_of_In in Hr'.
    unfold plain_id. unfold behind in Hb. rewrite Forall_forall in Hrows, Hb. rewrite !row_uname by auto. apply plain_kid_lt.
    by apply Hb.
  - intros _ h (HK & Hok & Hlast & (s & Hs & Hc & Hi) & _). split; [|done].
    assert (map rw_loc (rows ++ [r]) = map rw_loc rows ++ [rw_loc r]) as Emap by apply map_app. split.
    + rewrite Emap, HK. eapply keyset_set_ok; [exact Hok|exact Hs|]. right. destruct (kso_rep _ _ _ _ _ Hok) as (s' & Hs' & Hrep).
      assert (s' = s) as -> by congruence. rewrite (rep_size _ _ Hrep), Hi, length_app. simpl. lia.
    + rewrite HK. apply Forall_app. split; [|constructor; [|constructor]].
      * eapply Forall_impl; [exact Hrows|]. intros r'. by apply row_key_change with k.
      * by apply row_key_change with k.
Qed.
End Rows.

(** ** The names of the elements *)

(** The start of the array, and its elements from 0 on. *)
Definition array_base (i : nat) : cstr := match i with 0 => lit "#" | S j => elektraWriteArrayNumber (Z.of_nat j) end.

Definition array_limit : nat := Z.to_nat (10 ^ 10).

Lemma limit_range i : i <= array_limit -> (Z.of_nat i <= 10 ^ 10)%Z.
Proof. unfold array_limit. lia. Qed.

Lemma no_nul_array_base i : i <= array_limit -> no_nul (array_base i).
Proof.
  intros Hi%limit_range. destruct i as [|j]; [solve_no_nul|]. cbn [array_base].
  destruct (decimals_exist (Z.of_nat j)) as [k Hk]; [lia|]. rewrite (write_array_number k) by (done || unfold INT64_MAX; lia).
  apply no_nul_cons; [done|]. apply no_nul_app_2; [by apply Forall_replicate|].
  eapply Forall_impl; [apply fixed_digits|]. intros c Hc ->. done.
Qed.

Lemma uname_prefix_lt u t : t <> [] -> uname_lt u (u ++ t).
Proof.
  intros Ht. unfold uname_lt. rewrite <- (app_nil_r u) at 1. rewrite name_order_app, name_order_refl by done. cbn [Z.eqb].
  destruct t as [|c t]; [done|]. simpl. pose proof (uchar_range c). lia.
Qed.

Lemma array_base_lt i j : i < j <= array_limit -> uname_lt (array_base i ++ [NUL]) (array_base j ++ [NUL]).
Proof.
  intros [Hij Hj%limit_range]. destruct j as [|j]; [lia|]. destruct i as [|i]; cbn [array_base].
  - destruct (decimals_exist (Z.of_nat j)) as [k Hk]; [lia|]. rewrite (write_array_number k) by (done || unfold INT64_MAX; lia).
    destruct (fixed_head k (Z.of_nat j)) as (c & s & -> & Hc). unfold uname_lt.
    assert (exists d r, (replicate k "_"%char ++ c :: s) = d :: r /\ (0 < uchar d)%Z) as (d & r & E & Hd).
    { destruct k; simpl; eexists _, _; (split; [reflexivity|]); [|done]. apply uchar_pos. by intros ->. }
    rewrite E. cbn [app]. change (lit "#" ++ [NUL]) with ["#"%char; NUL]. cbn [name_order]. rewrite Z.sub_diag. cbn [Z.eqb].
    change (uchar NUL) with 0%Z. destruct (Z.eqb_spec (0 - uchar d) 0); lia.
  - apply write_order_lt; unfold INT64_MAX; lia.
Qed.

Section Names.
Context (n : cstr) (ps : list cstr).

Definition array_path (i : nat) : list cstr := ps ++ [array_base i].

Lemma array_path_lt i j : i < j <= array_limit -> uname_lt (path_uname (Some n) (array_path i)) (path_uname (Some n) (array_path j)).
Proof.
  intros H. unfold array_path. rewrite !path_uname_app. unfold uname_lt. rewrite name_order_app, name_order_refl by done. cbn [Z.eqb].
  change (unescaped_bytes [?b]) with ((b ++ [NUL]) ++ []). rewrite !app_nil_r. by apply array_base_lt.
Qed.

Lemma parent_path_lt i : uname_lt (path_uname (Some n) ps) (path_uname (Some n) (array_path i)).
Proof.
  unfold array_path. rewrite path_uname_app. apply uname_prefix_lt. change (unescaped_bytes [?b]) with ((b ++ [NUL]) ++ []).
  by destruct (array_base i).
Qed.

Context {R : Rec}.

Lemma inc_array_spec K S f k i :
  K !! f = Some k -> has_path K f (Some n) (array_path i) -> test_bit (k_flags k) KEY_FLAG_RO_NAME = false -> i < array_limit ->
  wp (elektraArrayIncName (Some f))
    (fun r h => r = 0%Z /\ h = mkHeap (<[f := named k (path_name (Some n) (array_path (Datatypes.S i)))]> K) S) (mkHeap K S).
Proof.
  intros Hk Hp Hro Hi. pose proof Hp as (Hok & k' & Hk' & Hn & Hu). assert (k' = k) as -> by congruence.
  rewrite path_name_uname in Hu by done.
  assert (base_of (keySize k) (keyUSize k) (k_uname k) = array_base i) as Hb.
  { unfold keySize, keyUSize. rewrite Hn, Hu, base_of_path by done. unfold array_path. by rewrite last_snoc. }
  destruct (elektraArrayIncName_spec K S f k _ _ Hk Hn Hb) as [Hstart Hnext].
  assert (wp (bindM (keySetBaseName (Some f) (Some (array_base (Datatypes.S i)))) (fun _ => ret 0%Z))
    (fun r h => r = 0%Z /\ h = mkHeap (<[f := named k (path_name (Some n) (array_path (Datatypes.S i)))]> K) S) (mkHeap K S)) as H.
  { apply wp_bind. eapply wp_mono; [eapply (keySetBaseName_replaces K S f k Hk); [done..|apply no_nul_array_base; lia]|].
    intros r h H. cbn beta zeta in H. rewrite decide_False in H by (unfold array_path; by destruct ps). destruct H as (-> & _).
    apply wp_ret. split; [done|]. unfold array_path. by rewrite removelast_last. }
  destruct i as [|j].
  - unfold wp. rewrite Hstart by done. exact H.
  - pose proof (limit_range _ (Nat.lt_le_incl _ _ Hi)). unfold wp. rewrite (Hnext (Z.of_nat j)) by (done || unfold INT64_MAX; lia).
    destruct (Z.ltb_spec (Z.of_nat j) (10 ^ 10 - 1)); [|unfold array_limit in Hi; lia].
    replace (Z.of_nat j + 1)%Z with (Z.of_nat (Datatypes.S j)) by lia. exact H.
Qed.
End Names.

(** ** Reading the lines *)

Definition lines_text (lines : list cstr) : list ascii := concat (map (fun l => l ++ [NEWLINE]) lines).
Definition line_ok (l : cstr) : Prop := no_nul l /\ NEWLINE ∉ l.

Lemma line_value_break l : line_ok l -> line_value (l ++ [NEWLINE]) = l.
Proof.
  intros [Hl _]. unfold line_value, ends_line. rewrite last_snoc, bool_decide_true, removelast_last by done. by rewrite cstr_of_app.
Qed.

Section Read.
Context (n : cstr) (ps : list cstr) {E : Env} {HR : RecLaws env_rec}.

Lemma ksTail_spec l K S rows r Q : listed n l K S (rows ++ [r]) -> Q (Some (rw_loc r)) (mkHeap K S) -> wp (ksTail (Some l)) Q (mkHeap K S).
Proof.
  intros [(s & Hs & Hrep & _) _] HQ. unfold ksTail. wstep. pose proof (rep_size _ _ Hrep) as Hsz. rewrite map_app in *. rewrite length_app in Hsz. simpl in *.
  destruct (Nat.ltb_spec 0 (ks_size s)); [|lia].
  rewrite (rep_get s _ (ks_size s - 1) (rw_loc r) Hrep) by (rewrite lookup_app_r by lia; by replace (ks_size s - 1 - length (map rw_loc rows)) with 0 by lia).
  by apply wp_ret.
Qed.

(** A line is read and its key appended. *)
Lemma line_step {B} l K S rows r i v (bad : ptr -> M B) (good : M B) Q :
  listed n l K S (rows ++ [r]) -> rw_parts r = array_path ps i -> i < array_limit -> behind n rows (array_path ps i) -> no_nul v ->
  (forall K' S' x, listed n l K' S' ((rows ++ [r]) ++ [mkRow x (array_path ps (Datatypes.S i)) v]) ->
     (forall y k, K !! y = Some k -> K' !! y = Some k) -> wp good Q (mkHeap K' S')) ->
  wp (tail <- ksTail (Some l);; read <- keyDup tail;; r <- elektraArrayIncName read;;
      if (r =? -1)%Z then bad read else keySetString read (Some v);; ksAppendKey (Some l) read;; good) Q (mkHeap K S).
Proof.
  intros Hl Hp Hi Hb Hv HQ. pose proof (proj2 Hl) as Hrows. apply Forall_app in Hrows as [_ Hr]. apply Forall_cons in Hr as [(k & Hk & Hn & Hu & Hm & Hd & Hok & _) _].
  apply wp_bind. eapply ksTail_spec; [exact Hl|]. apply wp_bind. eapply keyDup_plain; [done..|]. set (f := fresh_loc K). set (K1 := <[f := dup_of k]> K).
  assert (K1 !! f = Some (dup_of k)) as HK1 by apply lookup_insert_eq. rewrite Hp in *.
  apply wp_bind. eapply wp_mono; [eapply (inc_array_spec n ps K1 S f (dup_of k) i HK1)|]; [|done|done|].
  { split; [done|]. exists (dup_of k). rewrite path_name_uname by done. done. }
  intros r0 h [-> ->]. cbn [Z.eqb Z.compare]. set (k2 := named (dup_of k) _). apply wp_bind.
  eapply keySetString_plain; [apply lookup_insert_eq|done|done|]. intros _. unfold K1. rewrite !insert_insert_eq. set (k3 := with_text k2 v).
  assert (path_ok (Some n) (array_path ps (Datatypes.S i))) as Hok'.
  { unfold array_path in *. apply path_ok_snoc in Hok as [Hok _]. apply path_ok_snoc. split; [done|]. apply no_nul_array_base. lia. }
  apply wp_bind. eapply wp_mono; [eapply (append_row n l (<[f := k3]> K) S (rows ++ [r]) (mkRow f (array_path ps (Datatypes.S i)) v) k3)|].
  - by apply listed_fresh.
  - exists k3. cbn [rw_loc rw_parts rw_text]. split_and!; [apply lookup_insert_eq|done|by apply path_name_uname|done..].
  - apply lookup_insert_eq.
  - cbn [rw_parts]. apply Forall_app. split; [|constructor; [|constructor]].
    + eapply Forall_impl; [exact Hb|]. intros r' Hlt. cbn beta. etransitivity; [exact Hlt|]. apply array_path_lt. lia.
    + rewrite Hp. apply array_path_lt. lia.
  - intros _ h [Hl' HK]. destruct h as [K' S']. cbn [h_keys h_sets rw_loc] in *. apply (HQ K' S' f); [done|].
    intros y ky Hy. rewrite HK, insert_insert_eq. rewrite lookup_insert_ne; [done|]. by eapply fresh_loc_ne.
Qed.

Lemma line_loop_spec l lines : forall fuel fp K S rows r i,
  listed n l K S (rows ++ [r]) -> rw_parts r = array_path ps i -> i + length lines <= array_limit -> behind n rows (array_path ps i) ->
  Forall line_ok lines -> st_rest fp = lines_text lines -> length lines < fuel ->
  wp (line_loop fuel fp (Some l))
    (fun res h => res.1 = 1%Z /\ st_eof res.2 = true /\ (forall y k, K !! y = Some k -> h_keys h !! y = Some k) /\
       exists new, listed n l (h_keys h) (h_sets h) (rows ++ r :: new) /\ map rw_text new = lines /\
         map rw_parts new = map (array_path ps) (seq (Datatypes.S i) (length lines))) (mkHeap K S).
Proof.
  induction lines as [|line lines IH]; intros fuel fp K S rows r i Hl Hp Hi Hb Hok Hrest Hf; (destruct fuel as [|fuel]; [simpl in Hf; lia|]); cbn [line_loop].
  - destruct (getline_end fp Hrest) as (fp' & -> & _ & He). apply wp_ret. split_and!; [done|done|done|]. by exists [].
  - apply Forall_cons in Hok as [Hline Hok]. unfold lines_text in Hrest. cbn [map concat] in Hrest. rewrite <- app_assoc in Hrest. cbn [app] in Hrest.
    destruct (getline_break fp line _ Hrest (proj2 Hline)) as (fp' & -> & Hrest' & _). rewrite line_value_break by done. cbn [length] in *.
    eapply line_step; [exact Hl|exact Hp|lia|exact Hb|apply Hline|]. intros K' S' x Hl' HK.
    eapply wp_mono; [eapply (IH fuel fp' K' S' (rows ++ [r]) _ (Datatypes.S i)); [exact Hl'|done|lia| |done|done|lia]|].
    + apply Forall_app. split; [|constructor; [|constructor]].
      * eapply Forall_impl; [exact Hb|]. intros r' Hlt. cbn beta. etransitivity; [exact Hlt|]. apply array_path_lt. lia.
      * rewrite Hp. apply array_path_lt. lia.
    + intros res h (H1 & H2 & H3 & new & Hnew & Ht & Hnames). split_and!; [done|done|auto|]. eexists (_ :: new). rewrite <- app_assoc in Hnew. split; [exact Hnew|].
      cbn [map rw_text rw_parts length seq]. by rewrite Ht, Hnames.
Qed.

Lemma lines_text_length lines : length lines <= length (lines_text lines).
Proof. unfold lines_text. induction lines as [|line lines IH]; [done|]. cbn [map concat length]. rewrite !length_app. simpl. lia. Qed.

Lemma sorted_split_unique K a x b a' y b' :
  uname_sorted K (a ++ x :: b) -> a ++ x :: b = a' ++ y :: b' -> uname_of K x = uname_of K y -> a = a' /\ x = y /\ b = b'.
Proof.
  intros Hs Heq Hu. assert ((a ++ x :: b) !! length a = Some x) as Hx by by apply list_lookup_middle.
  assert ((a ++ x :: b) !! length a' = Some y) as Hy by (rewrite Heq; by apply list_lookup_middle).
  destruct (Nat.lt_total (length a) (length a')) as [H|[H|H]].
  - pose proof (sorted_lookup _ _ _ _ _ _ Hs H Hx Hy) as Hlt. cbn beta in Hlt. rewrite Hu in Hlt. by apply uname_lt_irrefl in Hlt.
  - apply app_inj_1 in Heq as [-> [= -> ->]]; done.
  - pose proof (sorted_lookup _ _ _ _ _ _ Hs H Hy Hx) as Hlt. cbn beta in Hlt. rewrite Hu in Hlt. by apply uname_lt_irrefl in Hlt.
Qed.

Lemma uname_sorted_NoDup K ls : uname_sorted K ls -> NoDup ls.
Proof.
  intros H. induction H as [|x ls _ IH Hx]; [constructor|]. constructor; [|done]. intros Hin. rewrite Forall_forall in Hx.
  by apply Hx, uname_lt_irrefl in Hin.
Qed.

Lemma sorted_without K a x b : uname_sorted K (a ++ x :: b) -> uname_sorted K (a ++ b).
Proof.
  unfold uname_sorted. induction a as [|y a IH]; cbn [app]; intros H; inversion H as [|? ? Hs Hf]; subst; [done|].
  constructor; [by apply IH|]. apply Forall_app in Hf as [Hf1 [_ Hf2]%Forall_cons]. by apply Forall_app.
Qed.

(** The start of the array is looked up, popped and deleted. *)
Lemma pop_row {B} l K S rows r rest k (f : Z -> M B) Q :
  listed n l K S (rows ++ r :: rest) -> K !! rw_loc r = Some k -> k_ksReference k = 1 ->
  (forall S' kr, listed n l (delete (rw_loc r) K) S' (rows ++ rest) -> wp (f kr) Q (mkHeap (delete (rw_loc r) K) S')) ->
  wp (start <- env_ksLookup (Some l) (Some (rw_loc r)) KDB_O_POP;; r <- keyDel start;; f r) Q (mkHeap K S).
Proof.
  intros [Hset Hrows] Hk Href HQ. pose proof Hset as (s & _ & _ & _ & Hlive & Hsort).
  assert (forall r', map rw_loc (rows ++ r' ++ rest) = map rw_loc rows ++ map rw_loc r' ++ map rw_loc rest) as Emap by (intros; by rewrite !map_app).
  pose proof (Emap [r]) as Er. cbn [map app] in Er. rewrite Er in *.
  pose proof Hrows as [Hrows1 [(kr & Hkr & Hn & Hu & Hm & Hd & Hok & _) Hrows2]%Forall_cons]%Forall_app.
  assert (kr = k) as -> by congruence. apply wp_bind. eapply (ksLookup_pops env_depth); [exact Hset|exact Hk|exact Hn|exact Hm| |].
  { intros E0. by apply path_name_deref in E0. }
  split.
  - intros Hf. pose proof (find_uname_spec K (map rw_loc rows ++ rw_loc r :: map rw_loc rest) (k_uname k)) as Hsp. rewrite Hf in Hsp.
    destruct (Hsp (rw_loc r)); [apply elem_of_app; right; by left|]. unfold uname_of. by rewrite Hk.
  - intros a x b kx s' El Hux Hkx Hrep Hc. pose proof Hsort as Hsort'. rewrite El in Hsort'.
    assert (uname_of K x = uname_of K (rw_loc r)) as Hxr by (rewrite Hux; unfold uname_of; by rewrite Hk).
    destruct (sorted_split_unique _ _ _ _ _ _ _ Hsort' (eq_sym El) Hxr) as (-> & -> & ->).
    assert (kx = k) as -> by congruence. rewrite Href. cbn [Nat.sub].
    apply wp_bind. eapply keyDel_plain_spec; [apply lookup_insert_eq|done|done|]. rewrite delete_insert_eq. apply HQ.
    assert (Forall (row_key n (delete (rw_loc r) K)) (rows ++ rest)) as Hleft.
    { pose proof (uname_sorted_NoDup _ _ Hsort) as Hnd. apply NoDup_app in Hnd as (_ & Hd1 & Hnd). apply NoDup_cons in Hnd as [Hd2 _].
      assert (forall r', r' ∈ rows ++ rest -> rw_loc r' <> rw_loc r) as Hne.
      { intros r' [Hr'|Hr']%elem_of_app E0; apply list_elem_of_In, (in_map rw_loc), list_elem_of_In in Hr' as Hin; rewrite E0 in Hin; [apply (Hd1 _ Hin); by left|done]. }
      apply Forall_forall. intros r' Hr'. assert (row_key n K r') as (k' & Hk' & H').
      { apply elem_of_app in Hr' as [Hr'|Hr']; [by eapply Forall_forall in Hrows1|by eapply Forall_forall in Hrows2]. }
      exists k'. rewrite lookup_delete_ne by (apply not_eq_sym; by apply Hne). by split. }
    eapply (listed_keys _ l K); [|exact Hleft]. split; [|by apply Forall_app].
    exists s'. rewrite map_app. split_and!; [apply lookup_insert_eq|done|done| |].
    + apply Forall_app in Hlive as [Hl1 [_ Hl2]%Forall_cons]. by apply Forall_app.
    + by eapply sorted_without.
Qed.
End Read.

(** ** The plugin *)

Section Plugin.
Context {E : Env} {HR : RecLaws env_rec} (fopen : cstr -> option (list ascii)) (writable : cstr -> bool).
Context (open_error : ptr -> M unit) (set_error : Z -> ptr -> option cstr -> M unit) (contract : M ptr).
Context (n : cstr) (ps : list cstr) (pk : loc) (kp : Key) (file : cstr) (lines : list cstr).

(** The parent key: a mountpoint in a namespace with the name of the file as its value. *)
Definition mounted (K : gmap loc Key) : Prop :=
  K !! pk = Some kp /\ k_key kp = Some (path_name (Some n) ps) /\ meta_cstr K pk file.

(** The keyset has the parent key and the elements of the array below it with the lines. *)
Definition holds_lines (l : loc) (K : gmap loc Key) (S : gmap loc KeySet) : Prop :=
  exists d new, listed n l K S (mkRow d ps [] :: new) /\ map rw_text new = lines /\
    map rw_parts new = map (array_path ps) (seq 1 (length lines)).

Lemma elektraLineGet_spec l K S :
  mounted K -> set_ok K S l [] -> path_ok (Some n) ps -> ~ single_backslashes ps ->
  bool_decide (strcmp (path_name (Some n) ps) (lit "system/elektra/modules/line") = 0%Z) = false ->
  fopen file = Some (lines_text lines) -> Forall line_ok lines -> length lines <= array_limit ->
  wp (elektraLineGet fopen open_error set_error contract (Some l) (Some pk))
    (fun r h => r = 1%Z /\ mounted (h_keys h) /\ holds_lines l (h_keys h) (h_sets h)) (mkHeap K S).
Proof.
  intros (Hpk & Hname & Hfile) Hset Hok Hsb Hmod Hopen Hlines Hlen. unfold elektraLineGet. eapply is_named_spec; [done..|].
  apply wp_bind. eapply keyString_meta_spec; [exact Hfile|]. rewrite Hopen. unfold keyName. wsteps. rewrite Hname. wsteps.
  apply wp_bind. eapply keyNew_path; [done..|]. set (b := fresh_loc K). set (kb := named _ _). set (K1 := <[b := kb]> K).
  assert (K1 !! b = Some kb) as Hb1 by apply lookup_insert_eq. assert (b <> pk) as Hbpk by by eapply fresh_loc_ne.
  apply wp_bind. eapply keyDup_plain; [exact Hb1|done|]. set (d := fresh_loc K1). set (K2 := <[d := dup_of kb]> K1).
  assert (d <> b) as Hdb by by eapply fresh_loc_ne. assert (d <> pk) as Hdpk by (eapply (fresh_loc_ne K1); unfold K1; by rewrite lookup_insert_ne).
  assert (row_key n K2 (mkRow d ps [])) as Hrd.
  { exists (dup_of kb). split_and!; [apply lookup_insert_eq|done|by apply path_name_uname|done..|constructor]. }
  apply wp_bind. eapply wp_mono; [eapply (append_row n l K2 S [] (mkRow d ps []))|].
  { apply listed_fresh, listed_fresh. by split. }
  { exact Hrd. }
  { apply lookup_insert_eq. }
  { constructor. }
  intros _ [K3 S3] [Hl3 HK3]. cbn [h_keys h_sets app rw_loc] in *.
  assert (K3 !! b = Some kb) as Hb3 by (rewrite HK3; unfold K2; by rewrite !lookup_insert_ne by done).
  assert (K3 !! pk = Some kp) as Hpk3 by (rewrite HK3; unfold K2, K1; by rewrite !lookup_insert_ne by done).
  assert (has_path K3 b (Some n) ps) as Hpath by (split; [done|]; by exists kb).
  change (lit "#") with (relative_path [lit "#"]). apply wp_bind.
  eapply wp_mono; [eapply (keyAddName_appends K3 S3 b kb Hb3 (Some n) ps [lit "#"] Hpath); [done|repeat constructor; done|done]|].
  intros r0 h H. cbn beta in H. rewrite decide_False in H by (apply (bool_decide_unpack _); vm_compute; exact I). destruct H as (-> & _). set (kb' := named kb _).
  assert (row_key n (<[b := kb']> K3) (mkRow b (array_path ps 0) [])) as Hrb.
  { exists kb'. assert (path_ok (Some n) (array_path ps 0)) by (apply path_ok_snoc; split; [done|repeat constructor; done]).
    split_and!; [apply lookup_insert_eq|done|by apply path_name_uname|done..|constructor]. }
  apply wp_bind. eapply wp_mono; [eapply (append_row n l (<[b := kb']> K3) S3 [mkRow d ps []] (mkRow b (array_path ps 0) []))|].
  { eapply listed_keys; [exact Hl3|]. constructor; [|constructor]. apply row_key_other; [by apply not_eq_sym|]. destruct Hl3 as [_ H]. by apply Forall_cons in H as [H _]. }
  { exact Hrb. }
  { apply lookup_insert_eq. }
  { constructor; [|constructor]. apply parent_path_lt. }
  intros _ [K4 S4] [Hl4 HK4]. cbn [h_keys h_sets app rw_loc] in *. rewrite insert_insert_eq in HK4.
  assert (K4 !! pk = Some kp) as Hpk4 by (rewrite HK4, lookup_insert_ne by done; done).
  unfold elektraLineRead. apply wp_bind.
  eapply wp_mono; [eapply (line_loop_spec n ps l lines _ _ K4 S4 [mkRow d ps []] (mkRow b (array_path ps 0) []) 0)|].
  { exact Hl4. }
  { done. }
  { done. }
  { constructor; [|constructor]. apply parent_path_lt. }
  { done. }
  { done. }
  { rewrite rest_open. pose proof (lines_text_length lines). lia. }
  intros [r1 fp1] [K5 S5] (Hr1 & He & HK5 & new & Hl5 & Ht & Hnames). cbn [h_keys h_sets fst snd] in *. subst r1.
  change b with (rw_loc (mkRow b (array_path ps 0) [])).
  eapply (pop_row n l K5 S5 [mkRow d ps []] (mkRow b (array_path ps 0) []) new); [exact Hl5|apply HK5; rewrite HK4; apply lookup_insert_eq|done|].
  cbn [rw_loc]. intros S6 _ Hl6. cbn [Z.eqb]. rewrite He. cbn [negb]. apply wp_ret. cbn [h_keys h_sets].
  assert (delete b K5 !! pk = Some kp) as Hpk6 by (rewrite lookup_delete_ne by done; by apply HK5).
  split_and!; [done| |by exists d, new]. split_and!; [done|done|].
  destruct Hfile as (k & Hk & Hf). assert (k = kp) as -> by congruence. by exists kp.
Qed.

Lemma row_string K r : row_key n K r -> meta_cstr K (rw_loc r) (rw_text r).
Proof.
  intros (k & Hk & _ & _ & Hm & Hd & _ & Hnul). exists k. split_and!; [done..|]. rewrite Hd. unfold text_data.
  destruct (rw_text r) as [|c t] eqn:Er; [done|]. by apply cstr_of_app.
Qed.

Lemma lines_text_snoc ls t : lines_text (ls ++ [t]) = lines_text ls ++ t ++ [NEWLINE].
Proof. unfold lines_text. rewrite map_app, concat_app. cbn [map concat]. by rewrite app_nil_r. Qed.

Lemma elektraLineSet_spec l K S :
  mounted K -> holds_lines l K S -> writable file = true ->
  wp (elektraLineSet writable open_error (Some l) (Some pk)) (fun r _ => r = (1%Z, Some (lines_text lines))) (mkHeap K S).
Proof.
  intros (_ & _ & Hfile) (d & new & [(s & Hs & Hrep & Hc & _) Hrows] & Ht & _) Hw. unfold elektraLineSet.
  apply wp_bind. eapply keyString_meta_spec; [exact Hfile|]. rewrite Hw. cbn [negb].
  cbn [map rw_loc] in Hrep. pose proof (rep_size _ _ Hrep) as Hsz. cbn [length] in Hsz. apply Forall_cons in Hrows as [_ Hrows].
  apply wp_bind. eapply ksRewind_spec; [done|]. apply wp_bind. set (s1 := ks_with_cursor s None 0).
  assert (ks_rep s1 (d :: map rw_loc new)) as Hrep1 by by apply ks_rep_cursor.
  eapply (ksNext_spec K _ l s1); [apply lookup_insert_eq|exact Hrep1|left; by left| |intros H; simpl in H; lia].
  intros _. rewrite insert_insert_eq.
  assert (after_next s1 (d :: map rw_loc new) = ks_with_cursor s1 (Some d) 0) as -> by done. cbn [next_index].
  unfold ks_turns. wsteps. cbn [ks_size ks_with_cursor s1]. rewrite Hsz. set (s2 := ks_with_cursor s1 (Some d) 0).
  apply wp_bind. eapply wp_mono; [eapply (each_key_loop _ l (d :: map rw_loc new)
    (fun i out K' _ => 1 <= i /\ K' = K /\ out = lines_text (take (i - 1) lines))) with (s := s2) (i := 1)|].
  - by intros i out K' S' s' c j _ (Hi & -> & ->).
  - intros i x out K' S' Hx (Hi & -> & ->). destruct i as [|j]; [lia|]. cbn [lookup list_lookup] in Hx.
    apply list_lookup_fmap_Some in Hx as (r & -> & Hr). rewrite Forall_forall in Hrows.
    assert (lines !! j = Some (rw_text r)) as Hj by (rewrite <- Ht; by rewrite list_lookup_fmap, Hr).
    apply wp_bind. eapply keyString_meta_spec; [apply row_string, Hrows; by eapply list_elem_of_lookup_2|]. apply wp_ret. cbn [h_keys h_sets].
    split; [|done]. split_and!; [lia|done|]. replace (Datatypes.S (Datatypes.S j) - 1) with (Datatypes.S j) by lia.
    replace (Datatypes.S j - 1) with j by lia. by rewrite (take_S_r _ _ _ Hj), lines_text_snoc.
  - apply lookup_insert_eq.
  - by apply ks_rep_cursor.
  - done.
  - simpl. lia.
  - simpl. rewrite length_map. lia.
  - done.
  - intros out h [(_ & _ & ->) _]. apply wp_ret. do 2 f_equal. rewrite <- Ht. cbn [length]. rewrite take_ge; [done|]. rewrite !length_map. simpl. lia.
Qed.

(** C27.  A file of lines below ten billion is read into one key per line, named as the elements of an
    array in their order, and writing the keyset gives exactly the bytes that were read. *)
Theorem elektraLine_roundtrip l K S :
  mounted K -> set_ok K S l [] -> path_ok (Some n) ps -> ~ single_backslashes ps ->
  bool_decide (strcmp (path_name (Some n) ps) (lit "system/elektra/modules/line") = 0%Z) = false ->
  fopen file = Some (lines_text lines) -> writable file = true -> Forall line_ok lines -> length lines <= array_limit ->
  wp (elektraLineGet fopen open_error set_error contract (Some l) (Some pk))
    (fun r h => r = 1%Z /\ holds_lines l (h_keys h) (h_sets h) /\
       wp (elektraLineSet writable open_error (Some l) (Some pk)) (fun r' _ => r' = (1%Z, Some (lines_text lines))) h) (mkHeap K S).
Proof.
  intros Hm Hset Hok Hsb Hmod Hopen Hw Hlines Hlen. eapply wp_mono; [by eapply elektraLineGet_spec|].
  intros r [K1 S1] (-> & Hm1 & Hh). split_and!; [done|done|]. by eapply elektraLineSet_spec.
Qed.
End Plugin.
