(* ===== verification/Boolean.v ===== *)
(** * Boolean: normalised booleans

    [plugins/boolean/boolean.c]: the values of keys with the metadata [type=boolean]
    are replaced by the true or the false value of the configuration; the original
    value is kept as metadata and restored before the keys are stored. *)
From S2P Require Export Entries Ccode.
#[local] Open Scope elektra_scope.

Definition DEFAULT_TRUE_VALUE : cstr := lit "1".
Definition DEFAULT_FALSE_VALUE : cstr := lit "0".

(** [InvalidAction] *)
Definition TRUE : Z := 1.
Definition FALSE : Z := 2.
Definition WARNING : Z := 4.

(** A NULL array of values is [None]. *)
Record BoolData := mkBool {
  bd_true : cstr;
  bd_false : cstr;
  bd_invalid : Z;
  bd_trueValues : option (list cstr);
  bd_falseValues : option (list cstr)
}.

(** [toupper] of the C locale leaves a negative [char] alone. *)
Fixpoint stricmp_loop (p1 p2 : cstr) : Z :=
  match p1, p2 with
  | [], [] => 0
  | [], _ => -1
  | _, [] => 1
  | c1 :: r1, c2 :: r2 =>
      if (toupper (schar c1) =? toupper (schar c2))%Z then stricmp_loop r1 r2
      else (toupper (schar c1) - toupper (schar c2))%Z
  end.

Definition stricmp (s1 s2 : cstr) : Z :=
  match s1, s2 with
  | [], [] => 0
  | [], _ => -1
  | _, [] => 1
  | _, _ => stricmp_loop s1 s2
  end.

(** The loop ends at the first value that is equal. *)
Definition isTrue (value : cstr) (trueValues : list cstr) : bool := existsb (fun p => (stricmp value p =? 0)%Z) trueValues.
Definition isFalse (value : cstr) (falseValues : list cstr) : bool := existsb (fun p => (stricmp value p =? 0)%Z) falseValues.

Definition defaultTrueValues : list cstr := map lit ["TRUE"; "1"; "ON"; "ENABLE"; "ENABLED"; "YES"]%string.
Definition defaultFalseValues : list cstr := map lit ["FALSE"; "0"; "OFF"; "DISABLE"; "DISABLED"; "NO"; "NOT"]%string.

Definition trueStrings (data : BoolData) : list cstr := default defaultTrueValues (bd_trueValues data).
Definition falseStrings (data : BoolData) : list cstr := default defaultFalseValues (bd_falseValues data).

(** [strtok_r] drops empty tokens; blanks at the start of a token are skipped. *)
Definition tokens (delim : ascii -> bool) : cstr -> list cstr :=
  fix go (s : cstr) : list cstr :=
    match s with
    | [] => []
    | c :: r =>
        if delim c then go r
        else match r with
             | [] => [[c]]
             | d :: _ => if delim d then [c] :: go r else match go r with t :: ts => (c :: t) :: ts | [] => [[c]] end
             end
    end.

Fixpoint skip_blanks (s : cstr) : cstr :=
  match s with [] => [] | c :: r => if decide (c = " "%char) then skip_blanks r else s end.

Section Boolean.
Context {E : Env}.

(** Without a token the code frees the address of the array in [data], which was never
    allocated. *)
Definition strToArray (key : ptr) : M (list cstr) :=
  values <- keyString key;;
  match tokens (fun c => bool_decide (c = ";"%char)) values with
  | [] => undefined
  | ts => ret (map skip_blanks ts)
  end.

Definition invalid_action (invalid warning : option cstr) : Z :=
  let i0 := match invalid, warning with None, None => Z.lor TRUE WARNING | _, _ => 0%Z end in
  let i1 := match invalid with
            | Some s => if (stricmp s (lit "FALSE") =? 0)%Z then Z.lor i0 FALSE else Z.lor i0 TRUE
            | None => i0
            end in
  match warning with
  | Some s =>
      if (stricmp s (lit "TRUE") =? 0)%Z then Z.lor i1 WARNING
      else if (stricmp s (lit "FALSE") =? 0)%Z then Z.land i1 WARNING
      else Z.lor i1 WARNING
  | None => i1
  end.

(** The string of a key that may not exist. *)
Definition string_if (key : ptr) : M (option cstr) :=
  match key with None => ret None | Some _ => s <- keyString key;; ret (Some s) end.

Definition parseConfig (config : ptr) : M BoolData :=
  trueKey <- env_ksLookupByName config (Some (lit "/on/true")) 0;;
  falseKey <- env_ksLookupByName config (Some (lit "/on/false")) 0;;
  trueValue <- string_if trueKey;;
  falseValue <- string_if falseKey;;
  invalidKey <- env_ksLookupByName config (Some (lit "/on/invalid")) 0;;
  invalidWarningKey <- env_ksLookupByName config (Some (lit "/on/invalid/warning")) 0;;
  invalid <- string_if invalidKey;;
  warning <- string_if invalidWarningKey;;
  validTrueKey <- env_ksLookupByName config (Some (lit "/true")) 0;;
  validFalseKey <- env_ksLookupByName config (Some (lit "/false")) 0;;
  trueValues <- (match validTrueKey with Some _ => a <- strToArray validTrueKey;; ret (Some a) | None => ret None end);;
  falseValues <- (match validFalseKey with Some _ => a <- strToArray validFalseKey;; ret (Some a) | None => ret None end);;
  ret (mkBool (default DEFAULT_TRUE_VALUE trueValue) (default DEFAULT_FALSE_VALUE falseValue)
         (invalid_action invalid warning) trueValues falseValues).

(** The value is kept as [orig] and replaced. *)
Definition replace_value (key : loc) (orig : string) (new : cstr) : M unit :=
  value <- keyString (Some key);;
  keySetMeta (Some key) (Some (lit orig)) (Some value);;
  keySetString (Some key) (Some new);;
  ret tt.

(** [warn] is [ELEKTRA_ADD_WARNINGF] on the parent key. *)
Definition normalize (warn : M unit) (data : BoolData) (key : loc) : M unit :=
  value <- keyString (Some key);;
  if isTrue value (trueStrings data) then replace_value key "origvalue" (bd_true data)
  else if isFalse value (falseStrings data) then replace_value key "origvalue" (bd_false data)
  else
    keySetMeta (Some key) (Some (lit "boolean/invalid")) (Some []);;
    let action := Z.land (bd_invalid data) (Z.lnot WARNING) in
    let warning := if test_bit (bd_invalid data) WARNING then warn else ret tt in
    if (action =? TRUE)%Z then warning;; replace_value key "originalvalue" (bd_true data)
    else if (action =? FALSE)%Z then warning;; replace_value key "origvalue" (bd_false data)
    else ret tt.

(** [type] is [boolean]. *)
Definition is_boolean (key : loc) : M bool :=
  boolMeta <- keyGetMeta (Some key) (Some (lit "type"));;
  match boolMeta with
  | None => ret false
  | Some _ => s <- keyString boolMeta;; ret (bool_decide (strcmp s (lit "boolean") = 0%Z))
  end.

(** The private data of the plugin comes in and goes out. *)
Definition elektraBooleanGet (contract : M ptr) (warn : M unit) (data : option BoolData) (config returned parentKey : ptr) :
    M (Z * option BoolData) :=
  b <- is_named parentKey "system/elektra/modules/boolean";;
  if b : bool then
    contract <- contract;;
    ksAppend returned contract;;
    ksDel contract;;
    ret (1%Z, data)
  else
    d <- (match data with Some d => ret d | None => parseConfig config end);;
    for_each returned (fun _ key => b <- is_boolean key;; if b : bool then normalize warn d key else ret tt) tt;;
    ret (1%Z, Some d).

Definition restoreValue (key : loc) (origName : cstr) : M unit :=
  keySetString (Some key) (Some origName);;
  keySetMeta (Some key) (Some (lit "origvalue")) None;;
  ret tt.

(** [set_error] is [ELEKTRA_SET_ERRORF] on the parent key. *)
Definition boolean_set_key (set_error : M unit) (data : BoolData) (retVal : Z) (key : loc) : M Z :=
  b <- is_boolean key;;
  if b : bool then
    nameMeta <- keyGetMeta (Some key) (Some (lit "origvalue"));;
    value <- keyString (Some key);;
    invalid <- (if bool_decide (strcmp value (bd_true data) = 0%Z) || bool_decide (strcmp value (bd_false data) = 0%Z) then
                  m <- keyGetMeta (Some key) (Some (lit "boolean/invalid"));; ret (bool_decide (is_Some m))
                else ret true);;
    retVal <- (if invalid : bool then
                 keySetMeta (Some key) (Some (lit "boolean/invalid")) None;; set_error;; ret (-1)%Z
               else ret retVal);;
    (match nameMeta with
     | Some _ => s <- keyString nameMeta;; restoreValue key s
     | None => ret tt
     end);;
    ret retVal
  else ret retVal.

Definition elektraBooleanSet (set_error : M unit) (data : option BoolData) (returned : ptr) : M Z :=
  match data with
  | None => ret (-1)%Z
  | Some d => for_each returned (boolean_set_key set_error d) 1%Z
  end.

(** The memory of the lists is freed. *)
Definition elektraBooleanClose (data : option BoolData) : M (Z * option BoolData) := ret (1%Z, None).
End Boolean.

(** ** What the plugin does to an entry *)

Definition is_bool (e : entry) : bool :=
  match en_meta e !! mu "type" with Some s => bool_decide (strcmp s (lit "boolean") = 0%Z) | None => false end.

Definition normalized (d : BoolData) (e : entry) : entry :=
  if is_bool e then
    match string_of e with
    | Some v => let e' := with_meta e (mu "origvalue") (Some v) in
        if isTrue v (trueStrings d) then with_string e' (bd_true d)
        else if isFalse v (falseStrings d) then with_string e' (bd_false d) else e
    | None => e
    end
  else e.

Definition restored (e : entry) : entry :=
  if is_bool e then
    match en_meta e !! mu "origvalue" with Some s => with_meta (with_string e s) (mu "origvalue") None | None => e end
  else e.

(** A boolean the plugin knows, stored as a string without leftovers of the plugin. *)
Definition valid_bool (d : BoolData) (e : entry) : Prop :=
  exists v, en_data e = Some (v ++ [NUL]) /\ v <> [] /\ no_nul v /\ is_binary e = false /\
    isTrue v (trueStrings d) || isFalse v (falseStrings d) = true /\
    en_meta e !! mu "origvalue" = None /\ en_meta e !! mu "boolean/invalid" = None.

Definition normalizable (d : BoolData) (e : entry) : Prop := is_bool e = true -> valid_bool d e.

Definition restorable (d : BoolData) (e : entry) : Prop :=
  is_bool e = true -> (string_of e = Some (bd_true d) \/ string_of e = Some (bd_false d)) /\
    en_meta e !! mu "boolean/invalid" = None /\ exists s, en_meta e !! mu "origvalue" = Some s /\ no_nul s.

Lemma valid_bool_string d e : valid_bool d e -> exists v, string_of e = Some v /\ no_nul v /\
  isTrue v (trueStrings d) || isFalse v (falseStrings d) = true.
Proof.
  intros (v & Hd & _ & Hv & Hb & Ht & _). exists v. split_and!; [|done..]. unfold string_of. rewrite Hd, Hb. by apply cstr_of_app.
Qed.

Lemma normalized_restorable d e :
  no_nul (bd_true d) -> no_nul (bd_false d) -> normalizable d e -> restorable d (normalized d e).
Proof.
  intros Ht Hf He Hb. unfold normalized in *. destruct (is_bool e) eqn:Eb; [|congruence].
  destruct (He Eb) as (v & Hd & Hne & Hv & Hbin & Hval & Ho & Hi). 
  assert (string_of e = Some v) as Es by (unfold string_of; rewrite Hd, Hbin; by apply cstr_of_app). rewrite Es in *.
  destruct (isTrue v (trueStrings d)); [|destruct (isFalse v (falseStrings d)); [|done]]; split_and!;
    try (rewrite string_of_with_string by done; by auto); try (cbn; by rewrite !lookup_partial_alter_ne by by vm_compute);
    exists v; (split; [|done]); cbn; by rewrite lookup_partial_alter_ne, lookup_partial_alter_eq by by vm_compute.
Qed.

Lemma normalized_restored d e : normalizable d e -> restored (normalized d e) = e.
Proof.
  intros He. unfold normalized. destruct (is_bool e) eqn:Eb; [|unfold restored; by rewrite Eb].
  destruct (He Eb) as (v & Hd & Hne & Hv & Hbin & Hval & Ho & Hi).
  assert (string_of e = Some v) as -> by (unfold string_of; rewrite Hd, Hbin; by apply cstr_of_app).
  assert (en_meta e !! mu "binary" = None) as Hnb.
  { unfold is_binary in Hbin. destruct (en_meta e !! mu "binary"); [|done]. by rewrite bool_decide_true in Hbin. }
  assert (forall b, restored (with_string (with_meta e (mu "origvalue") (Some v)) b) = e) as H.
  { intros b. unfold restored. assert (is_bool (with_string (with_meta e (mu "origvalue") (Some v)) b) = true) as ->.
    { unfold is_bool in *. cbn. by rewrite !lookup_partial_alter_ne by by vm_compute. }
    cbn. rewrite lookup_partial_alter_ne, lookup_partial_alter_eq by by vm_compute.
    unfold with_meta, with_string, with_data. cbn. destruct e as [n dt mt]. cbn in *. f_equal; [destruct v; [done|by rewrite Hd]|].
    apply map_eq. intros u. destruct (decide (u = mu "origvalue")) as [->|Hu]; [by rewrite lookup_partial_alter_eq|].
    rewrite lookup_partial_alter_ne by done. destruct (decide (u = mu "binary")) as [->|Hub]; [by rewrite lookup_partial_alter_eq|].
    by rewrite !lookup_partial_alter_ne by done. }
  destruct (isTrue v (trueStrings d)); [apply H|]. destruct (isFalse v (falseStrings d)); [apply H|done].
Qed.

Section BooleanFacts.
Context {E : Env} {HR : RecLaws env_rec} {HP : PopLaws env_rec}.
Context (ls : list loc) (FK : gmap loc Key).

Lemma meta_name_type : meta_name (lit "type") (lit "type").
Proof. meta_name_eval. Qed.
Lemma meta_name_origvalue : meta_name (lit "origvalue") (lit "origvalue").
Proof. meta_name_eval. Qed.
Lemma meta_name_invalid : meta_name (lit "boolean/invalid") (lit "boolean/invalid").
Proof. meta_name_eval. Qed.

Lemma is_boolean_spec FS e K S x (Q : bool -> heap -> Prop) :
  entries ls FK FS e K S -> x ∈ ls -> (forall S', entries ls FK FS e K S' -> Q (is_bool (e x)) (mkHeap K S')) ->
  wp (is_boolean x) Q (mkHeap K S).
Proof.
  intros He Hx HQ. unfold is_boolean. apply wp_bind. eapply entries_getMeta; [done..|apply meta_name_type|].
  intros p S' He' Hp. specialize (HQ S' He'). unfold is_bool, mu in HQ. destruct (en_meta (e x) !! _) as [s|], p as [m|]; try done.
  - apply wp_bind. eapply keyString_meta_spec; [done|]. by apply wp_ret.
  - by apply wp_ret.
Qed.

Lemma replace_value_spec FS e K S x v new (Q : unit -> heap -> Prop) :
  entries ls FK FS e K S -> x ∈ ls -> string_of (e x) = Some v -> no_nul v -> no_nul new ->
  (forall K' S', entries ls FK FS (upd e x (with_string (with_meta (e x) (mu "origvalue") (Some v)) new)) K' S' -> Q tt (mkHeap K' S')) ->
  wp (replace_value x "origvalue" new) Q (mkHeap K S).
Proof.
  intros He Hx Hv Hnv Hnew HQ. unfold replace_value. apply wp_bind. eapply entries_string; [done..|]. intros S1 He1.
  apply wp_bind. eapply entries_setMeta; [done..|apply meta_name_origvalue|done|]. intros _ K2 S2 He2.
  apply wp_bind. eapply entries_setString; [done..|]. intros _ K3 S3 He3. apply wp_ret. apply HQ.
  eapply entries_ext; [|exact He3]. intros y _. unfold upd. case_decide; [by rewrite decide_True|done].
Qed.

Lemma normalize_key_spec warn d FS x e K S :
  no_nul (bd_true d) -> no_nul (bd_false d) -> x ∈ ls -> normalizable d (e x) -> entries ls FK FS e K S ->
  wp (b <- is_boolean x;; if b : bool then normalize warn d x else ret tt)
    (fun _ h => entries ls FK FS (upd e x (normalized d (e x))) (h_keys h) (h_sets h)) (mkHeap K S).
Proof.
  intros Ht Hf Hx HP' He. apply wp_bind. eapply is_boolean_spec; [done..|]. intros S1 He1. unfold normalized.
  destruct (is_bool (e x)) eqn:Eb; [|apply wp_ret; eapply entries_ext; [|exact He1]; intros y _; symmetry; apply upd_id].
  destruct (valid_bool_string d (e x) (HP' Eb)) as (v & Hs & Hv & Hval). rewrite Hs. unfold normalize.
  apply wp_bind. eapply entries_string; [done..|]. intros S2 He2.
  destruct (isTrue v (trueStrings d)); [|destruct (isFalse v (falseStrings d)); [|done]]; by eapply replace_value_spec.
Qed.

Lemma restoreValue_spec FS e K S x s (Q : unit -> heap -> Prop) :
  entries ls FK FS e K S -> x ∈ ls -> no_nul s ->
  (forall K' S', entries ls FK FS (upd e x (with_meta (with_string (e x) s) (mu "origvalue") None)) K' S' -> Q tt (mkHeap K' S')) ->
  wp (restoreValue x s) Q (mkHeap K S).
Proof.
  intros He Hx Hs HQ. unfold restoreValue. apply wp_bind. eapply entries_setString; [done..|]. intros _ K1 S1 He1.
  apply wp_bind. eapply entries_setMeta; [done..|apply meta_name_origvalue|done|]. intros _ K2 S2 He2. apply wp_ret. apply HQ.
  eapply entries_ext; [|exact He2]. intros y _. unfold upd. case_decide; [by rewrite decide_True|done].
Qed.

Lemma boolean_set_key_spec err d FS x e K S :
  no_nul (bd_true d) -> no_nul (bd_false d) -> x ∈ ls -> restorable d (e x) -> entries ls FK FS e K S ->
  wp (boolean_set_key err d 1%Z x)
    (fun r h => r = 1%Z /\ entries ls FK FS (upd e x (restored (e x))) (h_keys h) (h_sets h)) (mkHeap K S).
Proof.
  intros Ht Hf Hx HP' He. unfold boolean_set_key. apply wp_bind. eapply is_boolean_spec; [done..|]. intros S1 He1. unfold restored.
  destruct (is_bool (e x)) eqn:Eb; [|apply wp_ret; split; [done|]; eapply entries_ext; [|exact He1]; intros y _; symmetry; apply upd_id].
  destruct (HP' Eb) as (Hs & Hi & s & Ho & Hns). rewrite Ho.
  apply wp_bind. eapply entries_getMeta; [done..|apply meta_name_origvalue|]. intros p S2 He2 Hp. fold (mu "origvalue") in Hp. rewrite Ho in Hp.
  destruct p as [m|]; [|done].
  assert (exists w, string_of (e x) = Some w /\ bool_decide (strcmp w (bd_true d) = 0%Z) || bool_decide (strcmp w (bd_false d) = 0%Z) = true) as (w & Hw & Hcmp).
  { destruct Hs as [Hs|Hs]; eexists; (split; [exact Hs|]); apply orb_true_iff; [left|right]; apply bool_decide_eq_true; by apply strcmp_eq. }
  apply wp_bind. eapply entries_string; [done..|]. intros S3 He3. rewrite Hcmp.
  apply wp_bind, wp_bind. eapply entries_getMeta; [done..|apply meta_name_invalid|]. intros p S4 He4 Hp'. fold (mu "boolean/invalid") in Hp'. rewrite Hi in Hp'.
  destruct p; [done|]. apply wp_ret. cbn. do 2 wstep. apply wp_bind. eapply keyString_meta_spec; [exact Hp|].
  apply wp_bind. eapply restoreValue_spec; [done..|]. intros K5 S5 He5. by apply wp_ret.
Qed.

(** C21.  [elektraBooleanGet] replaces the values of boolean keys by the true or the false
    value of the configuration and keeps the original ones as metadata, and
    [elektraBooleanSet] restores exactly the values and metadata the keys had before;
    other keys of the keyset and the rest of the heap are left alone. *)
Theorem elektraBoolean_roundtrip contract warn err d config ks xs s pk kp n FS e K S :
  FS !! ks = Some s -> ks_rep s xs -> NoDup xs -> (forall x, x ∈ xs -> x ∈ ls) ->
  FK !! pk = Some kp -> k_key kp = Some n -> bool_decide (strcmp n (lit "system/elektra/modules/boolean") = 0%Z) = false ->
  no_nul (bd_true d) -> no_nul (bd_false d) -> (forall x, x ∈ xs -> normalizable d (e x)) -> entries ls FK FS e K S ->
  wp (elektraBooleanGet contract warn (Some d) config (Some ks) (Some pk))
    (fun r h => r = (1%Z, Some d) /\
       (exists s', ks_rep s' xs /\ entries ls FK (<[ks := s']> FS) (mapped (normalized d) e xs) (h_keys h) (h_sets h)) /\
       wp (elektraBooleanSet err (Some d) (Some ks))
         (fun r h => r = 1%Z /\ exists s', ks_rep s' xs /\ entries ls FK (<[ks := s']> FS) e (h_keys h) (h_sets h)) h) (mkHeap K S).
Proof.
  intros Hs Hrep Hnd Hin Hpk Hn Hname Ht Hf HP' He. unfold elektraBooleanGet.
  pose proof He as [own Hw]. destruct (w_frame _ _ _ _ _ _ _ Hw pk kp Hpk) as (Hkp & _).
  eapply is_named_spec; [done..|]. apply wp_ret_bind, wp_bind.
  eapply wp_mono; [eapply (entries_for_each ls FK ks xs _ (normalized d) (fun _ => True) (normalizable d) FS); [|done..]|].
  - intros FS' x a e' K' S' Hx _ Hok He'. eapply wp_mono; [by eapply normalize_key_spec; eauto|]. by intros [] h H.
  - intros [] [K1 S1] (_ & s1 & Hrep1 & He1). cbn [h_keys h_sets] in *. apply wp_ret. split_and!; [done|by exists s1|].
    unfold elektraBooleanSet. eapply wp_mono; [eapply (entries_for_each ls FK ks xs _ restored (fun a => a = 1%Z) (restorable d) (<[ks := s1]> FS));
      [|apply lookup_insert_eq|done..| |done|exact He1]|].
    + intros FS' x a e' K' S' Hx -> Hok He'. by eapply boolean_set_key_spec; eauto.
    + intros x Hx. unfold mapped. rewrite decide_True by done. apply normalized_restorable; auto.
    + intros r h (-> & s2 & Hrep2 & He2). split; [done|]. exists s2. split; [done|]. rewrite insert_insert_eq in He2.
      eapply entries_ext; [|exact He2]. intros x _. unfold mapped. destruct (decide (x ∈ xs)); [|done]. by apply normalized_restored, HP'.
Qed.
End BooleanFacts.
