(* ===== verification/Null.v ===== *)
(** * Null: values that are missing or empty

    [plugins/null/null.c]: values a storage plugin cannot write are replaced by
    [@NULL] and [@EMPTY], and values that start with [@] get another one. *)
From S2P Require Export Entries.
#[local] Open Scope elektra_scope.

Section Null.
Context {E : Env}.

(** [keySetString (k, keyString (k) + 1)]: the new value lies in the block of the old one,
    which [keySetRaw] reallocates before it copies. *)
Definition set_tail (k : loc) : M unit :=
  keySetMeta (Some k) (Some (lit "binary")) None;;
  key <- get_key k;;
  if test_bit (k_flags key) KEY_FLAG_RO_VALUE then ret tt else undefined.

Definition null_get_key (k : loc) : M unit :=
  s <- keyString (Some k);;
  if bool_decide (strcmp s (lit "@NULL") = 0%Z) then keySetBinary (Some k) None 0;; ret tt
  else if bool_decide (strcmp s (lit "@EMPTY") = 0%Z) then keySetString (Some k) (Some []);; ret tt
  else if bool_decide (strncmp s (lit "@@") 2 = 0%Z) then set_tail k
  else ret tt.

Definition elektraNullGet (moduleConfig : M ptr) (returned parentKey : ptr) : M Z :=
  b <- is_named parentKey "system/elektra/modules/null";;
  if b : bool then
    moduleConfig <- moduleConfig;;
    ksAppend returned moduleConfig;;
    ksDel moduleConfig;;
    ret 1%Z
  else
    for_each returned (fun _ k => null_get_key k) tt;;
    ret 1%Z.

(** The comparisons read only the first byte of the value. *)
Definition null_set_key (k : loc) : M unit :=
  v <- keyValue (Some k);;
  match v with
  | None => keySetString (Some k) (Some (lit "@NULL"));; ret tt
  | Some [] => undefined
  | Some (c :: r) =>
      if decide (c = NUL) then keySetString (Some k) (Some (lit "@EMPTY"));; ret tt
      else if decide (c = "@"%char) then
        size <- keyGetValueSize (Some k);;
        s <- as_cstr (c :: r);;
        if (size + 1 <? Z.of_nat (length s + 2))%Z then undefined
        else keySetString (Some k) (Some ("@"%char :: s));; ret tt
      else ret tt
  end.

Definition elektraNullSet (returned : ptr) : M Z :=
  for_each returned (fun _ k => null_set_key k) tt;;
  ret 1%Z.
End Null.

(** ** What the plugin does to an entry *)

Definition escaped (e : entry) : entry :=
  match en_data e with
  | None => with_string e (if is_binary e then lit "@NULL" else lit "@EMPTY")
  | Some (c :: r) =>
      if decide (c = NUL) then with_string e (lit "@EMPTY")
      else if decide (c = "@"%char) then match cstr_of (c :: r) with Some s => with_string e ("@"%char :: s) | None => e end
      else e
  | Some [] => e
  end.

Definition unescaped (e : entry) : entry :=
  match string_of e with
  | Some s =>
      if bool_decide (strcmp s (lit "@NULL") = 0%Z) then with_data (with_meta e (mu "binary") (Some [])) None
      else if bool_decide (strcmp s (lit "@EMPTY") = 0%Z) then with_string e []
      else e
  | None => e
  end.

(** Binary keys without a value, empty strings, and values that do not start with NUL or [@]. *)
Definition null_plain (e : entry) : Prop :=
  match en_data e with
  | None => en_meta e !! mu "binary" = None \/ en_meta e !! mu "binary" = Some []
  | Some d => exists c r, d = c :: r /\ c <> NUL /\ c <> "@"%char /\ is_Some (string_of e)
  end.

(** What was set can be got back. *)
Definition null_readable (e : entry) : Prop :=
  exists s, string_of e = Some s /\ bool_decide (strncmp s (lit "@@") 2 = 0%Z) = false.

Lemma cstr_of_length d s : cstr_of d = Some s -> length s < length d.
Proof.
  revert s. induction d as [|c d IH]; intros s; [done|]. cbn [cstr_of]. case_decide; [intros [= <-]; simpl; lia|].
  destruct (cstr_of d) as [t|]; [|done]. intros [= <-]. specialize (IH t eq_refl). simpl. lia.
Qed.

Lemma is_binary_with_string e s : is_binary (with_string e s) = false.
Proof. unfold is_binary. simpl. by rewrite lookup_partial_alter_eq. Qed.

Lemma meta_binary_back m v : m !! mu "binary" = v -> partial_alter (fun _ => v) (mu "binary") (partial_alter (fun _ => None) (mu "binary") m) = (m : gmap (list ascii) cstr).
Proof.
  intros Hm. apply map_eq. intros u. destruct (decide (u = mu "binary")) as [->|Hu]; [by rewrite lookup_partial_alter_eq|].
  by rewrite !lookup_partial_alter_ne by done.
Qed.

Lemma no_nul_markers : no_nul (lit "@NULL") /\ no_nul (lit "@EMPTY").
Proof. split; solve_no_nul. Qed.

Lemma plain_string e c r : en_data e = Some (c :: r) -> c <> NUL -> c <> "@"%char -> is_Some (string_of e) ->
  exists d s, string_of e = Some (d :: s) /\ d <> "@"%char.
Proof.
  intros Hd Hc Hat [s Hs]. unfold string_of in *. rewrite Hd in *. destruct (is_binary e).
  - eexists _, _. split; [reflexivity|done].
  - cbn [cstr_of] in *. rewrite decide_False in * by done. destruct (cstr_of r) as [t|]; [|done]. by exists c, t.
Qed.

Lemma not_marked d s : d <> "@"%char ->
  bool_decide (strcmp (d :: s) (lit "@NULL") = 0%Z) = false /\ bool_decide (strcmp (d :: s) (lit "@EMPTY") = 0%Z) = false /\
  bool_decide (strncmp (d :: s) (lit "@@") 2 = 0%Z) = false.
Proof.
  intros Hd. assert (uchar d - uchar "@" <> 0)%Z as Hne.
  { intros H. apply Hd, uchar_inj. lia. }
  change (lit "@NULL") with ("@"%char :: lit "NULL"). change (lit "@EMPTY") with ("@"%char :: lit "EMPTY"). change (lit "@@") with ("@"%char :: lit "@").
  split_and!; apply bool_decide_eq_false_2; simpl; rewrite ?decide_False by done; exact Hne.
Qed.

Lemma escaped_unescaped e : null_plain e -> unescaped (escaped e) = e.
Proof.
  intros He. unfold null_plain, escaped in *. destruct (en_data e) as [d|] eqn:Ed.
  - destruct He as (c & r & -> & Hc & Hat & Hs). rewrite !decide_False by done.
    destruct (plain_string e c r Ed Hc Hat Hs) as (d & s & E1 & Hd). unfold unescaped. rewrite E1.
    destruct (not_marked d s Hd) as (-> & -> & _). done.
  - unfold unescaped, is_binary. destruct no_nul_markers as [Hn1 Hn2]. destruct He as [Hb|Hb]; rewrite Hb; cbn [is_Some_dec]; simpl bool_decide; cbn iota;
      rewrite string_of_with_string by done; [rewrite bool_decide_false by done|]; rewrite bool_decide_true by done.
    + destruct e as [n dt m]. unfold with_string, with_data, with_meta. simpl in *. subst. f_equal.
      rewrite <- (meta_binary_back m None) at 2 by done. apply map_eq. intros u. destruct (decide (u = mu "binary")) as [->|Hu]; [by rewrite !lookup_partial_alter_eq|].
      by rewrite !lookup_partial_alter_ne by done.
    + destruct e as [n dt m]. unfold with_string, with_data, with_meta. simpl in *. subst. f_equal. by apply meta_binary_back.
Qed.

Section NullFacts.
Context {E : Env} {HR : RecLaws env_rec} {HP : PopLaws env_rec}.
Context (ls : list loc) (FK : gmap loc Key).

(** What [keyValue] returns. *)
Definition value_of (e : entry) : option (list ascii) :=
  match en_data e with Some d => Some d | None => if is_binary e then None else Some [NUL] end.

Lemma entries_value FS e K S l (Q : option (list ascii) -> heap -> Prop) :
  entries ls FK FS e K S -> l ∈ ls -> (forall S', entries ls FK FS e K S' -> Q (value_of (e l)) (mkHeap K S')) ->
  wp (keyValue (Some l)) Q (mkHeap K S).
Proof.
  intros He Hl HQ. pose proof He as [own Hw]. destruct (w_rep _ _ _ _ _ _ _ Hw l Hl) as (k & Hk & _ & Hd & _).
  unfold keyValue, value_of in *. wstep. rewrite Hd. destruct (en_data (e l)); [apply wp_ret; by apply HQ|].
  apply wp_bind. eapply entries_isBinary; [done..|]. intros S' He'. apply wp_ret. specialize (HQ S' He'). by destruct (is_binary (e l)).
Qed.

Lemma entries_setBinary_null FS e K S l (Q : Z -> heap -> Prop) :
  entries ls FK FS e K S -> l ∈ ls ->
  (forall r K' S', entries ls FK FS (upd e l (with_data (with_meta (e l) (mu "binary") (Some [])) None)) K' S' -> Q r (mkHeap K' S')) ->
  wp (keySetBinary (Some l) None 0) Q (mkHeap K S).
Proof.
  intros He Hl HQ. unfold keySetBinary. cbn [Nat.eqb]. rewrite (bool_decide_false (is_Some None)) by by intros []. cbn [andb].
  pose proof He as [own Hw]. destruct (w_rep _ _ _ _ _ _ _ Hw l Hl) as (k & Hk & _ & _ & _ & Hrv & _). wstep. rewrite Hrv.
  apply wp_bind. eapply entries_setMeta; [done..|apply meta_name_binary|constructor|]. intros r0 K1 S1 He1.
  pose proof He1 as [own1 Hw1]. destruct (w_rep _ _ _ _ _ _ _ Hw1 l Hl) as (k1 & Hk1 & _ & _ & _ & Hrv1 & _).
  unfold keySetRaw. wstep. rewrite Hrv1. wstep. pose proof (entries_put_data _ _ _ _ _ _ l k1 None He1 Hl Hk1) as He2.
  apply wp_bind. eapply entries_isBinary; [exact He2|done|]. intros S2 He3. apply wp_ret. eapply HQ, entries_ext; [|exact He3].
  intros x _. unfold upd. case_decide; [|done]. by rewrite decide_True.
Qed.

Lemma null_set_key_spec FS x e K S :
  x ∈ ls -> null_plain (e x) -> entries ls FK FS e K S ->
  wp (null_set_key x) (fun _ h => entries ls FK FS (upd e x (escaped (e x))) (h_keys h) (h_sets h)) (mkHeap K S).
Proof.
  intros Hx HP' He. unfold null_set_key. apply wp_bind. eapply entries_value; [done..|]. intros S1 He1.
  unfold value_of, escaped, null_plain in *. destruct (en_data (e x)) as [d|].
  - destruct HP' as (c & r & -> & Hc & Hat & _). rewrite !decide_False by done. apply wp_ret. eapply entries_ext; [|exact He1]. intros y _. symmetry. apply upd_id.
  - destruct no_nul_markers. destruct (is_binary (e x)); [|cbn [decide]; rewrite decide_True by done];
      (apply wp_bind; eapply entries_setString; [done..|]; intros _ K2 S2 He2; by apply wp_ret).
Qed.

Lemma null_get_key_spec FS x e K S :
  x ∈ ls -> null_readable (e x) -> entries ls FK FS e K S ->
  wp (null_get_key x) (fun _ h => entries ls FK FS (upd e x (unescaped (e x))) (h_keys h) (h_sets h)) (mkHeap K S).
Proof.
  intros Hx (s & Hs & Hat) He. unfold null_get_key. apply wp_bind. eapply entries_string; [done..|]. intros S1 He1.
  unfold unescaped. rewrite Hs, Hat. destruct (bool_decide (strcmp s (lit "@NULL") = 0%Z)); [|destruct (bool_decide (strcmp s (lit "@EMPTY") = 0%Z))].
  - apply wp_bind. eapply entries_setBinary_null; [done..|]. intros _ K2 S2 He2. by apply wp_ret.
  - apply wp_bind. eapply entries_setString; [done..|constructor|]. intros _ K2 S2 He2. by apply wp_ret.
  - apply wp_ret. eapply entries_ext; [|exact He1]. intros y _. symmetry. apply upd_id.
Qed.

Lemma escaped_readable e : null_plain e -> null_readable (escaped e).
Proof.
  intros He. unfold null_plain, escaped, null_readable in *. destruct (en_data e) as [d|] eqn:Ed.
  - destruct He as (c & r & -> & Hc & Hat & Hs). rewrite !decide_False by done.
    destruct (plain_string e c r Ed Hc Hat Hs) as (d & s & E1 & Hd). exists (d :: s). split; [done|]. by apply not_marked.
  - destruct no_nul_markers. eexists. split; [by apply string_of_with_string; destruct (is_binary e)|]. by destruct (is_binary e).
Qed.

(** C22.  For keys without a value and keys whose value starts neither with NUL nor with [@]:
    [elektraNullSet] replaces the missing binary values and the empty strings by markers
    that can be written and leaves the other values, and [elektraNullGet] brings exactly
    the values and metadata back that the keys had.  Values that start with [@] are left
    out: [elektraNullSet] marks them with another [@], and [elektraNullGet] reads behind
    them ([elektraNull_at_undefined]). *)
Theorem elektraNull_roundtrip moduleConfig ks xs s pk kp n FS e K S :
  FS !! ks = Some s -> ks_rep s xs -> NoDup xs -> (forall x, x ∈ xs -> x ∈ ls) ->
  FK !! pk = Some kp -> k_key kp = Some n -> bool_decide (strcmp n (lit "system/elektra/modules/null") = 0%Z) = false ->
  (forall x, x ∈ xs -> null_plain (e x)) -> entries ls FK FS e K S ->
  wp (elektraNullSet (Some ks))
    (fun r h => r = 1%Z /\
       (exists s', ks_rep s' xs /\ entries ls FK (<[ks := s']> FS) (mapped escaped e xs) (h_keys h) (h_sets h)) /\
       wp (elektraNullGet moduleConfig (Some ks) (Some pk))
         (fun r h => r = 1%Z /\ exists s', ks_rep s' xs /\ entries ls FK (<[ks := s']> FS) e (h_keys h) (h_sets h)) h) (mkHeap K S).
Proof.
  intros Hs Hrep Hnd Hin Hpk Hn Hname HP' He. unfold elektraNullSet. apply wp_bind.
  eapply wp_mono; [eapply (entries_for_each ls FK ks xs _ escaped (fun _ => True) null_plain FS); [|done..]|].
  - intros FS' x a e' K' S' Hx _ Hok He'. eapply wp_mono; [by eapply null_set_key_spec; eauto|]. by intros [] h H.
  - intros [] [K1 S1] (_ & s1 & Hrep1 & He1). cbn [h_keys h_sets] in *. apply wp_ret. split_and!; [done|by exists s1|].
    unfold elektraNullGet. pose proof He1 as [own Hw]. destruct (w_frame _ _ _ _ _ _ _ Hw pk kp Hpk) as (Hkp & _).
    eapply is_named_spec; [done..|]. apply wp_bind.
    eapply wp_mono; [eapply (entries_for_each ls FK ks xs _ unescaped (fun _ => True) null_readable (<[ks := s1]> FS));
      [|apply lookup_insert_eq|done..| |done|exact He1]|].
    + intros FS' x a e' K' S' Hx _ Hok He'. eapply wp_mono; [by eapply null_get_key_spec; eauto|]. by intros [] h H.
    + intros x Hx. unfold mapped. rewrite decide_True by done. apply escaped_readable; auto.
    + intros [] h (_ & s2 & Hrep2 & He2). apply wp_ret. split; [done|]. exists s2. split; [done|]. rewrite insert_insert_eq in He2.
      eapply entries_ext; [|exact He2]. intros x _. unfold mapped. destruct (decide (x ∈ xs)); [|done]. by apply escaped_unescaped, HP'.
Qed.

(** The code goes wrong after [m]. *)
Lemma wp_wrong {A B} (m : M A) (f : A -> M B) h : wp m (fun a h' => f a h' = Undefined) h -> bindM m f h = Undefined.
Proof. intros (a & h' & Hm & Hf). unfold bindM. by rewrite Hm. Qed.

(** [elektraNullSet] gives a value that starts with [@] another one, and reading it back is
    undefined: the new value is a part of the old one, whose memory is reallocated. *)
Theorem elektraNull_at_undefined FS x e K S c r s :
  x ∈ ls -> en_data (e x) = Some (c :: r) -> c = "@"%char -> cstr_of (c :: r) = Some s -> no_nul s -> is_binary (e x) = false ->
  entries ls FK FS e K S ->
  wp (null_set_key x) (fun _ h => null_get_key x h = Undefined) (mkHeap K S).
Proof.
  intros Hx Hd Hc Hs Hn Hb He. unfold null_set_key. apply wp_bind. eapply entries_value; [done..|]. intros S1 He1.
  unfold value_of. rewrite Hd, decide_False, decide_True by (by subst).
  pose proof He1 as [own Hw]. destruct (w_rep _ _ _ _ _ _ _ Hw x Hx) as (k & Hk & _ & Hkd & _).
  unfold keyGetValueSize. do 2 wstep. rewrite Hkd, Hd. wstep. unfold as_cstr. rewrite Hs. wstep.
  assert (length s < length (c :: r)) as Hlen by by eapply cstr_of_length.
  destruct (Z.ltb_spec (Z.of_nat (length (c :: r)) + 1) (Z.of_nat (length s + 2))); [lia|].
  assert (no_nul ("@"%char :: s)) as Hn' by by constructor.
  apply wp_bind. eapply entries_setString; [done..|]. intros _ K2 S2 He2. apply wp_ret.
  set (e2 := upd _ _ _) in He2. assert (string_of (e2 x) = Some ("@"%char :: s)) as Hs2 by (unfold e2; rewrite upd_eq; by apply string_of_with_string).
  unfold null_get_key. apply wp_wrong. eapply entries_string; [exact He2|done|exact Hs2|]. intros S3 He3.
  assert (exists t, s = "@"%char :: t) as [t ->].
  { subst c. cbn [cstr_of] in Hs. rewrite decide_False in Hs by done. destruct (cstr_of r) as [t|]; [|done]. injection Hs as <-. by exists t. }
  change (bool_decide (strcmp ("@"%char :: "@"%char :: t) (lit "@NULL") = 0%Z)) with false.
  change (bool_decide (strcmp ("@"%char :: "@"%char :: t) (lit "@EMPTY") = 0%Z)) with false.
  change (bool_decide (strncmp ("@"%char :: "@"%char :: t) (lit "@@") 2 = 0%Z)) with true. cbn iota.
  unfold set_tail. apply wp_wrong. eapply entries_setMeta; [done..|apply meta_name_binary|done|]. intros _ K4 S4 He4.
  pose proof He4 as [own4 Hw4]. destruct (w_rep _ _ _ _ _ _ _ Hw4 x Hx) as (k4 & Hk4 & _ & _ & _ & Hrv4 & _).
  unfold bindM, get_key. cbn [h_keys]. by rewrite Hk4, Hrv4.
Qed.
End NullFacts.
