(* ===== verification/MetaLib.v ===== *)
(** * MetaLib: comments, owners, times and the order of keys

    [libs/meta/meta.c]: metadata with a meaning of its own, metadata arrays and
    the topological sort of keys by their dependencies, whose loops over the
    adjacency matrix are those of [TopSort.v].  [errno] is left out. *)
From S2P Require Export TopSort Proposal Ease.

(** ** Numbers in metadata *)

(** The digits [strtol] reads in a base of at most ten. *)
Definition is_digit_of (base : Z) (c : ascii) : bool := ((48 <=? uchar c) && (uchar c <? 48 + base))%Z.

Fixpoint read_base (base : Z) (s : cstr) (acc : Z) : Z * cstr :=
  match s with
  | c :: r => if is_digit_of base c then read_base base r (acc * base + (uchar c - 48)) else (acc, s)
  | [] => (acc, [])
  end.

(** [strtol (s, &endptr, base)] of a [long int] with 64 bits: the value unless
    [errno] is set, the string is no number or something follows it. *)
Definition LONG_MIN : Z := - 2 ^ 63.
Definition LONG_MAX : Z := 2 ^ 63 - 1.

Definition strtol_all (base : Z) (s : cstr) : option Z :=
  let s := snd (count_while isspace s) in
  let (neg, s) := match s with
                  | c :: r => if decide (c = "-"%char) then (true, r)
                              else if decide (c = "+"%char) then (false, r) else (false, s)
                  | [] => (false, s)
                  end in
  if is_digit_of base (deref s) then
    let (n, rest) := read_base base s 0 in
    let v := if neg then (- n)%Z else n in
    if ((v <? LONG_MIN) || (LONG_MAX <? v))%Z then None
    else match rest with [] => Some v | _ => None end
  else None.

(** [snprintf (str, MAX_LEN_INT - 1, ...)] of a number that is not negative. *)
Definition MAX_LEN_INT : nat := 31.

Fixpoint print_base_fuel (fuel : nat) (base n : Z) (acc : cstr) : cstr :=
  match fuel with
  | O => acc
  | S f =>
      let acc := ascii_of_N (Z.to_N (48 + n mod base)) :: acc in
      if (n <? base)%Z then acc else print_base_fuel f base (n / base) acc
  end.

(** A number of 64 bits has at most 22 octal digits. *)
Definition print_base (base n : Z) : cstr := print_base_fuel 22 base n [].

(** [%d], which reads the [unsigned int] as [int]. *)
Definition print_d (n : Z) : cstr :=
  if (n <? 2 ^ 31)%Z then print_base 10 n else "-"%char :: print_base 10 (2 ^ 32 - n).

(** [%lu] of a [time_t], which has a sign. *)
Definition print_lu (n : Z) : cstr := print_base 10 (n mod 2 ^ 64).

Definition uint32 (n : Z) : Z := (n mod 2 ^ 32)%Z.

Definition KDB_FILE_MODE : Z := 384. (* 0600 *)
Definition KDB_DIR_MODE : Z := 64. (* 0100 *)

Section MetaLib.
Context {E : Env}.

(** ** Comments *)

Definition keyComment (key : ptr) : M (option (list ascii)) :=
  match key with
  | None => ret None
  | Some _ => meta <- keyGetMeta key (Some (lit "comment"));; v <- keyValue meta;; ret (Some (default [NUL] v))
  end.

Definition keyGetCommentSize (key : ptr) : M Z :=
  match key with
  | None => ret (-1)%Z
  | Some _ =>
      meta <- keyGetMeta key (Some (lit "comment"));;
      size <- keyGetValueSize meta;;
      ret (if (size =? 0)%Z || (size =? -1)%Z then 1 else size)%Z
  end.

(** [strncpy] fills the rest of the [maxSize] bytes with NULs. *)
Definition strncpy (s : cstr) (maxSize : nat) : list ascii := take maxSize (s ++ replicate maxSize NUL).

(** The result and what is written to [returnedComment]. *)
Definition keyGetComment (key : ptr) (returnedComment : bool) (maxSize : nat) : M (Z * option (list ascii)) :=
  match key with
  | None => ret ((-1)%Z, None)
  | Some _ =>
      if maxSize =? 0 then ret ((-1)%Z, None)
      else if negb returnedComment then ret ((-1)%Z, None)
      else if (LONG_MAX <? Z.of_nat maxSize)%Z then ret ((-1)%Z, None)
      else
        meta <- keyGetMeta key (Some (lit "comment"));;
        comment <- keyValue meta;;
        meta <- keyGetMeta key (Some (lit "comment"));;
        commentSize <- keyGetValueSize meta;;
        match comment with
        | None => ret (1%Z, Some [NUL])
        | Some c =>
            s <- as_cstr c;;
            ret (if (Z.of_nat maxSize <? commentSize)%Z then (-1)%Z else commentSize, Some (strncpy s maxSize))
        end
  end.

Definition keySetComment (key : ptr) (newComment : option cstr) : M Z :=
  match key with
  | None => ret (-1)%Z
  | Some _ =>
      match newComment with
      | None | Some [] => keySetMeta key (Some (lit "comment")) None;; ret 1%Z
      | Some _ => keySetMeta key (Some (lit "comment")) newComment;; keyGetCommentSize key
      end
  end.

(** ** Owners, modes and times *)

(** The part the getters share: [missing] without the metadata, [empty] for an
    empty string, [invalid] for no number. *)
Definition get_number (key : ptr) (name : string) (base missing empty invalid : Z) : M Z :=
  meta <- keyGetMeta key (Some (lit name));;
  v <- keyValue meta;;
  match v with
  | None => ret missing
  | Some v =>
      s <- as_cstr v;;
      match s with
      | [] => ret empty
      | _ => ret (default invalid (strtol_all base s))
      end
  end.

Definition set_number (key : ptr) (name : string) (str : cstr) : M Z :=
  match key with
  | None => ret (-1)%Z
  | Some _ => keySetMeta key (Some (lit name)) (Some str);; ret 0%Z
  end.

Definition keyGetUID (key : ptr) : M Z :=
  match key with
  | None => ret (uint32 (-1))
  | Some _ => n <- get_number key "uid" 10 (-1) (-1) (-1);; ret (uint32 n)
  end.
Definition keySetUID (key : ptr) (uid : Z) : M Z := set_number key "uid" (print_d uid).

Definition keyGetGID (key : ptr) : M Z :=
  match key with
  | None => ret (uint32 (-1))
  | Some _ => n <- get_number key "gid" 10 (-1) (-1) (-1);; ret (uint32 n)
  end.
Definition keySetGID (key : ptr) (gid : Z) : M Z := set_number key "gid" (print_d gid).

Definition keyGetMode (key : ptr) : M Z :=
  match key with
  | None => ret (uint32 (-1))
  | Some _ => n <- get_number key "mode" 8 KDB_FILE_MODE KDB_FILE_MODE KDB_FILE_MODE;; ret (uint32 n)
  end.
Definition keySetMode (key : ptr) (mode : Z) : M Z := set_number key "mode" (print_base 8 mode).

Definition keySetDir (key : ptr) : M Z :=
  match key with
  | None => ret (-1)%Z
  | Some _ => mode <- keyGetMode key;; keySetMode key (Z.lor mode KDB_DIR_MODE);; ret 0%Z
  end.

Definition get_time (name : string) (key : ptr) : M Z :=
  match key with None => ret (-1)%Z | Some _ => get_number key name 10 0 (-1) (-1) end.

Definition keyGetATime : ptr -> M Z := get_time "atime".
Definition keySetATime (key : ptr) (atime : Z) : M Z := set_number key "atime" (print_lu atime).
Definition keyGetMTime : ptr -> M Z := get_time "mtime".
Definition keySetMTime (key : ptr) (mtime : Z) : M Z := set_number key "mtime" (print_lu mtime).
Definition keyGetCTime : ptr -> M Z := get_time "ctime".
Definition keySetCTime (key : ptr) (ctime : Z) : M Z := set_number key "ctime" (print_lu ctime).
End MetaLib.

(** ** Order *)

(** [atoi], a [strtol] whose value is an [int]. *)
Definition atoi (s : cstr) : Z :=
  let n := match sscanf_ld s with Some n => n | None => 0%Z end in
  let n := Z.max LONG_MIN (Z.min LONG_MAX n) in
  ((n + 2 ^ 31) mod 2 ^ 32 - 2 ^ 31)%Z.

Definition compare_order (aorder border : Z) : Z :=
  if (0 <? aorder)%Z && (0 <? border)%Z then aorder - border
  else if (aorder <? 0)%Z && (border <? 0)%Z then 0
  else if (aorder <? 0)%Z && (0 <=? border)%Z then -1
  else if (0 <=? aorder)%Z && (border <? 0)%Z then 1
  else 0.

Section Order.
Context {E : Env}.

Definition key_order (key : ptr) : M Z :=
  meta <- keyGetMeta key (Some (lit "order"));;
  match meta with None => ret (-1)%Z | Some _ => s <- keyString meta;; ret (atoi s) end.

Definition elektraKeyCmpOrder (ka kb : ptr) : M Z :=
  match ka, kb with
  | None, None => ret 0%Z
  | Some _, None => ret 1%Z
  | None, Some _ => ret (-1)%Z
  | Some _, Some _ => aorder <- key_order ka;; border <- key_order kb;; ret (compare_order aorder border)
  end.

(** ** Metadata arrays *)

Definition elektraMetaArrayAdd (key : ptr) (metaName : cstr) (value : option cstr) : M unit :=
  meta <- keyGetMeta key (Some metaName);;
  arrayKey <- (match meta with
               | None =>
                   keySetMeta key (Some metaName) (Some (lit "#0"));;
                   m <- keyGetMeta key (Some metaName);;
                   arrayKey <- keyDup m;;
                   keySetString arrayKey None;;
                   keyAddBaseName arrayKey (Some (lit "#"));;
                   ret arrayKey
               | Some _ =>
                   arrayKey <- keyDup meta;;
                   s <- keyString meta;;
                   keyAddBaseName arrayKey (Some s);;
                   ret arrayKey
               end);;
  elektraArrayIncName arrayKey;;
  n <- keyName arrayKey;;
  keySetMeta key n value;;
  b <- keyBaseName arrayKey;;
  keySetMeta key (Some metaName) b;;
  keyDel arrayKey;;
  ret tt.

(** [while ((curMeta = keyGetMeta (key, keyName (currentKey))) != NULL)] *)
Fixpoint array_elements (fuel : nat) (key currentKey : ptr) (body : loc -> M unit) : M unit :=
  match fuel with
  | O => nofuel
  | S n =>
      name <- keyName currentKey;;
      curMeta <- keyGetMeta key name;;
      match curMeta with
      | None => ret tt
      | Some m => body m;; elektraArrayIncName currentKey;; array_elements n key currentKey body
      end
  end.

Definition elektraMetaArrayToKS (key : ptr) (metaName : cstr) : M ptr :=
  meta <- keyGetMeta key (Some metaName);;
  match meta with
  | None => ret None
  | Some _ =>
      result <- ksNew 0 [];;
      s <- keyString meta;;
      if decide (deref s <> "#"%char) then
        ksAppendKey (Some result) meta;;
        ksRewind (Some result);;
        ret (Some result)
      else
        d <- keyDup meta;;
        ksAppendKey (Some result) d;;
        currentKey <- keyDup meta;;
        keyAddName currentKey (Some (lit "#"));;
        elektraArrayIncName currentKey;;
        fuel <- meta_fuel key;;
        array_elements fuel key currentKey (fun m => d <- keyDup (Some m);; ksAppendKey (Some result) d;; ret tt);;
        keyDel currentKey;;
        ksRewind (Some result);;
        ret (Some result)
  end.

(** [strcat (result, delim); strcat (result, elem)] in the bytes of the string,
    of the value and one more. *)
Definition append_element (delim result elem : cstr) (valueSize : Z) : M cstr :=
  if (Z.of_nat (length result + 1) + valueSize + 1 <? Z.of_nat (length result + length delim + length elem + 1))%Z
  then undefined else ret (result ++ delim ++ elem).

Fixpoint array_string (fuel : nat) (key lookupElem : ptr) (delim : cstr) (result : option cstr) : M (option cstr) :=
  match fuel with
  | O => nofuel
  | S n =>
      name <- keyName lookupElem;;
      elem <- keyGetMeta key name;;
      match elem with
      | None => ret result
      | Some _ =>
          match result with
          | None => undefined
          | Some r =>
              size <- keyGetValueSize elem;;
              s <- keyString elem;;
              r <- append_element delim r s size;;
              elektraArrayIncName lookupElem;;
              array_string n key lookupElem delim (Some r)
          end
      end
  end.

Definition elektraMetaArrayToString (key : ptr) (metaName delim : cstr) : M (option cstr) :=
  meta <- keyGetMeta key (Some metaName);;
  lookupElem <- keyDup meta;;
  keyAddBaseName lookupElem (Some (lit "#0"));;
  name <- keyName lookupElem;;
  elem <- keyGetMeta key name;;
  result <- (match elem with
             | None => ret None
             | Some _ => size <- keyGetValueSize elem;; s <- keyString elem;; ret (Some (take (Z.to_nat size - 1) s))
             end);;
  elektraArrayIncName lookupElem;;
  fuel <- meta_fuel key;;
  result <- array_string fuel key lookupElem delim result;;
  keyDel lookupElem;;
  ret result.

(** ** Sorting by dependencies *)

Definition topCmpOrder (a b : loc) : M Z :=
  kam <- keyGetMeta (Some a) (Some (lit "order"));;
  kbm <- keyGetMeta (Some b) (Some (lit "order"));;
  sa <- keyString kam;;
  sb <- keyString kbm;;
  ret (strcmp sa sb).

(** [qsort] with [topCmpOrder].  The order of equal elements, which C leaves
    open, is that of the array. *)
Fixpoint insert_sorted (x : loc) (l : list loc) : M (list loc) :=
  match l with
  | [] => ret [x]
  | y :: r => c <- topCmpOrder x y;; if (c <=? 0)%Z then ret (x :: l) else r <- insert_sorted x r;; ret (y :: r)
  end.
Fixpoint qsort (l : list loc) : M (list loc) :=
  match l with [] => ret [] | x :: r => r <- qsort r;; insert_sorted x r end.

(** The index of the key a dependency names. *)
Fixpoint getArrayIndex (depKey : ptr) (am : matrix) (i : nat) : M (option nat) :=
  match am with
  | [] => ret None
  | a :: r =>
      n <- keyName (Some (adj_key a));;
      s <- keyString depKey;;
      if bool_decide (strcmp (default [] n) s = 0%Z) then ret (Some i) else getArrayIndex depKey r (S i)
  end.

Definition isValidKeyName (testName : cstr) : M bool :=
  testKey <- keyNew (Some testName) [KEY_NAME_OPTION KEY_CASCADING_NAME];;
  n <- keyName (Some testKey);;
  keyDel (Some testKey);;
  ret (bool_decide (strcmp (default [] n) testName = 0%Z)).

(** A key gets its place: the metadata "order" and a copy in [done]. *)
Definition place_key (orderCounter donee : ptr) (key : loc) : M unit :=
  n <- keyBaseName orderCounter;;
  keySetMeta (Some key) (Some (lit "order")) n;;
  elektraArrayIncName orderCounter;;
  d <- keyDup (Some key);;
  ksAppendKey donee d;;
  ret tt.

(** The loop over the dependencies of the key [j]: [retVal], the matrix and
    [gotUnresolved]. *)
Fixpoint dep_loop (fuel : nat) (deps : ptr) (j : nat) (am : matrix) (got : nat) : M (Z * matrix * nat) :=
  match fuel with
  | O => nofuel
  | S n =>
      tmpDep <- ksNext deps;;
      match tmpDep with
      | None => ret (1%Z, am, got)
      | Some _ =>
          s <- keyString tmpDep;;
          valid <- isValidKeyName s;;
          if negb valid then ret ((-1)%Z, am, got)
          else
            i <- getArrayIndex tmpDep am 0;;
            match i with
            | None => dep_loop n deps j am got
            | Some i =>
                if (i =? j) || resolved am i then dep_loop n deps j am got
                else
                  let am := alter (set_dep i) j am in
                  if dep am i j then ret (0%Z, am, S got) else dep_loop n deps j am (S got)
            end
      end
  end.

(** The matrix before the first loop. *)
Definition fresh_matrix (localArray : list loc) : matrix :=
  map (fun k => mkAdj k false (replicate (length localArray) false)) localArray.

(** The variables of [elektraSortTopology] its first loop changes. *)
Record collected := mkCollected { co_matrix : matrix; co_unresolved : nat; co_depCount : Z }.

(** A turn of the first loop; [inr] leaves it with [retVal].  [depCount] is an [int], and so
    is [gotUnresolved], which is not greater. *)
Definition collect_deps (orderCounter donee : ptr) (st : collected) (j : nat) (cur : loc) : M (collected + Z) :=
  deps <- elektraMetaArrayToKS (Some cur) (lit "dep");;
  popped <- env_ksLookupByName deps (Some (lit "dep")) KDB_O_POP;;
  keyDel popped;;
  size <- ksGetSize deps;;
  let place :=
    place_key orderCounter donee cur;;
    ksDel deps;;
    ret (inl (mkCollected (alter (set_resolved true) j (co_matrix st)) (co_unresolved st) (co_depCount st))) in
  reflexive <- (if (size =? 1)%Z then
                  tmpDep <- ksHead deps;;
                  n <- keyName (Some cur);;
                  s <- keyString tmpDep;;
                  ret (bool_decide (strcmp (default [] n) s = 0%Z))
                else ret false);;
  if (size =? -1)%Z || reflexive then place
  else
    fuel <- ks_turns deps;;
    r <- dep_loop fuel deps j (co_matrix st) 0;;
    match r with
    | (retVal, am, got) =>
        (if (2 ^ 31 - 1 <? co_depCount st + Z.of_nat got)%Z then undefined else ret tt);;
        let st := if got =? 0 then mkCollected am (co_unresolved st) (co_depCount st)
                  else mkCollected (alter (set_resolved false) j am) (S (co_unresolved st)) (co_depCount st + Z.of_nat got) in
        ksDel deps;;
        ret (if (retVal <=? 0)%Z then inr retVal else inl st)
    end.

Fixpoint collect_loop (orderCounter donee : ptr) (st : collected) (j : nat) (localArray : list loc) : M (collected + Z) :=
  match localArray with
  | [] => ret (inl st)
  | cur :: r =>
      t <- collect_deps orderCounter donee st j cur;;
      match t with inl st => collect_loop orderCounter donee st (S j) r | inr _ => ret t end
  end.

(** [if (adjMatrix[j].isResolved) depCount -= resolveDep (j, adjMatrix, size)] *)
Definition resolve_immediately (st : matrix * Z) (j : nat) : matrix * Z :=
  let (am, depCount) := st in
  if resolved am j then let (removed, am) := resolveDep j am in (am, depCount - Z.of_nat removed)%Z else st.

(** From the immediately resolved dependencies on: the number of unresolved
    keys, [None] when the count of the dependencies is taken for a cycle. *)
Definition sort_collected (orderCounter donee : ptr) (hasOrder : bool) (st : collected) : M (option nat) :=
  let am := co_matrix st in
  let size := length am in
  let (am, depCount) := fold_left resolve_immediately (seq 0 size) (am, co_depCount st) in
  resolved <- ksGetSize donee;;
  if (Z.of_nat size <=? depCount + resolved)%Z && negb (co_unresolved st =? 0) then ret None
  else if co_unresolved st =? 0 then ret (Some 0)
  else
    match resolve_unresolved hasOrder (co_unresolved st) am with
    | None => nofuel
    | Some (unresolved, _, order) =>
        (fix place (l : list nat) : M unit :=
           match l with
           | [] => ret tt
           | i :: r =>
               match am !! i with
               | Some a => place_key orderCounter donee (adj_key a);; place r
               | None => undefined
               end
           end) order;;
        ret (Some unresolved)
    end.

(** The result and the keys written to [array]. *)
Definition elektraSortTopology (ks : ptr) (array : bool) : M (Z * option (list loc)) :=
  match ks with
  | None => ret ((-1)%Z, None)
  | Some _ =>
      if negb array then ret ((-1)%Z, None)
      else
        donee <- ksNew 0 [];;
        ksRewind ks;;
        orderCounter <- keyNew (Some (lit "/#")) [KEY_NAME_OPTION KEY_CASCADING_NAME];;
        elektraArrayIncName (Some orderCounter);;
        keys <- elektraKsToMemArray ks;;
        localArray <- qsort keys;;
        match localArray with
        | [] => undefined
        | first :: _ =>
            m <- keyGetMeta (Some first) (Some (lit "order"));;
            let hasOrder := bool_decide (m <> None) in
            let am := fresh_matrix localArray in
            t <- collect_loop (Some orderCounter) (Some donee) (mkCollected am 0 0) 0 localArray;;
            r <- (match t with
                  | inr retVal => ret (retVal, None)
                  | inl st =>
                      unresolved <- sort_collected (Some orderCounter) (Some donee) hasOrder st;;
                      match unresolved with
                      | Some O => l <- elektraKsToMemArray ks;; l <- qsort l;; ret (1%Z, Some l)
                      | _ => ret (0%Z, None)
                      end
                  end);;
            ksDel (Some donee);;
            keyDel (Some orderCounter);;
            ret r
        end
  end.
End Order.
