(* ===== verification/Rename.v ===== *)
(** * Rename: names that are cut, replaced and converted

    [plugins/rename/rename.c]: after reading, the part of the names behind the parent
    key is changed; the original name is kept as metadata and restored before the
    keys are stored. *)
From S2P Require Export Entries MetaLib NameFacts.
#[local] Open Scope elektra_scope.

Definition ELEKTRA_ORIGINAL_NAME_META : cstr := lit "origname".
Definition TOLOWER : Z := -1.
Definition TOUPPER : Z := 1.
Definition UNCHNGD : Z := 0.
Definition KEYNAME : Z := 2.

(** [toupper] and [tolower] on a byte, in the C locale. *)
Definition upper_byte (c : ascii) : ascii := byte (toupper (uchar c)).
Definition tolower (z : Z) : Z := if ((65 <=? z) && (z <=? 90))%Z then (z + 32)%Z else z.
Definition lower_byte (c : ascii) : ascii := byte (tolower (uchar c)).

Definition conversion (toCase : Z) : ascii -> ascii := if (toCase =? TOUPPER)%Z then upper_byte else lower_byte.

(** From the end, until [levels] slashes are behind. *)
Fixpoint convert_levels (conv : ascii -> ascii) (levelCount levels : Z) (rev_name : cstr) : cstr :=
  match rev_name with
  | [] => []
  | c :: r =>
      if (levelCount <? levels)%Z then
        if decide (c = SLASH) then c :: convert_levels conv (levelCount + 1) levels r
        else conv c :: convert_levels conv levelCount levels r
      else c :: r
  end.

Definition doConversion (newName : cstr) (levels toCase : Z) : cstr :=
  if (levels =? 0)%Z then map (conversion toCase) newName
  else rev (convert_levels (conversion toCase) 0 levels (rev newName)).

(** [strstr]: the index of the first occurrence. *)
Fixpoint strstr (s sub : cstr) : option nat :=
  if decide (take (length sub) s = sub) then Some 0
  else match s with [] => None | _ :: r => S <$> strstr r sub end.

Section Rename.
Context {E : Env}.

(** A buffer of [keyGetFullNameSize] bytes filled by [keyGetFullName]. *)
Definition full_name (key : ptr) : M cstr :=
  size <- keyGetFullNameSize key;;
  let* (_, name) := keyGetFullName key true (Z.to_nat size) in
  match name with Some n => ret n | None => undefined end.

(** [s + n], a pointer that must stay inside of the string. *)
Definition skip_bytes (s : cstr) (n : nat) : M cstr := if length s <? n then undefined else ret (drop n s).

(** The first occurrence of [cutPath] is replaced, unless it starts with a slash. *)
Definition cut_name (afterParentString : cstr) (cutPath replaceWith : option cstr) : option cstr :=
  match cutPath with
  | Some cut =>
      if decide (deref cut = SLASH) then None
      else match strstr afterParentString cut with
           | Some i => Some (take i afterParentString ++ default [] replaceWith ++ drop (i + length cut) afterParentString)
           | None => None
           end
  | None => None
  end.

Definition convert_name (newName : cstr) (toUpperPath toLowerPath : option cstr) : option cstr :=
  let toLower := match toLowerPath with Some p => atoi p | None => 0%Z end in
  let toUpper := match toUpperPath with Some p => atoi p | None => 0%Z end in
  match newName, toUpperPath, toLowerPath with
  | [], _, _ => None
  | _, Some _, Some _ =>
      Some (if (toUpper <? toLower)%Z then doConversion (doConversion newName toLower TOLOWER) toUpper TOUPPER
            else doConversion (doConversion newName toUpper TOUPPER) toLower TOLOWER)
  | _, Some _, None => Some (doConversion newName toUpper TOUPPER)
  | _, None, Some _ => Some (doConversion newName toLower TOLOWER)
  | _, None, None => None
  end.

(** The buffer of the new name has room for the name of the key and [replaceWith]. *)
Definition elektraKeyCreateNewName (key : loc) (parentKey : ptr) (cutPath replaceWith toUpperPath toLowerPath : option cstr)
    (initialConversion : Z) : M ptr :=
  name <- keyName (Some key);;
  let maxNewLength := length (default [] name) + length (default [] replaceWith) in
  parentKeyName <- full_name parentKey;;
  curKeyName <- full_name (Some key);;
  afterParentString <- skip_bytes curKeyName (length parentKeyName);;
  let converted := negb (initialConversion =? UNCHNGD)%Z in
  let afterParentString := if converted then doConversion afterParentString 0 initialConversion else afterParentString in
  let cut := cut_name afterParentString cutPath replaceWith in
  let newName := default afterParentString cut in
  if maxNewLength <? length newName then undefined
  else
    let changed := convert_name newName toUpperPath toLowerPath in
    if converted || bool_decide (is_Some cut) || bool_decide (is_Some changed) then
      result <- keyDup (Some key);;
      n <- keyName parentKey;;
      keySetName result n;;
      keyAddName result (Some (default newName changed));;
      ret result
    else ret None.

(** The loop over the levels of [path]. *)
Fixpoint add_levels (fuel : nat) (key : ptr) (p : cstr) : M unit :=
  match fuel with
  | O => nofuel
  | S n =>
      let (p, size) := keyNameGetOneLevel p in
      match p with
      | [] => ret tt
      | _ => keyAddBaseName key (Some (take size p));; add_levels n key (drop size p)
      end
  end.

Definition keyAddUnescapedBasePath (key : ptr) (path : cstr) : M unit := add_levels (S (length path)) key path.

(** The string of the metadata, which takes precedence, or of the configuration. *)
Definition meta_or_config (meta config : ptr) : M (option cstr) :=
  match meta, config with
  | Some _, _ => s <- keyString meta;; ret (Some s)
  | None, Some _ => s <- keyString config;; ret (Some s)
  | None, None => ret None
  end.

(** [toupper], [tolower] or another string. *)
Definition case_of (str : cstr) : Z :=
  if bool_decide (strcmp str (lit "toupper") = 0%Z) then TOUPPER
  else if bool_decide (strcmp str (lit "tolower") = 0%Z) then TOLOWER
  else UNCHNGD.

Definition renameGet (key : loc) (parentKey cutConfig replaceWithConfig toUpperConfig toLowerConfig getCase : ptr) : M ptr :=
  cutMeta <- keyGetMeta (Some key) (Some (lit "rename/cut"));;
  toMeta <- keyGetMeta (Some key) (Some (lit "rename/to"));;
  toUpperMeta <- keyGetMeta (Some key) (Some (lit "rename/toupper"));;
  toLowerMeta <- keyGetMeta (Some key) (Some (lit "rename/tolower"));;
  initialConversion <- (match getCase with None => ret 0%Z | Some _ => s <- keyString getCase;; ret (case_of s) end);;
  cutPath <- meta_or_config cutMeta cutConfig;;
  replaceWith <- meta_or_config toMeta replaceWithConfig;;
  toUpperPath <- meta_or_config toUpperMeta toUpperConfig;;
  toLowerPath <- meta_or_config toLowerMeta toLowerConfig;;
  elektraKeyCreateNewName key parentKey cutPath replaceWith toUpperPath toLowerPath initialConversion.

(** [if (!hasSync) keyClearSync (result)] *)
Definition keep_sync (hasSync : Z) (result : ptr) : M unit :=
  if (hasSync =? 0)%Z then keyClearSync result;; ret tt else ret tt.

Definition restoreKeyName (key : loc) (parentKey configKey : ptr) : M ptr :=
  origNameKey <- keyGetMeta (Some key) (Some ELEKTRA_ORIGINAL_NAME_META);;
  match origNameKey with
  | Some _ =>
      orig <- keyString origNameKey;;
      name <- keyName (Some key);;
      if bool_decide (strcmp orig (default [] name) = 0%Z) then ret None
      else
        hasSync <- keyNeedSync (Some key);;
        result <- keyDup (Some key);;
        keySetName result (Some orig);;
        keySetMeta result (Some ELEKTRA_ORIGINAL_NAME_META) None;;
        keep_sync hasSync result;;
        ret result
  | None =>
      match configKey with
      | None => ret None
      | Some _ =>
          hasSync <- keyNeedSync (Some key);;
          result <- keyDup (Some key);;
          n <- keyName parentKey;;
          keySetName result n;;
          config <- keyString configKey;;
          keyAddUnescapedBasePath result config;;
          size <- keyGetNameSize (Some key);;
          parentSize <- keyGetNameSize parentKey;;
          (if (parentSize <? size)%Z then
             name <- keyName (Some key);;
             relativePath <- skip_bytes (default [] name) (Z.to_nat parentSize);;
             keyAddUnescapedBasePath result relativePath
           else ret tt);;
          keep_sync hasSync result;;
          ret result
      end
  end.

(** The turn of [elektraRenameGet] for one key. *)
Definition rename_get_key (returned parentKey cutConfig replaceWith toUpper toLower getCase : ptr) (key : loc) : M unit :=
  renamedKey <- renameGet key parentKey cutConfig replaceWith toUpper toLower getCase;;
  name <- keyName (Some key);;
  match renamedKey with
  | Some _ =>
      keySetMeta renamedKey (Some ELEKTRA_ORIGINAL_NAME_META) name;;
      env_ksLookup returned (Some key) KDB_O_POP;;
      keyDel (Some key);;
      c <- keyCmp renamedKey parentKey;;
      if (c =? 0)%Z then
        keyIncRef parentKey;;
        ksAppendKey returned renamedKey;;
        keyDecRef parentKey;;
        ret tt
      else ksAppendKey returned renamedKey;; ret tt
  | None => keySetMeta (Some key) (Some ELEKTRA_ORIGINAL_NAME_META) name;; ret tt
  end.

(** The keyset that was iterated is deleted, but not the parent key. *)
Definition delete_iterated (iterateKs parentKey : ptr) : M unit :=
  keyIncRef parentKey;; ksDel iterateKs;; keyDecRef parentKey;; ret tt.

Definition elektraRenameGet (contract : M ptr) (config returned parentKey : ptr) : M Z :=
  b <- is_named parentKey "system/elektra/modules/rename";;
  if b : bool then
    info <- contract;;
    ksAppend returned info;;
    ksDel info;;
    ret 1%Z
  else
    iterateKs <- ksDup returned;;
    cutConfig <- env_ksLookupByName config (Some (lit "/cut")) KDB_O_NONE;;
    toUpper <- env_ksLookupByName config (Some (lit "/toupper")) KDB_O_NONE;;
    toLower <- env_ksLookupByName config (Some (lit "/tolower")) KDB_O_NONE;;
    replaceWith <- env_ksLookupByName config (Some (lit "/replacewith")) KDB_O_NONE;;
    getCase <- env_ksLookupByName config (Some (lit "/get/case")) KDB_O_NONE;;
    for_each iterateKs (fun _ key => rename_get_key returned parentKey cutConfig replaceWith toUpper toLower getCase key) tt;;
    delete_iterated iterateKs parentKey;;
    ret 1%Z.

(** The name behind the parent key is converted. *)
Definition convert_case (renamedKey : ptr) (parentKeyName : cstr) (writeConversion : Z) : M unit :=
  curKeyName <- full_name renamedKey;;
  afterParentString <- skip_bytes curKeyName (length parentKeyName);;
  keySetName renamedKey (Some (take (length parentKeyName) curKeyName ++ doConversion afterParentString 0 writeConversion));;
  ret tt.

Definition rename_set_key (returned parentKey cutConfig : ptr) (parentKeyName : cstr) (writeConversion : Z) (key : loc) : M unit :=
  if negb (writeConversion =? KEYNAME)%Z then
    restored <- restoreKeyName key parentKey cutConfig;;
    renamedKey <- (match restored with Some _ => ret restored | None => keyDup (Some key) end);;
    (if (writeConversion =? TOUPPER)%Z || (writeConversion =? TOLOWER)%Z then convert_case renamedKey parentKeyName writeConversion
     else ret tt);;
    c <- keyCmp (Some key) parentKey;;
    (if (c =? 0)%Z then ret 0%Z else p <- env_ksLookup returned (Some key) KDB_O_POP;; keyDel p);;
    ksAppendKey returned renamedKey;;
    keyDel renamedKey;;
    ret tt
  else
    c <- keyCmp (Some key) parentKey;;
    (if (c =? 0)%Z then ret 0%Z
     else
       m <- keyGetMeta (Some key) (Some ELEKTRA_ORIGINAL_NAME_META);;
       orig <- keyString m;;
       p <- env_ksLookupByName returned (Some orig) KDB_O_POP;;
       keyDel p);;
    ksAppendKey returned (Some key);;
    ret tt.

Definition elektraRenameSet (config returned parentKey : ptr) : M Z :=
  iterateKs <- ksDup returned;;
  cutConfig <- env_ksLookupByName config (Some (lit "/cut")) KDB_O_NONE;;
  setCase <- env_ksLookupByName config (Some (lit "/set/case")) KDB_O_NONE;;
  writeConversion <- (match setCase with
                      | None => ret 0%Z
                      | Some _ =>
                          s <- keyString setCase;;
                          ret (if bool_decide (strcmp s (lit "keyname") = 0%Z) then KEYNAME else case_of s)
                      end);;
  parentKeyName <- full_name parentKey;;
  for_each iterateKs (fun _ key => rename_set_key returned parentKey cutConfig parentKeyName writeConversion key) tt;;
  delete_iterated iterateKs parentKey;;
  ksRewind returned;;
  ret 1%Z.
End Rename.

(** ** The conversion of levels *)

(** The name with the parts [ps], each behind a slash. *)
Definition joined (ps : list cstr) : cstr := concat (map (cons SLASH) ps).

Definition no_slash (p : cstr) : Prop := SLASH ∉ p.

Lemma convert_levels_part conv p r count levels :
  no_slash p -> (count < levels)%Z -> convert_levels conv count levels (p ++ r) = map conv p ++ convert_levels conv count levels r.
Proof.
  intros Hp Hc. induction p as [|c p IH]; [done|]. simpl. destruct (Z.ltb_spec count levels); [|lia].
  apply not_elem_of_cons in Hp as [Hc' Hp]. rewrite decide_False by congruence. by rewrite IH.
Qed.

Lemma convert_levels_done conv count levels r : (levels <= count)%Z -> convert_levels conv count levels r = r.
Proof. intros H. destruct r; [done|]. simpl. destruct (Z.ltb_spec count levels); [lia|done]. Qed.

Lemma convert_levels_joined conv qs r count levels :
  Forall no_slash qs -> (count + Z.of_nat (length qs) = levels)%Z ->
  convert_levels conv count levels (rev (joined qs) ++ r) = rev (joined (map (map conv) qs)) ++ r.
Proof.
  intros Hqs. revert count r. induction qs as [|q qs IH] using rev_ind; intros count r Hc.
  - by rewrite convert_levels_done by (simpl in Hc; lia).
  - rewrite length_app in Hc. simpl in Hc. apply Forall_app in Hqs as [Hqs [Hq _]%Forall_cons].
    unfold joined in *. rewrite !map_app, !concat_app, !rev_app_distr. simpl. rewrite !app_nil_r, <- !app_assoc. simpl.
    rewrite convert_levels_part; [|unfold no_slash; by rewrite list_elem_of_In, <- in_rev, <- list_elem_of_In|lia].
    simpl. destruct (Z.ltb_spec count levels); [|lia]. rewrite map_rev. do 2 f_equal. apply IH; [done|lia].
Qed.

(** With a positive number of levels [doConversion] converts exactly that many levels
    at the end of the name and leaves the levels before and all slashes alone. *)
Theorem doConversion_levels ps qs toCase :
  Forall no_slash qs -> qs <> [] ->
  doConversion (joined (ps ++ qs)) (Z.of_nat (length qs)) toCase = joined ps ++ joined (map (map (conversion toCase)) qs).
Proof.
  intros Hqs Hne. unfold doConversion. destruct (Z.eqb_spec (Z.of_nat (length qs)) 0); [destruct qs; [done|simpl in *; lia]|].
  assert (joined (ps ++ qs) = joined ps ++ joined qs) as -> by (unfold joined; by rewrite map_app, concat_app).
  rewrite rev_app_distr, convert_levels_joined by (done || lia). by rewrite rev_app_distr, !rev_involutive.
Qed.
