(* ===== verification/Spec.v ===== *)
(** * Spec: specifications of keys

    [plugins/spec/spec.c]: the metadata of the keys of the namespace spec is copied to
    all keys whose name matches; arrays and numbers of subkeys are validated and what
    does not fit is ignored, reported or an error, as configured.  [fnmatch] is a
    parameter, and so are the error and the warning with the strings of the message. *)
From S2P Require Export Entries MetaLib Rename.
#[local] Open Scope elektra_scope.

Definition MAX_CHARS_IN_LONG : nat := 26.

Inductive Direction := GET | SET.

Inductive OnConflict := ERROR | WARNING | INFO | IGNORE.

Inductive Conflict := ARRAYMEMBER | INVALID | SUBCOUNT | CONFLICT | OUTOFRANGE | MISSING | NAC.

#[global] Instance OnConflict_eq_dec : EqDecision OnConflict.
Proof. solve_decision. Defined.
#[global] Instance Conflict_eq_dec : EqDecision Conflict.
Proof. solve_decision. Defined.
#[global] Instance Direction_eq_dec : EqDecision Direction.
Proof. solve_decision. Defined.

Record ConflictHandling := mkCH {
  ch_member : OnConflict;
  ch_invalid : OnConflict;
  ch_count : OnConflict;
  ch_conflict : OnConflict;
  ch_range : OnConflict;
  ch_missing : OnConflict
}.

Record PluginConfig := mkPC { pc_ks : ptr; pc_counter : Z }.

Definition nl : cstr := [ascii_of_nat 10].

(** ** Patterns *)

(** The characters after [prev]; whole parts [_] and [#] become [*] and [#*]. *)
Fixpoint match_chars (prev : ascii) (src : cstr) : cstr :=
  match src with
  | [] => []
  | c :: r =>
      let whole := bool_decide (prev = SLASH) && (bool_decide (deref r = SLASH) || bool_decide (r = [])) in
      (if bool_decide (c = "_"%char) && whole then lit "*"
       else if bool_decide (c = "#"%char) && whole then lit "#*"
       else [c]) ++ match_chars c r
  end.

(** How many [#] are in the name, in a [uint8_t]. *)
Definition array_count (name : cstr) : Z := (Z.of_nat (length (filter (fun c => c = "#"%char) name)) mod 2 ^ 8)%Z.

(** The characters are written to a block of [strlen (name) + 1 + arrayCount] bytes. *)
Definition keyNameToMatchingString (key : ptr) : M cstr :=
  n <- keyName key;;
  match n with
  | None => undefined
  | Some n =>
      match strchr n SLASH with
      | None => ret n
      | Some name =>
          let pattern := match_chars (deref name) (tail name) in
          if (Z.of_nat (length name) + 1 + array_count name <? Z.of_nat (length pattern) + 1)%Z then undefined else ret pattern
      end
  end.

Section Spec.
Context {E : Env} (fnmatch : cstr -> cstr -> bool).
Context (set_error : Z -> ptr -> list cstr -> M unit) (add_warning : Z -> ptr -> list cstr -> M unit).

Definition name_of (key : ptr) : M cstr :=
  n <- keyName key;; match n with Some n => ret n | None => undefined end.

Definition base_name_of (key : ptr) : M cstr :=
  n <- keyBaseName key;; match n with Some n => ret n | None => undefined end.

Definition matchPatternToKey (pattern : cstr) (key : ptr) : M bool :=
  n <- name_of key;;
  match strchr n SLASH with None => undefined | Some s => ret (fnmatch pattern (tail s)) end.

Fixpoint valid_array_loop (fuel : nat) (copy : ptr) : M Z :=
  match fuel with
  | O => nofuel
  | S fuel =>
      b <- base_name_of copy;;
      valid <- (if decide (deref b = "#"%char) then elektraArrayValidateName copy else ret 0%Z);;
      if (valid =? -1)%Z then keyDel copy;; ret 0%Z
      else
        r <- keySetBaseName copy None;;
        if (r =? -1)%Z then keyDel copy;; ret 1%Z else valid_array_loop fuel copy
  end.

Definition isValidArrayKey (key : ptr) : M Z :=
  n <- name_of key;;
  copy <- keyDup key;;
  valid_array_loop (S (S (length n))) copy.

Definition hasArray (key : ptr) : M bool :=
  n <- name_of key;; ret (bool_decide (is_Some (strstr n (lit "/#")))).

Definition conf_option (s : cstr) : OnConflict :=
  if bool_decide (strcmp s (lit "ERROR") = 0%Z) then ERROR
  else if bool_decide (strcmp s (lit "WARNING") = 0%Z) then WARNING
  else if bool_decide (strcmp s (lit "INFO") = 0%Z) then INFO
  else IGNORE.

Definition getConfOption (key : ptr) : M OnConflict := s <- keyString key;; ret (conf_option s).

(** ** Arrays *)

(** Up to and after the first [-], or the one number. *)
Definition range_of (s : cstr) : Z * Z :=
  match strchr s "-"%char with
  | Some r => (atoi (take (length s - length r) s), atoi (tail r))
  | None => (atoi s, atoi s)
  end.

(** [snprintf (buffer, MAX_CHARS_IN_LONG + 1, "%ld", n)] of a number that is not negative. *)
Definition print_count (n : nat) : cstr := take MAX_CHARS_IN_LONG (print_base 10 (Z.of_nat n)).

Definition validateArrayRange (parent : ptr) (validCount : nat) (specKey : ptr) : M unit :=
  arrayRange <- keyGetMeta specKey (Some (lit "array"));;
  match arrayRange with
  | None => ret tt
  | Some _ =>
      size <- keyGetValueSize arrayRange;;
      r <- keyGetString arrayRange true (Z.to_nat size);;
      match snd r with
      | None => undefined
      | Some rangeString =>
          let (min, max) := range_of rangeString in
          if (Z.of_nat validCount <? min)%Z || (max <? Z.of_nat validCount)%Z then
            keySetMeta parent (Some (lit "conflict/range")) (Some (print_count validCount));; ret tt
          else ret tt
      end
  end.

(** [ksNext] in a loop from where the cursor is. *)
Definition from_cursor {A} (ks : ptr) (body : A -> loc -> M A) (a : A) : M A :=
  fuel <- ks_turns ks;; each_key fuel ks body a.

(** The key above [key] in [ks]. *)
Definition parent_in (ks : ptr) (key : ptr) : M ptr :=
  tmp <- keyDup key;;
  keySetBaseName tmp None;;
  parent <- env_ksLookup ks tmp KDB_O_NONE;;
  keyDel tmp;;
  ret parent.

(** A member whose name is no index, and everything below it. *)
Definition mark_invalid (subKeys arrayParent : ptr) (cur : loc) : M unit :=
  invalidCutKS <- ksCut subKeys (Some cur);;
  from_cursor invalidCutKS (fun _ toMark =>
    n <- name_of (Some cur);;
    m <- name_of (Some toMark);;
    (if bool_decide (strcmp n m = 0%Z) then ret 0%Z else keySetMeta (Some toMark) (Some (lit "conflict/invalid")) (Some []));;
    elektraMetaArrayAdd arrayParent (lit "conflict/invalid/hasmember") (Some m)) tt;;
  ksDel invalidCutKS;;
  ret tt.

Definition validateArray (ks : ptr) (arrayKey specKey : ptr) : M unit :=
  arrayParent <- parent_in ks arrayKey;;
  match arrayParent with
  | None => ret tt
  | Some _ =>
      ksCopy <- ksDup ks;;
      subKeys <- ksCut ksCopy arrayParent;;
      validCount <- from_cursor subKeys (fun validCount cur =>
        below <- keyIsDirectBelow arrayParent (Some cur);;
        if (below =? 0)%Z then ret validCount
        else
          b <- base_name_of (Some cur);;
          if decide (deref b = "#"%char) then
            valid <- elektraArrayValidateName (Some cur);;
            if (valid =? 1)%Z then
              keySetMeta (Some cur) (Some (lit "spec/internal/valid")) (Some []);; ret (S validCount)
            else mark_invalid subKeys arrayParent cur;; ret validCount
          else ret validCount) 0;;
      ksDel subKeys;;
      ksDel ksCopy;;
      validateArrayRange arrayParent validCount specKey
  end.

(** [atol]. *)
Definition atol (s : cstr) : Z :=
  let n := match sscanf_ld s with Some n => n | None => 0%Z end in Z.max LONG_MIN (Z.min LONG_MAX n).

Definition validateWildcardSubs (ks : ptr) (key specKey : ptr) : M unit :=
  requiredMeta <- keyGetMeta specKey (Some (lit "required"));;
  match requiredMeta with
  | None => ret tt
  | Some _ =>
      parent <- parent_in ks key;;
      match parent with
      | None => ret tt
      | Some _ =>
          ksCopy <- ksDup ks;;
          subKeys <- ksCut ksCopy parent;;
          subCount <- from_cursor subKeys (fun subCount cur =>
            below <- keyIsDirectBelow parent (Some cur);;
            ret (if (below =? 0)%Z then subCount else S subCount)) 0;;
          s <- keyString requiredMeta;;
          (if bool_decide (atol s <> Z.of_nat subCount) then
             keySetMeta parent (Some (lit "conflict/invalid/subcount")) (Some (print_count subCount));; ret tt
           else ret tt);;
          ksDel subKeys;;
          ksDel ksCopy;;
          ret tt
      end
  end.

(** ** Conflicts *)

Definition dir_name (dir : Direction) : string := match dir with GET => "get" | SET => "set" end.

(** The metadata [conflict/get/what] or [conflict/set/what]. *)
Definition local_conflict (specKey : ptr) (dir : Direction) (what : string) : M ptr :=
  keyGetMeta specKey (Some (lit "conflict/" ++ lit (dir_name dir) ++ lit "/" ++ lit what)).

Definition set_member ch c := mkCH c (ch_invalid ch) (ch_count ch) (ch_conflict ch) (ch_range ch) (ch_missing ch).
Definition set_invalid ch c := mkCH (ch_member ch) c (ch_count ch) (ch_conflict ch) (ch_range ch) (ch_missing ch).
Definition set_count ch c := mkCH (ch_member ch) (ch_invalid ch) c (ch_conflict ch) (ch_range ch) (ch_missing ch).
Definition set_conflict ch c := mkCH (ch_member ch) (ch_invalid ch) (ch_count ch) c (ch_range ch) (ch_missing ch).
Definition set_range ch c := mkCH (ch_member ch) (ch_invalid ch) (ch_count ch) (ch_conflict ch) c (ch_missing ch).
Definition set_missing ch c := mkCH (ch_member ch) (ch_invalid ch) (ch_count ch) (ch_conflict ch) (ch_range ch) c.

(** The fields with the names they have in the configuration. *)
Definition handlings : list (string * (ConflictHandling -> OnConflict -> ConflictHandling)) :=
  [("member"%string, set_member); ("invalid"%string, set_invalid); ("count"%string, set_count);
   ("collision"%string, set_conflict); ("range"%string, set_range); ("missing"%string, set_missing)].

(** Only the first one that is configured is used. *)
Fixpoint local_config (specKey : ptr) (dir : Direction) (localCh : ConflictHandling)
    (hs : list (string * (ConflictHandling -> OnConflict -> ConflictHandling))) : M ConflictHandling :=
  match hs with
  | [] => ret localCh
  | (what, set) :: hs =>
      meta <- local_conflict specKey dir what;;
      match meta with
      | Some _ => c <- getConfOption meta;; ret (set localCh c)
      | None => local_config specKey dir localCh hs
      end
  end.

Definition parseLocalConfig (specKey : ptr) (localCh : ConflictHandling) (dir : Direction) : M ConflictHandling :=
  local_config specKey dir localCh handlings.

Definition conflict_of (n : cstr) : Conflict :=
  if bool_decide (strcmp n (lit "conflict/invalid") = 0%Z) then INVALID
  else if bool_decide (strcmp n (lit "conflict/collision") = 0%Z) then CONFLICT
  else if bool_decide (strcmp n (lit "conflict/invalid/hasmember") = 0%Z) then ARRAYMEMBER
  else if bool_decide (strcmp n (lit "conflict/range") = 0%Z) then OUTOFRANGE
  else if bool_decide (strcmp n (lit "conflict/invalid/subcount") = 0%Z) then SUBCOUNT
  else if bool_decide (strcmp n (lit "conflict/missing") = 0%Z) then MISSING
  else NAC.

Definition getConflict (conflictMeta : ptr) : M Conflict := n <- name_of conflictMeta;; ret (conflict_of n).

(** [snprintf] of a message to a block of [len] bytes, for the log of the key. *)
Definition log_info (key : ptr) (len : nat) (message : cstr) : M unit :=
  elektraMetaArrayAdd key (lit "logs/spec/info") (Some (take (len - 1) message)).

(** The error 142, the warning 143, a log entry or nothing. *)
Definition on_conflict (parentKey : ptr) (c : OnConflict) (message : M (list cstr)) (info : M unit) : M Z :=
  match c with
  | ERROR => m <- message;; set_error 142 parentKey m;; ret (-1)%Z
  | WARNING => m <- message;; add_warning 143 parentKey m;; ret 0%Z
  | INFO => info;; ret 0%Z
  | IGNORE => ret 0%Z
  end.

Definition handleInvalidConflict (parentKey key : ptr) (c : OnConflict) : M Z :=
  on_conflict parentKey c
    (n <- name_of key;; ret [lit "Invalid key "; n; nl])
    (n <- name_of key;;
     log_info key (S (length (lit "Invalid key ")) + S (length n) - 1) (lit "Invalid key " ++ n ++ nl)).

(** What the three conflicts with a list of names have in common; [None] is a NULL that is printed. *)
Definition handle_list (parentKey key conflictMeta : ptr) (c : OnConflict) (message : string) (info : cstr -> M unit) : M Z :=
  m <- name_of conflictMeta;;
  problemKeys <- elektraMetaArrayToString key m (lit ", ");;
  on_conflict parentKey c
    (n <- name_of key;; match problemKeys with Some p => ret [n; lit message; p; nl] | None => undefined end)
    (match problemKeys with Some p => info p | None => undefined end).

Definition handleArrayConflict (parentKey key conflictMeta : ptr) (c : OnConflict) : M Z :=
  handle_list parentKey key conflictMeta c
    (match c with ERROR => " has invalid array key members: " | _ => " has invalid array members: " end)
    (fun p => log_info key (S (length (lit "invalid array members: ")) + S (length p) - 1)
       (lit "invalid array members: " ++ p ++ nl)).

Definition handleConflictConflict (parentKey key conflictMeta : ptr) (c : OnConflict) : M Z :=
  handle_list parentKey key conflictMeta c " has conflicting metakeys: "
    (fun p => n <- name_of key;;
       log_info key (S (length (lit "has conflicting metakeys:")) + S (length p) + S (length n))
         (n ++ lit " has conflicting metakeys: " ++ p)).

Definition handleMissingConflict (parentKey key conflictMeta : ptr) (c : OnConflict) : M Z :=
  handle_list parentKey key conflictMeta c " has missing subkeys: "
    (fun p => n <- name_of key;;
       log_info key (S (length (lit "has missing subkeys:")) + S (length p) + S (length n)) (n ++ lit " has missing subkeys: " ++ p)).

(** The value of the conflict and what the specification expects. *)
Definition found_expected (specKey conflictMeta : ptr) (what : string) : M (cstr * cstr) :=
  found <- keyString conflictMeta;;
  m <- keyGetMeta specKey (Some (lit what));;
  expected <- keyString m;;
  ret (found, expected).

Definition handleSubCountConflict (parentKey key specKey conflictMeta : ptr) (c : OnConflict) : M Z :=
  on_conflict parentKey c
    (n <- name_of key;; let* (f, e) := found_expected specKey conflictMeta "required" in
     ret [n; lit " has a invalid number of subkeys: "; f; lit ". Expected: "; e; nl])
    (let* (f, e) := found_expected specKey conflictMeta "required" in
     log_info key (S (length (lit "invalid number of subkeys: %s. Expected %s")) + MAX_CHARS_IN_LONG * 2)
       (lit "invalid number of subkeys: " ++ f ++ lit ". Expected " ++ e)).

Definition handleOutOfRangeConflict (parentKey key specKey conflictMeta : ptr) (c : OnConflict) : M Z :=
  on_conflict parentKey c
    (n <- name_of key;; let* (f, e) := found_expected specKey conflictMeta "array" in
     ret [n; lit " has invalid number of members: "; f; lit ". Expected: "; e; nl])
    (n <- name_of key;;
     m <- keyGetMeta specKey (Some (lit "array"));;
     size <- keyGetValueSize m;;
     let* (f, e) := found_expected specKey conflictMeta "array" in
     log_info key
       (Z.to_nat (Z.of_nat (S (length (lit "%s has invalid number of member: %s. Expected: %s")) + S (length n) + MAX_CHARS_IN_LONG) + size - 2))
       (n ++ lit " has invalid number of member: " ++ f ++ lit ". Expected: " ++ e)).

Definition handleError (parentKey key specKey conflictMeta : ptr) (conflict : Conflict) (ch : ConflictHandling) : M Z :=
  match conflict with
  | INVALID => handleInvalidConflict parentKey key (ch_invalid ch)
  | ARRAYMEMBER => handleArrayConflict parentKey key conflictMeta (ch_member ch)
  | SUBCOUNT => handleSubCountConflict parentKey key specKey conflictMeta (ch_count ch)
  | CONFLICT => handleConflictConflict parentKey key conflictMeta (ch_conflict ch)
  | OUTOFRANGE => handleOutOfRangeConflict parentKey key specKey conflictMeta (ch_range ch)
  | MISSING => handleMissingConflict parentKey key conflictMeta (ch_missing ch)
  | NAC => ret 0%Z
  end.

Definition starts_with (n : cstr) (prefix : string) : bool :=
  bool_decide (strncmp n (lit prefix) (length (lit prefix)) = 0%Z).

(** The loop over the metadata; removing metadata rewinds it. *)
Fixpoint errors_loop (fuel : nat) (parentKey key specKey : ptr) (ch : ConflictHandling) (r : Z) : M Z :=
  match fuel with
  | O => nofuel
  | S fuel =>
      next <- keyNextMeta key;;
      match next with
      | None => ret r
      | Some _ =>
          meta <- keyCurrentMeta key;;
          n <- name_of meta;;
          conflict <- getConflict meta;;
          if decide (conflict <> NAC) then
            e <- handleError parentKey key specKey meta conflict ch;;
            n <- name_of meta;;
            keySetMeta key (Some n) None;;
            errors_loop fuel parentKey key specKey ch (Z.lor r e)
          else if starts_with n "conflict/#" || starts_with n "conflict/invalid/hasmember/#" then
            keySetMeta key (Some n) None;;
            errors_loop fuel parentKey key specKey ch r
          else errors_loop fuel parentKey key specKey ch r
      end
  end.

(** Every turn goes on or removes metadata; a conflict adds at most two entries. *)
Definition errors_fuel (key : ptr) : M nat := n <- meta_fuel key;; ret (S n * (3 * n + 3)).

Definition key_errors (parentKey key specKey : ptr) (ch : ConflictHandling) (r : Z) : M Z :=
  keyRewindMeta key;;
  fuel <- errors_fuel key;;
  errors_loop fuel parentKey key specKey ch r.

Definition handleErrors (parentKey ks key specKey : ptr) (ch : ConflictHandling) (dir : Direction) : M Z :=
  cursor <- ksGetCursor ks;;
  localCh <- parseLocalConfig specKey ch dir;;
  parent <- parent_in ks key;;
  r <- key_errors parentKey parent specKey localCh 0;;
  r <- key_errors parentKey key specKey localCh r;;
  ksSetCursor ks cursor;;
  ret r.

(** ** Metadata *)

(** The loop over the metadata of the specification. *)
Fixpoint spec_meta_loop (fuel : nat) (specKey : ptr) (body : loc -> cstr -> M unit) : M unit :=
  match fuel with
  | O => nofuel
  | S fuel =>
      next <- keyNextMeta specKey;;
      match next with
      | None => ret tt
      | Some _ =>
          meta <- keyCurrentMeta specKey;;
          match meta with
          | None => undefined
          | Some m => n <- name_of meta;; body m n;; spec_meta_loop fuel specKey body
          end
      end
  end.

Definition each_spec_meta (specKey : ptr) (body : loc -> cstr -> M unit) : M unit :=
  keyRewindMeta specKey;;
  fuel <- meta_fuel specKey;;
  spec_meta_loop fuel specKey body.

Definition is_name (n : cstr) (s : string) : bool := bool_decide (strcmp n (lit s) = 0%Z).

Definition removeMeta (key specKey : ptr) : M unit :=
  each_spec_meta specKey (fun _ name =>
    if is_name name "array" || is_name name "required" || starts_with name "conflict/" || is_name name "require" then ret tt
    else
      oldMeta <- keyGetMeta key (Some name);;
      match oldMeta with Some _ => keySetMeta key (Some name) None;; ret tt | None => ret tt end).

(** Other metadata with the name is kept as a conflict. *)
Definition collide (key specKey : ptr) (oldMeta meta : loc) (name : cstr) : M unit :=
  old <- keyString (Some oldMeta);;
  new <- keyString (Some meta);;
  if bool_decide (strcmp old new = 0%Z) then ret tt
  else
    let conflictStringSize := S (length name) + S (length (lit "conflict/collision/")) in
    keySetMeta key (Some (take (conflictStringSize - 1) (lit "conflict/" ++ name))) (Some old);;
    keyCopyMeta key specKey (Some name);;
    elektraMetaArrayAdd key (lit "conflict/collision") (Some name).

Definition copyMeta (key specKey : ptr) : M unit :=
  each_spec_meta specKey (fun meta name =>
    if starts_with name "internal/" || starts_with name "conflict/" then ret tt
    else
      oldMeta <- keyGetMeta key (Some name);;
      match oldMeta with
      | Some o => collide key specKey o meta name
      | None => v <- keyString (Some meta);; keySetMeta key (Some name) (Some v);; ret tt
      end);;
  keySetMeta key (Some (lit "spec/internal/valid")) None;;
  ret tt.

Definition hasRequired (key specKey ks : ptr) : M bool :=
  lookupKey <- keyDup key;;
  b <- base_name_of specKey;;
  keyAddBaseName lookupKey (Some b);;
  found <- env_ksLookup ks lookupKey KDB_O_NONE;;
  keyDel lookupKey;;
  match found with
  | Some _ => ret true
  | None => b <- base_name_of specKey;; elektraMetaArrayAdd key (lit "conflict/missing") (Some b);; ret false
  end.

(** ** Matching *)

Definition has_meta_named (key : ptr) (name : string) : M bool :=
  m <- keyGetMeta key (Some (lit name));; ret (bool_decide (is_Some m)).

(** What happens to a key that matches. *)
Definition apply_spec (returned cur specKey : ptr) (require : bool) : M unit :=
  if require then b <- hasRequired cur specKey returned;; if b : bool then copyMeta cur specKey else ret tt
  else
    invalid <- has_meta_named cur "conflict/invalid";;
    if invalid : bool then copyMeta cur specKey
    else
      valid <- has_meta_named cur "spec/internal/valid";;
      if valid : bool then copyMeta cur specKey
      else
        v <- elektraArrayValidateName cur;;
        if (v =? 1)%Z then validateArray returned cur specKey;; copyMeta cur specKey
        else
          b <- base_name_of specKey;;
          if is_name b "_" then validateWildcardSubs returned cur specKey;; copyMeta cur specKey
          else
            array <- hasArray cur;;
            if array : bool then
              ok <- isValidArrayKey cur;;
              if (ok =? 0)%Z then ret tt else copyMeta cur specKey
            else copyMeta cur specKey.

(** A missing key whose value is computed is added. *)
Definition add_assigned (returned specKey : ptr) : M unit :=
  m <- keyGetMeta specKey (Some (lit "assign/condition"));;
  match m with
  | None => ret tt
  | Some _ =>
      n <- name_of specKey;;
      newKey <- keyNew (strchr n SLASH) [KEY_NAME_OPTION KEY_CASCADING_NAME];;
      m <- keyGetMeta specKey (Some (lit "assign/condition"));;
      v <- keyString m;;
      keySetMeta (Some newKey) (Some (lit "assign/condition")) (Some v);;
      d <- keyDup (Some newKey);;
      ksAppendKey returned d;;
      keyDel (Some newKey);;
      ret tt
  end.

(** The pattern and whether the key is only required. *)
Definition spec_pattern (specKey : ptr) : M (bool * cstr) :=
  require <- has_meta_named specKey "require";;
  if require : bool then
    matchKey <- keyDup specKey;;
    keySetBaseName matchKey None;;
    pattern <- keyNameToMatchingString matchKey;;
    keyDel matchKey;;
    ret (true, pattern)
  else pattern <- keyNameToMatchingString specKey;; ret (false, pattern).

(** The turn of [doGlobbing] for one key of the specification. *)
Definition glob_spec (parentKey returned : ptr) (ch : ConflictHandling) (dir : Direction) (clean : bool) (r : Z) (specKey : loc) : M Z :=
  let* (require, pattern) := spec_pattern (Some specKey) in
  ksRewind returned;;
  found <- from_cursor returned (fun found cur =>
    cursor <- ksGetCursor returned;;
    matches <- matchPatternToKey pattern (Some cur);;
    found <- (if matches : bool then
                if clean then removeMeta (Some cur) (Some specKey);; ret found
                else apply_spec returned (Some cur) (Some specKey) require;; ret true
              else ret found);;
    ksSetCursor returned cursor;;
    ret found) false;;
  ksRewind returned;;
  (if negb found && bool_decide (dir = GET) then add_assigned returned (Some specKey) else ret tt);;
  from_cursor returned (fun _ cur =>
    r <- handleErrors parentKey returned (Some cur) (Some specKey) ch dir;;
    keySetMeta (Some cur) (Some (lit "conflict/invalid")) None;;
    ret r) r.

Definition doGlobbing (parentKey returned specKS : ptr) (ch : ConflictHandling) (dir : Direction) (clean : bool) : M Z :=
  for_each specKS (glob_spec parentKey returned ch dir clean) 1%Z.

(** ** The plugin *)

Fixpoint config_field (baseName : cstr) (hs : list (string * (ConflictHandling -> OnConflict -> ConflictHandling))) :
    option (ConflictHandling -> OnConflict -> ConflictHandling) :=
  match hs with
  | [] => None
  | (what, set) :: hs => if is_name baseName what then Some set else config_field baseName hs
  end.

Definition parseConfig (config : ptr) (ch : ConflictHandling) : M ConflictHandling :=
  from_cursor config (fun ch c =>
    b <- base_name_of (Some c);;
    match config_field b handlings with
    | Some set => o <- getConfOption (Some c);; ret (set ch o)
    | None => ret ch
    end) ch.

Definition same_handling (c : OnConflict) : ConflictHandling := mkCH c c c c c c.

(** The configuration below the key overrides. *)
Definition read_config (config onConflictConf : ptr) (onConflict : OnConflict) : M ConflictHandling :=
  conflictCut <- ksCut config onConflictConf;;
  ch <- parseConfig conflictCut (same_handling onConflict);;
  ksAppend config conflictCut;;
  ksDel conflictCut;;
  ret ch.

Definition elektraSpecGet (contract : M ptr) (data : option PluginConfig) (config returned parentKey : ptr) : M (Z * option PluginConfig) :=
  b <- is_named parentKey "system/elektra/modules/spec";;
  if b : bool then
    contract <- contract;;
    ksAppend returned contract;;
    ksDel contract;;
    ret (1%Z, data)
  else
    onConflictConf <- env_ksLookupByName config (Some (lit "/conflict/get")) KDB_O_NONE;;
    onConflict <- (match onConflictConf with Some _ => getConfOption onConflictConf | None => ret IGNORE end);;
    let pluginConfig := match data with Some d => mkPC (pc_ks d) (pc_counter d + 1) | None => mkPC None 0 end in
    let clean := (pc_counter pluginConfig =? 1)%Z in
    let counter := if clean then 0%Z else pc_counter pluginConfig in
    ch <- read_config config onConflictConf onConflict;;
    specKey <- keyNew (Some (lit "spec")) [];;
    specKS <- ksCut returned (Some specKey);;
    specs <- (match pc_ks pluginConfig with
              | Some ks => ksAppend (Some ks) specKS;; ret (Some ks)
              | None => ksDup specKS
              end);;
    keyDel (Some specKey);;
    ks <- ksCut returned parentKey;;
    ksRewind ks;;
    ksRewind specKS;;
    r <- doGlobbing parentKey ks specKS ch GET clean;;
    ksAppend returned specKS;;
    ksAppend returned ks;;
    ksDel ks;;
    ksDel specKS;;
    ksRewind returned;;
    ret (r, Some (mkPC specs counter)).

(** The name of the configuration key is compared, not its value. *)
Definition elektraSpecSet (data : option PluginConfig) (config returned parentKey : ptr) : M (Z * option PluginConfig) :=
  onConflictConf <- env_ksLookupByName config (Some (lit "/conflict/set")) KDB_O_NONE;;
  onConflict <- (match onConflictConf with Some _ => n <- name_of onConflictConf;; ret (conf_option n) | None => ret IGNORE end);;
  match data with
  | None => ret (0%Z, None)
  | Some d =>
      let clean := (pc_counter d + 1 =? 2)%Z in
      let counter := if clean then 0%Z else (pc_counter d + 1)%Z in
      ch <- read_config config onConflictConf onConflict;;
      ks <- ksCut returned parentKey;;
      ksRewind ks;;
      r <- (match pc_ks d with Some _ => ksRewind (pc_ks d);; doGlobbing parentKey ks (pc_ks d) ch SET clean | None => ret 0%Z end);;
      ksAppend returned ks;;
      ksDel ks;;
      ksRewind returned;;
      ret (r, Some (mkPC (pc_ks d) counter))
  end.

Definition elektraSpecClose (data : option PluginConfig) : M (Z * option PluginConfig) :=
  match data with
  | None => ret (0%Z, None)
  | Some d => (match pc_ks d with Some _ => ksDel (pc_ks d) | None => ret 0%Z end);; ret (0%Z, None)
  end.
End Spec.

(** ** The pattern of a name *)

Definition glob_part (p : cstr) : cstr :=
  if decide (p = lit "_") then lit "*" else if decide (p = lit "#") then lit "#*" else p.

Lemma last_behind (c : ascii) p d : List.last (c :: p) d = List.last p c.
Proof. revert c d. induction p as [|x p IH]; intros c d; [done|]. change (List.last (x :: p) d = List.last (x :: p) c). by rewrite !IH. Qed.

Lemma match_chars_inner prev p r : prev <> SLASH -> no_slash p -> match_chars prev (p ++ r) = p ++ match_chars (List.last p prev) r.
Proof.
  revert prev. induction p as [|c p IH]; intros prev Hp Hs; [done|]. apply not_elem_of_cons in Hs as [Hc Hs].
  cbn [app match_chars]. rewrite (bool_decide_false (prev = SLASH)) by done. cbn [andb]. rewrite !andb_false_r. cbn [app]. f_equal.
  by rewrite (IH c (not_eq_sym Hc) Hs), last_behind.
Qed.

(** A part of the name, before a slash or the end. *)
Lemma match_chars_part p r : no_slash p -> deref r = SLASH \/ r = [] ->
  match_chars SLASH (p ++ r) = glob_part p ++ match_chars (List.last p SLASH) r.
Proof.
  intros Hs Hr. destruct p as [|c [|d p]]; [done| |].
  - assert ((bool_decide (deref r = SLASH) || bool_decide (r = [])) = true) as Hw.
    { apply orb_true_iff. destruct Hr; [left|right]; by apply bool_decide_eq_true. }
    cbn [app match_chars]. rewrite Hw, (bool_decide_true (SLASH = SLASH)) by done. cbn [andb]. rewrite !andb_true_r. unfold glob_part.
    destruct (decide (c = "_"%char)) as [->|]; [done|]. rewrite bool_decide_false by done.
    rewrite (decide_False (P := [c] = lit "_")) by (unfold lit; simpl; congruence).
    destruct (decide (c = "#"%char)) as [->|]; [done|]. rewrite bool_decide_false by done.
    by rewrite decide_False by (unfold lit; simpl; congruence).
  - apply not_elem_of_cons in Hs as [Hc Hs]. unfold glob_part. rewrite !decide_False by (unfold lit; simpl; congruence).
    cbn [app]. assert (no_slash (d :: p)) as Hs' by done. apply not_elem_of_cons in Hs as [Hd Hs].
    cbn [match_chars]. cbn [deref]. rewrite (bool_decide_false (d = SLASH)) by (by apply not_eq_sym).
    rewrite (bool_decide_false (d :: p ++ r = [])) by done. cbn [orb]. rewrite !andb_false_r. cbn [app]. f_equal.
    rewrite last_behind. exact (match_chars_inner c (d :: p) r (not_eq_sym Hc) Hs').
Qed.

Lemma match_chars_joined p ps : no_slash p -> Forall no_slash ps ->
  match_chars SLASH (p ++ joined ps) = glob_part p ++ joined (map glob_part ps).
Proof.
  intros Hp Hps. revert p Hp. induction Hps as [|q ps Hq _ IH]; intros p Hp.
  - change (joined []) with (@nil ascii). rewrite match_chars_part by (done || by right). done.
  - assert (match_chars (List.last p SLASH) (SLASH :: q ++ joined ps) = SLASH :: match_chars SLASH (q ++ joined ps)) as E.
    { cbn [match_chars]. by rewrite !(bool_decide_false (SLASH = _)) by done. }
    change (joined (q :: ps)) with (SLASH :: q ++ joined ps). rewrite match_chars_part by (done || by left).
    rewrite E, IH by done. done.
Qed.

Lemma match_chars_length prev s : length (match_chars prev s) <= length s + length (filter (fun c => c = "#"%char) s).
Proof.
  revert prev. induction s as [|c s IH]; intros prev; [done|]. cbn [match_chars]. rewrite length_app, filter_cons. specialize (IH c).
  destruct (bool_decide (c = "_"%char) && _); [|destruct (decide (c = "#"%char)) as [->|Hc]].
  - case_decide; simpl; lia.
  - destruct (_ && _); simpl; lia.
  - rewrite bool_decide_false by done. simpl. lia.
Qed.

Lemma strchr_behind ns r : no_slash ns -> strchr (ns ++ SLASH :: r) SLASH = Some (SLASH :: r).
Proof.
  induction ns as [|c ns IH]; intros Hs; [done|]. apply not_elem_of_cons in Hs as [Hc Hs]. cbn [app strchr].
  rewrite decide_False by (by apply not_eq_sym). by apply IH.
Qed.

(** C25.  [keyNameToMatchingString] drops the namespace of a name and turns the parts [_] and [#]
    into [*] and [#*], leaving all other parts alone; the pattern fits the block for names
    with less than 256 times [#]. *)
Theorem keyNameToMatchingString_globs K S l k ns p ps :
  K !! l = Some k -> k_key k = Some (ns ++ joined (p :: ps)) -> no_slash ns -> Forall no_slash (p :: ps) ->
  length (filter (fun c => c = "#"%char) (joined (p :: ps))) < 256 ->
  keyNameToMatchingString (Some l) (mkHeap K S) = Ret (tail (joined (map glob_part (p :: ps)))) (mkHeap K S).
Proof.
  intros Hk Hn Hns Hps Hc. unfold keyNameToMatchingString, keyName, bindM, get_key. cbn [h_keys]. rewrite Hk, Hn. cbn [ret].
  change (joined (p :: ps)) with (SLASH :: p ++ joined ps) in *. rewrite strchr_behind by done. cbn [deref tail].
  apply Forall_cons in Hps as [Hp Hps]. pose proof (match_chars_length SLASH (p ++ joined ps)) as Hlen.
  rewrite match_chars_joined in * by done. unfold array_count. rewrite Z.mod_small by lia.
  rewrite filter_cons_False in * by done.
  destruct (Z.ltb_spec (Z.of_nat (length (SLASH :: p ++ joined ps)) + 1 + Z.of_nat (length (filter (fun c => c = "#"%char) (p ++ joined ps))))
    (Z.of_nat (length (glob_part p ++ joined (map glob_part ps))) + 1)); [simpl in *; lia|]. done.
Qed.

Lemma joined_hashes n : length (joined (replicate n (lit "#"))) = 2 * n /\
  length (filter (fun c => c = "#"%char) (joined (replicate n (lit "#")))) = n /\
  length (joined (map glob_part (replicate n (lit "#")))) = 3 * n.
Proof.
  induction n as [|n (IH1 & IH2 & IH3)]; [done|]. cbn [replicate map].
  change (joined (lit "#" :: replicate n (lit "#"))) with (SLASH :: "#"%char :: joined (replicate n (lit "#"))).
  change (joined (glob_part (lit "#") :: map glob_part (replicate n (lit "#")))) with (SLASH :: "#"%char :: "*"%char :: joined (map glob_part (replicate n (lit "#")))).
  rewrite filter_cons_False, filter_cons_True by done. simpl in *. lia.
Qed.

(** The number of [#] is counted in a byte: with 256 or more parts [#] the pattern of a
    name is written behind its block. *)
Theorem keyNameToMatchingString_overflows K Sh l k n :
  K !! l = Some k -> k_key k = Some (lit "spec" ++ joined (replicate n (lit "#"))) -> 256 <= n ->
  keyNameToMatchingString (Some l) (mkHeap K Sh) = Undefined.
Proof.
  intros Hk Hn H. unfold keyNameToMatchingString, keyName, bindM, get_key. cbn [h_keys]. rewrite Hk, Hn. cbn [ret].
  destruct (joined_hashes n) as (H1 & H2 & H3). destruct n as [|n]; [lia|]. cbn [replicate] in *.
  change (joined (lit "#" :: replicate n (lit "#"))) with (SLASH :: lit "#" ++ joined (replicate n (lit "#"))) in *.
  rewrite strchr_behind by (intros Hin%list_elem_of_In; simpl in Hin; repeat (destruct Hin as [Hin|Hin]; [discriminate Hin|]); done).
  cbn [deref tail]. assert (Forall no_slash (replicate n (lit "#"))) as Hps.
  { apply Forall_replicate. intros Hin%list_elem_of_In. by destruct Hin as [Hin|[]]. }
  rewrite match_chars_joined by (done || by intros [Hin|[]]%list_elem_of_In). unfold array_count. rewrite H1, H2.
  change (joined (map glob_part (lit "#" :: replicate n (lit "#")))) with (SLASH :: glob_part (lit "#") ++ joined (map glob_part (replicate n (lit "#")))) in H3.
  cbn [length] in H3.
  destruct (Z.ltb_spec (Z.of_nat (2 * S n) + 1 + Z.of_nat (S n) mod 2 ^ 8) (Z.of_nat (length (glob_part (lit "#") ++ joined (map glob_part (replicate n (lit "#"))))) + 1));
    [done|].
  pose proof (Z.div_mod (Z.of_nat (S n)) (2 ^ 8) ltac:(lia)). pose proof (Z.div_le_lower_bound (Z.of_nat (S n)) (2 ^ 8) 1 ltac:(lia) ltac:(lia)). lia.
Qed.
