(* ===== verification/SpecFacts.v ===== *)
(** * SpecFacts: copying and removing the metadata of a specification

    [copyMeta] gives a key the metadata of its specification, [removeMeta] takes it
    away again.  The specification is a key of the frame of [Entries]; its metadata is
    a list of names and values. *)
From S2P Require Export Spec.
#[local] Open Scope elektra_scope.

(** The metadata key at [y] has the name [c] and the value [v]. *)
Definition spec_entry (FK : gmap loc Key) (y : loc) (cv : cstr * cstr) : Prop :=
  (exists k, FK !! y = Some k /\ k_key k = Some cv.1) /\ meta_name cv.1 cv.1 /\ meta_cstr FK y cv.2 /\ no_nul cv.2.

(** The key at [sk] has the metadata [items]. *)
Definition specified (FK : gmap loc Key) (FS : gmap loc KeySet) (sk : loc) (items : list (cstr * cstr)) : Prop :=
  exists k, FK !! sk = Some k /\
    match k_meta k with
    | None => items = []
    | Some m => exists s ms, FS !! m = Some s /\ ks_rep s ms /\ Forall2 (spec_entry FK) ms items
    end.

Section EachMeta.
Context {E : Env} {HR : RecLaws env_rec} {HP : PopLaws env_rec}.
Context (ls : list loc) (FK : gmap loc Key) (sk x : loc).
Context (body : loc -> cstr -> M unit) (f : entry -> cstr * cstr -> entry) (e : loc -> entry) (a : entry) (items : list (cstr * cstr)).
Hypothesis Hbody : forall FS y pre cv rest K S, items = pre ++ cv :: rest -> spec_entry FK y cv ->
  entries ls FK FS (upd e x (foldl f a pre)) K S ->
  wp (body y cv.1) (fun _ h => entries ls FK FS (upd e x (f (foldl f a pre) cv)) (h_keys h) (h_sets h)) (mkHeap K S).

Lemma entries_frame_key FS e' K S y k : entries ls FK FS e' K S -> FK !! y = Some k -> K !! y = Some k.
Proof. intros [own Hw] Hy. by apply (w_frame _ _ _ _ _ _ _ Hw y k Hy). Qed.

Lemma entries_frame_set FS e' K S m s : entries ls FK FS e' K S -> FS !! m = Some s -> S !! m = Some s.
Proof. intros [own Hw] Hm. by apply (w_others _ _ _ _ _ _ _ Hw m s Hm). Qed.

(** The turns from the [i]th metadata on. *)
Lemma spec_meta_loop_spec k m fuel FS K S s ms i pre rest :
  FK !! sk = Some k -> k_meta k = Some m -> FS !! m = Some s -> ks_rep s ms -> Forall2 (spec_entry FK) ms items ->
  before s i -> i = length pre -> items = pre ++ rest -> length rest < fuel -> entries ls FK FS (upd e x (foldl f a pre)) K S ->
  wp (spec_meta_loop fuel (Some sk) body)
    (fun _ h => exists s', ks_rep s' ms /\ entries ls FK (<[m := s']> FS) (upd e x (foldl f a items)) (h_keys h) (h_sets h)) (mkHeap K S).
Proof.
  intros Hk Hm HFS Hrep Hms Hb. revert FS K S s i pre rest HFS Hrep Hb.
  induction fuel as [|fuel IH]; intros FS K S s i pre rest HFS Hrep Hb -> Hit Hf He; [lia|].
  pose proof (Forall2_length _ _ _ Hms) as Hlen. assert (length items = length pre + length rest) as Hlen' by (by rewrite Hit, length_app).
  pose proof (entries_frame_key _ _ _ _ _ _ He Hk) as HK. pose proof (entries_frame_set _ _ _ _ _ _ He HFS) as HS.
  pose proof (before_next _ _ Hb) as [Hnx Hcu]. cbn [spec_meta_loop]. unfold keyNextMeta at 1. wstep. wstep. rewrite Hm. apply wp_bind.
  eapply ksNext_spec; [done|done| | |].
  { unfold cursor_ok. rewrite (rep_size _ _ Hrep). lia. }
  - intros Hc. assert (after_next s ms = ks_with_cursor s (ms !! length pre) (length pre)) as ->.
    { unfold after_next. rewrite Hnx. by assert ((length ms <=? ks_current s) = false) as -> by (apply Nat.leb_gt; lia). }
    rewrite Hnx. destruct (ms !! length pre) as [y|] eqn:Hy.
    + destruct (lookup_lt_is_Some_2 items (length pre)) as [cv Hcv]; [rewrite <- Hlen; by eapply lookup_lt_Some|].
      pose proof (Forall2_lookup_lr _ _ _ _ _ _ Hms Hy Hcv) as Hsp. rewrite Hit, lookup_app_r, Nat.sub_diag in Hcv by lia.
      destruct rest as [|cv' rest]; [done|]. injection Hcv as ->. pose proof Hsp as [(ky & Hky & Hn) _].
      pose proof (entries_put_ks _ _ _ _ _ _ _ _ (ks_with_cursor s (Some y) (length pre)) HFS He) as He'.
      unfold keyCurrentMeta. do 2 wstep. rewrite Hm. unfold ksCurrent. do 2 wstep. cbn [ks_cursor ks_with_cursor]. wstep.
      pose proof (entries_frame_key _ _ _ _ _ _ He Hky) as HKy. unfold name_of, keyName. wsteps. rewrite Hn. wsteps.
      wcall Hbody; [exact Hit|exact Hsp|exact He'|]. intros _ [K1 S1] He1. cbn [h_keys h_sets] in He1.
      eapply wp_mono; [eapply (IH (<[m := ks_with_cursor s (Some y) (length pre)]> FS) K1 S1 (ks_with_cursor s (Some y) (length pre)) (Datatypes.S (length pre)) (pre ++ [cv]) rest)|].
      * apply lookup_insert_eq.
      * by apply ks_rep_cursor.
      * done.
      * rewrite length_app. simpl. lia.
      * by rewrite <- app_assoc.
      * simpl in Hf. lia.
      * by rewrite foldl_app.
      * intros _ h (s' & Hrep' & He2). rewrite insert_insert_eq in He2. by exists s'.
    + apply lookup_ge_None in Hy. assert (rest = []) as -> by (destruct rest; [done|simpl in *; lia]). wsteps.
      rewrite app_nil_r in Hit. rewrite Hit. eexists. split; [|by eapply entries_put_ks]. by apply ks_rep_cursor.
  - intros Hc. wsteps. assert (rest = []) as -> by (destruct rest; [done|simpl in *; lia]). rewrite app_nil_r in Hit. rewrite Hit.
    exists s. split; [done|]. by rewrite insert_id.
Qed.

(** The whole loop. *)
Lemma each_spec_meta_spec FS K S :
  specified FK FS sk items -> entries ls FK FS (upd e x a) K S ->
  wp (each_spec_meta (Some sk) body)
    (fun _ h => exists FS', specified FK FS' sk items /\ entries ls FK FS' (upd e x (foldl f a items)) (h_keys h) (h_sets h)) (mkHeap K S).
Proof.
  intros (k & Hk & Hmeta) He. pose proof (entries_frame_key _ _ _ _ _ _ He Hk) as HK. unfold each_spec_meta, keyRewindMeta, meta_fuel.
  destruct (k_meta k) as [m|] eqn:Hm.
  - destruct Hmeta as (s & ms & HFS & Hrep & Hms). pose proof (entries_frame_set _ _ _ _ _ _ He HFS) as HS. wstep. wstep. rewrite Hm.
    apply wp_bind. eapply ksRewind_spec; [done|]. wstep. wstep. rewrite Hm. wsteps. cbn [ks_size ks_with_cursor]. rewrite (rep_size _ _ Hrep).
    pose proof (entries_put_ks _ _ _ _ _ _ _ _ (ks_with_cursor s None 0) HFS He) as He'. pose proof (Forall2_length _ _ _ Hms).
    eapply wp_mono; [eapply (spec_meta_loop_spec _ m _ _ _ _ (ks_with_cursor s None 0) ms 0 [] items)|]; try done.
    + apply lookup_insert_eq.
    + by apply ks_rep_cursor.
    + lia.
    + intros _ h (s' & Hrep' & He2). rewrite insert_insert_eq in He2. eexists. split; [|exact He2].
      exists k. split; [done|]. rewrite Hm. exists s', ms. split_and!; [apply lookup_insert_eq|done..].
  - subst items. wstep. wstep. rewrite Hm. wsteps. rewrite Hm. wsteps. cbn [spec_meta_loop]. unfold keyNextMeta. wsteps. rewrite Hm. wsteps.
    exists FS. split; [|done]. exists k. by rewrite Hm.
Qed.
End EachMeta.

(** ** Copying and removing *)

(** Metadata [copyMeta] passes over, and metadata [removeMeta] leaves alone. *)
Definition not_copied (c : cstr) : bool := starts_with c "internal/" || starts_with c "conflict/".
Definition kept (c : cstr) : bool :=
  is_name c "array" || is_name c "required" || starts_with c "conflict/" || is_name c "require".

Definition copied (a : entry) (cv : cstr * cstr) : entry :=
  if not_copied cv.1 then a
  else with_meta a (elektraUnescapeKeyName cv.1) (Some cv.2).

Definition removed (a : entry) (cv : cstr * cstr) : entry :=
  if kept cv.1 then a
  else with_meta a (elektraUnescapeKeyName cv.1) None.

(** The unescaped names of metadata. *)
Definition meta_names (items : list (cstr * cstr)) : list (list ascii) := map (fun cv => elektraUnescapeKeyName cv.1) items.

Lemma with_meta_same a u v : en_meta a !! u = v -> with_meta a u v = a.
Proof. intros <-. destruct a as [n d m]. unfold with_meta. simpl. f_equal. by apply partial_alter_id. Qed.

Lemma foldl_meta_other (f : entry -> cstr * cstr -> entry) u items a :
  (forall b cv, elektraUnescapeKeyName cv.1 <> u -> en_meta (f b cv) !! u = en_meta b !! u) ->
  u ∉ meta_names items -> en_meta (foldl f a items) !! u = en_meta a !! u.
Proof.
  intros Hf. revert a. induction items as [|cv items IH]; intros a Hu; [done|]. apply not_elem_of_cons in Hu as [Hne Hu].
  cbn [foldl]. rewrite IH by done. by apply Hf, not_eq_sym.
Qed.

Lemma copied_other u b cv : elektraUnescapeKeyName cv.1 <> u -> en_meta (copied b cv) !! u = en_meta b !! u.
Proof. intros H. unfold copied. case_match; [done|]. by apply lookup_partial_alter_ne. Qed.

Lemma removed_other u b cv : elektraUnescapeKeyName cv.1 <> u -> en_meta (removed b cv) !! u = en_meta b !! u.
Proof. intros H. unfold removed. case_match; [done|]. by apply lookup_partial_alter_ne. Qed.

(** The names of the metadata before one of the list are other names. *)
Lemma meta_names_before items pre cv rest : NoDup (meta_names items) -> items = pre ++ cv :: rest -> elektraUnescapeKeyName cv.1 ∉ meta_names pre.
Proof.
  intros Hnd ->. unfold meta_names in Hnd. rewrite map_app in Hnd. apply NoDup_app in Hnd as (_ & Hd & _). intros Hin. apply (Hd _ Hin). by left.
Qed.

(** The value the specification has for the metadata [u], of what is copied. *)
Fixpoint spec_value (items : list (cstr * cstr)) (u : list ascii) : option cstr :=
  match items with
  | [] => None
  | cv :: items => if decide (elektraUnescapeKeyName cv.1 = u /\ not_copied cv.1 = false) then Some cv.2 else spec_value items u
  end.

Lemma spec_value_in items u v : spec_value items u = Some v -> exists cv, cv ∈ items /\ elektraUnescapeKeyName cv.1 = u /\ not_copied cv.1 = false.
Proof.
  induction items as [|cv items IH]; [done|]. cbn [spec_value]. case_decide as H.
  - intros _. exists cv. split; [by left|done].
  - intros Hv. destruct (IH Hv) as (cv' & Hin & H'). exists cv'. split; [by right|done].
Qed.

Lemma lookup_copied items u a : NoDup (meta_names items) ->
  en_meta (foldl copied a items) !! u = match spec_value items u with Some v => Some v | None => en_meta a !! u end.
Proof.
  revert a. induction items as [|cv items IH]; intros a Hnd; [done|]. apply NoDup_cons in Hnd as [Hni Hnd]. cbn [foldl spec_value]. rewrite IH by done.
  case_decide as H.
  - destruct H as [<- Hc]. destruct (spec_value items _) as [v|] eqn:Hv.
    + destruct (spec_value_in _ _ _ Hv) as (cv' & Hin & Hu & _). destruct Hni. rewrite <- Hu.
      apply list_elem_of_In, (in_map (fun cv => elektraUnescapeKeyName cv.1)), list_elem_of_In, Hin.
    + unfold copied. rewrite Hc. apply lookup_partial_alter_eq.
  - destruct (spec_value items u); [done|]. unfold copied. destruct (not_copied cv.1) eqn:Hc; [done|]. apply lookup_partial_alter_ne. tauto.
Qed.

Lemma lookup_removed items u a :
  en_meta (foldl removed a items) !! u = en_meta a !! u \/
  en_meta (foldl removed a items) !! u = None /\ exists cv, cv ∈ items /\ elektraUnescapeKeyName cv.1 = u.
Proof.
  revert a. induction items as [|cv items IH]; intros a; [by left|]. cbn [foldl]. destruct (IH (removed a cv)) as [H|[H (cv' & Hin & Hu)]].
  - destruct (decide (elektraUnescapeKeyName cv.1 = u)) as [Hu|Hu]; [|left; by rewrite H, removed_other].
    destruct (kept cv.1) eqn:Hk; [left; rewrite H; unfold removed; by rewrite Hk|]. right. rewrite H. split.
    { unfold removed. rewrite Hk, Hu. apply lookup_partial_alter_eq. }
    exists cv. split; [by left|done].
  - right. split; [done|]. exists cv'. split; [by right|done].
Qed.

(** What is removed is gone. *)
Lemma lookup_removed_in items cv a : cv ∈ items -> kept cv.1 = false -> en_meta (foldl removed a items) !! elektraUnescapeKeyName cv.1 = None.
Proof.
  revert a. induction items as [|cv' items IH]; intros a Hin Hk; [by apply not_elem_of_nil in Hin|]. cbn [foldl].
  apply elem_of_cons in Hin as [<-|Hin]; [|by apply IH]. destruct (lookup_removed items (elektraUnescapeKeyName cv.1) (removed a cv)) as [H|[H _]]; [|done].
  rewrite H. unfold removed. rewrite Hk. apply lookup_partial_alter_eq.
Qed.

Lemma foldl_meta_rest (f : entry -> cstr * cstr -> entry) items a :
  (forall b cv, en_name (f b cv) = en_name b /\ en_data (f b cv) = en_data b) ->
  en_name (foldl f a items) = en_name a /\ en_data (foldl f a items) = en_data a.
Proof. intros Hf. revert a. induction items as [|cv items IH]; intros a; [done|]. cbn [foldl]. destruct (IH (f a cv)) as [-> ->]. apply Hf. Qed.

Lemma copied_rest b cv : en_name (copied b cv) = en_name b /\ en_data (copied b cv) = en_data b.
Proof. unfold copied. by case_match. Qed.

Lemma removed_rest b cv : en_name (removed b cv) = en_name b /\ en_data (removed b cv) = en_data b.
Proof. unfold removed. by case_match. Qed.

Lemma removed_copied items a :
  NoDup (meta_names items) -> Forall (fun cv => en_meta a !! elektraUnescapeKeyName cv.1 = None) items ->
  Forall (fun cv => not_copied cv.1 = false -> kept cv.1 = false) items -> en_meta a !! mu "spec/internal/valid" = None ->
  foldl removed (with_meta (foldl copied a items) (mu "spec/internal/valid") None) items = a.
Proof.
  intros Hnd Hnone Hkept Hvalid. rewrite Forall_forall in Hnone, Hkept. set (b := with_meta _ _ _).
  destruct (foldl_meta_rest removed items b removed_rest) as [Hn Hd]. destruct (foldl_meta_rest copied items a copied_rest) as [Hn' Hd'].
  assert (en_meta (foldl removed b items) = en_meta a) as Hm.
  { apply map_eq. intros u. destruct (lookup_removed items u b) as [H|[H (cv & Hin & <-)]]; [|by rewrite H, Hnone].
    destruct (decide (u = mu "spec/internal/valid")) as [->|Hu]; [rewrite H, Hvalid; apply lookup_partial_alter_eq|].
    assert (en_meta b !! u = match spec_value items u with Some v => Some v | None => en_meta a !! u end) as Hb.
    { rewrite <- lookup_copied by done. unfold b. by apply lookup_partial_alter_ne. }
    destruct (spec_value items u) as [v|] eqn:Hv; [|by rewrite H].
    destruct (spec_value_in _ _ _ Hv) as (cv & Hin & <- & Hc). rewrite (lookup_removed_in items cv b Hin (Hkept cv Hin Hc)). by rewrite Hnone. }
  destruct (foldl removed b items) as [n d m], a as [n0 d0 m0]. simpl in *. congruence.
Qed.

Section Copy.
Context {E : Env} {HR : RecLaws env_rec} {HP : PopLaws env_rec}.
Context (ls : list loc) (FK : gmap loc Key) (sk x : loc).

(** The metadata the key has under names of the specification has the same value. *)
Definition agrees (a : entry) (cv : cstr * cstr) : Prop :=
  en_meta a !! elektraUnescapeKeyName cv.1 = None \/ en_meta a !! elektraUnescapeKeyName cv.1 = Some cv.2.

Lemma entries_meta_cstr FS e K S y v : meta_cstr FK y v -> entries ls FK FS e K S -> meta_cstr K y v.
Proof. intros (k & Hk & H) He. exists k. split; [by eapply entries_frame_key|done]. Qed.

Lemma copyMeta_spec items e FS K S :
  x ∈ ls -> specified FK FS sk items -> NoDup (meta_names items) -> Forall (agrees (e x)) items -> entries ls FK FS e K S ->
  wp (copyMeta (Some x) (Some sk))
    (fun _ h => exists FS', specified FK FS' sk items /\
       entries ls FK FS' (upd e x (with_meta (foldl copied (e x) items) (mu "spec/internal/valid") None)) (h_keys h) (h_sets h)) (mkHeap K S).
Proof.
  intros Hx Hsp Hnd Hag He. unfold copyMeta. apply wp_bind.
  eapply wp_mono; [eapply (each_spec_meta_spec ls FK sk x _ copied e (e x) items)|].
  - intros FS1 y pre cv rest K1 S1 Hit (_ & Hnm & Hv & Hnul) He1. unfold copied at 1. unfold not_copied. destruct (_ || _); [by apply wp_ret|].
    pose proof (foldl_meta_other _ (elektraUnescapeKeyName cv.1) pre (e x) (copied_other _) (meta_names_before _ _ _ _ Hnd Hit)) as Hlook.
    apply wp_bind. eapply entries_getMeta; [exact He1|done|exact Hnm|]. rewrite upd_eq. intros p S2 He2 Hp. rewrite Hlook in Hp.
    rewrite Forall_forall in Hag. destruct (Hag cv) as [Ho|Ho]; [rewrite Hit; apply elem_of_app; right; by left|..]; rewrite Ho in Hp; destruct p as [o|]; try done.
    + apply wp_bind. eapply keyString_meta_spec; [by eapply entries_meta_cstr|]. apply wp_bind. eapply entries_setMeta; [done..|].
      intros _ K3 S3 He3. apply wp_ret. eapply entries_ext; [|exact He3]. intros z _. rewrite upd_eq. unfold upd. by case_decide.
    + unfold collide. apply wp_bind. eapply keyString_meta_spec; [exact Hp|]. apply wp_bind. eapply keyString_meta_spec; [by eapply entries_meta_cstr|].
      rewrite bool_decide_true by (by apply strcmp_eq). apply wp_ret. rewrite with_meta_same by by rewrite Hlook. done.
  - done.
  - eapply entries_ext; [|exact He]. intros z _. unfold upd. by case_decide; subst.
  - intros _ [K1 S1] (FS1 & Hsp1 & He1). apply wp_bind. eapply entries_setMeta; [exact He1|done|meta_name_eval|done|].
    intros _ K2 S2 He2. apply wp_ret. exists FS1. split; [done|]. eapply entries_ext; [|exact He2]. intros z _. rewrite upd_eq. unfold upd. by case_decide.
Qed.

Lemma removeMeta_spec items e FS K S :
  x ∈ ls -> specified FK FS sk items -> NoDup (meta_names items) -> entries ls FK FS e K S ->
  wp (removeMeta (Some x) (Some sk))
    (fun _ h => exists FS', specified FK FS' sk items /\
       entries ls FK FS' (upd e x (foldl removed (e x) items)) (h_keys h) (h_sets h)) (mkHeap K S).
Proof.
  intros Hx Hsp Hnd He. unfold removeMeta. eapply (each_spec_meta_spec ls FK sk x _ removed e (e x) items); [|done|].
  - intros FS1 y pre cv rest K1 S1 Hit (_ & Hnm & Hv & Hnul) He1. unfold removed at 1. unfold kept. destruct (_ || _); [by apply wp_ret|].
    apply wp_bind. eapply entries_getMeta; [exact He1|done|exact Hnm|]. rewrite upd_eq. intros p S2 He2 Hp.
    destruct p as [o|].
    + apply wp_bind. eapply entries_setMeta; [done..|]. intros _ K3 S3 He3. apply wp_ret. eapply entries_ext; [|exact He3].
      intros z _. rewrite upd_eq. unfold upd. by case_decide.
    + destruct (_ !! _) eqn:Ho in Hp; [done|]. apply wp_ret. by rewrite with_meta_same.
  - eapply entries_ext; [|exact He]. intros z _. unfold upd. by case_decide; subst.
Qed.

(** C24.  [copyMeta] gives a key all the metadata of its specification but what is [internal/]
    or [conflict/], takes away the mark of [validateArray], and changes nothing else, when the
    metadata the key has before agrees with the specification. *)
Theorem copyMeta_copies items e FS K S :
  x ∈ ls -> specified FK FS sk items -> NoDup (meta_names items) -> Forall (agrees (e x)) items -> entries ls FK FS e K S ->
  wp (copyMeta (Some x) (Some sk))
    (fun _ h => exists FS' e', specified FK FS' sk items /\ entries ls FK FS' e' (h_keys h) (h_sets h) /\
       (forall y, y <> x -> e' y = e y) /\ en_name (e' x) = en_name (e x) /\ en_data (e' x) = en_data (e x) /\
       forall u, en_meta (e' x) !! u =
         if decide (u = mu "spec/internal/valid") then None
         else match spec_value items u with Some v => Some v | None => en_meta (e x) !! u end) (mkHeap K S).
Proof.
  intros Hx Hsp Hnd Hag He. eapply wp_mono; [by eapply copyMeta_spec|]. intros _ h (FS' & Hsp' & He'). exists FS'. eexists. split_and!; [done|exact He'|..].
  - intros y Hy. by apply upd_ne.
  - rewrite upd_eq. apply (foldl_meta_rest copied items (e x) copied_rest).
  - rewrite upd_eq. apply (foldl_meta_rest copied items (e x) copied_rest).
  - intros u. rewrite upd_eq. cbn [en_meta with_meta]. case_decide as Hu; [subst u; apply lookup_partial_alter_eq|].
    rewrite lookup_partial_alter_ne by (by apply not_eq_sym). by apply lookup_copied.
Qed.

(** C23.  What [copyMeta] gave a key when the configuration was got, [removeMeta] takes away
    before it is set: the key is as it was before when it had no metadata under any of the
    names of the specification and no mark of [validateArray], and the specification has
    no [array], [required] or [require].  Metadata the key had itself, equal to that of
    the specification, is removed too, so that such a key is not as before. *)
Theorem copyMeta_removeMeta items e FS K S :
  x ∈ ls -> specified FK FS sk items -> NoDup (meta_names items) ->
  Forall (fun cv => en_meta (e x) !! elektraUnescapeKeyName cv.1 = None) items ->
  Forall (fun cv => not_copied cv.1 = false -> kept cv.1 = false) items ->
  en_meta (e x) !! mu "spec/internal/valid" = None -> entries ls FK FS e K S ->
  wp (copyMeta (Some x) (Some sk);; removeMeta (Some x) (Some sk))
    (fun _ h => exists FS', specified FK FS' sk items /\ entries ls FK FS' e (h_keys h) (h_sets h)) (mkHeap K S).
Proof.
  intros Hx Hsp Hnd Hnone Hkept Hvalid He. apply wp_bind. eapply wp_mono; [eapply copyMeta_spec; try done|].
  { eapply Forall_impl; [exact Hnone|]. intros cv H. by left. }
  intros _ [K1 S1] (FS1 & Hsp1 & He1). eapply wp_mono; [by eapply removeMeta_spec|]. intros _ h (FS2 & Hsp2 & He2).
  exists FS2. split; [done|]. eapply entries_ext; [|exact He2]. intros z _. rewrite upd_eq, removed_copied by done. unfold upd. by case_decide; subst.
Qed.
End Copy.
