(* ===== verification/Csvstorage.v ===== *)
(** * Csvstorage: tables of separated columns

    [plugins/csvstorage/csvstorage.c]: every row of a table becomes an element of an
    array below the parent key and its columns keys below the row; the metadata
    [csv/order] has the number of the column, and the rows are written in this order.

    The buffer of a line is a block of memory whose bytes may never have been written.
    The theorem says that scanning a row gives its columns and reads nothing else. *)
From S2P Require Export Stdio Ease Filter MetaLib Spec.
#[local] Open Scope elektra_scope.

Definition INTSTR_MAX : nat := 15.
Definition INT_MAX : Z := 2 ^ 31 - 1.

(** ** The buffer of a line *)

(** A byte that was never written is [None]. *)
Abbreviation block := (list (option ascii)).

Definition block_alloc (n : nat) : block := replicate n None.

(** [elektraRealloc] keeps the bytes that fit. *)
Definition block_realloc (n : nat) (b : block) : block := take n b ++ replicate (n - length b) None.

(** [None] when the string is not ended inside of the bytes that were written. *)
Fixpoint block_cstr (b : block) : option cstr :=
  match b with
  | Some c :: r => if decide (c = NUL) then Some [] else (cons c) <$> block_cstr r
  | _ => None
  end.

(** Bytes written from the start; [None] when they do not fit. *)
Definition block_write (l : list ascii) (b : block) : option block :=
  if length b <? length l then None else Some (map Some l ++ drop (length l) b).

Definition block_set (i : nat) (c : ascii) (b : block) : block := <[i := Some c]> b.

(** [strchr], which finds the end of the string when it searches NUL. *)
Fixpoint index_of (c : ascii) (s : cstr) : option nat :=
  match s with
  | [] => if decide (c = NUL) then Some 0 else None
  | d :: r => if decide (d = c) then Some 0 else S <$> index_of c r
  end.

(** What [parseLine] returns: a column, with the block and the line when the line is not
    ended by a newline. *)
Inductive parsed :=
  | NoColumn
  | Column (col : cstr) (b : block)
  | Unended (col : cstr) (b : block).

(** [line[len - 1]] is the NUL at the end of [line], so that the tests behind the
    one for it are never made. *)
Definition parseLine (origLine : block) (delim : ascii) (offset : nat) : option parsed :=
  match block_cstr (drop offset origLine) with
  | None => None
  | Some [] => Some NoColumn
  | Some line =>
      Some match index_of delim line with
           | None =>
               let len := S (length line) in
               if ends_line line then Column (removelast line) (block_set (offset + (len - 2)) NUL origLine)
               else Unended line origLine
           | Some ptr => Column (take ptr line) (block_set (offset + ptr) NUL origLine)
           end
  end.

(** What the loop over [fgetc] reads; a NUL ends it. *)
Fixpoint scan_line (r : list ascii) : nat :=
  match r with
  | [] => 0
  | c :: r => if decide (c = NUL) then 1 else if decide (c = NEWLINE) then 1 else S (scan_line r)
  end.

(** The position is an [int]. *)
Definition getLineLength (fp : stream) : option (nat * stream) :=
  let startPos := st_pos fp in
  let endPos := startPos + scan_line (st_rest fp) in
  if (INT_MAX <? Z.of_nat endPos)%Z then None
  else Some (if endPos - startPos =? 0 then 0 else (endPos - startPos) + 1, fseek fp startPos).

Fixpoint count_delims (delim : ascii) (ptr : cstr) : nat :=
  match ptr with [] => 0 | c :: r => (if decide (c = delim) then 1 else 0) + count_delims delim r end.

Definition getColumnCount (lineBuffer : cstr) (delim : ascii) : nat := count_delims delim lineBuffer + 1.

(** [snprintf] into [len] bytes. *)
Definition itostr (i : nat) (len : nat) : cstr := take (len - 1) (print_lu (Z.of_nat i)).

Section Csvstorage.
Context {E : Env} (fopen : cstr -> option (list ascii)) (writable : cstr -> bool).
(** An error or a warning has a number and the arguments of its message. *)
Context (set_error add_warning : Z -> ptr -> list cstr -> M unit) (open_error : ptr -> M unit) (contract : M ptr).

(** Undefined behaviour where there is no result. *)
Definition some_or_undefined {A} (o : option A) : M A := match o with Some a => ret a | None => undefined end.

Fixpoint order_loop (fuel : nat) (ks : ptr) (n : nat) : M ptr :=
  match fuel with
  | O => nofuel
  | S fuel =>
      cur <- ksNext ks;;
      match cur with
      | None => ret None
      | Some _ =>
          m <- keyGetMeta cur (Some (lit "csv/order"));;
          s <- keyString m;;
          if bool_decide (strcmp s (itostr n (INTSTR_MAX - 1)) = 0%Z) then ret cur else order_loop fuel ks n
      end
  end.

Definition getKeyByOrderNr (ks : ptr) (n : nat) : M ptr :=
  ksRewind ks;; fuel <- ks_turns ks;; order_loop fuel ks n.

(** The column at the offset, with the warning. *)
Definition next_column (buf : block) (delim : ascii) (offset : nat) (parentKey : ptr) (lineNr : nat) : M (option (cstr * block)) :=
  p <- some_or_undefined (parseLine buf delim offset);;
  match p with
  | NoColumn => ret None
  | Column col buf => ret (Some (col, buf))
  | Unended col buf =>
      origLine <- some_or_undefined (block_cstr buf);;
      add_warning 136 parentKey [print_lu (Z.of_nat lineNr); origLine];;
      ret (Some (col, buf))
  end.

(** [colNames[colCounter]] *)
Definition column_name (colNames : list (option cstr)) (colCounter : nat) : M (option cstr) :=
  some_or_undefined (colNames !! colCounter).

(** [while ((col = parseLine (lineBuffer, delim, offset, parentKey, lineNr)) != NULL)], whose
    body moves the offset behind the column and counts it.  The result has the number of
    columns. *)
Fixpoint each_column {A} (fuel : nat) (buf : block) (delim : ascii) (offset : nat) (parentKey : ptr) (lineNr : nat)
    (body : A -> nat -> cstr -> M A) (colCounter : nat) (a : A) : M (block * nat * A) :=
  match fuel with
  | O => nofuel
  | S fuel =>
      c <- next_column buf delim offset parentKey lineNr;;
      match c with
      | None => ret (buf, colCounter, a)
      | Some (col, buf) =>
          a <- body a colCounter col;;
          each_column fuel buf delim (offset + S (length col)) parentKey lineNr body (S colCounter) a
      end
  end.

Definition columns_of {A} (buf : block) (delim : ascii) (parentKey : ptr) (lineNr : nat) (body : A -> nat -> cstr -> M A) (a : A) :
    M (block * nat * A) := each_column (S (length buf)) buf delim 0 parentKey lineNr body 0 a.

(** The name of a column from the first line, which is read again as the first row. *)
Definition header_column (parentKey : ptr) (colNames : option (list (option cstr))) (header : loc) (_ : unit) (colCounter : nat)
    (col : cstr) : M unit :=
  key <- keyDup parentKey;;
  (match colNames with
   | Some names => n <- column_name names colCounter;; keyAddBaseName key n
   | None => keyAddBaseName key (Some col)
   end);;
  keySetMeta key (Some (lit "csv/order")) (Some (itostr colCounter (INTSTR_MAX - 1)));;
  ksAppendKey (Some header) key;;
  ret tt.

(** The columns from [colCounter] on get the names of array elements; the result is
    whether all did. *)
Fixpoint number_columns (n : nat) (key : ptr) (colNames : option (list (option cstr))) (header : loc) (colCounter : nat) : M bool :=
  match n with
  | O => ret true
  | S n =>
      r <- elektraArrayIncName key;;
      if (r =? -1)%Z then ret false
      else
        keySetMeta key (Some (lit "csv/order")) (Some (itostr colCounter (INTSTR_MAX - 1)));;
        (match colNames with
         | Some names => s <- column_name names colCounter;; keySetString key s
         | None => b <- keyBaseName key;; keySetString key b
         end);;
        d <- keyDup key;;
        ksAppendKey (Some header) d;;
        number_columns n key colNames header (S colCounter)
  end.

(** A column of a row; its base name is the result. *)
Definition row_column (dirKey returned : ptr) (useHeader : Z) (header : loc) (_ : option cstr) (colCounter : nat) (col : cstr) :
    M (option cstr) :=
  cur <- getKeyByOrderNr (Some header) colCounter;;
  key <- keyDup dirKey;;
  (if negb (useHeader =? 1)%Z then s <- keyString cur;; keyAddBaseName key (Some s)
   else b <- keyBaseName cur;; keyAddBaseName key b);;
  keySetString key (Some col);;
  keySetMeta key (Some (lit "csv/order")) (Some (itostr colCounter (INTSTR_MAX - 1)));;
  ksAppendKey returned key;;
  keyBaseName key.

(** The key of the row behind its columns; the result is whether there is a wrong number of
    columns that is an error. *)
Definition row_key (dirKey returned parentKey : ptr) (fixColumnCount : Z) (columns lineCounter colCounter : nat)
    (lastIndex : option cstr) : M bool :=
  keySetString dirKey lastIndex;;
  d <- keyDup dirKey;;
  ksAppendKey returned d;;
  if negb (colCounter =? columns) then
    if negb (fixColumnCount =? 0)%Z then set_error 117 parentKey [print_lu (Z.of_nat lineCounter)];; ret true
    else add_warning 118 parentKey [print_lu (Z.of_nat lineCounter)];; ret false
  else ret false.

(** [fgets] into the buffer. *)
Definition read_line (length : nat) (buf : block) (fp : stream) : M (bool * block * stream) :=
  match fgets length fp with
  | (None, fp) => ret (false, buf, fp)
  | (Some l, fp) => buf <- some_or_undefined (block_write (l ++ [NUL]) buf);; ret (true, buf, fp)
  end.

(** The result is -1 after an error. *)
Fixpoint rows_loop (fuel : nat) (fp : stream) (buf : block) (delim : ascii) (parentKey dirKey returned : ptr) (useHeader : Z)
    (fixColumnCount : Z) (columns : nat) (header : loc) (lineCounter : nat) : M Z :=
  match fuel with
  | O => nofuel
  | S fuel =>
      if st_eof fp then ret 1%Z
      else
        let* (len, fp) := some_or_undefined (getLineLength fp) in
        if len =? 0 then ret 1%Z
        else
          let* (_, buf, fp) := read_line len (block_realloc (len + 1) buf) fp in
          r <- elektraArrayIncName dirKey;;
          if (r =? -1)%Z then ret (-1)%Z
          else
            let* (buf, colCounter, lastIndex) :=
              columns_of buf delim parentKey lineCounter (row_column dirKey returned useHeader header) (Some (lit "#0")) in
            stop <- row_key dirKey returned parentKey fixColumnCount columns lineCounter colCounter lastIndex;;
            if stop : bool then ret (-1)%Z
            else rows_loop fuel fp buf delim parentKey dirKey returned useHeader fixColumnCount columns header (S lineCounter)
  end.

(** The columns without names in the file; the result is whether all got a name. *)
Definition numbered_header (parentKey : ptr) (columns : nat) (colNames : option (list (option cstr))) (header : loc) : M bool :=
  key <- keyDup parentKey;;
  keyAddName key (Some (lit "#"));;
  named <- number_columns columns key colNames header 0;;
  keyDel key;;
  ret named.

(** The columns from the first line, and where the first row starts; [None] after an error. *)
Definition read_header (fp : stream) (buf : block) (delim : ascii) (parentKey : ptr) (useHeader : Z) (columns : nat)
    (colNames : option (list (option cstr))) (header : loc) : M (option (block * stream)) :=
  if (useHeader =? 1)%Z then
    let* (buf, _, _) := columns_of buf delim parentKey 0 (header_column parentKey colNames header) tt in
    ret (Some (buf, fseek fp 0))
  else
    named <- numbered_header parentKey columns colNames header;;
    ret (if named : bool then Some (buf, if (useHeader =? 0)%Z then fseek fp 0 else fp) else None).

(** Behind the loop over the rows. *)
Definition csv_finish (returned parentKey dirKey : ptr) (header : loc) (r : Z) : M Z :=
  if (r =? -1)%Z then keyDel dirKey;; ksDel (Some header);; ret (-1)%Z
  else
    key <- keyDup parentKey;;
    b <- keyBaseName dirKey;;
    keySetString key b;;
    ksAppendKey returned key;;
    keyDel dirKey;;
    ksDel (Some header);;
    ret 1%Z.

Definition row_parent (parentKey : ptr) : M ptr := dirKey <- keyDup parentKey;; keyAddName dirKey (Some (lit "#"));; ret dirKey.

(** [csvRead] of the bytes of the file. *)
Definition csv_data (data : list ascii) (returned parentKey : ptr) (delim : ascii) (useHeader : Z) (fixColumnCount : Z)
    (colNames : option (list (option cstr))) : M Z :=
  let* (len, fp) := some_or_undefined (getLineLength (st_open data)) in
  if len =? 0 then add_warning 118 parentKey [];; ret (-2)%Z
  else
    let* (got, buf, fp) := read_line len (block_alloc (len + 1)) fp in
    if negb (got : bool) then set_error 116 parentKey [];; ret (-1)%Z
    else
      line <- some_or_undefined (block_cstr buf);;
      let columns := getColumnCount line delim in
      if negb (fixColumnCount =? 0)%Z && negb (Z.of_nat columns =? fixColumnCount)%Z then
        set_error 117 parentKey [];; ret (-1)%Z
      else
        header <- ksNew 0 [];;
        h <- read_header fp buf delim parentKey useHeader columns colNames header;;
        match h with
        | None => ksDel (Some header);; ret (-1)%Z
        | Some (buf, fp) =>
            dirKey <- row_parent parentKey;;
            r <- rows_loop (S (length data)) fp buf delim parentKey dirKey returned useHeader fixColumnCount columns header 0;;
            csv_finish returned parentKey dirKey header r
        end.

Definition csvRead (returned parentKey : ptr) (delim : ascii) (useHeader : Z) (fixColumnCount : Z)
    (colNames : option (list (option cstr))) : M Z :=
  fileName <- keyString parentKey;;
  match fopen fileName with
  | None => set_error 116 parentKey [fileName];; ret (-1)%Z
  | Some data => csv_data data returned parentKey delim useHeader fixColumnCount colNames
  end.

(** ** The plugin *)

(** The column names of the configuration, an empty one is NULL; more of them than
    the array was allocated for are written behind it. *)
Fixpoint names_loop (fuel : nat) (namesKS setNamesKey : ptr) (names : list (option cstr)) : M (list (option cstr)) :=
  match fuel with
  | O => nofuel
  | S fuel =>
      cur <- ksNext namesKS;;
      match cur with
      | None => ret names
      | Some _ =>
          n <- keyName cur;;
          m <- keyName setNamesKey;;
          match n, m with
          | Some n, Some m =>
              if bool_decide (strcmp n m = 0%Z) then names_loop fuel namesKS setNamesKey names
              else
                s <- keyString cur;;
                names_loop fuel namesKS setNamesKey (names ++ [if bool_decide (strcmp s [] = 0%Z) then None else Some s])
          | _, _ => undefined
          end
      end
  end.

Definition column_names (config setNamesKey : ptr) (fixColumnCount : Z) : M (option (list (option cstr))) :=
  namesKS <- ksCut config setNamesKey;;
  size <- ksGetSize namesKS;;
  let nrNames := ((size - 1) mod 2 ^ 64)%Z in
  colNames <- (if (nrNames =? fixColumnCount)%Z then
                 fuel <- ks_turns namesKS;;
                 names <- names_loop fuel namesKS setNamesKey [];;
                 if (nrNames <? Z.of_nat (length names))%Z then undefined else ret (Some names)
               else ret None);;
  ksAppend config namesKS;;
  ksDel namesKS;;
  ret colNames.

Definition delimiter (config : ptr) : M ascii :=
  delimKey <- env_ksLookupByName config (Some (lit "/delimiter")) 0;;
  match delimKey with None => ret ","%char | Some _ => s <- keyString delimKey;; ret (deref s) end.

Definition elektraCsvstorageGet (config returned parentKey : ptr) : M Z :=
  b <- is_named parentKey "system/elektra/modules/csvstorage";;
  if b : bool then
    contract <- contract;;
    ksAppend returned contract;;
    ksDel contract;;
    ret 1%Z
  else
    delim <- delimiter config;;
    readHeaderKey <- env_ksLookupByName config (Some (lit "/header")) 0;;
    useHeader <- match readHeaderKey with
                 | None => ret 0%Z
                 | Some _ =>
                     s <- keyString readHeaderKey;;
                     ret (if bool_decide (strcmp s (lit "colname") = 0%Z) then 1
                          else if bool_decide (strcmp s (lit "skip") = 0%Z) then -1 else 0)%Z
                 end;;
    fixColumnCountKey <- env_ksLookupByName config (Some (lit "/columns")) 0;;
    fixColumnCount <- match fixColumnCountKey with
                      | None => ret 0%Z
                      | Some _ => s <- keyString fixColumnCountKey;; ret (atol s mod 2 ^ 64)%Z
                      end;;
    setNamesKey <- env_ksLookupByName config (Some (lit "/columns/names")) 0;;
    colNames <- match setNamesKey, fixColumnCountKey with
                | Some _, Some _ => column_names config setNamesKey fixColumnCount
                | _, _ => ret None
                end;;
    nr_keys <- csvRead returned parentKey delim useHeader fixColumnCount colNames;;
    ret (if (nr_keys =? -1)%Z then -1 else 1)%Z.

(** The columns of a row in the order of their numbers, behind what was written. *)
Fixpoint write_columns (fuel : nat) (toWriteKS : ptr) (delim : ascii) (colCounter : nat) (out : list ascii) : M (nat * list ascii) :=
  match fuel with
  | O => nofuel
  | S fuel =>
      toWrite <- getKeyByOrderNr toWriteKS colCounter;;
      match toWrite with
      | None => ret (colCounter, out)
      | Some _ =>
          s <- keyString toWrite;;
          write_columns fuel toWriteKS delim (S colCounter) (out ++ (if colCounter =? 0 then [] else [delim]) ++ s)
      end
  end.

Fixpoint write_rows (fuel : nat) (returned parentKey : ptr) (delim : ascii) (useHeader : Z) (columns lineCounter : nat)
    (out : list ascii) : M (Z * list ascii) :=
  match fuel with
  | O => nofuel
  | S fuel =>
      cur <- ksNext returned;;
      match cur with
      | None => ret (1%Z, out)
      | Some _ =>
          rel <- keyRel parentKey cur;;
          if negb (rel =? 1)%Z then write_rows fuel returned parentKey delim useHeader columns lineCounter out
          else if negb (useHeader =? 0)%Z then write_rows fuel returned parentKey delim 0 columns lineCounter out
          else
            toWriteKS <- ksCut returned cur;;
            turns <- ks_turns toWriteKS;;
            let* (colCounter, out) := write_columns turns toWriteKS delim 0 out in
            ksDel toWriteKS;;
            let out := out ++ [NEWLINE] in
            let columns := if columns =? 0 then colCounter else columns in
            if negb (colCounter =? columns) then set_error 117 parentKey [print_lu (Z.of_nat lineCounter)];; ret ((-1)%Z, out)
            else write_rows fuel returned parentKey delim useHeader columns (S lineCounter) out
      end
  end.

(** With the result comes what was written to the file. *)
Definition csvWrite (returned parentKey : ptr) (delim : ascii) (useHeader : Z) : M (Z * option (list ascii)) :=
  fileName <- keyString parentKey;;
  if negb (writable fileName) then open_error parentKey;; ret ((-1)%Z, None)
  else
    parent <- env_ksLookup returned parentKey KDB_O_POP;;
    keyDel parent;;
    fuel <- ks_turns returned;;
    let* (r, out) := write_rows fuel returned parentKey delim useHeader 0 0 [] in
    ret (r, Some out).

Definition elektraCsvstorageSet (config returned parentKey : ptr) : M (Z * option (list ascii)) :=
  outputDelim <- delimiter config;;
  useHeaderKey <- env_ksLookupByName config (Some (lit "/header")) 0;;
  s <- keyString useHeaderKey;;
  let useHeader := (if bool_decide (strcmp s (lit "skip") = 0%Z) then -1 else 0)%Z in
  let* (r, out) := csvWrite returned parentKey outputDelim useHeader in
  ret (if (r =? -1)%Z then (-1)%Z else 1%Z, out).
End Csvstorage.

(** ** Tables *)

(** A column may not have the delimiter, a newline or a NUL. *)
Definition field_ok (delim : ascii) (f : cstr) : Prop := delim ∉ f /\ NEWLINE ∉ f /\ NUL ∉ f.

Definition table : Type := list (list cstr).

Definition table_ok (delim : ascii) (t : table) : Prop := Forall (fun fs => fs <> [] /\ Forall (field_ok delim) fs) t.

Fixpoint row_text (delim : ascii) (fs : list cstr) : list ascii :=
  match fs with
  | [] => []
  | f :: fs => f ++ (if fs is [] then NEWLINE else delim) :: row_text delim fs
  end.

Definition table_text (delim : ascii) (t : table) : list ascii := concat (map (row_text delim) t).

Fixpoint each_field {A} (fs : list cstr) (body : A -> nat -> cstr -> M A) (colCounter : nat) (a : A) : M A :=
  match fs with [] => ret a | f :: fs => a <- body a colCounter f;; each_field fs body (S colCounter) a end.

Section Table.
Context {E : Env} (set_error add_warning : Z -> ptr -> list cstr -> M unit).

Fixpoint each_row (t : table) (parentKey dirKey returned : ptr) (useHeader : Z) (fixColumnCount : Z) (columns : nat) (header : loc)
    (lineCounter : nat) : M Z :=
  match t with
  | [] => ret 1%Z
  | fs :: t =>
      r <- elektraArrayIncName dirKey;;
      if (r =? -1)%Z then ret (-1)%Z
      else
        lastIndex <- each_field fs (row_column dirKey returned useHeader header) 0 (Some (lit "#0"));;
        stop <- row_key set_error add_warning dirKey returned parentKey fixColumnCount columns lineCounter (length fs) lastIndex;;
        if stop : bool then ret (-1)%Z
        else each_row t parentKey dirKey returned useHeader fixColumnCount columns header (S lineCounter)
  end.

(** What [csvRead] does with the rows of a table. *)
Definition read_table (t : table) (returned parentKey : ptr) (useHeader : Z) (fixColumnCount : Z) (colNames : option (list (option cstr))) :
    M Z :=
  match t with
  | [] => add_warning 118 parentKey [];; ret (-2)%Z
  | first :: rest =>
      let columns := length first in
      if negb (fixColumnCount =? 0)%Z && negb (Z.of_nat columns =? fixColumnCount)%Z then
        set_error 117 parentKey [];; ret (-1)%Z
      else
        header <- ksNew 0 [];;
        named <- (if (useHeader =? 1)%Z then each_field first (header_column parentKey colNames header) 0 tt;; ret true
                  else numbered_header parentKey columns colNames header);;
        if negb (named : bool) then ksDel (Some header);; ret (-1)%Z
        else
          dirKey <- row_parent parentKey;;
          r <- each_row (if ((useHeader =? 1) || (useHeader =? 0))%Z then t else rest) parentKey dirKey returned useHeader fixColumnCount
                 columns header 0;;
          csv_finish returned parentKey dirKey header r
  end.
End Table.
