(* ===== verification/CsvFacts.v ===== *)
(** * CsvFacts: reading a table reads its rows

    [csvRead] scans the bytes of a file through a buffer of one line.  For the text of a
    table it does the same as [read_table], which goes through the rows and columns of the
    table: the lengths of the lines, the buffer, the offsets and the fuel are right, and
    nothing is read behind what was written. *)
From S2P Require Export Csvstorage.
#[local] Open Scope elektra_scope.

(** ** Equal computations *)

Definition mequiv {A} (m1 m2 : M A) : Prop := forall h, m1 h = m2 h.
Infix "≡ₘ" := mequiv (at level 70) : elektra_scope.

#[global] Instance mequiv_equivalence A : Equivalence (@mequiv A).
Proof.
  split.
  - by intros m h.
  - intros m1 m2 H h. by rewrite H.
  - intros m1 m2 m3 H1 H2 h. by rewrite H1, H2.
Qed.

#[global] Instance bind_proper A B : Proper (mequiv ==> pointwise_relation A mequiv ==> mequiv) (@bindM A B).
Proof. intros m1 m2 Hm f1 f2 Hf h. unfold bindM. rewrite Hm. destruct (m2 h) as [a h'| |]; [apply Hf|done..]. Qed.

Lemma bind_ret {A B} (a : A) (f : A -> M B) : bindM (ret a) f ≡ₘ f a.
Proof. done. Qed.

Lemma bind_assoc {A B C} (m : M A) (f : A -> M B) (g : B -> M C) : bindM (bindM m f) g ≡ₘ bindM m (fun a => bindM (f a) g).
Proof. intros h. unfold bindM. by destruct (m h). Qed.

Lemma bind_ext {A B} (m : M A) (f g : A -> M B) : (forall a, f a ≡ₘ g a) -> bindM m f ≡ₘ bindM m g.
Proof. intros H. by apply bind_proper. Qed.

(** ** Blocks *)

Definition written (l : list ascii) : block := map Some l.

Lemma block_cstr_written s r : NUL ∉ s -> block_cstr (written (s ++ [NUL]) ++ r) = Some s.
Proof.
  induction s as [|c s IH]; intros H; [done|]. apply not_elem_of_cons in H as [Hc H].
  change (written ((c :: s) ++ [NUL]) ++ r) with (Some c :: (written (s ++ [NUL]) ++ r)). cbn [block_cstr].
  rewrite decide_False by done. by rewrite IH.
Qed.

Lemma block_set_in pre s t c d post :
  block_set (length pre + length s) c (pre ++ written (s ++ d :: t) ++ post) = (pre ++ written (s ++ [c])) ++ written t ++ post.
Proof.
  unfold block_set, written. rewrite insert_app_r, !map_app, <- !app_assoc. f_equal.
  rewrite insert_app_r_alt by (rewrite length_map; lia). rewrite length_map, Nat.sub_diag. done.
Qed.

Lemma index_of_app c s r : c ∉ s -> index_of c (s ++ c :: r) = Some (length s).
Proof.
  induction s as [|d s IH]; intros H; cbn [app index_of length]; [by rewrite decide_True|].
  apply not_elem_of_cons in H as [Hc H]. rewrite decide_False by congruence. by rewrite IH.
Qed.

Lemma index_of_none c s : c <> NUL -> c ∉ s -> index_of c s = None.
Proof.
  intros Hn. induction s as [|d s IH]; intros H; cbn [index_of]; [by rewrite decide_False|].
  apply not_elem_of_cons in H as [Hc H]. rewrite decide_False by congruence. by rewrite IH.
Qed.

Section Rows.
Context (delim : ascii) (Hnul : delim <> NUL) (Hnl : delim <> NEWLINE).

Lemma row_text_cons f fs : row_text delim (f :: fs) = f ++ (if fs is [] then NEWLINE else delim) :: row_text delim fs.
Proof. done. Qed.

Lemma row_no_nul fs : Forall (field_ok delim) fs -> NUL ∉ row_text delim fs.
Proof.
  induction 1 as [|f fs (_ & _ & Hf) _ IH]; [apply not_elem_of_nil|]. rewrite row_text_cons.
  apply not_elem_of_app. split; [done|]. apply not_elem_of_cons. split; [by destruct fs|done].
Qed.

Lemma row_length fs : length fs <= length (row_text delim fs).
Proof. induction fs as [|f fs IH]; [done|]. rewrite row_text_cons, length_app. cbn [length]. lia. Qed.

Lemma row_columns fs : fs <> [] -> Forall (field_ok delim) fs -> getColumnCount (row_text delim fs) delim = length fs.
Proof.
  assert (forall s r, delim ∉ s -> count_delims delim (s ++ r) = count_delims delim r) as Hskip.
  { induction s as [|c s IH]; intros r H; [done|]. apply not_elem_of_cons in H as [Hc H]. cbn [app count_delims].
    rewrite decide_False by congruence. by apply IH. }
  unfold getColumnCount. intros Hne H. induction H as [|f fs (Hf & _) Hfs IH]; [done|]. rewrite row_text_cons, Hskip by done.
  destruct fs as [|g fs]; cbn [count_delims length].
  - by rewrite decide_False by done.
  - rewrite decide_True by done. cbn [length] in IH. rewrite <- IH by done. lia.
Qed.

(** ** One line *)

(** The block when the columns of [fs] behind [pre] are not yet scanned, and the NUL that
    ends each column that is. *)
Definition line_block (pre : block) (fs : list cstr) (post : block) : block := pre ++ written (row_text delim fs ++ [NUL]) ++ post.

Lemma parseLine_end pre post : parseLine (line_block pre [] post) delim (length pre) = Some NoColumn.
Proof. unfold parseLine, line_block. by rewrite drop_app_length. Qed.

Lemma parseLine_column pre f fs post : Forall (field_ok delim) (f :: fs) ->
  parseLine (line_block pre (f :: fs) post) delim (length pre) = Some (Column f (line_block (pre ++ written (f ++ [NUL])) fs post)).
Proof.
  intros H. pose proof (row_no_nul _ H) as Hn. apply Forall_cons in H as [(Hd & Hl & _) Hfs].
  unfold parseLine, line_block. rewrite drop_app_length, block_cstr_written by done. rewrite row_text_cons.
  destruct (f ++ _) as [|c0 t0] eqn:E; [by destruct f|]. rewrite <- E. f_equal. rewrite <- app_assoc. cbn [app]. destruct fs as [|g fs].
  - rewrite index_of_none; [|done|]. 2: { apply not_elem_of_app. split; [done|]. cbn [row_text]. apply not_elem_of_cons. split; [done|apply not_elem_of_nil]. }
    unfold ends_line. cbn [row_text]. rewrite last_snoc, bool_decide_true, removelast_last by done. f_equal.
    rewrite length_app. cbn [length]. replace (S (length f + 1) - 2) with (length f) by lia. apply block_set_in.
  - rewrite index_of_app by done. rewrite take_app_length. f_equal. apply block_set_in.
Qed.

(** The block when all columns are scanned. *)
Definition scanned_block (pre : block) (fs : list cstr) (post : block) : block :=
  pre ++ written (concat (map (fun f => f ++ [NUL]) fs) ++ [NUL]) ++ post.

Lemma scanned_cons pre f fs post : scanned_block (pre ++ written (f ++ [NUL])) fs post = scanned_block pre (f :: fs) post.
Proof. unfold scanned_block, written. cbn [map concat]. by rewrite !map_app, <- !app_assoc. Qed.

Section Columns.
Context {E : Env} (add_warning : Z -> ptr -> list cstr -> M unit) (parentKey : ptr) (lineNr : nat).
Context {A : Type} (body : A -> nat -> cstr -> M A).

Lemma each_column_fields fs : Forall (field_ok delim) fs -> forall fuel pre post c a, length fs < fuel ->
  each_column add_warning fuel (line_block pre fs post) delim (length pre) parentKey lineNr body c a ≡ₘ
  bindM (each_field fs body c a) (fun a => ret (scanned_block pre fs post, c + length fs, a)).
Proof.
  induction fs as [|f fs IH]; intros Hok fuel pre post c a Hfuel; (destruct fuel as [|fuel]; [cbn [length] in Hfuel; lia|]);
    cbn [each_column]; unfold next_column.
  - rewrite parseLine_end. cbn [length]. rewrite Nat.add_0_r. done.
  - rewrite parseLine_column by done. apply Forall_cons in Hok as [_ Hok]. cbn [some_or_undefined].
    rewrite !bind_ret. cbn [each_field]. rewrite bind_assoc. apply bind_ext. intros b.
    assert (length pre + S (length f) = length (pre ++ written (f ++ [NUL]))) as ->.
    { rewrite length_app. unfold written. rewrite length_map, length_app. cbn [length]. lia. }
    rewrite IH by (done || (cbn [length] in Hfuel; lia)). rewrite scanned_cons. cbn [length]. by rewrite Nat.add_succ_r.
Qed.

Lemma columns_of_fields fs post a : Forall (field_ok delim) fs ->
  columns_of add_warning (line_block [] fs post) delim parentKey lineNr body a ≡ₘ
  bindM (each_field fs body 0 a) (fun a => ret (scanned_block [] fs post, length fs, a)).
Proof.
  intros Hok. unfold columns_of. apply (each_column_fields _ Hok _ []). unfold line_block, written.
  rewrite !length_app, length_map, length_app. pose proof (row_length fs). cbn [length]. lia.
Qed.
End Columns.

(** ** The lines of a file *)

Lemma scan_line_row fs r : fs <> [] -> Forall (field_ok delim) fs -> scan_line (row_text delim fs ++ r) = length (row_text delim fs).
Proof.
  assert (forall s t, NUL ∉ s -> NEWLINE ∉ s -> scan_line (s ++ t) = length s + scan_line t) as Hskip.
  { induction s as [|c s IH]; intros t H1 H2; [done|]. apply not_elem_of_cons in H1 as [Hc1 H1].
    apply not_elem_of_cons in H2 as [Hc2 H2]. cbn [app scan_line length]. rewrite !decide_False by congruence. by rewrite IH. }
  intros Hne H. induction H as [|f fs (Hd & Hl & Hn) Hfs IH]; [done|]. rewrite row_text_cons, <- app_assoc, Hskip, length_app by done.
  f_equal. cbn [app scan_line length]. destruct fs as [|g fs]; [done|]. rewrite !decide_False by done. by rewrite IH.
Qed.

Lemma row_first_line fs r : fs <> [] -> Forall (field_ok delim) fs -> first_line (row_text delim fs ++ r) = row_text delim fs.
Proof.
  assert (forall s t, NEWLINE ∉ s -> first_line (s ++ t) = s ++ first_line t) as Hskip.
  { induction s as [|c s IH]; intros t H; [done|]. apply not_elem_of_cons in H as [Hc H]. cbn [app first_line].
    rewrite decide_False by congruence. by rewrite IH. }
  intros Hne H. induction H as [|f fs (Hd & Hl & Hn) Hfs IH]; [done|]. rewrite row_text_cons, <- app_assoc, Hskip by done.
  f_equal. cbn [app first_line]. destruct fs as [|g fs]; [done|]. rewrite decide_False by done. by rewrite IH.
Qed.

Lemma row_ends fs : fs <> [] -> ends_line (row_text delim fs) = true.
Proof.
  intros Hne. unfold ends_line. rewrite bool_decide_eq_true. induction fs as [|f fs IH]; [done|]. rewrite row_text_cons, last_app_cons.
  destruct fs as [|g fs]; [done|]. by rewrite last_cons, IH.
Qed.

(** What is left of a file is the text of [t]. *)
Definition at_rows (data : list ascii) (t : table) (fp : stream) : Prop :=
  st_data fp = data /\ st_rest fp = table_text delim t /\ st_pos fp + length (st_rest fp) = length data /\ st_eof fp = false.

Lemma line_length data fs t fp : fs <> [] -> Forall (field_ok delim) fs -> (Z.of_nat (length data) <= INT_MAX)%Z -> at_rows data (fs :: t) fp ->
  getLineLength fp = Some (S (length (row_text delim fs)), fp).
Proof.
  intros Hne Hok Hmax (Hd & Hr & Hp & He). unfold getLineLength. rewrite Hr. cbn [table_text map concat].
  rewrite scan_line_row by done. rewrite Hr in Hp. unfold table_text in Hp. cbn [map concat] in Hp. rewrite length_app in Hp.
  destruct (Z.ltb_spec INT_MAX (Z.of_nat (st_pos fp + length (row_text delim fs)))); [lia|].
  assert (row_text delim fs <> []) as Hl by (destruct fs as [|[|c f] ?]; done).
  replace (st_pos fp + length (row_text delim fs) - st_pos fp) with (length (row_text delim fs)) by lia.
  destruct (Nat.eqb_spec (length (row_text delim fs)) 0) as [Hz|_]; [by apply nil_length_inv in Hz|].
  rewrite Nat.add_1_r. destruct fp as [d p e]. simpl in *. subst. done.
Qed.

Lemma fgets_row data fs t fp : fs <> [] -> Forall (field_ok delim) fs -> at_rows data (fs :: t) fp ->
  fgets (S (length (row_text delim fs))) fp = (Some (row_text delim fs), st_skip (length (row_text delim fs)) fp).
Proof.
  intros Hne Hok (_ & Hr & _). pose proof (row_ends fs Hne) as Hend. pose proof (row_first_line fs (table_text delim t) Hne Hok) as Hfl.
  assert (st_rest fp = row_text delim fs ++ table_text delim t) as Hr' by done. unfold fgets. rewrite Hr', Hfl, firstn_all.
  destruct (row_text delim fs) as [|c l] eqn:E; [done|]. cbn [length]. by rewrite Hend.
Qed.

Lemma at_rows_skip data fs t fp : at_rows data (fs :: t) fp -> at_rows data t (st_skip (length (row_text delim fs)) fp).
Proof.
  intros (Hd & Hr & Hp & He). assert (st_rest fp = row_text delim fs ++ table_text delim t) as Hr' by done.
  pose proof (rest_skip _ _ _ Hr') as Hs. split_and!; [done|done| |done]. rewrite Hs. rewrite Hr', length_app in Hp.
  unfold st_skip. cbn [st_pos]. lia.
Qed.

(** The line of the next row is in the buffer. *)
Lemma read_line_row data fs t fp buf : fs <> [] -> Forall (field_ok delim) fs -> at_rows data (fs :: t) fp ->
  S (length (row_text delim fs)) <= length buf ->
  exists post, read_line (S (length (row_text delim fs))) buf fp ≡ₘ ret (true, line_block [] fs post, st_skip (length (row_text delim fs)) fp).
Proof.
  intros Hne Hok Hat Hlen. exists (drop (length (row_text delim fs ++ [NUL])) buf). unfold read_line. rewrite (fgets_row data fs t) by done. unfold block_write.
  assert ((length buf <? length (row_text delim fs ++ [NUL])) = false) as ->.
  { apply Nat.ltb_ge. rewrite length_app. cbn [length]. lia. }
  done.
Qed.

Section Reading.
Context {E : Env} (set_error add_warning : Z -> ptr -> list cstr -> M unit) (parentKey returned : ptr) (useHeader fixColumnCount : Z).
Context (colNames : option (list (option cstr))).

Lemma rows_loop_rows data t : (Z.of_nat (length data) <= INT_MAX)%Z -> table_ok delim t ->
  forall fuel fp buf dirKey columns header lineCounter, at_rows data t fp -> length t < fuel ->
  rows_loop set_error add_warning fuel fp buf delim parentKey dirKey returned useHeader fixColumnCount columns header lineCounter ≡ₘ
  each_row set_error add_warning t parentKey dirKey returned useHeader fixColumnCount columns header lineCounter.
Proof.
  intros Hmax. induction 1 as [|fs t [Hne Hok] _ IH]; intros fuel fp buf dirKey columns header lineCounter Hat Hfuel;
    (destruct fuel as [|fuel]; [cbn [length] in Hfuel; lia|]); cbn [rows_loop]; pose proof Hat as (Hd & Hr & Hp & He); rewrite He.
  - unfold getLineLength. rewrite Hr. cbn [table_text map concat scan_line]. rewrite Hr in Hp. cbn in Hp.
    destruct (Z.ltb_spec INT_MAX (Z.of_nat (st_pos fp + 0))); [lia|].
    replace (st_pos fp + 0 - st_pos fp) with 0 by lia. done.
  - rewrite (line_length data fs t) by done. cbn [some_or_undefined]. rewrite bind_ret. cbn beta iota. cbn [Nat.eqb].
    edestruct (read_line_row data fs t fp (block_realloc (S (length (row_text delim fs)) + 1) buf)) as [post ->]; [done..| |].
    { unfold block_realloc. rewrite length_app, length_take, length_replicate. lia. }
    rewrite bind_ret. cbn beta iota. cbn [each_row]. apply bind_ext. intros r. destruct (r =? -1)%Z; [done|].
    rewrite columns_of_fields, bind_assoc by done. apply bind_ext. intros lastIndex. rewrite bind_ret. apply bind_ext.
    intros [|]; [done|]. apply IH; [by apply at_rows_skip|cbn [length] in Hfuel; lia].
Qed.

Lemma at_rows_open t : at_rows (table_text delim t) t (st_open (table_text delim t)).
Proof. done. Qed.

Lemma table_length t : table_ok delim t -> length t <= length (table_text delim t).
Proof.
  induction 1 as [|fs t [Hne _] _ IH]; [done|]. unfold table_text in *. cbn [map concat length]. rewrite length_app.
  pose proof (row_length fs). destruct fs; [done|]. cbn [length] in *. lia.
Qed.

(** [csvRead] of the text of a table. *)
Lemma csv_data_table t : table_ok delim t -> (Z.of_nat (length (table_text delim t)) <= INT_MAX)%Z ->
  csv_data set_error add_warning (table_text delim t) returned parentKey delim useHeader fixColumnCount colNames ≡ₘ
  read_table set_error add_warning t returned parentKey useHeader fixColumnCount colNames.
Proof.
  intros Hok Hmax. pose proof (at_rows_open t) as Hat. pose proof (table_length t Hok) as Hlen. unfold csv_data.
  destruct t as [|first rest]; [done|]. pose proof Hok as [[Hne Hf] Hrest]%Forall_cons.
  rewrite (line_length (table_text delim (first :: rest)) first rest) by done. cbn [some_or_undefined]. rewrite bind_ret. cbn beta iota. cbn [Nat.eqb].
  edestruct (read_line_row _ first rest _ (block_alloc (S (length (row_text delim first)) + 1)) Hne Hf Hat) as [post ->].
  { unfold block_alloc. rewrite length_replicate. lia. }
  rewrite bind_ret. cbn beta iota. cbn [negb]. unfold line_block at 1. cbn [app]. rewrite block_cstr_written by by apply row_no_nul.
  cbn [some_or_undefined]. rewrite bind_ret, row_columns by done. cbn [read_table].
  destruct (_ && _); [done|]. apply bind_ext. intros header. unfold read_header.
  assert (forall fp buf rows header, at_rows (table_text delim (first :: rest)) rows fp -> Forall (fun fs => fs <> [] /\ Forall (field_ok delim) fs) rows ->
    length rows <= length (first :: rest) ->
    bindM (row_parent parentKey) (fun dirKey => bindM (rows_loop set_error add_warning (S (length (table_text delim (first :: rest)))) fp buf
      delim parentKey dirKey returned useHeader fixColumnCount (length first) header 0) (csv_finish returned parentKey dirKey header)) ≡ₘ
    bindM (row_parent parentKey) (fun dirKey => bindM (each_row set_error add_warning rows parentKey dirKey returned useHeader fixColumnCount
      (length first) header 0) (csv_finish returned parentKey dirKey header))) as Hrows.
  { intros fp b rows hd Hfp Hrok Hn. apply bind_ext. intros dirKey. rewrite rows_loop_rows; [done|done|done|done|lia]. }
  destruct (Z.eqb_spec useHeader 1) as [->|H1].
  - rewrite columns_of_fields, !bind_assoc by done. apply bind_ext. intros []. rewrite !bind_ret. cbn beta iota. cbn [negb orb Z.eqb].
    apply Hrows; [done|done|lia].
  - rewrite bind_assoc. apply bind_ext. intros [|]; rewrite bind_ret; cbn [negb]; [|done]. cbn [orb].
    destruct (useHeader =? 0)%Z; (apply Hrows; [|done|cbn [length]; lia]); [done|]. by apply at_rows_skip.
Qed.
End Reading.
End Rows.

(** C28.  Reading a file that has the text of a table does the same as going through the rows and
    columns of the table, in every state and with every configuration of header, columns and
    names: no column is lost, split or read behind the buffer. *)
Theorem csvRead_reads_table {E : Env} (set_error add_warning : Z -> ptr -> list cstr -> M unit) (files : cstr -> option table) (delim : ascii)
    (returned parentKey : ptr) (useHeader fixColumnCount : Z) (colNames : option (list (option cstr))) :
  delim <> NUL -> delim <> NEWLINE ->
  (forall name t, files name = Some t -> table_ok delim t /\ (Z.of_nat (length (table_text delim t)) <= INT_MAX)%Z) ->
  csvRead (fun name => table_text delim <$> files name) set_error add_warning returned parentKey delim useHeader fixColumnCount colNames ≡ₘ
  bindM (keyString parentKey) (fun fileName =>
    match files fileName with
    | None => set_error 116%Z parentKey [fileName];; ret (-1)%Z
    | Some t => read_table set_error add_warning t returned parentKey useHeader fixColumnCount colNames
    end).
Proof.
  intros Hnul Hnl Hfiles. unfold csvRead. apply bind_ext. intros name. destruct (files name) as [t|] eqn:Et; [|done].
  destruct (Hfiles _ _ Et) as [Hok Hmax]. by apply csv_data_table.
Qed.
