(* ===== verification/Enum.v ===== *)
(** * Enum: values from a list

    [plugins/enum/enum.c]: the value of a key, or every element of it, has to be in the list or
    the array of its metadata [check/enum].  [regcomp] and [regexec] are parameters: whether the
    expression is compiled, and the end of a match and the range of its first group. *)
From S2P Require Export Boolean MetaLib.
#[local] Open Scope elektra_scope.

Record regmatch := mkMatch { m0_eo : nat; m1_so : nat; m1_eo : nat }.

(** The pieces of a string between the delimiters; a NUL ends the string. *)
Fixpoint split_at (delim : ascii) (s : cstr) : list cstr :=
  match s with
  | [] => [[]]
  | c :: r =>
      if decide (c = delim) then [] :: split_at delim r
      else match split_at delim r with t :: ts => (c :: t) :: ts | [] => [[c]] end
  end.

(** The quoted values one after the other, until [test] holds of one; [ptr] is what is
    left of the list.  A match is inside of it. *)
Fixpoint list_loop (regexec : cstr -> option regmatch) (fuel : nat) (ptr : cstr) (test : cstr -> bool) : M bool :=
  match fuel with
  | O => nofuel
  | S n =>
      match regexec ptr with
      | None => ret false
      | Some m =>
          if (m1_eo m <? m1_so m) || (length ptr <? m1_eo m) || (length ptr <? m0_eo m) then undefined
          else
            let value := take (m1_eo m - m1_so m) (drop (m1_so m) ptr) in
            if test value then ret true else list_loop regexec n (drop (m0_eo m) ptr) test
      end
  end.

Section Enum.
Context {E : Env} (regcomp : bool) (regexec : cstr -> option regmatch) (set_error : Z -> ptr -> list cstr -> M unit) (contract : M ptr).

Definition multi_delim (key : ptr) : M (option cstr) :=
  multiEnum <- keyGetMeta key (Some (lit "check/enum/multi"));;
  match multiEnum with None => ret None | Some _ => delim <- keyString multiEnum;; ret (Some delim) end.

Definition in_list (validValues value : cstr) : M bool :=
  list_loop regexec (S (length validValues)) validValues (fun v => bool_decide (strcmp value v = 0%Z)).

(** The elements of the value that are not empty; one that is in the list is enough. *)
Fixpoint any_in_list (validValues : cstr) (delim : ascii) (toCheck : list cstr) : M bool :=
  match toCheck with
  | [] => ret false
  | elem :: rest =>
      if bool_decide (deref elem = NUL) || bool_decide (deref elem = delim) then any_in_list validValues delim rest
      else found <- in_list validValues elem;; if found : bool then ret true else any_in_list validValues delim rest
  end.

Definition validateWithList (key : ptr) : M Z :=
  meta <- keyGetMeta key (Some (lit "check/enum"));;
  validValues <- keyString meta;;
  delim <- multi_delim key;;
  if negb regcomp then set_error 120 key [];; ret (-1)%Z
  else
    value <- keyString key;;
    found <- match delim with
             | None => in_list validValues value
             | Some delim => any_in_list validValues (deref delim) (split_at (deref delim) value)
             end;;
    ret (if found : bool then 1 else 0)%Z.

(** The value is searched in the array and its element is removed. *)
Definition take_value (validValues : ptr) (value : cstr) : M bool :=
  ksRewind validValues;;
  fuel <- ks_turns validValues;;
  ks_loop fuel validValues (fun cur =>
    s <- keyString (Some cur);;
    if bool_decide (strcmp value s = 0%Z) then
      popped <- env_ksLookup validValues (Some cur) KDB_O_POP;;
      keyDel popped;;
      ret (Some true)
    else ret None) (ret false).

Fixpoint take_values (validValues : ptr) (values : list cstr) (isValid : bool) : M bool :=
  match values with
  | [] => ret isValid
  | value :: rest => isValid <- take_value validValues value;; if isValid : bool then take_values validValues rest true else ret false
  end.

Definition validateWithArray (key : ptr) : M Z :=
  delim <- multi_delim key;;
  localString <- keyString key;;
  validValues <- elektraMetaArrayToKS key (lit "check/enum");;
  isValid <- take_values validValues (tokens (fun c => bool_decide (c ∈ default [] delim)) localString) false;;
  ksDel validValues;;
  ret (if isValid : bool then 1 else 0)%Z.

Definition validateKey (key : ptr) : M Z :=
  meta <- keyGetMeta key (Some (lit "check/enum"));;
  match meta with
  | None => ret 1%Z
  | Some _ => s <- keyString meta;; if negb (bool_decide (deref s = "#"%char)) then validateWithList key else validateWithArray key
  end.

Definition elektraEnumGet (returned parentKey : ptr) : M Z :=
  b <- is_named parentKey "system/elektra/modules/enum";;
  if b : bool then
    contract <- contract;;
    ksAppend returned contract;;
    ksDel contract;;
    ret 1%Z
  else ret 1%Z.

Definition elektraEnumSet (returned parentKey : ptr) : M Z :=
  fuel <- ks_turns returned;;
  ks_loop fuel returned (fun cur =>
    valid <- validateKey (Some cur);;
    if (valid =? 0)%Z then
      n <- keyName (Some cur);;
      s <- keyString (Some cur);;
      set_error 121 parentKey [default [] n; s];;
      ret (Some (-1)%Z)
    else ret None) (ret 1%Z).
End Enum.
