(* ===== verification/Glob.v ===== *)
(** * Glob: metadata for the keys a pattern matches

    [plugins/glob/glob.c]: keys of the configuration have patterns as values and their metadata
    is copied to all keys whose name matches, in the order of the configuration until one does.
    [fnmatch] and its flags, which are constants of the system, are parameters. *)
From S2P Require Export Boolean.
#[local] Open Scope elektra_scope.

Inductive GlobDirection := GET | SET.

Section Glob.
Context {E : Env} (FNM_NOESCAPE FNM_PATHNAME FNM_PERIOD : Z) (fnmatch : cstr -> cstr -> Z -> bool) (contract : M ptr).

Definition flagMaps : list (cstr * Z) := [(lit "noescape", FNM_NOESCAPE); (lit "pathname", FNM_PATHNAME); (lit "period", FNM_PERIOD)].

(** The flags of the names between commas; unknown names have none. *)
Definition glob_flags (globFlags : cstr) : Z :=
  fold_left (fun flags flagName =>
    fold_left (fun flags '(name, flag) => if bool_decide (strcmp flagName name = 0%Z) then Z.lor flags flag else flags) flagMaps flags)
    (tokens (fun c => bool_decide (c = ","%char)) globFlags) 0%Z.

Definition elektraGlobMatch (key match_ : ptr) (globFlags : cstr) : M bool :=
  pattern <- keyString match_;;
  n <- keyName key;;
  match n with
  | None => undefined
  | Some n => if fnmatch pattern n (glob_flags globFlags) then keyCopyAllMeta key match_;; ret true else ret false
  end.

Definition getGlobFlags (keys globKey : ptr) : M (option cstr) :=
  flagKey <- keyDup globKey;;
  keyAddBaseName flagKey (Some (lit "flags"));;
  flagResult <- env_ksLookup keys flagKey 0;;
  keyDel flagKey;;
  match flagResult with None => ret None | Some _ => s <- keyString flagResult;; ret (Some s) end.

(** One of the tests is not 0; -1 is an error and counts. *)
Fixpoint below_any (parents : list loc) (k : loc) : M bool :=
  match parents with
  | [] => ret false
  | p :: r => b <- keyIsDirectBelow (Some p) (Some k);; if negb (b =? 0)%Z then ret true else below_any r k
  end.

(** A key that begins with a slash is a pattern below the parent. *)
Definition glob_key (parentKey : ptr) (glob : loc) (k : loc) : M unit :=
  ins <- keyDup (Some k);;
  s <- keyString (Some k);;
  (if bool_decide (deref s = SLASH) then
     parentsize <- keyGetNameSize parentKey;;
     valsize <- keyGetValueSize (Some k);;
     n <- keyName parentKey;;
     match n with
     | None => undefined
     | Some n =>
         if ((valsize + parentsize) mod 2 ^ 64 <? Z.of_nat (length n + length s + 1))%Z then undefined
         else keySetString ins (Some (n ++ s));; ret tt
     end
   else ret tt);;
  ksAppendKey (Some glob) ins;;
  ret tt.

Fixpoint delete_all (ls : list loc) : M unit :=
  match ls with [] => ret tt | x :: r => keyDel (Some x);; delete_all r end.

Definition getGlobKeys (parentKey keys : ptr) (direction : GlobDirection) : M loc :=
  glob <- ksNew 0 [];;
  userGlobConfig <- keyNew (Some (lit "user/glob")) [];;
  systemGlobConfig <- keyNew (Some (lit "system/glob")) [];;
  let dir := match direction with GET => "/get" | SET => "/set" end%string in
  userDirGlobConfig <- keyNew (Some (lit ("user/glob" ++ dir))) [];;
  systemDirGlobConfig <- keyNew (Some (lit ("system/glob" ++ dir))) [];;
  fuel <- ks_turns keys;;
  each_key fuel keys (fun _ k =>
    below <- below_any [userGlobConfig; systemGlobConfig; userDirGlobConfig; systemDirGlobConfig] k;;
    if below : bool then
      flags <- getGlobFlags keys (Some k);;
      keySetMeta (Some k) (Some (lit "glob/flags")) flags;;
      valsize <- keyGetValueSize (Some k);;
      if (valsize mod 2 ^ 64 <? 2)%Z then ret tt else glob_key parentKey glob k
    else ret tt) tt;;
  delete_all [userGlobConfig; systemGlobConfig; userDirGlobConfig; systemDirGlobConfig];;
  ret glob.

(** The first pattern that matches. *)
Definition apply_first (glob : loc) (cur : loc) : M unit :=
  ksRewind (Some glob);;
  fuel <- ks_turns (Some glob);;
  ks_loop fuel (Some glob) (fun m =>
    flagKey <- keyGetMeta (Some m) (Some (lit "glob/flags"));;
    flags <- match flagKey with None => ret (lit "pathname") | Some _ => keyString flagKey end;;
    matchApplied <- elektraGlobMatch (Some cur) (Some m) flags;;
    ret (if matchApplied : bool then Some tt else None)) (ret tt).

Definition applyGlob (returned : ptr) (glob : loc) : M unit := for_each returned (fun _ cur => apply_first glob cur) tt.

Definition elektraGlobOpen : M Z := ret 1%Z.

(** The data of the plugin, which is never set. *)
Definition elektraGlobClose (data : ptr) : M Z := ksDel data;; ret 1%Z.

Definition elektraGlobGet (keys returned parentKey : ptr) : M Z :=
  b <- is_named parentKey "system/elektra/modules/glob";;
  if b : bool then
    config <- contract;;
    ksAppend returned config;;
    ksDel config;;
    ret 1%Z
  else
    ksRewind keys;;
    glob <- getGlobKeys parentKey keys GET;;
    applyGlob returned glob;;
    ksDel (Some glob);;
    ret 1%Z.

Definition elektraGlobSet (keys returned parentKey : ptr) : M Z :=
  ksRewind keys;;
  glob <- getGlobKeys parentKey keys SET;;
  applyGlob returned glob;;
  ksDel (Some glob);;
  ret 1%Z.
End Glob.
