(* ===== verification/Profile.v ===== *)
(** * Profile: links to the keys of a profile

    [plugins/profile/profile.c]: below [/sw], keys of the namespace spec are added whose metadata
    [override/#0] names the key of the current profile, or of the default profile.  The data of
    the plugin is an argument and a result; [fnmatch] with [FNM_PATHNAME] is a parameter. *)
From S2P Require Export Filter Ease.
#[local] Open Scope elektra_scope.

Definition PROFILEPATH : cstr := lit "*/sw/*/*/#*/profile".
Definition CURRENTPATH : cstr := lit "*/sw/*/*/#*/current".

Section Profile.
Context {E : Env} (fnmatch : cstr -> cstr -> bool) (contract : M ptr).

Definition elektraProfileOpen : M (Z * ptr) := ret (1%Z, None).

Definition elektraProfileClose (appendedKeys : ptr) : M Z :=
  (if appendedKeys is Some _ then ksDel appendedKeys else ret 0%Z);; ret 1%Z.

Definition namespace_key (ns : elektraNamespace) : M loc :=
  match ns with
  | KEY_NS_SPEC => keyNew (Some (lit "spec")) []
  | KEY_NS_DIR => keyNew (Some (lit "dir")) []
  | KEY_NS_USER => keyNew (Some (lit "user")) []
  | KEY_NS_SYSTEM => keyNew (Some (lit "system")) []
  | KEY_NS_PROC => keyNew (Some (lit "proc")) []
  | _ => keyNew (Some (lit "/")) [KEY_NAME_OPTION KEY_CASCADING_NAME]
  end.

Definition keyDupWithNS (origKey : ptr) (ns : elektraNamespace) : M ptr :=
  newKey <- namespace_key ns;;
  n <- keyName origKey;;
  match n with
  | None => undefined
  | Some n =>
      let relativeName := if bool_decide (deref n = SLASH) then tail n
                          else match strchr n SLASH with Some nextPtr => tail nextPtr | None => n end in
      keyAddName (Some newKey) (Some relativeName);;
      ret (Some newKey)
  end.

Definition same_name (k1 k2 : ptr) : M bool :=
  n1 <- keyName k1;;
  n2 <- keyName k2;;
  match n1, n2 with Some n1, Some n2 => ret (bool_decide (strcmp n1 n2 = 0%Z)) | _, _ => undefined end.

(** [keySetMeta (overrideKey, override/#0, keyName (cur))] and the copies in both keysets. *)
Definition add_override (swKS appendedKeys overrideKey : ptr) (cur : loc) : M unit :=
  n <- keyName (Some cur);;
  keySetMeta overrideKey (Some (lit "override/#0")) n;;
  d <- keyDup overrideKey;;
  ksAppendKey swKS d;;
  d <- keyDup overrideKey;;
  ksAppendKey appendedKeys d;;
  keyDel overrideKey;;
  ret tt.

(** A key of the profile is linked unless it exists below current. *)
Definition link_profile_key (swKS appendedKeys profileCutKey currentProfileKey : ptr) (cur : loc) : M unit :=
  same <- same_name (Some cur) profileCutKey;;
  if same : bool then ret tt
  else
    overrideKey <- keyDupWithNS currentProfileKey KEY_NS_SPEC;;
    relativeName <- elektraKeyGetRelativeName (Some cur) profileCutKey;;
    keyAddName overrideKey (Some relativeName);;
    ns <- keyGetNamespace currentProfileKey;;
    lookupKey <- keyDupWithNS overrideKey ns;;
    found <- env_ksLookup swKS lookupKey 0;;
    match found with
    | Some _ => keyDel lookupKey;; keyDel overrideKey;; ret tt
    | None => keyDel lookupKey;; add_override swKS appendedKeys overrideKey cur
    end.

Definition link_profile (swKS appendedKeys : ptr) (profileKey : loc) : M unit :=
  profileString <- keyString (Some profileKey);;
  profileCutKey <- keyDup (Some profileKey);;
  keyAddName profileCutKey (Some (lit ".."));;
  currentProfileKey <- keyDup profileCutKey;;
  keyAddBaseName currentProfileKey (Some (lit "current"));;
  keyAddBaseName profileCutKey (Some profileString);;
  profileKS <- ksCut swKS profileCutKey;;
  for_each profileKS (fun _ cur => link_profile_key swKS appendedKeys profileCutKey currentProfileKey cur) tt;;
  keyDel currentProfileKey;;
  keyDel profileCutKey;;
  ksAppend swKS profileKS;;
  ksDel profileKS;;
  ret tt.

Definition linkProfileKeys (swKS profileKeys appendedKeys : ptr) : M unit :=
  for_each profileKeys (fun _ profileKey => link_profile swKS appendedKeys profileKey) tt.

(** A key of the default profile is linked unless there is a link or a key already. *)
Definition link_default_key (swKS appendedKeys profileParent defaultCutKey currentProfileKey : ptr) (cur : loc) : M unit :=
  same <- same_name (Some cur) defaultCutKey;;
  if same : bool then ret tt
  else
    relativeName <- elektraKeyGetRelativeName (Some cur) defaultCutKey;;
    overrideKey <- keyDupWithNS currentProfileKey KEY_NS_SPEC;;
    keyAddName overrideKey (Some relativeName);;
    ns <- keyGetNamespace profileParent;;
    existingKey <- keyDupWithNS overrideKey ns;;
    found <- env_ksLookup swKS overrideKey 0;;
    found <- (if found is Some _ then ret found else env_ksLookup swKS existingKey 0);;
    match found with
    | Some _ => keyDel overrideKey;; keyDel existingKey;; ret tt
    | None => keyDel existingKey;; add_override swKS appendedKeys overrideKey cur
    end.

Definition link_default (swKS appendedKeys : ptr) (profileParent : loc) : M unit :=
  defaultCutKey <- keyDup (Some profileParent);;
  keyAddName defaultCutKey (Some (lit "%"));;
  defaultKS <- ksCut swKS defaultCutKey;;
  ksRewind defaultKS;;
  currentProfileKey <- keyDup (Some profileParent);;
  keyAddName currentProfileKey (Some (lit "current"));;
  fuel <- ks_turns defaultKS;;
  each_key fuel defaultKS (fun _ cur => link_default_key swKS appendedKeys (Some profileParent) defaultCutKey currentProfileKey cur) tt;;
  keyDel currentProfileKey;;
  keyDel defaultCutKey;;
  ksAppend swKS defaultKS;;
  ksDel defaultKS;;
  ret tt.

Definition linkDefaultKeys (swKS profileParents appendedKeys : ptr) : M unit :=
  for_each profileParents (fun _ profileParent => link_default swKS appendedKeys profileParent) tt.

(** The keys whose names match a pattern. *)
Definition matching (ks : ptr) (pattern : cstr) (act : loc -> M unit) : M unit :=
  for_each ks (fun _ cur =>
    n <- keyName (Some cur);;
    match n with None => undefined | Some n => if fnmatch pattern n then act cur else ret tt end) tt.

(** [appendedKeys] is freed before [linkDefaultKeys] appends to it. *)
Definition elektraProfileGet (data returned parentKey : ptr) : M Z :=
  b <- is_named parentKey "system/elektra/modules/profile";;
  if b : bool then
    contract <- contract;;
    ksAppend returned contract;;
    ksDel contract;;
    ret 1%Z
  else
    swKey <- keyNew (Some (lit "/sw")) [KEY_NAME_OPTION KEY_CASCADING_NAME];;
    swKS <- ksCut returned (Some swKey);;
    keyDel (Some swKey);;
    appendedKeys <- (match data with Some _ => ret data | None => ks <- ksNew 0 [];; ret (Some ks) end);;
    profileKeys <- ksNew 0 [];;
    matching swKS PROFILEPATH (fun cur => ksAppendKey (Some profileKeys) (Some cur);; ret tt);;
    linkProfileKeys swKS (Some profileKeys) appendedKeys;;
    ksDel (Some profileKeys);;
    ksDel appendedKeys;;
    profileParents <- ksNew 0 [];;
    matching swKS CURRENTPATH (fun cur =>
      profileParent <- keyDup (Some cur);;
      keyAddName profileParent (Some (lit ".."));;
      d <- keyDup profileParent;;
      ksAppendKey (Some profileParents) d;;
      keyDel profileParent;;
      ret tt);;
    linkDefaultKeys swKS (Some profileParents) appendedKeys;;
    ksDel (Some profileParents);;
    ksAppend returned swKS;;
    ksDel swKS;;
    ret 1%Z.

Definition elektraProfileSet (appendedKeys returned parentKey : ptr) : M (Z * ptr) :=
  match appendedKeys with
  | None => ret (1%Z, None)
  | Some _ =>
      for_each appendedKeys (fun _ cur => popped <- env_ksLookup returned (Some cur) KDB_O_POP;; keyDel popped;; ret tt) tt;;
      ksDel appendedKeys;;
      ret (1%Z, None)
  end.

Definition elektraProfileError (returned parentKey : ptr) : M Z := ret 1%Z.
End Profile.
