(* ===== verification/Keytometa.v ===== *)
(** * Keytometa: keys as metadata of other keys

    [plugins/keytometa/keytometa.c]: a key with metadata [convert/metaname] becomes a line of
    this metadata of the previous or next key that stays, or of its parent, and is kept aside;
    storing makes keys of the lines again.  The data of the plugin, the keys aside, is an argument
    and a result. *)
From S2P Require Export Boolean MetaLib Proposal.
#[local] Open Scope elektra_scope.

Definition CONVERT_METANAME : cstr := lit "convert/metaname".
Definition CONVERT_TARGET : cstr := lit "convert/to".
Definition CONVERT_APPEND_SAMELEVEL : cstr := lit "convert/append/samelevel".
Definition CONVERT_APPENDMODE : cstr := lit "convert/append".

Definition NEWLINE_CHAR : ascii := ascii_of_nat 10.

Section Keytometa.
Context {E : Env} (contract : M ptr).

Definition elektraKeyCmpOrderWrapper (a b : ptr) : M Z :=
  orderResult <- elektraKeyCmpOrder a b;;
  if (orderResult =? 0)%Z then keyCmp a b else ret orderResult.

Fixpoint parent_loop (fuel : nat) (key : ptr) (ks : loc) : M ptr :=
  match fuel with
  | O => nofuel
  | S n =>
      current <- elektraKsPrev ks;;
      match current with
      | None => ret None
      | Some _ => b <- keyIsBelow current key;; if negb (b =? 0)%Z then ret current else parent_loop n key ks
      end
  end.

Definition findNearestParent (key : ptr) (ks : loc) : M ptr :=
  size <- ksGetSize (Some ks);;
  ksSetCursor (Some ks) (size - 1);;
  fuel <- ks_turns (Some ks);;
  parent_loop fuel key ks.

(** [keyGetString] into a buffer of the size of the value; without a string nothing is written. *)
Definition string_of_value (key : ptr) : M cstr :=
  size <- keyGetValueSize key;;
  let* (_, s) := keyGetString key true (Z.to_nat size) in
  match s with Some s => ret s | None => undefined end.

Definition elektraKeyAppendMetaLine (target : ptr) (metaName line : option cstr) : M Z :=
  match target, metaName, line with
  | Some _, Some _, Some line =>
      existingMeta <- keyGetMeta target metaName;;
      match existingMeta with
      | None =>
          keySetMeta target metaName (Some line);;
          m <- keyGetMeta target metaName;;
          keyGetValueSize m
      | Some _ =>
          buffer <- string_of_value existingMeta;;
          keySetMeta target metaName (Some (buffer ++ [NEWLINE_CHAR] ++ line));;
          m <- keyGetMeta target metaName;;
          keyGetValueSize m
      end
  | _, _, _ => ret 0%Z
  end.

Definition getAppendMode (key : ptr) : M cstr :=
  appendModeKey <- keyGetMeta key (Some CONVERT_APPENDMODE);;
  match appendModeKey with Some _ => keyString appendModeKey | None => ret (lit "next") end.

Definition removeKeyFromResult (convertKey target : ptr) (orig : loc) : M unit :=
  n <- keyName target;;
  keySetMeta convertKey (Some CONVERT_TARGET) n;;
  key <- env_ksLookup (Some orig) convertKey KDB_O_POP;;
  keyDel key;;
  ret tt.

(** The key that gets the line: none when the key wants the same level and the target has another. *)
Definition same_level_target (current : loc) (target : ptr) : M ptr :=
  currentDup <- keyDup (Some current);;
  targetDup <- keyDup target;;
  keySetBaseName currentDup None;;
  keySetBaseName targetDup None;;
  sameLevel <- keyGetMeta (Some current) (Some CONVERT_APPEND_SAMELEVEL);;
  other <- (match sameLevel with None => ret false | Some _ => c <- keyCmp currentDup targetDup;; ret (negb (c =? 0)%Z) end);;
  keyDel currentDup;;
  keyDel targetDup;;
  ret (if other : bool then None else target).

Definition flush_key (target : ptr) (orig : loc) (current : loc) : M unit :=
  m <- keyGetMeta (Some current) (Some CONVERT_METANAME);;
  metaName <- keyString m;;
  appendTarget <- same_level_target current target;;
  appendTarget <- match appendTarget with Some _ => ret appendTarget | None => findNearestParent (Some current) orig end;;
  line <- keyString (Some current);;
  elektraKeyAppendMetaLine appendTarget (Some metaName) (Some line);;
  removeKeyFromResult (Some current) target orig.

Definition flushConvertedKeys (target : ptr) (converted orig : loc) : M unit :=
  size <- ksGetSize (Some converted);;
  if (size =? 0)%Z then ret tt
  else
    for_each (Some converted) (fun _ current => flush_key target orig current) tt;;
    ksClear converted;;
    ret tt.

Definition append_flush (result converted : loc) (target : ptr) (orig : loc) : M unit :=
  ksAppend (Some result) (Some converted);;
  flushConvertedKeys target converted orig.

(** A key that is converted goes to one of the keysets, or to its parent at once. *)
Definition convert_key (result prevConverted nextConverted orig : loc) (current : loc) : M unit :=
  appendMode <- getAppendMode (Some current);;
  m <- keyGetMeta (Some current) (Some CONVERT_METANAME);;
  metaName <- keyString m;;
  (if bool_decide (strcmp appendMode (lit "previous") = 0%Z) then ksAppendKey (Some prevConverted) (Some current);; ret tt else ret tt);;
  (if bool_decide (strcmp appendMode (lit "next") = 0%Z) then ksAppendKey (Some nextConverted) (Some current);; ret tt else ret tt);;
  if bool_decide (strcmp appendMode (lit "parent") = 0%Z) then
    parent <- findNearestParent (Some current) orig;;
    line <- keyString (Some current);;
    elektraKeyAppendMetaLine parent (Some metaName) (Some line);;
    ksAppendKey (Some result) (Some current);;
    removeKeyFromResult (Some current) parent orig
  else ret tt.

Fixpoint convert_loop (keyArray : list loc) (prevAppendTarget : ptr) (result prevConverted nextConverted orig : loc) : M ptr :=
  match keyArray with
  | [] => ret prevAppendTarget
  | current :: rest =>
      m <- keyGetMeta (Some current) (Some CONVERT_METANAME);;
      match m with
      | None =>
          append_flush result prevConverted prevAppendTarget orig;;
          append_flush result nextConverted (Some current) orig;;
          convert_loop rest (Some current) result prevConverted nextConverted orig
      | Some _ =>
          convert_key result prevConverted nextConverted orig current;;
          convert_loop rest prevAppendTarget result prevConverted nextConverted orig
      end
  end.

Definition convertKeys (keyArray : list loc) (orig : loc) : M loc :=
  prevConverted <- ksNew 0 [];;
  nextConverted <- ksNew 0 [];;
  result <- ksNew 0 [];;
  prevAppendTarget <- convert_loop keyArray None result prevConverted nextConverted orig;;
  append_flush result prevConverted prevAppendTarget orig;;
  append_flush result nextConverted None orig;;
  ksDel (Some nextConverted);;
  ksDel (Some prevConverted);;
  ret result.

Definition elektraKeyToMetaGet (data : ptr) (returned : loc) (parentKey : ptr) : M (Z * ptr) :=
  b <- is_named parentKey "system/elektra/modules/keytometa";;
  if b : bool then
    info <- contract;;
    ksAppend (Some returned) info;;
    ksDel info;;
    ret (1%Z, data)
  else
    keyArray <- elektraKsToMemArray (Some returned);;
    keyArray <- sort_array elektraKeyCmpOrderWrapper keyArray;;
    convertedKeys <- convertKeys keyArray returned;;
    (if data is Some _ then ksDel data;; ret tt else ret tt);;
    ret (1%Z, Some convertedKeys).

(** The value of the metadata the key was converted to, which is removed; the lines that are
    left of the last one otherwise.  Without the metadata [strtok_r] goes on where it never
    began. *)
Definition target_lines (target : loc) (previous : ptr) (metaName : cstr) (lines : list cstr) : M (list cstr) :=
  if decide (previous = Some target) then ret lines
  else
    valueKey <- keyGetMeta (Some target) (Some metaName);;
    match valueKey with
    | None => undefined
    | Some _ =>
        value <- string_of_value valueKey;;
        keySetMeta (Some target) (Some metaName) None;;
        ret (tokens (fun c => bool_decide (c = NEWLINE_CHAR)) value)
    end.

(** A key gets its line back; the lines and the target are what the next key goes on with. *)
Definition restore_line (returned : ptr) (current : loc) (previous : ptr) (lines : list cstr) : M (ptr * list cstr) :=
  targetName <- keyGetMeta (Some current) (Some CONVERT_TARGET);;
  metaName <- keyGetMeta (Some current) (Some CONVERT_METANAME);;
  match targetName, metaName with
  | Some _, Some _ =>
      n <- keyString targetName;;
      target <- env_ksLookupByName returned (Some n) 0;;
      match target with
      | None => ret (previous, lines)
      | Some t =>
          m <- keyString metaName;;
          lines <- target_lines t previous m lines;;
          keySetString (Some current) (head lines);;
          ret (target, tail lines)
      end
  | _, _ => ret (previous, lines)
  end.

Definition elektraKeyToMetaSet (converted returned parentKey : ptr) : M (Z * ptr) :=
  match converted with
  | None => ret (1%Z, None)
  | Some _ =>
      for_each converted (fun '(previous, lines) current =>
        let* (previous, lines) := restore_line returned current previous lines in
        keySetMeta (Some current) (Some CONVERT_TARGET) None;;
        keySetMeta (Some current) (Some CONVERT_METANAME) None;;
        ksAppendKey returned (Some current);;
        ret (previous, lines)) (None, []);;
      ksDel converted;;
      ret (1%Z, None)
  end.

Definition elektraKeyToMetaClose (old : ptr) : M Z := (if old is Some _ then ksDel old;; ret tt else ret tt);; ret 1%Z.
End Keytometa.
