(* ===== verification/Hosts.v ===== *)
(** * Hosts: the hosts file

    [plugins/hosts/hosts-get.c], [hosts-set.c] and [keymetaformatting.c]: an entry of the file
    becomes a key below [ipv4] or [ipv6] with its aliases below it; comments and blank lines are
    kept as an array of metadata, and the entries are written in the order of their metadata.
    Opening the file, its read errors and the family of an address are parameters. *)
From S2P Require Export Stdio Ease Filter Proposal MetaLib.
#[local] Open Scope elektra_scope.

Definition HOSTS_KDB_BUFFER_SIZE : nat := 16384.
Definition MAX_ORDER_SIZE : nat := 50.
Definition INT_MAX : Z := 2 ^ 31 - 1.
Definition TAB : ascii := ascii_of_nat 9.

(** ** Lines *)

Definition isblank (c : ascii) : bool := bool_decide (c = " "%char) || bool_decide (c = TAB).

Definition ends_token (c : ascii) : bool := isblank c || bool_decide (c = NEWLINE).

Definition elektraCountStartSpaces (line : cstr) : nat := fst (count_while isblank line).

(** The token and the rest of the line; [None] is the result 0. *)
Definition elektraParseToken (line : cstr) : option (cstr * cstr) :=
  let s := snd (count_while isblank line) in
  match s with
  | [] => None
  | c :: _ =>
      if decide (c = NEWLINE) then None
      else let (n, rest) := count_while (fun c => negb (ends_token c)) s in Some (take n s, rest)
  end.

(** The text before the first newline. *)
Fixpoint until_newline (s : cstr) : cstr :=
  match s with [] => [] | c :: r => if decide (c = NEWLINE) then [] else c :: until_newline r end.

Section Hosts.
Context {E : Env} (fopen : cstr -> option (list ascii)) (ferror : bool) (getaddrinfo : cstr -> option Z) (AF_INET6 : Z).
Context (writable : cstr -> bool) (open_error : ptr -> M unit) (set_error : Z -> ptr -> M unit) (contract : M ptr).

(** ** Comments *)

Definition elektraAddCommentInfo (comments commentBase : ptr) (spaces : nat) (commentStart comment : option cstr) : M unit :=
  keySetString commentBase comment;;
  (match commentStart with
   | None => ret tt
   | Some _ =>
       commentStartKey <- keyDup commentBase;;
       keyAddBaseName commentStartKey (Some (lit "start"));;
       keySetString commentStartKey commentStart;;
       ksAppendKey comments commentStartKey;;
       ret tt
   end);;
  ksAppendKey comments commentBase;;
  if (if commentStart is Some _ then true else false) || (0 <? spaces) then
    commentSpaceKey <- keyDup commentBase;;
    keyAddBaseName commentSpaceKey (Some (lit "space"));;
    keySetString commentSpaceKey (Some (print_d (uint32 (Z.of_nat spaces))));;
    ksAppendKey comments commentSpaceKey;;
    ret tt
  else ret tt.

Definition meta_key (name : string) : M ptr := k <- keyNew (Some (lit name)) [KEY_NAME_OPTION KEY_META_NAME];; ret (Some k).

Definition elektraAddLineComment (comments : ptr) (spaces : nat) (commentStart comment : option cstr) : M unit :=
  size <- ksGetSize comments;;
  lineComment <- (if (size =? 0)%Z then
                    lineComment <- meta_key "comment/#";;
                    elektraArrayIncName lineComment;;
                    ksAppendKey comments lineComment;;
                    elektraArrayGetNextKey comments
                  else
                    arrayBase <- meta_key "comment";;
                    array <- elektraArrayGet arrayBase comments;;
                    lineComment <- elektraArrayGetNextKey array;;
                    keyDel arrayBase;;
                    ksDel array;;
                    ret lineComment);;
  elektraAddCommentInfo comments lineComment spaces commentStart comment.

Definition elektraAddInlineComment (comments : ptr) (spaces : nat) (commentStart comment : option cstr) : M unit :=
  inlineComment <- meta_key "comment/#";;
  elektraArrayIncName inlineComment;;
  elektraAddCommentInfo comments inlineComment spaces commentStart comment.

(** ** Reading *)

Definition getAddressFamily (address : cstr) : Z := default (-1)%Z (getaddrinfo address).

Definition addAddressHierarchy (key : ptr) (fieldbuffer : cstr) : M unit :=
  keyAddBaseName key (Some (lit (if (getAddressFamily fieldbuffer =? AF_INET6)%Z then "ipv6" else "ipv4")));; ret tt.

Definition setOrderMeta (key : ptr) (order : nat) : M unit :=
  keySetMeta key (Some (lit "order")) (Some (take (MAX_ORDER_SIZE - 1) (print_d (uint32 (Z.of_nat order)))));; ret tt.

Definition parseComment (comments : ptr) (line commentStart : cstr) (constructor : ptr -> nat -> option cstr -> option cstr -> M unit) : M bool :=
  let spaces := elektraCountStartSpaces line in
  if bool_decide (deref (drop spaces line) = NEWLINE) then constructor comments spaces None None;; ret true
  else if bool_decide (strncmp (drop spaces line) commentStart (length commentStart) = 0%Z) then
    constructor comments spaces (Some commentStart) (Some (drop (spaces + length commentStart) (until_newline line)));; ret true
  else ret false.

(** The rest of the line behind the canonical name; NULL when address or name is missing. *)
Definition parseCanonicalName (result : ptr) (line : cstr) : M (option cstr) :=
  match elektraParseToken line with
  | None => ret None
  | Some (fieldBuffer, tokenPointer) =>
      addAddressHierarchy result fieldBuffer;;
      keySetString result (Some fieldBuffer);;
      match elektraParseToken tokenPointer with
      | None => ret None
      | Some (fieldBuffer, tokenPointer) => keyAddBaseName result (Some fieldBuffer);; ret (Some tokenPointer)
      end
  end.

Definition parseAlias (append hostParent : ptr) (tokenPointer : cstr) : M (option cstr) :=
  match elektraParseToken tokenPointer with
  | None => ret None
  | Some (fieldBuffer, tokenPointer) =>
      alias <- keyDup hostParent;;
      keyAddBaseName alias (Some fieldBuffer);;
      found <- env_ksLookup append alias 0;;
      (match found with Some _ => keyDel alias;; ret tt | None => ksAppendKey append alias;; ret tt end);;
      ret (Some tokenPointer)
  end.

Definition elektraKeySetMetaKeySet (key metaKeySet : ptr) : M Z :=
  match key, metaKeySet with
  | Some _, Some _ =>
      initialCursor <- ksGetCursor metaKeySet;;
      for_each metaKeySet (fun _ currentMeta =>
        n <- keyName (Some currentMeta);; s <- keyString (Some currentMeta);; keySetMeta key n (Some s);; ret tt) tt;;
      ksSetCursor metaKeySet initialCursor;;
      ret 1%Z
  | _, _ => ret 0%Z
  end.

(** Every token makes the line shorter. *)
Fixpoint alias_loop (fuel : nat) (comments append currentKey : ptr) (tokenPointer : cstr) : M unit :=
  match fuel with
  | O => nofuel
  | S n =>
      comment <- parseComment comments tokenPointer (lit "#") elektraAddInlineComment;;
      if comment : bool then ret tt
      else
        t <- parseAlias append currentKey tokenPointer;;
        match t with None => ret tt | Some tokenPointer => alias_loop n comments append currentKey tokenPointer end
  end.

(** A line: the key of the next entry and its order are the result. *)
Definition hosts_line (append : ptr) (comments : loc) (parentKey currentKey : ptr) (order : nat) (line : cstr) : M (ptr * nat) :=
  currentKey <- match currentKey with Some _ => ret currentKey | None => keyDup parentKey end;;
  comment <- parseComment (Some comments) line (lit "#") elektraAddLineComment;;
  if comment : bool then ret (currentKey, order)
  else
    t <- parseCanonicalName currentKey line;;
    match t with
    | None => ret (currentKey, order)
    | Some tokenPointer =>
        found <- env_ksLookup append currentKey 0;;
        match found with
        | Some _ => keyDel currentKey;; ksClear comments;; ret (None, order)
        | None =>
            setOrderMeta currentKey order;;
            ksAppendKey append currentKey;;
            alias_loop (S (length tokenPointer)) (Some comments) append currentKey tokenPointer;;
            elektraKeySetMetaKeySet currentKey (Some comments);;
            ksClear comments;;
            ret (None, S order)
        end
    end.

Fixpoint hosts_loop (fuel : nat) (fp : stream) (append : ptr) (comments : loc) (parentKey currentKey : ptr) (order : nat) : M ptr :=
  match fuel with
  | O => nofuel
  | S n =>
      match fgets HOSTS_KDB_BUFFER_SIZE fp with
      | (None, _) => ret currentKey
      | (Some readBuffer, fp) =>
          let* (currentKey, order) := hosts_line append comments parentKey currentKey order (default [] (cstr_of (readBuffer ++ [NUL]))) in
          hosts_loop n fp append comments parentKey currentKey order
      end
  end.

Definition elektraHostsGet (returned : loc) (parentKey : ptr) : M Z :=
  b <- is_named parentKey "system/elektra/modules/hosts";;
  if b : bool then
    moduleConfig <- contract;;
    ksAppend (Some returned) moduleConfig;;
    ksDel moduleConfig;;
    ret 1%Z
  else
    v <- keyValue parentKey;;
    fileName <- match v with None => undefined | Some v => as_cstr v end;;
    match fopen fileName with
    | None => open_error parentKey;; ret (-1)%Z
    | Some data =>
        ksClear returned;;
        size <- ksGetSize (Some returned);;
        append <- ksNew (Z.to_nat (size * 2)) [];;
        key <- keyDup parentKey;;
        ksAppendKey (Some append) key;;
        comments <- ksNew 0 [];;
        currentKey <- hosts_loop (S (length data)) (st_open data) (Some append) comments parentKey None 1;;
        keyDel currentKey;;
        elektraKeySetMetaKeySet parentKey (Some comments);;
        ksClear comments;;
        ksDel (Some comments);;
        if negb ferror then
          ksClear returned;;
          ksAppend (Some returned) (Some append);;
          ksDel (Some append);;
          ret 1%Z
        else set_error 10 parentKey;; ksDel (Some append);; ret (-1)%Z
    end.

(** ** Writing *)

(** [strtol] with the test that nothing follows the number; [None] when the loop that prints the
    spaces counts beyond an [int]. *)
Definition space_count (spaces : cstr) : option nat :=
  let s := snd (count_while isspace spaces) in
  let (neg, s) := match s with
                  | c :: r => if decide (c = "-"%char) then (true, r) else if decide (c = "+"%char) then (false, r) else (false, s)
                  | [] => (false, s)
                  end in
  if isdigit (deref s) then
    let (n, rest) := read_base 10 s 0 in
    match rest with
    | [] => if neg : bool then Some 0 else if (INT_MAX <? n)%Z then None else Some (Z.to_nat n)
    | _ => Some 0
    end
  else Some 0.

(** What is written. *)
Definition writeComment (spaces start comment : option cstr) : M (list ascii) :=
  n <- match spaces with
       | None => ret 0
       | Some s => match space_count s with Some n => ret n | None => undefined end
       end;;
  ret (replicate n " "%char ++ default [] start ++ default [] comment).

Definition getMetaValue (key : ptr) (metaName : option cstr) : M (option cstr) :=
  metaKey <- keyGetMeta key metaName;;
  match metaKey with None => ret None | Some _ => s <- keyString metaKey;; ret (Some s) end.

Definition line_comment (key : ptr) (out : list ascii) (current : loc) : M (list ascii) :=
  inline <- is_named (Some current) "comment/#0";;
  if inline : bool then ret out
  else
    spaceKey <- keyDup (Some current);;
    keyAddBaseName spaceKey (Some (lit "space"));;
    startKey <- keyDup (Some current);;
    keyAddBaseName startKey (Some (lit "start"));;
    n <- keyName spaceKey;;
    spaces <- getMetaValue key n;;
    n <- keyName startKey;;
    start <- getMetaValue key n;;
    n <- keyName (Some current);;
    comment <- getMetaValue key n;;
    keyDel spaceKey;;
    keyDel startKey;;
    text <- writeComment spaces start comment;;
    ret (out ++ text ++ [NEWLINE]).

Definition writeLineComments (key : ptr) (out : list ascii) : M (list ascii) :=
  metaKeys <- elektraKeyGetMetaKeySet key;;
  commentParent <- meta_key "comment";;
  comments <- elektraArrayGet commentParent metaKeys;;
  keyDel commentParent;;
  out <- for_each comments (line_comment key) out;;
  ksDel metaKeys;;
  ksDel comments;;
  ret out.

Definition writeInlineComment (key : ptr) (out : list ascii) : M (list ascii) :=
  spaces <- getMetaValue key (Some (lit "comment/#0/space"));;
  start <- getMetaValue key (Some (lit "comment/#0/start"));;
  comment <- getMetaValue key (Some (lit "comment/#0"));;
  text <- writeComment spaces start comment;;
  ret (out ++ text).

Definition printed_base_name (key : ptr) : M cstr :=
  b <- keyBaseName key;; match b with Some b => ret b | None => undefined end.

Definition writeHostsEntry (key returned : ptr) (out : list ascii) : M (list ascii) :=
  v <- keyValue key;;
  address <- match v with None => undefined | Some v => as_cstr v end;;
  name <- printed_base_name key;;
  env_ksLookup returned key 0;;
  fuel <- ks_turns returned;;
  let out := out ++ address ++ [TAB] ++ name in
  (fix loop (fuel : nat) (out : list ascii) : M (list ascii) :=
     match fuel with
     | O => nofuel
     | S n =>
         alias <- ksNext returned;;
         match alias with
         | None => ret out
         | Some _ =>
             r <- keyRel key alias;;
             if (r <? 1)%Z then ret out else b <- printed_base_name alias;; loop n (out ++ [" "%char] ++ b)
         end
     end) fuel out.

Fixpoint write_entries (keyArray : list loc) (ipv4Base ipv6Base returned : ptr) (out : list ascii) : M (list ascii) :=
  match keyArray with
  | [] => ret out
  | key :: rest =>
      b4 <- keyIsDirectBelow ipv4Base (Some key);;
      b6 <- (if (b4 =? 0)%Z then keyIsDirectBelow ipv6Base (Some key) else ret 1%Z);;
      if (b4 =? 0)%Z && (b6 =? 0)%Z then write_entries rest ipv4Base ipv6Base returned out
      else
        out <- writeLineComments (Some key) out;;
        out <- writeHostsEntry (Some key) returned out;;
        out <- writeInlineComment (Some key) out;;
        write_entries rest ipv4Base ipv6Base returned (out ++ [NEWLINE])
  end.

(** With the result comes what was written to the file. *)
Definition elektraHostsSet (returned parentKey : ptr) : M (Z * option (list ascii)) :=
  fileName <- keyString parentKey;;
  if negb (writable fileName) then open_error parentKey;; ret ((-1)%Z, None)
  else
    ksRewind returned;;
    keyArray <- elektraKsToMemArray returned;;
    keyArray <- sort_array elektraKeyCmpOrder keyArray;;
    ipv4Base <- keyDup parentKey;;
    keyAddBaseName ipv4Base (Some (lit "ipv4"));;
    ipv6Base <- keyDup parentKey;;
    keyAddBaseName ipv6Base (Some (lit "ipv6"));;
    out <- write_entries keyArray ipv4Base ipv6Base returned [];;
    out <- writeLineComments parentKey out;;
    keyDel ipv4Base;;
    keyDel ipv6Base;;
    ret (1%Z, Some out).
End Hosts.
