(* ===== verification/ListPlugin.v ===== *)
(** * ListPlugin: a list of plugins in one place

    [plugins/list/list.c]: the plugins of an array of the configuration are run one after the other
    wherever the plugin list itself is called, which depends on how often it was called before.
    The data of the plugin and the static variable [lastIndex] are arguments and results. *)
From S2P Require Export Plugin Ease.
#[local] Open Scope kdb_scope.

Definition getStrings : list string := ["pregetstorage"; "postgetstorage"; "postgetcleanup"].
Definition setStrings : list string := ["presetstorage"; "presetcleanup"; "precommit"; "postcommit"].
Definition errStrings : list string := ["prerollback"; "postrollback"].

Inductive OP := GET | SET | ERR.

(** The enumerations are their numbers; the placements in use are flags. *)
Record Placements := mkPlacements {
  errCurrent : nat;
  setCurrent : nat;
  getCurrent : nat;
  errPlacements : list bool;
  setPlacements : list bool;
  getPlacements : list bool;
  setKS : list loc;
  errKS : list loc;
  getKS : list loc;
  plugins : loc;
  modules : loc
}.

Definition with_current (op : OP) (p : Placements) (n : nat) : Placements :=
  match op with
  | GET => mkPlacements (errCurrent p) (setCurrent p) n (errPlacements p) (setPlacements p) (getPlacements p) (setKS p) (errKS p) (getKS p) (plugins p) (modules p)
  | SET => mkPlacements (errCurrent p) n (getCurrent p) (errPlacements p) (setPlacements p) (getPlacements p) (setKS p) (errKS p) (getKS p) (plugins p) (modules p)
  | ERR => mkPlacements n (setCurrent p) (getCurrent p) (errPlacements p) (setPlacements p) (getPlacements p) (setKS p) (errKS p) (getKS p) (plugins p) (modules p)
  end.

Definition with_placements (p : Placements) (s g e : list bool) : Placements :=
  mkPlacements (errCurrent p) (setCurrent p) (getCurrent p) e s g (setKS p) (errKS p) (getKS p) (plugins p) (modules p).

Definition current (op : OP) (p : Placements) : nat := match op with GET => getCurrent p | SET => setCurrent p | ERR => errCurrent p end.
Definition in_use (op : OP) (p : Placements) : list bool := match op with GET => getPlacements p | SET => setPlacements p | ERR => errPlacements p end.
Definition keysets (op : OP) (p : Placements) : list loc := match op with GET => getKS p | SET => setKS p | ERR => errKS p end.

(** [while (!placements->getPlacements[currentPlacement])]: the number that is kept is taken modulo
    the number of placements, the one that is tested is not; [None] behind the array. *)
Fixpoint skip_unused (fuel : nat) (flags : list bool) (currentPlacement kept : nat) : option nat :=
  match fuel with
  | O => None
  | S fuel =>
      match flags !! currentPlacement with
      | None => None
      | Some true => Some kept
      | Some false => skip_unused fuel flags (S currentPlacement) (S currentPlacement mod length flags)
      end
  end.

Definition next_placement (flags : list bool) (currentPlacement : nat) : option nat :=
  skip_unused (S (length flags)) flags (S currentPlacement) (S currentPlacement mod length flags).

Section List.
Context {E : Env} {MD : Modules} (contract : M ptr).

(** [strstr] of every name in the string of the key. *)
Definition flags_of (config : ptr) (name : string) (names : list string) (flags : list bool) : M (list bool) :=
  (key <- env_ksLookupByName config (Some (lit name)) 0;;
   match key with
   | None => ret flags
   | Some _ =>
       s <- keyString key;;
       ret (zip_with (fun f n => f || if strstr s (lit n) is Some _ then true else false) flags names)
   end)%elektra.

Fixpoint append_to (s : cstr) (names : list string) (kss : list loc) (cur : loc) (rc : Z) : M Z :=
  (match names, kss with
   | n :: names, ks :: kss =>
       if strstr s (lit n) is Some _ then
         d <- keyDup (Some cur);;
         ksAppendKey (Some ks) d;;
         append_to s names kss cur 1%Z
       else append_to s names kss cur rc
   | _, _ => ret rc
   end)%elektra.

Definition append_placement (cutKS lookup : ptr) (names : list string) (kss : list loc) (cur : loc) (rc : Z) : M Z :=
  (sub <- env_ksLookup cutKS lookup 0;;
   match sub with None => ret rc | Some _ => s <- keyString sub;; append_to s names kss cur rc end)%elektra.

(** The greatest element so far. *)
Definition last_index (lastIndex base : cstr) : cstr :=
  if bool_decide (deref base = "#"%char) && bool_decide (strcmp lastIndex base < 0)%Z then take (ELEKTRA_MAX_ARRAY_SIZE - 1) base else lastIndex.

Definition parse_plugin (placements : Placements) (key cutKS : ptr) (st : Z * cstr) (cur : loc) : M (Z * cstr) :=
  (let (rc, lastIndex) := st in
   rel <- keyRel key (Some cur);;
   if negb (rel =? 1)%Z then ret (rc, lastIndex)
   else
     base <- keyBaseName (Some cur);;
     match base with
     | None => undefined
     | Some base =>
         let lastIndex := last_index lastIndex base in
         lookup <- keyDup (Some cur);;
         keyAddBaseName lookup (Some (lit "placements"));;
         keyAddBaseName lookup (Some (lit "set"));;
         rc <- append_placement cutKS lookup setStrings (setKS placements) cur rc;;
         keySetBaseName lookup (Some (lit "get"));;
         rc <- append_placement cutKS lookup getStrings (getKS placements) cur rc;;
         keySetBaseName lookup (Some (lit "error"));;
         rc <- append_placement cutKS lookup errStrings (errKS placements) cur rc;;
         keyDel lookup;;
         ret (rc, lastIndex)
     end)%elektra.

Fixpoint parse_plugins (fuel : nat) (placements : Placements) (key cutKS : ptr) (st : Z * cstr) : M (Z * cstr) :=
  (match fuel with
   | O => nofuel
   | S n =>
       cur <- ksNext cutKS;;
       match cur with
       | None => ret st
       | Some c => st <- parse_plugin placements key cutKS st c;; parse_plugins n placements key cutKS st
       end
   end)%elektra.

(** With the result comes [lastIndex]. *)
Definition listParseConfiguration (placements : Placements) (config : ptr) (lastIndex : cstr) : M (Z * cstr) :=
  (key <- env_ksLookupByName config (Some (lit "/plugins")) 0;;
   cutKS <- ksCut config key;;
   ksRewind cutKS;;
   size <- ksGetSize cutKS;;
   if (size <? 2)%Z then ret (0%Z, lastIndex)
   else
     fuel <- ks_turns cutKS;;
     r <- parse_plugins fuel placements key cutKS (0%Z, lastIndex);;
     ksDel cutKS;;
     ret r)%elektra.

Definition new_keysets (n : nat) : M (list loc) :=
  (fix go (n : nat) : M (list loc) := match n with O => ret [] | S n => ks <- ksNew 0 [];; r <- go n;; ret (ks :: r) end)%elektra n.

Definition new_placements : M Placements :=
  (g <- new_keysets 3;;
   s <- new_keysets 4;;
   e <- new_keysets 2;;
   p <- ksNew 0 [];;
   m <- ksNew 0 [];;
   ret (mkPlacements 0 0 0 (replicate 2 false) (replicate 4 false) (replicate 3 false) s e g p m))%elektra.

Definition elektraListOpen (data : option Placements) (lastIndex : cstr) (config : ptr) : KM (Z * Placements * cstr) :=
  lift (placements <- match data with Some p => ret p | None => new_placements end;;
        modules_init (Some (modules placements)) None;;
        config <- ksDup config;;
        ksRewind config;;
        s <- flags_of config "/placements/set" setStrings (setPlacements placements);;
        g <- flags_of config "/placements/get" getStrings (getPlacements placements);;
        e <- flags_of config "/placements/error" errStrings (errPlacements placements);;
        let placements := with_placements placements s g e in
        let* (_, lastIndex) := listParseConfiguration placements config lastIndex in
        ksDel config;;
        ret (1%Z, placements, lastIndex))%elektra.

Definition slave_of (key : ptr) : KM ptr := v <- lift (keyValue key);; kret (bytes_ptr (default [] v)).

Definition elektraListClose (data : option Placements) (errorKey : ptr) : KM (Z * option Placements) :=
  match data with
  | None => kundefined
  | Some p =>
      kforM (getKS p ++ setKS p ++ errKS p) (fun ks => lift (ksDel (Some ks));; kret tt);;
      lift (ksRewind (Some (plugins p)));;
      kdb_ks_loop (Some (plugins p)) (fun cur =>
        slave <- slave_of (Some cur);;
        elektraPluginClose slave errorKey;;
        kret (None : option unit));;
      lift (ksDel (Some (plugins p)));;
      lift (modules_close (Some (modules p)) None);;
      lift (ksDel (Some (modules p)));;
      kret (1%Z, None)
  end.

(** The configuration of a plugin: its own keys renamed to [user], and those of [system] without
    the list. *)
Definition slave_config (configOrig current : ptr) : M ptr :=
  (userCutPoint <- keyNew (Some (lit "user")) [];;
   sysConfCutPoint <- keyNew (Some (lit "system")) [];;
   config <- ksDup configOrig;;
   sysConfigAll <- ksCut config (Some sysConfCutPoint);;
   userConfigAll <- ksCut config (Some userCutPoint);;
   pluginConfig <- ksCut userConfigAll current;;
   realPluginConfig <- elektraRenameKeys pluginConfig (lit "user");;
   ksDel pluginConfig;;
   toRemove <- keyNew (Some (lit "user/plugins")) [];;
   cut <- ksCut sysConfigAll (Some toRemove);;
   ksDel cut;;
   ksAppend realPluginConfig sysConfigAll;;
   keyDel (Some toRemove);;
   toRemove <- keyNew (Some (lit "user/placements")) [];;
   cut <- ksCut realPluginConfig (Some toRemove);;
   ksDel cut;;
   ksRewind realPluginConfig;;
   ksDel sysConfigAll;;
   ksDel userConfigAll;;
   ksDel config;;
   keyDel (Some userCutPoint);;
   keyDel (Some sysConfCutPoint);;
   keyDel (Some toRemove);;
   ret realPluginConfig)%elektra.

(** The plugin of the name, opened when it was not yet; [None] when it cannot be. *)
Definition find_slave (pluginKS : ptr) (modules plugins : loc) (configOrig parentKey current : ptr) : KM ptr :=
  name <- lift (keyString current);;
  searchKey <- lift (keyNew (Some (lit "/")) []);;
  lift (keyAddBaseName (Some searchKey) (Some name));;
  lookup <- lift (env_ksLookup (Some plugins) (Some searchKey) 0);;
  lift (keyDel (Some searchKey));;
  match lookup with
  | Some _ => slave_of lookup
  | None =>
      realPluginConfig <- lift (slave_config configOrig current);;
      d <- lift (ksDup realPluginConfig);;
      slave <- elektraPluginOpen (Some name) (Some modules) d parentKey;;
      lift (ksDel realPluginConfig);;
      match slave with
      | None => kret None
      | Some l =>
          slaveKey <- lift (keyNew (Some name) [KEY_BINARY; KEY_SIZE 8; KEY_VALUE (Some (ptr_bytes l))]);;
          lift (keySetName (Some slaveKey) (Some (lit "/")));;
          lift (keyAddBaseName (Some slaveKey) (Some name));;
          d <- lift (keyDup (Some slaveKey));;
          lift (ksAppendKey (Some plugins) d);;
          lift (keyDel (Some slaveKey));;
          kret slave
      end
  end.

Definition slave_fn (op : OP) (p : Plugin) : option plugin_fn :=
  match op with GET => p_kdbGet p | SET => p_kdbSet p | ERR => p_kdbError p end.

(** The plugins in the order of [traversalFunction], until one fails. *)
Fixpoint run_loop (fuel : nat) (pluginKS : ptr) (modules plugins : loc) (configOrig returned parentKey : ptr) (op : OP)
    (traversalFunction : ptr -> M ptr) : KM Z :=
  match fuel with
  | O => knofuel
  | S n =>
      current <- lift (traversalFunction pluginKS);;
      match current with
      | None => kret 1%Z
      | Some _ =>
          slave <- find_slave pluginKS modules plugins configOrig parentKey current;;
          match slave with
          | None => kret (-1)%Z
          | Some l =>
              p <- get_plugin slave;;
              r <- match slave_fn op p with None => kret 0%Z | Some fn => run_fn fn l returned parentKey end;;
              if (r =? -1)%Z then kret (-1)%Z
              else run_loop n pluginKS modules plugins configOrig returned parentKey op traversalFunction
          end
      end
  end.

Definition runPlugins (pluginKS : ptr) (modules plugins : loc) (configOrig returned parentKey : ptr) (op : OP)
    (traversalFunction : ptr -> M ptr) : KM Z :=
  fuel <- lift (ks_turns pluginKS);;
  r <- run_loop fuel pluginKS modules plugins configOrig returned parentKey op traversalFunction;;
  lift (ksDel configOrig);;
  kret r.

(** What [elektraListGet], [elektraListSet] and [elektraListError] share; there must be data. *)
Definition run_placement (op : OP) (traversalFunction : ptr -> M ptr) (data : option Placements) (config returned parentKey : ptr) :
    KM (Z * option Placements) :=
  match data with
  | None => kundefined
  | Some p =>
      match keysets op p !! current op p with
      | None => kundefined
      | Some ks =>
          pluginKS <- lift (ksDup (Some ks));;
          lift (ksRewind pluginKS);;
          configOrig <- lift (ksDup config);;
          r <- runPlugins pluginKS (modules p) (plugins p) configOrig returned parentKey op traversalFunction;;
          match next_placement (in_use op p) (current op p) with
          | None => kundefined
          | Some n => lift (ksDel pluginKS);; kret (r, Some (with_current op p n))
          end
      end
  end.

Definition elektraListGet (data : option Placements) (config returned parentKey : ptr) : KM (Z * option Placements) :=
  n <- lift (keyName parentKey);;
  match n with
  | None => kundefined
  | Some n =>
      if bool_decide (strcmp n (lit "system/elektra/modules/list") = 0%Z) then
        contract <- lift contract;;
        lift (ksAppend returned contract);;
        lift (ksDel contract);;
        kret (1%Z, data)
      else run_placement GET ksNext data config returned parentKey
  end.

Definition elektraListSet : option Placements -> ptr -> ptr -> ptr -> KM (Z * option Placements) := run_placement SET ksPop.
Definition elektraListError : option Placements -> ptr -> ptr -> ptr -> KM (Z * option Placements) := run_placement ERR ksPop.

(** The second key of the configuration of a plugin names the element that is added, behind all
    others, or edited. *)
Definition parse_element (accept : Z -> bool) (data : option Placements) (lastIndex : cstr) (pluginConfig : ptr) : M (Z * cstr) :=
  (match pluginConfig with
   | None => ret (0%Z, lastIndex)
   | Some _ =>
       ksRewind pluginConfig;;
       ksNext pluginConfig;;
       lookup <- ksNext pluginConfig;;
       base <- keyBaseName lookup;;
       match base with
       | None => undefined
       | Some base =>
           if negb (bool_decide (deref base = "#"%char)) then ret ((-1)%Z, lastIndex)
           else if negb (accept (strcmp lastIndex base)) then ret ((-1)%Z, lastIndex)
           else match data with
                | None => undefined
                | Some placements =>
                    conf <- ksDup pluginConfig;;
                    ksRewind conf;;
                    r <- listParseConfiguration placements conf lastIndex;;
                    ksDel conf;;
                    ret r
                end
       end
   end)%elektra.

Definition elektraListAddPlugin : option Placements -> cstr -> ptr -> M (Z * cstr) := parse_element (fun c => (c <? 0)%Z).
Definition elektraListEditPlugin : option Placements -> cstr -> ptr -> M (Z * cstr) := parse_element (fun c => (0 <=? c)%Z).
End List.

(** ** The next placement *)

(** The search ends at the first placement in use behind the current one, and leaves the array
    when there is none: it does not start again at the first placement. *)
Lemma skip_unused_spec fuel flags c kept : length flags < fuel + c -> kept = c mod length flags ->
  match skip_unused fuel flags c kept with
  | Some n => c <= n /\ flags !! n = Some true /\ forall j, c <= j < n -> flags !! j = Some false
  | None => forall j, c <= j -> flags !! j <> Some true
  end.
Proof.
  revert c kept. induction fuel as [|fuel IH]; intros c kept Hf ->; cbn [skip_unused].
  - intros j Hj Hl%lookup_lt_Some. lia.
  - destruct (flags !! c) as [[|]|] eqn:Hc.
    + apply lookup_lt_Some in Hc as Hlt. rewrite Nat.mod_small by done. split_and!; [lia|done|lia].
    + specialize (IH (S c) _ ltac:(lia) eq_refl). destruct (skip_unused _ _ _ _) as [n|].
      * destruct IH as (Hn & Ht & Hall). split_and!; [lia|done|]. intros j Hj.
        destruct (decide (j = c)) as [->|]; [done|apply Hall; lia].
      * intros j Hj. destruct (decide (j = c)) as [->|]; [congruence|apply IH; lia].
    + apply lookup_ge_None in Hc. intros j Hj Hl%lookup_lt_Some. lia.
Qed.

Lemma next_placement_spec flags c :
  match next_placement flags c with
  | Some n => c < n /\ flags !! n = Some true /\ forall j, c < j < n -> flags !! j = Some false
  | None => forall j, c < j -> flags !! j <> Some true
  end.
Proof. unfold next_placement. apply skip_unused_spec; [lia|done]. Qed.
