(* ===== verification/Checks.v ===== *)
(** * Checks: plugins that look at one key after the other

    [plugins/validation/validation.c], [plugins/path/path.c], [plugins/network/network.c],
    [plugins/error/error.c], [plugins/required/required.c], which refuses a keyset with a key that
    has neither metadata [required] nor [mandatory], and [plugins/iterate/iterate.c], which says
    whether a key has metadata [iterate].  What they ask the system, [regcomp] and [regexec], [stat] and
    [getaddrinfo], and the errors and warnings are parameters. *)
From S2P Require Export Boolean MetaLib Proposal.
#[local] Open Scope elektra_scope.

(** [toupper] of every character. *)
Definition upper (s : cstr) : cstr := map (fun c => byte (toupper (uchar c))) s.

(** ** validation *)

Record cflags := mkFlags { REG_NOSUB : bool; REG_EXTENDED : bool; REG_ICASE : bool; REG_NEWLINE : bool }.

(** [cflags &= REG_EXTENDED] *)
Definition only_extended (f : cflags) : cflags := mkFlags false (REG_EXTENDED f) false false.

Definition match_modes (matchCopy : cstr) : bool * bool :=
  let lineValidation := bool_decide (strcmp matchCopy (lit "LINE") = 0%Z) in
  let wordValidation := bool_decide (strcmp matchCopy (lit "WORD") = 0%Z) in
  if bool_decide (strcmp matchCopy (lit "ANY") = 0%Z) then (false, false) else (lineValidation, wordValidation).

Definition type_flags (typeCopy : cstr) (f : cflags) : cflags :=
  if bool_decide (strcmp typeCopy (lit "ERE") = 0%Z) then mkFlags (REG_NOSUB f) true (REG_ICASE f) (REG_NEWLINE f)
  else if bool_decide (strcmp typeCopy (lit "BRE") = 0%Z) then only_extended f else f.

Definition is_delimiter (c : ascii) : bool :=
  bool_decide (c = " "%char) || bool_decide (c = ascii_of_nat 9) || bool_decide (c = ascii_of_nat 10).

(** [strtok_r] on the bytes [rest] of a value that is behind [done]: the token, and the bytes with
    the NUL that ends it. *)
Definition next_token (done rest : list ascii) : option (cstr * list ascii * list ascii) :=
  let (n, s) := count_while is_delimiter rest in
  match s with
  | [] => None
  | c :: _ =>
      if decide (c = NUL) then None
      else
        let (m, after) := count_while (fun c => negb (is_delimiter c || bool_decide (c = NUL))) s in
        let token := take m s in
        match after with
        | [] => None
        | d :: r =>
            if decide (d = NUL) then Some (token, done ++ take n rest ++ token, after)
            else Some (token, done ++ take n rest ++ token ++ [NUL], r)
        end
  end.

Section Validation.
Context {E : Env} (regcomp : cstr -> cflags -> bool) (regexec : cstr -> cflags -> cstr -> bool).
Context (regerror : cstr) (set_error : Z -> ptr -> list cstr -> M unit) (contract : M ptr).

Definition has_meta (cur : ptr) (name : string) : M bool := m <- keyGetMeta cur (Some (lit name));; ret (if m is Some _ then true else false).

Definition meta_upper (cur : ptr) (name : string) : M (option cstr) :=
  m <- keyGetMeta cur (Some (lit name));;
  match m with None => ret None | Some _ => s <- keyString m;; ret (Some (upper s)) end.

(** The tokens are cut in the value of the key itself. *)
Fixpoint match_words (fuel : nat) (matches : cstr -> bool) (done rest : list ascii) : M (bool * list ascii) :=
  match fuel with
  | O => nofuel
  | S n =>
      match next_token done rest with
      | None => ret (false, done ++ rest)
      | Some (token, done, rest) => if matches token then ret (true, done ++ rest) else match_words n matches done rest
      end
  end.

(** The string of a binary key or of one without a value is a constant, which has nothing to cut. *)
Definition word_match (cur : loc) (matches : cstr -> bool) : M bool :=
  k <- get_key cur;;
  binary <- keyIsBinary (Some cur);;
  match k_data k with
  | None => ret false
  | Some d =>
      if negb (binary =? 0)%Z then ret (matches (lit "(binary)"))
      else
        keyString (Some cur);;
        let* (found, d) := match_words (S (length d)) matches [] d in
        put_key cur (set_data k (Some d));;
        ret found
  end.

Definition validate (parentKey : ptr) (cur : loc) : M (option Z) :=
  regexMeta <- keyGetMeta (Some cur) (Some (lit "check/validation"));;
  match regexMeta with
  | None => ret None
  | Some _ =>
      icaseValidation <- has_meta (Some cur) "check/validation/ignorecase";;
      matchMeta <- meta_upper (Some cur) "check/validation/match";;
      invertValidation <- has_meta (Some cur) "check/validation/invert";;
      typeMeta <- meta_upper (Some cur) "check/validation/type";;
      let (lineValidation, wordValidation) := match matchMeta with Some s => match_modes s | None => (false, false) end in
      let flags := mkFlags true true icaseValidation lineValidation in
      let flags := match typeMeta with Some s => type_flags s flags | None => flags end in
      size <- keyGetValueSize regexMeta;;
      s <- keyString regexMeta;;
      let anchored := lineValidation || wordValidation in
      if anchored && (size + 2 <? Z.of_nat (length s + 3))%Z then undefined
      else
        let regexString := if anchored then "^"%char :: s ++ ["$"%char] else s in
        if negb (regcomp regexString flags) then set_error 41 parentKey [regerror];; ret (Some (-1)%Z)
        else
          found <- (if negb wordValidation then v <- keyString (Some cur);; ret (regexec regexString flags v)
                    else word_match cur (regexec regexString flags));;
          let found := if invertValidation then negb found else found in
          if found then ret None
          else
            msg <- keyGetMeta (Some cur) (Some (lit "check/validation/message"));;
            text <- (match msg with Some _ => keyString msg | None => ret regerror end);;
            set_error 42 parentKey [text];;
            ret (Some (-1)%Z)
  end.

Definition elektraValidationGet (returned : ptr) : M Z := n <- contract;; ksAppend returned n;; ksDel n;; ret 1%Z.

Definition elektraValidationSet (returned parentKey : ptr) : M Z :=
  fuel <- ks_turns returned;; ks_loop fuel returned (validate parentKey) (ret 1%Z).
End Validation.

(** ** path and network *)

(** What [stat] says of a file. *)
Inductive file_type := S_ISBLK | S_ISDIR | S_OTHER.

Section System.
Context {E : Env} (stat : cstr -> option file_type) (strerror : cstr) (getaddrinfo : Z -> cstr -> Z) (gai_strerror : Z -> cstr).
Context (AF_UNSPEC AF_INET AF_INET6 : Z) (set_error add_warning : Z -> ptr -> list cstr -> M unit) (contract : M ptr).

Definition value_of (cur : loc) : M cstr := v <- keyValue (Some cur);; match v with None => undefined | Some v => as_cstr v end.

Definition check_path (parentKey : ptr) (cur : loc) : M (option Z) :=
  meta <- keyGetMeta (Some cur) (Some (lit "check/path"));;
  match meta with
  | None => ret None
  | Some _ =>
      s <- keyString (Some cur);;
      if existsb (fun n => bool_decide (strcmp s (lit n) = 0%Z)) ["proc"; "tmpfs"; "none"]%string then ret None
      else if negb (bool_decide (deref s = SLASH)) then set_error 56 parentKey [s];; ret (Some (-1)%Z)
      else
        m <- keyString meta;;
        match stat s with
        | None =>
            n <- keyName (Some cur);;
            v <- value_of cur;;
            add_warning 57 parentKey [strerror; default [] n; v];; ret None
        | Some t =>
            if bool_decide (strcmp m (lit "device") = 0%Z) then
              (if t is S_ISBLK then ret tt else add_warning 54 parentKey [s]);; ret None
            else if bool_decide (strcmp m (lit "directory") = 0%Z) then
              (if t is S_ISDIR then ret tt else add_warning 55 parentKey [s]);; ret None
            else ret None
        end
  end.

Definition elektraPathGet (returned : ptr) : M Z := n <- contract;; ksAppend returned n;; ksDel n;; ret 1%Z.

Definition elektraPathSet (returned parentKey : ptr) : M Z :=
  ksRewind returned;; fuel <- ks_turns returned;; ks_loop fuel returned (check_path parentKey) (ret 1%Z).

Definition elektraNetworkAddrInfo (toCheck : ptr) : M Z :=
  meta <- keyGetMeta toCheck (Some (lit "check/ipaddr"));;
  match meta with
  | None => ret 0%Z
  | Some _ =>
      m <- keyString meta;;
      let ai_family := if bool_decide (strcmp m (lit "ipv4") = 0%Z) then AF_INET
                       else if bool_decide (strcmp m (lit "ipv6") = 0%Z) then AF_INET6 else AF_UNSPEC in
      s <- keyString toCheck;;
      ret (getaddrinfo ai_family s)
  end.

Definition elektraNetworkGet (returned : ptr) : M Z := n <- contract;; ksAppend returned n;; ksDel n;; ret 1%Z.

Definition elektraNetworkSet (returned parentKey : ptr) : M Z :=
  ksRewind returned;;
  fuel <- ks_turns returned;;
  ks_loop fuel returned (fun cur =>
    s <- elektraNetworkAddrInfo (Some cur);;
    if negb (s =? 0)%Z then
      n <- keyName (Some cur);;
      v <- value_of cur;;
      set_error 51 parentKey [default [] n; v; gai_strerror s];;
      ret (Some (-1)%Z)
    else ret None) (ret 1%Z).
End System.

(** ** error *)

Section Error.
Context {E : Env} (elektraTriggerWarnings elektraTriggerError : Z -> ptr -> cstr -> M unit).
Context (elektraErrorSpecification contract : M ptr).

Definition elektraErrorOpen (conf parentKey : ptr) : M Z :=
  m <- env_ksLookupByName conf (Some (lit "/module")) 0;;
  match m with
  | Some _ => ret 0%Z
  | None =>
      warning <- env_ksLookupByName conf (Some (lit "/on_open/warnings")) 0;;
      (match warning with
       | Some _ => s <- keyString warning;; elektraTriggerWarnings (atoi s) parentKey (lit "from error plugin in kdbOpen")
       | None => ret tt
       end);;
      error <- env_ksLookupByName conf (Some (lit "/on_open/error")) 0;;
      match error with
      | Some _ =>
          (match parentKey with
           | Some _ => s <- keyString error;; elektraTriggerError (atoi s) parentKey (lit "from error plugin in kdbOpen")
           | None => ret tt
           end);;
          ret (-1)%Z
      | None => ret 0%Z
      end
  end.

Definition elektraErrorGet (returned parentKey : ptr) : M Z :=
  b <- is_named parentKey "system/elektra/modules/error";;
  if b : bool then
    n <- contract;;
    ksAppend returned n;;
    ksDel n;;
    n <- elektraErrorSpecification;;
    ksAppend returned n;;
    ksDel n;;
    ret 1%Z
  else ret 1%Z.

(** The number in the metadata is triggered; the result is whether the key has it. *)
Definition trigger (act : Z -> ptr -> cstr -> M unit) (parentKey : ptr) (cur : loc) (name : string) : M bool :=
  meta <- keyGetMeta (Some cur) (Some (lit name));;
  match meta with
  | None => ret false
  | Some _ => s <- keyString meta;; act (atoi s) parentKey (lit "from error plugin in kdbSet");; ret true
  end.

Definition elektraErrorSet (returned parentKey : ptr) : M Z :=
  fuel <- ks_turns returned;;
  ks_loop fuel returned (fun cur =>
    trigger elektraTriggerWarnings parentKey cur "trigger/warnings";;
    failed <- trigger elektraTriggerError parentKey cur "trigger/error";;
    if failed : bool then ret (Some (-1)%Z)
    else trigger elektraTriggerError parentKey cur "trigger/error/nofail";; ret None) (ret 0%Z).
End Error.

(** ** required and iterate *)

Section Required.
Context {E : Env} (set_error : Z -> ptr -> list cstr -> M unit) (contract : M ptr).

(** The metadata behind the cursor, counted. *)
Fixpoint count_meta (fuel : nat) (cur : ptr) (c : nat) : M nat :=
  match fuel with
  | O => nofuel
  | S n => m <- keyNextMeta cur;; match m with None => ret c | Some _ => count_meta n cur (S c) end
  end.

Definition elektraRequiredGet (returned parentKey : ptr) : M Z :=
  b <- is_named parentKey "system/elektra/modules/required";;
  if b : bool then
    contract <- contract;;
    ksAppend returned contract;;
    ksDel contract;;
    ret 1%Z
  else ret 1%Z.

Definition elektraRequiredSet (returned parentKey : ptr) : M Z :=
  ksRewind returned;;
  fuel <- ks_turns returned;;
  ks_loop fuel returned (fun cur =>
    meta <- keyGetMeta (Some cur) (Some (lit "required"));;
    match meta with
    | Some _ => ret None
    | None =>
        meta <- keyGetMeta (Some cur) (Some (lit "mandatory"));;
        match meta with
        | Some _ => ret None
        | None =>
            keyRewindMeta (Some cur);;
            fuel <- meta_fuel (Some cur);;
            c <- count_meta fuel (Some cur) 0;;
            n <- keyName (Some cur);;
            set_error 159 parentKey [default [] n; print_d (Z.of_nat c)];;
            ret (Some (-1)%Z)
        end
    end) (ret 1%Z).
End Required.

Section Iterate.
Context {E : Env} (contract : M ptr).

Definition elektraIterateOpen : M Z := ret 1%Z.
Definition elektraIterateClose : M Z := ret 1%Z.

Definition doIterate (returned : ptr) : M Z :=
  fuel <- ks_turns returned;;
  each_key fuel returned (fun r k =>
    m <- keyGetMeta (Some k) (Some (lit "iterate"));; ret (if m is Some _ then 1%Z else r)) 0%Z.

Definition elektraIterateGet (returned parentKey : ptr) : M Z :=
  b <- is_named parentKey "system/elektra/modules/iterate";;
  if b : bool then
    contract <- contract;;
    ksAppend returned contract;;
    ksDel contract;;
    ret 1%Z
  else doIterate returned.

Definition elektraIterateSet (returned parentKey : ptr) : M Z := doIterate returned.
Definition elektraIterateError (returned parentKey : ptr) : M Z := ret 1%Z.
End Iterate.

(** ** Words *)

Lemma count_while_split p s : let (n, t) := count_while p s in s = take n s ++ t /\ Forall (fun c => p c = true) (take n s).
Proof.
  induction s as [|c s IH]; [done|]. cbn [count_while]. destruct (p c) eqn:Hc; [|done].
  destruct (count_while p s) as [n t]. destruct IH as [IH1 IH2]. split; [cbn; by f_equal|by constructor].
Qed.

Lemma count_while_end p s : forall n d r, count_while p s = (n, d :: r) -> p d = false.
Proof.
  induction s as [|c s IH]; intros n d r; cbn [count_while]; [done|]. destruct (p c) eqn:Hc; [|congruence].
  destruct (count_while p s) as [m t] eqn:E. intros [= _ ->]. by eapply IH.
Qed.

(** Cutting a token overwrites one delimiter: the value keeps its size, and what was not a delimiter. *)
Lemma next_token_overwrites done rest token done' rest' : next_token done rest = Some (token, done', rest') ->
  Forall2 (fun c d => d = c \/ (d = NUL /\ is_delimiter c = true)) (done ++ rest) (done' ++ rest').
Proof.
  assert (forall l, Forall2 (fun c d => d = c \/ (d = NUL /\ is_delimiter c = true)) l l) as Hrefl by (induction l; constructor; auto).
  unfold next_token. pose proof (count_while_split is_delimiter rest) as H1. destruct (count_while is_delimiter rest) as [n s].
  destruct H1 as [H1 _]. destruct s as [|c s]; [done|]. destruct (decide _); [done|].
  pose proof (count_while_split (fun c => negb (is_delimiter c || bool_decide (c = NUL))) (c :: s)) as H2.
  pose proof (count_while_end (fun c => negb (is_delimiter c || bool_decide (c = NUL))) (c :: s)) as Hd.
  destruct (count_while _ (c :: s)) as [m after]. destruct H2 as [H2 _].
  destruct after as [|d r]; [done|]. specialize (Hd m d r eq_refl). apply negb_false_iff, orb_true_iff in Hd.
  rewrite H1, H2 at 1. destruct (decide _) as [->|Hn]; intros [= <- <- <-].
  - rewrite <- !app_assoc. rewrite <- (app_assoc _ _ (NUL :: r)) || idtac. apply Hrefl.
  - rewrite <- !app_assoc. do 3 (apply Forall2_app; [apply Hrefl|]). constructor; [|apply Hrefl]. right. destruct Hd as [Hd|Hd]; [done|].
    by apply bool_decide_eq_true in Hd.
Qed.
