(* ===== verification/Simpleini.v ===== *)
(** * Simpleini: keys and values in a format

    [plugins/simpleini/simpleini.c] with [elektraFormat]: the format of the configuration gets a
    directive for every percent sign, one format for reading and one for writing.  [fscanf] is a
    parameter: the number of parts or -1, the strings of the parts, and the stream behind them. *)
From S2P Require Export Stdio Ease Filter.
#[local] Open Scope elektra_scope.

Definition PERCENT : ascii := "%"%char.

(** What the loop writes for the characters of the format, its NUL included: [gotPercent] is whether
    the last one was a percent sign. *)
Fixpoint format_loop (userFormat : list ascii) (gotPercent : bool) : list ascii :=
  match userFormat with
  | [] => []
  | c :: r =>
      if gotPercent then
        (if decide (c = PERCENT) then [PERCENT; PERCENT; PERCENT] else ["s"%char; c]) ++ format_loop r false
      else c :: format_loop r (bool_decide (c = PERCENT))
  end.

(** [printf] with strings for the directives in their order; another directive or a missing string is
    undefined behaviour. *)
Fixpoint print_strings (format : cstr) (args : list cstr) : option cstr :=
  match format with
  | [] => Some []
  | c :: r =>
      if decide (c = PERCENT) then
        match r with
        | [] => None
        | d :: r =>
            if decide (d = PERCENT) then cons PERCENT <$> print_strings r args
            else if decide (d = "s"%char) then
              match args with [] => None | a :: args => app a <$> print_strings r args end
            else None
        end
      else cons c <$> print_strings r args
  end.

Section Simpleini.
Context {E : Env} (fopen : cstr -> option (list ascii)) (writable : cstr -> bool).
Context (fscanf : cstr -> stream -> Z * option cstr * option cstr * stream).
Context (open_error : ptr -> M unit) (set_error add_warning : Z -> ptr -> M unit) (contract : M ptr).

Definition defined (o : option cstr) : M cstr := match o with Some s => ret s | None => undefined end.

Definition default_format : cstr := lit "%s = %s" ++ [NEWLINE].

(** The bytes [keyString] points to. *)
Definition string_bytes (key : ptr) : M (list ascii) :=
  match key with
  | None => undefined
  | Some l =>
      k <- get_key l;;
      match k_data k with
      | None => ret [NUL]
      | Some d => b <- keyIsBinary key;; ret (if negb (b =? 0)%Z then lit "(binary)" ++ [NUL] else d)
      end
  end.

(** The format must fit into twice the bytes of the value and two more. *)
Definition user_format (key : ptr) : M cstr :=
  userFormatSize <- keyGetValueSize key;;
  userFormat <- string_bytes key;;
  let bytes := take (Z.to_nat userFormatSize) userFormat in
  if (Z.of_nat (length bytes) <? userFormatSize)%Z then undefined
  else
    let format := format_loop bytes false in
    if (2 * userFormatSize + 2 <? Z.of_nat (length format) + 1)%Z then undefined
    else ret (default [] (cstr_of (removelast format ++ [NEWLINE; NUL]))).

Definition getFormat (config : ptr) (first second : cstr) : M cstr :=
  key <- env_ksLookupByName config (Some (lit "/format")) 0;;
  format <- match key with None => ret default_format | Some _ => user_format key end;;
  defined (print_strings format [first; second]).

(** The keys that were read; [None] is an error. *)
Fixpoint read_loop (fuel : nat) (fp : stream) (format : cstr) (returned parentKey : ptr) (ksize : Z) (value : option cstr) :
    M (option stream) :=
  match fuel with
  | O => nofuel
  | S fuel =>
      let '(n, key, value', fp) := fscanf format fp in
      let value := match value' with Some _ => value' | None => value end in
      if (n <? 0)%Z then ret (Some fp)
      else if (n =? 0)%Z then read_loop fuel (snd (getline fp)) format returned parentKey ksize value
      else
        name <- keyName parentKey;;
        match name with
        | None => undefined
        | Some name =>
            read <- keyNew (Some name) [];;
            r <- keyAddName (Some read) key;;
            if (r =? -1)%Z then
              add_warning 59 parentKey;;
              keyDel (Some read);;
              read_loop fuel fp format returned parentKey ksize value
            else
              (if (n =? 2)%Z then keySetString (Some read) value else ret 0%Z);;
              size <- ksAppendKey returned (Some read);;
              if negb (size =? ksize + 1)%Z then set_error 60 parentKey;; ret None
              else read_loop fuel fp format returned parentKey (ksize + 1) (if (n =? 2)%Z then None else value)
        end
  end.

Definition elektraSimpleiniGet (config returned parentKey : ptr) : M Z :=
  b <- is_named parentKey "system/elektra/modules/simpleini";;
  if b : bool then
    moduleConfig <- contract;;
    ksAppend returned moduleConfig;;
    ksDel moduleConfig;;
    ret 1%Z
  else
    fileName <- keyString parentKey;;
    match fopen fileName with
    | None => open_error parentKey;; ret (-1)%Z
    | Some data =>
        format <- getFormat config (lit "%ms") (lit "%m[^" ++ [NEWLINE] ++ lit "]");;
        fp <- read_loop (S (length data)) (st_open data) format returned parentKey 0 None;;
        match fp with
        | None => ret (-1)%Z
        | Some fp => if negb (st_eof fp) then set_error 60 parentKey;; ret (-1)%Z else ret 1%Z
        end
    end.

(** With the result comes what was written to the file. *)
Definition elektraSimpleiniSet (config returned parentKey : ptr) : M (Z * option (list ascii)) :=
  fileName <- keyString parentKey;;
  if negb (writable fileName) then open_error parentKey;; ret ((-1)%Z, None)
  else
    format <- getFormat config (lit "%s") (lit "%s");;
    out <- for_each returned (fun out cur =>
      name <- elektraKeyGetRelativeName (Some cur) parentKey;;
      s <- keyString (Some cur);;
      line <- defined (print_strings format [name; s]);;
      ret (out ++ line)) [];;
    ret (1%Z, Some out).
End Simpleini.

(** ** The format *)

(** What a user format consists of: characters, escaped percent signs, and percent signs that stand for
    the name or the value. *)
Inductive piece := Char (c : ascii) | Escaped | Directive.

Definition user_text (p : piece) : cstr := match p with Char c => [c] | Escaped => [PERCENT; PERCENT] | Directive => [PERCENT] end.

(** A directive is followed by a character, or ends the format. *)
Fixpoint format_ok (ps : list piece) : Prop :=
  match ps with
  | [] => True
  | Char c :: r => c <> PERCENT /\ c <> NUL /\ format_ok r
  | Escaped :: r => format_ok r
  | Directive :: r => match r with [] => True | Char _ :: _ => format_ok r | _ => False end
  end.

(** The text with [args] for the directives and [esc] for an escaped percent sign. *)
Fixpoint fill (esc : cstr) (ps : list piece) (args : list cstr) : option cstr :=
  match ps with
  | [] => Some []
  | Char c :: r => cons c <$> fill esc r args
  | Escaped :: r => app esc <$> fill esc r args
  | Directive :: r => match args with [] => None | a :: args => app a <$> fill esc r args end
  end.

Definition built (ps : list piece) : cstr :=
  flat_map (fun p => match p with Char c => [c] | Escaped => replicate 4 PERCENT | Directive => [PERCENT; "s"%char] end) ps.

Lemma format_loop_built ps : format_ok ps -> format_loop (flat_map user_text ps ++ [NUL]) false = built ps ++ [NUL].
Proof.
  induction ps as [|[c| |] ps IH]; intros H; cbn [flat_map user_text app built].
  - done.
  - destruct H as (Hc & _ & H). cbn [format_loop]. rewrite bool_decide_false by done. by rewrite IH.
  - cbn [format_loop]. rewrite bool_decide_true, decide_True by done. cbn [app]. by rewrite IH.
  - destruct ps as [|[c| |] ps]; [done| |destruct H|destruct H]. specialize (IH H). destruct H as (Hc & _ & H).
    cbn [flat_map user_text app format_loop] in *. rewrite bool_decide_true by done. rewrite decide_False by done.
    rewrite bool_decide_false in IH by done. injection IH as IH. cbn [app]. by rewrite IH.
Qed.

Lemma print_built ps args : format_ok ps -> print_strings (built ps ++ [NEWLINE]) args = (fun s => s ++ [NEWLINE]) <$> fill [PERCENT; PERCENT] ps args.
Proof.
  revert args. induction ps as [|[c| |] ps IH]; intros args H; cbn [built flat_map app fill].
  - done.
  - destruct H as (Hc & _ & H). cbn [print_strings]. rewrite decide_False by done.
    unfold built in IH. rewrite IH by done. by destruct (fill _ ps args).
  - cbn [replicate app print_strings]. rewrite !decide_True by done.
    unfold built in IH. rewrite IH by done. by destruct (fill _ ps args).
  - assert (format_ok ps) as H' by (destruct ps as [|[] ?]; done). cbn [print_strings]. rewrite decide_True, decide_False by done.
    rewrite decide_True by done. destruct args as [|a args]; [done|]. unfold built in IH. rewrite IH by done.
    destruct (fill _ ps args); simpl; [by rewrite app_assoc|done].
Qed.

(** What the format for writing prints: the text with name and value, and one percent sign for an
    escaped one. *)
Lemma print_filled ps name value f : format_ok ps ->
  fill [PERCENT; PERCENT] ps [lit "%s"; lit "%s"] = Some f ->
  print_strings (f ++ [NEWLINE]) [name; value] = (fun s => s ++ [NEWLINE]) <$> fill [PERCENT] ps [name; value].
Proof.
  generalize name value. intros n v. revert f.
  assert (forall k ps f args, k <= 2 -> length args = k -> format_ok ps -> fill [PERCENT; PERCENT] ps (replicate k (lit "%s")) = Some f ->
    print_strings (f ++ [NEWLINE]) args = (fun s => s ++ [NEWLINE]) <$> fill [PERCENT] ps args) as Hgen.
  { clear. intros k ps. revert k. induction ps as [|[c| |] ps IH]; intros k f args Hk Hl H Hf; cbn [fill] in *.
    - by injection Hf as <-.
    - destruct H as (Hc & _ & H). destruct (fill _ ps _) as [g|] eqn:Eg; [|done]. injection Hf as <-. cbn [app print_strings].
      rewrite decide_False by done. rewrite (IH k g) by done. by destruct (fill [PERCENT] ps args).
    - destruct (fill _ ps _) as [g|] eqn:Eg; [|done]. injection Hf as <-. cbn [app print_strings]. rewrite !decide_True by done.
      rewrite (IH k g) by done. by destruct (fill [PERCENT] ps args).
    - assert (format_ok ps) as H' by (destruct ps as [|[] ?]; done). destruct k as [|k]; [done|]. cbn [replicate] in Hf.
      destruct args as [|a args]; [done|]. destruct (fill _ ps _) as [g|] eqn:Eg; [|done]. injection Hf as <-.
      cbn. rewrite (IH k g args) by (done || simpl in *; lia). destruct (fill [PERCENT] ps args); simpl; [by rewrite app_assoc|done]. }
  intros f H Hf. by apply (Hgen 2).
Qed.

(** The buffer is large enough for the format that is built. *)
Lemma built_length ps : length (built ps) <= 2 * length (flat_map user_text ps).
Proof.
  unfold built. induction ps as [|[c| |] ps IH]; cbn [flat_map user_text]; [done|..]; rewrite !length_app; cbn [length]; simpl in *; lia.
Qed.

Lemma no_nul_pieces ps : format_ok ps -> NUL ∉ flat_map user_text ps /\ NUL ∉ built ps.
Proof.
  induction ps as [|[c| |] ps IH]; intros H; cbn [flat_map user_text built].
  - split; apply not_elem_of_nil.
  - destruct H as (_ & Hc & H). destruct (IH H) as [H1 H2]. split; apply not_elem_of_cons; by split.
  - destruct (IH H) as [H1 H2]. split; repeat (apply not_elem_of_cons; split; [done|]); done.
  - assert (format_ok ps) as H' by (destruct ps as [|[] ?]; done). destruct (IH H') as [H1 H2].
    split; repeat (apply not_elem_of_cons; split; [done|]); done.
Qed.

Section FormatSpec.
Context {E : Env}.

Lemma user_format_spec K S l k ps : K !! l = Some k -> k_meta k = None -> k_data k = Some (flat_map user_text ps ++ [NUL]) -> format_ok ps ->
  wp (user_format (Some l)) (fun f h => f = built ps ++ [NEWLINE] /\ h = mkHeap K S) (mkHeap K S).
Proof.
  intros Hk Hm Hd Hok. destruct (no_nul_pieces ps Hok) as [_ Hnul]. pose proof (built_length ps) as Hlen.
  unfold user_format, keyGetValueSize. wsteps. rewrite Hd. wsteps. unfold string_bytes. wstep. wstep. rewrite Hd.
  unfold keyIsBinary. wstep. apply wp_bind. apply wp_bind. eapply keyGetMeta_none; [done..|]. wsteps. cbn [Z.eqb negb].
  set (t := flat_map user_text ps ++ [NUL]) in *. wsteps. rewrite Nat2Z.id, firstn_all.
  destruct (Z.ltb_spec (Z.of_nat (length t)) (Z.of_nat (length t))); [lia|].
  unfold t. rewrite format_loop_built by done.
  destruct (Z.ltb_spec (2 * Z.of_nat (length (flat_map user_text ps ++ [NUL])) + 2) (Z.of_nat (length (built ps ++ [NUL])) + 1)).
  { rewrite !length_app in *. simpl in *. lia. }
  apply wp_ret. rewrite removelast_last. split; [|done]. change [NEWLINE; NUL] with ([NEWLINE] ++ [NUL]). rewrite app_assoc.
  rewrite cstr_of_app; [done|]. apply Forall_app. split; [|by repeat constructor].
  apply Forall_forall. intros c Hc ->. done.
Qed.

(** A format with two directives: for every key the file gets the text of the format with its name and
    its value, and a newline. *)
Lemma format_prints K S l k ps : K !! l = Some k -> k_meta k = None -> k_data k = Some (flat_map user_text ps ++ [NUL]) -> format_ok ps ->
  is_Some (fill [PERCENT] ps [lit "%s"; lit "%s"]) ->
  wp (format <- user_format (Some l);; defined (print_strings format [lit "%s"; lit "%s"]))
    (fun f h => h = mkHeap K S /\ forall name value,
       print_strings f [name; value] = (fun s => s ++ [NEWLINE]) <$> fill [PERCENT] ps [name; value]) (mkHeap K S).
Proof.
  intros Hk Hm Hd Hok [x Hx]. apply wp_bind. eapply wp_mono; [by eapply user_format_spec|]. intros f h [-> ->].
  assert (forall e1 e2 args, is_Some (fill e1 ps args) -> is_Some (fill e2 ps args)) as Hany.
  { clear. induction ps as [|[c| |] ps IH]; intros e1 e2 args; cbn [fill]; [done|..]; rewrite ?fmap_is_Some; [apply IH..|].
    destruct args; [done|]. rewrite ?fmap_is_Some. apply IH. }
  destruct (Hany _ [PERCENT; PERCENT] _ (mk_is_Some _ _ Hx)) as [f Hf]. rewrite print_built, Hf by done. apply wp_ret.
  split; [done|]. intros name value. by apply print_filled.
Qed.
End FormatSpec.
