(* ===== verification/MetaLibFacts.v ===== *)
(** * MetaLibFacts: sorting keys by their dependencies

    The matrix [elektraSortTopology] collects is one its loop can resolve. *)
From S2P Require Export MetaLib TopSortFacts.

(** ** What a computation returns *)

Section Holds.
(** When [m] returns, its result satisfies [P]. *)
Definition holds {A} (m : M A) (P : A -> Prop) : Prop := forall h a h', m h = Ret a h' -> P a.

Lemma holds_ret {A} (a : A) (P : A -> Prop) : P a -> holds (ret a) P.
Proof. by intros HP h a' h' [= <- <-]. Qed.

Lemma holds_undefined {A} (P : A -> Prop) : holds undefined P.
Proof. by intros h a h' ?. Qed.

Lemma holds_nofuel {A} (P : A -> Prop) : holds nofuel P.
Proof. by intros h a h' ?. Qed.

Lemma holds_bind {A B} (m : M A) (f : A -> M B) (Q : A -> Prop) (P : B -> Prop) :
  holds m Q -> (forall a, Q a -> holds (f a) P) -> holds (bindM m f) P.
Proof.
  intros Hm Hf h b h' E. unfold bindM in E. destruct (m h) as [a h1| |] eqn:Em; [|done..]. by eapply Hf; [eapply Hm|].
Qed.

Lemma holds_skip {A B} (m : M A) (f : A -> M B) (P : B -> Prop) : (forall a, holds (f a) P) -> holds (bindM m f) P.
Proof. intros Hf. by apply (holds_bind _ _ (fun _ => True)); [|intros a _]. Qed.
End Holds.

Section Collect.
Context {E : Env}.
Implicit Types am : matrix.

(** The matrix while the dependencies of the keys before [j] are known. *)
Record collecting (n j : nat) am : Prop := {
  cl_length : length am = n;
  cl_deps : Forall (fun a => length (deps a) = n) am;
  cl_rows i k : dep am i k = true -> i < j /\ resolved am i = false;
  cl_later i : j <= i -> resolved am i = false
}.

Lemma dep_set_dep am j i x k : dep (alter (set_dep i) j am) x k = true -> dep am x k = true \/ x = j.
Proof.
  unfold dep. destruct (decide (x = j)) as [->|Hx]; [by right|]. rewrite list_lookup_alter_ne by done. by left.
Qed.

Lemma resolved_alter am f j x : (forall a, isResolved (f a) = isResolved a) -> resolved (alter f j am) x = resolved am x.
Proof.
  intros Hf. unfold resolved. destruct (decide (x = j)) as [->|Hx]; [|by rewrite list_lookup_alter_ne].
  rewrite list_lookup_alter_eq. destruct (am !! j); simpl; [by rewrite Hf|done].
Qed.

Lemma dep_alter am f j x k : (forall a, deps (f a) = deps a) -> dep (alter f j am) x k = dep am x k.
Proof.
  intros Hf. unfold dep. destruct (decide (x = j)) as [->|Hx]; [|by rewrite list_lookup_alter_ne].
  rewrite list_lookup_alter_eq. destruct (am !! j); simpl; [by rewrite Hf|done].
Qed.

Lemma alter_deps n am f j :
  (forall a, length (deps (f a)) = length (deps a)) -> Forall (fun a => length (deps a) = n) am ->
  Forall (fun a => length (deps a) = n) (alter f j am).
Proof. intros Hf H. apply Forall_alter; [done|]. intros a Ha. by rewrite Hf. Qed.

(** The row of [j] is filled; the other rows are those of before. *)
Record filling (n j : nat) am : Prop := {
  fi_length : length am = n;
  fi_deps : Forall (fun a => length (deps a) = n) am;
  fi_rows i k : dep am i k = true -> i <= j /\ resolved am i = false;
  fi_later i : j <= i -> resolved am i = false
}.

Lemma filling_set n j am i : filling n j am -> filling n j (alter (set_dep i) j am).
Proof.
  intros [H1 H2 H3 H4]. split.
  - by rewrite length_alter.
  - apply alter_deps; [|done]. intros a. simpl. by rewrite length_insert.
  - intros x k Hd. rewrite resolved_alter by done. apply dep_set_dep in Hd as [Hd| ->]; [by apply (H3 x k)|split; [lia|by apply H4]].
  - intros x Hx. rewrite resolved_alter by done. by apply H4.
Qed.

Lemma dep_loop_filling n fuel ds j am got :
  filling n j am -> holds (dep_loop fuel ds j am got) (fun r => filling n j (snd (fst r))).
Proof.
  revert am got. induction fuel as [|fuel IH]; intros am got Hf; [apply holds_nofuel|]. cbn [dep_loop].
  apply holds_skip. intros [d|]; [|by apply holds_ret]. apply holds_skip. intros s. apply holds_skip. intros valid.
  destruct (negb valid); [by apply holds_ret|]. apply holds_skip. intros [i|]; [|by apply IH].
  destruct (_ || _); [by apply IH|]. pose proof (filling_set n j am i Hf) as Hf'. destruct (dep _ _ _).
  - by apply holds_ret.
  - by apply IH.
Qed.

Lemma collect_deps_collecting oc donee st j cur n :
  collecting n j (co_matrix st) -> j < n ->
  holds (collect_deps oc donee st j cur) (fun t => match t with inl st' => collecting n (S j) (co_matrix st') | inr _ => True end).
Proof.
  intros [H1 H2 H3 H4] Hj. unfold collect_deps. do 5 (apply holds_skip; intros ?).
  destruct (_ || _).
  - do 2 (apply holds_skip; intros ?). apply holds_ret. simpl. split.
    + by rewrite length_alter.
    + by apply alter_deps.
    + intros i k Hd. rewrite dep_alter in Hd by done. destruct (H3 i k Hd) as [Hi Hr]. split; [lia|]. unfold resolved in *.
      rewrite list_lookup_alter_ne by lia. done.
    + intros i Hi. unfold resolved. rewrite list_lookup_alter_ne by lia. apply H4. lia.
  - apply holds_skip. intros fuel. eapply holds_bind.
    + apply (dep_loop_filling n). split; [done|done| |done]. intros i k Hd. destruct (H3 i k Hd). split; [lia|done].
    + intros [[rv am] got] [F1 F2 F3 F4]. simpl in *. do 2 (apply holds_skip; intros ?). apply holds_ret.
      destruct (rv <=? 0)%Z; [done|]. destruct (got =? 0); simpl; split.
      * done.
      * done.
      * intros i k Hd. destruct (F3 i k Hd). split; [lia|done].
      * intros i Hi. apply F4. lia.
      * by rewrite length_alter.
      * by apply alter_deps.
      * intros i k Hd. rewrite dep_alter in Hd by done. destruct (F3 i k Hd) as [Hi Hr]. split; [lia|]. unfold resolved in *.
        destruct (decide (i = j)) as [->|Hne]; [rewrite list_lookup_alter_eq; by destruct (am !! j)|by rewrite list_lookup_alter_ne].
      * intros i Hi. unfold resolved. rewrite list_lookup_alter_ne by lia. apply F4. lia.
Qed.

Lemma collect_loop_collecting oc donee st j l n :
  collecting n j (co_matrix st) -> j + length l <= n ->
  holds (collect_loop oc donee st j l) (fun t => match t with inl st' => collecting n (j + length l) (co_matrix st') | inr _ => True end).
Proof.
  revert st j. induction l as [|cur l IH]; intros st j Hc Hl; cbn [collect_loop].
  - apply holds_ret. simpl. by rewrite Nat.add_0_r.
  - simpl in Hl. eapply holds_bind; [apply (collect_deps_collecting _ _ _ _ _ n); [done|lia]|]. intros [st'|r] Ht; [|by apply holds_ret].
    simpl length. rewrite Nat.add_succ_r, <- Nat.add_succ_l. apply IH; [done|lia].
Qed.

Lemma fresh_collecting l : collecting (length l) 0 (fresh_matrix l).
Proof.
  unfold fresh_matrix. split.
  - by rewrite length_map.
  - apply Forall_forall. intros a Ha. apply list_elem_of_In, in_map_iff in Ha as (k & <- & _). simpl. by rewrite length_replicate.
  - intros i k. unfold dep. rewrite list_lookup_fmap. destruct (l !! i); [|done]. simpl.
    destruct (replicate (length l) false !! k) as [b|] eqn:Eb; [|done]. apply lookup_replicate in Eb as [-> _]. done.
  - intros i _. unfold resolved. rewrite list_lookup_fmap. by destruct (l !! i).
Qed.

(** The dependencies on keys that have a place are removed. *)
Lemma resolve_immediately_wf n am c :
  collecting n n am -> let am' := fst (fold_left resolve_immediately (seq 0 n) (am, c)) in wf_matrix am'.
Proof.
  intros [H1 H2 H3 H4].
  assert (forall is_ don am1 c1, length am1 = n -> Forall (fun a => length (deps a) = n) am1 ->
    (forall i, resolved am1 i = resolved am i) -> (forall i k, dep am1 i k = true -> dep am i k = true /\ (k ∈ don -> resolved am k = false)) ->
    let am' := fst (fold_left resolve_immediately is_ (am1, c1)) in
    length am' = n /\ Forall (fun a => length (deps a) = n) am' /\ (forall i, resolved am' i = resolved am i) /\
    (forall i k, dep am' i k = true -> dep am i k = true /\ (k ∈ don ++ is_ -> resolved am k = false))) as Hfold.
  { intros is_. induction is_ as [|j is_ IH]; intros don am1 c1 L1 L2 L3 L4; simpl.
    { rewrite app_nil_r. by split_and!. }
    rewrite (cons_middle j don is_), (app_assoc don [j] is_). destruct (resolved am1 j) eqn:Er.
    - pose proof (resolveDep_length j am1) as R1. pose proof (resolveDep_resolved j am1) as R2. pose proof (resolveDep_dep j am1) as R3.
      pose proof (resolveDep_lookup j am1) as R4. destruct (resolveDep j am1) as [removed am2]. simpl in *. apply IH.
      + lia.
      + apply Forall_lookup. intros i a Ha. rewrite R4 in Ha. apply fmap_Some in Ha as (b & Hb & ->). rewrite Forall_lookup in L2.
        specialize (L2 i b Hb). destruct (default false _); [|done]. simpl. by rewrite length_insert.
      + intros i. by rewrite R2.
      + intros i k Hd. rewrite R3, andb_true_iff, negb_true_iff, Nat.eqb_neq in Hd. destruct Hd as [Hd Hk].
        destruct (L4 i k Hd) as [Hd' Hr]. split; [done|]. intros [Hin|Hin%list_elem_of_singleton]%elem_of_app; [by apply Hr|done].
    - apply IH; [done..|]. intros i k Hd. destruct (L4 i k Hd) as [Hd' Hr]. split; [done|].
      intros [Hin|Hin%list_elem_of_singleton]%elem_of_app; [by apply Hr|]. subst k. by rewrite <- L3. }
  destruct (Hfold (seq 0 n) [] am c) as (L1 & L2 & L3 & L4); [done|done|done|by split; [|set_solver]|].
  cbv zeta. split; [by rewrite L1|]. intros i k Hd. rewrite !L3.
  pose proof (dep_lt _ i k ltac:(by rewrite L1) Hd) as [_ Hk]. rewrite L1 in Hk.
  destruct (L4 i k Hd) as [Hd' Hr]. split; [by apply (H3 i k)|]. apply Hr. simpl. apply elem_of_seq. lia.
Qed.

(** C16.  When [elektraSortTopology] has collected the dependencies of its keys
    without an error, its loop returns on what is left of them once those on
    keys that have a place are removed: it gives a place only to keys without
    one, each once; it leaves none without a place, so that the function
    gets to its sorting of the array, exactly when there is no cycle; and then
    every key comes after the keys it depends on. *)
Theorem elektraSortTopology_orders orderCounter donee localArray h st h' hasOrder :
  collect_loop orderCounter donee (mkCollected (fresh_matrix localArray) 0 0) 0 localArray h = Ret (inl st) h' ->
  resolves hasOrder (co_unresolved st)
    (fst (fold_left resolve_immediately (seq 0 (length localArray)) (co_matrix st, co_depCount st))).
Proof.
  intros Hc. apply wf_resolves, resolve_immediately_wf.
  apply (collect_loop_collecting _ _ (mkCollected (fresh_matrix localArray) 0 0) 0 _ (length localArray)) in Hc; [done| |simpl; lia].
  apply fresh_collecting.
Qed.
End Collect.

(** ** Numbers in metadata *)

Section Numbers.
Context (base : Z) (Hbase : (2 <= base <= 10)%Z) (Hmax : (LONG_MAX < base ^ 22)%Z).

Lemma is_digit_of_mod n : is_digit_of base (ascii_of_N (Z.to_N (48 + n mod base))) = true.
Proof.
  pose proof (Z.mod_pos_bound n base ltac:(lia)). unfold is_digit_of. rewrite uchar_ascii by lia.
  apply andb_true_iff. split; [apply Z.leb_le|apply Z.ltb_lt]; lia.
Qed.

(** Reading goes on behind the printed number with its value added. *)
Lemma read_print fuel n acc a :
  (0 <= n < base ^ Z.of_nat fuel)%Z -> exists k, (0 <= k)%Z /\
    read_base base (print_base_fuel fuel base n acc) a = read_base base acc (a * base ^ k + n).
Proof.
  revert n acc. induction fuel as [|fuel IH]; intros n acc Hn.
  { change (Z.of_nat 0) with 0%Z in Hn. rewrite Z.pow_0_r in Hn. exists 0%Z. split; [lia|]. simpl. f_equal. lia. }
  cbn [print_base_fuel]. set (c := ascii_of_N (Z.to_N (48 + n mod base))). pose proof (Z.mod_pos_bound n base ltac:(lia)) as Hm.
  assert (forall b, read_base base (c :: acc) b = read_base base acc (b * base + n mod base)) as Hc.
  { intros b. cbn [read_base]. unfold c. rewrite is_digit_of_mod, uchar_ascii by lia. f_equal. ring. }
  destruct (Z.ltb_spec n base) as [Hlt|Hge].
  - exists 1%Z. split; [lia|]. rewrite Hc, Z.pow_1_r, Z.mod_small by lia. done.
  - destruct (IH (n / base)%Z (c :: acc)) as (k & Hk & ->).
    { rewrite Nat2Z.inj_succ, Z.pow_succ_r in Hn by lia. split; [apply Z.div_pos; lia|]. apply Z.div_lt_upper_bound; lia. }
    exists (k + 1)%Z. split; [lia|]. rewrite Hc. f_equal. rewrite Z.pow_add_r, Z.pow_1_r by lia.
    pose proof (Z.div_mod n base ltac:(lia)). nia.
Qed.

Lemma print_head fuel n acc : fuel <> 0 -> exists c r, print_base_fuel fuel base n acc = c :: r /\ is_digit_of base c = true.
Proof.
  destruct fuel as [|fuel]; [done|]. intros _. revert n acc. induction fuel as [|fuel IH]; intros n acc.
  - cbn [print_base_fuel]. destruct (n <? base)%Z; eexists _, _; (split; [done|apply is_digit_of_mod]).
  - cbn [print_base_fuel]. destruct (n <? base)%Z; [eexists _, _; (split; [done|apply is_digit_of_mod])|]. apply IH.
Qed.

Lemma digit_range c : is_digit_of base c = true -> (48 <= uchar c < 58)%Z.
Proof. unfold is_digit_of. rewrite andb_true_iff, Z.leb_le, Z.ltb_lt. lia. Qed.

Lemma digit_no_space c : is_digit_of base c = true -> isspace c = false.
Proof.
  intros Hd%digit_range. unfold isspace. apply not_true_is_false. rewrite ?orb_true_iff, ?andb_true_iff, ?Z.leb_le, ?Z.eqb_eq.
  lia.
Qed.

Lemma strtol_print n :
  (0 <= n <= LONG_MAX)%Z -> strtol_all base (print_base base n) = Some n.
Proof.
  intros Hn. unfold print_base. destruct (print_head 22 n [] ltac:(lia)) as (c & r & Ep & Hc).
  unfold strtol_all. rewrite Ep. simpl count_while. rewrite (digit_no_space c Hc). simpl snd. cbn beta iota.
  apply digit_range in Hc as Hr.
  repeat (destruct (@decide _ _) as [->|_]; [unfold uchar in Hr; simpl in Hr; lia|]). cbn beta iota.
  simpl deref. rewrite Hc, <- Ep.
  destruct (read_print 22 n [] 0) as (k & _ & ->); [lia|]. cbn [read_base]. cbv zeta iota beta. rewrite Z.mul_0_l, Z.add_0_l.
  assert ((n <? LONG_MIN)%Z = false) as -> by (apply Z.ltb_ge; unfold LONG_MIN; lia).
  assert ((LONG_MAX <? n)%Z = false) as -> by (apply Z.ltb_ge; lia). done.
Qed.

Lemma strtol_print_neg n :
  (0 < n <= LONG_MAX)%Z -> strtol_all base ("-"%char :: print_base base n) = Some (- n)%Z.
Proof.
  intros Hn. unfold print_base. destruct (print_head 22 n [] ltac:(lia)) as (c & r & Ep & Hc).
  rewrite Ep. unfold strtol_all. rewrite (eq_refl : count_while isspace ("-"%char :: c :: r) = (0, "-"%char :: c :: r)).
  cbn [snd]. cbn beta iota. rewrite decide_True by done. simpl deref. rewrite Hc, <- Ep.
  destruct (read_print 22 n [] 0) as (k & _ & ->); [lia|]. cbn [read_base]. cbv zeta iota beta. rewrite Z.mul_0_l, Z.add_0_l.
  assert ((- n <? LONG_MIN)%Z = false) as -> by (apply Z.ltb_ge; unfold LONG_MIN, LONG_MAX in *; lia).
  assert ((LONG_MAX <? - n)%Z = false) as -> by (apply Z.ltb_ge; unfold LONG_MAX in *; lia). done.
Qed.
End Numbers.

(** The getters of users, groups, modes and times read back what the setters
    print: every [uid_t], [gid_t] and [mode_t], and every time that is not
    negative; of the negative ones only -1, which stands for an error. *)
Theorem meta_numbers_roundtrip n :
  (0 <= n)%Z ->
  ((n < 2 ^ 32)%Z -> uint32 (default (-1)%Z (strtol_all 10 (print_d n))) = n /\ strtol_all 8 (print_base 8 n) = Some n) /\
  ((n <= LONG_MAX)%Z -> strtol_all 10 (print_lu n) = Some n).
Proof.
  intros Hn. assert (LONG_MAX = 2 ^ 63 - 1)%Z as HL by reflexivity. split; [intros Hlt; split|intros Hle].
  - unfold print_d. destruct (Z.ltb_spec n (2 ^ 31)) as [H31|H31].
    + rewrite strtol_print by lia. simpl default. unfold uint32. by rewrite Z.mod_small by lia.
    + rewrite strtol_print_neg by lia. simpl default. unfold uint32.
      replace (- (2 ^ 32 - n))%Z with (n + (-1) * 2 ^ 32)%Z by lia. rewrite Z.mod_add by lia. by rewrite Z.mod_small by lia.
  - by rewrite strtol_print by lia.
  - unfold print_lu. rewrite Z.mod_small by lia. by rewrite strtol_print by lia.
Qed.
