(* ===== verification/Demo.v ===== *)
(** * Demo: a small heap

    A keyset with two keys, one of which has an owner in its metadata, and some
    keys outside.  The properties of the heap operations are applied to it in
    [Witnesses.v]. *)
From S2P Require Export Merge CutFacts NameFacts LookupFacts Ease.

#[global] Instance demo_callbacks : Callbacks := fun _ _ _ _ _ => ret None.

Definition demo_key (name : string) (value : option string) (ref : nat) (meta : ptr) : Key :=
  mkKey ((fun v => lit v ++ [NUL]) <$> value) (Some (lit name)) (elektraUnescapeKeyName (lit name)) 0 ref meta.

Definition demo_keys : gmap loc Key :=
  {[ 1%positive := demo_key "user/app/a" (Some "one") 2 None;
     2%positive := demo_key "user/app/c" (Some "two") 1 (Some 2%positive);
     3%positive := demo_key "user/app/b" None 1 None;
     4%positive := demo_key "owner" (Some "bob") 1 None;
     5%positive := demo_key "/app/c" None 0 None;
     6%positive := demo_key "user/app/c" None 0 None;
     7%positive := demo_key "user/app/a" None 0 None;
     8%positive := demo_key "user/app/d" None 0 (Some 4%positive);
     9%positive := demo_key "comment" (Some "a key to delete") 1 None ]}.

Definition demo_set (ls : list loc) : KeySet :=
  mkKS (Some (cells ls ++ Some None :: replicate (15 - length ls) None)) (length ls) 16 None 0 0.

Definition demo_sets : gmap loc KeySet :=
  {[ 1%positive := demo_set [1%positive; 2%positive];
     2%positive := demo_set [4%positive];
     3%positive := demo_set [1%positive; 3%positive];
     4%positive := demo_set [9%positive] ]}.

Definition demo : heap := mkHeap demo_keys demo_sets.

Definition demo_kid (l : loc) : kid :=
  (uname_of demo_keys l, if decide (l = 2%positive) then Some (lit "bob") else None).

(** Proves a decidable fact about the heap by evaluation. *)
Ltac demo_eval := vm_compute; done.

Lemma demo_set_rep ls : length ls <= 15 -> ks_rep (demo_set ls) ls.
Proof.
  intros Hl. split; [split|]; simpl; [|lia|done|done]. eexists. split_and!; [done| |done].
  simpl. rewrite length_replicate. lia.
Qed.

Lemma demo_keys_live ls : Forall (fun x => bool_decide (is_Some (demo_keys !! x)) = true) ls -> keys_live demo_keys ls.
Proof. intros H. eapply Forall_impl; [exact H|]. intros x Hx. by apply bool_decide_eq_true in Hx. Qed.

Lemma demo_set_ok l ls :
  demo_sets !! l = Some (demo_set ls) -> length ls <= 15 ->
  Forall (fun x => bool_decide (is_Some (demo_keys !! x)) = true) ls -> uname_sorted demo_keys ls ->
  set_ok demo_keys demo_sets l ls.
Proof.
  intros. exists (demo_set ls). split_and!; [done|by apply demo_set_rep|by left|by apply demo_keys_live|done].
Qed.

(** Proves [set_ok] for a keyset of the heap. *)
Ltac demo_set_ok := apply demo_set_ok; [reflexivity|simpl; lia|repeat constructor|repeat constructor; demo_eval].

Lemma demo_set_ok_1 : set_ok demo_keys demo_sets 1 [1%positive; 2%positive].
Proof. demo_set_ok. Qed.

Lemma demo_set_ok_2 : set_ok demo_keys demo_sets 2 [4%positive].
Proof. demo_set_ok. Qed.

Lemma demo_set_ok_4 : set_ok demo_keys demo_sets 4 [9%positive].
Proof. demo_set_ok. Qed.

Lemma demo_plain ls :
  forallb (fun x => match demo_keys !! x with Some k => bool_decide (k_meta k = None) | None => false end) ls = true ->
  forall x, x ∈ ls -> plain_key demo_keys x.
Proof.
  intros H x Hx. apply forallb_forall with (x := x) in H; [|by apply list_elem_of_In].
  unfold plain_key. destruct (demo_keys !! x) as [k|]; [|done]. exists k. split; [done|].
  by apply bool_decide_eq_true in H.
Qed.

Lemma demo_has_kid l :
  l ∈ [1%positive; 2%positive; 3%positive; 7%positive] -> has_kid demo_keys demo_sets l (demo_kid l).
Proof.
  intros H. repeat (apply elem_of_cons in H as [->|H]; [|]); [..|by apply elem_of_nil in H].
  all: eexists; split_and!; [reflexivity|reflexivity|].
  all: try reflexivity.
  exists [4%positive]. split; [apply demo_set_ok_2|].
  assert (find_uname demo_keys [4%positive] owner_uname = Some 4%positive) as -> by demo_eval.
  eexists. split_and!; [reflexivity|reflexivity|]. reflexivity.
Qed.

Lemma demo_metas l k m : demo_keys !! l = Some k -> k_meta k = Some m -> m = 2%positive \/ m = 4%positive.
Proof.
  assert (map_Forall (fun _ k => k_meta k = None \/ k_meta k = Some 2%positive \/ k_meta k = Some 4%positive) demo_keys)
    as H by (apply (bool_decide_unpack _); vm_compute; exact I).
  intros Hl Hm. destruct (H _ _ Hl) as [E|[E|E]]; [congruence|left|right]; congruence.
Qed.

Lemma demo_apart xs : ~ metas_of demo_keys xs 1.
Proof. intros (x & k & _ & Hk & Hm). by destruct (demo_metas _ _ _ Hk Hm). Qed.

Lemma demo_keyset_ok : keyset_ok demo_keys demo_sets demo_kid 1 [1%positive; 2%positive].
Proof.
  split.
  - exists (demo_set [1%positive; 2%positive]). split; [reflexivity|]. apply demo_set_rep. simpl. lia.
  - intros x Hx. apply demo_has_kid. set_solver.
  - repeat constructor; demo_eval.
  - apply demo_apart.
Qed.

Lemma demo_keyset_ok_3 : keyset_ok demo_keys demo_sets demo_kid 3 [1%positive; 3%positive].
Proof.
  split.
  - exists (demo_set [1%positive; 3%positive]). split; [reflexivity|]. apply demo_set_rep. simpl. lia.
  - intros x Hx. apply demo_has_kid. set_solver.
  - repeat constructor; demo_eval.
  - intros (x & k & _ & Hk & Hm). by destruct (demo_metas _ _ _ Hk Hm).
Qed.

Lemma demo_not_metadata : not_metadata demo_keys demo_sets 1.
Proof.
  intros y k m ms Hy Hm (s & Hs & Hrep & _) Hin.
  assert (ks_rep s [4%positive] \/ ks_rep s [9%positive]) as [H|H].
  { destruct (demo_metas _ _ _ Hy Hm) as [-> | ->]; [left|right]; injection Hs as <-;
      apply demo_set_rep; simpl; lia. }
  all: rewrite (ks_rep_inj _ _ _ Hrep H) in Hin; apply list_elem_of_singleton in Hin; discriminate.
Qed.

(** The namespace and the parts of the keys with a namespace. *)
Definition demo_path (l : loc) : cstr * list cstr :=
  match l with
  | 1%positive | 7%positive => (lit "user", [lit "app"; lit "a"])
  | 2%positive | 6%positive => (lit "user", [lit "app"; lit "c"])
  | 3%positive => (lit "user", [lit "app"; lit "b"])
  | _ => (lit "user", [lit "app"; lit "d"])
  end.

Lemma demo_root : lit "user" ∈ namespace_roots.
Proof. set_solver. Qed.

Lemma demo_has_path l :
  l ∈ [1%positive; 2%positive; 3%positive; 6%positive] -> has_path demo_keys l (Some (demo_path l).1) (demo_path l).2.
Proof.
  intros H. repeat (apply elem_of_cons in H as [->|H]; [|]); [..|by apply elem_of_nil in H].
  all: split; [split; [apply demo_root|by repeat constructor]|eexists; split_and!; reflexivity].
Qed.

Lemma demo_cascading_path : has_path demo_keys 5 None [lit "app"; lit "c"].
Proof. split; [by repeat constructor|]. eexists. split_and!; reflexivity. Qed.

(** ** Cascading keys in a keyset

    A sorted keyset with default keys, which have cascading names. *)
Definition mixed_keys : gmap loc Key :=
  {[ 1%positive := demo_key "/a/b" None 1 None;
     2%positive := demo_key "/a/b/c/d" None 1 None;
     3%positive := demo_key "system/q" None 1 None;
     4%positive := demo_key "user/a" None 1 None;
     5%positive := demo_key "user/a/z" None 1 None ]}.
Definition mixed : heap :=
  mkHeap mixed_keys {[ 1%positive := demo_set [1%positive; 2%positive; 3%positive; 4%positive; 5%positive] ]}.

(** The result of a computation and the keys then in the keyset at [l]. *)
Definition keys_after {A} (r : outcome A) (l : loc) : option (list ptr) :=
  match r with
  | Ret _ h => s ← h_sets h !! l; a ← ks_array s; mapM id (take (ks_size s) a)
  | _ => None
  end.

(** The cascading keys below [user/a] are no neighbours of the key [user/a]:
    [ksCut] finds them first, and the keys of the namespace stay. *)
Example ksCut_leaves_keys :
  keyIsBelowOrSame (Some 4%positive) (Some 5%positive) mixed = Ret 1%Z mixed /\
  keys_after (@ksCut (knot 1) (Some 1%positive) (Some 4%positive) mixed) 1%positive =
    Some [Some 3%positive; Some 4%positive; Some 5%positive].
Proof. split; vm_compute; reflexivity. Qed.

(** [keyIsDirectBelow] of a key in a namespace and a cascading name looks for
    the end of the part at the wrong offset: it accepts a name with three parts
    more, and reads outside of the unescaped name of one with one part more. *)
Example keyIsDirectBelow_wrong_offset :
  keyIsDirectBelow (Some 4%positive) (Some 2%positive) mixed = Ret 1%Z mixed /\
  keyIsDirectBelow (Some 4%positive) (Some 1%positive) mixed = Undefined.
Proof. split; vm_compute; reflexivity. Qed.
