(* ===== verification/KdbDemo.v ===== *)
(** * KdbDemo: a small key database

    A handle with a default backend and one mounted at [user/app], whose
    plugins are concrete functions, for the witnesses of the theorems about
    [kdbGet] and [kdbSet]. *)
From S2P Require Export GetFacts Demo.
#[local] Open Scope kdb_scope.

#[global] Instance demo_env : Env := { env_callbacks := demo_callbacks; env_depth := 20 }.

(** The function 1 always succeeds with 1; 2 returns 0 and 3 fails; 4 adds a key. *)
Definition demo_run (id : positive) (handle : loc) (ks parentKey : ptr) (st : nat) : M (Z * nat) :=
  match id with
  | 1%positive => ret (1%Z, S st)
  | 2%positive => ret (0%Z, S st)
  | 3%positive => ret ((-1)%Z, S st)
  | _ =>
      bindM (keyNew (Some (lit "user/app/new")) []) (fun k =>
      bindM (ksAppendKey ks (Some k)) (fun _ => ret (1%Z, S st)))
  end.

#[global] Instance demo_modules : Modules := {|
  module_state := nat;
  module_run := demo_run;
  module_load := fun _ _ _ => ret None;
  modules_init := fun _ _ => ret 0%Z;
  modules_close := fun _ _ => ret tt;
  set_error := fun _ _ _ => ret tt;
  add_warning := fun _ _ _ => ret tt;
  version_KeySet := bindM (ksNew 0 []) (fun k => ret (Some k));
  KDB_DB_FILE := lit "file";
  KDB_DB_INIT := lit "init";
  ENABLE_TRACER := false
|}.

(** A plugin with the same function to get, set and for errors. *)
Definition demo_plugin (id : positive) : Plugin :=
  mkPlugin None None None (Some (module_fn id)) (Some (module_fn id)) (Some (module_fn id)) (lit "demo") 3.

(** Resolver, storage, commit. *)
Definition demo_backend (mp resolver storage : loc) : Backend :=
  let l := <[COMMIT_PLUGIN := Some resolver]> (<[STORAGE_PLUGIN := Some storage]> (<[RESOLVER_PLUGIN := Some resolver]> no_slots)) in
  mkBackend (Some mp) l l (<[STORAGE_PLUGIN := Some resolver]> no_slots) 0 0 0 0 1.

Definition db_key (name : string) (flags : Z) : Key :=
  mkKey (Some (lit "v" ++ [NUL])) (Some (lit name)) (elektraUnescapeKeyName (lit name)) flags 1 None.

Definition db_heap : heap := mkHeap
  {[ 1%positive := db_key "user" 0; 2%positive := db_key "user/app" 0;
     3%positive := db_key "user/app/a" KEY_FLAG_SYNC; 4%positive := db_key "user/b" 0;
     5%positive := db_key "user" 0; 6%positive := db_key "" 0 ]}
  {[ 1%positive := demo_set [3%positive; 4%positive]; 2%positive := demo_set [] ]}.

Definition db_handle : KDB :=
  mkKDB (Some (trieInsert None (Some (lit "user/app/")) (Some 2%positive))) (Some 1%positive) None (Some 1%positive) None
    (fun g => if decide (g = PRECOMMIT) then Some 2%positive else None).

(** The resolvers are the plugins 1 and 4, the storages 2 and [storage]. *)
Definition db_state (storage : positive) : kstate := mkState db_heap
  {[ 1%positive := demo_plugin 1; 2%positive := demo_plugin 2; 3%positive := demo_plugin storage; 4%positive := demo_plugin 2 ]}
  {[ 1%positive := demo_backend 6 1 2; 2%positive := demo_backend 2 1 3 ]}
  {[ 1%positive := mkSplit [mkPart (Some 2%positive) (Some 1%positive) (Some 1%positive) 2;
                            mkPart (Some 2%positive) (Some 2%positive) (Some 2%positive) 0] 16 ]}
  {[ 1%positive := db_handle ]} 0 [].

(** A split with an empty keyset for each part. *)
Definition divide_parts : list Part :=
  [mkPart (Some 2%positive) (Some 1%positive) (Some 1%positive) 2; mkPart (Some 3%positive) (Some 2%positive) (Some 2%positive) 0].

Definition divide_state : kstate :=
  set_splits (with_heap (db_state 1) (mkHeap (h_keys db_heap) (<[3%positive := demo_set []]> (h_sets db_heap))))
    {[ 1%positive := mkSplit divide_parts 16 ]}.

Definition divide_name (x : loc) : cstr :=
  match h_keys db_heap !! x with Some k => default [] (k_key k) | None => [] end.

Definition divide_kid (x : loc) : kid :=
  (match h_keys db_heap !! x with Some k => k_uname k | None => [] end, None).

(** The result, and the calls with their results. *)
Definition outcome {A} (o : koutcome A) : option (A * list (place * loc * Z)) :=
  match o with KRet a s => Some (a, map (fun e => (ev_place e, ev_plugin e, ev_ret e)) (st_trace s)) | _ => None end.
