(* ===== verification/MetaDemo.v ===== *)
(** * MetaDemo: keys with dependencies, and values to encode

    Small keysets with the metadata [dep], sorted by [elektraSortTopology]; a keyset
    with two keys whose values have a space, a backslash and a newline, and the default
    data of the plugins that encode them. *)
From S2P Require Export MetaLibFacts KdbDemo Hexcode Ccode Base64.
#[local] Open Scope elektra_scope.

(** The key named [name] with its dependencies. *)
Definition add_deps_to (k : loc) (ds : list string) : M unit :=
  fold_right (fun d m => elektraMetaArrayAdd (Some k) (lit "dep") (Some (lit d));; m) (ret tt) ds.

Definition demo_graph (l : list (string * list string)) : M loc :=
  ks <- ksNew 0 [];;
  fold_right (fun '(n, ds) m => k <- keyNew (Some (lit n)) [];; add_deps_to k ds;; ksAppendKey (Some ks) (Some k);; m) (ret tt) l;;
  ret ks.

Fixpoint key_names (l : list loc) : M (list cstr) :=
  match l with [] => ret [] | k :: r => n <- keyName (Some k);; ns <- key_names r;; ret (default [] n :: ns) end.

(** The result of [elektraSortTopology] and the names in the array. *)
Definition sorted_names (l : list (string * list string)) : option (Z * list cstr) :=
  match (ks <- demo_graph l;; r <- elektraSortTopology (Some ks) true;; ns <- key_names (default [] (snd r));; ret (fst r, ns))
          (mkHeap ∅ ∅) with
  | Ret r _ => Some r
  | _ => None
  end.

Example sorts_a_chain :
  sorted_names [("/a", ["/b"]); ("/b", ["/c"]); ("/c", [])]%string = Some (1%Z, map lit ["/c"; "/b"; "/a"]%string).
Proof. vm_compute. reflexivity. Qed.

Example finds_a_cycle : sorted_names [("/a", ["/b"]); ("/b", ["/c"]); ("/c", ["/a"])]%string = Some (0%Z, []).
Proof. vm_compute. reflexivity. Qed.

(** The heap with such keys, the array and the variables of the function
    before its first loop: [elektraSortTopology] up to there. *)
Definition demo_array (l : list (string * list string)) : M (list loc * loc * loc) :=
  ks <- demo_graph l;;
  donee <- ksNew 0 [];;
  orderCounter <- keyNew (Some (lit "/#")) [KEY_NAME_OPTION KEY_CASCADING_NAME];;
  elektraArrayIncName (Some orderCounter);;
  keys <- elektraKsToMemArray (Some ks);;
  localArray <- qsort keys;;
  ret (localArray, orderCounter, donee).

(** The test [depCount + resolved >= size], which counts dependencies where
    only cycles matter, makes [elektraSortTopology] report cycles that are
    not there: for a dependency that is listed twice, although its
    documentation says that duplicates are ignored, and for four keys that
    depend on all keys behind them. *)
Theorem elektraSortTopology_false_cycle :
  sorted_names [("/a", ["/b"]); ("/b", [])]%string = Some (1%Z, map lit ["/b"; "/a"]%string) /\
  sorted_names [("/a", ["/b"; "/b"]); ("/b", [])]%string = Some (0%Z, []) /\
  sorted_names [("/a", ["/b"; "/d"]); ("/b", ["/c"]); ("/c", ["/d"]); ("/d", [])]%string
    = Some (1%Z, map lit ["/d"; "/c"; "/b"; "/a"]%string) /\
  sorted_names [("/a", ["/b"; "/c"; "/d"]); ("/b", ["/c"; "/d"]); ("/c", ["/d"]); ("/d", [])]%string = Some (0%Z, []).
Proof. split_and!; vm_compute; reflexivity. Qed.

(** ** Values to encode *)

Definition text_key (name value : string) : Key :=
  mkKey (Some (lit value ++ [NUL])) (Some (lit name)) (elektraUnescapeKeyName (lit name)) 0 1 None.

Definition text_values : list cstr := [lit "a b\"; "010"%char :: lit "x"].

Definition text_keys : gmap loc Key :=
  {[ 1%positive := text_key "user/a" "a b\";
     2%positive := set_data (text_key "user/b" "") (Some ("010"%char :: lit "x" ++ [NUL]));
     3%positive := text_key "user" "" ]}.

Definition text_sets : gmap loc KeySet := {[ 1%positive := demo_set [1%positive; 2%positive] ]}.

Definition hex_default : CHexData :=
  fold_left hex_mark [NUL; "010"%char; BSLASH; " "%char] (mkHex (replicate 256 false) BSLASH false 0).

Definition ccode_default : CCodeData :=
  fold_left (fun d '(c, e) => c_enter d c e) default_escapes (mkCcode no_entries no_entries BSLASH false 0).

Lemma text_has_values : Forall2 (has_value text_keys) [1%positive; 2%positive] text_values.
Proof. repeat constructor; eexists; (split; [reflexivity|split; reflexivity]). Qed.

Lemma text_NoDup : NoDup [1%positive; 2%positive].
Proof. apply (bool_decide_unpack _). reflexivity. Qed.

(** Without configuration the plugins open with this data. *)
Example default_data :
  (m <- ksNew 0 [];; h <- elektraHexcodeOpen (Some m);; c <- elektraCcodeOpen (Some m);; ret (h, c)) (mkHeap ∅ ∅) =
  match ksNew 0 [] (mkHeap ∅ ∅) with
  | Ret m h => match (elektraHexcodeOpen (Some m);; elektraCcodeOpen (Some m)) h with
               | Ret _ h => Ret ((0%Z, hex_default), (0%Z, ccode_default)) h | _ => Undefined end
  | _ => Undefined
  end.
Proof. vm_compute. reflexivity. Qed.
