(* ===== verification/Vstack.v ===== *)
(** * Vstack: the growing stack of opmphm_vstack.c

    The memory of a stack is a block of [size] cells; [head] is the index of
    the stack pointer in it.  An operation returns [None] when it would access
    memory outside of the block or a cell that was never written.  Whether
    [realloc] succeeds is an argument.  The stack is shown to refine a list. *)
From S2P Require Export Prelude.

Section Vstack.
Context {A : Type}.

Record Vstack := mkVstack {
  vs_minSize : nat;
  vs_size : nat;
  vs_data : list (option A);
  vs_head : Z
}.

(** Conversion of a pointer difference to [int]. *)
Definition to_int (z : Z) : Z := ((z + 2 ^ 31) mod 2 ^ 32 - 2 ^ 31)%Z.

Definition elektraVstackInit (minSize : nat) : option Vstack :=
  if minSize <? 1 then None else Some (mkVstack minSize minSize (replicate minSize None) 0).

(** [elektraRealloc] keeps the common prefix. *)
Definition realloc_cells (d : list (option A)) (n : nat) : list (option A) :=
  take n d ++ replicate (n - length d) None.

(** [*stack->head = data; ++stack->head] *)
Definition write_head (s : Vstack) (x : A) : option Vstack :=
  if ((0 <=? vs_head s) && (vs_head s <? Z.of_nat (length (vs_data s))))%Z then
    Some (mkVstack (vs_minSize s) (vs_size s) (<[Z.to_nat (vs_head s) := Some x]> (vs_data s))
            (vs_head s + 1))
  else None.

(** [return *stack->head] *)
Definition read_head (s : Vstack) : option A :=
  if (vs_head s <? 0)%Z then None
  else match vs_data s !! Z.to_nat (vs_head s) with Some (Some x) => Some x | _ => None end.

(** The stack after a successful [realloc] to [size] cells. *)
Definition resized (s : Vstack) (size : nat) : Vstack :=
  mkVstack (vs_minSize s) size (realloc_cells (vs_data s) size) (to_int (vs_head s)).

Definition elektraVstackPush (stack : option Vstack) (x : A) (realloc_ok : bool)
    : option (Z * option Vstack) :=
  match stack with
  | None => Some (1%Z, None)
  | Some s =>
      if (Z.of_nat (vs_size s) <=? vs_head s)%Z then
        if realloc_ok then (fun s' => (0%Z, Some s')) <$> write_head (resized s (vs_size s * 2)) x
        else Some (1%Z, stack)
      else (fun s' => (0%Z, Some s')) <$> write_head s x
  end.

Definition elektraVstackIsEmpty (stack : option Vstack) : Z :=
  match stack with
  | None => (-1)%Z
  | Some s => if (vs_head s =? 0)%Z then 1 else 0
  end.

(** The result is the popped element, [None] for NULL. *)
Definition elektraVstackPop (stack : option Vstack) (realloc_ok : bool)
    : option (option A * option Vstack) :=
  match stack with
  | None => Some (None, None)
  | Some s =>
      if negb (elektraVstackIsEmpty stack =? 0)%Z then Some (None, stack)
      else
        let s' := mkVstack (vs_minSize s) (vs_size s) (vs_data s) (vs_head s - 1) in
        if (vs_minSize s <? vs_size s) && (vs_head s' <=? Z.of_nat (vs_size s / 4))%Z then
          if realloc_ok then
            let s' := resized s' (vs_size s / 2) in (fun x => (Some x, Some s')) <$> read_head s'
          else Some (None, stack)
        else (fun x => (Some x, Some s')) <$> read_head s'
  end.

Definition elektraVstackClear (stack : option Vstack) : Z * option Vstack :=
  match stack with
  | None => (1%Z, None)
  | Some s => (0%Z, Some (mkVstack (vs_minSize s) (vs_size s) (vs_data s) 0))
  end.

(** Both blocks are freed. *)
Definition elektraVstackDel (stack : option Vstack) : option Vstack := None.

(** ** The invariant and the list a stack stands for *)

(** [s] holds the elements [l], the last one on top. *)
Record stack_of (s : Vstack) (l : list A) : Prop := {
  so_cells : exists rest, vs_data s = (Some <$> l) ++ rest;
  so_length : length (vs_data s) = vs_size s;
  so_head : vs_head s = Z.of_nat (length l);
  so_min : 1 <= vs_minSize s;
  so_size : exists k, vs_size s = vs_minSize s * 2 ^ k
}.

Lemma stack_of_le s l : stack_of s l -> length l <= vs_size s.
Proof.
  intros [(rest & Hc) Hl _ _ _]. rewrite <- Hl, Hc, length_app, length_fmap. lia.
Qed.

Lemma to_int_small z : (0 <= z < 2 ^ 31)%Z -> to_int z = z.
Proof. intros H. unfold to_int. rewrite Z.mod_small by lia. lia. Qed.

Lemma realloc_cells_prefix (l : list A) rest n :
  length l <= n ->
  exists rest', realloc_cells ((Some <$> l) ++ rest) n = (Some <$> l) ++ rest' /\
                length ((Some <$> l) ++ rest') = n.
Proof.
  intros Hn. unfold realloc_cells.
  exists (take (n - length l) rest ++ replicate (n - length ((Some <$> l) ++ rest)) None).
  rewrite take_app, take_ge, length_fmap, <- app_assoc by (rewrite length_fmap; lia).
  split; [done|]. rewrite !length_app, length_take, length_replicate, length_fmap. lia.
Qed.

Lemma write_head_spec s l x :
  stack_of s l -> length l < vs_size s ->
  exists s', write_head s x = Some s' /\ stack_of s' (l ++ [x]) /\ vs_size s' = vs_size s /\
             vs_minSize s' = vs_minSize s.
Proof.
  intros Hs Hlt. destruct Hs as [(rest & Hc) Hl Hh Hm Hk]. unfold write_head. rewrite Hh, Hl.
  assert ((0 <=? Z.of_nat (length l))%Z = true) as -> by lia.
  assert ((Z.of_nat (length l) <? Z.of_nat (vs_size s))%Z = true) as -> by lia.
  eexists. split; [done|]. rewrite Nat2Z.id. split_and!; [|done..].
  split; simpl; [|by rewrite length_insert|rewrite length_app; simpl; lia|done|done].
  rewrite Hc, length_app, length_fmap in Hl. destruct rest as [|r rest]; [simpl in Hl; lia|].
  exists rest. rewrite Hc, insert_app_r_alt by (by rewrite length_fmap).
  rewrite length_fmap, Nat.sub_diag. simpl. by rewrite fmap_app, <- app_assoc.
Qed.

Lemma read_head_spec d m n l x rest :
  d = (Some <$> l) ++ Some x :: rest ->
  read_head (mkVstack m n d (Z.of_nat (length l))) = Some x.
Proof.
  intros ->. unfold read_head. simpl.
  assert ((Z.of_nat (length l) <? 0)%Z = false) as -> by (apply Z.ltb_ge; lia).
  by rewrite Nat2Z.id, lookup_app_r, length_fmap, Nat.sub_diag by (by rewrite length_fmap).
Qed.

Lemma resized_spec s l n :
  stack_of s l -> (Z.of_nat (length l) < 2 ^ 31)%Z -> length l <= n ->
  (exists k, n = vs_minSize s * 2 ^ k) -> stack_of (resized s n) l.
Proof.
  intros [(rest & Hc) Hl Hh Hm Hk] Hint Hn Hnk. unfold resized.
  destruct (realloc_cells_prefix l rest n Hn) as (rest' & Hr & Hlen).
  split; simpl; [|by rewrite Hc, Hr|by rewrite Hh, to_int_small by lia|done|done].
  exists rest'. by rewrite Hc.
Qed.

(** ** The operations refine those of lists *)

Lemma elektraVstackInit_spec minSize :
  1 <= minSize -> exists s, elektraVstackInit minSize = Some s /\ stack_of s [].
Proof.
  intros H. unfold elektraVstackInit. destruct (Nat.ltb_spec minSize 1); [lia|].
  eexists. split; [done|]. split; simpl; [by eexists|apply length_replicate|done|done|].
  exists 0. simpl. lia.
Qed.

(** [elektraVstackPush] stays inside of its memory and appends the element to the
    list the stack stands for; only a failing [realloc] of a full stack makes it
    fail, which leaves the stack as it was. *)
Theorem elektraVstackPush_pushes s l x ok :
  stack_of s l -> (Z.of_nat (length l) < 2 ^ 31)%Z ->
  exists rc s', elektraVstackPush (Some s) x ok = Some (rc, Some s') /\
    ((rc = 0%Z /\ stack_of s' (l ++ [x])) \/ (rc = 1%Z /\ s' = s /\ ok = false /\ length l = vs_size s)).
Proof.
  intros Hs Hint. pose proof (stack_of_le _ _ Hs) as Hle. unfold elektraVstackPush.
  rewrite (so_head _ _ Hs). destruct (Z.leb_spec (Z.of_nat (vs_size s)) (Z.of_nat (length l))).
  - destruct ok; [|exists 1%Z, s; split; [done|right; split_and!; lia || done]].
    assert (1 <= vs_size s) as Hpos.
    { destruct (so_size _ _ Hs) as [k ->]. pose proof (so_min _ _ Hs).
      pose proof (Nat.pow_nonzero 2 k). nia. }
    assert (stack_of (resized s (vs_size s * 2)) l) as Hr.
    { apply resized_spec; [done|done|lia|]. destruct (so_size _ _ Hs) as [k ->].
      exists (S k). rewrite Nat.pow_succ_r'. lia. }
    destruct (write_head_spec _ _ x Hr) as (s' & -> & Hs' & _); [simpl; lia|].
    exists 0%Z, s'. auto.
  - destruct (write_head_spec _ _ x Hs) as (s' & -> & Hs' & _); [lia|]. exists 0%Z, s'. auto.
Qed.

Lemma elektraVstackPop_empty s ok : stack_of s [] -> elektraVstackPop (Some s) ok = Some (None, Some s).
Proof. intros Hs. unfold elektraVstackPop, elektraVstackIsEmpty. by rewrite (so_head _ _ Hs). Qed.

(** The shrunk block still holds the popped element. *)
Lemma shrink_spec s l x rest :
  stack_of s l -> vs_data s = (Some <$> l) ++ Some x :: rest -> (Z.of_nat (length l) < 2 ^ 31)%Z ->
  vs_minSize s < vs_size s -> length l <= vs_size s / 4 ->
  stack_of (resized s (vs_size s / 2)) l /\ read_head (resized s (vs_size s / 2)) = Some x.
Proof.
  intros Hs Hc Hint Hmin Hq. destruct (so_size _ _ Hs) as [[|k] Hk]; [simpl in Hk; lia|].
  rewrite Nat.pow_succ_r' in Hk.
  assert (vs_size s / 2 = vs_minSize s * 2 ^ k) as Hhalf.
  { rewrite Hk. replace (vs_minSize s * (2 * 2 ^ k)) with ((vs_minSize s * 2 ^ k) * 2) by lia.
    by rewrite Nat.div_mul. }
  assert (length l < vs_size s / 2) as Hlt.
  { assert (vs_size s / 4 <= vs_size s / 2 / 2) by (rewrite Nat.Div0.div_div; apply Nat.le_refl).
    pose proof (so_min _ _ Hs). pose proof (Nat.pow_nonzero 2 k).
    pose proof (Nat.div_lt (vs_size s / 2) 2). nia. }
  split; [apply resized_spec; [done|done|lia|by exists k]|].
  unfold resized. rewrite (so_head _ _ Hs), to_int_small, Hc by lia. unfold realloc_cells.
  rewrite take_app, take_ge, length_fmap by (rewrite length_fmap; lia).
  destruct (vs_size s / 2 - length l) eqn:Ed; [lia|]. simpl. rewrite <- app_assoc. simpl.
  by eapply read_head_spec.
Qed.

(** [elektraVstackPop] stays inside of its memory, also when it shrinks the
    block, and returns and removes the element on top; only a failing [realloc]
    makes it return NULL, which leaves the stack as it was. *)
Theorem elektraVstackPop_pops s l x ok :
  stack_of s (l ++ [x]) -> (Z.of_nat (length l) < 2 ^ 31)%Z ->
  exists r s', elektraVstackPop (Some s) ok = Some (r, Some s') /\
    ((r = Some x /\ stack_of s' l) \/ (r = None /\ s' = s /\ ok = false)).
Proof.
  intros Hs Hint. unfold elektraVstackPop, elektraVstackIsEmpty.
  rewrite (so_head _ _ Hs), length_app. cbn [length].
  destruct (Z.eqb_spec (Z.of_nat (length l + 1)) 0) as [|_]; [lia|]. cbn [Z.eqb negb]. cbn iota zeta.
  replace (Z.of_nat (length l + 1) - 1)%Z with (Z.of_nat (length l)) by lia.
  destruct (so_cells _ _ Hs) as (rest & Hc). rewrite fmap_app, <- app_assoc in Hc. simpl in Hc.
  set (s0 := mkVstack (vs_minSize s) (vs_size s) (vs_data s) (Z.of_nat (length l))).
  assert (stack_of s0 l) as Hs0 by (destruct Hs as [_ ? _ ? ?]; split; simpl; [by eexists|done..]).
  assert (read_head s0 = Some x) as Hread by (by eapply read_head_spec).
  destruct (Nat.ltb_spec (vs_minSize s) (vs_size s)) as [Hmin|]; cbn [andb];
    [|rewrite Hread; exists (Some x), s0; auto].
  destruct (Z.leb_spec (vs_head s0) (Z.of_nat (vs_size s / 4))) as [Hq|];
    [|rewrite Hread; exists (Some x), s0; auto].
  destruct ok; [|exists None, s; auto].
  destruct (shrink_spec s0 l x rest) as [Hr E]; [done|done|done|done|by apply Nat2Z.inj_le|].
  change (vs_size s0) with (vs_size s) in E, Hr. fold s0. rewrite E. exists (Some x), (resized s0 (vs_size s / 2)). split; [done|by left].
Qed.

(** The difference of the pointers is kept in an [int] while the stack grows:
    with [2 ^ 31] elements it becomes negative and the stack pointer leaves
    the block. *)
Theorem elektraVstackPush_overflow s l x :
  stack_of s l -> length l = vs_size s -> (2 ^ 31 <= Z.of_nat (length l) < 2 ^ 32)%Z ->
  elektraVstackPush (Some s) x true = None.
Proof.
  intros Hs Hfull Hbig. unfold elektraVstackPush. rewrite (so_head _ _ Hs).
  destruct (Z.leb_spec (Z.of_nat (vs_size s)) (Z.of_nat (length l))); [|lia].
  unfold write_head, resized. cbn [vs_head]. rewrite (so_head _ _ Hs).
  assert (to_int (Z.of_nat (length l)) < 0)%Z as Hneg.
  { unfold to_int. replace (Z.of_nat (length l) + 2 ^ 31)%Z
      with (Z.of_nat (length l) - 2 ^ 31 + 1 * 2 ^ 32)%Z by lia.
    rewrite Z.mod_add, Z.mod_small by lia. lia. }
  destruct (Z.leb_spec 0 (to_int (Z.of_nat (length l)))); [lia|done].
Qed.
End Vstack.
Arguments Vstack : clear implicits.
