(* ===== verification/Vheap.v ===== *)
(** * Vheap: the binary heap of opmphm_vheap.c

    The block [data] of [size] cells holds [count] elements.  As in
    [Vstack.v] an access outside of the block or of a cell that was never
    written gives [None], and whether [realloc] succeeds is an argument.
    [comp a b] says that [a] is ordered before [b]. *)
From S2P Require Export Vstack.

Section Vheap.
Context {A : Type}.

Record Vheap := mkVheap {
  vh_minSize : nat;
  vh_size : nat;
  vh_count : nat;
  vh_comp : A -> A -> bool;
  vh_data : list (option A)
}.

Definition elektraVheapInit (comp : option (A -> A -> bool)) (minSize : nat) : option Vheap :=
  match comp with
  | Some c => if minSize <? 1 then None else Some (mkVheap minSize minSize 0 c (replicate minSize None))
  | None => None
  end.

Definition elektraVheapIsEmpty (vheap : option Vheap) : Z :=
  match vheap with
  | None => (-1)%Z
  | Some h => if vh_count h =? 0 then 1 else 0
  end.

(** [data[i]] *)
Definition cell (d : list (option A)) (i : nat) : option A := match d !! i with Some (Some x) => Some x | _ => None end.
(** [data[i] = x] *)
Definition set_cell (d : list (option A)) (i : nat) (x : A) : option (list (option A)) :=
  if i <? length d then Some (<[i := Some x]> d) else None.

(** The loop of [elektraVheapInsert], from the free position [pos] up. *)
Fixpoint insert_loop (fuel : nat) (comp : A -> A -> bool) (d : list (option A)) (pos : nat) (data : A)
    : option (list (option A)) :=
  match fuel with
  | O => None
  | S n =>
      if pos =? 0 then set_cell d pos data
      else
        let parent := (pos - 1) / 2 in
        x ← cell d parent;
        if comp x data then set_cell d pos data
        else d ← set_cell d pos x; insert_loop n comp d parent data
  end.

Definition elektraVheapInsert (vheap : option Vheap) (data : A) (realloc_ok : bool)
    : option (Z * option Vheap) :=
  match vheap with
  | None => Some (1%Z, None)
  | Some h =>
      let count := S (vh_count h) in
      if (vh_size h <? count) && negb realloc_ok then Some (1%Z, vheap)
      else
        let (size, d) := if vh_size h <? count
                         then (vh_size h * 2, realloc_cells (vh_data h) (vh_size h * 2))
                         else (vh_size h, vh_data h) in
        d ← insert_loop count (vh_comp h) d (count - 1) data;
        Some (0%Z, Some (mkVheap (vh_minSize h) size count (vh_comp h) d))
  end.

(** The loop of [elektraVheapRemove], from the element at [elem] down. *)
Fixpoint remove_loop (fuel : nat) (comp : A -> A -> bool) (d : list (option A)) (count elem child : nat)
    : option (list (option A)) :=
  match fuel with
  | O => None
  | S n =>
      if child <? count then
        child ← (if child + 1 <? count then
                   x ← cell d (child + 1); y ← cell d child;
                   Some (if comp x y then child + 1 else child)
                 else Some child);
        c ← cell d child;
        e ← cell d elem;
        if comp c e then
          d ← set_cell d child e;
          d ← set_cell d elem c;
          remove_loop n comp d count child (child * 2 + 1)
        else Some d
      else Some d
  end.

(** The first element of [d] is taken out and [count] elements stay. *)
Definition remove_first (comp : A -> A -> bool) (d : list (option A)) (count : nat)
    : option (A * list (option A)) :=
  ret ← cell d 0;
  last ← cell d count;
  d ← set_cell d 0 last;
  d ← remove_loop (S count) comp d count 0 1;
  Some (ret, d).

(** [None] as the result is NULL: the heap is empty or [realloc] failed. *)
Definition elektraVheapRemove (vheap : option Vheap) (realloc_ok : bool)
    : option (option A * option Vheap) :=
  match vheap with
  | None => Some (None, None)
  | Some h =>
      if negb (elektraVheapIsEmpty vheap =? 0)%Z then Some (None, vheap)
      else
        let count := vh_count h - 1 in
        let shrink := (vh_minSize h <? vh_size h) && (count <=? vh_size h / 4) in
        if shrink && negb realloc_ok then Some (None, vheap)
        else
          let (size, d) := if shrink : bool
                           then (vh_size h / 2, realloc_cells (vh_data h) (vh_size h / 2))
                           else (vh_size h, vh_data h) in
          (fun '(ret, d) => (Some ret, Some (mkVheap (vh_minSize h) size count (vh_comp h) d)))
            <$> remove_first (vh_comp h) d count
  end.

Definition elektraVheapClear (vheap : option Vheap) : Z * option Vheap :=
  match vheap with
  | None => (1%Z, None)
  | Some h => (0%Z, Some (mkVheap (vh_minSize h) (vh_size h) 0 (vh_comp h) (vh_data h)))
  end.

(** Both blocks are freed. *)
Definition elektraVheapDel (vheap : option Vheap) : option Vheap := None.

(** ** Heaps as lists *)

Section Order.
Context (comp : A -> A -> bool).

Definition parent (i : nat) : nat := (i - 1) / 2.

(** No element is ordered before its parent. *)
Definition heap_at (a : list A) (i : nat) : Prop :=
  forall x y, a !! i = Some x -> a !! parent i = Some y -> comp x y = false.
Definition heap_ordered (a : list A) : Prop := forall i, 0 < i -> heap_at a i.

(** The loops on the list of the live elements; position [pos] holds the
    element that moves. *)
Fixpoint sift_up (fuel : nat) (a : list A) (pos : nat) (x : A) : list A :=
  match fuel with
  | O => a
  | S n =>
      if pos =? 0 then <[pos := x]> a
      else
        match a !! parent pos with
        | Some y => if comp y x then <[pos := x]> a else sift_up n (<[pos := y]> a) (parent pos) x
        | None => a
        end
  end.

Fixpoint sift_down (fuel : nat) (a : list A) (elem : nat) : list A :=
  match fuel with
  | O => a
  | S n =>
      let child := 2 * elem + 1 in
      match a !! child, a !! elem with
      | Some y, Some e =>
          let (child, c) := match a !! (child + 1) with
                            | Some x => if comp x y then (child + 1, x) else (child, y)
                            | None => (child, y)
                            end in
          if comp c e then sift_down n (<[elem := c]> (<[child := e]> a)) child else a
      | _, _ => a
      end
  end.

Lemma parent_lt i : 0 < i -> parent i < i.
Proof. intros. unfold parent. apply Nat.Div0.div_lt_upper_bound. lia. Qed.

Lemma parent_spec i : 0 < i -> i = 2 * parent i + 1 \/ i = 2 * parent i + 2.
Proof.
  intros Hi. unfold parent. pose proof (Nat.div_mod_eq (i - 1) 2).
  pose proof (Nat.mod_upper_bound (i - 1) 2). lia.
Qed.

Lemma insert_perm (l : list A) i x y : l !! i = Some y -> y :: <[i := x]> l ≡ₚ x :: l.
Proof.
  revert i. induction l as [|z l IH]; intros [|i] H; simplify_eq/=; [constructor|].
  rewrite (Permutation_swap z y), (IH i H). constructor.
Qed.

(** Moving an element and writing another one in its place. *)
Lemma move_perm (a : list A) i j x y :
  i <> j -> i < length a -> a !! j = Some y -> <[j := x]> (<[i := y]> a) ≡ₚ <[i := x]> a.
Proof.
  intros Hij Hi Hj. destruct (lookup_lt_is_Some_2 _ _ Hi) as [z Hz].
  assert (y :: <[j := x]> (<[i := y]> a) ≡ₚ x :: <[i := y]> a) as H1.
  { apply insert_perm. by rewrite list_lookup_insert_ne. }
  pose proof (insert_perm a i y z Hz) as H2. pose proof (insert_perm a i x z Hz) as H3.
  apply (Permutation_cons_inv (a := y)), (Permutation_cons_inv (a := z)).
  rewrite H1, (Permutation_swap x z), H2, (Permutation_swap y z), H3. apply Permutation_swap.
Qed.

Lemma length_sift_up fuel a pos x : length (sift_up fuel a pos x) = length a.
Proof.
  revert a pos. induction fuel as [|n IH]; intros a pos; simpl; [done|].
  repeat case_match; rewrite ?IH, ?length_insert; done.
Qed.

Lemma sift_up_perm fuel a pos x :
  pos < fuel -> pos < length a -> sift_up fuel a pos x ≡ₚ <[pos := x]> a.
Proof.
  revert a pos. induction fuel as [|n IH]; intros a pos Hf Hp; [lia|]. simpl.
  destruct (Nat.eqb_spec pos 0); [done|].
  pose proof (parent_lt pos ltac:(lia)) as Hlt.
  destruct (lookup_lt_is_Some_2 a (parent pos)) as [y Hy]; [lia|]. rewrite Hy.
  destruct (comp y x); [done|]. rewrite IH by (rewrite ?length_insert; lia).
  apply move_perm; [lia|done|done].
Qed.

(** [comp] is a strict weak order. *)
Context (Hasym : forall x y, comp x y = true -> comp y x = false).
Context (Hneg : forall x y z, comp x y = false -> comp y z = false -> comp x z = false).

Lemma lookup_insert_cases {B} (l : list B) i j x y :
  <[i := x]> l !! j = Some y -> (j = i /\ y = x) \/ (j <> i /\ l !! j = Some y).
Proof.
  destruct (decide (i = j)) as [<-|Hne].
  - intros H. assert (i < length l) by (rewrite <- (length_insert l i x); by eapply lookup_lt_Some).
    rewrite list_lookup_insert_eq in H by done. simplify_eq. by left.
  - rewrite list_lookup_insert_ne by done. right. by split.
Qed.

(** [x] at [pos] may only be too small for its parent. *)
Definition up_inv (a : list A) (pos : nat) (x : A) : Prop :=
  (forall i, 0 < i -> i <> pos -> heap_at (<[pos := x]> a) i) /\
  (forall i y z, 0 < i -> parent i = pos -> 0 < pos -> a !! i = Some y -> a !! parent pos = Some z ->
     comp y z = false).

Lemma up_inv_step a pos x y :
  up_inv a pos x -> 0 < pos -> pos < length a -> a !! parent pos = Some y -> comp y x = false ->
  up_inv (<[pos := y]> a) (parent pos) x.
Proof.
  intros [H1 H2] Hpos Hlen Hy Hyx. pose proof (parent_lt pos Hpos) as Hlt.
  assert (forall i u, i <> pos -> i <> parent pos -> <[parent pos := x]> (<[pos := y]> a) !! i = Some u ->
            a !! i = Some u) as Hother.
  { intros i u Hi Hi' Hu. by rewrite !list_lookup_insert_ne in Hu by done. }
  split.
  - intros i Hi Hip u v Hu Hv. destruct (decide (i = pos)) as [->|Hne].
    + rewrite list_lookup_insert_ne, list_lookup_insert_eq in Hu by lia.
      rewrite list_lookup_insert_eq in Hv by (rewrite length_insert; lia). by simplify_eq.
    + apply Hother in Hu; [|done..].
      destruct (decide (parent i = pos)) as [Hpi|Hpi].
      * rewrite Hpi, list_lookup_insert_ne, list_lookup_insert_eq in Hv by lia. simplify_eq.
        by eapply (H2 i).
      * destruct (decide (parent i = parent pos)) as [Hpp|Hpp].
        -- rewrite Hpp, list_lookup_insert_eq in Hv by (rewrite length_insert; lia). simplify_eq.
           apply (Hneg u y v); [|done]. apply (H1 i); [done|done| |].
           ++ by rewrite list_lookup_insert_ne.
           ++ rewrite Hpp, list_lookup_insert_ne by lia. done.
        -- apply Hother in Hv; [|done..]. apply (H1 i); [done..| |]; by rewrite list_lookup_insert_ne.
  - intros i u v Hi Hpi Hpp Hu Hv. pose proof (parent_lt (parent pos) Hpp).
    rewrite list_lookup_insert_ne in Hv by lia.
    assert (comp y v = false) as Hyv.
    { apply (H1 (parent pos)); [done|lia| |]; rewrite list_lookup_insert_ne by lia; done. }
    apply lookup_insert_cases in Hu as [[-> ->]|[Hne Hu]]; [done|].
    apply (Hneg u y v); [|done]. apply (H1 i); [done|done| |].
    + by rewrite list_lookup_insert_ne.
    + rewrite Hpi, list_lookup_insert_ne by lia. done.
Qed.

Lemma sift_up_ordered fuel a pos x :
  pos < fuel -> pos < length a -> up_inv a pos x -> heap_ordered (sift_up fuel a pos x).
Proof.
  revert a pos. induction fuel as [|n IH]; intros a pos Hf Hp Hinv; [lia|]. simpl.
  destruct (Nat.eqb_spec pos 0) as [->|Hne].
  { intros i Hi. apply Hinv; lia. }
  pose proof (parent_lt pos ltac:(lia)) as Hlt.
  destruct (lookup_lt_is_Some_2 a (parent pos)) as [y Hy]; [lia|]. rewrite Hy.
  destruct (comp y x) eqn:E.
  - intros i Hi u v Hu Hv. destruct (decide (i = pos)) as [->|]; [|by apply (proj1 Hinv i)].
    rewrite list_lookup_insert_eq in Hu by done. rewrite list_lookup_insert_ne in Hv by lia.
    simplify_eq. by apply Hasym.
  - apply IH; [lia|rewrite length_insert; lia|]. apply up_inv_step; (done || lia).
Qed.

(** The element at the root is ordered before no other one. *)
Lemma heap_root a r :
  heap_ordered a -> a !! 0 = Some r -> forall i x, a !! i = Some x -> comp x r = false.
Proof.
  intros H Hr i. induction (lt_wf i) as [i _ IH]. intros x Hx.
  destruct (decide (i = 0)) as [->|Hi].
  - rewrite Hr in Hx. injection Hx as <-.
    destruct (comp r r) eqn:E; [|done]. by rewrite (Hasym _ _ E) in E.
  - pose proof (parent_lt i ltac:(lia)) as Hlt. apply lookup_lt_Some in Hx as Hlen.
    destruct (lookup_lt_is_Some_2 a (parent i)) as [y Hy]; [lia|].
    apply (Hneg x y r); [by apply (H i); [lia|..]|by eapply IH].
Qed.

(** ** Going down *)

(** Only the children of [elem] may be too big for it. *)
Definition down_inv (a : list A) (elem : nat) : Prop :=
  (forall i, 0 < i -> parent i <> elem -> heap_at a i) /\
  (forall i y z, 0 < i -> parent i = elem -> 0 < elem -> a !! i = Some y -> a !! parent elem = Some z ->
     comp y z = false).

Lemma parent_left e : parent (2 * e + 1) = e.
Proof. unfold parent. replace (2 * e + 1 - 1) with (e * 2) by lia. by rewrite Nat.div_mul. Qed.

Lemma parent_right e : parent (2 * e + 2) = e.
Proof. unfold parent. replace (2 * e + 2 - 1) with (1 + e * 2) by lia. by rewrite Nat.div_add. Qed.

(** [child] is the child of [elem] that no other child is ordered before. *)
Lemma down_inv_step a e child x c :
  down_inv a e -> a !! e = Some x -> a !! child = Some c -> 0 < child -> parent child = e ->
  (forall i y, 0 < i -> parent i = e -> a !! i = Some y -> comp y c = false) -> comp c x = true ->
  down_inv (<[e := c]> (<[child := x]> a)) child.
Proof.
  intros [H1 H2] He Hc Hch Hp Hmin Hcx. pose proof (parent_lt child Hch) as Hlt.
  apply lookup_lt_Some in He as Hle. apply lookup_lt_Some in Hc as Hlc.
  assert (forall i u, <[e := c]> (<[child := x]> a) !! i = Some u ->
            (i = e /\ u = c) \/ (i = child /\ u = x) \/ (i <> e /\ i <> child /\ a !! i = Some u)) as Hcase.
  { intros i u Hu. apply lookup_insert_cases in Hu as [?|[? Hu]]; [by left|].
    apply lookup_insert_cases in Hu as [?|[? Hu]]; [right; by left|]. by right; right. }
  split.
  - intros i Hi Hpi u v Hu Hv. apply Hcase in Hu as [[-> ->]|[[-> ->]|(Hn1 & Hn2 & Hu)]].
    + pose proof (parent_lt e Hi) as Hpe.
      apply Hcase in Hv as [[? ?]|[[? ?]|(_ & _ & Hv)]]; [lia|lia|]. by eapply (H2 child).
    + rewrite Hp in Hv. apply Hcase in Hv as [[_ ->]|[[? ?]|(? & _)]]; [by apply Hasym|lia|lia].
    + apply Hcase in Hv as [[Hpe ->]|[[? ?]|(? & ? & Hv)]]; [by apply (Hmin i)|done|].
      by apply (H1 i).
  - intros i u v Hi Hpi _ Hu Hv. rewrite Hp in Hv.
    pose proof (parent_lt i Hi) as Hli.
    apply Hcase in Hv as [[_ ->]|[[? ?]|(? & _)]]; [|lia|done].
    apply Hcase in Hu as [[-> ->]|[[-> ->]|(Hn1 & Hn2 & Hu)]]; [lia|lia|].
    apply (H1 i); [done|lia|done|by rewrite Hpi].
Qed.

Lemma sift_down_ordered fuel a e :
  length a < fuel + e -> down_inv a e -> heap_ordered (sift_down fuel a e).
Proof.
  revert a e. induction fuel as [|n IH]; intros a e Hf Hinv.
  { simpl. intros i Hi x y Hx Hy. apply lookup_lt_Some in Hy as Hlt.
    destruct (decide (parent i = e)); [lia|]. by apply (proj1 Hinv i). }
  cbn [sift_down]. cbv zeta.
  destruct (a !! (2 * e + 1)) as [y|] eqn:Hy; [destruct (a !! e) as [x|] eqn:Hx|].
  - assert (forall child c, a !! child = Some c -> (child = 2 * e + 1 \/ child = 2 * e + 2) ->
      (forall i y, 0 < i -> parent i = e -> a !! i = Some y -> comp y c = false) ->
      heap_ordered (if comp c x then sift_down n (<[e := c]> (<[child := x]> a)) child else a)) as Hstep.
    { intros child c Hc Hchild Hmin.
      assert (parent child = e) as Hpar by (destruct Hchild as [-> | ->]; [apply parent_left|apply parent_right]).
      destruct (comp c x) eqn:E.
      - apply IH; [rewrite !length_insert; lia|]. apply down_inv_step; (done || lia).
      - intros i Hi u v Hu Hv. destruct (decide (parent i = e)) as [Hpi|Hpi].
        + rewrite Hpi, Hx in Hv. injection Hv as <-. apply (Hneg u c x); [by eapply Hmin|done].
        + by apply (proj1 Hinv i). }
    replace (2 * e + 1 + 1) with (2 * e + 2) by lia.
    assert (forall z, comp z z = false) as Hirr.
    { intros z. destruct (comp z z) eqn:E; [|done]. by rewrite (Hasym _ _ E) in E. }
    destruct (a !! (2 * e + 2)) as [z|] eqn:Hz; [destruct (comp z y) eqn:Ezy|].
    + apply Hstep; [done|by right|]. intros i u Hi Hpi Hu.
      destruct (parent_spec i Hi) as [Ei|Ei]; rewrite Hpi in Ei; subst i; simplify_eq; [|apply Hirr].
      by apply Hasym.
    + apply Hstep; [done|by left|]. intros i u Hi Hpi Hu.
      destruct (parent_spec i Hi) as [Ei|Ei]; rewrite Hpi in Ei; subst i; simplify_eq; [apply Hirr|done].
    + apply Hstep; [done|by left|]. intros i u Hi Hpi Hu.
      destruct (parent_spec i Hi) as [Ei|Ei]; rewrite Hpi in Ei; subst i; simplify_eq. apply Hirr.
  - apply lookup_ge_None in Hx. apply lookup_lt_Some in Hy. lia.
  - intros i Hi u v Hu Hv. destruct (decide (parent i = e)) as [Hpi|Hpi]; [|by apply (proj1 Hinv i)].
    apply lookup_ge_None in Hy. apply lookup_lt_Some in Hu.
    destruct (parent_spec i Hi) as [Ei|Ei]; rewrite Hpi in Ei; lia.
Qed.

Lemma sift_down_perm fuel a e : sift_down fuel a e ≡ₚ a.
Proof.
  revert a e. induction fuel as [|n IH]; intros a e; [done|]. cbn [sift_down]. cbv zeta.
  destruct (a !! (2 * e + 1)) as [y|] eqn:Hy; [|done]. destruct (a !! e) as [x|] eqn:Hx; [|done].
  assert (forall child c, a !! child = Some c -> child <> e ->
    (if comp c x then sift_down n (<[e := c]> (<[child := x]> a)) child else a) ≡ₚ a) as Hstep.
  { intros child c Hc Hne. destruct (comp c x); [|done]. rewrite IH.
    rewrite (move_perm a child e c x); [|done|by eapply lookup_lt_Some|done].
    by rewrite list_insert_id. }
  destruct (a !! (2 * e + 1 + 1)) as [z|] eqn:Hz; [destruct (comp z y)|]; apply Hstep; (done || lia).
Qed.
End Order.

(** ** The loops on the block compute those on the list *)

Section Block.
Context (comp : A -> A -> bool) (rest : list (option A)).

Lemma insert_live (a : list A) i x :
  i < length a -> <[i := Some x]> ((Some <$> a) ++ rest) = (Some <$> <[i := x]> a) ++ rest.
Proof. intros Hi. by rewrite insert_app_l, list_fmap_insert by (by rewrite length_fmap). Qed.

Lemma cell_live (a : list A) i x : a !! i = Some x -> cell ((Some <$> a) ++ rest) i = Some x.
Proof.
  intros Hi. unfold cell. rewrite lookup_app_l.
  - by rewrite list_lookup_fmap, Hi.
  - rewrite length_fmap. by eapply lookup_lt_Some.
Qed.

Lemma set_cell_live (a : list A) i x :
  i < length a -> set_cell ((Some <$> a) ++ rest) i x = Some ((Some <$> <[i := x]> a) ++ rest).
Proof.
  intros Hi. unfold set_cell. rewrite length_app, length_fmap.
  destruct (Nat.ltb_spec i (length a + length rest)); [|lia]. by rewrite insert_live.
Qed.

Lemma sift_up_ignores fuel (a : list A) pos x z :
  sift_up comp fuel (<[pos := z]> a) pos x = sift_up comp fuel a pos x \/ fuel = 0.
Proof.
  destruct fuel as [|n]; [by right|left]. simpl.
  destruct (Nat.eqb_spec pos 0); [by rewrite list_insert_insert_eq|].
  pose proof (parent_lt pos ltac:(lia)). rewrite list_lookup_insert_ne by lia.
  destruct (a !! parent pos) as [y|] eqn:Hy.
  - by rewrite !list_insert_insert_eq.
  - apply lookup_ge_None in Hy. apply list_insert_ge. lia.
Qed.

Lemma insert_loop_sift fuel d (a : list A) pos x :
  pos < fuel -> a !! pos = Some x -> <[pos := Some x]> d = (Some <$> a) ++ rest ->
  insert_loop fuel comp d pos x = Some ((Some <$> sift_up comp fuel a pos x) ++ rest).
Proof.
  revert d a pos. induction fuel as [|n IH]; intros d a pos Hf Ha Hd; [lia|].
  apply lookup_lt_Some in Ha as Hlen.
  assert (length d = length a + length rest) as Hld.
  { rewrite <- (length_insert d pos (Some x)), Hd, length_app, length_fmap. done. }
  assert (forall y, set_cell d pos y = Some ((Some <$> <[pos := y]> a) ++ rest)) as Hset.
  { intros y. unfold set_cell. destruct (Nat.ltb_spec pos (length d)); [|lia]. f_equal.
    rewrite <- insert_live, <- Hd by done. by rewrite list_insert_insert_eq. }
  cbn [insert_loop sift_up]. destruct (Nat.eqb_spec pos 0); [apply Hset|].
  pose proof (parent_lt pos ltac:(lia)) as Hlt. fold (parent pos).
  destruct (lookup_lt_is_Some_2 a (parent pos)) as [y Hy]; [lia|].
  assert (cell d (parent pos) = Some y) as ->.
  { rewrite <- (cell_live a (parent pos) y Hy), <- Hd. unfold cell.
    by rewrite list_lookup_insert_ne by lia. }
  simpl. rewrite Hy. destruct (comp y x); [apply Hset|]. rewrite Hset. simpl.
  destruct (sift_up_ignores n (<[pos := y]> a) (parent pos) x x) as [<-|]; [|lia].
  apply IH; [lia| |].
  - apply list_lookup_insert_eq. rewrite length_insert. lia.
  - apply insert_live. rewrite length_insert. lia.
Qed.

Lemma remove_loop_sift fuel (a : list A) e :
  length a < fuel + e -> e < length a \/ length a <= 2 * e + 1 ->
  remove_loop fuel comp ((Some <$> a) ++ rest) (length a) e (2 * e + 1) =
  Some ((Some <$> sift_down comp fuel a e) ++ rest) \/ fuel = 0.
Proof.
  revert a e. induction fuel as [|n IH]; intros a e Hf He; [by right|left].
  cbn [remove_loop sift_down]. cbv zeta.
  destruct (Nat.ltb_spec (2 * e + 1) (length a)) as [Hch|Hch].
  2:{ by rewrite (lookup_ge_None_2 a (2 * e + 1)). }
  destruct (lookup_lt_is_Some_2 a (2 * e + 1)) as [y Hy]; [done|].
  destruct (lookup_lt_is_Some_2 a e) as [x Hx]; [lia|]. rewrite Hy, Hx.
  assert (forall child c, a !! child = Some c -> child <> e -> e < child ->
    (c ← cell ((Some <$> a) ++ rest) child; e' ← cell ((Some <$> a) ++ rest) e;
     if comp c e' then
       d ← set_cell ((Some <$> a) ++ rest) child e'; d ← set_cell d e c;
       remove_loop n comp d (length a) child (child * 2 + 1)
     else Some ((Some <$> a) ++ rest)) =
    Some ((Some <$> (if comp c x then sift_down comp n (<[e := c]> (<[child := x]> a)) child else a)) ++ rest))
    as Hstep.
  { intros child c Hc Hne Hlt. rewrite (cell_live a child c), (cell_live a e x) by done. simpl.
    destruct (comp c x); [|done]. apply lookup_lt_Some in Hc, Hx.
    rewrite set_cell_live by done. simpl. rewrite set_cell_live by (by rewrite length_insert). simpl.
    replace (child * 2 + 1) with (2 * child + 1) by lia.
    destruct (IH (<[e := c]> (<[child := x]> a)) child) as [E|E]; rewrite ?length_insert in *; try lia.
    by rewrite E. }
  destruct (Nat.ltb_spec (2 * e + 1 + 1) (length a)) as [H2|H2].
  - destruct (lookup_lt_is_Some_2 a (2 * e + 1 + 1)) as [z Hz]; [done|].
    rewrite (cell_live a _ z Hz), (cell_live a _ y Hy), Hz. simpl.
    destruct (comp z y); simpl; apply Hstep; (done || lia).
  - rewrite (lookup_ge_None_2 a (2 * e + 1 + 1)) by done. simpl. apply Hstep; (done || lia).
Qed.
End Block.

(** ** The operations *)

(** [h] holds the elements [l], in heap order. *)
Record heap_of (h : Vheap) (l : list A) : Prop := {
  ho_cells : exists rest, vh_data h = (Some <$> l) ++ rest;
  ho_length : length (vh_data h) = vh_size h;
  ho_count : vh_count h = length l;
  ho_min : 1 <= vh_minSize h;
  ho_size : exists k, vh_size h = vh_minSize h * 2 ^ k;
  ho_ordered : heap_ordered (vh_comp h) l
}.

Definition strict_weak_order (comp : A -> A -> bool) : Prop :=
  (forall x y, comp x y = true -> comp y x = false) /\
  (forall x y z, comp x y = false -> comp y z = false -> comp x z = false).

Lemma heap_of_le h l : heap_of h l -> length l <= vh_size h.
Proof. intros [(rest & Hc) Hl _ _ _ _]. rewrite <- Hl, Hc, length_app, length_fmap. lia. Qed.

Lemma elektraVheapInit_spec comp minSize :
  1 <= minSize ->
  exists h, elektraVheapInit (Some comp) minSize = Some h /\ heap_of h [] /\ vh_comp h = comp.
Proof.
  intros H. unfold elektraVheapInit. destruct (Nat.ltb_spec minSize 1); [lia|].
  eexists. split; [done|]. split; [|done]. split; simpl; [by eexists|apply length_replicate|done|done| |].
  - exists 0. simpl. lia.
  - by intros i Hi x y Hx.
Qed.

(** The loop puts [x] into the block at its place. *)
Lemma insert_loop_heap c m d size l rest x :
  strict_weak_order c -> heap_ordered c l -> d = (Some <$> l) ++ rest -> length d = size ->
  length l < size -> 1 <= m -> (exists k, size = m * 2 ^ k) ->
  exists d' l', insert_loop (S (length l)) c d (S (length l) - 1) x = Some d' /\
    heap_of (mkVheap m size (S (length l)) c d') l' /\ l' ≡ₚ x :: l.
Proof.
  intros [Hasym Hneg] Ho Hd Hsz Hlt Hm Hsk. destruct rest as [|r rest].
  { rewrite <- Hsz, Hd, length_app, length_fmap in Hlt. simpl in Hlt. lia. }
  rewrite Nat.sub_succ, Nat.sub_0_r.
  pose proof (insert_loop_sift c rest (S (length l)) d (l ++ [x]) (length l) x) as Hloop.
  rewrite Hloop; [|lia|by rewrite lookup_app_r, Nat.sub_diag by lia|].
  2:{ rewrite Hd, insert_app_r_alt, length_fmap, Nat.sub_diag by (by rewrite length_fmap).
      simpl. by rewrite fmap_app, <- app_assoc. }
  assert (<[length l := x]> (l ++ [x]) = l ++ [x]) as Hid
    by (apply list_insert_id; by rewrite lookup_app_r, Nat.sub_diag by lia).
  eexists _, (sift_up c (S (length l)) (l ++ [x]) (length l) x). split_and!; [done| |].
  - split; cbn [vh_data vh_size vh_count vh_comp vh_minSize]; [by eexists| | |done|done|].
    + rewrite length_app, length_fmap, length_sift_up, length_app. simpl.
      rewrite <- Hsz, Hd, length_app, length_fmap. simpl. lia.
    + rewrite length_sift_up, length_app. simpl. lia.
    + apply sift_up_ordered; [done|done|lia|rewrite length_app; simpl; lia|]. split.
      * intros i Hi Hne u v Hu Hv. rewrite Hid in Hu, Hv.
        assert (i < length l) by (apply lookup_lt_Some in Hu; rewrite length_app in Hu; simpl in Hu; lia).
        pose proof (parent_lt i Hi). rewrite lookup_app_l in Hu, Hv by lia. by eapply Ho.
      * intros i u v Hi Hp Hpos Hu _. pose proof (parent_lt i Hi).
        apply lookup_lt_Some in Hu. rewrite length_app in Hu. simpl in Hu. lia.
  - rewrite sift_up_perm, Hid by (rewrite ?length_app; simpl; lia).
    by rewrite Permutation_app_comm.
Qed.

(** C36.  [elektraVheapInsert] stays inside of its memory, adds the element to those of
    the heap and restores the heap order; only a failing [realloc] of a full
    heap makes it fail, which leaves the heap as it was. *)
Theorem elektraVheapInsert_inserts h l x ok :
  strict_weak_order (vh_comp h) -> heap_of h l ->
  exists rc h', elektraVheapInsert (Some h) x ok = Some (rc, Some h') /\
    ((rc = 0%Z /\ vh_comp h' = vh_comp h /\ exists l', heap_of h' l' /\ l' ≡ₚ x :: l) \/
     (rc = 1%Z /\ h' = h /\ ok = false /\ length l = vh_size h)).
Proof.
  intros Hc Hh. pose proof (heap_of_le _ _ Hh) as Hle.
  destruct Hh as [(rest & Hd) Hl Hn Hm (k & Hk) Ho]. unfold elektraVheapInsert. rewrite Hn.
  destruct (Nat.ltb_spec (vh_size h) (S (length l))) as [Hfull|Hroom]; cbn [andb].
  - destruct ok; cbn [negb]; [|exists 1%Z, h; split; [done|right; split_and!; (done || lia)]].
    assert (1 <= vh_size h) as Hpos by (rewrite Hk; pose proof (Nat.pow_nonzero 2 k); nia).
    destruct (realloc_cells_prefix l rest (vh_size h * 2)) as (rest' & Hr & Hlen); [lia|].
    rewrite Hd, Hr.
    destruct (insert_loop_heap (vh_comp h) (vh_minSize h) _ (vh_size h * 2) l rest' x Hc Ho eq_refl Hlen)
      as (d & l' & -> & H & Hp); [lia|done|exists (S k); rewrite Hk, Nat.pow_succ_r'; lia|].
    simpl. eexists _, _. split; [done|]. left. split_and!; [done..|]. by exists l'.
  - destruct (insert_loop_heap (vh_comp h) (vh_minSize h) _ (vh_size h) l rest x Hc Ho Hd Hl)
      as (d & l' & -> & H & Hp); [lia|done|by exists k|].
    simpl. eexists _, _. split; [done|]. left. split_and!; [done..|]. by exists l'.
Qed.

(** The elements without the first one, the last one taking its place. *)
Definition last_first (l : list A) : list A :=
  match l with
  | [] => []
  | r :: m => match last m with Some x => x :: removelast m | None => [] end
  end.

Lemma last_first_spec (r : A) (m : list A) :
  last_first (r :: m) ≡ₚ m /\ length (last_first (r :: m)) = length m /\
  exists x z, (r :: m) !! length m = Some x /\ <[0 := x]> (r :: m) = last_first (r :: m) ++ [z].
Proof.
  destruct m as [|x m _] using rev_ind; simpl.
  - split_and!; [done..|]. by exists r, r.
  - rewrite last_snoc, removelast_last. split_and!.
    + by rewrite Permutation_app_comm.
    + rewrite length_app. simpl. lia.
    + exists x, x. split; [|done]. rewrite length_app, Nat.add_1_r. simpl.
      by rewrite lookup_app_r, Nat.sub_diag by lia.
Qed.

Lemma last_first_ordered comp r m :
  heap_ordered comp (r :: m) -> down_inv comp (last_first (r :: m)) 0.
Proof.
  intros Ho. destruct (last_first_spec r m) as (_ & Hl & x & z & Hx & E). split; [|intros; lia].
  assert (forall i y, 0 < i -> last_first (r :: m) !! i = Some y -> (r :: m) !! i = Some y) as Hsame.
  { intros i y Hi Hy. rewrite <- (list_lookup_insert_ne (r :: m) 0 i x), E by lia.
    rewrite lookup_app_l; [done|]. by eapply lookup_lt_Some. }
  intros i Hi Hp u v Hu Hv. apply (Ho i Hi); apply Hsame; (done || lia).
Qed.

Lemma elektraVheapRemove_empty h ok :
  heap_of h [] -> elektraVheapRemove (Some h) ok = Some (None, Some h).
Proof. intros Hh. unfold elektraVheapRemove, elektraVheapIsEmpty. by rewrite (ho_count _ _ Hh). Qed.

(** The first element is taken out of the block, the others are in heap order. *)
Lemma remove_first_heap c ms d size r m rest :
  strict_weak_order c -> heap_ordered c (r :: m) -> d = (Some <$> (r :: m)) ++ rest ->
  length d = size -> 1 <= ms -> (exists k, size = ms * 2 ^ k) ->
  exists d' l', remove_first c d (length m) = Some (r, d') /\
    heap_of (mkVheap ms size (length m) c d') l' /\ l' ≡ₚ m.
Proof.
  intros [Hasym Hneg] Ho Hd Hsz Hm Hsk. destruct (last_first_spec r m) as (Hperm & Hlen & x & z & Hx & E).
  unfold remove_first. rewrite Hd, (cell_live rest (r :: m) 0 r eq_refl), (cell_live rest (r :: m) _ x Hx).
  cbn [mbind option_bind]. rewrite set_cell_live by (simpl; lia). cbn [mbind option_bind].
  rewrite E, fmap_app, <- app_assoc. cbn [fmap list_fmap app].
  pose proof (remove_loop_sift c (Some z :: rest) (S (length m)) (last_first (r :: m)) 0) as Hloop.
  rewrite Hlen in Hloop. destruct Hloop as [Hloop|]; [lia|lia| |done].
  change (2 * 0 + 1) with 1 in Hloop. rewrite Hloop. cbn [mbind option_bind].
  eexists _, (sift_down c (S (length m)) (last_first (r :: m)) 0). split_and!; [done| |].
  - split; cbn [vh_data vh_size vh_count vh_comp vh_minSize]; [by eexists| | |done|done|].
    + rewrite length_app, length_fmap, (Permutation_length (sift_down_perm c _ _ _)), Hlen.
      rewrite <- Hsz, Hd, length_app, length_fmap. simpl. lia.
    + by rewrite (Permutation_length (sift_down_perm c _ _ _)), Hlen.
    + apply sift_down_ordered; [done|done|rewrite Hlen; lia|by apply last_first_ordered].
  - by rewrite sift_down_perm.
Qed.

(** The elements fit into half of a block that is used up to a quarter. *)
Lemma shrink_room n ms k : 1 <= ms -> n = ms * 2 ^ k -> ms < n ->
  n / 4 < n / 2 /\ exists k', n / 2 = ms * 2 ^ k'.
Proof.
  intros Hm Hn Hlt. destruct k as [|k]; [simpl in Hn; lia|]. rewrite Nat.pow_succ_r' in Hn.
  assert (n / 2 = ms * 2 ^ k) as Hhalf.
  { rewrite Hn. replace (ms * (2 * 2 ^ k)) with ((ms * 2 ^ k) * 2) by lia. by rewrite Nat.div_mul. }
  split; [|by exists k].
  assert (n / 4 <= n / 2 / 2) by (rewrite Nat.Div0.div_div; apply Nat.le_refl).
  pose proof (Nat.pow_nonzero 2 k). pose proof (Nat.div_lt (n / 2) 2). nia.
Qed.

(** C37.  [elektraVheapRemove] stays inside of its memory, also when it shrinks the
    block, and removes and returns an element that no other one is ordered
    before; the others stay, in heap order. *)
Theorem elektraVheapRemove_removes_first h r m ok :
  strict_weak_order (vh_comp h) -> heap_of h (r :: m) ->
  exists res h', elektraVheapRemove (Some h) ok = Some (res, Some h') /\
    ((res = Some r /\ (forall y, y ∈ r :: m -> vh_comp h y r = false) /\ vh_comp h' = vh_comp h /\
      exists l', heap_of h' l' /\ l' ≡ₚ m) \/
     (res = None /\ h' = h /\ ok = false)).
Proof.
  intros Hc Hh. pose proof (heap_of_le _ _ Hh) as Hle. simpl in Hle.
  destruct Hh as [(rest & Hd) Hl Hn Hm (k & Hk) Ho]. unfold elektraVheapRemove, elektraVheapIsEmpty.
  rewrite Hn. cbn [length Nat.eqb Z.eqb negb]. rewrite Nat.sub_succ, Nat.sub_0_r.
  assert (forall y, y ∈ r :: m -> vh_comp h y r = false) as Hmin.
  { intros y [i Hy]%list_elem_of_lookup_1. destruct Hc. by eapply heap_root. }
  assert (forall d size rest, d = (Some <$> (r :: m)) ++ rest -> length d = size ->
    (exists k, size = vh_minSize h * 2 ^ k) -> exists d' l',
    remove_first (vh_comp h) d (length m) = Some (r, d') /\
    heap_of (mkVheap (vh_minSize h) size (length m) (vh_comp h) d') l' /\ l' ≡ₚ m) as Hrem
    by (intros; by eapply remove_first_heap).
  destruct (Nat.ltb_spec (vh_minSize h) (vh_size h)) as [Hbig|];
    [destruct (Nat.leb_spec (length m) (vh_size h / 4)) as [Hq|]|]; cbn [andb].
  - destruct ok; cbn [negb]; [|exists None, h; auto].
    destruct (shrink_room _ _ _ Hm Hk Hbig) as [Hroom Hhalf].
    destruct (realloc_cells_prefix (r :: m) rest (vh_size h / 2)) as (rest' & Hr & Hlen'); [simpl length; lia|].
    rewrite Hd, Hr. destruct (Hrem _ _ rest' eq_refl Hlen' Hhalf) as (d & l & -> & Hl' & Hp).
    eexists _, _. split; [done|]. left. split_and!; [done..|]. by exists l.
  - destruct (Hrem _ _ rest Hd Hl) as (d & l & -> & Hl' & Hp); [by exists k|].
    eexists _, _. split; [done|]. left. split_and!; [done..|]. by exists l.
  - destruct (Hrem _ _ rest Hd Hl) as (d & l & -> & Hl' & Hp); [by exists k|].
    eexists _, _. split; [done|]. left. split_and!; [done..|]. by exists l.
Qed.
End Vheap.
Arguments Vheap : clear implicits.
