(* ===== verification/Opmphm.v ===== *)
(** * Opmphm: the mapping step of the order preserving minimal perfect hash map

    [libs/elektra/opmphm.c].  The keys are edges of a bipartite graph with
    [2 * r] vertices; three hash values of a key decide about its edge.  Each
    vertex has the list of its edges, linked through the edges.  The hash values are
    [uint32_t], the links [int]; the ratio between names and vertices is a [double].
    [rand_r] of the C library and the function that gives the names of the data are
    arguments. *)
From Stdlib Require Import SpecFloat.
From S2P Require Export Prelude.

(** ** 32 bit words *)

Definition word32 (z : Z) : Z := (z mod 2 ^ 32)%Z.
Definition wadd (a b : Z) : Z := word32 (a + b).
Definition wsub (a b : Z) : Z := word32 (a - b).

(** [OPMPHM_HASHFUNCTION_ROT] *)
Definition rot (x k : Z) : Z := Z.lor (word32 (Z.shiftl x k)) (Z.shiftr x (32 - k)).

Definition triple : Type := Z * Z * Z.

(** [OPMPHM_HASHFUNCTION_MIX] *)
Definition mix '((a, b, c) : triple) : triple :=
  let a := Z.lxor (wsub a c) (rot c 4) in
  let c := wadd c b in
  let b := Z.lxor (wsub b a) (rot a 6) in
  let a := wadd a c in
  let c := Z.lxor (wsub c b) (rot b 8) in
  let b := wadd b a in
  let a := Z.lxor (wsub a c) (rot c 16) in
  let c := wadd c b in
  let b := Z.lxor (wsub b a) (rot a 19) in
  let a := wadd a c in
  let c := Z.lxor (wsub c b) (rot b 4) in
  let b := wadd b a in
  (a, b, c).

(** [OPMPHM_HASHFUNCTION_FINAL] *)
Definition final '((a, b, c) : triple) : triple :=
  let c := wsub (Z.lxor c b) (rot b 14) in
  let a := wsub (Z.lxor a c) (rot c 11) in
  let b := wsub (Z.lxor b a) (rot a 25) in
  let c := wsub (Z.lxor c b) (rot b 16) in
  let a := wsub (Z.lxor a c) (rot c 4) in
  let b := wsub (Z.lxor b a) (rot a 14) in
  let c := wsub (Z.lxor c b) (rot b 24) in
  (a, b, c).

(** ** The hash function *)

(** The memory at and behind the pointer [key]; the function reads whole words,
    also behind the end of the key. *)
Abbreviation memory := (nat -> ascii).

(** [k[i]] on a little endian machine. *)
Definition k_word (m : memory) (k i : nat) : Z :=
  let b j := uchar (m (k + 4 * i + j)) in
  (b 0%nat + 2 ^ 8 * b 1%nat + 2 ^ 16 * b 2%nat + 2 ^ 24 * b 3%nat)%Z.

(** The [switch] on the last bytes: what is added to [a], [b] and [c].  Words a
    case does not mention are not read. *)
Definition last_words (m : memory) (k length : nat) : triple :=
  let masked i n := if n =? 4 then k_word m k i else Z.land (k_word m k i) (2 ^ (8 * Z.of_nat n) - 1) in
  if length <=? 4 then (masked 0 length, 0%Z, 0%Z)
  else if length <=? 8 then (k_word m k 0, masked 1 (length - 4), 0%Z)
  else (k_word m k 0, k_word m k 1, masked 2 (length - 8)).

Definition add_triple '((a, b, c) : triple) '((x, y, z) : triple) : triple := (wadd a x, wadd b y, wadd c z).

(** [while (length > 12)]; [None] without fuel. *)
Fixpoint hash_loop (fuel : nat) (m : memory) (k length : nat) (t : triple) : option Z :=
  match fuel with
  | O => None
  | S fuel =>
      if 12 <? length
      then hash_loop fuel m (k + 12) (length - 12) (mix (add_triple t (k_word m k 0, k_word m k 1, k_word m k 2)))
      else if length =? 0 then Some (snd t)
      else Some (snd (final (add_triple t (last_words m k length))))
  end.

Definition opmphmHashfunction (key : memory) (length : nat) (initval : Z) : option Z :=
  let init := wadd (word32 (3735928559 + word32 (Z.of_nat length))) initval in
  hash_loop (S length) key 0 length (init, init, init).

(** A string with its NUL and what is behind it. *)
Definition string_memory (s : cstr) (behind : memory) : memory :=
  fun i => if i =? length s then NUL else match s !! i with Some c => c | None => behind (i - length s - 1) end.

(** ** Random numbers *)

Section Mapping.
Context (rand_r : Z -> Z * Z).

(** The result and the new seed; the product is one of unsigned ints. *)
Definition opmphmRandom (seed : Z) : Z * Z := rand_r (word32 (16807 * seed) mod 2147483647)%Z.

(** ** The graph *)

(** The links are [int]: -1 at the end of a list.  The hash values are [uint32_t]. *)
Record Vertex := mkVertex { firstEdge : Z; degree : nat }.
Record Edge := mkEdge { h0 : nat; h1 : nat; h2 : nat; nextEdge0 : Z; nextEdge1 : Z }.

(** The value of [opmphmRatio], 0.75, as a double; a program may change it. *)
Definition opmphmRatio : spec_float := S754_finite false 6755399441055744 (-53).

(** [size_t r = opmphmRatio * n]: the number becomes a double, and the product is
    truncated; [None] when [size_t] does not have its value. *)
Definition opmphm_r (ratio : spec_float) (n : nat) : option nat :=
  let size z := if ((0 <=? z) && (z <? 2 ^ 64))%Z then Some (Z.to_nat z) else None in
  match SFmul 53 1024 ratio (binary_normalize 53 1024 (Z.of_nat n) 0 false) with
  | S754_zero _ => Some 0
  | S754_finite s m e =>
      let z := Z.shiftl (Zpos m) e in size (if s then - z else z)%Z
  | S754_infinity _ | S754_nan => None
  end.

(** With the ratio of the library a single name has no vertices. *)
Example opmphm_r_values :
  forallb (fun n => bool_decide (opmphm_r opmphmRatio n = Some (3 * n / 4))) (seq 0 100) = true /\
  opmphm_r opmphmRatio 0 = Some 0 /\ opmphm_r opmphmRatio 1 = Some 0 /\ opmphm_r opmphmRatio 2 = Some 1.
Proof. vm_compute. done. Qed.

(** The conversion of a [size_t] to [int], with two's complement. *)
Definition to_int (i : nat) : Z := let z := word32 (Z.of_nat i) in (if z <? 2 ^ 31 then z else z - 2 ^ 32)%Z.

Definition new_vertices (r : nat) : list Vertex := replicate (r * 2) (mkVertex (-1) 0).

(** [vertices[v].firstEdge = i; ++vertices[v].degree] *)
Definition link (i : nat) (v : Vertex) : Vertex := mkVertex (to_int i) (S (degree v)).

Definition first_at (vertices : list Vertex) (v : nat) : Z :=
  match vertices !! v with Some x => firstEdge x | None => (-1)%Z end.

(** Adds the edge with the hash values [a], [b] and [c]. *)
Definition add_edge (st : list Vertex * list Edge) (hs : nat * nat * nat) : list Vertex * list Edge :=
  let '(vertices, edges) := st in
  let '(a, b, c) := hs in
  let i := length edges in
  let next0 := first_at vertices b in
  let vertices := alter (link i) b vertices in
  let next1 := first_at vertices c in
  let vertices := alter (link i) c vertices in
  (vertices, edges ++ [mkEdge a b c next0 next1]).

(** The hash values of a name; what is behind it in memory is an argument.  With
    [r] 0 the code divides by zero. *)
Definition edge_hashes (seeds : triple) (n r : nat) (behind : cstr -> memory) (name : cstr) : option (nat * nat * nat) :=
  let '(s0, s1, s2) := seeds in
  let hash s := opmphmHashfunction (string_memory name (behind name)) (length name) s in
  if r =? 0 then None
  else
    match hash s0, hash s1, hash s2 with
    | Some x, Some y, Some z =>
        Some (Z.to_nat (x mod Z.of_nat n), Z.to_nat (y mod Z.of_nat r), Z.to_nat (word32 (z mod Z.of_nat r + Z.of_nat r)))
    | _, _, _ => None
    end.

Fixpoint hash_names (seeds : triple) (n r : nat) (behind : cstr -> memory) (names : list cstr) : option (list (nat * nat * nat)) :=
  match names with
  | [] => Some []
  | x :: xs =>
      match edge_hashes seeds n r behind x, hash_names seeds n r behind xs with
      | Some h, Some hs => Some (h :: hs)
      | _, _ => None
      end
  end.

(** [edges[e]]; there is no edge with a negative index. *)
Definition edge_at (edges : list Edge) (e : Z) : option Edge := if (e <? 0)%Z then None else edges !! Z.to_nat e.

(** The inner and the outer loop over the edges of a vertex: whether two edges are
    equal. *)
Fixpoint equal_edge (fuel : nat) (edges : list Edge) (x : Edge) (e1 : Z) : option bool :=
  if (e1 =? -1)%Z then Some false
  else
    match fuel, edge_at edges e1 with
    | S fuel, Some y =>
        if (h0 x =? h0 y) && (h2 x =? h2 y) then Some true else equal_edge fuel edges x (nextEdge0 y)
    | _, _ => None
    end.

Fixpoint equal_edges (fuel : nat) (edges : list Edge) (e0 : Z) : option bool :=
  if (e0 =? -1)%Z then Some false
  else
    match fuel, edge_at edges e0 with
    | S fuel, Some x =>
        match equal_edge fuel edges x (nextEdge0 x) with
        | Some false => equal_edges fuel edges (nextEdge0 x)
        | b => b
        end
    | _, _ => None
    end.

(** [for (i < r)] *)
Fixpoint check_vertices (edges : list Edge) (vertices : list Vertex) : option Z :=
  match vertices with
  | [] => Some 0%Z
  | v :: vs =>
      match equal_edges (length edges) edges (firstEdge v) with
      | Some true => Some 1%Z
      | Some false => check_vertices edges vs
      | None => None
      end
  end.

(** The result, the seeds, the new seed and the graph. *)
Record Mapped := mkMapped { mp_ret : Z; mp_seeds : triple; mp_seed : Z; mp_vertices : list Vertex; mp_edges : list Edge }.

Definition opmphmMapping (ratio : spec_float) (behind : cstr -> memory) (names : list cstr) (seed : Z) : option Mapped :=
  let (s0, seed) := opmphmRandom seed in
  let (s1, seed) := opmphmRandom seed in
  let (s2, seed) := opmphmRandom seed in
  let n := length names in
  match opmphm_r ratio n with
  | None => None
  | Some r =>
      match hash_names (s0, s1, s2) n r behind names with
      | None => None
      | Some hs =>
          let (vertices, edges) := fold_left add_edge hs (new_vertices r, []) in
          match check_vertices edges (take r vertices) with
          | None => None
          | Some ret => Some (mkMapped ret (s0, s1, s2) seed vertices edges)
          end
      end
  end.
End Mapping.

(** ** The hash function looks at the key only *)

(** Two values of the function its author gives. *)
Example hash_reference :
  let name := lit "Four score and seven years ago" in
  opmphmHashfunction (string_memory name (fun _ => NUL)) 30 0 = Some 393676113%Z (* 0x17770551 *) /\
  opmphmHashfunction (string_memory name (fun _ => NUL)) 30 1 = Some 3445784929%Z (* 0xcd628161 *).
Proof. split; vm_compute; reflexivity. Qed.

Lemma k_word_ext m m' k i : (forall j, j < 4 -> m (k + 4 * i + j) = m' (k + 4 * i + j)) -> k_word m k i = k_word m' k i.
Proof. intros H. unfold k_word. by rewrite !H by lia. Qed.

Lemma land_low a n : (0 <= n)%Z -> Z.land a (2 ^ n - 1) = (a mod 2 ^ n)%Z.
Proof. intros Hn. replace (2 ^ n - 1)%Z with (Z.ones n) by (rewrite Z.ones_equiv; lia). by apply Z.land_ones. Qed.

(** The bytes of a word that its mask lets through. *)
Lemma masked_ext m m' k i n :
  n < 4 -> (forall j, j < n -> m (k + 4 * i + j) = m' (k + 4 * i + j)) ->
  Z.land (k_word m k i) (2 ^ (8 * Z.of_nat n) - 1) = Z.land (k_word m' k i) (2 ^ (8 * Z.of_nat n) - 1).
Proof.
  intros Hn H. rewrite !land_low by lia. unfold k_word. destruct n as [|[|[|[|]]]]; [| | | |lia];
    rewrite ?(H 0), ?(H 1), ?(H 2) by lia; simpl Z.mul; simpl Z.pow; Z.div_mod_to_equations; lia.
Qed.

Lemma last_words_ext m m' k n :
  0 < n <= 12 -> (forall j, j < n -> m (k + j) = m' (k + j)) -> last_words m k n = last_words m' k n.
Proof.
  intros Hn H.
  assert (forall i c, 4 * i + c <= n -> c <= 4 ->
    (if c =? 4 then k_word m k i else Z.land (k_word m k i) (2 ^ (8 * Z.of_nat c) - 1)) =
    (if c =? 4 then k_word m' k i else Z.land (k_word m' k i) (2 ^ (8 * Z.of_nat c) - 1))) as Hm.
  { intros i c Hi Hc. destruct (Nat.eqb_spec c 4).
    - apply k_word_ext. intros j Hj. rewrite <- Nat.add_assoc. apply H. lia.
    - apply masked_ext; [lia|]. intros j Hj. rewrite <- Nat.add_assoc. apply H. lia. }
  assert (forall i, 4 * i + 4 <= n -> k_word m k i = k_word m' k i) as Hw by (intros i Hi; by apply (Hm i 4)).
  unfold last_words. destruct (Nat.leb_spec n 4); [by rewrite (Hm 0) by lia|].
  destruct (Nat.leb_spec n 8); rewrite (Hw 0) by lia; [by rewrite (Hm 1) by lia|].
  by rewrite (Hw 1), (Hm 2) by lia.
Qed.

Lemma hash_loop_ext fuel m m' k n t :
  (forall j, j < n -> m (k + j) = m' (k + j)) -> hash_loop fuel m k n t = hash_loop fuel m' k n t.
Proof.
  revert k n t. induction fuel as [|fuel IH]; intros k n t H; [done|]. cbn [hash_loop].
  destruct (Nat.ltb_spec 12 n) as [Hn|Hn].
  - rewrite !(k_word_ext m m' k) by (intros j Hj; rewrite <- Nat.add_assoc; apply H; lia).
    apply IH. intros j Hj. rewrite <- !Nat.add_assoc. apply H. lia.
  - destruct (Nat.eqb_spec n 0); [done|]. by rewrite (last_words_ext m m') by (lia || done).
Qed.

Lemma hash_loop_returns fuel m k n t : n < fuel -> exists z, hash_loop fuel m k n t = Some z.
Proof.
  revert k n t. induction fuel as [|fuel IH]; intros k n t Hf; [lia|]. cbn [hash_loop].
  destruct (Nat.ltb_spec 12 n); [apply IH; lia|]. destruct (n =? 0); eauto.
Qed.

(** The hash value of a string exists and does not depend on the memory behind
    the string, of which the function reads up to three bytes behind the
    last word it uses. *)
Theorem opmphmHashfunction_local s behind initval :
  exists z, forall behind', opmphmHashfunction (string_memory s behind') (length s) initval = Some z /\
    opmphmHashfunction (string_memory s behind) (length s) initval = Some z.
Proof.
  destruct (hash_loop_returns (S (length s)) (string_memory s behind) 0 (length s)
    (let i := wadd (word32 (3735928559 + word32 (Z.of_nat (length s)))) initval in (i, i, i))) as [z Hz]; [lia|].
  exists z. intros behind'. split; [|done]. rewrite <- Hz. apply hash_loop_ext. intros j Hj. simpl. unfold string_memory.
  destruct (Nat.eqb_spec j (length s)); [done|]. by destruct (lookup_lt_is_Some_2 s j Hj) as [c ->].
Qed.

(** ** The graph *)

(** The edges before [k] that have [v] as the vertex [sel] gives, the last first. *)
Fixpoint incident (sel : Edge -> nat) (edges : list Edge) (v k : nat) : list nat :=
  match k with
  | O => []
  | S k =>
      match edges !! k with
      | Some e => if sel e =? v then k :: incident sel edges v k else incident sel edges v k
      | None => incident sel edges v k
      end
  end.

(** Following [next] from [e] gives exactly [l]. *)
Fixpoint chained (next : Edge -> Z) (edges : list Edge) (e : Z) (l : list nat) : Prop :=
  match l with
  | [] => e = (-1)%Z
  | i :: l => e = Z.of_nat i /\ exists x, edges !! i = Some x /\ chained next edges (next x) l
  end.

Definition side (r v : nat) : Edge -> nat := if decide (v < r) then h1 else h2.
Definition next_on (r v : nat) : Edge -> Z := if decide (v < r) then nextEdge0 else nextEdge1.

Lemma side_left r v : v < r -> side r v = h1 /\ next_on r v = nextEdge0.
Proof. intros Hv. unfold side, next_on. by rewrite !decide_True. Qed.

Lemma side_right r v : r <= v -> side r v = h2 /\ next_on r v = nextEdge1.
Proof. intros Hv. unfold side, next_on. by rewrite !decide_False by lia. Qed.

Definition in_range (r : nat) (x : Edge) : Prop := h1 x < r /\ r <= h2 x < 2 * r.

(** The lists of the vertices are the edges of the vertices. *)
Record graph_ok (r : nat) (vertices : list Vertex) (edges : list Edge) : Prop := {
  gr_length : length vertices = 2 * r;
  gr_range : Forall (in_range r) edges;
  gr_lists v x : vertices !! v = Some x ->
    chained (next_on r v) edges (firstEdge x) (incident (side r v) edges v (length edges)) /\
    degree x = length (incident (side r v) edges v (length edges))
}.

Lemma incident_app sel edges more v k : k <= length edges -> incident sel (edges ++ more) v k = incident sel edges v k.
Proof.
  induction k as [|k IH]; intros Hk; [done|]. cbn [incident]. rewrite lookup_app_l by lia. rewrite IH by lia. done.
Qed.

Lemma incident_snoc sel edges e v :
  incident sel (edges ++ [e]) v (length (edges ++ [e])) =
  if sel e =? v then length edges :: incident sel edges v (length edges) else incident sel edges v (length edges).
Proof.
  rewrite length_app, Nat.add_1_r. cbn [incident]. rewrite lookup_app_r, Nat.sub_diag by lia. simpl.
  by rewrite incident_app.
Qed.

Lemma chained_app next edges more e l : chained next edges e l -> chained next (edges ++ more) e l.
Proof.
  revert e. induction l as [|i l IH]; intros e; [done|]. intros [-> (x & Hx & Hl)]. split; [done|].
  exists x. split; [by apply lookup_app_l_Some|by apply IH].
Qed.

Lemma first_at_lookup vertices v x : vertices !! v = Some x -> first_at vertices v = firstEdge x.
Proof. unfold first_at. by intros ->. Qed.

Lemma new_graph_ok r : graph_ok r (new_vertices r) [].
Proof.
  split; [unfold new_vertices; rewrite length_replicate; lia|done|].
  intros v x Hx. unfold new_vertices in Hx. apply lookup_replicate in Hx as [-> _]. done.
Qed.

Lemma lookup_add_edge r vertices b c i v x :
  length vertices = 2 * r -> b < r -> r <= c < 2 * r ->
  alter (link i) c (alter (link i) b vertices) !! v = Some x ->
  exists y, vertices !! v = Some y /\
    (x = link i y /\ (v = b \/ v = c) \/ x = y /\ v <> b /\ v <> c).
Proof.
  intros Hl Hb Hc Hx. destruct (decide (v = c)) as [->|Hvc].
  - rewrite list_lookup_alter_eq, list_lookup_alter_ne in Hx by lia. apply fmap_Some in Hx as (y & Hy & ->). exists y. auto.
  - rewrite list_lookup_alter_ne in Hx by done. destruct (decide (v = b)) as [->|Hvb].
    + rewrite list_lookup_alter_eq in Hx. apply fmap_Some in Hx as (y & Hy & ->). exists y. auto.
    + rewrite list_lookup_alter_ne in Hx by done. exists x. auto.
Qed.

Lemma link_index_small i : (Z.of_nat i < 2 ^ 31)%Z -> to_int i = Z.of_nat i.
Proof.
  intros Hi. unfold to_int, word32. rewrite Z.mod_small by lia. by destruct (Z.ltb_spec (Z.of_nat i) (2 ^ 31)); [|lia].
Qed.

(** The index of the edge behind 2^31 others is negative as a link, and no edge. *)
Theorem to_int_wraps i : Z.of_nat i = (2 ^ 31)%Z -> to_int i = (- 2 ^ 31)%Z /\ forall edges, edge_at edges (to_int i) = None.
Proof.
  intros Hi. assert (to_int i = (- 2 ^ 31)%Z) as E by (unfold to_int, word32; by rewrite Hi). split; [done|]. intros edges. by rewrite E.
Qed.

Lemma edge_at_of_nat edges i : edge_at edges (Z.of_nat i) = edges !! i.
Proof. unfold edge_at. destruct (Z.ltb_spec (Z.of_nat i) 0); [lia|]. by rewrite Nat2Z.id. Qed.

Lemma not_last i : (Z.of_nat i =? -1)%Z = false.
Proof. apply Z.eqb_neq. lia. Qed.

Lemma add_edge_ok r vertices edges a b c :
  graph_ok r vertices edges -> (Z.of_nat (length edges) < 2 ^ 31)%Z -> b < r -> r <= c < 2 * r ->
  exists vertices' e, add_edge (vertices, edges) (a, b, c) = (vertices', edges ++ [e]) /\
    h0 e = a /\ h1 e = b /\ h2 e = c /\ graph_ok r vertices' (edges ++ [e]).
Proof.
  intros [Hl Hr Hlists] Hsmall Hb Hc. unfold add_edge. eexists _, _. split_and!; [done..|].
  rewrite (first_at_lookup _ c) with (x := default (mkVertex (-1) 0) (vertices !! c)).
  2: { rewrite list_lookup_alter_ne by lia. destruct (lookup_lt_is_Some_2 vertices c) as [y ->]; [lia|done]. }
  split.
  - by rewrite !length_alter.
  - apply Forall_app. split; [done|]. by apply Forall_singleton.
  - intros v x Hx. apply (lookup_add_edge r) in Hx as (y & Hy & Hcase); [|done..]. destruct (Hlists v y Hy) as [Hch Hdg].
    rewrite incident_snoc. destruct Hcase as [[-> [->| ->]]|(-> & Hvb & Hvc)].
    + destruct (side_left r b Hb) as [Es En]. rewrite Es, En in *. cbn [h1 firstEdge degree link]. rewrite Nat.eqb_refl.
      cbn [length]. split; [|by rewrite Hdg]. split; [by apply link_index_small|]. eexists. split; [by rewrite lookup_app_r, Nat.sub_diag by lia|].
      cbn [nextEdge0]. rewrite (first_at_lookup _ b y) by done. by apply chained_app.
    + destruct (side_right r c ltac:(lia)) as [Es En]. rewrite Es, En in *. cbn [h2 firstEdge degree link]. rewrite Nat.eqb_refl.
      cbn [length]. split; [|by rewrite Hdg]. split; [by apply link_index_small|]. eexists. split; [by rewrite lookup_app_r, Nat.sub_diag by lia|].
      cbn [nextEdge1]. rewrite Hy. by apply chained_app.
    + assert ((side r v (mkEdge a b c (first_at vertices b) (firstEdge (default (mkVertex (-1) 0) (vertices !! c)))) =? v) = false) as ->.
      { apply Nat.eqb_neq. unfold side. case_decide; simpl; congruence. }
      split; [by apply chained_app|done].
Qed.

(** All edges. *)
Lemma add_edges_ok r hs vertices edges :
  graph_ok r vertices edges -> (Z.of_nat (length edges + length hs) <= 2 ^ 31)%Z ->
  Forall (fun '(_, b, c) => b < r /\ r <= c < 2 * r) hs ->
  exists vertices' more, fold_left add_edge hs (vertices, edges) = (vertices', edges ++ more) /\
    graph_ok r vertices' (edges ++ more) /\ map (fun e => (h0 e, h1 e, h2 e)) more = hs.
Proof.
  intros Hg Hn Hhs. revert vertices edges Hg Hn. induction Hhs as [|[[a b] c] hs [Hb Hc] Hhs IH]; intros vertices edges Hg Hn.
  { exists vertices, []. rewrite app_nil_r. by split_and!. }
  simpl length in Hn. destruct (add_edge_ok r vertices edges a b c Hg ltac:(lia) Hb Hc) as (v1 & e & E & E0 & E1 & E2 & Hg1). cbn [fold_left]. rewrite E.
  destruct (IH v1 _ Hg1 ltac:(rewrite length_app; simpl; lia)) as (v2 & more & -> & Hg2 & Hm). rewrite <- app_assoc in *. exists v2, (e :: more).
  split_and!; [done..|]. simpl. by rewrite Hm, E0, E1, E2.
Qed.

(** ** The comparison of the edges *)

Definition same02 (x y : Edge) : bool := (h0 x =? h0 y) && (h2 x =? h2 y).

Definition same_at (edges : list Edge) (i j : nat) : bool :=
  match edges !! i, edges !! j with Some x, Some y => same02 x y | _, _ => false end.

Fixpoint has_equal (edges : list Edge) (l : list nat) : bool :=
  match l with [] => false | i :: l => existsb (same_at edges i) l || has_equal edges l end.

Lemma equal_edge_spec edges i x fuel e l :
  edges !! i = Some x -> chained nextEdge0 edges e l -> length l <= fuel ->
  equal_edge fuel edges x e = Some (existsb (same_at edges i) l).
Proof.
  intros Hi. revert fuel e. induction l as [|j l IH]; intros fuel e Hc Hf; [by rewrite Hc; destruct fuel|].
  destruct Hc as [-> (y & Hy & Hc)]. destruct fuel as [|fuel]; simpl in Hf; [lia|]. cbn [equal_edge existsb].
  rewrite not_last, edge_at_of_nat.
  unfold same_at at 1. rewrite Hi, Hy. unfold same02. destruct (_ && _); [done|]. apply IH; [done|lia].
Qed.

Lemma equal_edges_spec edges fuel e l :
  chained nextEdge0 edges e l -> length l <= fuel -> equal_edges fuel edges e = Some (has_equal edges l).
Proof.
  revert fuel e. induction l as [|i l IH]; intros fuel e Hc Hf; [by rewrite Hc; destruct fuel|].
  destruct Hc as [-> (x & Hx & Hc)]. destruct fuel as [|fuel]; simpl in Hf; [lia|]. cbn [equal_edges has_equal].
  rewrite not_last, edge_at_of_nat, Hx.
  rewrite (equal_edge_spec edges i x fuel _ l) by (done || lia). destruct (existsb _ l); [done|]. apply IH; [done|lia].
Qed.

Lemma same02_sym x y : same02 x y = same02 y x.
Proof. unfold same02. by rewrite (Nat.eqb_sym (h0 x)), (Nat.eqb_sym (h2 x)). Qed.

Lemma same_at_sym edges i j : same_at edges i j = same_at edges j i.
Proof. unfold same_at. destruct (edges !! i), (edges !! j); [|done..]. apply same02_sym. Qed.

Lemma has_equal_spec edges l : NoDup l -> has_equal edges l = true <-> exists i j, i ∈ l /\ j ∈ l /\ i <> j /\ same_at edges i j = true.
Proof.
  induction 1 as [|i l Hi Hnd IH]; simpl; [split; [done|intros (?&?&?&_); set_solver]|].
  rewrite orb_true_iff, IH, existsb_exists. split.
  - intros [(j & Hj & Hs)|(j & k & ? & ? & ?)].
    + exists i, j. apply list_elem_of_In in Hj. split_and!; [set_solver..| |done]. by intros ->.
    + exists j, k. set_solver.
  - intros (j & k & Hj & Hk & Hne & Hs). apply elem_of_cons in Hj as [->|Hj], Hk as [->|Hk]; [done| | |].
    + left. exists k. by rewrite <- list_elem_of_In.
    + left. exists j. rewrite <- list_elem_of_In. by rewrite same_at_sym.
    + right. by exists j, k.
Qed.

Lemma elem_of_incident sel edges v k i :
  i ∈ incident sel edges v k <-> i < k /\ exists x, edges !! i = Some x /\ sel x = v.
Proof.
  induction k as [|k IH]; simpl; [set_solver by lia|]. destruct (edges !! k) as [e|] eqn:Ek.
  - destruct (Nat.eqb_spec (sel e) v).
    + rewrite elem_of_cons, IH. split; [intros [->|[? ?]]; [eauto|eauto with lia]|].
      intros [Hi H]. destruct (decide (i = k)); [by left|right]. eauto with lia.
    + rewrite IH. split; [intros [? ?]; eauto with lia|]. intros [Hi (x & Hx & Hs)]. split; [|by eauto].
      destruct (decide (i = k)); [subst; congruence|lia].
  - rewrite IH. split; [intros [? ?]; eauto with lia|]. intros [Hi (x & Hx & Hs)]. split; [|by eauto].
    destruct (decide (i = k)); [subst; congruence|lia].
Qed.

Lemma incident_NoDup sel edges v k : NoDup (incident sel edges v k).
Proof.
  induction k as [|k IH]; simpl; [constructor|]. destruct (edges !! k); [|done]. case_match; [|done].
  constructor; [|done]. rewrite elem_of_incident. lia.
Qed.

Lemma incident_length sel edges v k : length (incident sel edges v k) <= k.
Proof. induction k as [|k IH]; simpl; [lia|]. destruct (edges !! k); [|lia]. case_match; simpl; lia. Qed.

Definition equal_lists (edges : list Edge) (v : nat) : bool := has_equal edges (incident h1 edges v (length edges)).

Lemma check_vertices_spec edges vs v0 :
  (forall v x, vs !! v = Some x -> chained nextEdge0 edges (firstEdge x) (incident h1 edges (v0 + v) (length edges))) ->
  check_vertices edges vs = Some (if existsb (equal_lists edges) (seq v0 (length vs)) then 1%Z else 0%Z).
Proof.
  revert v0. induction vs as [|x vs IH]; intros v0 H; [done|]. cbn [check_vertices length seq existsb].
  rewrite (equal_edges_spec edges _ _ (incident h1 edges v0 (length edges))); [| |apply incident_length].
  2: { rewrite <- (Nat.add_0_r v0). by apply (H 0). }
  fold (equal_lists edges v0). destruct (equal_lists edges v0); [done|]. apply IH. intros v y Hy.
  replace (S v0 + v) with (v0 + S v) by lia. by apply H.
Qed.

(** Two edges with the same three hash values. *)
Definition collision (edges : list Edge) : Prop :=
  exists i j x y, i <> j /\ edges !! i = Some x /\ edges !! j = Some y /\ (h0 x, h1 x, h2 x) = (h0 y, h1 y, h2 y).

Lemma equal_lists_spec r edges :
  Forall (in_range r) edges -> existsb (equal_lists edges) (seq 0 r) = true <-> collision edges.
Proof.
  intros Hr. rewrite existsb_exists. unfold equal_lists. split.
  - intros (v & _ & H). apply has_equal_spec in H as (i & j & Hi & Hj & Hne & Hs); [|apply incident_NoDup].
    apply elem_of_incident in Hi as [_ (x & Hx & Hx1)], Hj as [_ (y & Hy & Hy1)]. unfold same_at in Hs. rewrite Hx, Hy in Hs.
    apply andb_true_iff in Hs as [H0%Nat.eqb_eq H2%Nat.eqb_eq]. exists i, j, x, y. split_and!; [done..|congruence].
  - intros (i & j & x & y & Hne & Hx & Hy & [= E0 E1 E2]). exists (h1 x). split.
    { apply in_seq. eapply Forall_lookup_1 in Hr as [? _]; [|exact Hx]. lia. }
    apply has_equal_spec; [apply incident_NoDup|]. exists i, j. rewrite !elem_of_incident.
    apply lookup_lt_Some in Hx as Hi. apply lookup_lt_Some in Hy as Hj. split_and!; eauto.
    unfold same_at. rewrite Hx, Hy. unfold same02. by rewrite E0, E2, !Nat.eqb_refl.
Qed.

Definition hashes_in_range (n r : nat) '((a, b, c) : nat * nat * nat) : Prop := a < n /\ b < r /\ r <= c < 2 * r.

Lemma edge_hashes_returns seeds n r behind name :
  (Z.of_nat (2 * r) <= 2 ^ 32)%Z -> 0 < n -> 0 < r -> exists h, edge_hashes seeds n r behind name = Some h /\ hashes_in_range n r h.
Proof.
  intros H32 Hn Hr. destruct seeds as [[s0 s1] s2]. unfold edge_hashes. destruct (Nat.eqb_spec r 0); [lia|].
  destruct (opmphmHashfunction_local name (behind name) s0) as (x & Hx). destruct (Hx (behind name)) as [-> _].
  destruct (opmphmHashfunction_local name (behind name) s1) as (y & Hy). destruct (Hy (behind name)) as [-> _].
  destruct (opmphmHashfunction_local name (behind name) s2) as (z & Hz). destruct (Hz (behind name)) as [-> _].
  eexists. split; [done|]. simpl.
  pose proof (Z.mod_pos_bound x (Z.of_nat n) ltac:(lia)). pose proof (Z.mod_pos_bound y (Z.of_nat r) ltac:(lia)).
  pose proof (Z.mod_pos_bound z (Z.of_nat r) ltac:(lia)).
  unfold word32. rewrite (Z.mod_small (_ + _)) by lia. lia.
Qed.

Lemma hash_names_returns seeds n r behind names :
  (Z.of_nat (2 * r) <= 2 ^ 32)%Z -> names = [] \/ 0 < n /\ 0 < r -> exists hs, hash_names seeds n r behind names = Some hs /\
    Forall2 (fun name h => edge_hashes seeds n r behind name = Some h /\ hashes_in_range n r h) names hs.
Proof.
  intros H32 H. induction names as [|name names IH]; [by exists []|]. destruct H as [|[Hn Hr]]; [done|].
  destruct (edge_hashes_returns seeds n r behind name H32 Hn Hr) as (h & Eh & Hh).
  destruct IH as (hs & Ehs & Hhs); [by right|]. exists (h :: hs). cbn [hash_names]. rewrite Eh, Ehs. split; [done|]. by constructor.
Qed.

(** C17.  With up to 2^31 names, whose indices fit into the links, and up to 2^32 vertices
    [opmphmMapping] returns unless it divides by zero: it does so exactly when there are
    names but no vertices, as for a single name with the ratio of the library
    ([opmphm_r_values]).  Each name has an edge with its hash values, which are in range;
    the lists of the vertices have exactly the edges of the vertices; and the result is
    1 exactly when two edges have the same three values, so that it must be called
    again. *)
Theorem opmphmMapping_graph rand_r ratio behind names seed r :
  let n := length names in
  opmphm_r ratio n = Some r -> (Z.of_nat n <= 2 ^ 31)%Z -> (Z.of_nat (2 * r) <= 2 ^ 32)%Z ->
  match opmphmMapping rand_r ratio behind names seed with
  | None => names <> [] /\ r = 0
  | Some m =>
      (names = [] \/ 0 < r) /\ graph_ok r (mp_vertices m) (mp_edges m) /\
      Forall2 (fun name x => edge_hashes (mp_seeds m) n r behind name = Some (h0 x, h1 x, h2 x) /\ h0 x < n) names (mp_edges m) /\
      (mp_ret m = 0 \/ mp_ret m = 1)%Z /\ (mp_ret m = 1%Z <-> collision (mp_edges m))
  end.
Proof.
  intros n Hr Hn H32. unfold opmphmMapping. fold n. rewrite Hr.
  destruct (opmphmRandom rand_r seed) as [s0 seed0], (opmphmRandom rand_r seed0) as [s1 seed1], (opmphmRandom rand_r seed1) as [s2 seed2].
  destruct (decide (names = [] \/ 0 < r)) as [Hnr|Hnr].
  2: { assert (r = 0) as -> by lia. destruct names as [|name names]; [naive_solver|done]. }
  destruct (hash_names_returns (s0, s1, s2) n r behind names H32) as (hs & -> & Hhs).
  { destruct names; [by left|]. right. split; [unfold n; simpl; lia|]. by destruct Hnr. }
  destruct (add_edges_ok r hs (new_vertices r) [] (new_graph_ok r)) as (vertices & edges & -> & Hg & Hm).
  { rewrite <- (Forall2_length _ _ _ Hhs). done. }
  { eapply Forall2_Forall_r; [exact Hhs|]. apply Forall_true. by intros name [[a b] c] (_ & _ & ?). }
  simpl in Hg. simpl app. rewrite (check_vertices_spec edges _ 0).
  2: { intros v x Hx. apply lookup_take_Some in Hx as [Hx Hv]. destruct (gr_lists _ _ _ Hg v x Hx) as [Hc _].
       destruct (side_left r v Hv) as [Es En]. by rewrite Es, En in Hc. }
  rewrite length_take, (gr_length _ _ _ Hg). replace (r `min` (2 * r)) with r by lia. cbn [mp_ret mp_edges mp_vertices mp_seeds].
  pose proof (equal_lists_spec r edges (gr_range _ _ _ Hg)) as He.
  split_and!; [done..| | |].
  - rewrite <- Hm in Hhs. apply Forall2_fmap_r in Hhs. eapply Forall2_impl; [exact Hhs|]. by intros name x [? [? _]].
  - destruct (existsb _ _); auto.
  - rewrite <- He. by destruct (existsb _ _).
Qed.
