(* ===== verification/Witnesses.v ===== *)
(** * Witnesses: the properties applied to concrete inputs

    Each lemma applies the property it is named after to a concrete heap, name
    or structure on which all its hypotheses hold. *)
From S2P Require Export Demo Trie Vheap Divide Sync Buildup KdbDemo MetaDemo Opmphm SetMeta Duplicate Rename.
Local Open Scope elektra_scope.

Lemma keyCompareByName_lexicographic_witness :
  keyCompareByName 1 2 demo = Ret (uname_order (uname_of demo_keys 1) (uname_of demo_keys 2)) demo.
Proof. eapply (keyCompareByName_lexicographic 1 2); reflexivity. Defined.

Lemma below_contiguous_witness :
  elektraUnescapeKeyName (lit "user/app") `prefix_of` elektraUnescapeKeyName (lit "user/app/b").
Proof.
  apply (below_contiguous _ _ (elektraUnescapeKeyName (lit "user/app/c"))).
  - exists [ "c"%char; NUL ]. vm_compute. reflexivity.
  - vm_compute. discriminate.
  - vm_compute. discriminate.
Defined.


Lemma ksPop_removes_last_witness :
  wp (ksPop (Some 1%positive))
    (fun r h => r = Some 2%positive /\
       exists s', h_sets h = <[1%positive := s']> demo_sets /\ ks_rep s' [1%positive]) demo.
Proof.
  eapply wp_mono; [apply (ksPop_removes_last (R := knot 1) demo_keys demo_sets 1
    (demo_set [1%positive; 2%positive]) [1%positive] 2 (demo_key "user/app/c" (Some "two") 1 (Some 2%positive)))|].
  - reflexivity.
  - apply (demo_set_rep [1%positive; 2%positive]). simpl. lia.
  - reflexivity.
  - intros r h (Hr & _ & s' & Hs & Hrep & _). eauto.
Defined.

Lemma ksResize_keeps_keys_witness :
  wp (ksResize (Some 1%positive) (Z.of_nat 40))
     (fun _ h => h_keys h = demo_keys /\
        exists s', h_sets h = <[1%positive := s']> demo_sets /\ ks_rep s' [1%positive; 2%positive] /\
          ks_alloc s' = 41 /\ ks_cursor s' = None /\ ks_current s' = 0) demo.
Proof.
  apply (ksResize_keeps_keys (R := knot 1) demo_keys demo_sets 1 (demo_set [1%positive; 2%positive])).
  - reflexivity.
  - apply demo_set_rep. simpl. lia.
  - simpl. lia.
Defined.

Lemma keyGetMeta_finds_witness :
  wp (@keyGetMeta (knot 1) (Some 2%positive) (Some (lit "owner")))
     (fun r h => r = Some 4%positive /\ h_keys h = demo_keys) demo.
Proof.
  eapply wp_mono; [apply (keyGetMeta_finds 0 demo_keys demo_sets 2
    (demo_key "user/app/c" (Some "two") 1 (Some 2%positive)) 2 [4%positive] _ (lit "owner"))|].
  - reflexivity.
  - reflexivity.
  - apply demo_set_ok_2.
  - apply meta_name_owner.
  - intros [x|] h (Hx & HK & _).
    + destruct Hx as [Hx _]. by apply list_elem_of_singleton in Hx as ->.
    + exfalso. apply (Hx 4%positive); [set_solver|demo_eval].
Defined.

Lemma keyCmp_order_witness :
  wp (@keyCmp (knot 1) (Some 1%positive) (Some 2%positive)) (fun r h => (r < 0)%Z /\ h_keys h = demo_keys) demo.
Proof.
  eapply wp_mono; [apply (keyCmp_order 0 demo_keys demo_sets 1 2 (demo_key "user/app/a" (Some "one") 2 None)
    (demo_key "user/app/c" (Some "two") 1 (Some 2%positive)) (demo_kid 1) (demo_kid 2))|].
  1-2: reflexivity.
  1-2: discriminate.
  1-2: apply demo_has_kid; set_solver.
  intros r h (_ & Hlt & _ & HK). split; [|done]. apply Hlt. demo_eval.
Defined.


Lemma keyDel_frees_witness :
  wp (@keyDel (knot 1) (Some 8%positive))
     (fun r h => r = 0%Z /\ h_keys h !! 8%positive = None /\ h_keys h !! 9%positive = None /\
                 h_sets h = delete 4%positive demo_sets) demo.
Proof.
  assert (ks_rep (demo_set [9%positive]) [9%positive]) as Hrep by (apply demo_set_rep; simpl; lia).
  eapply wp_mono; [apply (keyDel_frees 0 demo_keys demo_sets 8 (demo_key "user/app/d" None 0 (Some 4%positive)))|].
  - reflexivity.
  - exists (demo_set [9%positive]), [9%positive]. split_and!; [reflexivity|exact Hrep| | |apply demo_plain; reflexivity].
    + apply (bool_decide_unpack _). vm_compute. exact I.
    + apply (bool_decide_unpack _). vm_compute. exact I.
  - intros r h (Hr & H). specialize (H _ _ eq_refl Hrep). subst h. split_and!; [done|reflexivity..].
Defined.


Lemma ksLookup_cascades_witness :
  wp (@ksLookup demo_callbacks 1 (Some 1%positive) (Some 5%positive) 0)
     (fun r h => r = Some 2%positive /\ h_keys h !! 2%positive = demo_keys !! 2%positive) demo.
Proof.
  eapply wp_mono; [apply (ksLookup_cascades 0 demo_keys demo_sets 1 [1%positive; 2%positive] 5
    (demo_key "/app/c" None 0 None) (lit "/app/c") 0)|].
  - apply demo_set_ok_1.
  - reflexivity.
  - reflexivity.
  - reflexivity.
  - reflexivity.
  - reflexivity.
  - apply (bool_decide_unpack _). vm_compute. exact I.
  - repeat split.
  - reflexivity.
  - right. demo_eval.
  - intros r h (Hr & HK & _). rewrite HK. split; [rewrite Hr|]; demo_eval.
Defined.

Lemma ksLookupByString_first_witness :
  wp (@ksLookupByString demo_callbacks 1 (Some 4%positive) (Some (lit "A KEY TO DELETE")) KDB_O_NOCASE)
     (fun r h => r = Some 9%positive) demo.
Proof.
  eapply wp_mono; [apply (ksLookupByString_first 1 demo_keys demo_sets 4 (demo_set [9%positive]) [9%positive])|].
  - reflexivity.
  - apply demo_set_rep. simpl. lia.
  - repeat constructor; eexists; split; reflexivity.
  - reflexivity.
  - intros r h (Hr & _). rewrite Hr. demo_eval.
Defined.

#[local] Instance demo_laws : RecLaws (knot (CB := demo_callbacks) 1) := knot_laws 0.

Lemma ksSearchInternal_position_witness :
  wp (@ksSearchInternal (knot 1) 1%positive 3%positive) (fun r h => (r < 0)%Z /\ h_keys h = demo_keys) demo.
Proof.
  eapply wp_mono; [apply (ksSearchInternal_position demo_kid demo_keys demo_sets 1 3 [1%positive; 2%positive])|].
  - apply demo_keyset_ok.
  - apply demo_has_kid. set_solver.
  - intros r h (HK & _ & H). split; [|done]. destruct (Z.leb_spec 0 r); [|done].
    destruct H as (x & Hx & Hid). apply list_elem_of_lookup_2 in Hx. exfalso.
    apply elem_of_cons in Hx as [->|Hx]; [|apply list_elem_of_singleton in Hx as ->];
      revert Hid; vm_compute; discriminate.
Defined.

Lemma ksAppendKey_inserts_witness :
  wp (@ksAppendKey (knot 1) (Some 1%positive) (Some 3%positive))
     (fun r h => r = 3%Z /\ exists s, h_sets h !! 1%positive = Some s /\ ks_cursor s = Some 3%positive) demo.
Proof.
  eapply wp_mono; [apply (ksAppendKey_inserts demo_kid demo_keys demo_sets 1 3 [1%positive; 2%positive]
    (demo_key "user/app/b" None 1 None))|].
  - apply demo_keyset_ok.
  - reflexivity.
  - discriminate.
  - apply demo_has_kid. set_solver.
  - apply demo_apart.
  - intros x Hx. apply elem_of_cons in Hx as [->|Hx]; [|apply list_elem_of_singleton in Hx as ->];
      vm_compute; discriminate.
  - intros r h (Hr & i & _ & _ & _ & _ & (s & Hs & Hc & _) & _). eauto.
Defined.

Lemma ksAppendKey_present_witness :
  wp (@ksAppendKey (knot 1) (Some 1%positive) (Some 2%positive)) (fun r h => r = 2%Z) demo.
Proof.
  eapply wp_mono; [apply (ksAppendKey_present demo_kid demo_keys demo_sets 1 2 [1%positive; 2%positive]
    (demo_key "user/app/c" (Some "two") 1 (Some 2%positive)))|].
  - apply demo_keyset_ok.
  - reflexivity.
  - discriminate.
  - set_solver.
  - intros r h (Hr & _). exact Hr.
Defined.

Lemma ksAppendKey_replaces_witness :
  wp (@ksAppendKey (knot 1) (Some 1%positive) (Some 7%positive))
     (fun r h => r = 2%Z /\ exists k, h_keys h !! 1%positive = Some k /\ k_ksReference k = 1) demo.
Proof.
  eapply wp_mono; [apply (ksAppendKey_replaces demo_kid demo_keys demo_sets 1 7 [1%positive; 2%positive]
    (demo_key "user/app/a" None 0 None) 0 1)|].
  - apply demo_keyset_ok.
  - reflexivity.
  - discriminate.
  - apply demo_has_kid. set_solver.
  - apply demo_apart.
  - reflexivity.
  - demo_eval.
  - discriminate.
  - eexists. split; [reflexivity|by left].
  - apply demo_not_metadata.
  - intros r h (Hr & HK & _). split; [exact Hr|]. rewrite HK. eexists. split; reflexivity.
Defined.

Lemma ksAppend_merges_witness :
  wp (@ksAppend (knot 1) (Some 1%positive) (Some 3%positive))
     (fun r h => r = 3%Z /\ keyset_ok (h_keys h) (h_sets h) demo_kid 1 [1%positive; 3%positive; 2%positive]) demo.
Proof.
  eapply wp_mono; [apply (ksAppend_merges demo_kid demo_keys demo_sets 1 3 [1%positive; 2%positive] [1%positive; 3%positive])|].
  - split; [apply demo_keyset_ok|apply demo_keyset_ok_3|done| | | |].
    + intros x k Hx Hk. repeat (apply elem_of_cons in Hx as [->|Hx]; [by injection Hk as <-|]). by apply not_elem_of_nil in Hx.
    + intros y k Hk Hm. by destruct (demo_metas _ _ _ Hk Hm).
    + intros y k _ Hk Hm. by destruct (demo_metas _ _ _ Hk Hm).
    + intros z x Hz Hx E. left. apply list_elem_of_In in Hz as [<-|[<-|[]]]; apply list_elem_of_In in Hx as [<-|[<-|[]]]; try done.
      all: by vm_compute in E.
  - intros r h (rs & Hm & -> & Hok & _). assert (rs = [1%positive; 3%positive; 2%positive]) as ->; [|done].
    apply (kid_sorted_ext demo_kid); [|apply Hm|repeat constructor; demo_eval|].
    + intros x. by apply (keyset_ok_kid _ _ _ _ _ _ Hok).
    + intros z. rewrite (proj2 Hm z). split; [set_solver|]. intros [<-|[<-|[<-|[]]]]%list_elem_of_In; [set_solver|set_solver|right].
      split; [set_solver|]. intros y Hy E. apply list_elem_of_In in Hy as [<-|[<-|[]]]; by vm_compute in E.
Defined.

(** ** Metadata *)

Lemma demo_metadata : metadata demo_keys demo_sets (demo_key "user/app/c" (Some "two") 1 (Some 2%positive)) [4%positive] {[ owner_uname := lit "bob" ]}.
Proof.
  split; [apply demo_set_ok_2|exact (demo_plain [4%positive] eq_refl)|]. intros u. destruct (decide (u = owner_uname)) as [->|Hu].
  - assert (find_uname demo_keys [4%positive] owner_uname = Some 4%positive) as -> by demo_eval. rewrite lookup_singleton_eq.
    exists (demo_key "owner" (Some "bob") 1 None). by split_and!.
  - rewrite find_uname_None; [by rewrite lookup_singleton_ne|]. intros x ->%list_elem_of_singleton E. apply Hu. by rewrite <- E.
Qed.

Lemma meta_name_comment : meta_name (lit "comment") (lit "comment").
Proof. meta_name_eval. Qed.

Lemma keySetMeta_updates_witness :
  wp (@keySetMeta (knot 1) (Some 2%positive) (Some (lit "comment")) (Some (lit "new")))
     (fun r h => r = 4%Z /\ exists k' ms', h_keys h !! 2%positive = Some k' /\
        metadata (h_keys h) (h_sets h) k' ms' {[ elektraUnescapeKeyName (lit "comment") := lit "new"; owner_uname := lit "bob" ]}) demo.
Proof.
  eapply wp_mono; [apply (keySetMeta_updates demo_keys demo_sets 2 (demo_key "user/app/c" (Some "two") 1 (Some 2%positive)) [4%positive]
    {[ owner_uname := lit "bob" ]} (lit "comment") (lit "comment") (Some (lit "new")))|].
  - reflexivity.
  - apply demo_metadata.
  - reflexivity.
  - apply meta_name_comment.
  - repeat constructor; discriminate.
  - intros r h (k' & ms' & Hr & Hk' & _ & Hmd & _). split; [exact Hr|]. exists k', ms'. split; [exact Hk'|exact Hmd].
Defined.

Lemma keySetMeta_read_back_witness :
  wp (@keySetMeta (knot 1) (Some 2%positive) (Some (lit "comment")) None;; @read_meta (knot 1) (Some 2%positive) (lit "owner"))
     (fun r _ => r = Some (lit "bob")) demo.
Proof.
  eapply wp_mono; [apply (keySetMeta_read_back demo_keys demo_sets 2 (demo_key "user/app/c" (Some "two") 1 (Some 2%positive)) [4%positive]
    {[ owner_uname := lit "bob" ]} (lit "comment") (lit "comment") None (lit "owner") (lit "owner"))|].
  - reflexivity.
  - apply demo_metadata.
  - reflexivity.
  - apply meta_name_comment.
  - apply meta_name_owner.
  - exact I.
  - intros r h ->. reflexivity.
Defined.

(** ** Copies *)

Lemma demo_metas_allocated : metas_allocated demo_keys demo_sets.
Proof. intros y k m Hk Hm. destruct (demo_metas _ _ _ Hk Hm) as [-> | ->]; eexists; reflexivity. Qed.

Lemma demo_metadata_named x kx : x ∈ [4%positive] -> demo_keys !! x = Some kx -> k_key kx <> None.
Proof. intros ->%list_elem_of_singleton [= <-]. discriminate. Qed.

Lemma ksDup_shares_witness :
  wp (@ksDup (knot 1) (Some 3%positive))
     (fun r h => exists l, r = Some l /\ keyset_ok (h_keys h) (h_sets h) demo_kid l [1%positive; 3%positive] /\
        h_keys h !! 2%positive = demo_keys !! 2%positive) demo.
Proof.
  eapply wp_mono; [apply (ksDup_shares demo_kid demo_keys demo_sets 3 [1%positive; 3%positive])|].
  - apply demo_keyset_ok_3.
  - apply demo_metas_allocated.
  - intros x k Hx Hk. apply list_elem_of_In in Hx as [<-|[<-|[]]]; injection Hk as <-; discriminate.
  - intros r h (l & -> & _ & Hok & _ & HK & _). exists l. split; [reflexivity|]. split; [exact Hok|]. rewrite HK. reflexivity.
Defined.

Lemma keyDup_copies_witness :
  wp (@keyDup (knot 1) (Some 2%positive))
     (fun r h => exists d k ms, r = Some d /\ h_keys h !! d = Some k /\ k_data k = Some (lit "two" ++ [NUL]) /\
        metadata (h_keys h) (h_sets h) k ms {[ owner_uname := lit "bob" ]}) demo.
Proof.
  eapply wp_mono; [apply (keyDup_copies demo_keys demo_sets 2 (demo_key "user/app/c" (Some "two") 1 (Some 2%positive)) [4%positive]
    {[ owner_uname := lit "bob" ]})|].
  - reflexivity.
  - apply demo_metadata.
  - apply demo_metas_allocated.
  - apply demo_metadata_named.
  - intros r h (-> & m & [Hd _ Hmd _ _ _]). eexists _, _, _. split; [reflexivity|]. split; [exact Hd|]. split; [reflexivity|exact Hmd].
Defined.

Lemma keyDup_independent_witness :
  wp (d <- @keyDup (knot 1) (Some 2%positive);; @keySetMeta (knot 1) d (Some (lit "owner")) None)
     (fun _ h => exists k, h_keys h !! 2%positive = Some k /\
        metadata (h_keys h) (h_sets h) k [4%positive] {[ owner_uname := lit "bob" ]}) demo.
Proof.
  eapply wp_mono; [apply (keyDup_independent demo_keys demo_sets 2 (demo_key "user/app/c" (Some "two") 1 (Some 2%positive)) [4%positive]
    {[ owner_uname := lit "bob" ]} (lit "owner") (lit "owner") None)|].
  - reflexivity.
  - apply demo_metadata.
  - apply demo_metas_allocated.
  - apply demo_metadata_named.
  - intros x kx ->%list_elem_of_singleton [= <-]. apply Nat.ltb_lt. reflexivity.
  - apply meta_name_owner.
  - exact I.
  - intros r h (kd & ms' & _ & Hk & _ & Hmd). eexists. split; [exact Hk|exact Hmd].
Defined.

(** ** Renamed levels *)

Lemma doConversion_levels_witness :
  doConversion (lit "/user/Section/Value") 2 TOUPPER = lit "/user/SECTION/VALUE".
Proof.
  transitivity (joined [lit "user"] ++ joined (map (map (conversion TOUPPER)) [lit "Section"; lit "Value"])); [|vm_compute; reflexivity].
  apply (doConversion_levels [lit "user"] [lit "Section"; lit "Value"] TOUPPER); [|discriminate].
  repeat constructor; intros H%list_elem_of_In; vm_compute in H; repeat (destruct H as [H|H]; [discriminate H|]); exact H.
Defined.

(** ** Arrays *)

Lemma array_number_roundtrip_witness :
  elektraReadArrayNumber (snd (count_while is_underscore (tail (elektraWriteArrayNumber 1234)))) = Some 1234%Z.
Proof. apply array_number_roundtrip. unfold INT64_MAX. lia. Defined.

Lemma array_names_sorted_witness :
  Z.sgn (compare_names memcmp (lit "user" ++ NUL :: elektraWriteArrayNumber 9 ++ [NUL])
           (lit "user" ++ NUL :: elektraWriteArrayNumber 10 ++ [NUL])) = (-1)%Z.
Proof. apply (array_names_sorted (lit "user" ++ [NUL]) 9 10); unfold INT64_MAX; lia. Defined.

Definition array_heap : heap :=
  mkHeap {[ 1%positive := demo_key "user/a/#_________9999999999" None 0 None ]} ∅.

Lemma elektraArrayIncName_next_witness : elektraArrayIncName (Some 1%positive) array_heap = Undefined.
Proof.
  refine (proj2 (elektraArrayIncName_next (R := knot 1) (h_keys array_heap) (h_sets array_heap) 1 (demo_key "user/a/#_________9999999999" None 0 None)
    _ _ eq_refl eq_refl eq_refl) (10 ^ 10 - 1)%Z _ _).
  - unfold INT64_MAX. lia.
  - vm_compute. reflexivity.
Defined.

(** ** Mountpoints *)

Definition one_mount : Trie nat := trieInsert None (Some (lit "system/")) (Some 1).

Lemma one_mount_ok : trie_ok (Some one_mount) /\
  forall s, get one_mount s = if decide (s = lit "system/") then Some 1 else None.
Proof. apply trieInsert_new_spec. repeat constructor; discriminate. Qed.

Lemma trieInsert_updates_witness :
  get (trieInsert (Some one_mount) (Some (lit "system/hosts/")) (Some 2)) (lit "system/") = Some 1 /\
  get (trieInsert (Some one_mount) (Some (lit "system/hosts/")) (Some 2)) (lit "system/hosts/") = Some 2.
Proof.
  destruct (trieInsert_updates (Some one_mount) (lit "system/hosts/") 2) as [_ H].
  - apply one_mount_ok.
  - repeat constructor; discriminate.
  - rewrite !H. split; reflexivity.
Defined.

Lemma demo_trie_ok : trie_ok (kdb_trie db_handle).
Proof. apply (trieInsert_new_spec (lit "user/app/") 2%positive). repeat constructor; discriminate. Qed.

Lemma mountGetBackend_longest_witness :
  exists r, is_longest (trie_map (kdb_trie db_handle)) (lit "user/app/a/") r /\
    mountGetBackend (Some 1%positive) (Some 3%positive) (db_state 1) =
    KRet (match r with Some v => Some v | None => Some 1%positive end) (db_state 1).
Proof.
  destruct (mountGetBackend_longest (db_state 1) 1 db_handle 3 (lit "user/app/a")) as (b & Hb & _ & Hr).
  - reflexivity.
  - apply demo_trie_ok.
  - eexists. split; reflexivity.
  - repeat constructor; discriminate.
  - destruct Hr as (r & Hr & ->); [discriminate|]. exists r. split; [exact Hr|exact Hb].
Defined.

(** ** Dividing *)

Lemma demo_dividable :
  dividable divide_kid divide_name divide_state 1 1 db_handle divide_parts 16 [2%positive; 3%positive] 1 [3%positive; 4%positive].
Proof.
  split.
  - reflexivity.
  - discriminate.
  - reflexivity.
  - repeat constructor; eexists _, _; (split; [reflexivity|]); eexists; split; reflexivity.
  - split; [reflexivity|repeat constructor; set_solver|]. intros m _ (x & k & Hx & Hk & Hm).
    repeat (apply elem_of_cons in Hx as [->|Hx]; [injection Hk as <-; discriminate|]). by apply not_elem_of_nil in Hx.
  - intros x Hx. repeat (apply elem_of_cons in Hx as [->|Hx]; [split; [eexists; split; reflexivity|repeat constructor; discriminate]|]).
    by apply not_elem_of_nil in Hx.
  - intros x Hx. repeat (apply elem_of_cons in Hx as [->|Hx]; [eexists; split_and!; reflexivity|]). by apply not_elem_of_nil in Hx.
  - repeat constructor; vm_compute; done.
  - exists (demo_set [3%positive; 4%positive]). split; [reflexivity|]. apply demo_set_rep. simpl. lia.
  - intros m Hm. exists (demo_set []). split; [|apply demo_set_rep; simpl; lia].
    repeat (apply elem_of_cons in Hm as [->|Hm]; [reflexivity|]). by apply not_elem_of_nil in Hm.
Qed.

#[local] Instance divide_laws : RecLaws (@env_rec demo_env) := knot_laws 19.

Lemma splitDivide_routes_witness :
  exists s, splitDivide (Some 1%positive) (Some 1%positive) (Some 1%positive) divide_state = KRet 1%Z s /\
    keyset_ok (h_keys (st_heap s)) (h_sets (st_heap s)) divide_kid 2 [4%positive] /\
    keyset_ok (h_keys (st_heap s)) (h_sets (st_heap s)) divide_kid 3 [3%positive].
Proof.
  destruct (splitDivide_routes divide_kid divide_name divide_state 1 1 db_handle divide_parts 16 [2%positive; 3%positive] 1
    [3%positive; 4%positive] demo_dividable) as (r & s & Hs & Hr & _ & _ & _ & Hp).
  exists s. split_and!.
  - rewrite Hs. f_equal. rewrite Hr. vm_compute. reflexivity.
  - exact (Hp 0 2%positive eq_refl).
  - exact (Hp 1 3%positive eq_refl).
Defined.

Lemma db_no_meta m : no_meta (h_keys (st_heap divide_state)) m.
Proof.
  assert (map_Forall (fun _ k => k_meta k = None) (h_keys (st_heap divide_state))) as H by (apply (bool_decide_unpack _); vm_compute; exact I).
  intros y k Hk Hm. rewrite (H y k Hk) in Hm. discriminate.
Qed.

Lemma demo_routed x : x ∈ [3%positive; 4%positive] -> is_Some (route divide_name (h_keys (st_heap divide_state)) db_handle divide_parts x).
Proof. intros [<-|[<-|[]]]%list_elem_of_In; eexists; vm_compute; reflexivity. Qed.

Lemma splitMerge_gathers_witness :
  exists s, splitMerge (Some 1%positive) (Some 1%positive) divide_state = KRet 1%Z s /\
    exists rs, gathered divide_kid (h_keys (st_heap divide_state)) (h_sets (st_heap divide_state)) 1 [3%positive; 4%positive] [] rs (st_heap s).
Proof.
  destruct (splitMerge_gathers divide_kid divide_state 1 divide_parts 16 1 [3%positive; 4%positive] [2%positive; 3%positive] [[]; []]) as (r & s & Hs & Hr & _ & rs & Hd).
  - reflexivity.
  - reflexivity.
  - pose proof demo_dividable as Hdv. split.
    + split; [exact (dv_source _ _ _ _ _ _ _ _ _ _ _ Hdv)|exact (dv_ids _ _ _ _ _ _ _ _ _ _ _ Hdv)|exact (dv_sorted _ _ _ _ _ _ _ _ _ _ _ Hdv)|].
      apply no_meta_metas, db_no_meta.
    + apply db_no_meta.
    + constructor; [|constructor; [|constructor]]; (split; [discriminate|]; split; [apply db_no_meta|]);
        (eapply keyset_ok_nil; [reflexivity|apply demo_set_rep; simpl; lia]).
    + intros x k Hx. apply not_elem_of_nil in Hx. destruct Hx.
    + cbn [app concat]. intros x y [<-|[<-|[]]]%list_elem_of_In [<-|[<-|[]]]%list_elem_of_In E; try reflexivity; vm_compute in E; discriminate.
  - exists s. split; [rewrite Hs, Hr; reflexivity|]. exists rs. exact Hd.
Defined.

Lemma splitMerge_regroups_witness :
  exists s, kbind (splitDivide (Some 1%positive) (Some 1%positive) (Some 1%positive))
      (fun _ => kbind (lift (ksClear 1)) (fun _ => splitMerge (Some 1%positive) (Some 1%positive))) divide_state = KRet 1%Z s /\
    keyset_ok (h_keys (st_heap s)) (h_sets (st_heap s)) divide_kid 1 [3%positive; 4%positive] /\
    k_ksReference <$> h_keys (st_heap s) !! 3%positive = Some 2.
Proof.
  destruct (splitMerge_regroups divide_kid divide_name divide_state 1 1 db_handle divide_parts 16 [2%positive; 3%positive] 1
    [3%positive; 4%positive] demo_dividable) as (r & s & Hs & Hr & Hok & _ & HK).
  - intros m _. apply db_no_meta.
  - intros x k [<-|[<-|[]]]%list_elem_of_In [= <-]; (split; [apply Nat.leb_le; reflexivity|reflexivity]).
  - apply demo_routed.
  - exists s. split_and!; [rewrite Hs, Hr; reflexivity|exact Hok|]. rewrite HK. reflexivity.
Defined.

Lemma divide_backend_sizes : Forall2 (fun p z => z <> UNREAD /\ backend_size divide_state p z) divide_parts [0%Z; 0%Z].
Proof.
  constructor; [|constructor; [|constructor]]; (split; [discriminate|]); eexists _, _, _, _;
    (split_and!; [reflexivity|eexists; split; reflexivity|reflexivity|reflexivity|reflexivity]).
Qed.

Lemma splitSync_compares_witness :
  exists s, splitSync (Some 1%positive) divide_state = KRet 0%Z s.
Proof.
  destruct (splitSync_compares divide_state 1 divide_parts 16 [(0%Z, 0); (0%Z, 0)]) as (r & parts' & Hs & Hr & _).
  - reflexivity.
  - pose proof divide_backend_sizes as H. apply Forall2_cons in H as [[_ H1] H]. apply Forall2_cons in H as [[_ H2] _].
    constructor; [|constructor; [|constructor]]; (split; [assumption|]); eexists _, _; (split_and!; [reflexivity|reflexivity|reflexivity]).
  - eexists. rewrite Hs. destruct Hr as [-> _]; [repeat constructor; discriminate|]. reflexivity.
Defined.

Lemma splitSync_decides_witness :
  exists s, kbind (splitDivide (Some 1%positive) (Some 1%positive) (Some 1%positive))
      (fun r1 => kbind (splitSync (Some 1%positive)) (fun r2 => kret (Z.lor r1 r2))) divide_state = KRet 1%Z s /\
    exists parts', st_splits s !! 1%positive = Some (mkSplit parts' 16) /\ map part_syncbits parts' = [3%Z; 1%Z].
Proof.
  destruct (splitSync_decides divide_kid divide_name divide_state 1 1 db_handle divide_parts 16 [2%positive; 3%positive] 1
    [3%positive; 4%positive] demo_dividable [0%Z; 0%Z] divide_backend_sizes) as (r & s & Hs & Hr & parts' & Hsp & Hlen & Hparts).
  exists s. split; [rewrite Hs; f_equal; rewrite Hr; vm_compute; reflexivity|]. exists parts'. split; [exact Hsp|].
  destruct parts' as [|p1 [|p2 [|]]]; try discriminate Hlen.
  pose proof (Hparts 0 _ _ eq_refl eq_refl) as H1. pose proof (Hparts 1 _ _ eq_refl eq_refl) as H2.
  injection H1 as ->. injection H2 as ->. vm_compute. reflexivity.
Defined.

(** ** Stack and heap *)

Lemma full_stack {A} (x : A) n :
  1 <= n -> stack_of (mkVstack n n (replicate n (Some x)) (Z.of_nat n)) (replicate n x).
Proof.
  intros Hn. split; simpl; rewrite ?length_replicate; [|done..|].
  - exists []. by rewrite fmap_replicate, app_nil_r.
  - exists 0. simpl. lia.
Qed.

Lemma elektraVstackPush_pushes_witness :
  exists s', elektraVstackPush (Some (mkVstack 2 2 (replicate 2 (Some 7)) 2)) 8 true = Some (0%Z, Some s') /\
    stack_of s' ([7; 7] ++ [8]).
Proof.
  destruct (elektraVstackPush_pushes (mkVstack 2 2 (replicate 2 (Some 7)) 2) [7; 7] 8 true)
    as (rc & s' & E & [[-> H]|(_ & _ & H & _)]); [|simpl; lia|eauto|discriminate].
  apply (full_stack 7 2). lia.
Defined.

Lemma elektraVstackPop_pops_witness :
  exists s', elektraVstackPop (Some (mkVstack 2 2 (replicate 2 (Some 7)) 2)) true = Some (Some 7, Some s') /\ stack_of s' [7].
Proof.
  destruct (elektraVstackPop_pops (mkVstack 2 2 (replicate 2 (Some 7)) 2) [7] 7 true)
    as (rc & s' & E & [[-> H]|(_ & _ & H)]); [|simpl; lia|eauto|discriminate].
  apply (full_stack 7 2). lia.
Defined.

Lemma elektraVstackPush_overflow_witness :
  exists n, Z.of_nat n = (2 ^ 31)%Z /\
    elektraVstackPush (Some (mkVstack n n (replicate n (Some 7)) (Z.of_nat n))) 8 true = None.
Proof.
  destruct (Z_of_nat_complete (2 ^ 31)) as [n E]; [lia|]. exists n. split; [done|].
  apply (elektraVstackPush_overflow _ (replicate n 7)).
  - apply full_stack. lia.
  - apply length_replicate.
  - rewrite length_replicate. simpl. lia.
Defined.

Lemma ltb_strict : strict_weak_order Nat.ltb.
Proof. split; intros; rewrite ?Nat.ltb_lt, ?Nat.ltb_ge in *; lia. Qed.

Definition small_heap : Vheap nat := mkVheap 2 2 2 Nat.ltb [Some 3; Some 5].

Lemma small_heap_of : heap_of small_heap [3; 5].
Proof.
  split; simpl; [by exists []|done|done|lia|by exists 0|].
  intros [|[|i]] Hi; [lia| |]; intros x y; simpl; intros; simplify_eq; done.
Qed.

Lemma elektraVheapInsert_inserts_witness :
  exists h' l', elektraVheapInsert (Some small_heap) 1 true = Some (0%Z, Some h') /\ heap_of h' l' /\ l' ≡ₚ [1; 3; 5].
Proof.
  destruct (elektraVheapInsert_inserts small_heap [3; 5] 1 true)
    as (rc & h' & E & [(-> & _ & l' & ? & ?)|(_ & _ & H & _)]); [|apply small_heap_of|eauto|discriminate].
  apply ltb_strict.
Defined.

Lemma elektraVheapRemove_removes_first_witness :
  exists h' l', elektraVheapRemove (Some small_heap) true = Some (Some 3, Some h') /\ heap_of h' l' /\ l' ≡ₚ [5].
Proof.
  destruct (elektraVheapRemove_removes_first small_heap 3 [5] true)
    as (rc & h' & E & [(-> & _ & _ & l' & ? & ?)|(_ & _ & H)]); [|apply small_heap_of|eauto|discriminate].
  apply ltb_strict.
Defined.

(** ** Names *)

Lemma escaping_fits_buffers_witness : S (length (elektraEscapeKeyNamePart (lit "a/b"))) <= 8.
Proof. apply (proj1 (escaping_fits_buffers (lit "a/b"))). repeat constructor; discriminate. Defined.

(** ** The hierarchy *)

Lemma keyIsBelow_prefix_witness : keyIsBelow (Some 5%positive) (Some 2%positive) demo = Ret 0%Z demo.
Proof.
  apply (keyIsBelow_prefix demo_keys demo_sets 5 2 None [lit "app"; lit "c"] (Some (lit "user")) [lit "app"; lit "c"]).
  - apply demo_cascading_path.
  - apply (demo_has_path 2). set_solver.
Defined.

Lemma keyIsDirectBelow_child_witness : keyIsDirectBelow (Some 1%positive) (Some 2%positive) demo = Ret 0%Z demo.
Proof.
  apply (keyIsDirectBelow_child demo_keys demo_sets 1 2 (Some (lit "user")) [lit "app"; lit "a"]
           (Some (lit "user")) [lit "app"; lit "c"]).
  - apply (demo_has_path 1). set_solver.
  - apply (demo_has_path 2). set_solver.
  - discriminate.
Defined.

Lemma ksCut_splits_witness :
  wp (@ksCut (knot 1) (Some 1%positive) (Some 6%positive))
     (fun r h => exists lr, r = Some lr /\ keyset_ok demo_keys (h_sets h) demo_kid lr [2%positive] /\
                            keyset_ok demo_keys (h_sets h) demo_kid 1%positive [1%positive]) demo.
Proof.
  eapply wp_mono; [apply (ksCut_splits demo_kid demo_path demo_keys demo_sets 1 (demo_set [1%positive; 2%positive])
    [1%positive; 2%positive] 6 (lit "user") [lit "app"; lit "c"])|].
  - apply demo_keyset_ok.
  - reflexivity.
  - by left.
  - intros x Hx. apply demo_has_path. set_solver.
  - apply (demo_has_path 6). set_solver.
  - intros r h (_ & lr & -> & _ & _ & Hr & Hl & _). by exists lr.
Defined.

(** ** Names of keys *)

Lemma keySetName_path_witness :
  wp (@keySetName (knot 1) (Some 3%positive) (Some (lit "user/app/x\/y")))
     (fun r h => h_sets h = demo_sets /\ has_path (h_keys h) 3 (Some (lit "user")) [lit "app"; lit "x/y"]) demo.
Proof.
  eapply wp_mono; [apply (keySetName_path (R := knot 1) demo_keys demo_sets 3 (demo_key "user/app/b" None 1 None)
    eq_refl (Some (lit "user")) [lit "app"; lit "x/y"])|].
  - split; [apply demo_root|]. repeat constructor; discriminate.
  - reflexivity.
  - reflexivity.
  - intros r h (-> & Hp & _). split; [reflexivity|exact Hp].
Defined.

Lemma keyAddName_appends_witness :
  wp (keyAddName (Some 3%positive) (Some (lit "x/y")))
     (fun _ h => has_path (h_keys h) 3 (Some (lit "user")) [lit "app"; lit "b"; lit "x"; lit "y"]) demo.
Proof.
  eapply wp_mono; [apply (keyAddName_appends demo_keys demo_sets 3 (demo_key "user/app/b" None 1 None)
    eq_refl (Some (lit "user")) [lit "app"; lit "b"] [lit "x"; lit "y"])|].
  - apply (demo_has_path 3). set_solver.
  - reflexivity.
  - repeat constructor; discriminate.
  - discriminate.
  - intros r h (_ & Hp & _). exact Hp.
Defined.

Lemma keyAddBaseName_appends_witness :
  wp (keyAddBaseName (Some 3%positive) (Some (lit "x/y")))
     (fun r h => r = 16%Z /\ has_path (h_keys h) 3 (Some (lit "user")) [lit "app"; lit "b"; lit "x/y"]) demo.
Proof.
  eapply wp_mono; [apply (keyAddBaseName_appends demo_keys demo_sets 3 (demo_key "user/app/b" None 1 None)
    eq_refl (Some (lit "user")) [lit "app"; lit "b"] (lit "x/y"))|].
  - apply (demo_has_path 3). set_solver.
  - reflexivity.
  - repeat constructor; discriminate.
  - intros r h (_ & Hp & ->). split; [vm_compute; reflexivity|exact Hp].
Defined.

Lemma keySetBaseName_replaces_witness :
  wp (keySetBaseName (Some 3%positive) (Some (lit "..")))
     (fun r h => has_path (h_keys h) 3 (Some (lit "user")) [lit "app"; lit ".."]) demo.
Proof.
  eapply wp_mono; [apply (keySetBaseName_replaces demo_keys demo_sets 3 (demo_key "user/app/b" None 1 None)
    eq_refl (Some (lit "user")) [lit "app"; lit "b"] (lit ".."))|].
  - apply (demo_has_path 3). set_solver.
  - reflexivity.
  - repeat constructor; discriminate.
  - intros r h (_ & Hp & _). exact Hp.
Defined.

Lemma keyBaseName_last_witness : keyBaseName (Some 3%positive) demo = Ret (Some (lit "b")) demo.
Proof.
  apply (keyBaseName_last demo_keys demo_sets 3 (demo_key "user/app/b" None 1 None) eq_refl
    (Some (lit "user")) [lit "app"; lit "b"]).
  apply (demo_has_path 3). set_solver.
Defined.

(** ** The key database *)

Lemma koutcome_value {A} (o : koutcome A) a :
  match o with KRet b _ => Some b | _ => None end = Some a -> exists s', o = KRet a s'.
Proof. destruct o as [b s| |]; [|done..]. intros [= ->]. by exists s. Qed.

(** Runs the computation of the goal [exists s', m s = KRet a s' /\ ...]. *)
Ltac returns_with :=
  match goal with |- exists s', ?o = KRet ?a s' /\ _ =>
    destruct (koutcome_value o a) as [s' Hrun]; [vm_compute; reflexivity|]; rewrite Hrun
  end.

(** The parent key [user] asks for both parts of the handle. *)
Definition db_where (x : loc) : cstr * list cstr := (lit "user", if decide (x = 2%positive) then [lit "app"] else []).

Lemma db_plain_path x : x ∈ [1%positive; 2%positive; 5%positive] -> plain_path (h_keys db_heap) x (db_where x).
Proof.
  intros Hx. repeat (apply elem_of_cons in Hx as [->|Hx]; [|]); [..|by apply elem_of_nil in Hx].
  all: split; [split; [split; [apply list_elem_of_In; simpl; tauto|repeat constructor; discriminate]|]|];
    eexists; (split; [reflexivity|]); try split; reflexivity.
Qed.

Lemma splitBuildup_demo :
  exists s', splitBuildup (Some 2%positive) (Some 1%positive) (Some 5%positive)
      (set_splits (db_state 2) (<[2%positive := mkSplit [] 16]> (st_splits (db_state 2)))) = KRet 1%Z s' /\
    exists sp, st_splits s' !! 2%positive = Some sp /\ map part_handle (sp_parts sp) = [Some 1%positive; Some 2%positive].
Proof.
  set (s := set_splits _ _).
  set (mounts := [mkPart (Some 2%positive) (Some 1%positive) (Some 1%positive) 2; mkPart (Some 2%positive) (Some 2%positive) (Some 2%positive) 0]).
  destruct (splitBuildup_spec s 2 1 5 db_handle db_where mounts (filter (concerns db_handle db_where (db_where 5)) mounts))
    as (r & s' & Hr & -> & sp & new & a & Hsp & Es & _ & _ & [Hc _ _ _ _]).
  - split; [reflexivity|eexists 1%positive, _; split_and!; reflexivity|].
    constructor; [|constructor; [|constructor]]; eexists; (split; [reflexivity|]); apply db_plain_path; apply list_elem_of_In; simpl; tauto.
  - discriminate.
  - eexists. reflexivity.
  - apply asks_rooted, db_plain_path. apply list_elem_of_In; simpl; tauto.
  - exists s'. split; [exact Hr|]. rewrite Es.
    assert (sp = mkSplit [] 16) as -> by (unfold s in Hsp; cbn [st_splits set_splits] in Hsp; rewrite lookup_insert_eq in Hsp; congruence).
    eexists. split; [apply lookup_insert_eq|].
    assert (filter (concerns db_handle db_where (db_where 5)) mounts = mounts) as Ef by (vm_compute; reflexivity). rewrite Ef in Hc.
    apply Forall2_cons_inv_l in Hc as (q1 & r1 & [H1 _] & Hc & ->). apply Forall2_cons_inv_l in Hc as (q2 & r2 & [H2 _] & Hc & ->).
    apply Forall2_nil_inv_l in Hc as ->. cbn [map sp_parts app]. rewrite H1, H2. reflexivity.
Qed.



(** ** Metadata *)

Lemma elektraSortTopology_orders_witness :
  exists localArray counter donee h0 st h',
    demo_array [("/a", ["/b"]); ("/b", ["/c"]); ("/c", [])]%string (mkHeap ∅ ∅) = Ret (localArray, counter, donee) h0 /\
    collect_loop (Some counter) (Some donee) (mkCollected (fresh_matrix localArray) 0 0) 0 localArray h0 = Ret (inl st) h' /\
    resolves false (co_unresolved st)
      (fst (fold_left resolve_immediately (seq 0 (length localArray)) (co_matrix st, co_depCount st))).
Proof.
  eexists _, _, _, _, _, _. split; [vm_compute; reflexivity|].
  match goal with |- ?P /\ _ => assert P as Hc by (vm_compute; reflexivity) end.
  split; [exact Hc|]. eapply elektraSortTopology_orders, Hc.
Defined.

Lemma meta_numbers_roundtrip_witness :
  uint32 (default (-1)%Z (strtol_all 10 (print_d 4294967294))) = 4294967294%Z /\
  strtol_all 8 (print_base 8 493) = Some 493%Z /\ strtol_all 10 (print_lu 1500000000) = Some 1500000000%Z.
Proof.
  split; [|split].
  - apply (meta_numbers_roundtrip 4294967294); done.
  - apply (meta_numbers_roundtrip 493); done.
  - apply (meta_numbers_roundtrip 1500000000); done.
Defined.

Lemma opmphmMapping_graph_witness :
  exists m, opmphmMapping (fun s => (s, wadd s 1)) opmphmRatio (fun _ _ => NUL) [lit "user/a"; lit "user/b"; lit "user/c"] 7 = Some m /\
    graph_ok 2 (mp_vertices m) (mp_edges m) /\ length (mp_edges m) = 3 /\ (mp_ret m = 1%Z <-> collision (mp_edges m)).
Proof.
  pose proof (opmphmMapping_graph (fun s => (s, wadd s 1)) opmphmRatio (fun _ _ => NUL) [lit "user/a"; lit "user/b"; lit "user/c"] 7 2) as H.
  cbv zeta in H. specialize (H ltac:(vm_compute; reflexivity) ltac:(vm_compute; discriminate) ltac:(vm_compute; discriminate)).
  match type of H with match ?o with _ => _ end => destruct o as [m|] end.
  - destruct H as (_ & Hg & Hf & _ & Hc). exists m. split_and!; [reflexivity|exact Hg|symmetry; exact (Forall2_length _ _ _ Hf)|exact Hc].
  - destruct H as [_ H]. discriminate H.
Defined.
