(* ===== verification/PluginWitnesses.v ===== *)
(** * PluginWitnesses: the properties of the plugins applied to concrete inputs

    Keysets with one or two keys with their metadata, and a key of the
    namespace spec. *)
From S2P Require Export Demo KdbDemo MetaDemo Cachefilter SetMeta Boolean Null Rename SpecFacts Lineendings LineFacts CsvFacts.
#[local] Open Scope elektra_scope.

#[local] Instance plugin_laws : RecLaws (@env_rec demo_env) := knot_laws 19.

Lemma elektraHexcode_roundtrip_witness :
  wp (set <- elektraHexcodeSet hex_default (Some 1%positive) (Some 3%positive);;
      get <- elektraHexcodeGet (ret None) (snd set) (Some 1%positive) (Some 3%positive);;
      ret (fst set, fst get))
     (fun r h => r = (1, 1)%Z /\ revalued text_keys [1%positive; 2%positive] text_values (h_keys h) /\
                 delete 1%positive (h_sets h) = delete 1%positive text_sets) (mkHeap text_keys text_sets).
Proof.
  apply (elektraHexcode_roundtrip (ret None) hex_default text_keys text_sets 1 (demo_set [1%positive; 2%positive])
           [1%positive; 2%positive] text_values 3 (text_key "user" "") (lit "user")).
  - reflexivity.
  - apply demo_set_rep. simpl. lia.
  - apply text_NoDup.
  - apply text_has_values.
  - reflexivity.
  - reflexivity.
  - reflexivity.
  - reflexivity.
Defined.

Lemma elektraCcode_roundtrip_witness :
  wp (set <- elektraCcodeSet ccode_default (Some 1%positive) (Some 3%positive);;
      get <- elektraCcodeGet (ret None) (snd set) (Some 1%positive) (Some 3%positive);;
      ret (fst set, fst get))
     (fun r h => r = (1, 1)%Z /\ revalued text_keys [1%positive; 2%positive] text_values (h_keys h) /\
                 delete 1%positive (h_sets h) = delete 1%positive text_sets) (mkHeap text_keys text_sets).
Proof.
  apply (elektraCcode_roundtrip (ret None) ccode_default text_keys text_sets 1 (demo_set [1%positive; 2%positive])
           [1%positive; 2%positive] text_values 3 (text_key "user" "") (lit "user")).
  - reflexivity.
  - apply demo_set_rep. simpl. lia.
  - apply text_NoDup.
  - apply text_has_values.
  - apply default_ccode_ok.
  - reflexivity.
  - reflexivity.
  - reflexivity.
Defined.


(** A keyset with one boolean, its metadata, and the parent key. *)
Definition flag_keys : gmap loc Key :=
  {[ 1%positive := demo_key "user/app/flag" (Some "yes") 1 (Some 2%positive);
     2%positive := demo_key "type" (Some "boolean") 1 None;
     3%positive := demo_key "user/app" None 0 None ]}.

Definition flag_sets : gmap loc KeySet := {[ 1%positive := demo_set [1%positive]; 2%positive := demo_set [2%positive] ]}.

Definition flag_entry (x : loc) : entry := mkEntry (Some (lit "user/app/flag")) (Some (lit "yes" ++ [NUL])) {[ mu "type" := lit "boolean" ]}.

Definition flag_data : BoolData := mkBool (lit "1") (lit "0") 5 None None.

Lemma flag_metadata : metadata flag_keys flag_sets (demo_key "user/app/flag" (Some "yes") 1 (Some 2%positive)) [2%positive] {[ mu "type" := lit "boolean" ]}.
Proof.
  split.
  - exists (demo_set [2%positive]). split_and!; [reflexivity|apply demo_set_rep; simpl; lia|by left|repeat constructor; by eexists|repeat constructor].
  - intros x ->%list_elem_of_singleton. eexists. split; reflexivity.
  - intros u. destruct (decide (u = mu "type")) as [->|Hu].
    + assert (find_uname flag_keys [2%positive] (mu "type") = Some 2%positive) as -> by demo_eval. rewrite lookup_singleton_eq.
      exists (demo_key "type" (Some "boolean") 1 None). by split_and!.
    + rewrite find_uname_None; [by rewrite lookup_singleton_ne|]. intros x ->%list_elem_of_singleton Ex. apply Hu. by rewrite <- Ex.
Qed.

Lemma flag_entries :
  entries [1%positive] {[ 3%positive := demo_key "user/app" None 0 None ]} {[ 1%positive := demo_set [1%positive] ]} flag_entry flag_keys flag_sets.
Proof.
  exists (fun _ => [2%positive]). split.
  - intros l ->%list_elem_of_singleton. eexists. split_and!; [reflexivity..|apply flag_metadata].
  - intros l l' ->%list_elem_of_singleton ->%list_elem_of_singleton. done.
  - intros l l' k k' m ->%list_elem_of_singleton ->%list_elem_of_singleton. done.
  - intros y k [<- <-]%lookup_singleton_Some. split_and!; [reflexivity|by intros ?%list_elem_of_singleton|by intros l _ ?%list_elem_of_singleton].
  - intros m s [<- <-]%lookup_singleton_Some. split; [reflexivity|]. intros l k ->%list_elem_of_singleton Hk Hm. injection Hk as <-. discriminate.
Qed.

#[local] Instance boolean_pops : PopLaws (@env_rec demo_env) := knot_pops 19.

Lemma elektraBoolean_roundtrip_witness :
  wp (r <- elektraBooleanGet (ret None) (ret tt) (Some flag_data) None (Some 1%positive) (Some 3%positive);;
      r' <- elektraBooleanSet undefined (snd r) (Some 1%positive);; ret (fst r, r'))
     (fun r h => r = (1%Z, 1%Z) /\ exists FS, entries [1%positive] {[ 3%positive := demo_key "user/app" None 0 None ]} FS flag_entry (h_keys h) (h_sets h))
     (mkHeap flag_keys flag_sets).
Proof.
  apply wp_bind. eapply wp_mono; [apply (elektraBoolean_roundtrip [1%positive] {[ 3%positive := demo_key "user/app" None 0 None ]} (ret None) (ret tt) undefined
    flag_data None 1 [1%positive] (demo_set [1%positive]) 3 (demo_key "user/app" None 0 None) (lit "user/app") {[ 1%positive := demo_set [1%positive] ]} flag_entry)|].
  - reflexivity.
  - apply demo_set_rep. simpl. lia.
  - apply NoDup_singleton.
  - done.
  - reflexivity.
  - reflexivity.
  - reflexivity.
  - repeat constructor; discriminate.
  - repeat constructor; discriminate.
  - intros x _ _. exists (lit "yes"). split_and!; [reflexivity|discriminate|repeat constructor; discriminate|reflexivity..].
  - apply flag_entries.
  - intros r h (-> & _ & Hset). apply wp_bind. eapply wp_mono; [exact Hset|]. intros r' h' (-> & s' & _ & He).
    apply wp_ret. split; [reflexivity|]. by eexists.
Defined.

(** A keyset with one key without metadata. *)
Definition null_keys (v : option string) : gmap loc Key :=
  {[ 1%positive := demo_key "user/app/x" v 1 None; 3%positive := demo_key "user/app" None 0 None ]}.
Definition null_sets : gmap loc KeySet := {[ 1%positive := demo_set [1%positive] ]}.
Definition null_entry (v : option string) (x : loc) : entry := mkEntry (Some (lit "user/app/x")) ((fun v => lit v ++ [NUL]) <$> v) ∅.

Lemma null_entries v :
  entries [1%positive] {[ 3%positive := demo_key "user/app" None 0 None ]} null_sets (null_entry v) (null_keys v) null_sets.
Proof.
  exists (fun _ => []). split.
  - intros l ->%list_elem_of_singleton. eexists. split_and!; [reflexivity..|]. by apply metadata_nil.
  - intros l l' ->%list_elem_of_singleton ->%list_elem_of_singleton. done.
  - intros l l' k k' m ->%list_elem_of_singleton ->%list_elem_of_singleton. done.
  - intros y k [<- <-]%lookup_singleton_Some. split_and!; [reflexivity|by intros ?%list_elem_of_singleton|by intros l _ ?%not_elem_of_nil].
  - intros m s H. unfold null_sets in H. apply lookup_singleton_Some in H as [<- <-]. split; [reflexivity|]. intros l k ->%list_elem_of_singleton Hk Hm. injection Hk as <-. discriminate.
Qed.

Lemma elektraNull_roundtrip_witness :
  wp (r <- elektraNullSet (Some 1%positive);; r' <- elektraNullGet (ret None) (Some 1%positive) (Some 3%positive);; ret (r, r'))
     (fun r h => r = (1%Z, 1%Z) /\ exists FS, entries [1%positive] {[ 3%positive := demo_key "user/app" None 0 None ]} FS (null_entry None) (h_keys h) (h_sets h))
     (mkHeap (null_keys None) null_sets).
Proof.
  apply wp_bind. eapply wp_mono; [apply (elektraNull_roundtrip [1%positive] {[ 3%positive := demo_key "user/app" None 0 None ]} (ret None)
    1 [1%positive] (demo_set [1%positive]) 3 (demo_key "user/app" None 0 None) (lit "user/app") null_sets (null_entry None))|].
  - reflexivity.
  - apply demo_set_rep. simpl. lia.
  - apply NoDup_singleton.
  - done.
  - reflexivity.
  - reflexivity.
  - reflexivity.
  - intros x _. left. reflexivity.
  - apply null_entries.
  - intros r h (-> & _ & H). apply wp_bind. eapply wp_mono; [exact H|]. intros r' h' (-> & s' & _ & He). apply wp_ret. split; [reflexivity|]. eexists. exact He.
Defined.

Lemma elektraNull_at_undefined_witness :
  wp (null_set_key 1) (fun _ h => null_get_key 1 h = Undefined) (mkHeap (null_keys (Some "@home"%string)) null_sets).
Proof.
  apply (elektraNull_at_undefined [1%positive] {[ 3%positive := demo_key "user/app" None 0 None ]} null_sets 1 (null_entry (Some "@home"%string))
    (null_keys (Some "@home"%string)) null_sets "@"%char (lit "home" ++ [NUL]) (lit "@home")).
  - by left.
  - reflexivity.
  - reflexivity.
  - reflexivity.
  - repeat constructor; discriminate.
  - reflexivity.
  - apply null_entries.
Defined.

(** ** Specifications *)

Definition spec_name : cstr := lit "spec/app/_/#".

Lemma spec_name_parts : no_slash (lit "spec") /\ Forall no_slash [lit "app"; lit "_"; lit "#"].
Proof.
  split; [|repeat constructor]; intros H%list_elem_of_In; simpl in H; repeat (destruct H as [H|H]; [discriminate H|]); done.
Qed.

Lemma keyNameToMatchingString_globs_witness :
  keyNameToMatchingString (Some 1%positive) (mkHeap {[ 1%positive := demo_key "spec/app/_/#" None 0 None ]} ∅)
  = Ret (lit "app/*/#*") (mkHeap {[ 1%positive := demo_key "spec/app/_/#" None 0 None ]} ∅).
Proof.
  apply (keyNameToMatchingString_globs {[ 1%positive := demo_key "spec/app/_/#" None 0 None ]} ∅ 1 (demo_key "spec/app/_/#" None 0 None)
    (lit "spec") (lit "app") [lit "_"; lit "#"]).
  - reflexivity.
  - reflexivity.
  - apply spec_name_parts.
  - apply spec_name_parts.
  - vm_compute. lia.
Defined.

Definition deep_key : Key :=
  set_name (demo_key "spec" None 0 None) (Some (lit "spec" ++ joined (replicate 256 (lit "#")))) [].

Lemma keyNameToMatchingString_overflows_witness :
  keyNameToMatchingString (Some 1%positive) (mkHeap {[ 1%positive := deep_key ]} ∅) = Undefined.
Proof. apply (keyNameToMatchingString_overflows {[ 1%positive := deep_key ]} ∅ 1 deep_key 256); [reflexivity|reflexivity|lia]. Defined.

(** A key, its specification at 3 with metadata that is copied and metadata that is not. *)
Definition spec_frame : gmap loc Key :=
  {[ 3%positive := demo_key "spec/app/x" None 1 (Some 3%positive);
     4%positive := demo_key "check/type" (Some "long") 1 None;
     5%positive := demo_key "internal/seen" (Some "1") 1 None ]}.
Definition spec_keys : gmap loc Key := <[1%positive := demo_key "user/app/x" (Some "5") 1 None]> spec_frame.
Definition spec_sets : gmap loc KeySet := {[ 3%positive := demo_set [4%positive; 5%positive] ]}.
Definition spec_items : list (cstr * cstr) := [(lit "check/type", lit "long"); (lit "internal/seen", lit "1")].
Definition spec_of (_ : loc) : entry := mkEntry (Some (lit "user/app/x")) (Some (lit "5" ++ [NUL])) ∅.

Lemma spec_entries : entries [1%positive] spec_frame spec_sets spec_of spec_keys spec_sets.
Proof.
  exists (fun _ => []). split.
  - intros l ->%list_elem_of_singleton. eexists. split_and!; [reflexivity..|]. by apply metadata_nil.
  - intros l l' ->%list_elem_of_singleton ->%list_elem_of_singleton. done.
  - intros l l' k k' m ->%list_elem_of_singleton ->%list_elem_of_singleton. done.
  - intros y k Hy. assert (y <> 1%positive) as Hne by (intros ->; discriminate Hy). split_and!.
    + unfold spec_keys. by rewrite lookup_insert_ne by (by apply not_eq_sym).
    + by intros ?%list_elem_of_singleton.
    + by intros l _ ?%not_elem_of_nil.
  - intros m s H. split; [done|]. intros l k ->%list_elem_of_singleton Hk Hm. injection Hk as <-. discriminate.
Qed.

Lemma spec_specified : specified spec_frame spec_sets 3 spec_items.
Proof.
  eexists. split; [reflexivity|]. exists (demo_set [4%positive; 5%positive]), [4%positive; 5%positive].
  split_and!; [reflexivity|apply demo_set_rep; simpl; lia|].
  constructor; [|constructor; [|constructor]].
  all: split_and!; [eexists; split; reflexivity|meta_name_eval|eexists; split_and!; reflexivity|solve_no_nul].
Qed.

Lemma spec_names : NoDup (meta_names spec_items).
Proof. apply (bool_decide_unpack _). vm_compute. exact I. Qed.

Lemma copyMeta_copies_witness :
  wp (copyMeta (Some 1%positive) (Some 3%positive))
     (fun _ h => exists FS e, entries [1%positive] spec_frame FS e (h_keys h) (h_sets h) /\
        en_meta (e 1%positive) !! mu "check/type" = Some (lit "long") /\ en_meta (e 1%positive) !! mu "internal/seen" = None)
     (mkHeap spec_keys spec_sets).
Proof.
  eapply wp_mono; [apply (copyMeta_copies [1%positive] spec_frame 3 1 spec_items spec_of spec_sets)|].
  - by left.
  - apply spec_specified.
  - apply spec_names.
  - repeat constructor; reflexivity.
  - apply spec_entries.
  - intros _ h (FS & e & _ & He & _ & _ & _ & Hm). exists FS, e. split; [exact He|]. rewrite !Hm. split; reflexivity.
Defined.

Lemma copyMeta_removeMeta_witness :
  wp (copyMeta (Some 1%positive) (Some 3%positive);; removeMeta (Some 1%positive) (Some 3%positive))
     (fun _ h => exists FS, specified spec_frame FS 3 spec_items /\ entries [1%positive] spec_frame FS spec_of (h_keys h) (h_sets h))
     (mkHeap spec_keys spec_sets).
Proof.
  apply (copyMeta_removeMeta [1%positive] spec_frame 3 1 spec_items spec_of spec_sets).
  - by left.
  - apply spec_specified.
  - apply spec_names.
  - repeat constructor.
  - repeat constructor; intros; vm_compute; reflexivity.
  - reflexivity.
  - apply spec_entries.
Defined.

(** ** Line endings *)

Definition two_lines : list (list ascii * Lineending) := [(lit "a", CRLF); (lit "b", LF)].

Lemma check_bytes_verdict_witness :
  fst <$> check_bytes (text two_lines (lit "c")) CRLF = Some (-3)%Z /\ fst <$> check_bytes (text two_lines (lit "c")) LF = Some (-2)%Z.
Proof.
  assert (separated NA two_lines) as Hs by (repeat split; try discriminate; repeat constructor; discriminate).
  assert (Forall plain_char (lit "c")) as Hl by (repeat constructor; discriminate).
  split; [rewrite (check_bytes_verdict two_lines (lit "c") CRLF)|rewrite (check_bytes_verdict two_lines (lit "c") LF)]; try done.
Defined.

(** ** A file of two lines *)

Definition hosts_file : list cstr := [lit "127.0.0.1 localhost"; []].
Definition line_keys : gmap loc Key := {[ 1%positive := demo_key "system/hosts" (Some "/etc/hosts") 0 None ]}.
Definition line_sets : gmap loc KeySet := {[ 1%positive := demo_set [] ]}.

Lemma elektraLine_roundtrip_witness :
  wp (elektraLineGet (fun f => if decide (f = lit "/etc/hosts") then Some (lines_text hosts_file) else None)
        (fun _ => ret tt) (fun _ _ _ => ret tt) (ret None) (Some 1%positive) (Some 1%positive))
    (fun r h => r = 1%Z /\ wp (elektraLineSet (fun _ => true) (fun _ => ret tt) (Some 1%positive) (Some 1%positive))
       (fun r' _ => r' = (1%Z, Some (lines_text hosts_file))) h) (mkHeap line_keys line_sets).
Proof.
  eapply wp_mono; [apply (elektraLine_roundtrip _ (fun _ => true) (fun _ => ret tt) (fun _ _ _ => ret tt) (ret None)
    (lit "system") [lit "hosts"] 1 (demo_key "system/hosts" (Some "/etc/hosts") 0 None) (lit "/etc/hosts") hosts_file 1 line_keys line_sets)|].
  - split_and!; [reflexivity..|]. eexists. split_and!; reflexivity.
  - exists (demo_set []). split_and!; [reflexivity|apply demo_set_rep; simpl; lia|by left|constructor|constructor].
  - split; [unfold namespace_roots; simpl; set_solver|repeat constructor; discriminate].
  - apply (bool_decide_unpack _). vm_compute. exact I.
  - reflexivity.
  - reflexivity.
  - reflexivity.
  - repeat constructor; try discriminate; intros H%list_elem_of_In; simpl in H; repeat (destruct H as [H|H]; [discriminate H|]); done.
  - unfold array_limit. simpl length. lia.
  - intros r h (-> & _ & H). split; [reflexivity|exact H].
Defined.

(** ** A table of two rows *)

Definition two_rows : table := [[lit "a"; lit "b"]; [lit "c"; []]].
Definition table_files (name : cstr) : option table := if decide (name = lit "/f") then Some two_rows else None.
Definition table_keys : gmap loc Key := {[ 1%positive := demo_key "system/t" (Some "/f") 0 None ]}.
Definition table_sets : gmap loc KeySet := {[ 1%positive := demo_set [] ]}.

Lemma csvRead_reads_table_witness :
  csvRead (fun name => table_text "," <$> table_files name) (fun _ _ _ => undefined) (fun _ _ _ => undefined) (Some 1%positive) (Some 1%positive)
    "," 1 2 None (mkHeap table_keys table_sets) =
  bindM (keyString (Some 1%positive)) (fun fileName =>
    match table_files fileName with
    | None => undefined
    | Some t => read_table (fun _ _ _ => undefined) (fun _ _ _ => undefined) t (Some 1%positive) (Some 1%positive) 1 2 None
    end) (mkHeap table_keys table_sets) /\
  csvRead (fun name => table_text "," <$> table_files name) (fun _ _ _ => undefined) (fun _ _ _ => undefined) (Some 1%positive) (Some 1%positive)
    "," 1 2 None (mkHeap table_keys table_sets) <> Undefined.
Proof.
  split.
  - apply (csvRead_reads_table (fun _ _ _ => undefined) (fun _ _ _ => undefined) table_files).
    + discriminate.
    + discriminate.
    + intros name t. unfold table_files. destruct (decide _); [|discriminate]. intros [= <-]. split.
      * apply (bool_decide_unpack _). vm_compute. exact I.
      * vm_compute. discriminate.
  - vm_compute. discriminate.
Defined.
